(* ===== verification/_CoqProject ===== *)
-Q . S2P
Prelude.v
GoStrings.v
Float64.v
FloatBounds.v
NetIP.v
NetPrefix.v
NetURL.v
NetURLSpec.v
SHA256.v
Http.v
Value.v
Config.v
Limiter.v
Rates.v
Admission.v
Queue.v
ACL.v
Headers.v
Payload.v
Buffers.v
Json.v
Durations.v
Encoding.v
Dates.v
Usage.v
Database.v
Urls.v
Metrics.v
Effects.v
Stream.v
Discovery.v
DiscoverySpec.v
Proxy.v
StreamSpec.v
ProxySpec.v
Readiness.v
Gateway.v
GatewaySpec.v
System.v
Lifecycle.v
