(* ===== verification/Prelude.v ===== *)
(** * Shepard: a verification library for the gateway

    Shepard is an HTTP gateway in front of OpenAI-compatible providers: it
    checks who may use it, limits and queues requests, rewrites them, sends them
    to the targets of a model with retries and failover, streams the answer back
    and accounts for its tokens.  This library models its Go code and proves
    what each part promises and what the parts promise together.  This file is
    the root: its documentation covers the whole library, and its definitions
    are the ones every other file shares (automation, machine integers, sorted
    keys, sums, early returns).

    ** Parts, files and sources

    The language and its standard library, as far as the code relies on them:
    - [GoStrings] ([strings], [bytes]), [Float64] ([float64] as binary64),
      [FloatBounds] (its values as real numbers, and how far an operation rounds up),
      [Http] (canonical header maps, requests, status codes), [Value] (dynamic
      values; the class [MapOrder] of the orders in which a map may be ranged
      over), [NetIP] and [NetPrefix] (addresses and networks, down to the bytes),
      [SHA256], [Json] (the grammar, escapes and numbers of [encoding/json]),
      [Dates] (UTC days), [NetURL] ([net/url]: parsing, printing, queries),
      [NetURLSpec] (a printed URL is parsed into its parts again), [Durations]
      ([time.ParseDuration], and the [UnmarshalYAML] of [config.go] on top of it).
    The program:
    - [Config]: [internal/config/config.go].  Records, [defaults], [Validate]
      with one definition per block, [Load], the exposure warning.
    - [Limiter]: [internal/gateway/limiter.go].  [limitStore_admit] is [admit]
      with its two loops [admit_check] and [consume]; [release] is the closure it
      returns; [limit_step] interleaves admissions, releases and reloads.
    - [Rates]: histories of admissions and releases with a clock, and what a rate
      bounds in a window of time.
    - [Admission]: what a limiter promises, as a class of laws ([AdmissionControl])
      and an abstract machine ([spec_step]); [limitStore] is an instance.
    - [Urls]: [upstreamURL] of [gateway.go], over [path.Clean] and [path.Join].
    - [Queue]: [queue.go].  [wait_step] is one critical section, or one turn of
      [select], of [wait].
    - [ACL]: [acl.go].  Access lists, and the client address behind proxies, with
      the one line of [X-Forwarded-For] that [ServeHTTP] reads.
    - [Headers]: what crosses the boundaries of the gateway ([gateway.go],
      [logging.go]), authorisation, client identities ([limiter.go]).
    - [Payload]: prompts, overrides and provider translations of a request body.
    - [Encoding]: which payloads [json.Marshal] takes, as a type discipline kept
      by every transformation of [Payload].
    - [Buffers]: the tail that usage is read from, the head that is logged.
    - [Usage]: [usage.go].  Token extraction, the two tables and the reports.
    - [Database]: [newUsageStore] and [close] of [usage.go], as the calls they make.
    - [Metrics]: [metrics.go].
    - [Effects]: the language of the handlers.  A handler is a [prog], a tree of
      commands ([cmd]), each one access to shared state, to the client, to a
      provider or to a clock, with a continuation for every answer.  [exec]
      relates a program to its traces; a monitor reads a trace, and [wp] proves
      that a program is accepted by a monitor whatever the answers are.
    - [Stream]: the copy of a response body to the client ([flushWriter], the tee
      readers and [io.Copy] of [gateway.go]), one command per read and write.
    - [Discovery] ([discovery.go]), [Proxy] ([proxy], [doUpstreamRequest] and
      [waitForRetry] of [gateway.go], [logging.go]), [Readiness] ([readiness.go]),
      [Gateway] ([New], [Reload], [ServeHTTP] and the other handlers of
      [gateway.go], the reload loop of [cmd/shepard/main.go]).
    - [StreamSpec], [DiscoverySpec], [ProxySpec], [GatewaySpec], [System]: the
      theorems about the relayed stream, the discovery cache among concurrent
      lookups and reloads, the handlers, the gateway as a whole and many requests
      at once.
    - [Lifecycle]: [main] of [cmd/shepard/main.go].  Start-up is a function;
      [proc_step] interleaves [main], its goroutines, signals, the single stores
      of a reload and requests.

    ** How the parts interact

    [ServeHTTP] loads the configuration, the trusted networks and the access list
    from three atomic pointers, checks the client's address ([ACL]) and key
    ([Headers]) and calls a handler.  [proxy] acquires admissions from [Limiter]
    through [Queue] (ingress and client, then model, then provider for every
    attempt), resolves the model ([Config], [Discovery]), builds the body
    ([Payload]) and the headers ([Headers]) for each target, and relays one
    response through [Stream] and [Buffers] into [Usage].  [System] puts any number of such
    programs side by side over one limiter and one queue.

    ** What the theorems show

    - Safety of the whole: [System.system_accounting] (no admission is lost or
      counted twice, limits and queue size hold, all counters drain) and
      [System.system_drains]; [ProxySpec.proxy_disciplined] (one reply, every
      resource released on every path); [GatewaySpec.serve_guarded] (nothing
      happens for a request before both guards have passed).
    - The answer: [StreamSpec.relay_transparent] (the client gets the provider's
      bytes, in order, flushed and under a deadline; usage sees the same bytes).
    - Where requests go: [Urls.upstream_url_spec] (the client chooses the query and
      nothing else of the URL, as text and as [net/http] reads it back; what
      follows a ["#"] in the query is not sent).
    - Types: [Encoding.bodies_well_typed] (an upstream body can always be encoded,
      unless an override of the configuration has no JSON form).
    - Lifetime: [Lifecycle.startup_spec] and [Lifecycle.process_invariant] (the
      settings between two reloads and in the middle of one).
    - Who the client is: [ACL.forwarded_no_spoofing] and its limit,
      [Gateway.added_line_spoofed].
    - Policy: [ProxySpec.failover_policy], the functional specifications of
      admission, prompts, overrides, translations, headers, access lists,
      listings, reports and reloads.
    - Refinement: [Admission.limiter_refines] (the limiter implements its abstract
      machine), [Config.validate_spec] and [ACL.acl_contains_iff_entry] (code equal
      to a declarative specification).
    - Rates: [Limiter.burst_exact] (one instant, exactly) and
      [Rates.rate_limit_over_time] (any window of time, with the rounding errors of
      the arithmetic bounded).
    - State machines by rule induction: [Limiter], [Readiness], [DiscoverySpec], [System].
    - Accounting: [Usage.usage_accounting] over histories with failing calls.
    - Divergences between the code and what it or its documents promise, each a
      theorem on a concrete or general input: a shutdown that does not wait, an
      override that cannot be encoded, a torn reload, discovery results that outlive
      a reload, overlapping discovery prefixes, a misleading 429, bypassed overrides,
      evaded client limits, widened IPv4-mapped entries, a client's address taken from the
      wrong header line, NaN rates.

    ** Bounds and fuel

    [Json.parse_json] runs on [2 * length + 2] units of fuel, and
    [parse_fuel_enough] proves that more never changes the result.  The attempt
    loop of [proxy] is a recursion on [Retries + 1], the number of iterations of
    the source; the copy of a body is one on the number of reads that yield data,
    which the environment chooses.  Everything else is structural.  Integers keep
    their width where the code counts ([int64], [uint64]); durations and clock
    readings are nanoseconds in [Z]; rates and tokens are binary64 with the
    rounding of the hardware.

    ** What is not modelled

    - Bytes of encoded JSON: replies and upstream bodies are values ([any],
      [reply]); [json.Marshal] is modelled by when it fails.
    - The YAML decoder (third-party code, an argument of [Load]) and
      [strconv.Quote] (an argument of [proxy]: its tables of printable runes are
      left out).
    - SQLite: the two tables are maps, [ON CONFLICT] and [GROUP BY] act on them,
      and which call fails is an argument; integer overflow inside SQLite is left
      out.
    - The HTTP server and client, contexts and timers: commands with arbitrary
      answers, and for the server's [Shutdown] its documented behaviour.  The
      flags of the command line are arguments.  Panics, the garbage collector and
      the memory model are left out; the atomic pointers and mutexes are taken as
      sequentially consistent.
    - The text of log lines, except for the ones that carry headers and bodies. *)

From Stdlib Require Import ZArith Lia.
From stdpp Require Export base tactics numbers list gmap sets strings sorting relations.

(** ** Automation

    [go_db] collects the lemmas that the components export for [eauto];
    [go_rw] the equations that normalise the Go helpers. *)
Create HintDb go_db.
Create Rewrite HintDb go_rw.

(** Case analysis on every boolean test of a hypothesis or of the goal. *)
Ltac case_if_in H :=
  match type of H with
  | context [if ?b then _ else _] => let E := fresh "E" in destruct b eqn:E
  end.

Ltac case_if :=
  match goal with
  | |- context [if ?b then _ else _] => let E := fresh "E" in destruct b eqn:E
  end.

(** Turn the boolean comparisons of [Z] and the connectives into propositions. *)
Ltac bool_to_prop :=
  repeat match goal with
  | H : (_ && _)%bool = true |- _ => apply andb_true_iff in H; destruct H
  | H : (_ || _)%bool = false |- _ => apply orb_false_iff in H; destruct H
  | H : (_ || _)%bool = true |- _ => apply orb_true_iff in H
  | H : (_ && _)%bool = false |- _ => apply andb_false_iff in H
  | H : negb _ = true |- _ => apply negb_true_iff in H
  | H : negb _ = false |- _ => apply negb_false_iff in H
  | H : (_ <? _)%Z = true |- _ => apply Z.ltb_lt in H
  | H : (_ <? _)%Z = false |- _ => apply Z.ltb_ge in H
  | H : (_ <=? _)%Z = true |- _ => apply Z.leb_le in H
  | H : (_ <=? _)%Z = false |- _ => apply Z.leb_gt in H
  | H : (_ >? _)%Z = _ |- _ => rewrite Z.gtb_ltb in H
  | H : (_ >=? _)%Z = _ |- _ => rewrite Z.geb_leb in H
  | H : (_ =? _)%Z = true |- _ => apply Z.eqb_eq in H
  | H : (_ =? _)%Z = false |- _ => apply Z.eqb_neq in H
  | H : bool_decide _ = true |- _ => apply bool_decide_eq_true in H
  | H : bool_decide _ = false |- _ => apply bool_decide_eq_false in H
  end.

(** ** Machine integers

    Go's [int] (64 bits on the supported platforms) and [int64] are [Z]
    values in two's complement range; [uint64] values are reduced modulo
    [2^64].  The wrap-around of the increments is written out. *)
Definition MinInt64 : Z := - 2 ^ 63.
Definition MaxInt64 : Z := 2 ^ 63 - 1.

Definition int64 (z : Z) : Z := (z + 2 ^ 63) mod 2 ^ 64 - 2 ^ 63.
Definition uint64 (z : Z) : Z := z mod 2 ^ 64.

Definition in_int64 (z : Z) : Prop := (MinInt64 ≤ z ≤ MaxInt64)%Z.

#[export] Instance in_int64_dec z : Decision (in_int64 z).
Proof. unfold in_int64. apply _. Defined.

Lemma int64_id z : in_int64 z → int64 z = z.
Proof.
  unfold in_int64, int64, MinInt64, MaxInt64. intros H.
  rewrite Z.mod_small; lia.
Qed.

Lemma int64_range z : in_int64 (int64 z).
Proof.
  unfold in_int64, int64, MinInt64, MaxInt64.
  pose proof (Z.mod_pos_bound (z + 2 ^ 63) (2 ^ 64) ltac:(lia)). lia.
Qed.

Lemma uint64_id z : (0 ≤ z < 2 ^ 64)%Z → uint64 z = z.
Proof. apply Z.mod_small. Qed.

Lemma uint64_range z : (0 ≤ uint64 z < 2 ^ 64)%Z.
Proof. apply Z.mod_pos_bound. lia. Qed.

Lemma uint64_add_l a b : uint64 (uint64 a + b) = uint64 (a + b).
Proof. apply Zplus_mod_idemp_l. Qed.

Lemma uint64_add_r a b : uint64 (a + uint64 b) = uint64 (a + b).
Proof. apply Zplus_mod_idemp_r. Qed.

#[export] Hint Resolve int64_range uint64_range : go_db.

(** ** Go maps

    A Go map is a [gmap]; reading an absent key yields the zero value. *)
Definition map_get {K V} `{Countable K} (zero : V) (m : gmap K V) (k : K) : V :=
  default zero (m !! k).

Section map_get.
Context {K V : Type} `{Countable K}.
Implicit Types (m : gmap K V) (k : K) (v zero : V).

Lemma map_get_insert zero m k v : map_get zero (<[k := v]> m) k = v.
Proof. unfold map_get. by rewrite lookup_insert_eq. Qed.

Lemma map_get_insert_ne zero m k k' v :
  k ≠ k' → map_get zero (<[k := v]> m) k' = map_get zero m k'.
Proof. intros. unfold map_get. by rewrite lookup_insert_ne. Qed.

Lemma map_get_delete zero m k : map_get zero (delete k m) k = zero.
Proof. unfold map_get. by rewrite lookup_delete_eq. Qed.

Lemma map_get_delete_ne zero m k k' :
  k ≠ k' → map_get zero (delete k m) k' = map_get zero m k'.
Proof. intros. unfold map_get. by rewrite lookup_delete_ne. Qed.

Lemma map_get_empty zero k : map_get zero (∅ : gmap K V) k = zero.
Proof. done. Qed.
End map_get.

#[export] Hint Rewrite @map_get_insert @map_get_delete @map_get_empty : go_rw.
#[export] Hint Rewrite @map_get_insert_ne @map_get_delete_ne using done : go_rw.

(** The keys of a map in Go's [sort.Strings] order. *)
Definition map_keys {V} (m : gmap string V) : list string := (map_to_list m).*1.

Definition sort_strings : list string → list string := merge_sort String.le.

Lemma elem_of_map_keys {V} (m : gmap string V) k : k ∈ map_keys m ↔ is_Some (m !! k).
Proof.
  unfold map_keys. rewrite list_elem_of_fmap. split.
  - intros ([k' v] & -> & Hin). apply elem_of_map_to_list in Hin. simpl. eauto.
  - intros [v Hv]. exists (k, v). split; [done|]. by apply elem_of_map_to_list.
Qed.

Lemma NoDup_map_keys {V} (m : gmap string V) : NoDup (map_keys m).
Proof. apply NoDup_fst_map_to_list. Qed.

Lemma sort_strings_perm l : sort_strings l ≡ₚ l.
Proof. apply merge_sort_Permutation. Qed.

Lemma sort_strings_sorted l : StronglySorted String.le (sort_strings l).
Proof. apply (StronglySorted_merge_sort String.le). Qed.

Lemma sort_strings_unique l1 l2 : l1 ≡ₚ l2 → sort_strings l1 = sort_strings l2.
Proof.
  intros Hp. apply (StronglySorted_unique String.le); [apply sort_strings_sorted..|].
  by rewrite !sort_strings_perm.
Qed.

(** ** Sums over lists *)
Definition sumZ {A} (f : A → Z) (l : list A) : Z := foldr (λ x acc, (f x + acc)%Z) 0%Z l.

Section sumZ.
Context {A : Type}.
Implicit Types (f g : A → Z) (l : list A).

Lemma sumZ_app f l1 l2 : sumZ f (l1 ++ l2) = (sumZ f l1 + sumZ f l2)%Z.
Proof. induction l1 as [|x l1 IH]; simpl; [done|]. unfold sumZ in *. simpl. lia. Qed.

Lemma sumZ_cons f x l : sumZ f (x :: l) = (f x + sumZ f l)%Z.
Proof. done. Qed.

Lemma sumZ_nonneg f l : (∀ x, x ∈ l → (0 ≤ f x)%Z) → (0 ≤ sumZ f l)%Z.
Proof.
  induction l as [|x l IH]; intros Hf; [done|]. rewrite sumZ_cons.
  pose proof (Hf x ltac:(set_solver)). pose proof (IH ltac:(set_solver)). lia.
Qed.

Lemma sumZ_ext f g l : (∀ x, x ∈ l → f x = g x) → sumZ f l = sumZ g l.
Proof.
  induction l as [|x l IH]; intros Hf; [done|]. rewrite !sumZ_cons.
  rewrite Hf, IH by set_solver. done.
Qed.

#[export] Instance sumZ_perm f : Proper (Permutation ==> eq) (sumZ f).
Proof. induction 1; rewrite ?sumZ_cons in *; lia. Qed.

Lemma sumZ_zero f l : (∀ x, x ∈ l → f x = 0%Z) → sumZ f l = 0%Z.
Proof.
  induction l as [|x l IH]; intros Hf; [done|]. rewrite sumZ_cons, Hf, IH by set_solver. done.
Qed.

Lemma sumZ_elem_le f l x :
  (∀ y, y ∈ l → (0 ≤ f y)%Z) → x ∈ l → (f x ≤ sumZ f l)%Z.
Proof.
  intros Hf Hx. apply list_elem_of_split in Hx as (l1 & l2 & ->).
  rewrite sumZ_app, sumZ_cons.
  pose proof (sumZ_nonneg f l1 ltac:(set_solver)).
  pose proof (sumZ_nonneg f l2 ltac:(set_solver)). lia.
Qed.
End sumZ.

Lemma sumZ_fmap {A B} (g : A → B) (f : B → Z) (l : list A) : sumZ f (g <$> l) = sumZ (f ∘ g) l.
Proof.
  induction l as [|x l IH]; [done|].
  change (g <$> x :: l) with (g x :: (g <$> l)). rewrite !sumZ_cons, IH. done.
Qed.

(** ** Early returns

    A Go validation returns its first error: [a ;?; b] runs [b] when [a]
    found none.  [None] is the nil error. *)
Declare Scope go_scope.

Definition orelse {E} (a b : option E) : option E :=
  match a with Some e => Some e | None => b end.

Infix ";?;" := orelse (at level 62, right associativity) : go_scope.

Local Open Scope go_scope.

Definition reject_if {E} (b : bool) (e : E) : option E := if b then Some e else None.

(** The first error that a check finds along a list. *)
Fixpoint first_error {A E} (check : A → option E) (l : list A) : option E :=
  match l with
  | [] => None
  | x :: l' => check x ;?; first_error check l'
  end.

Lemma orelse_None {E} (a b : option E) : a ;?; b = None ↔ a = None ∧ b = None.
Proof. destruct a; simpl; naive_solver. Qed.

Lemma reject_if_None {E} b (e : E) : reject_if b e = None ↔ b = false.
Proof. by destruct b. Qed.

Lemma first_error_None {A E} (check : A → option E) l :
  first_error check l = None ↔ ∀ x, x ∈ l → check x = None.
Proof.
  induction l as [|x l IH]; simpl; [set_solver|].
  rewrite orelse_None, IH. set_solver.
Qed.

Lemma first_error_Some {A E} (check : A → option E) l e :
  first_error check l = Some e → ∃ x, x ∈ l ∧ check x = Some e.
Proof.
  induction l as [|x l IH]; simpl; [done|].
  destruct (check x) eqn:Ex; simpl; [intros [= ->]|intros (y & ? & ?)%IH]; set_solver.
Qed.
