(* ===== verification/GoStrings.v ===== *)
(** * Go strings

    The functions of Go's [strings] and [bytes] packages that the gateway
    calls.  A Go string is a sequence of bytes, so it is a [string] of 8-bit
    [ascii] characters here; comparison is bytewise ([String.le]). *)

From Stdlib Require Import ZArith Lia Ascii.
From S2P Require Import Prelude.

Local Open Scope stdpp_scope.

(** ** Prefixes and suffixes *)

(** [strings.HasPrefix s p] *)
Definition has_prefix (s p : string) : bool := String.prefix p s.

Fixpoint string_drop (n : nat) (s : string) : string :=
  match n, s with
  | 0, _ => s
  | S n, String _ s => string_drop n s
  | S _, EmptyString => EmptyString
  end.

Fixpoint string_take (n : nat) (s : string) : string :=
  match n, s with
  | 0, _ => EmptyString
  | S n, String c s => String c (string_take n s)
  | S _, EmptyString => EmptyString
  end.

(** [strings.TrimPrefix s p] *)
Definition trim_prefix (s p : string) : string :=
  if has_prefix s p then string_drop (String.length p) s else s.

(** [strings.HasSuffix s p] *)
Definition has_suffix (s p : string) : bool := has_prefix (String.rev s) (String.rev p).

(** [strings.TrimSuffix s p] *)
Definition trim_suffix (s p : string) : string :=
  if has_suffix s p then string_take (String.length s - String.length p) s else s.

(** [strings.Contains s sub] *)
Fixpoint contains (s sub : string) : bool :=
  has_prefix s sub ||
  match s with
  | EmptyString => false
  | String _ s' => contains s' sub
  end.

(** ** Splitting and joining *)

(** [strings.Split s sep] for a separator of one byte: never empty, and the
    pieces are the maximal runs without the separator. *)
Fixpoint split (s : string) (sep : ascii) : list string :=
  match s with
  | EmptyString => [EmptyString]
  | String c s' =>
      if decide (c = sep) then EmptyString :: split s' sep
      else match split s' sep with
           | [] => [String c EmptyString]
           | p :: ps => String c p :: ps
           end
  end.

(** [strings.Join parts sep] *)
Fixpoint join (parts : list string) (sep : string) : string :=
  match parts with
  | [] => EmptyString
  | [p] => p
  | p :: ps => p +:+ sep +:+ join ps sep
  end.

(** [strings.Cut s sep] for a separator of one byte. *)
Fixpoint cut (s : string) (sep : ascii) : option (string * string) :=
  match s with
  | EmptyString => None
  | String c s' =>
      if decide (c = sep) then Some (EmptyString, s')
      else match cut s' sep with
           | Some (a, b) => Some (String c a, b)
           | None => None
           end
  end.

(** ** Trimming *)

(** [strings.Trim s cutset] for a cutset of ASCII characters. *)
Fixpoint trim_left_set (s : string) (cutset : list ascii) : string :=
  match s with
  | EmptyString => EmptyString
  | String c s' => if decide (c ∈ cutset) then trim_left_set s' cutset else s
  end.

Definition trim_set (s : string) (cutset : list ascii) : string :=
  String.rev (trim_left_set (String.rev (trim_left_set s cutset)) cutset).

(** [strings.TrimSpace] removes every leading and trailing code point with
    the Unicode White_Space property.  The encodings of those code points, of
    one, two and three bytes, are listed; a byte sequence that is not valid
    UTF-8 is never a space. *)
Definition ascii_space (c : ascii) : bool :=
  let n := nat_of_ascii c in
  (Nat.leb 9 n && Nat.leb n 13) || Nat.eqb n 32.

(** U+0085 and U+00A0. *)
Definition space2 (c1 c2 : ascii) : bool :=
  Nat.eqb (nat_of_ascii c1) 194 &&
  (Nat.eqb (nat_of_ascii c2) 133 || Nat.eqb (nat_of_ascii c2) 160).

(** U+1680, U+2000..U+200A, U+2028, U+2029, U+202F, U+205F and U+3000. *)
Definition space3 (c1 c2 c3 : ascii) : bool :=
  let n1 := nat_of_ascii c1 in let n2 := nat_of_ascii c2 in let n3 := nat_of_ascii c3 in
  (Nat.eqb n1 225 && Nat.eqb n2 154 && Nat.eqb n3 128) ||
  (Nat.eqb n1 226 && Nat.eqb n2 128 &&
     ((Nat.leb 128 n3 && Nat.leb n3 138) || Nat.eqb n3 168 || Nat.eqb n3 169 || Nat.eqb n3 175)) ||
  (Nat.eqb n1 226 && Nat.eqb n2 129 && Nat.eqb n3 159) ||
  (Nat.eqb n1 227 && Nat.eqb n2 128 && Nat.eqb n3 128).

Fixpoint trim_left_space (s : string) : string :=
  match s with
  | EmptyString => EmptyString
  | String c1 s1 =>
      if ascii_space c1 then trim_left_space s1
      else match s1 with
           | EmptyString => s
           | String c2 s2 =>
               if space2 c1 c2 then trim_left_space s2
               else match s2 with
                    | EmptyString => s
                    | String c3 s3 => if space3 c1 c2 c3 then trim_left_space s3 else s
                    end
           end
  end.

(** The same on the reversed string, so the bytes of a code point come in the
    opposite order. *)
Fixpoint trim_left_space_rev (s : string) : string :=
  match s with
  | EmptyString => EmptyString
  | String c1 s1 =>
      if ascii_space c1 then trim_left_space_rev s1
      else match s1 with
           | EmptyString => s
           | String c2 s2 =>
               if space2 c2 c1 then trim_left_space_rev s2
               else match s2 with
                    | EmptyString => s
                    | String c3 s3 => if space3 c3 c2 c1 then trim_left_space_rev s3 else s
                    end
           end
  end.

Definition trim_right_space (s : string) : string :=
  String.rev (trim_left_space_rev (String.rev s)).

(** [strings.TrimSpace] *)
Definition trim_space (s : string) : string := trim_right_space (trim_left_space s).

(** [strings.ToLower] on ASCII letters.  The gateway applies it to HTTP field
    names only, which are ASCII tokens. *)
Definition lower_ascii (c : ascii) : ascii :=
  let n := nat_of_ascii c in
  if Nat.leb 65 n && Nat.leb n 90 then ascii_of_nat (n + 32) else c.

Fixpoint to_lower (s : string) : string :=
  match s with
  | EmptyString => EmptyString
  | String c s' => String (lower_ascii c) (to_lower s')
  end.

(** ** Lemmas *)

Lemma string_app_nil_l (s : string) : "" +:+ s = s.
Proof. done. Qed.

Lemma string_app_cons c (s t : string) : String c s +:+ t = String c (s +:+ t).
Proof. done. Qed.

Lemma string_app_nil_r (s : string) : s +:+ "" = s.
Proof. induction s as [|c s IH]; [done|]. rewrite string_app_cons. by rewrite IH. Qed.

Lemma string_app_assoc (s t u : string) : s +:+ (t +:+ u) = (s +:+ t) +:+ u.
Proof. induction s as [|c s IH]; [done|]. rewrite !string_app_cons. by rewrite IH. Qed.

Lemma string_length_app (s t : string) :
  String.length (s +:+ t) = String.length s + String.length t.
Proof. induction s as [|c s IH]; [done|]. rewrite string_app_cons. simpl. by rewrite IH. Qed.

Lemma has_prefix_spec (s p : string) : has_prefix s p = true ↔ ∃ t, s = p +:+ t.
Proof.
  unfold has_prefix. revert s. induction p as [|c p IH]; intros s.
  - destruct s; split; eauto.
  - destruct s as [|d s]; simpl; [by split; [|intros [? [=]]]|].
    destruct (ascii_dec c d) as [->|Hne].
    + rewrite IH. setoid_rewrite string_app_cons. split; intros [t Ht]; exists t; congruence.
    + setoid_rewrite string_app_cons. split; [done|]. intros [t [=]]. congruence.
Qed.

Lemma has_prefix_app (p t : string) : has_prefix (p +:+ t) p = true.
Proof. apply has_prefix_spec. eauto. Qed.

Lemma has_prefix_refl (s : string) : has_prefix s s = true.
Proof. apply has_prefix_spec. exists "". by rewrite string_app_nil_r. Qed.

Lemma has_prefix_trans (s p q : string) :
  has_prefix s p = true → has_prefix p q = true → has_prefix s q = true.
Proof.
  rewrite !has_prefix_spec. intros [t ->] [u ->]. exists (u +:+ t). by rewrite string_app_assoc.
Qed.

(** Two prefixes of one string are comparable. *)
Lemma has_prefix_comparable (s p q : string) :
  has_prefix s p = true → has_prefix s q = true →
  has_prefix p q = true ∨ has_prefix q p = true.
Proof.
  rewrite !has_prefix_spec. intros [t ->] [u Hu].
  revert q Hu. induction p as [|c p IH]; intros q Hu; [eauto|].
  destruct q as [|d q]; [eauto|].
  rewrite !string_app_cons in Hu. injection Hu as <- Hu.
  setoid_rewrite string_app_cons.
  destruct (IH q Hu) as [[v ->]|[v ->]]; [left|right]; by exists v.
Qed.

Lemma string_drop_app (p t : string) : string_drop (String.length p) (p +:+ t) = t.
Proof. induction p as [|c p IH]; [done|]. by rewrite string_app_cons. Qed.

Lemma trim_prefix_app (p t : string) : trim_prefix (p +:+ t) p = t.
Proof. unfold trim_prefix. by rewrite has_prefix_app, string_drop_app. Qed.

Lemma split_not_nil s sep : split s sep ≠ [].
Proof. destruct s as [|c s]; simpl; [done|]. case_decide; [done|]. by destruct (split s sep). Qed.

Lemma split_cons_eq sep s : split (String sep s) sep = "" :: split s sep.
Proof. simpl. by rewrite decide_True. Qed.

Lemma join_cons_cons p q ps sep : join (p :: q :: ps) sep = p +:+ sep +:+ join (q :: ps) sep.
Proof. done. Qed.

Lemma join_strings_app ps q qs sep : ps ≠ [] → join (ps ++ q :: qs) sep = join ps sep +:+ sep +:+ join (q :: qs) sep.
Proof.
  induction ps as [|p [|p' ps] IH]; intros Hne; [done|done|].
  change ((p :: p' :: ps) ++ q :: qs) with (p :: p' :: (ps ++ q :: qs)). rewrite !join_cons_cons.
  change (p' :: ps ++ q :: qs) with ((p' :: ps) ++ q :: qs). by rewrite IH, <- !string_app_assoc.
Qed.

(** Joining the pieces of a split with the separator restores the string. *)
Lemma join_split s sep : join (split s sep) (String sep "") = s.
Proof.
  induction s as [|c s IH]; [done|]. simpl split. case_decide as Hc.
  - subst. destruct (split s sep) as [|p ps] eqn:E; [by destruct (split_not_nil s sep)|].
    rewrite join_cons_cons, string_app_nil_l, IH. done.
  - destruct (split s sep) as [|p ps] eqn:E; [by destruct (split_not_nil s sep)|].
    rewrite <- IH. by destruct ps.
Qed.

(** No piece of a split holds the separator. *)
Lemma split_no_sep s sep p : p ∈ split s sep → contains p (String sep "") = false.
Proof.
  revert p. induction s as [|c s IH]; intros p; simpl.
  { rewrite list_elem_of_singleton. by intros ->. }
  case_decide as Hc.
  { rewrite elem_of_cons. intros [->|Hp]; [done|eauto]. }
  pose proof (split_not_nil s sep). destruct (split s sep) as [|q qs]; [done|].
  rewrite elem_of_cons. intros [->|Hp]; [|apply IH; set_solver].
  simpl. rewrite IH by set_solver. unfold has_prefix. simpl.
  by destruct (ascii_dec sep c) as [->|].
Qed.

Lemma cut_spec s sep a b :
  cut s sep = Some (a, b) → s = a +:+ String sep b ∧ contains a (String sep "") = false.
Proof.
  revert a. induction s as [|c s IH]; intros a; simpl; [done|]. case_decide as Hc.
  { intros [= <- <-]. subst. by rewrite string_app_nil_l. }
  destruct (cut s sep) as [[a' b']|]; [|done]. intros [= <- <-].
  destruct (IH a' eq_refl) as [-> Ha]. rewrite string_app_cons. split; [done|].
  simpl. rewrite Ha. unfold has_prefix. simpl. by destruct (ascii_dec sep c).
Qed.

Lemma lower_ascii_idem c : lower_ascii (lower_ascii c) = lower_ascii c.
Proof. by destruct c as [[][][][][][][][]]. Qed.

Lemma to_lower_idem s : to_lower (to_lower s) = to_lower s.
Proof. induction s as [|c s IH]; simpl; [done|]. by rewrite lower_ascii_idem, IH. Qed.

(** Trimming is idempotent; the structural recursion skips up to three bytes,
    so the proof follows the function's own recursion. *)
Lemma trim_left_space_idem s : trim_left_space (trim_left_space s) = trim_left_space s.
Proof.
  revert s. fix IH 1. intros [|c1 s1]; simpl; [done|].
  destruct (ascii_space c1) eqn:E1; [apply IH|].
  destruct s1 as [|c2 s2]; simpl; [by rewrite E1|].
  destruct (space2 c1 c2) eqn:E2; [apply IH|].
  destruct s2 as [|c3 s3]; simpl; [by rewrite E1, E2|].
  destruct (space3 c1 c2 c3) eqn:E3; [apply IH|].
  simpl. by rewrite E1, E2, E3.
Qed.

(** A string that does not start with a space is unchanged by left trimming,
    and trimming drops at most a prefix. *)
Lemma trim_left_space_suffix s : ∃ p, s = p +:+ trim_left_space s.
Proof.
  revert s. fix IH 1. intros [|c1 s1]; simpl; [by exists ""|].
  destruct (ascii_space c1) eqn:E1.
  { destruct (IH s1) as [p Hp]. exists (String c1 p). rewrite string_app_cons. by rewrite <- Hp. }
  destruct s1 as [|c2 s2]; [by exists ""|].
  destruct (space2 c1 c2) eqn:E2.
  { destruct (IH s2) as [p Hp]. exists (String c1 (String c2 p)).
    rewrite !string_app_cons. by rewrite <- Hp. }
  destruct s2 as [|c3 s3]; [by exists ""|].
  destruct (space3 c1 c2 c3) eqn:E3; [|by exists ""].
  destruct (IH s3) as [p Hp]. exists (String c1 (String c2 (String c3 p))).
  rewrite !string_app_cons. by rewrite <- Hp.
Qed.

Example trim_space_ascii : trim_space "  a b	" = "a b".
Proof. reflexivity. Qed.

Example split_commas : split "a,b,,c" "," = ["a"; "b"; ""; "c"].
Proof. reflexivity. Qed.

Example trim_brackets : trim_set "[::1]" ["["; "]"]%char = "::1".
Proof. reflexivity. Qed.

Lemma cut_None s sep : cut s sep = None ↔ contains s (String sep "") = false.
Proof.
  induction s as [|c s IH]; simpl; [done|]. unfold has_prefix in *. simpl.
  destruct (ascii_dec sep c) as [<-|Hne].
  - rewrite decide_True by done. by destruct s.
  - rewrite decide_False by done. simpl. rewrite <- IH. by destruct (cut s sep) as [[]|].
Qed.

Lemma cut_app s sep t : contains s (String sep "") = false → cut (s +:+ String sep t) sep = Some (s, t).
Proof.
  induction s as [|c s IH]; rewrite ?string_app_cons; simpl.
  - intros _. by rewrite decide_True.
  - unfold has_prefix. simpl. destruct (ascii_dec sep c) as [<-|Hne].
    + by destruct s.
    + rewrite decide_False by done. intros H. by rewrite IH.
Qed.

(** Splitting at a separator splits the two sides independently. *)
Lemma split_app s sep t : split (s +:+ String sep t) sep = split s sep ++ split t sep.
Proof.
  induction s as [|c s IH].
  - rewrite string_app_nil_l, split_cons_eq. done.
  - rewrite string_app_cons. simpl. rewrite IH. case_decide; [done|].
    pose proof (split_not_nil s sep). by destruct (split s sep).
Qed.

Lemma split_single s sep : contains s (String sep "") = false → split s sep = [s].
Proof.
  induction s as [|c s IH]; simpl; [done|]. unfold has_prefix. simpl.
  destruct (ascii_dec sep c) as [<-|Hne]; [by destruct s|].
  rewrite decide_False by done. simpl. intros H. by rewrite IH.
Qed.

Lemma split_join l sep :
  l ≠ [] → Forall (λ p, contains p (String sep "") = false) l → split (join l (String sep "")) sep = l.
Proof.
  intros Hne Hl. induction Hl as [|p l Hp Hl IH]; [done|]. destruct l as [|q l].
  - simpl. by apply split_single.
  - rewrite join_cons_cons. change (String sep "" +:+ join (q :: l) (String sep ""))
      with (String sep (join (q :: l) (String sep ""))).
    rewrite split_app, split_single, IH by done. done.
Qed.

Lemma string_app_inj_r a b t : a +:+ t = b +:+ t → a = b.
Proof.
  revert b. induction a as [|c a IH]; intros [|d b] H; [done| | |].
  - apply (f_equal String.length) in H. rewrite !string_length_app in H. simpl in H. lia.
  - apply (f_equal String.length) in H. rewrite !string_length_app in H. simpl in H. lia.
  - rewrite !string_app_cons in H. injection H as -> H. f_equal. by apply IH.
Qed.

(** ** Suffixes *)

Lemma string_rev_list s t :
  String.list_ascii_of_string (String.rev_app s t) = rev (String.list_ascii_of_string s) ++ String.list_ascii_of_string t.
Proof.
  revert t. induction s as [|c s IH]; intros t; [done|]. cbn. rewrite IH. simpl. by rewrite <- app_assoc.
Qed.

Lemma string_rev_list_0 s : String.list_ascii_of_string (String.rev s) = rev (String.list_ascii_of_string s).
Proof. unfold String.rev. by rewrite string_rev_list, app_nil_r. Qed.

Lemma list_of_app a b :
  String.list_ascii_of_string (a +:+ b) = String.list_ascii_of_string a ++ String.list_ascii_of_string b.
Proof. induction a as [|d a IH]; [done|]. rewrite string_app_cons. cbn. by rewrite IH. Qed.

Lemma string_of_list_inj a b : String.list_ascii_of_string a = String.list_ascii_of_string b → a = b.
Proof.
  intros H. rewrite <- (String.string_of_list_ascii_of_string a), <- (String.string_of_list_ascii_of_string b).
  by rewrite H.
Qed.

Lemma string_rev_involutive s : String.rev (String.rev s) = s.
Proof. apply string_of_list_inj. by rewrite !string_rev_list_0, rev_involutive. Qed.

Lemma string_rev_app a b : String.rev (a +:+ b) = String.rev b +:+ String.rev a.
Proof. apply string_of_list_inj. by rewrite list_of_app, !string_rev_list_0, list_of_app, rev_app_distr. Qed.

Lemma has_suffix_spec s c : has_suffix s (String c "") = true → ∃ t, s = t +:+ String c "".
Proof.
  unfold has_suffix. intros [t Ht]%has_prefix_spec. exists (String.rev t).
  by rewrite <- (string_rev_involutive s), Ht, string_rev_app, string_rev_involutive.
Qed.

Lemma string_take_app s t : string_take (String.length s) (s +:+ t) = s.
Proof. induction s as [|c s IH]; [by destruct t|]. rewrite string_app_cons. cbn. by rewrite IH. Qed.

Lemma trim_slash p : p = trim_suffix p "/" ∨ p = trim_suffix p "/" +:+ "/".
Proof.
  unfold trim_suffix. destruct (has_suffix p "/") eqn:E; [right|by left].
  apply has_suffix_spec in E as [t ->]. rewrite string_length_app. simpl.
  replace (String.length t + 1 - 1)%nat with (String.length t) by lia. by rewrite string_take_app.
Qed.
