(* ===== verification/Float64.v ===== *)
(** * Go's [float64]

    The rate limiter computes with [float64].  A value is a binary64 number
    of the Standard Library's [SpecFloat], so every operation rounds as IEEE
    754 prescribes (to nearest, ties to even) and NaN and the infinities
    behave as they do in Go.  The file ends with the exactness of the small
    integers, on which the limiter's burst bound rests. *)

From Stdlib Require Import ZArith Lia SpecFloat.
From S2P Require Import Prelude.

Local Open Scope Z_scope.

Definition f64 : Type := spec_float.

#[export] Instance f64_eq_dec : EqDecision f64.
Proof. solve_decision. Defined.

Definition prec : Z := 53.
Definition emax : Z := 1024.

Definition f64_add : f64 → f64 → f64 := SFadd prec emax.
Definition f64_sub : f64 → f64 → f64 := SFsub prec emax.
Definition f64_mul : f64 → f64 → f64 := SFmul prec emax.
Definition f64_div : f64 → f64 → f64 := SFdiv prec emax.

(** Go's comparisons; every one is false when an operand is NaN. *)
Definition f64_lt (x y : f64) : bool := SFltb x y.
Definition f64_le (x y : f64) : bool := SFleb x y.
Definition f64_eq (x y : f64) : bool := SFeqb x y.

(** The conversion [float64(i)] of an integer. *)
Definition f64_of_Z (z : Z) : f64 := binary_normalize prec emax z 0 false.

Definition f64_zero : f64 := f64_of_Z 0.
Definition f64_one : f64 := f64_of_Z 1.

(** [time.Duration.Minutes]: whole minutes plus the remaining nanoseconds
    divided by [60*1e9]; Go's integer division truncates. *)
Definition Minute : Z := 60 * 10 ^ 9.

Definition minutes (d : Z) : f64 :=
  f64_add (f64_of_Z (Z.quot d Minute))
          (f64_div (f64_of_Z (Z.rem d Minute)) (f64_of_Z (60 * 10 ^ 9))).

Example minutes_90s : minutes (90 * 10 ^ 9) = f64_div (f64_of_Z 3) (f64_of_Z 2).
Proof. vm_compute. reflexivity. Qed.

(** ** Exactness of small integers *)

(** [sh k p] is [p * 2^k]. *)
Definition sh (k : nat) (p : positive) : positive := Nat.iter k xO p.

Definition digits (p : positive) : Z := Z.pos (digits2_pos p).

Lemma sh_S k p : sh (S k) p = xO (sh k p).
Proof. done. Qed.

Lemma sh_Zpos k p : Z.pos (sh k p) = Z.pos p * 2 ^ Z.of_nat k.
Proof.
  induction k as [|k IH]; [rewrite Z.mul_1_r; done|].
  rewrite sh_S, Nat2Z.inj_succ, Z.pow_succ_r by lia. lia.
Qed.

Lemma sh_sh a b p : sh a (sh b p) = sh (a + b) p.
Proof. unfold sh. induction a as [|a IH]; simpl; [done|]. by rewrite IH. Qed.

Lemma digits_xO p : digits (xO p) = digits p + 1.
Proof. unfold digits. simpl. lia. Qed.

Lemma digits_xI p : digits (xI p) = digits p + 1.
Proof. unfold digits. simpl. lia. Qed.

Lemma digits_sh k p : digits (sh k p) = digits p + Z.of_nat k.
Proof. induction k as [|k IH]; [unfold sh; simpl; lia|]. rewrite sh_S, digits_xO. lia. Qed.

Lemma digits_pos p : 1 ≤ digits p.
Proof. unfold digits. lia. Qed.

Lemma digits_spec p : 2 ^ (digits p - 1) ≤ Z.pos p < 2 ^ digits p.
Proof.
  induction p as [p IH|p IH|]; [| |done].
  - rewrite digits_xI. pose proof (digits_pos p).
    replace (digits p + 1 - 1) with (Z.succ (digits p - 1)) by lia.
    replace (digits p + 1) with (Z.succ (digits p)) by lia.
    rewrite !Z.pow_succ_r by lia. lia.
  - rewrite digits_xO. pose proof (digits_pos p).
    replace (digits p + 1 - 1) with (Z.succ (digits p - 1)) by lia.
    replace (digits p + 1) with (Z.succ (digits p)) by lia.
    rewrite !Z.pow_succ_r by lia. lia.
Qed.

Lemma digits_mono p q : Z.pos p ≤ Z.pos q → digits p ≤ digits q.
Proof.
  intros Hpq. pose proof (digits_spec p). pose proof (digits_spec q).
  pose proof (digits_pos p). pose proof (digits_pos q).
  destruct (Z.le_gt_cases (digits p) (digits q)) as [|Hgt]; [done|exfalso].
  assert (2 ^ digits q ≤ 2 ^ (digits p - 1)) by (apply Z.pow_le_mono_r; lia). lia.
Qed.

Lemma digits_le p n : 0 ≤ n → Z.pos p < 2 ^ n → digits p ≤ n.
Proof.
  intros Hn Hp. pose proof (digits_spec p). pose proof (digits_pos p).
  destruct (Z.le_gt_cases (digits p) n) as [|Hgt]; [done|exfalso].
  assert (2 ^ n ≤ 2 ^ (digits p - 1)) by (apply Z.pow_le_mono_r; lia). lia.
Qed.

Lemma iter_pos_iter {A} (f : A → A) n x : SpecFloat.iter_pos f n x = Nat.iter (Pos.to_nat n) f x.
Proof.
  revert x. induction n as [n IH|n IH|]; intros x; cbn [SpecFloat.iter_pos]; [| |done].
  - rewrite !IH, Pos2Nat.inj_xI, <- Nat.iter_add, <- Nat.iter_succ_r. f_equal. lia.
  - rewrite !IH, Pos2Nat.inj_xO, <- Nat.iter_add. f_equal. lia.
Qed.

(** Shifting out zeros is exact. *)
Lemma shr_1_sh k m :
  Nat.iter k shr_1 (Build_shr_record (Z.pos (sh k m)) false false)
  = Build_shr_record (Z.pos m) false false.
Proof.
  induction k as [|k IH]; [done|].
  rewrite sh_S, Nat.iter_succ_r. simpl shr_1. apply IH.
Qed.

Lemma shr_exact k m e :
  shr (Build_shr_record (Z.pos (sh k m)) false false) e (Z.of_nat k)
  = (Build_shr_record (Z.pos m) false false, e + Z.of_nat k).
Proof.
  destruct k as [|k]; [unfold shr; simpl; f_equal; lia|].
  change (Z.of_nat (S k)) with (Z.pos (Pos.of_succ_nat k)).
  change (shr ?r e (Z.pos ?p)) with (SpecFloat.iter_pos shr_1 p r, e + Z.pos p).
  by rewrite iter_pos_iter, SuccNat2Pos.id_succ, shr_1_sh.
Qed.

Lemma shl_align_exact m e k :
  shl_align m (e + Z.of_nat k) e = (sh k m, e).
Proof.
  unfold shl_align. replace (e - (e + Z.of_nat k)) with (- Z.of_nat k) by lia.
  destruct k as [|k]; simpl; [f_equal; lia|].
  rewrite Pos2Nat.inj_iter, SuccNat2Pos.id_succ. done.
Qed.

Lemma shl_align_same m e e' : e ≤ e' → shl_align m e e' = (m, e).
Proof. intros He. unfold shl_align. destruct (e' - e) eqn:E; [done|done|lia]. Qed.

(** [exact_pos p] is the canonical binary64 number of the integer [p]. *)
Definition exact_pos (p : positive) : f64 :=
  S754_finite false (sh (Z.to_nat (53 - digits p)) p) (digits p - 53).

Lemma fexp_small d : 1 ≤ d ≤ 53 → fexp prec emax d = d - 53.
Proof. intros. unfold fexp, SpecFloat.emin, prec, emax. lia. Qed.

(** Rounding [p * 2^k], scaled by [2^e] with [e = -k], gives the canonical
    number of [p]. *)
Lemma round_aux_exact p :
  digits p ≤ 53 →
  binary_round_aux prec emax false (Z.pos (sh (Z.to_nat (53 - digits p)) p)) (digits p - 53)
    loc_Exact = exact_pos p.
Proof.
  intros Hd. pose proof (digits_pos p).
  assert (Hz : Zdigits2 (Z.pos (sh (Z.to_nat (53 - digits p)) p)) = 53).
  { change (Zdigits2 (Z.pos ?q)) with (digits q). rewrite digits_sh. lia. }
  unfold binary_round_aux, shr_fexp.
  rewrite Hz. replace (53 + (digits p - 53)) with (digits p) by lia.
  rewrite fexp_small by lia. rewrite Z.sub_diag. simpl shr. cbv beta iota zeta.
  simpl shr_m. simpl round_nearest_even. rewrite Hz.
  replace (53 + (digits p - 53)) with (digits p) by lia.
  rewrite fexp_small by lia. rewrite Z.sub_diag. simpl shr. cbv beta iota zeta.
  simpl shr_m. cbv beta iota.
  replace (digits p - 53 <=? emax - prec) with true by (symmetry; apply Z.leb_le; unfold emax, prec; lia).
  done.
Qed.

Lemma f64_of_pos p : digits p ≤ 53 → f64_of_Z (Z.pos p) = exact_pos p.
Proof.
  intros Hd. pose proof (digits_pos p).
  unfold f64_of_Z, binary_normalize, binary_round.
  change (Z.pos (digits2_pos p)) with (digits p). rewrite Z.add_0_r, fexp_small by lia.
  assert (Hal : shl_align p 0 (digits p - 53) = (sh (Z.to_nat (53 - digits p)) p, digits p - 53)).
  { rewrite <- (shl_align_exact p (digits p - 53) (Z.to_nat (53 - digits p))). f_equal. lia. }
  rewrite Hal. by apply round_aux_exact.
Qed.

(** Normalising [p * 2^52] at exponent [-52]. *)
Lemma normalize_scaled p :
  digits p ≤ 53 →
  binary_normalize prec emax (Z.pos (sh 52 p)) (-52) false = exact_pos p.
Proof.
  intros Hd. pose proof (digits_pos p).
  unfold binary_normalize, binary_round.
  change (Z.pos (digits2_pos ?q)) with (digits q). rewrite digits_sh.
  replace (digits p + Z.of_nat 52 + -52) with (digits p) by lia.
  rewrite fexp_small by lia. rewrite shl_align_same by lia.
  unfold binary_round_aux, shr_fexp.
  change (Zdigits2 (Z.pos (sh 52 p))) with (digits (sh 52 p)). rewrite digits_sh.
  replace (digits p + Z.of_nat 52 + -52) with (digits p) by lia.
  rewrite fexp_small by lia.
  replace (digits p - 53 - -52) with (Z.of_nat (Z.to_nat (digits p - 1))) by lia.
  replace (sh 52 p) with (sh (Z.to_nat (digits p - 1)) (sh (Z.to_nat (53 - digits p)) p))
    by (rewrite sh_sh; f_equal; lia).
  change (shr_record_of_loc ?m loc_Exact) with (Build_shr_record m false false).
  rewrite shr_exact. cbv beta iota zeta. simpl shr_m. simpl round_nearest_even.
  replace (-52 + Z.of_nat (Z.to_nat (digits p - 1))) with (digits p - 53) by lia.
  pose proof (round_aux_exact p Hd) as Hr.
  unfold binary_round_aux, shr_fexp in Hr.
  assert (Hz : Zdigits2 (Z.pos (sh (Z.to_nat (53 - digits p)) p)) = 53).
  { change (Zdigits2 (Z.pos ?q)) with (digits q). rewrite digits_sh. lia. }
  rewrite Hz in Hr |- *. replace (53 + (digits p - 53)) with (digits p) in Hr |- * by lia.
  rewrite fexp_small in Hr |- * by lia. rewrite Z.sub_diag in Hr |- *.
  simpl shr in Hr |- *. cbv beta iota zeta in Hr |- *. simpl shr_m in Hr |- *.
  cbv beta iota zeta in Hr |- *. simpl round_nearest_even in Hr.
  rewrite Hz in Hr. replace (53 + (digits p - 53)) with (digits p) in Hr by lia.
  rewrite fexp_small, Z.sub_diag in Hr by lia. simpl shr in Hr. exact Hr.
Qed.

Lemma f64_one_exact : f64_one = S754_finite false (sh 52 1) (-52).
Proof. reflexivity. Qed.

(** Subtracting one from a positive integer below [2^53] is exact. *)
Lemma f64_of_Z_pred n :
  0 < n < 2 ^ 53 → f64_sub (f64_of_Z n) f64_one = f64_of_Z (n - 1).
Proof.
  intros Hn. destruct n as [|p|p]; [lia| |lia].
  pose proof (digits_pos p). assert (Hd : digits p ≤ 53) by (apply digits_le; lia).
  rewrite f64_of_pos by done. rewrite f64_one_exact. unfold exact_pos, f64_sub, SFsub.
  rewrite Z.min_r by lia.
  assert (H1 : shl_align (sh (Z.to_nat (53 - digits p)) p) (digits p - 53) (-52)
               = (sh 52 p, -52)).
  { replace (digits p - 53) with (-52 + Z.of_nat (Z.to_nat (digits p - 1))) by lia.
    rewrite shl_align_exact, sh_sh. do 2 f_equal. lia. }
  rewrite H1, (shl_align_same (sh 52 1)) by lia. cbn [fst cond_Zopp].
  rewrite !sh_Zpos.
  replace (Z.pos p * 2 ^ Z.of_nat 52 - 1 * 2 ^ Z.of_nat 52)
    with ((Z.pos p - 1) * 2 ^ Z.of_nat 52) by lia.
  destruct (Z.pos p - 1) as [|q|q] eqn:Eq; [done| |lia].
  rewrite <- sh_Zpos. rewrite normalize_scaled; [|apply digits_le; lia].
  rewrite f64_of_pos; [done|apply digits_le; lia].
Qed.

(** The comparisons used by the limiter agree with those of the integers. *)
Lemma f64_of_Z_lt_one n : 0 ≤ n < 2 ^ 53 → f64_lt (f64_of_Z n) f64_one = (n <? 1).
Proof.
  intros Hn. destruct n as [|p|p]; [done| |lia].
  pose proof (digits_pos p). assert (Hd : digits p ≤ 53) by (apply digits_le; lia).
  rewrite f64_of_pos, f64_one_exact by done. unfold exact_pos, f64_lt, SFltb, SFcompare.
  replace (Z.pos p <? 1) with false by (symmetry; apply Z.ltb_ge; lia).
  destruct (Z.compare_spec (digits p - 53) (-52)) as [He|He|He]; [|lia|done].
  assert (digits p = 1) as Hp by lia.
  pose proof (digits_spec p) as Hs. rewrite Hp in Hs. assert (p = 1)%positive as -> by lia.
  done.
Qed.

Lemma f64_of_Z_not_lt n m :
  0 ≤ n ≤ m → m < 2 ^ 53 → f64_lt (f64_of_Z m) (f64_of_Z n) = false.
Proof.
  intros Hn Hm. destruct m as [|q|q]; [by replace n with 0 by lia| |lia].
  assert (Hq : digits q ≤ 53) by (apply digits_le; lia).
  destruct n as [|p|p]; [by rewrite f64_of_pos by done| |lia].
  assert (Hp : digits p ≤ 53) by (apply digits_le; lia).
  pose proof (digits_mono p q ltac:(lia)) as Hmono.
  rewrite !f64_of_pos by done. unfold exact_pos, f64_lt, SFltb, SFcompare.
  destruct (Z.compare_spec (digits q - 53) (digits p - 53)) as [He|He|He]; [|lia|done].
  replace (digits q) with (digits p) by lia.
  change (Pos.compare_cont Eq ?a ?b) with (Pos.compare a b).
  destruct (Pos.compare_spec (sh (Z.to_nat (53 - digits p)) q) (sh (Z.to_nat (53 - digits p)) p))
    as [Hc|Hc|Hc]; [done| |done].
  exfalso. assert (Hc' : Z.pos (sh (Z.to_nat (53 - digits p)) q)
    < Z.pos (sh (Z.to_nat (53 - digits p)) p)) by lia.
  rewrite !sh_Zpos in Hc'. apply Z.mul_lt_mono_pos_r in Hc'; lia.
Qed.

(** A positive finite number, such as a configured rate. *)
Definition f64_pos_finite (x : f64) : bool :=
  match x with S754_finite false _ _ => true | _ => false end.

(** No time elapsed: nothing is refilled. *)
Lemma f64_refill_zero n rate :
  0 ≤ n < 2 ^ 53 → f64_pos_finite rate = true →
  f64_add (f64_of_Z n) (f64_mul (minutes 0) rate) = f64_of_Z n.
Proof.
  intros Hn Hr. destruct rate as [| | |[] m e]; try done.
  change (f64_mul (minutes 0) (S754_finite false m e)) with (S754_zero false).
  destruct n as [|p|p]; [done| |lia].
  rewrite f64_of_pos; [done|apply digits_le; lia].
Qed.

(** ** Rounding an integer never yields a NaN *)

Lemma shr_nonneg r e n : 0 ≤ shr_m r → 0 ≤ shr_m (shr r e n).1.
Proof.
  assert (Hone : ∀ r, 0 ≤ shr_m r → 0 ≤ shr_m (shr_1 r)).
  { intros [m a b]. destruct m as [|[p|p|]|p]; simpl; lia. }
  unfold shr. destruct n as [|n|n]; [done| |done]. cbn [fst]. rewrite iter_pos_iter. intros Hr.
  induction (Pos.to_nat n) as [|k IH]; [done|]. rewrite Nat.iter_succ. by apply Hone.
Qed.

Lemma round_aux_not_nan s m e : binary_round_aux prec emax s (Zpos m) e loc_Exact ≠ S754_nan.
Proof.
  unfold binary_round_aux, shr_fexp.
  assert (H1 := shr_nonneg (shr_record_of_loc (Zpos m) loc_Exact) e
    (fexp prec emax (Zdigits2 (Zpos m) + e) - e) ltac:(done)).
  destruct (shr _ e _) as [r1 e1]. cbn [fst] in H1.
  assert (Hn : 0 ≤ round_nearest_even (shr_m r1) (loc_of_shr_record r1)).
  { unfold round_nearest_even. destruct (loc_of_shr_record r1) as [|[]]; try lia. destruct (Z.even _); lia. }
  set (n := round_nearest_even _ _) in *.
  assert (H2 := shr_nonneg (shr_record_of_loc n loc_Exact) e1 (fexp prec emax (Zdigits2 n + e1) - e1) Hn).
  destruct (shr (shr_record_of_loc n loc_Exact) e1 _) as [r2 e2]. cbn [fst] in H2.
  destruct (shr_m r2) as [|p|p]; [done| |lia]. by destruct (e2 <=? _).
Qed.

Lemma normalize_not_nan m e s : binary_normalize prec emax m e s ≠ S754_nan.
Proof.
  unfold binary_normalize. destruct m as [|m|m]; [done| |]; unfold binary_round;
    destruct (shl_align m e _) as [mz ez]; apply round_aux_not_nan.
Qed.
