(* ===== verification/FloatBounds.v ===== *)
(** * Rounding bounds of [float64]

    The real value of a binary64 number, and how far above the exact result
    the operations of [Float64] can round.  The rate limiter's long-run bound
    rests on this file; only upper bounds are needed there. *)

From Stdlib Require Import ZArith Lia Reals Lra SpecFloat.
From S2P Require Import Prelude Float64.

Local Open Scope R_scope.

(** ** Powers of two *)
Definition pow2 (e : Z) : R := powerRZ 2 e.

Lemma pow2_pos e : 0 < pow2 e.
Proof. apply powerRZ_lt. lra. Qed.

Lemma pow2_add a b : pow2 (a + b) = pow2 a * pow2 b.
Proof. apply powerRZ_add. lra. Qed.

Lemma pow2_IZR e : (0 ≤ e)%Z → pow2 e = IZR (2 ^ e).
Proof.
  intros He. unfold pow2. rewrite <- (Z2Nat.id e) at 1 by done. rewrite <- pow_powerRZ, pow_IZR.
  by rewrite Z2Nat.id.
Qed.

Lemma pow2_mono a b : (a ≤ b)%Z → pow2 a <= pow2 b.
Proof.
  intros Hab. replace b with (a + (b - a))%Z by lia. rewrite pow2_add, (pow2_IZR (b - a)) by lia.
  pose proof (pow2_pos a). assert (1 <= IZR (2 ^ (b - a))) by (apply IZR_le; pose proof (Z.pow_pos_nonneg 2 (b - a)); lia).
  nra.
Qed.

Lemma pow2_inv e : pow2 e * pow2 (- e) = 1.
Proof. rewrite <- pow2_add. by replace (e + - e)%Z with 0%Z by lia. Qed.

Lemma pow2_neg e : pow2 (- e) = / pow2 e.
Proof.
  pose proof (pow2_pos e). apply Rmult_eq_reg_r with (pow2 e); [|lra]. rewrite Rinv_l by lra.
  rewrite Rmult_comm. apply pow2_inv.
Qed.

(** ** Values *)
Definition val (m e : Z) : R := IZR m * pow2 e.

Definition fval (x : f64) : R :=
  match x with
  | S754_finite s m e => val (if s then Zneg m else Zpos m) e
  | _ => 0
  end.

Lemma val_le m1 m2 e : (m1 ≤ m2)%Z → val m1 e <= val m2 e.
Proof. intros Hm%IZR_le. unfold val. pose proof (pow2_pos e). nra. Qed.

Lemma val_lt m1 m2 e : (m1 < m2)%Z → val m1 e < val m2 e.
Proof. intros Hm%IZR_lt. unfold val. pose proof (pow2_pos e). nra. Qed.

Lemma val_nonneg m e : (0 ≤ m)%Z → 0 <= val m e.
Proof. intros Hm%IZR_le. unfold val. pose proof (pow2_pos e). nra. Qed.

(** Moving factors of two between mantissa and exponent. *)
Lemma val_shift m e n : (0 ≤ n)%Z → val (m * 2 ^ n) e = val m (e + n).
Proof. intros Hn. unfold val. rewrite mult_IZR, pow2_add, <- pow2_IZR by done. ring. Qed.

(** Non-negative binary64 numbers: zero, or a mantissa in canonical form. *)
Definition nonneg (x : f64) : Prop :=
  match x with
  | S754_zero _ => True
  | S754_finite false m e => bounded prec emax m e = true
  | _ => False
  end.

Lemma bounded_spec m e :
  bounded prec emax m e = true ↔ (Z.max (digits m + e - 53) (-1074) = e ∧ e ≤ 971)%Z.
Proof.
  unfold bounded, canonical_mantissa, fexp, SpecFloat.emin, prec, emax. rewrite andb_true_iff, Z.eqb_eq, Z.leb_le.
  unfold digits. cbn. lia.
Qed.

Lemma fval_nonneg x : nonneg x → 0 <= fval x.
Proof. destruct x as [| | |[] m e]; cbn; try lra; try done. intros _. by apply val_nonneg. Qed.

(** ** The order *)

(** Canonical numbers are compared by exponent, then by mantissa. *)
Lemma bounded_exponent_lt m1 e1 m2 e2 :
  bounded prec emax m1 e1 = true → bounded prec emax m2 e2 = true → (e1 < e2)%Z → val (Zpos m1) e1 < val (Zpos m2) e2.
Proof.
  intros [H1 _]%bounded_spec [H2 _]%bounded_spec He. pose proof (digits_spec m1) as [_ Hm1].
  pose proof (digits_spec m2) as [Hm2 _]. assert (digits m2 = 53%Z) as Hd by lia. rewrite Hd in Hm2.
  assert (Hm1' : (Zpos m1 < 2 ^ 53)%Z).
  { eapply Z.lt_le_trans; [exact Hm1|]. apply Z.pow_le_mono_r; lia. }
  apply Rlt_le_trans with (val (2 ^ 53) e1); [by apply val_lt|].
  apply Rle_trans with (val (2 ^ 52) e2); [|by apply val_le].
  rewrite <- (Z.mul_1_l (2 ^ 53)), <- (Z.mul_1_l (2 ^ 52)), !val_shift by lia. unfold val. rewrite !Rmult_1_l.
  apply pow2_mono. lia.
Qed.

Lemma val_pos m e : 0 < val (Zpos m) e.
Proof. replace 0 with (val 0 e) by (unfold val; ring). by apply val_lt. Qed.

Lemma f64_lt_spec x y : nonneg x → nonneg y → f64_lt x y = true ↔ fval x < fval y.
Proof.
  destruct x as [sx| | |[] mx ex], y as [sy| | |[] my ey]; try done; intros Hx Hy; cbn [fval]; unfold f64_lt, SFltb; cbn [SFcompare].
  - split; [done|lra].
  - pose proof (val_pos my ey). by split.
  - pose proof (val_pos mx ex). split; [done|lra].
  - destruct (Z.compare_spec ex ey) as [->|He|He].
    + change (Pos.compare_cont Eq mx my) with (Pos.compare mx my). destruct (Pos.compare_spec mx my) as [->|Hm|Hm].
      * split; [done|lra].
      * split; [|done]. intros _. by apply val_lt.
      * split; [done|]. assert (val (Zpos my) ey < val (Zpos mx) ey) by by apply val_lt. lra.
    + split; [|done]. intros _. by apply bounded_exponent_lt.
    + split; [done|]. pose proof (bounded_exponent_lt my ey mx ex Hy Hx He). lra.
Qed.

(** ** Rounding *)

(** An upper bound of what a number is rounded to: one unit in the last place
    for normal numbers, the smallest subnormal below them. *)
Definition up (x : R) : R := x * (1 + pow2 (-52)) + pow2 (-1074).

Lemma up_mono x y : x <= y → up x <= up y.
Proof. intros H. unfold up. pose proof (pow2_pos (-52)). nra. Qed.

(** [r] is the exact result [x], rounded: finite and not far above it, or an
    overflow of a huge number. *)
Definition rounds_below (r : f64) (x : R) : Prop :=
  nonneg r ∧ fval r <= up x ∨ r = S754_infinity false ∧ pow2 972 <= up x.

Lemma rounds_below_mono r x y : x <= y → rounds_below r x → rounds_below r y.
Proof. intros H [[? ?]|[? ?]]; [left|right]; pose proof (up_mono x y H); (split; [done|lra]). Qed.

Lemma Zdigits2_spec m : (0 < m)%Z → (2 ^ (Zdigits2 m - 1) ≤ m < 2 ^ Zdigits2 m)%Z ∧ (1 ≤ Zdigits2 m)%Z.
Proof. destruct m as [|p|p]; [done| |done]. intros _. split; [apply digits_spec|apply digits_pos]. Qed.

Lemma shr_1_half r : (0 ≤ shr_m r)%Z → shr_m (shr_1 r) = (shr_m r / 2)%Z.
Proof.
  destruct r as [m a b]. destruct m as [|[p|p|]|p]; cbn [shr_1 shr_m]; intros Hm; try done.
  - rewrite Pos2Z.inj_xI. apply (Z.div_unique _ _ _ 1); lia.
  - rewrite Pos2Z.inj_xO. apply (Z.div_unique _ _ _ 0); lia.
Qed.

(** Shifting to the right divides. *)
Lemma shr_div r e n : (0 ≤ shr_m r)%Z → (0 ≤ n)%Z → shr_m (shr r e n).1 = (shr_m r / 2 ^ n)%Z ∧ (shr r e n).2 = (e + n)%Z.
Proof.
  intros Hr Hn. destruct n as [|n|n]; [|cbn [shr fst snd]|lia].
  { cbn. rewrite Z.div_1_r. split; [done|lia]. }
  split; [|done]. rewrite iter_pos_iter, <- (positive_nat_Z n). clear Hn. induction (Pos.to_nat n) as [|k IH].
  { by rewrite Z.pow_0_r, Z.div_1_r. }
  rewrite Nat.iter_succ. assert (Hk : (0 ≤ shr_m (Nat.iter k shr_1 r))%Z) by (rewrite IH; apply Z.div_pos; lia).
  rewrite shr_1_half, IH by done. rewrite Z.div_div by lia. f_equal. rewrite Nat2Z.inj_succ, Z.pow_succ_r by lia. lia.
Qed.

Lemma round_nearest_even_range m l : (m ≤ round_nearest_even m l ≤ m + 1)%Z.
Proof. destruct l as [|[]]; cbn; try destruct (Z.even m); lia. Qed.

Lemma fexp_eq d : fexp prec emax d = Z.max (d - 53) (-1074).
Proof. done. Qed.

(** The mantissa after the shift: at most 53 digits, and 53 of them unless the
    exponent is the smallest one. *)
Lemma shifted_mantissa m e :
  (0 ≤ m)%Z → (e ≤ fexp prec emax (Zdigits2 m + e))%Z →
  let n := (fexp prec emax (Zdigits2 m + e) - e)%Z in
  val (m / 2 ^ n) (e + n) <= val m e ∧ (0 ≤ m / 2 ^ n < 2 ^ 53)%Z ∧ (2 ^ 52 ≤ m / 2 ^ n ∨ e + n = -1074)%Z ∧ (-1074 ≤ e + n)%Z.
Proof.
  intros Hm He n. rewrite fexp_eq in He. assert (Hn : (0 ≤ n)%Z) by (unfold n; rewrite fexp_eq; lia).
  assert (Hpow : (0 < 2 ^ n)%Z) by (apply Z.pow_pos_nonneg; lia). split.
  { rewrite <- val_shift by done. apply val_le. rewrite Z.mul_comm. apply Z.mul_div_le. lia. }
  assert (Hpos : (0 ≤ m / 2 ^ n)%Z) by (apply Z.div_pos; lia).
  destruct (decide (m = 0%Z)) as [->|Hne].
  { rewrite Z.div_0_l by lia. cbn [Zdigits2] in *. unfold n. rewrite fexp_eq. lia. }
  destruct (Zdigits2_spec m) as [[Hlo Hhi] Hd]; [lia|]. set (d := Zdigits2 m) in *.
  split_and!; [done| | |unfold n; rewrite fexp_eq; lia].
  - apply Z.div_lt_upper_bound; [done|]. rewrite <- Z.pow_add_r by lia. eapply Z.lt_le_trans; [exact Hhi|].
    apply Z.pow_le_mono_r; [lia|]. unfold n. rewrite fexp_eq. lia.
  - destruct (Z.le_gt_cases (-1074) (d + e - 53)) as [Hc|Hc]; [left|right; unfold n; rewrite fexp_eq; lia].
    apply Z.div_le_lower_bound; [done|]. rewrite <- Z.pow_add_r by lia. etransitivity; [|exact Hlo].
    apply Z.pow_le_mono_r; [lia|]. unfold n. rewrite fexp_eq. lia.
Qed.

(** Renormalising after the rounding: only [2 ^ 53] is shifted, exactly. *)
Lemma renormalised q e :
  (0 ≤ q ≤ 2 ^ 53)%Z → (-1074 ≤ e)%Z → (2 ^ 52 ≤ q ∨ e = -1074)%Z →
  let r := shr (Build_shr_record q false false) e (fexp prec emax (Zdigits2 q + e) - e) in
  val (shr_m r.1) r.2 = val q e ∧ (0 ≤ shr_m r.1)%Z ∧
  (shr_m r.1 = 0 ∨ fexp prec emax (Zdigits2 (shr_m r.1) + r.2) = r.2)%Z.
Proof.
  intros Hq He Hnorm r. subst r. rewrite (fexp_eq (Zdigits2 q + e)). destruct (decide (q = 0%Z)) as [->|Hne].
  { cbn [Zdigits2]. replace (Z.max (0 + e - 53) (-1074) - e)%Z with 0%Z by lia. cbn [shr fst snd shr_m]. split_and!; [done|lia|by left]. }
  destruct (Zdigits2_spec q) as [[Hlo Hhi] Hd]; [lia|].
  destruct (decide (q = 2 ^ 53)%Z) as [->|Hlt].
  { change (Zdigits2 (2 ^ 53)) with 54%Z. replace (Z.max (54 + e - 53) (-1074) - e)%Z with 1%Z by lia.
    cbn [shr fst snd SpecFloat.iter_pos]. change (shr_m (shr_1 _)) with (2 ^ 52)%Z. rewrite <- val_shift by lia.
    split; [done|]. split; [lia|]. right. change (Zdigits2 (2 ^ 52)) with 53%Z. rewrite fexp_eq. lia. }
  assert (Hdle : (Zdigits2 q ≤ 53)%Z).
  { destruct (Z.le_gt_cases (Zdigits2 q) 53) as [|Hgt]; [done|]. exfalso.
    assert (2 ^ 53 ≤ 2 ^ (Zdigits2 q - 1))%Z by (apply Z.pow_le_mono_r; lia). lia. }
  assert (Hdge : (53 ≤ Zdigits2 q ∨ e = -1074)%Z).
  { destruct Hnorm as [Hnorm|]; [left|by right]. destruct (Z.le_gt_cases 53 (Zdigits2 q)) as [|Hgt]; [done|]. exfalso.
    assert (2 ^ Zdigits2 q ≤ 2 ^ 52)%Z by (apply Z.pow_le_mono_r; lia). lia. }
  replace (Z.max (Zdigits2 q + e - 53) (-1074) - e)%Z with 0%Z by lia. cbn [shr fst snd shr_m].
  split; [done|]. split; [lia|]. right. rewrite fexp_eq. lia.
Qed.

Lemma round_aux_up m e l :
  (0 ≤ m)%Z → (e ≤ fexp prec emax (Zdigits2 m + e))%Z → rounds_below (binary_round_aux prec emax false m e l) (val m e).
Proof.
  intros Hm He. destruct (shifted_mantissa m e Hm He) as (Hval & [Hm0 Hm1] & Hnorm & Hemin).
  unfold binary_round_aux, shr_fexp. set (n := (fexp prec emax (Zdigits2 m + e) - e)%Z) in *.
  assert (Hn : (0 ≤ n)%Z) by lia. assert (Hrec : shr_m (shr_record_of_loc m l) = m) by by destruct l as [|[]].
  destruct (shr_div (shr_record_of_loc m l) e n) as [Hs1 Hs2]; [lia|done|]. rewrite Hrec in Hs1.
  destruct (shr (shr_record_of_loc m l) e n) as [r1 e1]. cbn [fst snd] in Hs1, Hs2. rewrite Hs1. subst e1.
  set (m1 := (m / 2 ^ n)%Z) in *. set (e1 := (e + n)%Z) in *.
  pose proof (round_nearest_even_range m1 (loc_of_shr_record r1)) as Hr. set (q := round_nearest_even _ _) in *.
  (* the rounded value is below the bound *)
  assert (Hup : val q e1 <= up (val m e)).
  { apply Rle_trans with (val (m1 + 1) e1); [by apply val_le; lia|]. unfold up.
    replace (val (m1 + 1) e1) with (val m1 e1 + pow2 e1) by (unfold val; rewrite plus_IZR; ring).
    pose proof (pow2_pos (-52)). pose proof (pow2_pos (-1074)). pose proof (val_nonneg m1 e1 Hm0).
    destruct Hnorm as [Hnorm| ->]; [|nra].
    assert (pow2 e1 <= val m1 e1 * pow2 (-52)); [|nra].
    replace (pow2 e1) with (val (2 ^ 52) e1 * pow2 (-52)).
    - apply Rmult_le_compat_r; [lra|]. by apply val_le.
    - unfold val. rewrite <- pow2_IZR by lia. rewrite <- !pow2_add. f_equal. lia. }
  change (shr_record_of_loc q loc_Exact) with (Build_shr_record q false false).
  destruct (renormalised q e1) as (Heq & Hpos & Hcan); [lia|done|destruct Hnorm; [left; lia|by right]|].
  destruct (shr (Build_shr_record q false false) e1 _) as [r2 e2]. cbn [fst snd] in Heq, Hpos, Hcan.
  destruct (shr_m r2) as [|p|p] eqn:Ep; [| |lia].
  { left. split; [done|]. pose proof (val_nonneg q e1 ltac:(lia)). cbn. lra. }
  destruct Hcan as [?|Hcan]; [done|]. rewrite fexp_eq in Hcan. change (Zdigits2 (Zpos p)) with (digits p) in Hcan.
  rewrite <- Heq in Hup. destruct (Z.leb_spec e2 (emax - prec)) as [Hle|Hgt]; unfold emax, prec in *.
  - left. split; [|done]. apply bounded_spec. lia.
  - right. split; [done|]. apply Rle_trans with (val (Zpos p) e2); [|done].
    apply Rle_trans with (val 1 e2); [|apply val_le; lia]. unfold val. rewrite Rmult_1_l. apply pow2_mono. lia.
Qed.

(** ** The operations *)

Lemma rounds_below_zero s x : 0 <= x → rounds_below (S754_zero s) x.
Proof.
  intros Hx. left. split; [done|]. cbn. unfold up. pose proof (pow2_pos (-52)). pose proof (pow2_pos (-1074)). nra.
Qed.

Lemma rounds_below_exact x : nonneg x → rounds_below x (fval x).
Proof.
  intros Hx. left. split; [done|]. pose proof (fval_nonneg x Hx). unfold up.
  pose proof (pow2_pos (-52)). pose proof (pow2_pos (-1074)). nra.
Qed.

(** Aligning to a smaller exponent is exact. *)
Lemma shl_align_spec m e e' :
  let '(mz, ez) := shl_align m e e' in
  val (Zpos mz) ez = val (Zpos m) e ∧ (digits mz + ez = digits m + e)%Z ∧ ez = Z.min e e'.
Proof.
  destruct (Z.le_gt_cases e e') as [He|He].
  { rewrite shl_align_same by done. split_and!; [done|done|lia]. }
  set (k := Z.to_nat (e - e')). assert (Hal : shl_align m e e' = (sh k m, e')).
  { rewrite <- (shl_align_exact m e' k). f_equal. lia. }
  rewrite Hal, sh_Zpos, val_shift, digits_sh by lia. split_and!; [f_equal; lia|lia|lia].
Qed.

Lemma binary_round_up p e : rounds_below (binary_round prec emax false p e) (val (Zpos p) e).
Proof.
  unfold binary_round. pose proof (shl_align_spec p e (fexp prec emax (Zpos (digits2_pos p) + e))) as H.
  change (Zpos (digits2_pos p)) with (digits p) in *. destruct (shl_align _ _ _) as [mz ez]. destruct H as (<- & Hd & Hez).
  apply round_aux_up; [done|]. change (Zdigits2 (Zpos mz)) with (digits mz). rewrite Hd. lia.
Qed.

Lemma normalize_up m e s : (0 ≤ m)%Z → rounds_below (binary_normalize prec emax m e s) (val m e).
Proof.
  intros Hm. destruct m as [|p|p]; [|apply binary_round_up|lia].
  apply rounds_below_zero. unfold val. lra.
Qed.

Lemma of_Z_up z : (0 ≤ z)%Z → rounds_below (f64_of_Z z) (IZR z).
Proof. intros Hz. pose proof (normalize_up z 0 false Hz) as H. unfold val in H. by rewrite Rmult_1_r in H. Qed.

(** Small integers are exact. *)
Lemma of_Z_exact z : (0 ≤ z < 2 ^ 53)%Z → nonneg (f64_of_Z z) ∧ fval (f64_of_Z z) = IZR z.
Proof.
  intros Hz. destruct z as [|p|p]; [done| |lia]. pose proof (digits_pos p).
  assert (Hd : (digits p ≤ 53)%Z) by (apply digits_le; lia). rewrite f64_of_pos by done. unfold exact_pos. cbn [nonneg fval]. split.
  - apply bounded_spec. rewrite digits_sh. lia.
  - rewrite sh_Zpos, val_shift by lia. replace (digits p - 53 + _)%Z with 0%Z by lia. unfold val. cbn. ring.
Qed.

Lemma align_values mx ex my ey :
  let ez := Z.min ex ey in
  val (Zpos (shl_align mx ex ez).1) ez = val (Zpos mx) ex ∧ val (Zpos (shl_align my ey ez).1) ez = val (Zpos my) ey.
Proof.
  intros ez. pose proof (shl_align_spec mx ex ez) as Hx. pose proof (shl_align_spec my ey ez) as Hy.
  destruct (shl_align mx ex ez) as [mx' ex'], (shl_align my ey ez) as [my' ey'].
  destruct Hx as (<- & _ & ->), Hy as (<- & _ & ->). cbn [fst]. split; f_equal; lia.
Qed.

Lemma add_up x y : nonneg x → nonneg y → rounds_below (f64_add x y) (fval x + fval y).
Proof.
  intros Hx Hy. pose proof (fval_nonneg x Hx) as Hx0. pose proof (fval_nonneg y Hy) as Hy0.
  destruct x as [sx| | |[] mx ex], y as [sy| | |[] my ey]; try done; unfold f64_add; cbn [SFadd].
  - destruct sx, sy; apply rounds_below_zero; cbn; lra.
  - rewrite Rplus_0_l. by apply (rounds_below_exact (S754_finite false my ey)).
  - rewrite Rplus_0_r. by apply (rounds_below_exact (S754_finite false mx ex)).
  - cbn [cond_Zopp fval]. destruct (align_values mx ex my ey) as [<- <-].
    eapply rounds_below_mono; [|apply normalize_up; lia]. unfold val. rewrite plus_IZR. lra.
Qed.

(** Subtracting a smaller number. *)
Lemma sub_up x y : nonneg x → nonneg y → fval y <= fval x → rounds_below (f64_sub x y) (fval x - fval y).
Proof.
  intros Hx Hy Hle.
  destruct x as [sx| | |[] mx ex], y as [sy| | |[] my ey]; try done; unfold f64_sub; cbn [SFsub].
  - destruct sx, sy; apply rounds_below_zero; cbn; lra.
  - cbn [fval] in Hle. pose proof (val_pos my ey). lra.
  - rewrite Rminus_0_r. by apply (rounds_below_exact (S754_finite false mx ex)).
  - cbn [cond_Zopp fval] in *. destruct (align_values mx ex my ey) as [Hvx Hvy]. rewrite <- Hvx, <- Hvy in *.
    eapply rounds_below_mono; [|apply normalize_up].
    + unfold val. rewrite minus_IZR. lra.
    + apply Z.le_0_sub, le_IZR. unfold val in Hle. pose proof (pow2_pos (Z.min ex ey)). nra.
Qed.

Lemma digits_ge p n : (2 ^ (n - 1) ≤ Zpos p)%Z → (n ≤ digits p)%Z.
Proof.
  intros Hp. pose proof (digits_spec p) as [_ Hlt]. pose proof (digits_pos p).
  destruct (Z.le_gt_cases n (digits p)) as [|Hgt]; [done|]. exfalso.
  assert (2 ^ digits p ≤ 2 ^ (n - 1))%Z by (apply Z.pow_le_mono_r; lia). lia.
Qed.

Lemma digits_mul p q : (digits p + digits q - 1 ≤ digits (p * q))%Z.
Proof.
  apply digits_ge. pose proof (digits_spec p) as [Hp _]. pose proof (digits_spec q) as [Hq _].
  pose proof (digits_pos p). pose proof (digits_pos q).
  replace (digits p + digits q - 1 - 1)%Z with ((digits p - 1) + (digits q - 1))%Z by lia.
  rewrite Z.pow_add_r by lia. rewrite Pos2Z.inj_mul. apply Z.mul_le_mono_nonneg; lia.
Qed.

Lemma mul_up x y : nonneg x → nonneg y → rounds_below (f64_mul x y) (fval x * fval y).
Proof.
  intros Hx Hy. destruct x as [sx| | |[] mx ex], y as [sy| | |[] my ey]; try done; unfold f64_mul; cbn [SFmul].
  1-3: apply rounds_below_zero; cbn; lra.
  cbn [xorb fval]. eapply rounds_below_mono; [|apply round_aux_up; [done|]].
  - unfold val. rewrite pow2_add, Pos2Z.inj_mul, mult_IZR. lra.
  - apply bounded_spec in Hx as [Hx _], Hy as [Hy _]. change (Zdigits2 (Zpos (mx * my))) with (digits (mx * my)).
    rewrite fexp_eq. pose proof (digits_mul mx my). pose proof (digits_pos mx). pose proof (digits_pos my). lia.
Qed.

Lemma div_up x y : nonneg x → nonneg y → 0 < fval y → rounds_below (f64_div x y) (fval x / fval y).
Proof.
  intros Hx Hy Hpos. destruct y as [sy| | |[] my ey]; try done; [cbn in Hpos; lra|].
  destruct x as [sx| | |[] mx ex]; try done; unfold f64_div; cbn [SFdiv].
  { apply rounds_below_zero. cbn [fval]. unfold Rdiv. lra. }
  cbn [xorb fval] in *. unfold SFdiv_core_binary. change (Zdigits2 (Zpos mx)) with (digits mx).
  change (Zdigits2 (Zpos my)) with (digits my). set (D := (digits mx + ex - (digits my + ey))%Z).
  set (e' := Z.min (fexp prec emax D) (ex - ey)). set (s := (ex - ey - e')%Z). assert (Hs : (0 ≤ s)%Z) by (unfold s, e'; lia).
  set (m' := match s with Zpos _ => _ | Z0 => _ | Zneg _ => _ end). assert (Hm' : m' = (Zpos mx * 2 ^ s)%Z).
  { unfold m'. destruct s; [by rewrite Z.pow_0_r, Z.mul_1_r|by apply Z.shiftl_mul_pow2|lia]. }
  pose proof (Z.div_eucl_eq m' (Zpos my) ltac:(done)) as Hdiv. pose proof (Z.mod_pos_bound m' (Zpos my) ltac:(done)) as Hmod.
  unfold Z.modulo in Hmod. destruct (Z.div_eucl m' (Zpos my)) as [q r] eqn:Eq.
  assert (Hmxpos : (0 < Zpos mx * 2 ^ s)%Z) by (apply Z.mul_pos_pos; [done|apply Z.pow_pos_nonneg; lia]).
  assert (Hq : (0 ≤ q)%Z) by nia.
  eapply rounds_below_mono; [|apply round_aux_up; [done|]].
  - apply Rmult_le_reg_r with (val (Zpos my) ey); [done|]. unfold Rdiv.
    rewrite Rmult_assoc, Rinv_l, Rmult_1_r by lra.
    replace (val q e' * val (Zpos my) ey) with (val (q * Zpos my) (e' + ey)) by (unfold val; rewrite mult_IZR, pow2_add; ring).
    apply Rle_trans with (val m' (e' + ey)); [apply val_le; lia|].
    rewrite Hm', val_shift by done. replace (e' + ey + s)%Z with ex by (unfold s; lia). lra.
  - rewrite fexp_eq. assert (He' : (e' ≤ Z.max (D - 53) (-1074))%Z) by (unfold e'; rewrite fexp_eq; lia).
    destruct (Z.le_gt_cases (D - e' - 1) (-1)) as [Hk|Hk]; [lia|].
    assert (Hqk : (2 ^ (D - e' - 1) ≤ q)%Z).
    { pose proof (digits_spec mx) as [Hmx _]. pose proof (digits_spec my) as [_ Hmy]. pose proof (digits_pos mx). pose proof (digits_pos my).
      assert (Hlow : (2 ^ (D - e' - 1) * 2 ^ digits my ≤ m')%Z).
      { rewrite Hm', <- Z.pow_add_r by lia. replace (D - e' - 1 + digits my)%Z with (digits mx - 1 + s)%Z by (unfold D, s; lia).
        rewrite Z.pow_add_r by lia. apply Z.mul_le_mono_nonneg_r; [apply Z.pow_nonneg; lia|done]. }
      apply Z.lt_succ_r. apply Z.mul_lt_mono_pos_r with (2 ^ digits my)%Z; [apply Z.pow_pos_nonneg; lia|].
      eapply Z.le_lt_trans; [exact Hlow|]. nia. }
    assert (Hq0 : (0 < q)%Z) by (pose proof (Z.pow_pos_nonneg 2 (D - e' - 1)); lia).
    destruct q as [|q|q]; [done| |done]. change (Zdigits2 (Zpos q)) with (digits q).
    assert (D - e' ≤ digits q)%Z by (apply digits_ge; done). lia.
Qed.

(** ** Time *)

Lemma no_overflow r x : rounds_below r x → x <= pow2 100 → nonneg r ∧ fval r <= up x.
Proof.
  intros [H|[-> H]] Hx; [done|]. exfalso. pose proof (up_mono _ _ Hx) as Hup. pose proof (Rle_trans _ _ _ H Hup) as H5. unfold up in H5. clear H Hup.
  pose proof (pow2_mono (-52) 0 ltac:(lia)) as H1. pose proof (pow2_mono (-1074) 0 ltac:(lia)) as H2.
  assert (H0 : pow2 0 = 1) by done. pose proof (pow2_mono 102 972 ltac:(lia)) as H3.
  replace 102%Z with (100 + 2)%Z in H3 by done. rewrite pow2_add, (pow2_IZR 2) in H3 by lia. change (IZR (2 ^ 2)) with 4 in H3.
  pose proof (pow2_mono 0 100 ltac:(lia)) as H4. rewrite H0 in H1, H2, H4.
  assert (pow2 100 * pow2 (-52) <= pow2 100 * 1) by (apply Rmult_le_compat_l; lra). lra.
Qed.

(** The unit in the last place is small, and the smallest subnormal much
    smaller. *)
Lemma ulp_small : 0 < pow2 (-52) <= / 1024 ∧ 0 < pow2 (-1074) <= / 1024 ∧ pow2 (-1074) * 8 <= pow2 (-52) * / IZR Minute.
Proof.
  assert (H10 : pow2 (-10) = / 1024) by (change (-10)%Z with (- (10))%Z; by rewrite pow2_neg, pow2_IZR).
  split_and!; try apply pow2_pos.
  - rewrite <- H10. apply pow2_mono. lia.
  - rewrite <- H10. apply pow2_mono. lia.
  - replace 8 with (pow2 3) by by rewrite pow2_IZR. rewrite <- pow2_add.
    apply Rle_trans with (pow2 (-52) * pow2 (-36)); [rewrite <- pow2_add; apply pow2_mono; lia|].
    apply Rmult_le_compat_l; [pose proof (pow2_pos (-52)); lra|].
    change (-36)%Z with (- (36))%Z. rewrite pow2_neg, pow2_IZR by lia. apply Rinv_le_contravar; [apply IZR_lt; done|apply IZR_le; done].
Qed.

(** Minutes as real numbers. *)
Definition real_minutes (d : Z) : R := IZR d / IZR Minute.

Lemma minutes_up d :
  (0 ≤ d ≤ MaxInt64)%Z → nonneg (minutes d) ∧ fval (minutes d) <= real_minutes d * (1 + 4 * pow2 (-52)).
Proof.
  intros Hd. destruct (decide (d = 0%Z)) as [->|Hne].
  { change (minutes 0) with (S754_zero false). split; [exact I|]. unfold real_minutes, Rdiv. cbn [fval]. lra. }
  unfold minutes. rewrite Z.quot_div_nonneg, Z.rem_mod_nonneg by (unfold Minute; lia).
  set (q := (d / Minute)%Z). set (r := (d mod Minute)%Z).
  assert (Hqr : d = (Minute * q + r)%Z) by (apply Z.div_mod; done).
  assert (Hr : (0 ≤ r < Minute)%Z) by (apply Z.mod_pos_bound; done).
  assert (Hq : (0 ≤ q < 2 ^ 53)%Z).
  { split; [apply Z.div_pos; unfold Minute; lia|]. apply Z.div_lt_upper_bound; unfold Minute, MaxInt64 in *; lia. }
  destruct (of_Z_exact q Hq) as [Hqn Hqv]. destruct (of_Z_exact r) as [Hrn Hrv]; [unfold Minute in *; lia|].
  destruct (of_Z_exact (60 * 10 ^ 9)) as [Hmn Hmv]; [lia|].
  assert (Hm0 : 0 < IZR Minute) by (apply IZR_lt; done).
  pose proof (div_up _ _ Hrn Hmn) as Hdiv. rewrite Hrv, Hmv in Hdiv. change (60 * 10 ^ 9)%Z with Minute in *.
  assert (Hx : 0 <= IZR r / IZR Minute <= 1).
  { destruct Hr as [Hr0 Hr1]. apply IZR_le in Hr0. apply IZR_lt in Hr1. unfold Rdiv.
    pose proof (Rinv_0_lt_compat _ Hm0) as Hi. split; [nra|]. rewrite <- (Rinv_r (IZR Minute)) by lra.
    apply Rmult_le_compat_r; lra. }
  destruct ulp_small as (Hu & Ht & Htu). set (u := pow2 (-52)) in *. set (t := pow2 (-1074)) in *.
  assert (Hbig : IZR (2 ^ 60) <= pow2 100) by (rewrite <- pow2_IZR by lia; apply pow2_mono; lia).
  destruct (no_overflow _ _ (Hdiv ltac:(done))) as [Hdn Hdv].
  { apply Rle_trans with (IZR (2 ^ 60)); [|done]. apply Rle_trans with (IZR 1); [lra|]. apply IZR_le. lia. }
  pose proof (add_up _ _ Hqn Hdn) as Hadd. rewrite Hqv in Hadd.
  assert (Hq' : 0 <= IZR q <= IZR (2 ^ 53)) by (split; apply IZR_le; lia).
  unfold up in Hdv. fold u t in Hdv.
  destruct (no_overflow _ _ Hadd) as [Hn Hv].
  { apply Rle_trans with (IZR (2 ^ 60)); [|done]. 
    assert (IZR (2 ^ 53) + 4 <= IZR (2 ^ 60)) by (rewrite <- plus_IZR; apply IZR_le; lia).
    assert (IZR r / IZR Minute * (1 + u) <= 1 * (1 + u)) by (apply Rmult_le_compat_r; lra). lra. }
  split; [done|]. eapply Rle_trans; [exact Hv|]. unfold up. fold u t.
  assert (HX : real_minutes d = IZR q + IZR r / IZR Minute).
  { unfold real_minutes. rewrite Hqr, plus_IZR, mult_IZR. field. lra. }
  assert (HX1 : / IZR Minute <= real_minutes d).
  { unfold real_minutes, Rdiv. rewrite <- (Rmult_1_l (/ IZR Minute)) at 1.
    apply Rmult_le_compat_r; [apply Rlt_le, Rinv_0_lt_compat; lra|]. apply IZR_le. lia. }
  rewrite HX in *. set (x := IZR r / IZR Minute) in *. set (y := IZR q) in *. set (m := / IZR Minute) in *.
  set (X := y + x) in *. assert (HX0 : 0 <= X) by (unfold X; lra).
  assert (Hum : t * 8 <= u * X) by (apply Rle_trans with (u * m); [lra|apply Rmult_le_compat_l; lra]).
  match goal with |- (y + ?f) * _ + _ <= _ => set (z := f) in * end.
  assert (Hz : y + z <= X * (1 + u) + t) by (unfold X; nra).
  assert (H1 : (y + z) * (1 + u) <= (X * (1 + u) + t) * (1 + u)) by (apply Rmult_le_compat_r; lra).
  assert (H2 : u * X * u <= u * X * / 1024) by (apply Rmult_le_compat_l; nra).
  assert (H3 : t * u <= t * / 1024) by (apply Rmult_le_compat_l; lra). lra.
Qed.
