(* ===== verification/NetIP.v ===== *)
(** * Go's [net] package: addresses

    What the gateway uses of [net] and [net/netip]: [ParseIP], [ParseCIDR],
    [IPNet.Contains], [SplitHostPort] and [IP.String].  An [net.IP] is its
    slice of bytes, of length 4 or 16; every byte is a [Z] in [0, 255].  The
    definitions follow the Standard Library's code, error branches included;
    an error is [None]. *)

From Stdlib Require Import ZArith Lia Ascii.
From S2P Require Import Prelude GoStrings.

Local Open Scope Z_scope.

Abbreviation IP := (list Z).

(** ** Digits *)
Definition byte_of (c : ascii) : Z := Z.of_nat (nat_of_ascii c).

Definition dec_digit (c : ascii) : option Z :=
  let n := byte_of c in
  if (48 <=? n) && (n <=? 57) then Some (n - 48) else None.

Definition hex_digit (c : ascii) : option Z :=
  let n := byte_of c in
  if (48 <=? n) && (n <=? 57) then Some (n - 48)
  else if (97 <=? n) && (n <=? 102) then Some (n - 97 + 10)
  else if (65 <=? n) && (n <=? 70) then Some (n - 65 + 10)
  else None.

(** ** Parsing addresses *)

(** [netip.parseIPv4Fields]: [prev] is the byte before [s] ([None] at the
    start), [val] and [digLen] describe the current octet, [fields] the octets
    that are complete. *)
Fixpoint parseIPv4Fields (s : string) (prev : option ascii) (val digLen : Z)
    (fields : list Z) : option (list Z) :=
  match s with
  | EmptyString =>
      if decide (length fields = 3%nat) then Some (fields ++ [val]) else None
  | String c s' =>
      match dec_digit c with
      | Some d =>
          if (digLen =? 1) && (val =? 0) then None
          else let val' := val * 10 + d in
               if 255 <? val' then None
               else parseIPv4Fields s' (Some c) val' (digLen + 1) fields
      | None =>
          if decide (c = "."%char) then
            if bool_decide (prev = None) || bool_decide (s' = ""%stdpp)
               || bool_decide (prev = Some "."%char) then None
            else if decide (length fields = 3%nat) then None
            else parseIPv4Fields s' (Some c) 0 0 (fields ++ [val])
          else None
      end
  end.

Definition parseIPv4 (s : string) : option (list Z) := parseIPv4Fields s None 0 0 [].

(** A run of at most four hexadecimal digits: its value, its length and the
    rest of the string. *)
Fixpoint hex_group (s : string) (acc : Z) (off : nat) : option (Z * nat * string) :=
  match s with
  | EmptyString => Some (acc, off, s)
  | String c s' =>
      match hex_digit c with
      | Some d =>
          if (3 <? off)%nat then None else hex_group s' (acc * 16 + d) (S off)
      | None => Some (acc, off, s)
      end
  end.

(** The loop of [netip.parseIPv6]: [ip] holds the bytes written so far (so
    [i] is its length), [ellipsis] the position of ["::"].  [fuel] bounds the
    eight groups of the loop condition [i < 16]. *)
Fixpoint parseIPv6_loop (fuel : nat) (s : string) (ip : list Z) (ellipsis : option nat)
    : option (string * list Z * option nat) :=
  match fuel with
  | O => Some (s, ip, ellipsis)
  | S fuel =>
      match hex_group s 0 0 with
      | None => None
      | Some (acc, off, rest) =>
          if decide (off = O) then None
          else match rest with
          | String "."%char _ =>
              if bool_decide (ellipsis = None) && negb (Nat.eqb (length ip) 12) then None
              else if (16 <? length ip + 4)%nat then None
              else match parseIPv4Fields s None 0 0 [] with
                   | None => None
                   | Some fields => Some (""%stdpp, ip ++ fields, ellipsis)
                   end
          | _ =>
              let ip' := ip ++ [acc / 256; acc mod 256] in
              match rest with
              | EmptyString => Some (""%stdpp, ip', ellipsis)
              | String ":"%char rest1 =>
                  match rest1 with
                  | EmptyString => None
                  | String ":"%char rest2 =>
                      if decide (ellipsis = None) then
                        match rest2 with
                        | EmptyString => Some (""%stdpp, ip', Some (length ip'))
                        | _ => parseIPv6_loop fuel rest2 ip' (Some (length ip'))
                        end
                      else None
                  | _ => parseIPv6_loop fuel rest1 ip' ellipsis
                  end
              | _ => None
              end
          end
      end
  end.

(** [netip.parseIPv6] for an address without a zone: both callers,
    [net.ParseIP] and [net.ParseCIDR], refuse an address that has one. *)
Definition parseIPv6 (s : string) : option (list Z) :=
  if contains s "%"%stdpp then None
  else
    let '(s0, ell0) :=
      if has_prefix s "::"%stdpp then (string_drop 2 s, Some 0%nat) else (s, None) in
    if bool_decide (ell0 = Some 0%nat) && bool_decide (s0 = ""%stdpp) then Some (repeat 0 16)
    else
      match parseIPv6_loop 8 s0 [] ell0 with
      | None => None
      | Some (rest, ip, ellipsis) =>
          if negb (bool_decide (rest = ""%stdpp)) then None
          else if (length ip <? 16)%nat then
            match ellipsis with
            | None => None
            | Some e => Some (take e ip ++ repeat 0 (16 - length ip) ++ drop e ip)
            end
          else match ellipsis with None => Some ip | Some _ => None end
      end.

(** [netip.ParseAddr]: the first of ['.'], [':'] and ['%'] decides. *)
Inductive addr :=
  | Addr4 (b : list Z)
  | Addr6 (b : list Z).

Fixpoint addr_kind (s : string) : option ascii :=
  match s with
  | EmptyString => None
  | String c s' =>
      if decide (c ∈ ["."; ":"; "%"]%char) then Some c else addr_kind s'
  end.

Definition ParseAddr (s : string) : option addr :=
  match addr_kind s with
  | Some "."%char => Addr4 <$> parseIPv4 s
  | Some ":"%char => Addr6 <$> parseIPv6 s
  | _ => None
  end.

(** [Addr.As16]: an IPv4 address is mapped into [::ffff:0:0/96]. *)
Definition v4InV6Prefix : list Z := repeat 0 10 ++ [255; 255].

Definition As16 (a : addr) : IP :=
  match a with
  | Addr4 b => v4InV6Prefix ++ b
  | Addr6 b => b
  end.

Definition BitLen (a : addr) : Z := match a with Addr4 _ => 32 | Addr6 _ => 128 end.

Definition ParseIP (s : string) : option IP := As16 <$> ParseAddr s.

(** [IP.To4] *)
Definition To4 (ip : IP) : option IP :=
  if (length ip =? 4)%nat then Some ip
  else if (length ip =? 16)%nat && bool_decide (take 12 ip = v4InV6Prefix) then Some (drop 12 ip)
  else None.

(** ** Networks *)
Record IPNet := mkIPNet { net_IP : IP; net_Mask : list Z }.

(** [CIDRMask ones bits]: [l] is the number of bytes. *)
Fixpoint CIDRMask (l : nat) (n : Z) : list Z :=
  match l with
  | O => []
  | S l => if 8 <=? n then 255 :: CIDRMask l (n - 8)
           else (255 - Z.shiftr 255 n) :: CIDRMask l 0
  end.

(** [net.dtoi]: the value of the leading digits, how many there are, and
    whether they are well formed. *)
Definition dtoi_big : Z := 16777215.

Fixpoint dtoi_from (s : string) (n : Z) (i : nat) : Z * nat * bool :=
  match s with
  | String c s' =>
      match dec_digit c with
      | Some d =>
          let n' := n * 10 + d in
          if dtoi_big <=? n' then (dtoi_big, i, false) else dtoi_from s' n' (S i)
      | None => (n, i, negb (Nat.eqb i 0))
      end
  | EmptyString => (n, i, negb (Nat.eqb i 0))
  end.

Definition dtoi (s : string) : Z * nat * bool := dtoi_from s 0 0.

Definition mask_bytes (ip mask : list Z) : list Z := zip_with Z.land ip mask.

(** [IP.Mask] for the 16-byte address that [ParseCIDR] passes. *)
Definition IPMask (ip mask : list Z) : option IP :=
  let ip' :=
    if (length mask =? 4)%nat && (length ip =? 16)%nat && bool_decide (take 12 ip = v4InV6Prefix)
    then drop 12 ip else ip in
  let mask' :=
    if (length mask =? 16)%nat && (length ip =? 4)%nat && bool_decide (take 12 mask = repeat 255 12)
    then drop 12 mask else mask in
  if decide (length ip' = length mask') then Some (mask_bytes ip' mask') else None.

Definition ParseCIDR (s : string) : option IPNet :=
  match cut s "/"%char with
  | None => None
  | Some (a, mask) =>
      match ParseAddr a with
      | None => None
      | Some ipAddr =>
          let '(n, i, ok) := dtoi mask in
          if negb ok || negb (Nat.eqb i (String.length mask)) || (n <? 0) || (BitLen ipAddr <? n)
          then None
          else
            let m := CIDRMask (Z.to_nat (BitLen ipAddr / 8)) n in
            Some (mkIPNet (default [] (IPMask (As16 ipAddr) m)) m)
      end
  end.

(** [networkNumberAndMask] *)
Definition networkNumberAndMask (n : IPNet) : option (IP * list Z) :=
  match (match To4 (net_IP n) with
         | Some ip => Some ip
         | None => if (length (net_IP n) =? 16)%nat then Some (net_IP n) else None
         end) with
  | None => None
  | Some ip =>
      if (length (net_Mask n) =? 4)%nat then
        if (length ip =? 4)%nat then Some (ip, net_Mask n) else None
      else if (length (net_Mask n) =? 16)%nat then
        Some (ip, if (length ip =? 4)%nat then drop 12 (net_Mask n) else net_Mask n)
      else None
  end.

(** [IPNet.Contains] *)
Definition IPNet_Contains (n : IPNet) (ip : IP) : bool :=
  match networkNumberAndMask n with
  | None => bool_decide (length (default ip (To4 ip)) = 0%nat)
  | Some (nn, m) =>
      let ip' := default ip (To4 ip) in
      bool_decide (length ip' = length nn) &&
      bool_decide (mask_bytes nn m = mask_bytes ip' m)
  end.

(** [IP.IsUnspecified] *)
Definition IsUnspecified (ip : IP) : bool :=
  bool_decide (ip = repeat 0 16) || bool_decide (To4 ip = Some (repeat 0 4)).

(** ** Host and port *)
Fixpoint index_byte (s : string) (c : ascii) : option nat :=
  match s with
  | EmptyString => None
  | String d s' => if decide (d = c) then Some 0%nat else S <$> index_byte s' c
  end.

Fixpoint last_index_byte (s : string) (c : ascii) : option nat :=
  match s with
  | EmptyString => None
  | String d s' =>
      match last_index_byte s' c with
      | Some i => Some (S i)
      | None => if decide (d = c) then Some 0%nat else None
      end
  end.

(** [net.SplitHostPort]: host and port, or [None] for any of its errors. *)
Definition SplitHostPort (hostport : string) : option (string * string) :=
  match last_index_byte hostport ":"%char with
  | None => None
  | Some i =>
      let finish (host : string) (j k : nat) :=
        if is_Some_dec (index_byte (string_drop j hostport) "["%char) then None
        else if is_Some_dec (index_byte (string_drop k hostport) "]"%char) then None
        else Some (host, string_drop (S i) hostport) in
      match hostport with
      | String "["%char _ =>
          match index_byte hostport "]"%char with
          | None => None
          | Some e =>
              if decide (S e = i)
              then finish (string_take (e - 1) (string_drop 1 hostport)) 1%nat (S e)
              else None
          end
      | _ =>
          let host := string_take i hostport in
          if is_Some_dec (index_byte host ":"%char) then None else finish host 0%nat 0%nat
      end
  end.

(** ** Printing *)
Definition dec_char (d : Z) : ascii := ascii_of_nat (Z.to_nat (48 + d)).
Definition hex_char (d : Z) : ascii :=
  ascii_of_nat (Z.to_nat (if d <? 10 then 48 + d else 87 + d)).

(** A byte in decimal, without leading zeros. *)
Definition dec_byte (b : Z) : string :=
  if b <? 10 then String (dec_char b) ""
  else if b <? 100 then String (dec_char (b / 10)) (String (dec_char (b mod 10)) "")
  else String (dec_char (b / 100))
         (String (dec_char (b / 10 mod 10)) (String (dec_char (b mod 10)) "")).

(** [netip.appendHex]: a 16-bit group in hexadecimal, without leading zeros. *)
Definition hex_group_string (x : Z) : string :=
  let d3 := x / 4096 mod 16 in let d2 := x / 256 mod 16 in
  let d1 := x / 16 mod 16 in let d0 := x mod 16 in
  let s0 := String (hex_char d0) "" in
  if x <? 16 then s0
  else if x <? 256 then String (hex_char d1) s0
  else if x <? 4096 then String (hex_char d2) (String (hex_char d1) s0)
  else String (hex_char d3) (String (hex_char d2) (String (hex_char d1) s0)).

Definition ipv4_string (b : list Z) : string := join (dec_byte <$> b) "."%stdpp.

(** The eight 16-bit groups of a 16-byte address. *)
Fixpoint groups (b : list Z) : list Z :=
  match b with
  | hi :: lo :: b' => (hi * 256 + lo) :: groups b'
  | _ => []
  end.

(** The length of the run of zero groups at the head of a list. *)
Fixpoint zero_run (gs : list Z) : nat :=
  match gs with
  | 0 :: gs' => S (zero_run gs')
  | _ => O
  end.

(** The leftmost longest run of at least two zero groups: start and length. *)
Fixpoint longest_zero_run (i : nat) (gs : list Z) (best : nat * nat) : nat * nat :=
  match gs with
  | [] => best
  | _ :: gs' =>
      let l := zero_run gs in
      longest_zero_run (S i) gs'
        (if (2 <=? l)%nat && (best.2 <? l)%nat then (i, l) else best)
  end.

Definition ipv6_string (b : list Z) : string :=
  let gs := groups b in
  let '(start, len) := longest_zero_run 0 gs (255%nat, 0%nat) in
  let hex l := join (hex_group_string <$> l) ":"%stdpp in
  if (len =? 0)%nat then hex gs
  else (hex (take start gs) +:+ "::" +:+ hex (drop (start + len) gs))%stdpp.

(** [IP.String] for the addresses that [ParseIP] yields. *)
Definition IP_String (ip : IP) : string :=
  match To4 ip with
  | Some b => ipv4_string b
  | None => ipv6_string ip
  end.

Example parse_v4 : ParseIP "192.0.2.10" = Some (v4InV6Prefix ++ [192; 0; 2; 10]).
Proof. vm_compute. reflexivity. Qed.

Example parse_v4_leading_zero : ParseIP "192.0.02.10" = None.
Proof. vm_compute. reflexivity. Qed.

Example parse_v6 :
  IP_String <$> ParseIP "2001:DB8:0:0:1:0:0:42" = Some "2001:db8::1:0:0:42"%stdpp.
Proof. vm_compute. reflexivity. Qed.

Example parse_v6_mixed : ParseIP "::ffff:10.0.0.5" = ParseIP "10.0.0.5".
Proof. vm_compute. reflexivity. Qed.

Example parse_v6_bad : (ParseIP "1::2::3", ParseIP ":::", ParseIP "1:2:3:4:5:6:7:8:9",
  ParseIP "fe80::1%eth0", ParseIP "12345::", ParseIP "1:2") = (None, None, None, None, None, None).
Proof. vm_compute. reflexivity. Qed.

Example split_host_port :
  (SplitHostPort "[::1]:443", SplitHostPort ":8080", SplitHostPort "::1", SplitHostPort "h:1")
  = (Some ("::1", "443"), Some ("", "8080"), None, Some ("h", "1"))%stdpp.
Proof. vm_compute. reflexivity. Qed.
