(* ===== verification/NetPrefix.v ===== *)
(** * Networks as bit prefixes

    Facts about the addresses and networks of [NetIP]: every parsed address is
    16 bytes, and a network contains exactly the addresses that share its
    leading bits. *)

From Stdlib Require Import ZArith Lia Ascii.
From S2P Require Import Prelude GoStrings NetIP.

Local Open Scope Z_scope.

(** ** Lengths of parsed addresses *)

Lemma parseIPv4Fields_length s prev v d fields b :
  parseIPv4Fields s prev v d fields = Some b → length b = 4%nat.
Proof.
  revert prev v d fields. induction s as [|c s IH]; intros prev v d fields; cbn [parseIPv4Fields].
  - case_decide; [|done]. intros [= <-]. rewrite length_app. simpl. lia.
  - destruct (dec_digit c).
    + destruct (_ && _); [done|]. cbv zeta. destruct (255 <? _); [done|]. apply IH.
    + case_decide; [|done]. destruct (_ || _); [done|]. case_decide; [done|]. apply IH.
Qed.

Lemma parseIPv6_loop_length fuel s ip e rest ip' e' :
  (length ip + 2 * fuel ≤ 16)%nat → parseIPv6_loop fuel s ip e = Some (rest, ip', e') →
  (length ip' ≤ 16)%nat.
Proof.
  revert s ip e. induction fuel as [|fuel IH]; intros s ip e Hl; cbn [parseIPv6_loop].
  { intros [= _ <- _]. lia. }
  destruct (hex_group s 0 0) as [[[acc off] r]|]; [|done]. case_decide; [done|].
  assert (Hl2 : ∀ a b : Z, length (ip ++ [a; b]) = (length ip + 2)%nat)
    by (intros; rewrite length_app; done).
  assert (Hdone : ∀ a b (q : string) (f : option nat), Some (q, ip ++ [a; b], f) = Some (rest, ip', e') →
    (length ip' ≤ 16)%nat) by (intros a b q f [= _ <- _]; rewrite Hl2; lia).
  assert (Hgo : ∀ s1 e1 a b, parseIPv6_loop fuel s1 (ip ++ [a; b]) e1 = Some (rest, ip', e') →
    (length ip' ≤ 16)%nat) by (intros s1 e1 a b; apply IH; rewrite Hl2; lia).
  destruct r as [|c r]; [apply Hdone|].
  destruct (decide (c = "."%char)) as [->|Hdot].
  { destruct (_ && _); [done|]. destruct (Nat.ltb_spec 16 (length ip + 4)); [done|].
    destruct (parseIPv4Fields s None 0 0 []) as [fields|] eqn:E4; [|done].
    intros [= _ <- _]. rewrite length_app, (parseIPv4Fields_length _ _ _ _ _ _ E4). lia. }
  destruct (decide (c = ":"%char)) as [->|Hcolon].
  - destruct r as [|c1 r1]; [done|]. destruct (decide (c1 = ":"%char)) as [->|Hc1].
    + case_decide; [|done]. destruct r1; [apply Hdone|apply Hgo].
    + destruct c1 as [[][][][][][][][]]; solve [apply Hgo|done].
  - destruct c as [[][][][][][][][]]; done.
Qed.

Lemma parseIPv6_length s b : parseIPv6 s = Some b → length b = 16%nat.
Proof.
  unfold parseIPv6. destruct (contains s "%"); [done|].
  destruct (if has_prefix s "::" then _ else _) as [s0 e0].
  destruct (_ && _); [by intros [= <-]|].
  destruct (parseIPv6_loop 8 s0 [] e0) as [[[rest ip] e]|] eqn:El; [|done].
  apply parseIPv6_loop_length in El; [|simpl; lia].
  destruct (negb _); [done|]. destruct (Nat.ltb_spec (length ip) 16).
  - destruct e as [e|]; [|done]. intros [= <-].
    rewrite !length_app, repeat_length, length_take, length_drop. lia.
  - destruct e; [done|]. intros [= <-]. lia.
Qed.

Definition addr_bytes (a : addr) : list Z := match a with Addr4 b | Addr6 b => b end.

Lemma ParseAddr_length s a :
  ParseAddr s = Some a → length (addr_bytes a) = match a with Addr4 _ => 4%nat | Addr6 _ => 16%nat end.
Proof.
  unfold ParseAddr. destruct (addr_kind s) as [[[][][][][][][][]]|]; try done.
  - intros (b & H & ->)%fmap_Some. by apply parseIPv4Fields_length in H.
  - intros (b & H & ->)%fmap_Some. by apply parseIPv6_length in H.
Qed.

Lemma ParseIP_length s ip : ParseIP s = Some ip → length ip = 16%nat.
Proof.
  unfold ParseIP. intros (a & Ha & ->)%fmap_Some. apply ParseAddr_length in Ha.
  destruct a; simpl in *; rewrite ?length_app; simpl; lia.
Qed.

(** ** Addresses are 16 bytes *)
Definition is_byte (b : Z) : Prop := 0 ≤ b < 256.
Definition is_ip (ip : IP) : Prop := length ip = 16%nat ∧ Forall is_byte ip.

Lemma dec_digit_range c d : dec_digit c = Some d → 0 ≤ d ≤ 9.
Proof. unfold dec_digit. case_if; intros [= <-]. bool_to_prop. lia. Qed.

Lemma hex_digit_range c d : hex_digit c = Some d → 0 ≤ d ≤ 15.
Proof. unfold hex_digit. repeat case_if; intros [= <-]; bool_to_prop; lia. Qed.

Lemma parseIPv4Fields_bytes s prev v d fields b :
  is_byte v → Forall is_byte fields → parseIPv4Fields s prev v d fields = Some b → Forall is_byte b.
Proof.
  revert prev v d fields. induction s as [|c s IH]; intros prev v d fields Hv Hf; cbn [parseIPv4Fields].
  - case_decide; [|done]. intros [= <-]. apply Forall_app. by rewrite Forall_singleton.
  - destruct (dec_digit c) as [g|] eqn:Eg.
    + destruct (_ && _); [done|]. cbv zeta. destruct (255 <? _) eqn:E; [done|].
      apply IH; [|done]. apply dec_digit_range in Eg. bool_to_prop. unfold is_byte in *. lia.
    + case_decide; [|done]. destruct (_ || _); [done|]. case_decide; [done|].
      apply IH; [done|]. apply Forall_app. by rewrite Forall_singleton.
Qed.

Lemma parseIPv4_bytes s b : parseIPv4 s = Some b → Forall is_byte b.
Proof. apply parseIPv4Fields_bytes; [done|constructor]. Qed.

Lemma hex_group_range s acc off acc' off' rest :
  0 ≤ acc < 16 ^ Z.of_nat off → (off ≤ 4)%nat →
  hex_group s acc off = Some (acc', off', rest) → 0 ≤ acc' < 65536.
Proof.
  revert acc off. induction s as [|c s IH]; intros acc off Ha Ho; cbn [hex_group].
  - intros [= <- <- <-]. pose proof (Z.pow_le_mono_r 16 (Z.of_nat off) 4). lia.
  - destruct (hex_digit c) as [g|] eqn:Eg.
    + destruct (Nat.ltb_spec 3 off); [done|]. apply IH; [|lia].
      apply hex_digit_range in Eg. rewrite Nat2Z.inj_succ, Z.pow_succ_r by lia. lia.
    + intros [= <- <- <-]. pose proof (Z.pow_le_mono_r 16 (Z.of_nat off) 4). lia.
Qed.

Lemma group_bytes acc : 0 ≤ acc < 65536 → Forall is_byte [acc / 256; acc mod 256].
Proof.
  intros. rewrite Forall_cons, Forall_singleton. unfold is_byte.
  pose proof (Z.div_lt_upper_bound acc 256 256). pose proof (Z.div_pos acc 256).
  pose proof (Z.mod_pos_bound acc 256). lia.
Qed.

Lemma parseIPv6_loop_bytes fuel s ip e rest ip' e' :
  Forall is_byte ip → parseIPv6_loop fuel s ip e = Some (rest, ip', e') → Forall is_byte ip'.
Proof.
  revert s ip e. induction fuel as [|fuel IH]; intros s ip e Hip; cbn [parseIPv6_loop].
  { by intros [= _ <- _]. }
  destruct (hex_group s 0 0) as [[[acc off] r]|] eqn:Eh; [|done]. case_decide; [done|].
  apply hex_group_range in Eh; [|done|lia]. apply group_bytes in Eh.
  assert (Hnew : Forall is_byte (ip ++ [acc / 256; acc mod 256])) by (by apply Forall_app).
  assert (Hgo : ∀ s1 e1, parseIPv6_loop fuel s1 (ip ++ [acc / 256; acc mod 256]) e1 = Some (rest, ip', e') →
    Forall is_byte ip') by (intros s1 e1; by apply IH).
  revert Hnew Hgo. generalize (ip ++ [acc / 256; acc mod 256]). intros new Hnew Hgo.
  destruct r as [|c r]; [by intros [= _ <- _]|].
  destruct (decide (c = "."%char)) as [->|Hdot].
  { destruct (_ && _); [done|]. destruct (Nat.ltb_spec 16 (length ip + 4)); [done|].
    destruct (parseIPv4Fields s None 0 0 []) as [fields|] eqn:E4; [|done].
    intros [= _ <- _]. apply Forall_app. split; [done|]. by apply parseIPv4_bytes in E4. }
  destruct (decide (c = ":"%char)) as [->|Hcolon].
  - destruct r as [|c1 r1]; [done|]. destruct (decide (c1 = ":"%char)) as [->|Hc1].
    + case_decide; [|done]. destruct r1; [by intros [= _ <- _]|apply Hgo].
    + destruct c1 as [[][][][][][][][]]; solve [apply Hgo|done].
  - destruct c as [[][][][][][][][]]; done.
Qed.

Lemma Forall_repeat {A} (P : A → Prop) x n : P x → Forall P (repeat x n).
Proof. intros. induction n; by constructor. Qed.

Lemma parseIPv6_bytes s b : parseIPv6 s = Some b → Forall is_byte b.
Proof.
  unfold parseIPv6. destruct (contains s "%"); [done|].
  destruct (if has_prefix s "::" then _ else _) as [s0 e0].
  destruct (_ && _); [by intros [= <-]; apply (Forall_repeat _ 0 16)|].
  destruct (parseIPv6_loop 8 s0 [] e0) as [[[rest ip] e]|] eqn:El; [|done].
  apply parseIPv6_loop_bytes in El; [|constructor].
  destruct (negb _); [done|]. destruct (Nat.ltb_spec (length ip) 16).
  - destruct e as [e|]; [|done]. intros [= <-]. rewrite !Forall_app.
    split_and!; [by apply Forall_take|by apply Forall_repeat|by apply Forall_drop].
  - destruct e; [done|]. by intros [= <-].
Qed.

Lemma ParseAddr_bytes s a : ParseAddr s = Some a → Forall is_byte (addr_bytes a).
Proof.
  unfold ParseAddr. destruct (addr_kind s) as [[[][][][][][][][]]|]; try done.
  - intros (b & H & ->)%fmap_Some. by apply parseIPv4_bytes in H.
  - intros (b & H & ->)%fmap_Some. by apply parseIPv6_bytes in H.
Qed.

Lemma As16_is_ip s a : ParseAddr s = Some a → is_ip (As16 a).
Proof.
  intros Ha. pose proof (ParseAddr_length s a Ha) as Hl. pose proof (ParseAddr_bytes s a Ha) as Hb.
  destruct a as [b|b]; cbn [addr_bytes As16] in *; [|done].
  assert (is_byte 0 ∧ is_byte 255) as [] by done.
  split; [rewrite length_app, Hl; done|]. apply Forall_app. split; [|done]. by repeat constructor.
Qed.

Lemma ParseIP_is_ip s ip : ParseIP s = Some ip → is_ip ip.
Proof. unfold ParseIP. intros (a & Ha & ->)%fmap_Some. by eapply As16_is_ip. Qed.

#[export] Hint Resolve ParseIP_is_ip As16_is_ip ParseIP_length : go_db.

(** ** Networks as bit prefixes *)

(** Bit [k] of an address, counted from the most significant one. *)
Definition ip_bit (l : list Z) (k : nat) : bool :=
  Z.testbit (nth (k / 8) l 0) (7 - Z.of_nat (k mod 8)).

(** Two addresses share their first [n] bits. *)
Definition agree (n : Z) (a b : list Z) : Prop :=
  ∀ k : nat, Z.of_nat k < n → ip_bit a k = ip_bit b k.

Definition byte_agree (n : Z) (x y : Z) : Prop :=
  ∀ k : nat, (k < 8)%nat → Z.of_nat k < n → Z.testbit x (7 - Z.of_nat k) = Z.testbit y (7 - Z.of_nat k).

Lemma mask_bit n i :
  0 ≤ n ≤ 8 → 0 ≤ i → Z.testbit (255 - Z.shiftr 255 n) i = (8 - n <=? i) && (i <? 8).
Proof.
  intros Hn Hi. destruct (Z.ltb_spec i 8) as [Hlt|Hge].
  - assert (n = 0 ∨ n = 1 ∨ n = 2 ∨ n = 3 ∨ n = 4 ∨ n = 5 ∨ n = 6 ∨ n = 7 ∨ n = 8) as Hc by lia.
    assert (i = 0 ∨ i = 1 ∨ i = 2 ∨ i = 3 ∨ i = 4 ∨ i = 5 ∨ i = 6 ∨ i = 7) as Hd by lia.
    destruct_or! Hc; subst n; destruct_or! Hd; subst i; reflexivity.
  - rewrite andb_false_r. apply Z.bits_above_log2.
    + rewrite Z.shiftr_div_pow2 by lia. pose proof (Z.pow_pos_nonneg 2 n).
      pose proof (Z.div_le_upper_bound 255 (2 ^ n) 255). lia.
    + assert (255 - Z.shiftr 255 n ≤ 255).
      { rewrite Z.shiftr_div_pow2 by lia. pose proof (Z.div_pos 255 (2 ^ n)).
        pose proof (Z.pow_pos_nonneg 2 n). lia. }
      pose proof (Z.log2_le_mono _ _ H). change (Z.log2 255) with 7 in *. lia.
Qed.

Lemma land_mask_agree n x y :
  0 ≤ n ≤ 8 →
  Z.land x (255 - Z.shiftr 255 n) = Z.land y (255 - Z.shiftr 255 n) ↔ byte_agree n x y.
Proof.
  intros Hn. unfold byte_agree. split.
  - intros He k Hk Hkn. apply (f_equal (λ z, Z.testbit z (7 - Z.of_nat k))) in He.
    rewrite !Z.land_spec, mask_bit in He by lia.
    replace (8 - n <=? 7 - Z.of_nat k) with true in He by (symmetry; apply Z.leb_le; lia).
    replace (7 - Z.of_nat k <? 8) with true in He by (symmetry; apply Z.ltb_lt; lia).
    simpl in He. by rewrite !andb_true_r in He.
  - intros Ha. apply Z.bits_inj'. intros i Hi. rewrite !Z.land_spec, mask_bit by lia.
    destruct (Z.leb_spec (8 - n) i) as [H1|H1]; simpl; [|by rewrite !andb_false_r].
    destruct (Z.ltb_spec i 8) as [H2|H2]; [|by rewrite !andb_false_r].
    specialize (Ha (Z.to_nat (7 - i)) ltac:(lia) ltac:(lia)).
    replace (7 - Z.of_nat (Z.to_nat (7 - i))) with i in Ha by lia. by rewrite Ha.
Qed.

Lemma ip_bit_cons_low x a k : (k < 8)%nat → ip_bit (x :: a) k = Z.testbit x (7 - Z.of_nat k).
Proof. intros. unfold ip_bit. by rewrite Nat.div_small, Nat.mod_small by done. Qed.

Lemma ip_bit_cons_high x a k : (8 ≤ k)%nat → ip_bit (x :: a) k = ip_bit a (k - 8).
Proof.
  intros. unfold ip_bit. replace k with ((k - 8) + 1 * 8)%nat at 1 2 by lia.
  rewrite Nat.div_add, Nat.Div0.mod_add by lia. rewrite Nat.add_1_r. done.
Qed.

Lemma agree_cons n x y a b :
  agree n (x :: a) (y :: b) ↔ byte_agree n x y ∧ agree (n - 8) a b.
Proof.
  unfold agree, byte_agree. split.
  - intros H. split.
    + intros k Hk Hn. specialize (H k Hn). by rewrite !ip_bit_cons_low in H.
    + intros k Hn. specialize (H (k + 8)%nat ltac:(lia)). rewrite !ip_bit_cons_high in H by lia.
      by replace (k + 8 - 8)%nat with k in H by lia.
  - intros [H1 H2] k Hn. destruct (Nat.lt_ge_cases k 8).
    + rewrite !ip_bit_cons_low by done. auto.
    + rewrite !ip_bit_cons_high by done. apply H2. lia.
Qed.

Lemma byte_agree_all n x y : 8 ≤ n → byte_agree n x y ↔ byte_agree 8 x y.
Proof. intros. unfold byte_agree. split; intros H1 k Hk Hn; apply H1; lia. Qed.

Lemma agree_nonpos n a b : n ≤ 0 → agree n a b.
Proof. intros ? k Hk. lia. Qed.

Lemma cons_eq_iff {A} (x y : A) (a b : list A) : x :: a = y :: b ↔ x = y ∧ a = b.
Proof. split; [by intros [= -> ->]|by intros [-> ->]]. Qed.

(** Equality under the mask of [CIDRMask] is agreement of the prefix. *)
Lemma mask_agree l n a b :
  length a = l → length b = l → 0 ≤ n →
  mask_bytes a (CIDRMask l n) = mask_bytes b (CIDRMask l n) ↔ agree (Z.min n (8 * Z.of_nat l)) a b.
Proof.
  revert n a b. induction l as [|l IH]; intros n a b.
  { destruct a; [|done]. destruct b; [|done]. intros _ _ Hn. split; [|done].
    intros _. apply agree_nonpos. lia. }
  destruct a as [|x a]; [done|]. destruct b as [|y b]; [done|]. intros Ha Hb Hn.
  rewrite agree_cons. cbn [CIDRMask].
  destruct (Z.leb_spec 8 n) as [H8|H8]; unfold mask_bytes in *; cbn [zip_with];
    rewrite cons_eq_iff; (etransitivity; [apply and_iff_compat_l, IH; [by injection Ha|by injection Hb|lia]|]).
  - change 255 with (255 - Z.shiftr 255 8). rewrite land_mask_agree by lia.
    rewrite (byte_agree_all (Z.min _ _)) by lia. f_equiv.
    replace (Z.min n (8 * Z.of_nat (S l)) - 8) with (Z.min (n - 8) (8 * Z.of_nat l)) by lia. done.
  - rewrite land_mask_agree by lia. rewrite (Z.min_l n) by lia. apply and_iff_compat_l.
    split; intros _; apply agree_nonpos; lia.
Qed.

Lemma mask_bytes_idem a m : mask_bytes (mask_bytes a m) m = mask_bytes a m.
Proof.
  unfold mask_bytes. revert m. induction a as [|x a IH]; intros [|y m]; simpl; [done..|].
  by rewrite IH, <- Z.land_assoc, Z.land_diag.
Qed.

Lemma CIDRMask_length l n : length (CIDRMask l n) = l.
Proof. revert n. induction l as [|l IH]; intros n; simpl; [done|]. case_if; simpl; by rewrite IH. Qed.

Lemma CIDRMask_split p l n :
  8 * Z.of_nat p ≤ n → CIDRMask (p + l) n = repeat 255 p ++ CIDRMask l (n - 8 * Z.of_nat p).
Proof.
  revert n. induction p as [|p IH]; intros n Hn; [simpl; f_equal; lia|].
  cbn [Nat.add CIDRMask repeat app]. replace (8 <=? n) with true by (symmetry; apply Z.leb_le; lia).
  f_equal. rewrite IH by lia. do 2 f_equal. lia.
Qed.

Lemma agree_app p q a b n :
  length p = length q → 0 ≤ n →
  agree (8 * Z.of_nat (length p) + n) (p ++ a) (q ++ b)
  ↔ agree (8 * Z.of_nat (length p)) p q ∧ agree n a b.
Proof.
  revert q. induction p as [|x p IH]; intros [|y q] Hl Hn; try done.
  { simpl. split; [intros H; split; [by apply agree_nonpos|exact H]|by intros [_ H]]. }
  injection Hl as Hl. cbn [app length]. rewrite !agree_cons.
  rewrite (byte_agree_all (8 * Z.of_nat (S (length p)))), (byte_agree_all (_ + n)) by lia.
  replace (8 * Z.of_nat (S (length p)) + n - 8) with (8 * Z.of_nat (length p) + n) by lia.
  replace (8 * Z.of_nat (S (length p)) - 8) with (8 * Z.of_nat (length p)) by lia.
  rewrite IH by done. tauto.
Qed.

Lemma byte_agree_eq x y : is_byte x → is_byte y → byte_agree 8 x y → x = y.
Proof.
  unfold is_byte. intros Hx Hy H. apply Z.bits_inj'. intros i Hi.
  destruct (Z.lt_ge_cases i 8).
  - specialize (H (Z.to_nat (7 - i)) ltac:(lia) ltac:(lia)).
    by replace (7 - Z.of_nat (Z.to_nat (7 - i))) with i in H by lia.
  - assert (Hhi : ∀ z, 0 ≤ z < 256 → Z.testbit z i = false).
    { intros z Hz. destruct (Z.eq_dec z 0) as [->|]; [apply Z.testbit_0_l|].
      apply Z.bits_above_log2; [lia|]. apply Z.log2_lt_pow2; [lia|].
      pose proof (Z.pow_le_mono_r 2 8 i). lia. }
    by rewrite !Hhi.
Qed.

Lemma agree_full a b :
  length a = length b → Forall is_byte a → Forall is_byte b →
  agree (8 * Z.of_nat (length a)) a b ↔ a = b.
Proof.
  intros Hl Ha Hb. split; [|by intros ->]. revert b Hl Hb.
  induction Ha as [|x a Hx Ha IH]; intros [|y b] Hl Hb; try done.
  injection Hl as Hl. apply Forall_cons in Hb as [Hy Hb]. cbn [length]. rewrite agree_cons.
  rewrite byte_agree_all by lia. intros [H1 H2]. f_equal; [by apply byte_agree_eq|].
  apply IH; [done..|]. by replace (8 * Z.of_nat (length a)) with (8 * Z.of_nat (S (length a)) - 8) by lia.
Qed.

(** ** What a network contains *)

Definition is_v4 (ip : IP) : bool := bool_decide (take 12 ip = v4InV6Prefix).

Lemma To4_16 ip : length ip = 16%nat → To4 ip = if is_v4 ip then Some (drop 12 ip) else None.
Proof. intros Hl. unfold To4, is_v4. by rewrite Hl. Qed.

Lemma mask_bytes_length a m : length (mask_bytes a m) = Nat.min (length a) (length m).
Proof. apply length_zip_with. Qed.

Lemma is_ip_drop ip : is_ip ip → length (drop 12 ip) = 4%nat.
Proof. intros [Hl _]. rewrite length_drop, Hl. done. Qed.

(** A network of four bytes contains exactly the IPv4 addresses of its prefix. *)
Lemma contains_v4 b n ip :
  length b = 4%nat → 0 ≤ n ≤ 32 → is_ip ip →
  IPNet_Contains (mkIPNet (mask_bytes b (CIDRMask 4 n)) (CIDRMask 4 n)) ip = true
  ↔ is_v4 ip = true ∧ agree n b (drop 12 ip).
Proof.
  intros Hb Hn Hip. unfold IPNet_Contains, networkNumberAndMask. cbn [net_IP net_Mask].
  assert (Hl : length (mask_bytes b (CIDRMask 4 n)) = 4%nat)
    by (rewrite mask_bytes_length, CIDRMask_length, Hb; done).
  unfold To4 at 1. rewrite Hl, CIDRMask_length. cbn [Nat.eqb]. rewrite Hl. cbn [Nat.eqb].
  rewrite To4_16 by apply Hip. destruct (is_v4 ip); cbn [from_option id].
  - rewrite is_ip_drop, Hl by done. rewrite andb_true_iff, !bool_decide_eq_true, mask_bytes_idem.
    rewrite mask_agree by (done || lia || by apply is_ip_drop).
    rewrite Z.min_l by lia. naive_solver.
  - destruct Hip as [-> _]. rewrite Hl, andb_true_iff, bool_decide_eq_true. naive_solver.
Qed.

Lemma ip_bit_mask l n k : 0 ≤ n → (k < 8 * l)%nat → ip_bit (CIDRMask l n) k = (Z.of_nat k <? n).
Proof.
  revert n k. induction l as [|l IH]; intros n k Hn Hk; [lia|]. cbn [CIDRMask].
  destruct (Nat.lt_ge_cases k 8) as [Hlt|Hge].
  - destruct (Z.leb_spec 8 n); rewrite ip_bit_cons_low by done.
    + change 255 with (255 - Z.shiftr 255 8). rewrite mask_bit by lia.
      destruct (Z.leb_spec (8 - 8) (7 - Z.of_nat k)), (Z.ltb_spec (7 - Z.of_nat k) 8),
        (Z.ltb_spec (Z.of_nat k) n); simpl; done || lia.
    + rewrite mask_bit by lia.
      destruct (Z.leb_spec (8 - n) (7 - Z.of_nat k)), (Z.ltb_spec (7 - Z.of_nat k) 8),
        (Z.ltb_spec (Z.of_nat k) n); simpl; done || lia.
  - destruct (Z.leb_spec 8 n); rewrite ip_bit_cons_high, IH by lia;
      destruct (Z.ltb_spec (Z.of_nat (k - 8)) (n - 8)), (Z.ltb_spec (Z.of_nat (k - 8)) 0),
        (Z.ltb_spec (Z.of_nat k) n); done || lia.
Qed.

Lemma ip_bit_land a m k : length a = length m → ip_bit (mask_bytes a m) k = ip_bit a k && ip_bit m k.
Proof.
  intros Hl. unfold ip_bit. rewrite <- Z.land_spec. f_equal. generalize (k / 8)%nat as i.
  revert m Hl. induction a as [|x a IH]; intros [|y m] Hl i; try done.
  - by destruct i.
  - destruct i as [|i]; [done|].
    change (nth i (mask_bytes a m) 0 = Z.land (nth i a 0) (nth i m 0)). apply IH. by injection Hl.
Qed.

Lemma ip_bit_take a k j : (k < 8 * j)%nat → ip_bit (take j a) k = ip_bit a k.
Proof.
  intros Hk. unfold ip_bit. f_equal. assert (k / 8 < j)%nat as Hj by (apply Nat.Div0.div_lt_upper_bound; lia).
  revert a Hj. generalize (k / 8)%nat as i. clear. induction j as [|j IH]; intros i a Hj; [lia|].
  destruct a as [|x a]; [done|]. destruct i as [|i]; [done|].
  change (nth i (take j a) 0 = nth i a 0). apply IH. lia.
Qed.

Lemma mask_bytes_ones a p : Forall is_byte a → length a = p → mask_bytes a (repeat 255 p) = a.
Proof.
  intros Ha <-. unfold mask_bytes. induction Ha as [|x a Hx Ha IH]; [done|]. cbn [length repeat zip_with].
  rewrite IH. f_equal. change 255 with (Z.ones 8). rewrite Z.land_ones by lia. by apply Z.mod_small.
Qed.

Lemma mask_bytes_app a1 a2 m1 m2 :
  length a1 = length m1 → mask_bytes (a1 ++ a2) (m1 ++ m2) = mask_bytes a1 m1 ++ mask_bytes a2 m2.
Proof. apply zip_with_app. Qed.

Lemma agree_split a b n :
  is_ip a → is_ip b → 96 ≤ n →
  agree n a b ↔ take 12 a = take 12 b ∧ agree (n - 96) (drop 12 a) (drop 12 b).
Proof.
  intros [Hla Hfa] [Hlb Hfb] Hn.
  rewrite <- (take_drop 12 a) at 1. rewrite <- (take_drop 12 b) at 1.
  assert (Hta : length (take 12 a) = 12%nat) by (rewrite length_take; lia).
  assert (Htb : length (take 12 b) = 12%nat) by (rewrite length_take; lia).
  replace n with (8 * Z.of_nat (length (take 12 a)) + (n - 96)) at 1 by (rewrite Hta; lia).
  rewrite agree_app by lia.
  rewrite agree_full by (by rewrite ?Hta, ?Htb || by apply Forall_take). done.
Qed.

(** The network that [ParseCIDR] builds from a 16-byte address and [n]. *)
Definition net16 (a : IP) (n : Z) : IPNet := mkIPNet (mask_bytes a (CIDRMask 16 n)) (CIDRMask 16 n).

Lemma net16_high a n :
  is_ip a → 96 ≤ n →
  mask_bytes a (CIDRMask 16 n) = take 12 a ++ mask_bytes (drop 12 a) (CIDRMask 4 (n - 96)) ∧
  drop 12 (CIDRMask 16 n) = CIDRMask 4 (n - 96).
Proof.
  intros [Hl Hf] Hn. change 16%nat with (12 + 4)%nat. rewrite (CIDRMask_split 12 4) by lia.
  change (8 * Z.of_nat 12) with 96. split; [|done].
  assert (Ht : length (take 12 a) = 12%nat) by (rewrite length_take; lia).
  rewrite <- (take_drop 12 a) at 1. rewrite mask_bytes_app by (rewrite Ht; done).
  rewrite mask_bytes_ones by (by apply Forall_take || done). done.
Qed.

Lemma contains_net16 a n ip :
  is_ip a → is_ip ip → 0 ≤ n ≤ 128 →
  IPNet_Contains (net16 a n) ip = true ↔ agree n a ip ∧ (is_v4 ip = true → 96 ≤ n).
Proof.
  intros Ha Hip Hn. set (net := mask_bytes a (CIDRMask 16 n)).
  assert (Hl : length net = 16%nat)
    by (unfold net; rewrite mask_bytes_length, CIDRMask_length, (proj1 Ha); done).
  destruct (is_v4 net) eqn:E4.
  - assert (H95 : 96 ≤ n).
    { apply bool_decide_eq_true in E4. pose proof (ip_bit_take net 95 12 ltac:(lia)) as Hb.
      rewrite E4 in Hb. unfold net in Hb. rewrite ip_bit_land in Hb by (rewrite CIDRMask_length; apply Ha).
      rewrite ip_bit_mask in Hb by lia. destruct (Z.ltb_spec (Z.of_nat 95) n); [lia|].
      rewrite andb_false_r in Hb. done. }
    destruct (net16_high a n Ha H95) as [Hm Hd].
    assert (Ht : take 12 net = take 12 a).
    { unfold net. rewrite Hm, take_app_length'; [done|]. rewrite length_take, (proj1 Ha). lia. }
    transitivity (IPNet_Contains (mkIPNet (mask_bytes (drop 12 a) (CIDRMask 4 (n - 96)))
                                    (CIDRMask 4 (n - 96))) ip = true).
    + unfold IPNet_Contains, networkNumberAndMask, net16. cbn [net_IP net_Mask]. fold net.
      rewrite (To4_16 net Hl), E4, CIDRMask_length, CIDRMask_length, Hd.
      assert (Hdrop : drop 12 net = mask_bytes (drop 12 a) (CIDRMask 4 (n - 96))).
      { unfold net. rewrite Hm, drop_app_length'; [done|]. rewrite length_take, (proj1 Ha). lia. }
      assert (Hx : length (mask_bytes (drop 12 a) (CIDRMask 4 (n - 96))) = 4%nat)
        by (rewrite mask_bytes_length, CIDRMask_length, is_ip_drop by done; done).
      assert (H4 : ∀ x : IP, length x = 4%nat → To4 x = Some x) by (intros x Hxl; unfold To4; by rewrite Hxl).
      rewrite Hdrop, (H4 _ Hx). cbn [Nat.eqb]. rewrite Hx. cbn [Nat.eqb]. by rewrite Hx.
    + rewrite contains_v4 by (done || lia || by apply is_ip_drop). rewrite (agree_split a ip n) by done.
      unfold is_v4 in *. apply bool_decide_eq_true in E4. rewrite bool_decide_eq_true, <- Ht, E4.
      split; [intros [H1 H2]; by repeat split|intros [[H1 H2] _]; by split].
  - unfold IPNet_Contains, networkNumberAndMask, net16. cbn [net_IP net_Mask]. fold net.
    rewrite (To4_16 net Hl), E4, Hl, CIDRMask_length. cbn [Nat.eqb]. rewrite Hl. cbn [Nat.eqb].
    rewrite (To4_16 ip (proj1 Hip)). destruct (is_v4 ip) eqn:Eip; cbn [from_option id].
    + rewrite is_ip_drop by done. split; [done|]. intros [Hag H96]. specialize (H96 eq_refl).
      apply agree_split in Hag as [Ht _]; [|done..]. exfalso.
      destruct (net16_high a n Ha H96) as [Hm _]. apply bool_decide_eq_false in E4.
      apply bool_decide_eq_true in Eip. apply E4. unfold net. rewrite Hm, take_app_length'; [congruence|].
      rewrite length_take, (proj1 Ha). lia.
    + rewrite (proj1 Hip), andb_true_iff, !bool_decide_eq_true. unfold net.
      rewrite mask_bytes_idem, mask_agree by (apply Ha || apply Hip || lia).
      rewrite Z.min_l by lia. split; [intros [_ H]; by split|intros [H _]; by split].
Qed.
