(* ===== verification/NetURL.v ===== *)
(** * URLs ([net/url])

    [url.Parse], [URL.String], and the query of a request, as Go 1.25.0 (the
    version that [go.mod] names) has them. *)

From Stdlib Require Import ZArith Lia Ascii.
From S2P Require Import Prelude GoStrings NetIP.

Local Open Scope Z_scope.

(** ** Escaping *)

(** The modes that the code reaches. *)
Inductive encoding := encodePath | encodeUserPassword | encodeHost | encodeZone | encodeQueryComponent | encodeFragment.

#[export] Instance encoding_eq_dec : EqDecision encoding.
Proof. solve_decision. Defined.

Definition alphanumeric (c : ascii) : bool :=
  let n := byte_of c in
  (97 <=? n) && (n <=? 122) || (65 <=? n) && (n <=? 90) || (48 <=? n) && (n <=? 57).

Definition one_of (l : list ascii) (c : ascii) : bool := bool_decide (c ∈ l).

Definition shouldEscape (c : ascii) (mode : encoding) : bool :=
  if alphanumeric c then false
  else if bool_decide (mode = encodeHost ∨ mode = encodeZone)
       && one_of ["!"; "$"; "&"; "'"; "("; ")"; "*"; "+"; ","; ";"; "="; ":"; "["; "]"; "<"; ">"; "034"]%char c then false
  else if one_of ["-"; "_"; "."; "~"]%char c then false
  else if one_of ["$"; "&"; "+"; ","; "/"; ":"; ";"; "="; "?"; "@"]%char c
          && bool_decide (mode ∈ [encodePath; encodeUserPassword; encodeQueryComponent; encodeFragment]) then
    match mode with
    | encodePath => one_of ["?"]%char c
    | encodeUserPassword => one_of ["@"; "/"; "?"; ":"]%char c
    | encodeFragment => false
    | _ => true
    end
  else if bool_decide (mode = encodeFragment) && one_of ["!"; "("; ")"; "*"]%char c then false
  else true.

(** The digits ["0123456789ABCDEF"]. *)
Definition upperhex (n : Z) : ascii := ascii_of_nat (Z.to_nat (if n <? 10 then 48 + n else 55 + n)).

Fixpoint escape (s : string) (mode : encoding) : string :=
  match s with
  | EmptyString => EmptyString
  | String c s' =>
      if shouldEscape c mode then
        if bool_decide (c = " "%char ∧ mode = encodeQueryComponent) then String "+" (escape s' mode)
        else String "%" (String (upperhex (byte_of c / 16)) (String (upperhex (byte_of c mod 16)) (escape s' mode)))
      else String c (escape s' mode)
  end.

(** What [unescape] demands of an escape of the byte [v]. *)
Definition escape_allowed (mode : encoding) (v : Z) : bool :=
  match mode with
  | encodeHost => (128 <=? v) || (v =? 37)
  | encodeZone => (v =? 37) || (v =? 32) || negb (shouldEscape (ascii_of_nat (Z.to_nat v)) encodeHost)
  | _ => true
  end.

(** [None] is an [EscapeError] or an [InvalidHostError]. *)
Fixpoint unescape (s : string) (mode : encoding) : option string :=
  match s with
  | EmptyString => Some EmptyString
  | String "%" s1 =>
      match s1 with
      | String a (String b s2) =>
          x ← hex_digit a; y ← hex_digit b;
          if escape_allowed mode (16 * x + y)
          then String (ascii_of_nat (Z.to_nat (16 * x + y))) <$> unescape s2 mode else None
      | _ => None
      end
  | String c s1 =>
      if bool_decide (c = "+"%char ∧ mode = encodeQueryComponent) then String " " <$> unescape s1 mode
      else if bool_decide (mode = encodeHost ∨ mode = encodeZone) && (byte_of c <? 128) && shouldEscape c mode then None
      else String c <$> unescape s1 mode
  end.

Definition validEncoded (s : string) (mode : encoding) : bool :=
  forallb (λ c, one_of ["!"; "$"; "&"; "'"; "("; ")"; "*"; "+"; ","; ";"; "="; ":"; "@"; "["; "]"; "%"]%char c
                || negb (shouldEscape c mode)) (String.list_ascii_of_string s).

(** ** The parts of a URL *)
Record URL := mkURL {
  url_Scheme : string;
  url_Opaque : string;
  url_User : option (string * option string);
  url_Host : string;
  url_Path : string;
  url_RawPath : string;
  url_OmitHost : bool;
  url_ForceQuery : bool;
  url_RawQuery : string;
  url_Fragment : string;
  url_RawFragment : string
}.

(** The part of a string before its last [c], and the part after it. *)
Fixpoint cut_last (s : string) (c : ascii) : option (string * string) :=
  match s with
  | EmptyString => None
  | String d s' =>
      match cut_last s' c with
      | Some (a, b) => Some (String d a, b)
      | None => if decide (d = c) then Some (EmptyString, s') else None
      end
  end.

(** [getScheme] from the byte at [i > 0] on: the scheme and the rest when a
    colon ends it, [None] when there is no scheme. *)
Fixpoint scheme_loop (s : string) : option (string * string) :=
  match s with
  | EmptyString => None
  | String c s' =>
      if bool_decide (c = ":"%char) then Some (EmptyString, s')
      else if alphanumeric c || one_of ["+"; "-"; "."]%char c then
        '(a, b) ← scheme_loop s'; Some (String c a, b)
      else None
  end.

Definition letter (c : ascii) : bool := alphanumeric c && match dec_digit c with Some _ => false | None => true end.

(** [getScheme]; the outer [None] is its error. *)
Definition getScheme (rawURL : string) : option (string * string) :=
  match rawURL with
  | String ":" _ => None
  | String c _ => Some (if letter c then default ("", rawURL) (scheme_loop rawURL) else ("", rawURL))
  | EmptyString => Some ("", rawURL)
  end.

Definition validOptionalPort (port : string) : bool :=
  match port with
  | EmptyString => true
  | String ":" rest => forallb (λ c, match dec_digit c with Some _ => true | None => false end) (String.list_ascii_of_string rest)
  | _ => false
  end.

Definition validUserinfo (s : string) : bool :=
  forallb (λ c, alphanumeric c
                || one_of ["-"; "."; "_"; ":"; "~"; "!"; "$"; "&"; "'"; "("; ")"; "*"; "+"; ","; ";"; "="; "%"; "@"]%char c)
    (String.list_ascii_of_string s).

(** The position of the first ["%25"], as what comes before it and the rest. *)
Fixpoint cut_zone (s : string) : option (string * string) :=
  if has_prefix s "%25" then Some (EmptyString, s)
  else match s with
       | EmptyString => None
       | String c s' => '(a, b) ← cut_zone s'; Some (String c a, b)
       end.

Definition parseHost (host : string) : option string :=
  if has_prefix host "[" then
    match cut_last host "]"%char with
    | None => None
    | Some (before, after) =>
        if negb (validOptionalPort after) then None
        else
          match cut_zone before with
          | Some (h1, zone) =>
              host1 ← unescape h1 encodeHost; host2 ← unescape zone encodeZone;
              host3 ← unescape (String "]" after) encodeHost; Some (host1 +:+ host2 +:+ host3)
          | None => unescape host encodeHost
          end
    end
  else
    match cut_last host ":"%char with
    | Some (_, port) => if validOptionalPort (String ":" port) then unescape host encodeHost else None
    | None => unescape host encodeHost
    end.

Definition parseAuthority (authority : string) : option (option (string * option string) * string) :=
  match cut_last authority "@"%char with
  | None => host ← parseHost authority; Some (None, host)
  | Some (userinfo, h) =>
      host ← parseHost h;
      if negb (validUserinfo userinfo) then None
      else
        match cut userinfo ":"%char with
        | None => u ← unescape userinfo encodeUserPassword; Some (Some (u, None), host)
        | Some (username, password) =>
            u ← unescape username encodeUserPassword; p ← unescape password encodeUserPassword;
            Some (Some (u, Some p), host)
        end
  end.

(** [setPath] and [setFragment]: the value and its raw form, which is kept when
    it is not the default one. *)
Definition set_escaped (p : string) (mode : encoding) : option (string * string) :=
  path ← unescape p mode; Some (path, if bool_decide (p = escape path mode) then "" else p).

Definition has_ctl (s : string) : bool :=
  existsb (λ c, (byte_of c <? 32) || (byte_of c =? 127)) (String.list_ascii_of_string s).

(** The text up to the first [c], and whether there is one. *)
Definition before (s : string) (c : ascii) : string := default s (fst <$> cut s c).
Definition after (s : string) (c : ascii) : string := default "" (snd <$> cut s c).

Definition count_char (s : string) (c : ascii) : nat := length (filter (c =.) (String.list_ascii_of_string s)).

(** [parse] with [viaRequest] false. *)
Definition parse_url (rawURL : string) : option URL :=
  if has_ctl rawURL then None
  else if bool_decide (rawURL = "*") then Some (mkURL "" "" None "" "*" "" false false "" "" "")
  else
    '(scheme, rest) ← getScheme rawURL;
    let scheme := to_lower scheme in
    let force := has_suffix rest "?" && (count_char rest "?" =? 1)%nat in
    let query := if force then "" else after rest "?" in
    let rest := before rest "?" in
    if negb (has_prefix rest "/") && negb (bool_decide (scheme = ""))
    then Some (mkURL scheme rest None "" "" "" false force query "" "")
    else if negb (has_prefix rest "/") && contains (before rest "/") ":" then None
    else
      if (negb (bool_decide (scheme = "")) || negb (has_prefix rest "///")) && has_prefix rest "//" then
        let authority := string_drop 2 rest in
        let path := match cut authority "/"%char with Some (_, p) => String "/" p | None => "" end in
        '(user, host) ← parseAuthority (before authority "/");
        '(path, raw) ← set_escaped path encodePath;
        Some (mkURL scheme "" user host path raw false force query "" "")
      else
        '(path, raw) ← set_escaped rest encodePath;
        Some (mkURL scheme "" None "" path raw (negb (bool_decide (scheme = "")) && has_prefix rest "/")
                force query "" "").

Definition with_fragment (u : URL) (f raw : string) : URL :=
  mkURL (url_Scheme u) (url_Opaque u) (url_User u) (url_Host u) (url_Path u) (url_RawPath u)
    (url_OmitHost u) (url_ForceQuery u) (url_RawQuery u) f raw.

(** [url.Parse]; [None] is an error. *)
Definition url_Parse (rawURL : string) : option URL :=
  u ← parse_url (before rawURL "#");
  if bool_decide (after rawURL "#" = "") then Some u
  else '(f, raw) ← set_escaped (after rawURL "#") encodeFragment; Some (with_fragment u f raw).

(** ** Printing *)

(** Whether the raw form is still one of the value. *)
Definition raw_valid (value raw : string) (mode : encoding) : bool :=
  negb (bool_decide (raw = "")) && validEncoded raw mode && bool_decide (unescape raw mode = Some value).

Definition EscapedPath (u : URL) : string :=
  if raw_valid (url_Path u) (url_RawPath u) encodePath then url_RawPath u
  else if bool_decide (url_Path u = "*") then "*" else escape (url_Path u) encodePath.

Definition EscapedFragment (u : URL) : string :=
  if raw_valid (url_Fragment u) (url_RawFragment u) encodeFragment then url_RawFragment u
  else escape (url_Fragment u) encodeFragment.

Definition userinfo_String (ui : string * option string) : string :=
  escape ui.1 encodeUserPassword
  +:+ match ui.2 with Some p => ":" +:+ escape p encodeUserPassword | None => "" end.

(** The scheme with its colon, and the part between it and the path. *)
Definition print_authority (u : URL) : string :=
  if bool_decide (url_Scheme u = "" ∧ url_Host u = "" ∧ url_User u = None) then ""
  else if url_OmitHost u && bool_decide (url_Host u = "" ∧ url_User u = None) then ""
  else
    (if bool_decide (url_Host u = "" ∧ url_Path u = "" ∧ url_User u = None) then "" else "//")
    +:+ match url_User u with Some ui => userinfo_String ui +:+ "@" | None => "" end
    +:+ escape (url_Host u) encodeHost.

Definition print_path (u : URL) (buf : string) : string :=
  let path := EscapedPath u in
  let buf := if negb (bool_decide (path = "")) && negb (has_prefix path "/") && negb (bool_decide (url_Host u = ""))
             then buf +:+ "/" else buf in
  let buf := if bool_decide (buf = "") && contains (before path "/") ":" then "./" else buf in
  buf +:+ path.

Definition print_tail (u : URL) : string :=
  (if url_ForceQuery u || negb (bool_decide (url_RawQuery u = "")) then "?" +:+ url_RawQuery u else "")
  +:+ (if bool_decide (url_Fragment u = "") then "" else "#" +:+ EscapedFragment u).

(** [URL.String] *)
Definition url_String (u : URL) : string :=
  let scheme := if bool_decide (url_Scheme u = "") then "" else url_Scheme u +:+ ":" in
  (if bool_decide (url_Opaque u = "") then print_path u (scheme +:+ print_authority u) else scheme +:+ url_Opaque u)
  +:+ print_tail u.

(** Whether [http.NewRequestWithContext] succeeds: the methods and the contexts
    of the program are valid ones, so only the URL can be refused. *)
Definition NewRequest (target : string) : bool := match url_Parse target with Some _ => true | None => false end.

(** ** Query strings ([URL.Query] of [net/url]) *)
Definition query_unescape (s : string) : option string := unescape s encodeQueryComponent.

(** One setting of [ParseQuery]; settings with a semicolon or a bad escape are
    dropped, since [URL.Query] ignores the error. *)
Definition query_setting (piece : string) : option (string * string) :=
  if contains piece ";" || bool_decide (piece = "") then None
  else
    let '(key, value) := default (piece, "") (cut piece "="%char) in
    k ← query_unescape key; v ← query_unescape value; Some (k, v).

Definition query_settings (query : string) : list (string * string) := omap query_setting (split query "&"%char).

(** [r.URL.Query().Get(key)]: the first value. *)
Definition query_Get (query key : string) : string :=
  match list_find (λ kv, kv.1 = key) (query_settings query) with
  | Some (_, (_, v)) => v
  | None => ""
  end.

Example query_examples :
  (query_Get "period=day&client=key%3A0f&period=month" "period", query_Get "client=key%3A0f" "client",
   query_Get "a=1;b=2&c=%zz&d+e=f+g" "d e", query_Get "c=%zz" "c", query_Get "" "period")
  = ("day", "key:0f", "f g", "", "").
Proof. vm_compute. reflexivity. Qed.

(** ** Examples *)

Example parses :
  (λ u, (url_Scheme u, url_Opaque u, url_User u, url_Host u, url_Path u, url_RawPath u, url_RawQuery u, url_Fragment u)) <$>
  omap url_Parse ["https://api.openai.com/v1"; "HTTP://user:p%40ss@[::1]:8080/a%2Fb?x=1#frag"; "mailto:a@b"; "/v1/x:y"; "http://h"]
  = [("https", "", None, "api.openai.com", "/v1", "", "", "");
     ("http", "", Some ("user", Some "p@ss"), "[::1]:8080", "/a/b", "/a%2Fb", "x=1", "frag");
     ("mailto", "a@b", None, "", "", "", "", ""); ("", "", None, "", "/v1/x:y", "", "", ""); ("http", "", None, "h", "", "", "", "")].
Proof. vm_compute. reflexivity. Qed.

Example rejects : url_Parse <$> [":x"; "a:b:c/d"; "1:x"; "http://h:port/"; "http://a b/"; "http://%41/"; "http://h/%zz"; "http://[::1"]
  = [None; Some (mkURL "a" "b:c/d" None "" "" "" false false "" "" ""); None; None; None; None; None; None].
Proof. vm_compute. reflexivity. Qed.

Example prints : option_map url_String <$> (url_Parse <$> ["https://api.openai.com/v1"; "HTTP://user:p%40ss@[::1]:8080/a%2Fb?x=1#frag"; "mailto:a@b"; "http://h?"; "//h/x"; "http:/x"; "http:///x"])
 = [Some "https://api.openai.com/v1"; Some "http://user:p%40ss@[::1]:8080/a%2Fb?x=1#frag"; Some "mailto:a@b"; Some "http://h?"; Some "//h/x"; Some "http:/x"; Some "http:///x"].
Proof. vm_compute. reflexivity. Qed.
