(* ===== verification/NetURLSpec.v ===== *)
(** * Printing a URL and parsing it again

    [url.Parse] undoes [URL.String] on the URLs that the gateway prints: the
    parts are escaped so that no delimiter of one part occurs inside another. *)

From Stdlib Require Import ZArith Lia Ascii.
From S2P Require Import Prelude GoStrings NetIP NetPrefix NetURL.

Local Open Scope Z_scope.

(** ** Properties of all bytes and of all bytes of a string *)

(** A boolean property of bytes is decided by evaluating it 256 times. *)
Lemma all_bytes (P : ascii → bool) : forallb (P ∘ ascii_of_nat) (seq 0 256) = true → ∀ c, P c = true.
Proof.
  intros H c. rewrite forallb_forall in H. rewrite <- (ascii_nat_embedding c). apply H.
  apply in_seq. pose proof (nat_ascii_bounded c). lia.
Qed.

Fixpoint every (P : ascii → bool) (s : string) : bool :=
  match s with EmptyString => true | String c s' => P c && every P s' end.

Lemma every_app P a b : every P (a +:+ b) = every P a && every P b.
Proof. induction a as [|c a IH]; [done|]. rewrite string_app_cons. cbn [every]. by rewrite IH, andb_assoc. Qed.

Lemma every_impl (P Q : ascii → bool) s : (∀ c, P c = true → Q c = true) → every P s = true → every Q s = true.
Proof. intros H. induction s as [|c s IH]; [done|]. cbn [every]. rewrite !andb_true_iff. naive_solver. Qed.

Lemma every_forallb P s : forallb P (String.list_ascii_of_string s) = every P s.
Proof. induction s as [|c s IH]; [done|]. cbn. by rewrite IH. Qed.

Definition other_than (c d : ascii) : bool := negb (bool_decide (d = c)).

Lemma every_other c s : every (other_than c) s = negb (contains s (String c "")).
Proof.
  induction s as [|d s IH]; [done|]. cbn [every contains]. rewrite IH, negb_orb. f_equal. unfold other_than, has_prefix.
  simpl. destruct (ascii_dec c d) as [->|H]; [rewrite bool_decide_eq_true_2 by done; by destruct s|].
  by rewrite bool_decide_eq_false_2.
Qed.

(** The bytes of an escaped string. *)
Definition escaped_byte (mode : encoding) (c : ascii) : bool :=
  negb (shouldEscape c mode) || bool_decide (c = "%"%char) || match hex_digit c with Some _ => true | None => false end.

Lemma upperhex_hex c :
  bool_decide (hex_digit (upperhex (byte_of c / 16)) = Some (byte_of c / 16)
    ∧ hex_digit (upperhex (byte_of c mod 16)) = Some (byte_of c mod 16)
    ∧ ascii_of_nat (Z.to_nat (16 * (byte_of c / 16) + byte_of c mod 16)) = c
    ∧ 16 * (byte_of c / 16) + byte_of c mod 16 = byte_of c) = true.
Proof. revert c. apply all_bytes. vm_compute. reflexivity. Qed.

Lemma upperhex_spec c :
  hex_digit (upperhex (byte_of c / 16)) = Some (byte_of c / 16)
  ∧ hex_digit (upperhex (byte_of c mod 16)) = Some (byte_of c mod 16)
  ∧ ascii_of_nat (Z.to_nat (16 * (byte_of c / 16) + byte_of c mod 16)) = c
  ∧ 16 * (byte_of c / 16) + byte_of c mod 16 = byte_of c.
Proof. pose proof (upperhex_hex c) as H. by apply bool_decide_eq_true in H. Qed.

Lemma escape_cons c s mode :
  mode ≠ encodeQueryComponent →
  escape (String c s) mode =
    if shouldEscape c mode
    then String "%" (String (upperhex (byte_of c / 16)) (String (upperhex (byte_of c mod 16)) (escape s mode)))
    else String c (escape s mode).
Proof. intros Hm. cbn [escape]. by rewrite (bool_decide_eq_false_2 (c = _ ∧ _)) by naive_solver. Qed.

Lemma escape_every s mode : mode ≠ encodeQueryComponent → every (escaped_byte mode) (escape s mode) = true.
Proof.
  intros Hm. induction s as [|c s IH]; [done|]. rewrite escape_cons by done. unfold escaped_byte in *.
  destruct (shouldEscape c mode) eqn:E; cbn [every].
  - destruct (upperhex_spec c) as (-> & -> & _). rewrite IH, !orb_true_r. done.
  - by rewrite E, IH.
Qed.

(** What a mode keeps out of the escaped text. *)
Lemma escape_avoids s mode c :
  mode ≠ encodeQueryComponent → escaped_byte mode c = false → every (other_than c) (escape s mode) = true.
Proof.
  intros Hm Hc. eapply every_impl; [|by apply escape_every]. intros d Hd. unfold other_than.
  case_bool_decide; [congruence|done].
Qed.

Lemma escape_app a b mode : escape (a +:+ b) mode = escape a mode +:+ escape b mode.
Proof.
  induction a as [|c a IH]; [done|]. rewrite string_app_cons. cbn [escape]. rewrite IH.
  destruct (shouldEscape c mode); [destruct (bool_decide _)|]; by rewrite ?string_app_cons.
Qed.

(** ** Unescaping *)

Lemma unescape_plain c s mode :
  c ≠ "%"%char →
  unescape (String c s) mode =
    (if bool_decide (c = "+"%char ∧ mode = encodeQueryComponent) then String " " <$> unescape s mode
     else if bool_decide (mode = encodeHost ∨ mode = encodeZone) && (byte_of c <? 128) && shouldEscape c mode then None
     else String c <$> unescape s mode).
Proof. by destruct c as [[][][][][][][][]]. Qed.

Lemma shouldEscape_percent mode : shouldEscape "%" mode = true.
Proof. by destruct mode. Qed.

Lemma unescape_percent c s mode :
  escape_allowed mode (byte_of c) = true →
  unescape (String "%" (String (upperhex (byte_of c / 16)) (String (upperhex (byte_of c mod 16)) s))) mode
    = String c <$> unescape s mode.
Proof.
  intros Ha. cbn [unescape]. destruct (upperhex_spec c) as (-> & -> & Hc & Hv). cbn [mbind option_bind].
  by rewrite Hc, Hv, Ha.
Qed.

(** Escaping is undone, in the modes in which every byte may be escaped. *)
Lemma unescape_escape s mode :
  mode = encodePath ∨ mode = encodeUserPassword ∨ mode = encodeFragment → unescape (escape s mode) mode = Some s.
Proof.
  intros Hm. induction s as [|c s IH]; [done|]. rewrite escape_cons by naive_solver.
  destruct (shouldEscape c mode) eqn:E.
  - rewrite unescape_percent, IH by (by destruct Hm as [->|[->| ->]]). done.
  - rewrite unescape_plain by (intros ->; by rewrite shouldEscape_percent in E).
    rewrite (bool_decide_eq_false_2 (c = _ ∧ _)) by naive_solver.
    rewrite (bool_decide_eq_false_2 (mode = _ ∨ _)) by naive_solver. by rewrite IH.
Qed.

(** ** Cutting at the last delimiter *)

Lemma cut_last_None s c : every (other_than c) s = true → cut_last s c = None.
Proof.
  induction s as [|d s IH]; [done|]. cbn [every cut_last]. intros [Hd Hs]%andb_true_iff. rewrite IH by done.
  unfold other_than in Hd. rewrite decide_False; [done|]. by intros ->; rewrite bool_decide_eq_true_2 in Hd.
Qed.

Lemma cut_last_app a c b : every (other_than c) b = true → cut_last (a +:+ String c b) c = Some (a, b).
Proof.
  intros Hb. induction a as [|d a IH]; rewrite ?string_app_nil_l, ?string_app_cons; cbn [cut_last].
  - by rewrite cut_last_None, decide_True.
  - by rewrite IH.
Qed.

Lemma cut_last_spec s c a b : cut_last s c = Some (a, b) → s = a +:+ String c b.
Proof.
  revert a b. induction s as [|d s IH]; intros a b; [done|]. cbn [cut_last].
  destruct (cut_last s c) as [[a' b']|].
  - intros [= <- <-]. rewrite string_app_cons. f_equal. by apply IH.
  - case_decide; [|done]. intros [= <- <-]. by subst.
Qed.

(** ** Hosts *)

(** A host byte is either printed as it is, or escaped because it is no ASCII
    byte, or the escape character itself. *)
Definition host_byte (c : ascii) : bool := negb (shouldEscape c encodeHost) || escape_allowed encodeHost (byte_of c).

Lemma unescape_host_inv c s H :
  unescape (String c s) encodeHost = Some H →
  (c ≠ "%"%char ∧ host_byte c = true ∧ ∃ H', unescape s encodeHost = Some H' ∧ H = String c H')
  ∨ (∃ a b s' v H', c = "%"%char ∧ s = String a (String b s') ∧ unescape s' encodeHost = Some H' ∧ H = String v H'
       ∧ is_Some (hex_digit a) ∧ is_Some (hex_digit b) ∧ escape_allowed encodeHost (byte_of v) = true).
Proof.
  destruct (decide (c = "%"%char)) as [->|Hc].
  - destruct s as [|a [|b s']]; [done|done|]. cbn [unescape].
    destruct (hex_digit a) as [x|] eqn:Ea; [|done]. destruct (hex_digit b) as [y|] eqn:Eb; [|done]. cbn [mbind option_bind].
    destruct (escape_allowed _ _) eqn:Ev; [|done]. destruct (unescape s' encodeHost) as [H'|] eqn:Es; [|done].
    intros [= <-]. right. eexists a, b, s', _, H'. split_and!; eauto.
    pose proof (hex_digit_range _ _ Ea). pose proof (hex_digit_range _ _ Eb).
    unfold byte_of. rewrite nat_ascii_embedding by lia. by rewrite Z2Nat.id by lia.
  - rewrite unescape_plain by done. rewrite (bool_decide_eq_false_2 (c = _ ∧ _)) by (by intros [_ ?]).
    rewrite bool_decide_eq_true_2 by auto. destruct (_ && shouldEscape c encodeHost) eqn:E; [done|].
    destruct (unescape s encodeHost) as [H'|]; [|done]. intros [= <-]. left. split_and!; [done| |by eexists].
    unfold host_byte, escape_allowed. destruct (shouldEscape c encodeHost); [|done]. rewrite andb_true_r in E. cbn in E |- *.
    apply Z.ltb_ge in E. apply orb_true_iff. left. by apply Z.leb_le.
Qed.

(** The delimiters of a host are neither escaped nor the result of an escape. *)
Definition host_delimiter (c : ascii) : bool :=
  negb (shouldEscape c encodeHost) && negb (escape_allowed encodeHost (byte_of c))
  && match hex_digit c with Some _ => false | None => true end && negb (bool_decide (c = "%"%char)).

Lemma host_delimiter_spec c :
  host_delimiter c = true →
  shouldEscape c encodeHost = false ∧ escape_allowed encodeHost (byte_of c) = false ∧ hex_digit c = None ∧ c ≠ "%"%char.
Proof.
  unfold host_delimiter. destruct (hex_digit c); rewrite !andb_true_iff, !negb_true_iff; [naive_solver|].
  intros [[[? ?] ?] ?]. bool_to_prop. done.
Qed.

(** Cutting and unescaping commute. *)
Lemma cut_last_unescape raw H c :
  host_delimiter c = true → unescape raw encodeHost = Some H →
  match cut_last raw c with
  | None => cut_last H c = None
  | Some (_, b) => ∃ A B, cut_last H c = Some (A, B) ∧ unescape b encodeHost = Some B
  end.
Proof.
  intros (Hs & Ha & Hx & Hp)%host_delimiter_spec. revert H.
  induction raw as [[|d raw] IH] using (induction_ltof1 _ String.length); intros H.
  { by intros [= <-]. }
  intros [(Hd & Hhb & H' & HH' & ->)|(a & b & s' & v & H' & -> & -> & HH' & -> & [x Hxa] & [y Hyb] & Hv)]%unescape_host_inv.
  - specialize (IH raw ltac:(unfold ltof; simpl; lia) H' HH'). cbn [cut_last]. destruct (cut_last raw c) as [[e f]|].
    + destruct IH as (A & B & -> & HB). by exists (String d A), B.
    + rewrite IH. case_decide; [|done]. by eexists _, _.
  - specialize (IH s' ltac:(unfold ltof; simpl; lia) H' HH'). cbn [cut_last]. assert (a ≠ c ∧ b ≠ c ∧ v ≠ c) as (? & ? & ?) by (split_and!; congruence).
    destruct (cut_last s' c) as [[e f]|].
    + destruct IH as (A & B & -> & HB). by exists (String v A), B.
    + rewrite IH. rewrite !decide_False by done. done.
Qed.

Lemma cut_last_escape H c :
  host_delimiter c = true →
  cut_last (escape H encodeHost) c = (λ '(a, b), (escape a encodeHost, escape b encodeHost)) <$> cut_last H c.
Proof.
  intros (Hs & Ha & Hx & Hp)%host_delimiter_spec. induction H as [|d H IH]; [done|]. rewrite escape_cons by done.
  cbn [cut_last]. destruct (shouldEscape d encodeHost) eqn:E.
  - destruct (upperhex_spec d) as (Hh & Hl & _). cbn [cut_last]. rewrite IH.
    assert (d ≠ c ∧ upperhex (byte_of d / 16) ≠ c ∧ upperhex (byte_of d mod 16) ≠ c) as (? & ? & ?) by (split_and!; congruence).
    destruct (cut_last H c) as [[a b]|]; cbn [fmap option_fmap option_map].
    + rewrite !escape_cons, E by done. done.
    + rewrite !decide_False by done. done.
  - cbn [cut_last]. rewrite IH. destruct (cut_last H c) as [[a b]|]; cbn [fmap option_fmap option_map].
    + rewrite !escape_cons, E by done. done.
    + case_decide; done.
Qed.

Lemma unescape_host_bytes raw H : unescape raw encodeHost = Some H → every host_byte H = true.
Proof.
  revert H. induction raw as [[|d raw] IH] using (induction_ltof1 _ String.length); intros H; [by intros [= <-]|].
  intros [(_ & Hhb & H' & HH' & ->)|(a & b & s' & v & H' & -> & -> & HH' & -> & _ & _ & Hv)]%unescape_host_inv; cbn [every].
  - rewrite Hhb. apply (IH raw); [unfold ltof; simpl; lia|done].
  - unfold host_byte at 1. rewrite Hv, orb_true_r. apply (IH s'); [unfold ltof; simpl; lia|done].
Qed.

Lemma unescape_escape_host H : every host_byte H = true → unescape (escape H encodeHost) encodeHost = Some H.
Proof.
  induction H as [|c H IH]; [done|]. cbn [every]. intros [Hc HH]%andb_true_iff. specialize (IH HH).
  rewrite escape_cons by done. unfold host_byte in Hc. destruct (shouldEscape c encodeHost) eqn:E.
  - by rewrite unescape_percent, IH.
  - rewrite unescape_plain by (intros ->; by rewrite shouldEscape_percent in E).
    rewrite (bool_decide_eq_false_2 (c = _ ∧ _)) by naive_solver. by rewrite E, andb_false_r, IH.
Qed.

(** A port is printed and parsed as it is. *)
Lemma digits_plain s :
  every (λ c, match dec_digit c with Some _ => true | None => false end) s = true →
  unescape s encodeHost = Some s ∧ escape s encodeHost = s.
Proof.
  assert (Hd : ∀ c, negb (match dec_digit c with Some _ => true | None => false end)
                    || negb (shouldEscape c encodeHost) && negb (bool_decide (c = "%"%char)) = true).
  { apply all_bytes. vm_compute. reflexivity. }
  induction s as [|c s IH]; [done|]. cbn [every]. intros [Hc Hs]%andb_true_iff. destruct (IH Hs) as [IH1 IH2].
  specialize (Hd c). rewrite Hc in Hd. cbn [negb orb] in Hd. apply andb_true_iff in Hd as [H1 H2]. bool_to_prop.
  rewrite escape_cons, H1, IH2 by done. split; [|done]. rewrite unescape_plain by done.
  rewrite (bool_decide_eq_false_2 (c = _ ∧ _)) by (by intros [_ ?]). by rewrite H1, andb_false_r, IH1.
Qed.

Lemma port_plain s :
  validOptionalPort s = true → unescape s encodeHost = Some s ∧ escape s encodeHost = s.
Proof.
  destruct s as [|c s]; [done|]. intros H. assert (c = ":"%char) as ->.
  { destruct c as [[][][][][][][][]]; (reflexivity || discriminate H). }
  cbn [validOptionalPort] in H. rewrite every_forallb in H. destruct (digits_plain s H) as [H1 H2].
  rewrite escape_cons, H2 by done. split; [|done]. by rewrite unescape_plain, H1 by done.
Qed.

(** Without the escape character there is no zone. *)
Lemma cut_zone_escape s : every (other_than "%") s = true → cut_zone (escape s encodeHost) = None.
Proof.
  assert (Hstep : ∀ c t, has_prefix (String c t) "%25" = false →
    cut_zone (String c t) = '(a, b) ← cut_zone t; Some (String c a, b)).
  { intros c t Hc. cbn [cut_zone]. by rewrite Hc. }
  assert (Hplain : ∀ c t, c ≠ "%"%char → cut_zone (String c t) = '(a, b) ← cut_zone t; Some (String c a, b)).
  { intros c t Hc. apply Hstep, not_true_is_false. by intros [t' [= He _]]%has_prefix_spec. }
  induction s as [|c s IH]; [done|]. cbn [every]. intros [Hc Hs]%andb_true_iff. rewrite escape_cons by done.
  destruct (shouldEscape c encodeHost) eqn:E.
  - destruct (upperhex_spec c) as (H1 & H2 & _ & Hv).
    assert (upperhex (byte_of c / 16) ≠ "%"%char) by (intros He; by rewrite He in H1).
    assert (upperhex (byte_of c mod 16) ≠ "%"%char) by (intros He; by rewrite He in H2).
    rewrite Hstep; [by rewrite !Hplain, IH|]. apply not_true_is_false. intros [t Ht]%has_prefix_spec. injection Ht as Hh Hl _.
    rewrite Hh in H1. rewrite Hl in H2.
    change (hex_digit "2") with (Some 2) in H1. change (hex_digit "5") with (Some 5) in H2. injection H1 as H1. injection H2 as H2.
    assert (c = "%"%char) as ->; [|done]. rewrite <- (ascii_nat_embedding c). unfold byte_of in *.
    replace (nat_of_ascii c) with 37%nat by lia. done.
  - rewrite Hplain, IH by (done || intros ->; by rewrite shouldEscape_percent in E). done.
Qed.

Lemma has_prefix_head c d s : has_prefix (String c s) (String d "") = bool_decide (d = c).
Proof.
  unfold has_prefix. simpl. destruct (ascii_dec d c) as [->|H].
  - rewrite bool_decide_eq_true_2 by done. by destruct s.
  - by rewrite bool_decide_eq_false_2.
Qed.

Lemma has_prefix_bracket H : has_prefix (escape H encodeHost) "[" = has_prefix H "[".
Proof.
  destruct H as [|c H]; [done|]. rewrite escape_cons by done.
  destruct (shouldEscape c encodeHost) eqn:E; rewrite !has_prefix_head; [|done].
  rewrite (bool_decide_eq_false_2 (_ = c)); [done|]. by intros <-.
Qed.

Lemma unescape_bracket raw H : unescape raw encodeHost = Some H → has_prefix raw "[" = has_prefix H "[".
Proof.
  destruct raw as [|c raw]; [by intros [= <-]|].
  intros [(_ & _ & H' & _ & ->)|(a & b & s' & v & H' & -> & -> & _ & -> & _ & _ & Hv)]%unescape_host_inv;
    rewrite !has_prefix_head; [done|].
  rewrite (bool_decide_eq_false_2 (_ = v)); [done|]. by intros <-.
Qed.

Lemma cut_zone_prefix s a b : cut_zone s = Some (a, b) → ∃ t, b = "%25" +:+ t.
Proof.
  revert a. induction s as [|c s IH]; intros a; [done|]. cbn [cut_zone]. destruct (has_prefix (String c s) "%25") eqn:E.
  - intros [= _ <-]. by apply has_prefix_spec.
  - destruct (cut_zone s) as [[a' b']|]; [|done]. intros [= _ <-]. by eapply IH.
Qed.

Lemma zone_percent t : unescape ("%25" +:+ t) encodeZone = String "%" <$> unescape t encodeZone.
Proof. done. Qed.

(** A host without an IPv6 zone is printed and parsed as it is. *)
Theorem parseHost_escape raw H :
  parseHost raw = Some H → every (other_than "%") H = true → parseHost (escape H encodeHost) = Some H ∧ every host_byte H = true.
Proof.
  intros Hraw Hz.
  assert (Hun : unescape raw encodeHost = Some H
    ∧ if has_prefix raw "[" then ∃ a b, cut_last raw "]"%char = Some (a, b) ∧ validOptionalPort b = true
      else ∀ a b, cut_last raw ":"%char = Some (a, b) → validOptionalPort (String ":" b) = true).
  { unfold parseHost in Hraw. destruct (has_prefix raw "[").
    - destruct (cut_last raw "]") as [[a b]|] eqn:Ecut; [|done]. destruct (validOptionalPort b) eqn:Ep; [|done]. cbn [negb] in Hraw.
      destruct (cut_zone a) as [[h1 zone]|] eqn:Ez; [|split; [done|by eexists _, _]]. exfalso.
      destruct (cut_zone_prefix _ _ _ Ez) as [t ->]. rewrite zone_percent in Hraw.
      destruct (unescape h1 encodeHost) as [x|]; [|done]. destruct (unescape t encodeZone) as [y|]; [|done].
      destruct (unescape (String "]" b) encodeHost) as [z|]; [|done]. injection Hraw as <-.
      rewrite !every_app in Hz. cbn [every] in Hz. by rewrite andb_false_r in Hz.
    - destruct (cut_last raw ":") as [[a b]|]; [|done]. destruct (validOptionalPort _) eqn:Ep; [|done].
      split; [done|]. by intros ? ? [= <- <-]. }
  destruct Hun as [Hun Hport]. pose proof (unescape_host_bytes _ _ Hun) as Hb. split; [|done].
  pose proof (unescape_escape_host H Hb) as Hround.
  unfold parseHost. rewrite has_prefix_bracket, <- (unescape_bracket _ _ Hun). destruct (has_prefix raw "[").
  - destruct Hport as (a & b & Hcut & Hp). destruct (port_plain b Hp) as [Hpu Hpe].
    pose proof (cut_last_unescape raw H "]" eq_refl Hun) as Hc. rewrite Hcut in Hc. destruct Hc as (A & B & Hc & HB).
    rewrite Hpu in HB. injection HB as <-.
    rewrite cut_last_escape, Hc by done. cbn [fmap option_fmap option_map]. rewrite Hpe, Hp. cbn [negb].
    rewrite cut_zone_escape; [done|]. apply cut_last_spec in Hc as ->. rewrite every_app in Hz. by apply andb_true_iff in Hz as [Hz _].
  - pose proof (cut_last_unescape raw H ":" eq_refl Hun) as Hc. rewrite cut_last_escape by done.
    destruct (cut_last raw ":") as [[a b]|]; [|by rewrite Hc]. specialize (Hport a b eq_refl).
    destruct (port_plain _ Hport) as [Hpu Hpe]. destruct Hc as (A & B & -> & HB). cbn [fmap option_fmap option_map].
    assert (B = b) as ->. { rewrite unescape_plain, HB in Hpu by done. by injection Hpu. }
    rewrite escape_cons in Hpe by done. injection Hpe as Hpe. by rewrite Hpe, Hport.
Qed.

(** Whatever the host, an escaped host that is parsed at all is parsed into the
    host itself. *)
Lemma unescape_escaped_host mode H H' :
  mode = encodeHost ∨ mode = encodeZone → unescape (escape H encodeHost) mode = Some H' → H' = H.
Proof.
  intros Hm. revert H'. induction H as [|c H IH]; intros H'; [by intros [= <-]|]. rewrite escape_cons by done.
  destruct (shouldEscape c encodeHost) eqn:E.
  - destruct (escape_allowed mode (byte_of c)) eqn:Ea.
    + rewrite unescape_percent by done. destruct (unescape (escape H encodeHost) mode); [|done]. intros [= <-]. f_equal. by apply IH.
    + cbn [unescape]. destruct (upperhex_spec c) as (-> & -> & _ & Hv). cbn [mbind option_bind]. by rewrite Hv, Ea.
  - rewrite unescape_plain by (intros ->; by rewrite shouldEscape_percent in E).
    rewrite (bool_decide_eq_false_2 (c = _ ∧ _)) by naive_solver. destruct (_ && _); [done|].
    destruct (unescape (escape H encodeHost) mode); [|done]. intros [= <-]. f_equal. by apply IH.
Qed.

(** The first ["%25"] of an escaped host begins at one of its bytes. *)
Lemma cut_zone_escaped H h zone :
  cut_zone (escape H encodeHost) = Some (h, zone) → ∃ a b, H = a +:+ b ∧ h = escape a encodeHost ∧ zone = escape b encodeHost.
Proof.
  assert (Hstep : ∀ c t, c ≠ "%"%char → cut_zone (String c t) = '(a, b) ← cut_zone t; Some (String c a, b)).
  { intros c t Hc. cbn [cut_zone]. replace (has_prefix (String c t) "%25") with false; [done|].
    symmetry. apply not_true_is_false. by intros [t' [= He _]]%has_prefix_spec. }
  revert h. induction H as [|c H IH]; intros h; [done|]. rewrite escape_cons by done. destruct (shouldEscape c encodeHost) eqn:E.
  - destruct (upperhex_spec c) as (H1 & H2 & _).
    assert (upperhex (byte_of c / 16) ≠ "%"%char) by (intros He; by rewrite He in H1).
    assert (upperhex (byte_of c mod 16) ≠ "%"%char) by (intros He; by rewrite He in H2).
    destruct (has_prefix (String "%" (String (upperhex (byte_of c / 16)) (String (upperhex (byte_of c mod 16)) (escape H encodeHost)))) "%25") eqn:Ep.
    + cbn [cut_zone]. rewrite Ep. intros [= <- <-]. exists "", (String c H). split_and!; [done|done|].
      by rewrite escape_cons, E.
    + set (t := String (upperhex _) _) in *. cbn [cut_zone]. rewrite Ep. unfold t. rewrite !Hstep by done.
      destruct (cut_zone (escape H encodeHost)) as [[h' z']|]; [|done]. intros [= <- <-].
      destruct (IH h' eq_refl) as (a & b & -> & -> & ->). exists (String c a), b. rewrite escape_cons, E by done. done.
  - rewrite Hstep by (intros ->; by rewrite shouldEscape_percent in E).
    destruct (cut_zone (escape H encodeHost)) as [[h' z']|]; [|done]. intros [= <- <-].
    destruct (IH h' eq_refl) as (a & b & -> & -> & ->). exists (String c a), b. rewrite escape_cons, E by done. done.
Qed.

Lemma parseHost_escaped_inv H H' : parseHost (escape H encodeHost) = Some H' → H' = H.
Proof.
  unfold parseHost. destruct (has_prefix _ "[").
  - rewrite cut_last_escape by done. destruct (cut_last H "]") as [[a b]|] eqn:Ec; [|done]. cbn [fmap option_fmap option_map].
    destruct (negb _); [done|]. apply cut_last_spec in Ec as ->.
    destruct (cut_zone (escape a encodeHost)) as [[h zone]|] eqn:Ez; [|apply unescape_escaped_host; by left].
    destruct (cut_zone_escaped _ _ _ Ez) as (a1 & a2 & -> & -> & ->).
    destruct (unescape (escape a1 encodeHost) encodeHost) as [x|] eqn:Ex; [|done].
    destruct (unescape (escape a2 encodeHost) encodeZone) as [y|] eqn:Ey; [|done]. cbn [mbind option_bind].
    change (String "]" (escape b encodeHost)) with (escape (String "]" b) encodeHost).
    destruct (unescape (escape (String "]" b) encodeHost) encodeHost) as [z|] eqn:Ezz; [|done]. intros [= <-].
    apply unescape_escaped_host in Ex as ->; [|by left]. apply unescape_escaped_host in Ey as ->; [|by right].
    apply unescape_escaped_host in Ezz as ->; [|by left]. by rewrite <- string_app_assoc.
  - destruct (cut_last _ ":") as [[a b]|]; [destruct (validOptionalPort _); [|done]|]; apply unescape_escaped_host; by left.
Qed.

(** ** Authorities and schemes *)

(** The bytes of [userinfo_String]. *)
Lemma userinfo_bytes ui c :
  escaped_byte encodeUserPassword c = false → c ≠ ":"%char → every (other_than c) (userinfo_String ui) = true.
Proof.
  intros Hc Hcol. unfold userinfo_String. rewrite every_app, escape_avoids by done.
  destruct (ui.2) as [p|]; [|done]. change (":" +:+ ?x) with (String ":" x). cbn [every].
  rewrite escape_avoids by done. unfold other_than. by rewrite bool_decide_eq_false_2.
Qed.

Lemma userinfo_valid ui : validUserinfo (userinfo_String ui) = true.
Proof.
  unfold validUserinfo. rewrite every_forallb. set (P := λ c, alphanumeric c || _ c).
  assert (HP : ∀ c, escaped_byte encodeUserPassword c = true → P c = true).
  { intros c. rewrite <- implb_true_iff. revert c. apply all_bytes. vm_compute. reflexivity. }
  assert (He : ∀ s, every P (escape s encodeUserPassword) = true) by (intros s; eapply every_impl; [exact HP|by apply escape_every]).
  unfold userinfo_String. rewrite every_app, He. destruct (ui.2) as [p|]; [|done].
  change (":" +:+ ?x) with (String ":" x). cbn [every]. by rewrite He.
Qed.

Definition print_user (user : option (string * option string)) : string :=
  match user with Some ui => userinfo_String ui +:+ "@" | None => "" end.

Lemma parseAuthority_print user H :
  parseAuthority (print_user user +:+ escape H encodeHost) = host ← parseHost (escape H encodeHost); Some (user, host).
Proof.
  unfold parseAuthority. assert (Hat : every (other_than "@") (escape H encodeHost) = true) by by apply escape_avoids.
  destruct user as [ui|]; cbn [print_user].
  - rewrite <- string_app_assoc. change ("@" +:+ ?x) with (String "@" x). rewrite cut_last_app, userinfo_valid by done.
    destruct (parseHost _) as [host|]; [|done].
    cbn [mbind option_bind negb]. destruct ui as [name [pass|]]; unfold userinfo_String; cbn [fst snd].
    + change (":" +:+ ?x) with (String ":" x). rewrite cut_app.
      * rewrite !unescape_escape by auto. done.
      * apply negb_true_iff. rewrite <- every_other. by apply escape_avoids.
    + rewrite string_app_nil_r. replace (cut _ _) with (@None (string * string)).
      * by rewrite unescape_escape by auto.
      * symmetry. apply cut_None, negb_true_iff. rewrite <- every_other. by apply escape_avoids.
  - rewrite string_app_nil_l, cut_last_None by done. done.
Qed.

(** Schemes as [url.Parse] returns them. *)
Definition scheme_byte (c : ascii) : bool := alphanumeric c || one_of ["+"; "-"; "."]%char c.

Definition valid_scheme (s : string) : bool :=
  match s with EmptyString => false | String c t => letter c && every scheme_byte t && bool_decide (to_lower s = s) end.

Lemma scheme_loop_spec s a b : scheme_loop s = Some (a, b) → every scheme_byte a = true ∧ s = a +:+ String ":" b.
Proof.
  revert a. induction s as [|c s IH]; intros a; [done|]. cbn [scheme_loop].
  case_bool_decide as Hc; [intros [= <- <-]; by subst|]. fold (scheme_byte c). destruct (scheme_byte c) eqn:E; [|done].
  destruct (scheme_loop s) as [[a' b']|]; [|done]. intros [= <- <-]. destruct (IH a' eq_refl) as [Ha ->].
  cbn [every]. by rewrite E, Ha.
Qed.

Lemma scheme_loop_print a b : every scheme_byte a = true → scheme_loop (a +:+ String ":" b) = Some (a, b).
Proof.
  induction a as [|c a IH]; [done|]. cbn [every]. intros [Hc Ha]%andb_true_iff. rewrite string_app_cons. cbn [scheme_loop].
  rewrite bool_decide_eq_false_2 by (by intros ->). fold (scheme_byte c). by rewrite Hc, IH.
Qed.

Lemma getScheme_print s rest : valid_scheme s = true → getScheme (s +:+ ":" +:+ rest) = Some (s, rest).
Proof.
  destruct s as [|c t]; [done|]. cbn [valid_scheme]. intros [[Hc Ht]%andb_true_iff _]%andb_true_iff.
  change (":" +:+ rest) with (String ":" rest). rewrite string_app_cons. unfold getScheme.
  assert (Hs : scheme_loop (String c (t +:+ String ":" rest)) = Some (String c t, rest)).
  { rewrite <- string_app_cons. apply scheme_loop_print. cbn [every]. rewrite Ht. unfold letter in Hc.
    apply andb_true_iff in Hc as [Hc _]. unfold scheme_byte. by rewrite Hc. }
  rewrite Hc, Hs. destruct c as [[][][][][][][][]]; (discriminate Hc || reflexivity).
Qed.

Lemma getScheme_valid raw s rest :
  getScheme raw = Some (s, rest) → s ≠ "" → valid_scheme (to_lower s) = true.
Proof.
  destruct raw as [|c raw]; [by intros [= <- <-]|]. unfold getScheme.
  destruct (decide (c = ":"%char)) as [->|Hc]; [done|].
  intros Hs Hne. assert (letter c = true ∧ ∃ t, s = String c t ∧ every scheme_byte t = true) as (Hl & t & -> & Ht).
  { assert (Hlet : ∀ o, match c with ":"%char => None | _ => Some o end = Some (s, rest) → o = (s, rest)).
    { intros o Ho. destruct c as [[][][][][][][][]]; congruence. }
    apply Hlet in Hs. clear Hlet. destruct (letter c) eqn:El; [|congruence].
    destruct (scheme_loop (String c raw)) as [[a b]|] eqn:E; cbn [default] in Hs; [|congruence].
    injection Hs as -> ->. apply scheme_loop_spec in E as [He Heq]. destruct s as [|d t]; [done|].
    rewrite string_app_cons in Heq. injection Heq as <- _. cbn [every] in He. apply andb_true_iff in He as [_ He]. eauto. }
  cbn [to_lower valid_scheme]. rewrite lower_ascii_idem, to_lower_idem.
  rewrite bool_decide_eq_true_2, andb_true_r by done. apply andb_true_iff. split.
  - revert Hl. clear. rewrite <- implb_true_iff. revert c. apply all_bytes. vm_compute. reflexivity.
  - revert Ht. clear. induction t as [|c t IH]; [done|]. cbn [to_lower every]. intros [Hc Ht]%andb_true_iff.
    rewrite IH, andb_true_r by done. revert Hc. clear. rewrite <- implb_true_iff. revert c. apply all_bytes. vm_compute. reflexivity.
Qed.

(** ** Whole URLs *)

(** Bytes that may stand before a fragment. *)
Definition clean_byte (c : ascii) : bool := negb (has_ctl (String c "")) && other_than "#" c.

Lemma clean_ctl s : every clean_byte s = true → has_ctl s = false.
Proof.
  induction s as [|c s IH]; [done|]. cbn [every]. intros [Hc Hs]%andb_true_iff. unfold clean_byte, has_ctl in Hc.
  apply andb_true_iff in Hc as [Hc _]. apply negb_true_iff in Hc. cbn in Hc. rewrite orb_false_r in Hc.
  unfold has_ctl. cbn. rewrite Hc. by apply IH.
Qed.

Lemma escaped_clean mode c :
  mode ∈ [encodePath; encodeUserPassword; encodeHost] → escaped_byte mode c = true → clean_byte c = true.
Proof.
  intros Hm. rewrite <- implb_true_iff. revert c. apply all_bytes. revert mode Hm. apply Forall_forall.
  repeat constructor; vm_compute; reflexivity.
Qed.

Lemma escape_clean s mode :
  mode ∈ [encodePath; encodeUserPassword; encodeHost] → every clean_byte (escape s mode) = true.
Proof.
  intros Hm. eapply every_impl; [intros c; apply escaped_clean, Hm|]. apply escape_every. set_solver.
Qed.

Lemma scheme_clean s : valid_scheme s = true → every clean_byte s = true.
Proof.
  destruct s as [|c t]; [done|]. cbn [valid_scheme every]. intros [[Hc Ht]%andb_true_iff _]%andb_true_iff.
  apply andb_true_iff. split.
  - revert Hc. clear. rewrite <- implb_true_iff. revert c. apply all_bytes. vm_compute. reflexivity.
  - eapply every_impl; [|exact Ht]. clear. intros c. rewrite <- implb_true_iff. revert c. apply all_bytes. vm_compute. reflexivity.
Qed.

Lemma user_clean user : every clean_byte (print_user user) = true.
Proof.
  destruct user as [[n p]|]; [|done]. cbn [print_user]. unfold userinfo_String. cbn [fst snd]. rewrite !every_app.
  rewrite escape_clean by set_solver. destruct p as [p|]; [|done]. rewrite every_app, escape_clean by set_solver. done.
Qed.

(** The printed query: nothing, or a question mark and the query. *)
Definition query_text (text query : string) : Prop := text = "" ∧ query = "" ∨ text = "?" +:+ query.

Lemma count_char_app a b c : count_char (a +:+ b) c = (count_char a c + count_char b c)%nat.
Proof. unfold count_char. by rewrite list_of_app, filter_app, length_app. Qed.

Lemma count_char_cons c s : count_char (String c s) c = S (count_char s c).
Proof. unfold count_char. cbn [String.list_ascii_of_string]. by rewrite filter_cons_True. Qed.

Lemma split_query R text query :
  every (other_than "?") R = true → query_text text query →
  before (R +:+ text) "?" = R
  ∧ (if has_suffix (R +:+ text) "?" && (count_char (R +:+ text) "?" =? 1)%nat then "" else after (R +:+ text) "?") = query.
Proof.
  intros HR Hq. rewrite every_other in HR. apply negb_true_iff in HR. unfold before, after.
  destruct Hq as [[-> ->]| ->].
  - rewrite string_app_nil_r, (proj2 (cut_None _ _) HR). cbn. by destruct (_ && _).
  - change ("?" +:+ query) with (String "?" query). rewrite cut_app by done. cbn. split; [done|].
    destruct (has_suffix _ _) eqn:Es; [|done]. destruct (_ =? 1)%nat eqn:Ec; [|done]. cbn.
    apply Nat.eqb_eq in Ec. rewrite count_char_app, count_char_cons in Ec.
    apply has_suffix_spec in Es as [t Ht]. destruct (decide (query = "")) as [->|Hne]; [done|]. exfalso.
    apply (f_equal String.list_ascii_of_string) in Ht. rewrite !list_of_app in Ht. cbn [String.list_ascii_of_string] in Ht.
    unfold count_char in Ec. destruct query as [|d query]; [done|].
    destruct (exists_last (l := String.list_ascii_of_string (String d query))) as (l & e & Hl); [done|].
    rewrite Hl in Ht, Ec. rewrite app_comm_cons, app_assoc in Ht. apply app_inj_tail in Ht as [_ ->].
    rewrite !filter_app, !length_app, filter_cons_True in Ec by done. cbn in Ec. lia.
Qed.

(** The text of a URL with a scheme and an authority, up to its query. *)
Definition main_text (scheme : string) (user : option (string * option string)) (H path : string) : string :=
  scheme +:+ "://" +:+ print_user user +:+ escape H encodeHost +:+ "/" +:+ escape path encodePath.

Lemma main_text_clean scheme user H path :
  valid_scheme scheme = true → every clean_byte (main_text scheme user H path) = true.
Proof.
  intros Hs. unfold main_text. rewrite !every_app, scheme_clean, user_clean, !escape_clean by (done || set_solver). done.
Qed.

Lemma clean_no_hash s : every clean_byte s = true → contains s "#" = false.
Proof.
  intros H. apply negb_true_iff. rewrite <- every_other. eapply every_impl; [|exact H]. intros c. unfold clean_byte.
  by intros [_ ?]%andb_true_iff.
Qed.

Lemma contains_app_false a b c :
  contains a (String c "") = false → contains b (String c "") = false → contains (a +:+ b) (String c "") = false.
Proof. intros Ha Hb. apply negb_true_iff. by rewrite <- every_other, every_app, !every_other, Ha, Hb. Qed.

Lemma no_hash q : contains q "#" = false → contains ("?" +:+ q) "#" = false.
Proof. by apply contains_app_false. Qed.

(** What parsing makes of such a text and a query: the parts, unless there is a
    control byte or the host is refused. *)
Lemma parse_main scheme user H path text query :
  valid_scheme scheme = true → query_text text query →
  ∃ force, parse_url (main_text scheme user H path +:+ text)
    = if has_ctl (main_text scheme user H path +:+ text) then None
      else host ← parseHost (escape H encodeHost); Some (mkURL scheme "" user host ("/" +:+ path) "" false force query "" "").
Proof.
  intros Hs Hq. set (A := print_user user +:+ escape H encodeHost).
  set (E := escape path encodePath). set (R := "//" +:+ A +:+ "/" +:+ E).
  assert (HRq : every (other_than "?") R = true).
  { unfold R, A, E. rewrite !every_app, !escape_avoids by done. destruct user as [ui|]; [|done].
    cbn [print_user]. by rewrite every_app, userinfo_bytes. }
  assert (HA : contains A "/" = false).
  { apply negb_true_iff. rewrite <- every_other. unfold A. rewrite every_app, escape_avoids by done.
    destruct user as [ui|]; [|done]. cbn [print_user]. by rewrite every_app, userinfo_bytes. }
  assert (Hmain : main_text scheme user H path +:+ text = scheme +:+ ":" +:+ R +:+ text)
    by (unfold main_text, R, A, E; by rewrite <- !string_app_assoc).
  rewrite Hmain. unfold parse_url. destruct (has_ctl _); [by exists false|]. rewrite bool_decide_eq_false_2.
  2:{ destruct scheme as [|c t]; [done|]. rewrite string_app_cons. intros [= _ Ht]. by destruct t. }
  rewrite getScheme_print by done. cbn [mbind option_bind].
  assert (Hlow : to_lower scheme = scheme).
  { destruct scheme; [done|]. apply andb_true_iff in Hs as [_ Hs]. by bool_to_prop. }
  destruct (split_query R text query HRq Hq) as [Hb Hquery]. rewrite Hlow, Hb, Hquery.
  rewrite (bool_decide_eq_false_2 (scheme = "")) by (by intros ->).
  replace (has_prefix R "/") with true by (symmetry; apply has_prefix_spec; by eexists).
  replace (has_prefix R "//") with true by (symmetry; apply has_prefix_app). cbn [negb andb orb].
  change (string_drop 2 R) with (A +:+ String "/" E). unfold before. rewrite !cut_app by done.
  cbn [fmap option_fmap option_map default id fst]. unfold A. rewrite parseAuthority_print.
  unfold set_escaped. change (String "/" E) with (escape "/" encodePath +:+ E). unfold E. rewrite <- escape_app.
  rewrite unescape_escape by auto. cbn [mbind option_bind]. rewrite bool_decide_eq_true_2 by done. eexists.
  by destruct (parseHost _).
Qed.

(** A URL with a scheme and an authority, as [URL.String] prints it, is parsed
    into its parts again. *)
Theorem parse_print scheme user H path text query ftext fragment :
  valid_scheme scheme = true → parseHost (escape H encodeHost) = Some H →
  query_text text query → every clean_byte query = true →
  ftext = "" ∨ (∃ f, ftext = "#" +:+ f ∧ unescape f encodeFragment = Some fragment) →
  ∃ v, url_Parse (main_text scheme user H path +:+ text +:+ ftext) = Some v.
Proof.
  intros Hs HH Hq Hclean Hf.
  assert (Hmain : every clean_byte (main_text scheme user H path +:+ text) = true).
  { rewrite every_app, main_text_clean by done. destruct Hq as [[-> _]| ->]; [done|]. by rewrite every_app, Hclean. }
  destruct (parse_main scheme user H path text query Hs Hq) as [force Hparse].
  rewrite clean_ctl, HH in Hparse by done. cbn [mbind option_bind] in Hparse.
  pose proof (clean_no_hash _ Hmain) as Hhash. rewrite string_app_assoc. unfold url_Parse, before, after.
  destruct Hf as [->|(f & -> & Hf)].
  - rewrite string_app_nil_r, (proj2 (cut_None _ _) Hhash). cbn. rewrite Hparse. by eexists.
  - change ("#" +:+ f) with (String "#" f). rewrite cut_app by done. cbn [fmap option_fmap option_map default id fst snd].
    rewrite Hparse. cbn [mbind option_bind]. case_bool_decide; [by eexists|].
    unfold set_escaped. rewrite Hf. cbn [mbind option_bind]. by eexists.
Qed.

(** Whatever the query and the host, a text that is parsed at all has these
    parts; the query ends at its first ["#"]. *)
Theorem parse_print_inv scheme user H path text query ftext v :
  valid_scheme scheme = true → query_text text query → ftext = "" ∨ (∃ f, ftext = "#" +:+ f) →
  url_Parse (main_text scheme user H path +:+ text +:+ ftext) = Some v →
  ∃ force f rf, v = mkURL scheme "" user H ("/" +:+ path) "" false force (before query "#") f rf.
Proof.
  intros Hs Hq Hf. assert (Hcut : ∃ text' ftext', text +:+ ftext = text' +:+ ftext' ∧ query_text text' (before query "#") ∧
    contains text' "#" = false ∧ (ftext' = "" ∨ ∃ f, ftext' = String "#" f)).
  { unfold before. destruct (cut query "#") as [[q0 q1]|] eqn:Ec; cbn.
    - destruct Hq as [[_ ->]| ->]; [done|]. apply cut_spec in Ec as [-> Hq0].
      exists ("?" +:+ q0), (String "#" (q1 +:+ ftext)). split_and!; [by rewrite <- !string_app_assoc|by right| |by right; eexists].
      by apply no_hash.
    - apply cut_None in Ec. exists text, ftext. split_and!; [done|done| |destruct Hf as [->|[f ->]]; [by left|by right; eexists]].
      destruct Hq as [[-> _]| ->]; [done|]. by apply no_hash. }
  destruct Hcut as (text' & ftext' & -> & Hq' & Htext & Hf'). clear Hq Hf.
  destruct (parse_main scheme user H path text' (before query "#") Hs Hq') as [force Hparse].
  assert (Hhash : contains (main_text scheme user H path +:+ text') "#" = false).
  { apply contains_app_false; [|done]. by apply clean_no_hash, main_text_clean. }
  assert (Hb : before (main_text scheme user H path +:+ text' +:+ ftext') "#" = main_text scheme user H path +:+ text').
  { rewrite string_app_assoc. unfold before. destruct Hf' as [->|[f ->]].
    - by rewrite string_app_nil_r, (proj2 (cut_None _ _) Hhash).
    - by rewrite cut_app. }
  unfold url_Parse. rewrite Hb, Hparse. destruct (has_ctl _); [done|].
  destruct (parseHost (escape H encodeHost)) as [host|] eqn:EH; [|done]. apply parseHost_escaped_inv in EH as ->.
  cbn [mbind option_bind]. case_bool_decide; [intros [= <-]; by eexists _, _, _|].
  destruct (set_escaped _ _) as [[f rf]|]; [|done]. intros [= <-]. by eexists _, _, _.
Qed.
