(* ===== verification/SHA256.v ===== *)
(** * SHA-256 ([crypto/sha256])

    [Sum256] on byte strings, as FIPS 180-4 defines it: words are [Z] values
    reduced modulo [2^32].  The gateway uses it to fingerprint credentials and
    addresses. *)

From Stdlib Require Import ZArith Lia Ascii.
From S2P Require Import Prelude GoStrings.

Local Open Scope Z_scope.

Definition word (z : Z) : Z := Z.land z (Z.ones 32).
Definition rotr (x n : Z) : Z := word (Z.lor (Z.shiftr x n) (Z.shiftl x (32 - n))).

(** The constants are those of the standard: the first 32 bits of the
    fractional parts of the cube and square roots of the first primes.  [root]
    is the integer [k]-th root, found bit by bit. *)
Definition prime (p : Z) : bool :=
  forallb (λ d, negb (p mod d =? 0)) (seqZ 2 (p - 2)).

Definition first_primes (n : nat) : list Z := take n (filter (λ p, prime p = true) (seqZ 2 320)).

Definition root (k n : Z) : Z :=
  foldl (λ acc b, let t := acc + 2 ^ b in if t ^ k <=? n then t else acc) 0 (reverse (seqZ 0 40)).

Definition fractional_bits (k p : Z) : Z := word (root k (p * 2 ^ (32 * k))).

Definition round_constants : list Z := Eval vm_compute in fractional_bits 3 <$> first_primes 64.
Definition initial_hash : list Z := Eval vm_compute in fractional_bits 2 <$> first_primes 8.

Fixpoint bytes_of (s : string) : list Z :=
  match s with
  | EmptyString => []
  | String c s' => Z.of_nat (nat_of_ascii c) :: bytes_of s'
  end.

(** The [n] low bytes of [z], most significant first. *)
Fixpoint be_bytes (n : nat) (z : Z) : list Z :=
  match n with
  | O => []
  | S n => Z.land (Z.shiftr z (8 * Z.of_nat n)) 255 :: be_bytes n z
  end.

(** Padding to a multiple of 64 bytes: [0x80], zeros and the bit length. *)
Definition pad (m : list Z) : list Z :=
  let len := Z.of_nat (length m) in
  m ++ 128 :: repeat 0 (Z.to_nat ((55 - len) mod 64)) ++ be_bytes 8 (8 * len).

Fixpoint words_of (b : list Z) : list Z :=
  match b with
  | b0 :: b1 :: b2 :: b3 :: rest =>
      (Z.shiftl b0 24 + Z.shiftl b1 16 + Z.shiftl b2 8 + b3) :: words_of rest
  | _ => []
  end.

(** The message schedule, newest word first: [sched n w] adds [n] words. *)
Fixpoint sched (n : nat) (w : list Z) : list Z :=
  match n with
  | O => w
  | S n =>
      let w15 := nth 14 w 0 in let w2 := nth 1 w 0 in
      let s0 := Z.lxor (Z.lxor (rotr w15 7) (rotr w15 18)) (Z.shiftr w15 3) in
      let s1 := Z.lxor (Z.lxor (rotr w2 17) (rotr w2 19)) (Z.shiftr w2 10) in
      sched n (word (nth 15 w 0 + s0 + nth 6 w 0 + s1) :: w)
  end.

Definition round (h : list Z) (kw : Z * Z) : list Z :=
  match h with
  | [a; b; c; d; e; f; g; hh] =>
      let s1 := Z.lxor (Z.lxor (rotr e 6) (rotr e 11)) (rotr e 25) in
      let ch := Z.lxor (Z.land e f) (Z.land (Z.lxor e (Z.ones 32)) g) in
      let t1 := hh + s1 + ch + kw.1 + kw.2 in
      let s0 := Z.lxor (Z.lxor (rotr a 2) (rotr a 13)) (rotr a 22) in
      let maj := Z.lxor (Z.lxor (Z.land a b) (Z.land a c)) (Z.land b c) in
      [word (t1 + s0 + maj); a; b; c; word (d + t1); e; f; g]
  | _ => h
  end.

Definition compress (h : list Z) (block : list Z) : list Z :=
  let w := reverse (sched 48 (reverse (words_of block))) in
  zip_with (λ x y, word (x + y)) h (foldl round h (zip round_constants w)).

(** The blocks of a padded message; [n] bounds their number. *)
Fixpoint blocks (n : nat) (b : list Z) : list (list Z) :=
  match n with
  | O => []
  | S n => match b with [] => [] | _ => take 64 b :: blocks n (drop 64 b) end
  end.

Definition Sum256 (s : string) : list Z :=
  let p := pad (bytes_of s) in
  mjoin (be_bytes 4 <$> foldl compress initial_hash (blocks (length p) p)).

Lemma be_bytes_range n z : Forall (λ b, 0 ≤ b < 256) (be_bytes n z).
Proof.
  induction n as [|n IH]; constructor; [|done].
  change 255 with (Z.ones 8). rewrite Z.land_ones by lia. apply Z.mod_pos_bound. lia.
Qed.

Lemma be_bytes_length n z : length (be_bytes n z) = n.
Proof. induction n; simpl; congruence. Qed.

Lemma round_length h kw : length h = 8%nat → length (round h kw) = 8%nat.
Proof. destruct h as [|? [|? [|? [|? [|? [|? [|? [|? [|? ?]]]]]]]]]; done. Qed.

Lemma compress_length h b : length h = 8%nat → length (compress h b) = 8%nat.
Proof.
  intros Hh. unfold compress. rewrite length_zip_with, Hh.
  assert (Hf : ∀ l h', length h' = 8%nat → length (foldl round h' l) = 8%nat).
  { intros l. induction l as [|x l IH]; intros h' Hh'; [done|]. by apply IH, round_length. }
  by rewrite Hf.
Qed.

(** A digest is 32 bytes. *)
Lemma Sum256_length s : length (Sum256 s) = 32%nat.
Proof.
  unfold Sum256.
  assert (Hf : ∀ l h', length h' = 8%nat → length (foldl compress h' l) = 8%nat).
  { intros l. induction l as [|x l IH]; intros h' Hh'; [done|]. by apply IH, compress_length. }
  specialize (Hf (blocks (length (pad (bytes_of s))) (pad (bytes_of s))) initial_hash eq_refl).
  revert Hf. generalize (foldl compress initial_hash (blocks (length (pad (bytes_of s))) (pad (bytes_of s)))).
  intros h Hh. destruct h as [|? [|? [|? [|? [|? [|? [|? [|? [|? ?]]]]]]]]]; done.
Qed.

Lemma Sum256_bytes s : Forall (λ b, 0 ≤ b < 256) (Sum256 s).
Proof.
  unfold Sum256. generalize (foldl compress initial_hash (blocks (length (pad (bytes_of s))) (pad (bytes_of s)))).
  intros l. induction l as [|x l IH]; [constructor|]. rewrite fmap_cons. apply Forall_app.
  split; [apply be_bytes_range|exact IH].
Qed.

(** The test vectors of FIPS 180-4. *)
Example sha256_abc : take 8 (Sum256 "abc") = [0xba; 0x78; 0x16; 0xbf; 0x8f; 0x01; 0xcf; 0xea].
Proof. vm_compute. reflexivity. Qed.

Example sha256_empty : take 8 (Sum256 "") = [0xe3; 0xb0; 0xc4; 0x42; 0x98; 0xfc; 0x1c; 0x14].
Proof. vm_compute. reflexivity. Qed.

Example sha256_two_blocks :
  take 8 (Sum256 "abcdbcdecdefdefgefghfghighijhijkijkljklmklmnlmnomnopnopq")
  = [0x24; 0x8d; 0x6a; 0x61; 0xd2; 0x06; 0x38; 0xb8].
Proof. vm_compute. reflexivity. Qed.
