(* ===== verification/Http.v ===== *)
(** * HTTP messages ([net/http])

    Header maps with Go's canonical keys, the parts of a request that the
    gateway reads, and the status codes it names. *)

From Stdlib Require Import ZArith Lia Ascii.
From S2P Require Import Prelude GoStrings.

Local Open Scope Z_scope.

(** ** Canonical field names ([textproto.CanonicalMIMEHeaderKey]) *)
Definition is_upper (c : ascii) : bool :=
  let n := nat_of_ascii c in Nat.leb 65 n && Nat.leb n 90.
Definition is_lower (c : ascii) : bool :=
  let n := nat_of_ascii c in Nat.leb 97 n && Nat.leb n 122.
Definition is_digit (c : ascii) : bool :=
  let n := nat_of_ascii c in Nat.leb 48 n && Nat.leb n 57.

(** The bytes of an RFC 9110 token. *)
Definition validHeaderFieldByte (c : ascii) : bool :=
  is_upper c || is_lower c || is_digit c ||
  bool_decide (c ∈ ["!"; "#"; "$"; "%"; "&"; "'"; "*"; "+"; "-"; "."; "^"; "_"; "`"; "|"; "~"]%char).

Definition upper_ascii (c : ascii) : ascii :=
  if is_lower c then ascii_of_nat (nat_of_ascii c - 32) else c.

Fixpoint canonical_bytes (upper : bool) (s : string) : string :=
  match s with
  | EmptyString => EmptyString
  | String c s' =>
      String (if upper then upper_ascii c else lower_ascii c)
        (canonical_bytes (bool_decide (c = "-"%char)) s')
  end.

Fixpoint string_forallb (p : ascii → bool) (s : string) : bool :=
  match s with
  | EmptyString => true
  | String c s' => p c && string_forallb p s'
  end.

Definition CanonicalHeaderKey (s : string) : string :=
  if string_forallb validHeaderFieldByte s then canonical_bytes true s else s.

(** ** Header maps *)
Abbreviation Header := (gmap string (list string)).

Definition header_Get (h : Header) (name : string) : string :=
  match h !! CanonicalHeaderKey name with Some (v :: _) => v | _ => "" end.

Definition header_Set (name value : string) (h : Header) : Header :=
  <[CanonicalHeaderKey name := [value]]> h.

Definition header_Add (name value : string) (h : Header) : Header :=
  <[CanonicalHeaderKey name := map_get [] h (CanonicalHeaderKey name) ++ [value]]> h.

Definition header_Del (name : string) (h : Header) : Header :=
  delete (CanonicalHeaderKey name) h.

(** The keys of a parsed message are canonical. *)
Definition canonical_header (h : Header) : Prop :=
  ∀ name values, h !! name = Some values → CanonicalHeaderKey name = name.

(** ** Requests *)
Record Request := mkRequest {
  Method : string;
  URL_Path : string;
  URL_RawQuery : string;
  r_Host : string;
  RemoteAddr : string;
  r_TLS : bool;
  r_Header : Header;
  r_Body : string
}.

(** ** Status codes *)
Definition StatusOK : Z := 200.
Definition StatusBadRequest : Z := 400.
Definition StatusUnauthorized : Z := 401.
Definition StatusForbidden : Z := 403.
Definition StatusNotFound : Z := 404.
Definition StatusRequestTimeout : Z := 408.
Definition StatusRequestEntityTooLarge : Z := 413.
Definition StatusTooManyRequests : Z := 429.
Definition StatusInternalServerError : Z := 500.
Definition StatusBadGateway : Z := 502.
Definition StatusServiceUnavailable : Z := 503.
Definition StatusGatewayTimeout : Z := 504.

(** ** Lemmas *)

Lemma lower_upper_ascii c : lower_ascii (upper_ascii c) = lower_ascii c.
Proof. by destruct c as [[][][][][][][][]]. Qed.

Lemma to_lower_canonical_bytes u s : to_lower (canonical_bytes u s) = to_lower s.
Proof.
  revert u. induction s as [|c s IH]; intros u; simpl; [done|]. rewrite IH.
  destruct u; by rewrite ?lower_upper_ascii, ?lower_ascii_idem.
Qed.

Lemma to_lower_canonical s : to_lower (CanonicalHeaderKey s) = to_lower s.
Proof. unfold CanonicalHeaderKey. case_if; [apply to_lower_canonical_bytes|done]. Qed.

Lemma valid_upper c : validHeaderFieldByte (upper_ascii c) = validHeaderFieldByte c.
Proof. by destruct c as [[][][][][][][][]]. Qed.

Lemma valid_lower c : validHeaderFieldByte (lower_ascii c) = validHeaderFieldByte c.
Proof. by destruct c as [[][][][][][][][]]. Qed.

Lemma valid_canonical_bytes u s :
  string_forallb validHeaderFieldByte (canonical_bytes u s) = string_forallb validHeaderFieldByte s.
Proof.
  revert u. induction s as [|c s IH]; intros u; simpl; [done|]. rewrite IH.
  destruct u; by rewrite ?valid_upper, ?valid_lower.
Qed.

Lemma dash_case u c :
  bool_decide ((if u : bool then upper_ascii c else lower_ascii c) = "-"%char) = bool_decide (c = "-"%char).
Proof. destruct u; by destruct c as [[][][][][][][][]]. Qed.

Lemma case_idem u c :
  (if u : bool then upper_ascii else lower_ascii) ((if u then upper_ascii c else lower_ascii c))
  = if u then upper_ascii c else lower_ascii c.
Proof. destruct u; by destruct c as [[][][][][][][][]]. Qed.

Lemma canonical_bytes_idem u s : canonical_bytes u (canonical_bytes u s) = canonical_bytes u s.
Proof.
  revert u. induction s as [|c s IH]; intros u; simpl; [done|]. rewrite dash_case, IH.
  f_equal. pose proof (case_idem u c). by destruct u.
Qed.

Lemma CanonicalHeaderKey_idem s : CanonicalHeaderKey (CanonicalHeaderKey s) = CanonicalHeaderKey s.
Proof.
  unfold CanonicalHeaderKey. destruct (string_forallb validHeaderFieldByte s) eqn:E; [|by rewrite E].
  by rewrite valid_canonical_bytes, E, canonical_bytes_idem.
Qed.

(** Two spellings of a token have the same canonical form exactly when they
    differ in case only. *)
Lemma canonical_bytes_lower u s t :
  to_lower s = to_lower t → canonical_bytes u s = canonical_bytes u t.
Proof.
  revert u t. induction s as [|c s IH]; intros u [|d t]; simpl; [done..|]. intros [= Hc Hs].
  assert (bool_decide (c = "-"%char) = bool_decide (d = "-"%char)) as ->.
  { rewrite <- (dash_case false c), <- (dash_case false d). by rewrite Hc. }
  rewrite (IH _ t) by done. f_equal. destruct u; [|done].
  assert (Hu : ∀ x, upper_ascii x = upper_ascii (lower_ascii x)) by (intros x; by destruct x as [[][][][][][][][]]).
  by rewrite (Hu c), (Hu d), Hc.
Qed.

Lemma valid_to_lower s : string_forallb validHeaderFieldByte (to_lower s) = string_forallb validHeaderFieldByte s.
Proof. induction s as [|c s IH]; simpl; [done|]. by rewrite IH, valid_lower. Qed.

Lemma canonical_iff_lower s t :
  string_forallb validHeaderFieldByte s = true →
  CanonicalHeaderKey s = CanonicalHeaderKey t ↔ to_lower s = to_lower t.
Proof.
  intros Hs. split.
  - intros H. by rewrite <- (to_lower_canonical s), H, to_lower_canonical.
  - intros H. unfold CanonicalHeaderKey. rewrite <- (valid_to_lower t), <- H, valid_to_lower, Hs.
    by apply canonical_bytes_lower.
Qed.

Lemma header_Get_Set name value h : header_Get (header_Set name value h) name = value.
Proof. unfold header_Get, header_Set. by rewrite lookup_insert_eq. Qed.

Lemma header_Set_canonical name value h :
  canonical_header h → canonical_header (header_Set name value h).
Proof.
  unfold header_Set. intros Hh n v [[<- _]|[_ Hv]]%lookup_insert_Some; [apply CanonicalHeaderKey_idem|eauto].
Qed.

#[export] Hint Rewrite header_Get_Set to_lower_canonical CanonicalHeaderKey_idem : go_rw.

Example canonical_example :
  (CanonicalHeaderKey "x-request-id", CanonicalHeaderKey "CONTENT-type", CanonicalHeaderKey "a b")
  = ("X-Request-Id", "Content-Type", "a b").
Proof. vm_compute. reflexivity. Qed.
