(* ===== verification/Value.v ===== *)
(** * Dynamic Go values

    [any] as the gateway's payloads use it: the result of decoding JSON into
    [map[string]any] (objects, arrays, strings, [float64] numbers, booleans
    and nil) and the values that the YAML decoder puts under [overrides]
    (which also hold integers, and as [AOther] the Go values without a JSON
    counterpart in [any], of which only matters whether [json.Marshal] takes
    them: a [time.Time] with a year of four digits, but no [map[any]any], the
    map with a key that is no string).  A [map[string]any] is a [gmap], so two maps
    with the same entries are equal whatever the order they were built in. *)

From Stdlib Require Import ZArith.
From S2P Require Import Prelude GoStrings Float64.

Inductive any :=
  | ANil
  | ABool (b : bool)
  | AInt (z : Z)
  | AFloat (x : f64)
  | AStr (s : string)
  | AArr (l : list any)
  | AObj (m : gmap string any)
  | AOther (encodes : bool).

(** [map[string]any] *)
Abbreviation payload := (gmap string any).

(** The type assertion [v.(string)]. *)
Definition as_string (v : option any) : option string :=
  match v with Some (AStr s) => Some s | _ => None end.

(** The type assertion [v.([]any)]. *)
Definition as_array (v : option any) : option (list any) :=
  match v with Some (AArr l) => Some l | _ => None end.

(** The type assertion [v.(map[string]any)]. *)
Definition as_object (v : any) : option (gmap string any) :=
  match v with AObj m => Some m | _ => None end.

(** The iteration order of [range] over a map is chosen by the runtime.  A
    definition that ranges over a map whose result could depend on the order
    takes the order as this interface; its law is all that Go promises. *)
Class MapOrder := {
  map_range : ∀ V : Type, gmap string V → list (string * V);
  map_range_perm : ∀ V (m : gmap string V), map_range V m ≡ₚ map_to_list m
}.
Arguments map_range {_ V} m.

Lemma elem_of_map_range `{MapOrder} {V} (m : gmap string V) k v :
  (k, v) ∈ map_range m ↔ m !! k = Some v.
Proof. by rewrite map_range_perm, elem_of_map_to_list. Qed.

Lemma NoDup_map_range `{MapOrder} {V} (m : gmap string V) : NoDup (map_range m).*1.
Proof. rewrite map_range_perm. apply NoDup_fst_map_to_list. Qed.

(** Two orders that the runtime may choose, for examples and witnesses. *)
Program Definition order_forward : MapOrder := {| map_range V m := map_to_list m |}.
Next Obligation. done. Qed.

Program Definition order_backward : MapOrder := {| map_range V m := reverse (map_to_list m) |}.
Next Obligation. intros. apply reverse_Permutation. Qed.
