(* ===== verification/Config.v ===== *)
(** * Configuration ([internal/config/config.go])

    The configuration records, the defaults, the validation and the exposure
    warning. *)

From Stdlib Require Import ZArith Lia Ascii.
From S2P Require Import Prelude GoStrings Float64 NetIP NetURL Value.

Local Open Scope Z_scope.
Local Open Scope go_scope.

(** [time.Duration]: nanoseconds in an [int64]. *)
Abbreviation Duration := Z.
Definition Millisecond : Z := 10 ^ 6.
Definition Second : Z := 10 ^ 9.

(** ** Records *)
Record Limits := mkLimits {
  RequestsPerMinute : f64;
  Burst : Z;
  MaxConcurrent : Z
}.

Record QueueConfig := mkQueueConfig {
  q_Enabled : option bool;
  q_MaxSize : Z;
  q_WaitTimeout : Duration
}.

Record LoggingConfig := mkLoggingConfig {
  l_Enabled : bool;
  l_Requests : bool;
  l_Responses : bool;
  l_IncludeBodies : bool;
  l_MaxBodyBytes : Z
}.

Record ServerConfig := mkServerConfig {
  Listen : string;
  InboundAPIKeys : list string;
  UsageDB : string;
  MaxConcurrentRequests : Z;
  ClientLimits : Limits;
  ReadHeaderTimeout : Duration;
  IdleTimeout : Duration;
  s_RequestTimeout : Duration;
  ReadTimeout : Duration;
  WriteIdleTimeout : Duration;
  ReadinessCacheTTL : Duration;
  MaxHeaderBytes : Z;
  MaxRequestBytes : Z;
  Queue : QueueConfig;
  Logging : LoggingConfig;
  ClientNetworks : list string;
  TrustedProxyNetworks : list string
}.

Record AutodiscoverConfig := mkAutodiscoverConfig {
  ad_Enabled : bool;
  Prefix : string;
  CacheTTL : Duration
}.

Record ProviderConfig := mkProviderConfig {
  BaseURL : string;
  Protocol : string;
  APIKeyEnv : string;
  Headers : gmap string string;
  Autodiscover : AutodiscoverConfig;
  p_Limits : Limits;
  p_RequestTimeout : Duration
}.

Record TargetConfig := mkTargetConfig {
  t_Provider : string;
  t_Model : string
}.

Record ModelConfig := mkModelConfig {
  m_Provider : string;
  m_Model : string;
  Targets : list TargetConfig;
  Retries : Z;
  m_Limits : Limits;
  Overrides : gmap string any;
  PrependSystemPrompt : string;
  AppendSystemPrompt : string
}.

Record Config := mkConfig {
  Server : ServerConfig;
  Providers : gmap string ProviderConfig;
  Models : gmap string ModelConfig
}.

(** The zero values that Go gives to an absent map entry or field. *)
Definition zero_Limits : Limits := mkLimits f64_zero 0 0.
Definition zero_Provider : ProviderConfig :=
  mkProviderConfig "" "" "" ∅ (mkAutodiscoverConfig false "" 0) zero_Limits 0.
Definition zero_Model : ModelConfig := mkModelConfig "" "" [] 0 zero_Limits ∅ "" "".

Definition zero_Server : ServerConfig :=
  mkServerConfig "" [] "" 0 zero_Limits 0 0 0 0 0 0 0 0 (mkQueueConfig None 0 0)
    (mkLoggingConfig false false false false 0) [] [].

(** ** Targets of a model *)
Definition ResolvedTargets (m : ModelConfig) : list TargetConfig :=
  match Targets m with
  | [] => [mkTargetConfig (m_Provider m) (m_Model m)]
  | ts => ts
  end.

(** ** Defaults *)
Definition Limits_defaults (l : Limits) : Limits :=
  if f64_lt f64_zero (RequestsPerMinute l) && (Burst l =? 0)
  then mkLimits (RequestsPerMinute l) 1 (MaxConcurrent l)
  else l.

(** The zero value of a field is replaced, any other value is kept. *)
Definition or_default (z d : Z) : Z := if z =? 0 then d else z.
Definition or_default_string (s d : string) : string := if decide (s = "") then d else s.

Definition Queue_defaults (q : QueueConfig) : QueueConfig :=
  mkQueueConfig (Some (default true (q_Enabled q)))
    (or_default (q_MaxSize q) 32) (or_default (q_WaitTimeout q) (30 * Second)).

Definition Logging_defaults (l : LoggingConfig) : LoggingConfig :=
  mkLoggingConfig (l_Enabled l) (l_Requests l) (l_Responses l) (l_IncludeBodies l)
    (or_default (l_MaxBodyBytes l) (Z.shiftl 64 10)).

Definition Server_defaults (s : ServerConfig) : ServerConfig :=
  mkServerConfig
    (or_default_string (Listen s) ":8080")
    (InboundAPIKeys s)
    (or_default_string (UsageDB s) "shepard-usage.db")
    (or_default (MaxConcurrentRequests s) 64)
    (Limits_defaults (ClientLimits s))
    (or_default (ReadHeaderTimeout s) (10 * Second))
    (or_default (IdleTimeout s) (2 * Minute))
    (or_default (s_RequestTimeout s) (10 * Minute))
    (or_default (ReadTimeout s) (30 * Second))
    (or_default (WriteIdleTimeout s) (30 * Second))
    (or_default (ReadinessCacheTTL s) (3 * Second))
    (or_default (MaxHeaderBytes s) (Z.shiftl 64 10))
    (or_default (MaxRequestBytes s) (Z.shiftl 8 20))
    (Queue_defaults (Queue s))
    (Logging_defaults (Logging s))
    (ClientNetworks s)
    (TrustedProxyNetworks s).

Definition Autodiscover_defaults (name : string) (a : AutodiscoverConfig) : AutodiscoverConfig :=
  if ad_Enabled a then
    mkAutodiscoverConfig true
      (or_default_string (Prefix a) (name +:+ "/")) (or_default (CacheTTL a) Minute)
  else a.

Definition Provider_defaults (name : string) (p : ProviderConfig) : ProviderConfig :=
  mkProviderConfig (BaseURL p)
    (or_default_string (Protocol p) "openai")
    (APIKeyEnv p) (Headers p)
    (Autodiscover_defaults name (Autodiscover p))
    (Limits_defaults (p_Limits p))
    (p_RequestTimeout p).

Definition Model_defaults (m : ModelConfig) : ModelConfig :=
  mkModelConfig (m_Provider m) (m_Model m) (Targets m) (Retries m)
    (Limits_defaults (m_Limits m)) (Overrides m)
    (PrependSystemPrompt m) (AppendSystemPrompt m).

(** [Config.defaults]: every entry is rewritten from its own name and
    value, so the iteration order plays no part. *)
Definition defaults (c : Config) : Config :=
  mkConfig (Server_defaults (Server c))
    (map_imap (λ name p, Some (Provider_defaults name p)) (Providers c))
    (Model_defaults <$> Models c).

(** ** Validation *)

(** The errors of [Validate], with the values its messages quote. *)
Inductive config_error :=
  | ErrNoProvider
  | ErrBaseURL (provider : string)
  | ErrAPIKeyEnv (provider : string)
  | ErrSamePrefix (other provider prefix : string)
  | ErrLimitsNegative (scope : string)
  | ErrBurstNeedsRate (scope : string)
  | ErrProtocol (provider protocol : string)
  | ErrProviderTimeout (provider : string)
  | ErrQueueSize
  | ErrQueueTimeout
  | ErrLogBytes
  | ErrMaxConcurrent
  | ErrMaxHeader
  | ErrWriteIdle
  | ErrReadinessTTL
  | ErrEmptyNetwork
  | ErrNetwork (value : string)
  | ErrIP (value : string)
  | ErrNoModel
  | ErrEmptyAlias
  | ErrBothForms (alias : string)
  | ErrNoTarget (alias : string)
  | ErrRetries (alias : string)
  | ErrOverride (alias key : string)
  | ErrEmptyTargetModel (alias : string)
  | ErrUnknownProvider (alias provider : string).

Definition Limits_validate (l : Limits) (scope : string) : option config_error :=
  reject_if (f64_lt (RequestsPerMinute l) f64_zero || (Burst l <? 0) || (MaxConcurrent l <? 0))
    (ErrLimitsNegative scope) ;?;
  reject_if (f64_eq (RequestsPerMinute l) f64_zero && negb (Burst l =? 0))
    (ErrBurstNeedsRate scope).

Definition network_validate (v : string) : option config_error :=
  let value := trim_space v in
  if decide (value = "") then Some ErrEmptyNetwork
  else if contains value "/" then
    match ParseCIDR value with None => Some (ErrNetwork value) | Some _ => None end
  else
    match ParseIP value with None => Some (ErrIP value) | Some _ => None end.

Definition Server_validate (s : ServerConfig) : option config_error :=
  Limits_validate (ClientLimits s) "server client_limits" ;?;
  reject_if (q_MaxSize (Queue s) <? 0) ErrQueueSize ;?;
  reject_if (q_WaitTimeout (Queue s) <? 0) ErrQueueTimeout ;?;
  reject_if (l_MaxBodyBytes (Logging s) <? 0) ErrLogBytes ;?;
  reject_if (MaxConcurrentRequests s <? 0) ErrMaxConcurrent ;?;
  reject_if (MaxHeaderBytes s <? 0) ErrMaxHeader ;?;
  reject_if (WriteIdleTimeout s <? 0) ErrWriteIdle ;?;
  reject_if (ReadinessCacheTTL s <? 0) ErrReadinessTTL ;?;
  first_error network_validate (ClientNetworks s ++ TrustedProxyNetworks s).

(** The fields that an override may not set. *)
Definition structural_keys : list string := ["model"; "messages"; "input"; "instructions"].

Section Validate.
Context `{MapOrder}.

(** The checks of one provider that depend on that provider alone, up to
    the prefix check and after it. *)
Definition provider_validate_head (name : string) (p : ProviderConfig) : option config_error :=
  match url_Parse (BaseURL p) with
  | None => Some (ErrBaseURL name)
  | Some u => reject_if (bool_decide (url_Scheme u = "") || bool_decide (url_Host u = ""))
                (ErrBaseURL name)
  end ;?;
  reject_if (negb (bool_decide (APIKeyEnv p = "")) && contains (APIKeyEnv p) "$")
    (ErrAPIKeyEnv name).

Definition provider_validate_tail (name : string) (p : ProviderConfig) : option config_error :=
  Limits_validate (p_Limits p) ("provider " +:+ name) ;?;
  reject_if (negb (bool_decide (Protocol p = "openai")) && negb (bool_decide (Protocol p = "ollama")))
    (ErrProtocol name (Protocol p)) ;?;
  reject_if (p_RequestTimeout p <? 0) (ErrProviderTimeout name).

(** The loop over the providers, with the prefixes seen so far. *)
Fixpoint providers_validate (l : list (string * ProviderConfig)) (prefixes : gmap string string)
    : option config_error :=
  match l with
  | [] => None
  | (name, p) :: l' =>
      provider_validate_head name p ;?;
      (if ad_Enabled (Autodiscover p) then
         match prefixes !! Prefix (Autodiscover p) with
         | Some other => Some (ErrSamePrefix other name (Prefix (Autodiscover p)))
         | None =>
             provider_validate_tail name p ;?;
             providers_validate l' (<[Prefix (Autodiscover p) := name]> prefixes)
         end
       else provider_validate_tail name p ;?; providers_validate l' prefixes)
  end.

Definition override_validate (alias : string) (kv : string * any) : option config_error :=
  reject_if (bool_decide (kv.1 ∈ structural_keys)) (ErrOverride alias kv.1).

Definition target_validate (c : Config) (alias : string) (t : TargetConfig) : option config_error :=
  reject_if (bool_decide (t_Model t = "")) (ErrEmptyTargetModel alias) ;?;
  match Providers c !! t_Provider t with
  | None => Some (ErrUnknownProvider alias (t_Provider t))
  | Some _ => None
  end.

Definition model_validate (c : Config) (am : string * ModelConfig) : option config_error :=
  let '(alias, m) := am in
  let has_targets := negb (bool_decide (Targets m = [])) in
  reject_if (bool_decide (alias = "")) ErrEmptyAlias ;?;
  reject_if (has_targets && (negb (bool_decide (m_Provider m = "")) || negb (bool_decide (m_Model m = ""))))
    (ErrBothForms alias) ;?;
  reject_if (negb has_targets && (bool_decide (m_Provider m = "") || bool_decide (m_Model m = "")))
    (ErrNoTarget alias) ;?;
  reject_if ((Retries m <? 0) || (10 <? Retries m)) (ErrRetries alias) ;?;
  first_error (override_validate alias) (map_range (Overrides m)) ;?;
  Limits_validate (m_Limits m) ("model " +:+ alias) ;?;
  first_error (target_validate c alias) (ResolvedTargets m).

Definition hasModels (c : Config) : bool :=
  negb (bool_decide (size (Models c) = 0%nat)) ||
  existsb (λ np : string * ProviderConfig, ad_Enabled (Autodiscover np.2)) (map_range (Providers c)).

(** [Config.Validate]: [None] is Go's nil error. *)
Definition Validate (c : Config) : option config_error :=
  reject_if (bool_decide (size (Providers c) = 0%nat)) ErrNoProvider ;?;
  providers_validate (map_range (Providers c)) ∅ ;?;
  Server_validate (Server c) ;?;
  reject_if (negb (hasModels c)) ErrNoModel ;?;
  first_error (model_validate c) (map_range (Models c)).

(** [Load]: [read] is [os.ReadFile] followed by the strict YAML decoder,
    whose own errors are [inl]. *)
Definition Load {E} (read : string → E + Config) (path : string) : (E + config_error) + Config :=
  match read path with
  | inl e => inl (inl e)
  | inr raw =>
      let cfg := defaults raw in
      match Validate cfg with
      | Some e => inl (inr e)
      | None => inr cfg
      end
  end.
End Validate.

(** ** Exposure warning *)
Definition BroadlyExposedWithoutAccessControls (s : ServerConfig) : bool :=
  if negb (bool_decide (InboundAPIKeys s = [])) || negb (bool_decide (ClientNetworks s = [])) then false
  else
    match SplitHostPort (Listen s) with
    | None => false
    | Some (host, _) =>
        let ip := ParseIP (trim_set host ["["; "]"]%char) in
        bool_decide (host = "") ||
        match ip with Some i => IsUnspecified i | None => false end
    end.

(** ** What a valid configuration is

    The declarative counterpart of [Validate]: no iteration order, no error. *)
Definition limits_ok (l : Limits) : Prop :=
  f64_lt (RequestsPerMinute l) f64_zero = false ∧ 0 ≤ Burst l ∧ 0 ≤ MaxConcurrent l ∧
  (f64_eq (RequestsPerMinute l) f64_zero = true → Burst l = 0).

Definition network_ok (v : string) : Prop :=
  let value := trim_space v in
  value ≠ "" ∧
  (if contains value "/" then is_Some (ParseCIDR value) else is_Some (ParseIP value)).

Record server_ok (s : ServerConfig) : Prop := {
  so_client_limits : limits_ok (ClientLimits s);
  so_queue_size : 0 ≤ q_MaxSize (Queue s);
  so_queue_timeout : 0 ≤ q_WaitTimeout (Queue s);
  so_log_bytes : 0 ≤ l_MaxBodyBytes (Logging s);
  so_max_concurrent : 0 ≤ MaxConcurrentRequests s;
  so_max_header : 0 ≤ MaxHeaderBytes s;
  so_write_idle : 0 ≤ WriteIdleTimeout s;
  so_readiness_ttl : 0 ≤ ReadinessCacheTTL s;
  so_networks : ∀ v, v ∈ ClientNetworks s ++ TrustedProxyNetworks s → network_ok v
}.

Record provider_ok (p : ProviderConfig) : Prop := {
  po_url : ∃ u, url_Parse (BaseURL p) = Some u ∧ url_Scheme u ≠ "" ∧ url_Host u ≠ "";
  po_env : APIKeyEnv p = "" ∨ contains (APIKeyEnv p) "$" = false;
  po_limits : limits_ok (p_Limits p);
  po_protocol : Protocol p = "openai" ∨ Protocol p = "ollama";
  po_timeout : 0 ≤ p_RequestTimeout p
}.

Definition target_ok (c : Config) (t : TargetConfig) : Prop :=
  t_Model t ≠ "" ∧ is_Some (Providers c !! t_Provider t).

Record model_ok (c : Config) (alias : string) (m : ModelConfig) : Prop := {
  mo_alias : alias ≠ "";
  mo_form :
    (Targets m ≠ [] ∧ m_Provider m = "" ∧ m_Model m = "") ∨
    (Targets m = [] ∧ m_Provider m ≠ "" ∧ m_Model m ≠ "");
  mo_retries : 0 ≤ Retries m ≤ 10;
  mo_overrides : ∀ k, k ∈ structural_keys → Overrides m !! k = None;
  mo_limits : limits_ok (m_Limits m);
  mo_targets : ∀ t, t ∈ ResolvedTargets m → target_ok c t
}.

Record config_ok (c : Config) : Prop := {
  co_some_provider : Providers c ≠ ∅;
  co_providers : ∀ name p, Providers c !! name = Some p → provider_ok p;
  co_prefixes : ∀ n1 n2 p1 p2,
    Providers c !! n1 = Some p1 → Providers c !! n2 = Some p2 →
    ad_Enabled (Autodiscover p1) = true → ad_Enabled (Autodiscover p2) = true →
    Prefix (Autodiscover p1) = Prefix (Autodiscover p2) → n1 = n2;
  co_server : server_ok (Server c);
  co_some_model :
    Models c ≠ ∅ ∨ ∃ name p, Providers c !! name = Some p ∧ ad_Enabled (Autodiscover p) = true;
  co_models : ∀ alias m, Models c !! alias = Some m → model_ok c alias m
}.

(** ** Lemmas about the checks *)

Lemma Limits_validate_None l scope : Limits_validate l scope = None ↔ limits_ok l.
Proof.
  unfold Limits_validate, limits_ok. rewrite orelse_None, !reject_if_None.
  rewrite !orb_false_iff, andb_false_iff, negb_false_iff, Z.eqb_eq, !Z.ltb_ge.
  destruct (f64_eq _ _); naive_solver.
Qed.

Lemma network_validate_None v : network_validate v = None ↔ network_ok v.
Proof.
  unfold network_validate, network_ok. case_decide as Hv; [naive_solver|].
  destruct (contains _ _); [destruct (ParseCIDR _)|destruct (ParseIP _)];
    split; try done; naive_solver.
Qed.

Lemma Server_validate_None s : Server_validate s = None ↔ server_ok s.
Proof.
  unfold Server_validate.
  rewrite !orelse_None, !reject_if_None, !Z.ltb_ge, Limits_validate_None, first_error_None.
  setoid_rewrite network_validate_None.
  split; [intros (?&?&?&?&?&?&?&?&?); by split|intros []; by split_and!].
Qed.

Lemma target_validate_None c alias t : target_validate c alias t = None ↔ target_ok c t.
Proof.
  unfold target_validate, target_ok. rewrite orelse_None, reject_if_None, bool_decide_eq_false.
  destruct (Providers c !! t_Provider t); split; try done; naive_solver.
Qed.

Section validate_lemmas.
Context `{MapOrder}.

Lemma provider_validate_None name p :
  provider_validate_head name p = None ∧ provider_validate_tail name p = None ↔ provider_ok p.
Proof.
  unfold provider_validate_head, provider_validate_tail.
  rewrite !orelse_None, !reject_if_None, Limits_validate_None, Z.ltb_ge.
  rewrite !andb_false_iff, !negb_false_iff, !bool_decide_eq_true.
  split.
  - intros [[Hu He] (Hl & Hp & Ht)]. split; [|done..].
    destruct (url_Parse _) as [u|]; [|done]. exists u.
    apply reject_if_None, orb_false_iff in Hu as [?%bool_decide_eq_false ?%bool_decide_eq_false].
    done.
  - intros [(u & -> & Hs & Hh) He Hl Hp Ht]. split_and!; try done.
    rewrite reject_if_None. by rewrite !bool_decide_eq_false_2.
Qed.

(** The loop over the providers: every provider passes, the prefixes of the
    enabled ones are distinct and differ from those seen before. *)
Lemma providers_validate_None l seen :
  NoDup l.*1 →
  providers_validate l seen = None ↔
  (∀ name p, (name, p) ∈ l → provider_ok p) ∧
  (∀ name p, (name, p) ∈ l → ad_Enabled (Autodiscover p) = true →
     seen !! Prefix (Autodiscover p) = None) ∧
  (∀ n1 n2 p1 p2, (n1, p1) ∈ l → (n2, p2) ∈ l →
     ad_Enabled (Autodiscover p1) = true → ad_Enabled (Autodiscover p2) = true →
     Prefix (Autodiscover p1) = Prefix (Autodiscover p2) → n1 = n2).
Proof.
  revert seen. induction l as [|[name p] l IH]; intros seen Hnd; [set_solver|].
  apply NoDup_cons in Hnd as [Hnotin Hnd]. specialize (IH).
  assert (Hfresh : ∀ n q, (n, q) ∈ l → n ≠ name).
  { intros n q Hin ->. apply Hnotin. apply list_elem_of_fmap. by exists (name, q). }
  cbn [providers_validate]. rewrite orelse_None.
  destruct (ad_Enabled (Autodiscover p)) eqn:Een.
  - destruct (seen !! Prefix (Autodiscover p)) eqn:Eseen.
    { split; [naive_solver|]. intros (_ & Hs & _).
      rewrite (Hs name p) in Eseen by (done || set_solver). done. }
    rewrite orelse_None, (IH _ Hnd).
    rewrite (assoc (∧)), provider_validate_None.
    split.
    + intros (Hp & Hok & Hseen & Hinj). split_and!.
      * intros n q [[= -> ->]|Hin]%elem_of_cons; eauto.
      * intros n q [[= -> ->]|Hin]%elem_of_cons Hen; [done|].
        specialize (Hseen n q Hin Hen). rewrite lookup_insert_None in Hseen. naive_solver.
      * intros n1 n2 p1 p2 [[= -> ->]|H1]%elem_of_cons [[= -> ->]|H2]%elem_of_cons He1 He2 Heq;
          [done| | |by eauto].
        -- specialize (Hseen n2 p2 H2 He2). rewrite lookup_insert_None in Hseen. naive_solver.
        -- specialize (Hseen n1 p1 H1 He1). rewrite lookup_insert_None in Hseen. naive_solver.
    + intros (Hok & Hseen & Hinj). split_and!.
      * apply (Hok name). set_solver.
      * intros n q Hin. apply (Hok n). set_solver.
      * intros n q Hin Hen. rewrite lookup_insert_None. split; [apply (Hseen n); [set_solver|done]|].
        intros Heq. apply (Hfresh n q Hin). symmetry. apply (Hinj name n p q); try done; set_solver.
      * intros n1 n2 p1 p2 H1 H2. apply Hinj; set_solver.
  - rewrite orelse_None, (IH _ Hnd), (assoc (∧)), provider_validate_None.
    split.
    + intros (Hp & Hok & Hseen & Hinj). split_and!.
      * intros n q [[= -> ->]|Hin]%elem_of_cons; eauto.
      * intros n q [[= -> ->]|Hin]%elem_of_cons Hen; [congruence|]. eauto.
      * intros n1 n2 p1 p2 [[= -> ->]|H1]%elem_of_cons [[= -> ->]|H2]%elem_of_cons He1 He2 Heq;
          [done|congruence|congruence|]. eauto.
    + intros (Hok & Hseen & Hinj). split_and!.
      * apply (Hok name). set_solver.
      * intros n q Hin. apply (Hok n). set_solver.
      * intros n q Hin Hen. apply (Hseen n); [set_solver|done].
      * intros n1 n2 p1 p2 H1 H2. apply Hinj; set_solver.
Qed.

Lemma overrides_validate_None alias m :
  first_error (override_validate alias) (map_range (Overrides m)) = None ↔
  ∀ k, k ∈ structural_keys → Overrides m !! k = None.
Proof.
  rewrite first_error_None. unfold override_validate. split.
  - intros Hno k Hk. destruct (Overrides m !! k) as [v|] eqn:E; [|done].
    specialize (Hno (k, v)). rewrite elem_of_map_range in Hno. specialize (Hno E).
    rewrite reject_if_None, bool_decide_eq_false in Hno. done.
  - intros Hno [k v] Hin%elem_of_map_range. rewrite reject_if_None, bool_decide_eq_false.
    intros Hk. simpl in Hk. rewrite (Hno k Hk) in Hin. done.
Qed.

Lemma model_validate_None c alias m : model_validate c (alias, m) = None ↔ model_ok c alias m.
Proof.
  unfold model_validate.
  rewrite !orelse_None, !reject_if_None, overrides_validate_None, Limits_validate_None.
  rewrite first_error_None. setoid_rewrite target_validate_None.
  rewrite bool_decide_eq_false, !andb_false_iff, !orb_false_iff, !negb_false_iff.
  rewrite !bool_decide_eq_true, !bool_decide_eq_false, !Z.ltb_ge.
  rewrite negb_true_iff, bool_decide_eq_false. split.
  - intros (Ha & Hb & Hn & Hr & Ho & Hl & Ht). split; [done| |lia|done..].
    destruct (decide (Targets m = [])); [right|left]; naive_solver.
  - intros [Ha Hf Hr Ho Hl Ht]. split_and!; [done| | |lia|lia|done..];
      destruct Hf as [(?&?&?)|(?&?&?)]; auto.
Qed.

Lemma hasModels_spec c :
  hasModels c = true ↔
  Models c ≠ ∅ ∨ ∃ name p, Providers c !! name = Some p ∧ ad_Enabled (Autodiscover p) = true.
Proof.
  unfold hasModels. rewrite orb_true_iff, negb_true_iff, bool_decide_eq_false.
  rewrite map_size_non_empty_iff, existsb_exists. f_equiv. split.
  - intros ([name p] & Hin & Hen). apply list_elem_of_In, elem_of_map_range in Hin. eauto.
  - intros (name & p & Hin & Hen). exists (name, p). split; [|done].
    by apply list_elem_of_In, elem_of_map_range.
Qed.

Lemma Validate_None c : Validate c = None ↔ config_ok c.
Proof.
  unfold Validate.
  rewrite !orelse_None, !reject_if_None, bool_decide_eq_false, map_size_non_empty_iff.
  rewrite providers_validate_None by apply NoDup_map_range.
  rewrite Server_validate_None, negb_false_iff, hasModels_spec, first_error_None.
  setoid_rewrite elem_of_map_range. split.
  - intros (H1 & (H2 & _ & H3) & H4 & H5 & H6). split; [done|done|done|done|done|].
    intros alias m Hm. apply model_validate_None, H6. by apply elem_of_map_range.
  - intros [H1 H2 H3 H4 H5 H6]. split_and!; [done|done|done|done|done|done|].
    intros [alias m] Hm%elem_of_map_range. by apply model_validate_None, H6.
Qed.
End validate_lemmas.

(** ** Lemmas about the defaults *)

Lemma or_default_idem z d : d ≠ 0 → or_default (or_default z d) d = or_default z d.
Proof.
  unfold or_default. intros Hd. destruct (z =? 0) eqn:Ez.
  - by apply Z.eqb_neq in Hd as ->.
  - by rewrite Ez.
Qed.

Lemma or_default_string_idem s d :
  d ≠ "" → or_default_string (or_default_string s d) d = or_default_string s d.
Proof. unfold or_default_string. intros Hd. by repeat case_decide. Qed.

Lemma or_default_pos z d : 0 < d → 0 ≤ or_default z d → 0 < or_default z d.
Proof. unfold or_default. destruct (z =? 0) eqn:Ez; bool_to_prop; lia. Qed.

Lemma Limits_defaults_idem l : Limits_defaults (Limits_defaults l) = Limits_defaults l.
Proof.
  unfold Limits_defaults at 2 3.
  destruct (f64_lt f64_zero (RequestsPerMinute l) && (Burst l =? 0)) eqn:E;
    unfold Limits_defaults; simpl; [by rewrite andb_false_r|by rewrite E].
Qed.

Lemma Limits_defaults_burst l :
  f64_lt f64_zero (RequestsPerMinute (Limits_defaults l)) = true →
  0 ≤ Burst (Limits_defaults l) → 1 ≤ Burst (Limits_defaults l).
Proof.
  unfold Limits_defaults.
  destruct (f64_lt f64_zero (RequestsPerMinute l)) eqn:Er; simpl; [|by rewrite Er].
  destruct (Burst l =? 0) eqn:Eb; simpl; bool_to_prop; intros; lia.
Qed.

Lemma Server_defaults_idem s : Server_defaults (Server_defaults s) = Server_defaults s.
Proof.
  unfold Server_defaults, Queue_defaults, Logging_defaults. simpl.
  by rewrite !or_default_idem, !or_default_string_idem, Limits_defaults_idem by done.
Qed.

Lemma Provider_defaults_idem name p :
  Provider_defaults name (Provider_defaults name p) = Provider_defaults name p.
Proof.
  unfold Provider_defaults, Autodiscover_defaults. simpl.
  rewrite or_default_string_idem, Limits_defaults_idem by done.
  destruct (Autodiscover p) as [en pre ttl]. simpl.
  destruct en; simpl; [|done]. rewrite or_default_idem by done.
  rewrite or_default_string_idem; [done|]. by destruct name.
Qed.

Lemma defaults_provider c name :
  Providers (defaults c) !! name = Provider_defaults name <$> Providers c !! name.
Proof. simpl. rewrite map_lookup_imap. by destruct (Providers c !! name). Qed.

Lemma defaults_model c alias :
  Models (defaults c) !! alias = Model_defaults <$> Models c !! alias.
Proof. simpl. by rewrite lookup_fmap. Qed.

Lemma defaults_idem c : defaults (defaults c) = defaults c.
Proof.
  unfold defaults. simpl. f_equal.
  - apply Server_defaults_idem.
  - apply map_eq. intros name. rewrite !map_lookup_imap.
    destruct (Providers c !! name); simpl; [|done]. by rewrite Provider_defaults_idem.
  - rewrite <- map_fmap_compose. apply map_fmap_ext. intros alias m _.
    unfold Model_defaults. simpl. by rewrite Limits_defaults_idem.
Qed.

(** Every limit that a configuration holds. *)
Definition config_limits (c : Config) (l : Limits) : Prop :=
  l = ClientLimits (Server c) ∨
  (∃ name p, Providers c !! name = Some p ∧ l = p_Limits p) ∨
  (∃ alias m, Models c !! alias = Some m ∧ l = m_Limits m).

Lemma defaults_limits c l : config_limits (defaults c) l → ∃ l0, l = Limits_defaults l0.
Proof.
  unfold config_limits. intros [->|[(name & p & Hp & ->)|(alias & m & Hm & ->)]].
  - by eexists.
  - rewrite defaults_provider in Hp. destruct (Providers c !! name); simplify_eq/=. by eexists.
  - rewrite defaults_model in Hm. destruct (Models c !! alias); simplify_eq/=. by eexists.
Qed.

Lemma config_ok_limits c l : config_ok c → config_limits c l → limits_ok l.
Proof.
  intros Hok [->|[(name & p & Hp & ->)|(alias & m & Hm & ->)]].
  - apply Hok.
  - apply (co_providers c Hok name p Hp).
  - apply (co_models c Hok alias m Hm).
Qed.

Lemma Load_inr `{MapOrder} {E} (read : string → E + Config) path cfg :
  Load read path = inr cfg → ∃ raw, read path = inr raw ∧ cfg = defaults raw ∧ config_ok cfg.
Proof.
  unfold Load. destruct (read path) as [e|raw]; [done|].
  destruct (Validate (defaults raw)) eqn:Ev; [done|]. intros [= <-].
  exists raw. by rewrite <- Validate_None.
Qed.

(** ** Properties *)

(** C33: [Validate] returns nil exactly for the configurations that satisfy the
    declarative specification [config_ok]: every provider, prefix, limit,
    network, alias, override and target condition, whatever order the runtime
    ranges over the maps in. *)
Theorem validate_spec `{MapOrder} (c : Config) : Validate c = None ↔ config_ok c.
Proof. apply Validate_None. Qed.

(** Applying the defaults twice is the same as applying them once, so a
    validated configuration is the one the gateway runs with. *)
Theorem defaults_idempotent (c : Config) : defaults (defaults c) = defaults c.
Proof. apply defaults_idem. Qed.

(** The bounds of a configuration that the gateway can run with: the ingress
    concurrency, the header size, the queue size and its timeout are positive,
    the queue switch is set, every rate limit has a positive burst, and every
    target of every model names a known provider. *)
Definition config_bounds (cfg : Config) : Prop :=
  0 < MaxConcurrentRequests (Server cfg) ∧ 0 < MaxHeaderBytes (Server cfg) ∧
  0 < q_MaxSize (Queue (Server cfg)) ∧ 0 < q_WaitTimeout (Queue (Server cfg)) ∧
  is_Some (q_Enabled (Queue (Server cfg))) ∧
  (∀ l, config_limits cfg l → f64_lt f64_zero (RequestsPerMinute l) = true → 1 ≤ Burst l) ∧
  (∀ alias m t, Models cfg !! alias = Some m → t ∈ ResolvedTargets m →
     is_Some (Providers cfg !! t_Provider t)).

Theorem loaded_config_bounds `{MapOrder} {E} (read : string → E + Config) path cfg :
  Load read path = inr cfg → config_bounds cfg.
Proof.
  intros (raw & _ & -> & Hok)%Load_inr. destruct (co_server _ Hok) as []. unfold config_bounds.
  split_and!; try (apply or_default_pos; [unfold Second; done|done]).
  - by eexists.
  - intros l Hl Hr. destruct (defaults_limits raw l Hl) as [l0 ->].
    apply Limits_defaults_burst; [done|]. apply (config_ok_limits _ _ Hok Hl).
  - intros alias m t Hm Ht. apply (co_models _ Hok alias m Hm). done.
Qed.

Definition example_server : ServerConfig :=
  mkServerConfig "" [] "" 0 (mkLimits (f64_of_Z 120) 0 4) 0 0 0 0 0 0 0 0
    (mkQueueConfig None 0 0) (mkLoggingConfig false false false false 0)
    ["10.0.0.0/8"; "::1"] [].

Definition example_config : Config :=
  mkConfig example_server
    {[ "local" := mkProviderConfig "http://127.0.0.1:10000" "" "" ∅
         (mkAutodiscoverConfig true "" 0) zero_Limits 0 ]}
    {[ "coding" := mkModelConfig "" "" [mkTargetConfig "local" "qwen"] 1
         (mkLimits (f64_of_Z 30) 0 2) ∅ "" "" ]}.
