(* ===== verification/Limiter.v ===== *)
(** * The rate and concurrency limiter ([internal/gateway/limiter.go])

    [limitStore] holds a token bucket and a concurrency counter per scope key.
    [limitStore_admit] checks all the scopes of a request before it consumes anything;
    the release function that it returns is [release] applied to the same
    scopes, which the closure captures.  The clock reading [time.Now()] is the
    argument [now], in nanoseconds. *)

From Stdlib Require Import ZArith Lia SpecFloat.
From S2P Require Import Prelude Float64 Value Config.

Local Open Scope Z_scope.

Record admissionScope := mkScope {
  key : string;
  limits : Limits
}.

#[export] Instance Limits_eq_dec : EqDecision Limits.
Proof. solve_decision. Defined.
#[export] Instance admissionScope_eq_dec : EqDecision admissionScope.
Proof. solve_decision. Defined.

Record bucketState := mkBucket {
  tokens : f64;
  updated : Z
}.

Record limitStore := mkLimitStore {
  buckets : gmap string bucketState;
  concurrent : gmap string Z
}.

Definition newLimitStore : limitStore := mkLimitStore ∅ ∅.

(** [limitStore.clear] keeps the concurrency counters. *)
Definition limitStore_clear (s : limitStore) : limitStore := mkLimitStore ∅ (concurrent s).

(** [time.Time.Sub] saturates at the ends of the [int64] range. *)
Definition time_Sub (t u : Z) : Z := Z.max MinInt64 (Z.min MaxInt64 (t - u)).

Definition zero_bucket : bucketState := mkBucket f64_zero 0.

Definition rate (sc : admissionScope) : f64 := RequestsPerMinute (limits sc).

(** [scope.limits.MaxConcurrent > 0] *)
Definition counts (sc : admissionScope) : bool := 0 <? MaxConcurrent (limits sc).

(** The bucket of a scope brought up to date. *)
Definition refill (now : Z) (s : limitStore) (sc : admissionScope) : bucketState :=
  match buckets s !! key sc with
  | None => mkBucket (f64_of_Z (Burst (limits sc))) now
  | Some state =>
      let elapsed := minutes (time_Sub now (updated state)) in
      let t := f64_add (tokens state) (f64_mul elapsed (rate sc)) in
      let maximum := f64_of_Z (Burst (limits sc)) in
      mkBucket (if f64_lt maximum t then maximum else t) now
  end.

(** The first loop of [admit]: [inl] is a rejection, with the store it leaves
    behind, and [inr] the refreshed buckets of the rate-limited scopes. *)
Fixpoint admit_check (now : Z) (s : limitStore) (scopes : list admissionScope)
    (states : gmap string bucketState) : limitStore + gmap string bucketState :=
  match scopes with
  | [] => inr states
  | sc :: rest =>
      if counts sc && (MaxConcurrent (limits sc) <=? map_get 0 (concurrent s) (key sc)) then inl s
      else if f64_le (rate sc) f64_zero then admit_check now s rest states
      else
        let state := refill now s sc in
        if f64_lt (tokens state) f64_one
        then inl (mkLimitStore (<[key sc := state]> (buckets s)) (concurrent s))
        else admit_check now s rest (<[key sc := state]> states)
  end.

(** One iteration of the second loop of [admit]. *)
Definition consume (states : gmap string bucketState) (s : limitStore) (sc : admissionScope)
    : limitStore :=
  mkLimitStore
    (if f64_lt f64_zero (rate sc) then
       let state := map_get zero_bucket states (key sc) in
       <[key sc := mkBucket (f64_sub (tokens state) f64_one) (updated state)]> (buckets s)
     else buckets s)
    (if counts sc then
       <[key sc := int64 (map_get 0 (concurrent s) (key sc) + 1)]> (concurrent s)
     else concurrent s).

(** [limitStore.admit]: the new store and whether the request is admitted. *)
Definition limitStore_admit (now : Z) (scopes : list admissionScope) (s : limitStore) : limitStore * bool :=
  match admit_check now s scopes ∅ with
  | inl s' => (s', false)
  | inr states => (foldl (consume states) s scopes, true)
  end.

(** The body of the release function. *)
Definition release_one (s : limitStore) (sc : admissionScope) : limitStore :=
  let c := map_get 0 (concurrent s) (key sc) in
  if counts sc && (0 <? c) then
    mkLimitStore (buckets s)
      (if int64 (c - 1) =? 0 then delete (key sc) (concurrent s)
       else <[key sc := int64 (c - 1)]> (concurrent s))
  else s.

Definition release (scopes : list admissionScope) (s : limitStore) : limitStore :=
  foldl release_one s scopes.

(** ** Executions of a store

    The requests that have been admitted and not released yet are the [held]
    scopes; every step is one critical section of the store's mutex, so this
    covers every interleaving of concurrent requests and reloads. *)
Record limit_system := mkLimitSystem {
  store : limitStore;
  held : list (list admissionScope)
}.

(** The calls that the gateway makes: distinct keys, limits that are Go ints. *)
Definition scopes_wf (scopes : list admissionScope) : Prop :=
  NoDup (key <$> scopes) ∧ Forall (λ sc, in_int64 (MaxConcurrent (limits sc))) scopes.

#[export] Instance scopes_wf_dec scopes : Decision (scopes_wf scopes).
Proof. unfold scopes_wf. apply _. Defined.

(** [allowed] restricts the scopes that requests present; it is trivial except
    where a theorem relates the counters to the configured limits. *)
Inductive limit_step (allowed : admissionScope → Prop) : limit_system → limit_system → Prop :=
  | step_admit now scopes s s' hs :
      scopes_wf scopes → Forall allowed scopes → limitStore_admit now scopes s = (s', true) →
      limit_step allowed (mkLimitSystem s hs) (mkLimitSystem s' (scopes :: hs))
  | step_reject now scopes s s' hs :
      scopes_wf scopes → limitStore_admit now scopes s = (s', false) →
      limit_step allowed (mkLimitSystem s hs) (mkLimitSystem s' hs)
  | step_release scopes s h1 h2 :
      limit_step allowed (mkLimitSystem s (h1 ++ scopes :: h2))
        (mkLimitSystem (release scopes s) (h1 ++ h2))
  | step_clear s hs :
      limit_step allowed (mkLimitSystem s hs) (mkLimitSystem (limitStore_clear s) hs).

Definition limit_init : limit_system := mkLimitSystem newLimitStore [].

Definition limit_reachable (allowed : admissionScope → Prop) : limit_system → Prop :=
  rtc (limit_step allowed) limit_init.

(** How many units of key [k] a list of scopes holds. *)
Definition holds (k : string) (scopes : list admissionScope) : Z :=
  sumZ (λ sc, if bool_decide (key sc = k) && counts sc then 1 else 0) scopes.

Definition count (s : limitStore) (k : string) : Z := map_get 0 (concurrent s) k.

(** The counters are exactly the outstanding holds, and no zero is stored. *)
Definition positive_counts (s : limitStore) : Prop :=
  ∀ k c, concurrent s !! k = Some c → 0 < c.

Definition limit_inv (s : limitStore) (hs : list (list admissionScope)) : Prop :=
  (∀ k, count s k = sumZ (holds k) hs) ∧ positive_counts s ∧ (∀ k, count s k ≤ MaxInt64).

(** Successive admissions of one scope at one clock reading. *)
Fixpoint admit_many (now : Z) (sc : admissionScope) (n : nat) (s : limitStore) : list bool :=
  match n with
  | O => []
  | S n => let '(s', ok) := limitStore_admit now [sc] s in ok :: admit_many now sc n s'
  end.

(** ** Lemmas *)

Lemma holds_cons k sc scopes :
  holds k (sc :: scopes) = (if bool_decide (key sc = k) && counts sc then 1 else 0) + holds k scopes.
Proof. done. Qed.

Lemma holds_nonneg k scopes : 0 ≤ holds k scopes.
Proof. apply sumZ_nonneg. intros sc _. by case_if. Qed.

Lemma holds_notin k scopes : k ∉ key <$> scopes → holds k scopes = 0.
Proof.
  intros Hk. apply sumZ_zero. intros sc Hsc.
  rewrite bool_decide_eq_false_2; [done|]. intros <-. apply Hk, list_elem_of_fmap. eauto.
Qed.

(** With distinct keys a request holds at most one unit of a key. *)
Lemma holds_witness k scopes :
  holds k scopes ≠ 0 → NoDup (key <$> scopes) →
  ∃ sc, sc ∈ scopes ∧ key sc = k ∧ counts sc = true ∧ holds k scopes = 1.
Proof.
  induction scopes as [|sc rest IH]; [done|]. rewrite fmap_cons, NoDup_cons, holds_cons.
  intros Hne [Hnotin Hnd]. destruct (bool_decide (key sc = k) && counts sc) eqn:E.
  - bool_to_prop. exists sc. split_and!; [set_solver|done|done|].
    rewrite holds_notin; [done|]. by subst k.
  - destruct IH as (sc' & ? & ? & ? & ?); [lia|done|]. exists sc'. split_and!; [set_solver|done..|lia].
Qed.

Lemma total_holds_nonneg k hs : 0 ≤ sumZ (holds k) hs.
Proof. apply sumZ_nonneg. intros. apply holds_nonneg. Qed.

Lemma limit_inv_count_nonneg s hs k : limit_inv s hs → 0 ≤ count s k.
Proof. intros [Hc _]. rewrite Hc. apply total_holds_nonneg. Qed.

(** The checks never write the concurrency counters. *)
Lemma admit_check_rejected now s scopes states s' :
  admit_check now s scopes states = inl s' →
  concurrent s' = concurrent s ∧
  (s' = s ∨ ∃ sc, sc ∈ scopes ∧ f64_lt (tokens (refill now s sc)) f64_one = true ∧
     buckets s' = <[key sc := refill now s sc]> (buckets s)).
Proof.
  revert states. induction scopes as [|sc rest IH]; intros states; simpl; [done|].
  case_if; [intros [= <-]; auto|]. case_if.
  { intros [? Hs]%IH. set_solver. }
  case_if; [|intros [? Hs]%IH; set_solver].
  intros [= <-]. split; [done|]. right. exists sc. set_solver.
Qed.

(** What the checks establish when they all pass. *)
Definition passes (now : Z) (s : limitStore) (sc : admissionScope) : Prop :=
  (counts sc = true → count s (key sc) < MaxConcurrent (limits sc)) ∧
  (f64_le (rate sc) f64_zero = false → f64_lt (tokens (refill now s sc)) f64_one = false).

Lemma admit_check_passed now s scopes states0 states :
  admit_check now s scopes states0 = inr states → ∀ sc, sc ∈ scopes → passes now s sc.
Proof.
  revert states0. induction scopes as [|sc rest IH]; intros states0; simpl; [set_solver|].
  destruct (counts sc && _) eqn:Ec; [done|].
  assert (Hc : counts sc = true → count s (key sc) < MaxConcurrent (limits sc)).
  { intros Hcs. rewrite Hcs in Ec. unfold count. simpl in Ec. bool_to_prop. done. }
  destruct (f64_le _ _) eqn:Er.
  { intros Hrec sc' [->|Hin]%elem_of_cons; [|eauto]. split; [done|congruence]. }
  destruct (f64_lt _ _) eqn:Et; [done|].
  intros Hrec sc' [->|Hin]%elem_of_cons; [|eauto]. by split.
Qed.

(** The converse: when every scope passes, the request is admitted. *)
Lemma admit_check_complete now s scopes states0 :
  (∀ sc, sc ∈ scopes → passes now s sc) → ∃ states, admit_check now s scopes states0 = inr states.
Proof.
  revert states0. induction scopes as [|sc rest IH]; intros states0 Hp; simpl; [eauto|].
  destruct (Hp sc ltac:(set_solver)) as [Hc Ht].
  replace (counts sc && _) with false.
  2:{ symmetry. destruct (counts sc); simpl; [|done]. apply Z.leb_gt. by apply Hc. }
  destruct (f64_le _ _); [apply IH; set_solver|].
  rewrite Ht by done. apply IH; set_solver.
Qed.

Lemma admit_check_states now s scopes states0 states k :
  admit_check now s scopes states0 = inr states → NoDup (key <$> scopes) →
  states !! k =
    match list_find (λ sc, key sc = k ∧ f64_le (rate sc) f64_zero = false) scopes with
    | Some (_, sc) => Some (refill now s sc)
    | None => states0 !! k
    end.
Proof.
  revert states0. induction scopes as [|sc rest IH]; intros states0; [by intros [= <-]|].
  rewrite fmap_cons, NoDup_cons. cbn [admit_check]. intros Hck [Hnotin Hnd].
  destruct (counts sc && _); [done|].
  assert (Hfind : key sc = k →
    list_find (λ sc0, key sc0 = k ∧ f64_le (rate sc0) f64_zero = false) rest = None).
  { intros <-. apply list_find_None, Forall_forall. intros sc' Hin [Hk _].
    apply Hnotin. rewrite <- Hk. apply list_elem_of_fmap. eauto. }
  cbn [list_find]. destruct (f64_le (rate sc) f64_zero) eqn:Er.
  - rewrite decide_False by naive_solver. rewrite (IH states0) by done.
    by destruct (list_find _ rest) as [[]|].
  - destruct (f64_lt _ _); [done|]. specialize (IH _ Hck Hnd). rewrite IH.
    destruct (decide (key sc = k)) as [Hk|Hk].
    + rewrite decide_True by done. rewrite Hfind by done. subst k. by rewrite lookup_insert_eq.
    + rewrite decide_False by naive_solver.
      destruct (list_find _ rest) as [[]|]; simpl; [done|]. by rewrite lookup_insert_ne.
Qed.

Lemma consume_count states s sc k :
  (counts sc = true → in_int64 (count s (key sc) + 1)) →
  count (consume states s sc) k
  = count s k + (if bool_decide (key sc = k) && counts sc then 1 else 0).
Proof.
  intros Hr. unfold count, consume in *. simpl.
  destruct (counts sc); [|by rewrite andb_false_r, Z.add_0_r].
  rewrite andb_true_r. case_bool_decide as Hk.
  - subst. rewrite map_get_insert. by apply int64_id, Hr.
  - rewrite map_get_insert_ne by done. lia.
Qed.

Lemma consume_count_ne states s sc k : key sc ≠ k → count (consume states s sc) k = count s k.
Proof.
  intros Hk. unfold count, consume. simpl. destruct (counts sc); [|done].
  by rewrite map_get_insert_ne.
Qed.

Lemma foldl_consume_count states s scopes k :
  NoDup (key <$> scopes) →
  (∀ sc, sc ∈ scopes → counts sc = true → in_int64 (count s (key sc) + 1)) →
  count (foldl (consume states) s scopes) k = count s k + holds k scopes.
Proof.
  revert s. induction scopes as [|sc rest IH]; intros s; [unfold holds; simpl; lia|].
  rewrite fmap_cons, NoDup_cons. intros [Hnotin Hnd] Hr. cbn [foldl]. rewrite IH; [|done|].
  - rewrite consume_count, holds_cons by (apply Hr; set_solver). lia.
  - intros sc' Hin. rewrite consume_count_ne; [apply Hr; set_solver|].
    intros Hk. apply Hnotin. rewrite Hk. apply list_elem_of_fmap. eauto.
Qed.

Lemma admit_in_range now scopes s states hs sc :
  scopes_wf scopes → limit_inv s hs → admit_check now s scopes ∅ = inr states →
  sc ∈ scopes → counts sc = true → in_int64 (count s (key sc) + 1).
Proof.
  intros [_ Hrange] Hinv Hck Hin Hcs.
  destruct (admit_check_passed _ _ _ _ _ Hck sc Hin) as [Hlt _]. specialize (Hlt Hcs).
  pose proof (limit_inv_count_nonneg s hs (key sc) Hinv).
  rewrite Forall_forall in Hrange. specialize (Hrange sc Hin).
  unfold in_int64, MinInt64, MaxInt64 in *. lia.
Qed.

(** A successful admission adds the scopes to the counters. *)
Lemma admit_count now scopes s s' hs k :
  scopes_wf scopes → limit_inv s hs → limitStore_admit now scopes s = (s', true) →
  count s' k = count s k + holds k scopes.
Proof.
  intros Hwf Hinv Hadm. unfold limitStore_admit in Hadm.
  destruct (admit_check now s scopes ∅) as [|states] eqn:Eck; [done|]. injection Hadm as <-.
  apply foldl_consume_count; [apply Hwf|]. intros sc. eapply admit_in_range; eauto.
Qed.

(** Releasing the scopes subtracts them again, provided they are held. *)
Lemma release_one_count s sc k :
  (counts sc = true → 0 < count s (key sc) ≤ MaxInt64) →
  count (release_one s sc) k
  = count s k - (if bool_decide (key sc = k) && counts sc then 1 else 0).
Proof.
  intros Hr. unfold release_one. fold (count s (key sc)).
  destruct (counts sc); simpl; [|rewrite andb_false_r; lia].
  destruct (Hr eq_refl) as [Hpos Hmax].
  rewrite (proj2 (Z.ltb_lt _ _) Hpos). rewrite int64_id by (unfold in_int64, MinInt64, MaxInt64 in *; lia).
  rewrite andb_true_r. unfold count in *. cbn [concurrent].
  destruct (map_get 0 (concurrent s) (key sc) - 1 =? 0) eqn:E; bool_to_prop;
    case_bool_decide; subst; autorewrite with go_rw; lia.
Qed.

Lemma release_count s scopes k :
  (∀ k, holds k scopes ≤ count s k ≤ MaxInt64) →
  count (release scopes s) k = count s k - holds k scopes.
Proof.
  unfold release. revert s. induction scopes as [|sc rest IH]; intros s Hle.
  { unfold holds. simpl. lia. }
  cbn [foldl]. rewrite holds_cons.
  assert (Hone : ∀ k, count (release_one s sc) k
    = count s k - (if bool_decide (key sc = k) && counts sc then 1 else 0)).
  { intros k'. apply release_one_count. intros Hcs. specialize (Hle (key sc)).
    rewrite holds_cons, bool_decide_eq_true_2, Hcs in Hle by done. simpl in Hle.
    pose proof (holds_nonneg (key sc) rest). lia. }
  rewrite IH, Hone; [lia|]. intros k'. rewrite Hone.
  specialize (Hle k'). rewrite holds_cons in Hle. destruct (_ && _); lia.
Qed.

(** *** No zero counter is stored *)
Lemma count_pos_stored s k : positive_counts s → count s k = 0 → concurrent s !! k = None.
Proof.
  unfold count, map_get. intros Hpos Hz. destruct (concurrent s !! k) as [c|] eqn:E; [|done].
  specialize (Hpos k c E). simpl in Hz. lia.
Qed.

Lemma consume_positive states s sc :
  (counts sc = true → in_int64 (count s (key sc) + 1)) →
  0 ≤ count s (key sc) → positive_counts s → positive_counts (consume states s sc).
Proof.
  intros Hr Hc Hpos k c. unfold consume. simpl. destruct (counts sc); [|apply Hpos].
  rewrite lookup_insert_Some. intros [[<- <-]|[_ Hk]]; [|eauto].
  change (map_get 0 _ _) with (count s (key sc)). rewrite int64_id by auto. lia.
Qed.

Lemma foldl_consume_positive states s scopes :
  NoDup (key <$> scopes) →
  (∀ sc, sc ∈ scopes → counts sc = true → in_int64 (count s (key sc) + 1)) →
  (∀ k, 0 ≤ count s k) → positive_counts s → positive_counts (foldl (consume states) s scopes).
Proof.
  revert s. induction scopes as [|sc rest IH]; intros s; [done|].
  rewrite fmap_cons, NoDup_cons. intros [Hnotin Hnd] Hr Hc Hpos. cbn [foldl].
  apply IH; [done| | |].
  - intros sc' Hin. rewrite consume_count_ne; [apply Hr; set_solver|].
    intros Hk. apply Hnotin. rewrite Hk. apply list_elem_of_fmap. eauto.
  - intros k. rewrite consume_count by (apply Hr; set_solver). specialize (Hc k). case_if; lia.
  - apply consume_positive; [apply Hr; set_solver|done|done].
Qed.

Lemma release_one_positive s sc :
  positive_counts s → (∀ k, count s k ≤ MaxInt64) → positive_counts (release_one s sc).
Proof.
  intros Hpos Hmax k c. unfold release_one. fold (count s (key sc)).
  destruct (counts sc && _) eqn:E; [|apply Hpos]. bool_to_prop. specialize (Hmax (key sc)).
  rewrite int64_id by (unfold in_int64, MinInt64, MaxInt64 in *; lia). cbn [concurrent].
  destruct (_ =? 0) eqn:Ez; bool_to_prop.
  - rewrite lookup_delete_Some. intros [_ Hk]. eauto.
  - rewrite lookup_insert_Some. intros [[<- <-]|[_ Hk]]; [lia|eauto].
Qed.

Lemma release_one_le s sc k : (∀ k, count s k ≤ MaxInt64) → count (release_one s sc) k ≤ MaxInt64.
Proof.
  intros Hmax. destruct (decide (counts sc = true → 0 < count s (key sc))) as [Hd|Hd].
  - rewrite release_one_count by (intros Hcs; split; auto). specialize (Hmax k). case_if; lia.
  - unfold release_one. fold (count s (key sc)). destruct (counts sc); [|done]. simpl.
    destruct (0 <? count s (key sc)) eqn:E; [|done]. exfalso. bool_to_prop. auto.
Qed.

Lemma release_positive s scopes :
  positive_counts s → (∀ k, count s k ≤ MaxInt64) → positive_counts (release scopes s).
Proof.
  unfold release. revert s. induction scopes as [|sc rest IH]; intros s Hpos Hmax; [done|].
  cbn [foldl]. apply IH; [by apply release_one_positive|].
  intros k. by apply release_one_le.
Qed.

(** *** The invariant *)

Lemma limit_inv_init : limit_inv newLimitStore [].
Proof. by split_and!. Qed.

Lemma limit_inv_admit now scopes s s' hs :
  scopes_wf scopes → limit_inv s hs → limitStore_admit now scopes s = (s', true) → limit_inv s' (scopes :: hs).
Proof.
  intros Hwf Hinv Hadm.
  assert (Hcount : ∀ k, count s' k = count s k + holds k scopes) by (intros; by eapply admit_count).
  assert (Hnn : ∀ k, 0 ≤ count s k) by (intros; by eapply limit_inv_count_nonneg).
  unfold limitStore_admit in Hadm. destruct (admit_check now s scopes ∅) as [|states] eqn:Eck; [done|].
  injection Hadm as <-.
  assert (Hrange : ∀ sc, sc ∈ scopes → counts sc = true → in_int64 (count s (key sc) + 1))
    by (intros sc; by eapply admit_in_range).
  destruct Hinv as (Hc & Hpos & Hmax). split_and!.
  - intros k. rewrite Hcount, Hc, sumZ_cons. lia.
  - apply foldl_consume_positive; [apply Hwf|done..].
  - intros k. rewrite Hcount.
    destruct (decide (holds k scopes = 0)) as [->|Hh]; [rewrite Z.add_0_r; apply Hmax|].
    destruct (holds_witness k scopes) as (sc & Hin & <- & Hcs & Hle); [done|apply Hwf|].
    specialize (Hrange sc Hin Hcs).
    unfold in_int64, MaxInt64 in *. lia.
Qed.

Lemma limit_inv_reject now scopes s s' hs :
  limit_inv s hs → limitStore_admit now scopes s = (s', false) → limit_inv s' hs.
Proof.
  intros Hinv Hadm. unfold limitStore_admit in Hadm.
  destruct (admit_check now s scopes ∅) as [s1|states] eqn:Eck; [|done]. injection Hadm as ->.
  apply admit_check_rejected in Eck as [Hc _]. unfold limit_inv, count, positive_counts. by rewrite Hc.
Qed.

Lemma limit_inv_release s h1 scopes h2 :
  limit_inv s (h1 ++ scopes :: h2) → limit_inv (release scopes s) (h1 ++ h2).
Proof.
  intros (Hc & Hpos & Hmax).
  assert (Hle : ∀ k, holds k scopes ≤ count s k ≤ MaxInt64).
  { intros k. split; [|done]. rewrite Hc, sumZ_app, sumZ_cons.
    pose proof (total_holds_nonneg k h1). pose proof (total_holds_nonneg k h2). lia. }
  split_and!.
  - intros k. rewrite release_count, Hc, !sumZ_app, sumZ_cons by done. lia.
  - by apply release_positive.
  - intros k. rewrite release_count by done. pose proof (holds_nonneg k scopes).
    specialize (Hmax k). lia.
Qed.

Lemma limit_inv_step allowed st st' :
  limit_inv (store st) (held st) → limit_step allowed st st' → limit_inv (store st') (held st').
Proof.
  intros Hinv Hstep. destruct Hstep; simpl in *.
  - by eapply limit_inv_admit.
  - by eapply limit_inv_reject.
  - by apply limit_inv_release.
  - done.
Qed.

Lemma limit_reachable_inv allowed st : limit_reachable allowed st → limit_inv (store st) (held st).
Proof.
  unfold limit_reachable. intros Hr. revert Hr. generalize limit_inv_init.
  change newLimitStore with (store limit_init) at 1. change [] with (held limit_init) at 1.
  intros Hi Hr. induction Hr as [|x y z Hxy _ IH]; [done|].
  apply IH. by eapply limit_inv_step.
Qed.

(** *** The bound on the holders of a key *)
Definition under (bound : string → Z) (sc : admissionScope) : Prop :=
  MaxConcurrent (limits sc) ≤ bound (key sc).

Lemma admit_under bound now scopes s s' hs k :
  scopes_wf scopes → Forall (under bound) scopes → limit_inv s hs →
  limitStore_admit now scopes s = (s', true) → count s k ≤ Z.max 0 (bound k) → count s' k ≤ Z.max 0 (bound k).
Proof.
  intros Hwf Hunder Hinv Hadm Hle. rewrite (admit_count now scopes s s' hs) by done.
  destruct (decide (holds k scopes = 0)) as [->|Hh]; [lia|].
  destruct (holds_witness k scopes) as (sc & Hin & <- & Hcs & ->); [done|apply Hwf|].
  unfold limitStore_admit in Hadm. destruct (admit_check now s scopes ∅) as [|states] eqn:Eck; [done|].
  destruct (admit_check_passed _ _ _ _ _ Eck sc Hin) as [Hlt _]. specialize (Hlt Hcs).
  rewrite Forall_forall in Hunder. specialize (Hunder sc Hin). unfold under in Hunder. lia.
Qed.

Lemma limit_reachable_under bound st k :
  limit_reachable (under bound) st → count (store st) k ≤ Z.max 0 (bound k).
Proof.
  intros Hr. cut (limit_inv (store st) (held st) ∧ count (store st) k ≤ Z.max 0 (bound k)).
  { by intros [_ ?]. }
  assert (Hi : limit_inv (store limit_init) (held limit_init)
               ∧ count (store limit_init) k ≤ Z.max 0 (bound k)).
  { split; [apply limit_inv_init|]. unfold count. simpl. rewrite map_get_empty. lia. }
  revert Hi. induction Hr as [st|st1 st2 st3 Hstep _ IH]; [done|]. intros [Hinv Hle]. apply IH.
  split; [by eapply limit_inv_step|]. clear IH.
  destruct Hstep as [now scopes s s' hs Hwf Hun Hadm|now scopes s s' hs Hwf Hadm|scopes s h1 h2|];
    simpl in *; [by eapply admit_under| | |done].
  - unfold limitStore_admit in Hadm. destruct (admit_check now s scopes ∅) as [s1|] eqn:Eck; [|done].
    injection Hadm as ->. apply admit_check_rejected in Eck as [Hc _].
    unfold count in *. by rewrite Hc.
  - destruct Hinv as (Hc & _ & Hmax). rewrite release_count.
    + pose proof (holds_nonneg k scopes). lia.
    + intros k'. split; [|done]. rewrite Hc, sumZ_app, sumZ_cons.
      pose proof (total_holds_nonneg k' h1). pose proof (total_holds_nonneg k' h2). lia.
Qed.

(** *** Rates *)

Lemma rate_positive_checked sc :
  f64_lt f64_zero (rate sc) = true → f64_le (rate sc) f64_zero = false.
Proof. by destruct (rate sc) as [[]|[]| |[]]. Qed.

Lemma foldl_consume_bucket_other states s scopes k :
  (∀ sc, sc ∈ scopes → key sc = k → f64_lt f64_zero (rate sc) = false) →
  buckets (foldl (consume states) s scopes) !! k = buckets s !! k.
Proof.
  revert s. induction scopes as [|sc rest IH]; intros s Hno; [done|]. cbn [foldl].
  rewrite IH by set_solver. unfold consume. simpl.
  destruct (f64_lt f64_zero (rate sc)) eqn:Er; [|done].
  apply lookup_insert_ne. intros Hk. rewrite (Hno sc) in Er; [done|set_solver|done].
Qed.

Lemma foldl_consume_bucket states s scopes sc :
  NoDup (key <$> scopes) → sc ∈ scopes → f64_lt f64_zero (rate sc) = true →
  buckets (foldl (consume states) s scopes) !! key sc
  = Some (let b := map_get zero_bucket states (key sc) in
          mkBucket (f64_sub (tokens b) f64_one) (updated b)).
Proof.
  revert s. induction scopes as [|sc' rest IH]; intros s; [set_solver|].
  rewrite fmap_cons, NoDup_cons. intros [Hnotin Hnd] [->|Hin]%elem_of_cons Hr; cbn [foldl]; [|eauto].
  rewrite foldl_consume_bucket_other.
  - unfold consume. simpl. rewrite Hr. by rewrite lookup_insert_eq.
  - intros sc Hin Hk. exfalso. apply Hnotin. rewrite <- Hk. apply list_elem_of_fmap. eauto.
Qed.

Lemma admit_bucket now scopes s s' sc :
  NoDup (key <$> scopes) → limitStore_admit now scopes s = (s', true) → sc ∈ scopes →
  f64_lt f64_zero (rate sc) = true →
  buckets s' !! key sc
  = Some (mkBucket (f64_sub (tokens (refill now s sc)) f64_one) (updated (refill now s sc))).
Proof.
  intros Hnd Hadm Hin Hr. unfold limitStore_admit in Hadm.
  destruct (admit_check now s scopes ∅) as [|states] eqn:Eck; [done|]. injection Hadm as <-.
  rewrite foldl_consume_bucket by done. unfold map_get.
  rewrite (admit_check_states now s scopes ∅ states (key sc) Eck Hnd).
  destruct (list_find_elem_of (λ sc0, key sc0 = key sc ∧ f64_le (rate sc0) f64_zero = false) scopes sc)
    as [[i sc1] Hf]; [done|split; [done|by apply rate_positive_checked]|].
  rewrite Hf. apply list_find_Some in Hf as (Hi & [Hk _] & _).
  assert (sc1 = sc) as ->; [|done].
  apply list_elem_of_lookup in Hin as [j Hj].
  assert (i = j) as ->; [|congruence].
  eapply (NoDup_lookup (key <$> scopes)); [done| |];
    rewrite list_lookup_fmap; [by rewrite Hi|by rewrite Hj, Hk].
Qed.

(** One scope without a concurrency limit, with tokens left or not. *)
Lemma admit_one now sc s :
  counts sc = false → f64_lt f64_zero (rate sc) = true →
  limitStore_admit now [sc] s =
    let st := refill now s sc in
    if f64_lt (tokens st) f64_one
    then (mkLimitStore (<[key sc := st]> (buckets s)) (concurrent s), false)
    else (mkLimitStore (<[key sc := mkBucket (f64_sub (tokens st) f64_one) (updated st)]> (buckets s))
            (concurrent s), true).
Proof.
  intros Hc Hr. unfold limitStore_admit. cbn [admit_check]. rewrite Hc, rate_positive_checked by done. simpl.
  destruct (f64_lt (tokens (refill now s sc)) f64_one); [done|].
  unfold consume. simpl. rewrite Hc, Hr. unfold map_get. by rewrite lookup_insert_eq.
Qed.

Lemma refill_same_instant now s sc j :
  0 ≤ j ≤ Burst (limits sc) → Burst (limits sc) < 2 ^ 53 → f64_pos_finite (rate sc) = true →
  buckets s !! key sc = Some (mkBucket (f64_of_Z j) now) →
  refill now s sc = mkBucket (f64_of_Z j) now.
Proof.
  intros Hj Hb Hr Hs. unfold refill. rewrite Hs. cbn [tokens updated].
  replace (time_Sub now now) with 0
    by (unfold time_Sub, MinInt64, MaxInt64; rewrite Z.sub_diag; lia).
  rewrite f64_refill_zero by (done || lia). by rewrite f64_of_Z_not_lt by lia.
Qed.

Lemma f64_pos_finite_lt x : f64_pos_finite x = true → f64_lt f64_zero x = true.
Proof. by destruct x as [| | |[]]. Qed.

Lemma admit_many_bucket now sc n s j :
  counts sc = false → f64_pos_finite (rate sc) = true →
  0 ≤ j ≤ Burst (limits sc) → Burst (limits sc) < 2 ^ 53 →
  refill now s sc = mkBucket (f64_of_Z j) now →
  admit_many now sc n s
  = repeat true (min n (Z.to_nat j)) ++ repeat false (n - min n (Z.to_nat j)).
Proof.
  intros Hc Hr. revert s j. induction n as [|n IH]; intros s j Hj Hb Hs; [done|].
  cbn [admit_many]. rewrite admit_one by eauto using f64_pos_finite_lt.
  cbv zeta. rewrite Hs. cbn [tokens updated]. rewrite f64_of_Z_lt_one by lia.
  destruct (j <? 1) eqn:Ej; bool_to_prop.
  - rewrite (IH _ j); [|done|done|].
    + replace j with 0 by lia. simpl. by rewrite !Nat.min_0_r, !Nat.sub_0_r.
    + apply refill_same_instant; [lia|done|done|]. simpl. by rewrite lookup_insert_eq.
  - rewrite f64_of_Z_pred by lia. rewrite (IH _ (j - 1)); [|lia|done|].
    + replace (Z.to_nat j) with (S (Z.to_nat (j - 1))) by lia. done.
    + apply refill_same_instant; [lia|done|done|]. simpl. by rewrite lookup_insert_eq.
Qed.

(** ** Properties *)

(** A request is admitted exactly when every one of its scopes passes: its
    concurrency counter is below its limit and, if it is rate limited, its
    refreshed bucket holds at least one token. *)
Lemma admit_iff_passes now scopes s :
  (limitStore_admit now scopes s).2 = true ↔ ∀ sc, sc ∈ scopes → passes now s sc.
Proof.
  unfold limitStore_admit. split.
  - destruct (admit_check now s scopes ∅) eqn:E; [done|]. intros _. by eapply admit_check_passed.
  - intros Hp. by destruct (admit_check_complete now s scopes ∅ Hp) as [states ->].
Qed.


Definition example_scope (max : Z) : admissionScope :=
  mkScope "client:key:00" (mkLimits (f64_of_Z 120) 10 max).


(** In every reachable state, whatever the interleaving of admissions,
    rejections, releases and reloads, the counter of a key is exactly the
    number of admitted requests that hold it; once every request has released,
    no counter is left behind. *)
Theorem concurrency_accounting allowed st :
  limit_reachable allowed st →
  (∀ k, count (store st) k = sumZ (holds k) (held st)) ∧
  (held st = [] → concurrent (store st) = ∅).
Proof.
  intros (Hc & Hpos & _)%limit_reachable_inv. split; [done|]. intros Hnil.
  apply map_eq. intros k. rewrite lookup_empty. apply count_pos_stored; [done|].
  rewrite Hc, Hnil. done.
Qed.

Lemma example_admitted :
  limit_step (λ _, True) limit_init
    (mkLimitSystem (limitStore_admit 0 [example_scope 4] newLimitStore).1 [[example_scope 4]]).
Proof. apply (step_admit _ 0); [by apply (bool_decide_unpack _)|by repeat constructor|reflexivity]. Qed.

Lemma concurrency_accounting_witness :
  concurrent (release [example_scope 4] (limitStore_admit 0 [example_scope 4] newLimitStore).1) = ∅.
Proof.
  apply (concurrency_accounting (λ _, True)
    (mkLimitSystem (release [example_scope 4] (limitStore_admit 0 [example_scope 4] newLimitStore).1) [])).
  - eapply rtc_l; [apply example_admitted|]. apply rtc_once. apply (step_release _ [example_scope 4] _ []).
  - reflexivity.
Defined.

(** The number of admitted requests that hold a key never exceeds the
    largest limit that was configured for it, in every reachable state and
    across reloads that change the limits. *)
Theorem concurrency_limit_respected bound st k :
  limit_reachable (under bound) st → sumZ (holds k) (held st) ≤ Z.max 0 (bound k).
Proof.
  intros Hr. pose proof (limit_reachable_under bound st k Hr).
  destruct (limit_reachable_inv _ _ Hr) as [Hc _]. by rewrite <- Hc.
Qed.

Lemma concurrency_limit_respected_witness :
  sumZ (holds "client:key:00") [[example_scope 4]] ≤ 4.
Proof.
  apply (concurrency_limit_respected (λ _, 4)
    (mkLimitSystem (limitStore_admit 0 [example_scope 4] newLimitStore).1 [[example_scope 4]])).
  apply rtc_once. apply (step_admit _ 0); [by apply (bool_decide_unpack _)| |reflexivity].
  apply Forall_singleton. unfold under. simpl. lia.
Defined.

(** C21: at one clock reading a fresh bucket admits exactly [Burst] requests
    and refuses every later one.  The token arithmetic is that of binary64:
    the property rests on its exactness for integers below [2^53]. *)
Theorem burst_exact now sc n s :
  buckets s !! key sc = None → counts sc = false → f64_pos_finite (rate sc) = true →
  0 ≤ Burst (limits sc) < 2 ^ 53 →
  admit_many now sc n s
  = repeat true (min n (Z.to_nat (Burst (limits sc))))
    ++ repeat false (n - min n (Z.to_nat (Burst (limits sc)))).
Proof.
  intros Hs Hc Hr Hb. apply admit_many_bucket; [done|done|lia|lia|].
  unfold refill. by rewrite Hs.
Qed.

Lemma burst_exact_witness :
  admit_many 0 (example_scope 0) 12 newLimitStore = repeat true 10 ++ repeat false 2.
Proof. apply (burst_exact 0 (example_scope 0) 12 newLimitStore); vm_compute; by split_and?. Defined.

(** Nothing is less than one, or than the burst, once a NaN is added. *)
Lemma nan_tokens t m maximum :
  f64_lt (if f64_lt maximum (f64_add t (f64_mul m S754_nan)) then maximum else f64_add t (f64_mul m S754_nan)) f64_one = false.
Proof.
  assert (f64_mul m S754_nan = S754_nan) as -> by by destruct m.
  assert (f64_add t S754_nan = S754_nan) as -> by by destruct t. by destruct maximum.
Qed.

(** C40: A NaN rate passes the validation of the limits and switches the rate
    limit off.  At any time, a scope with such a rate is decided by its
    concurrency limit alone and no use of the rate is recorded; only the first
    request of a key with a burst of zero (which is what a NaN rate leaves the
    burst at when the file does not set it) is refused.  That refusal records a
    bucket, so the requests after it are admitted. *)
Theorem nan_rate_unlimited l now s k :
  RequestsPerMinute l = S754_nan → 0 ≤ Burst l < 2 ^ 53 → 0 ≤ MaxConcurrent l →
  Limits_validate l k = None ∧
  limitStore_admit now [mkScope k l] s
  = let active := map_get 0 (concurrent s) k in
    if (0 <? MaxConcurrent l) && (MaxConcurrent l <=? active) then (s, false)
    else if bool_decide (buckets s !! k = None) && (Burst l =? 0)
    then (mkLimitStore (<[k := mkBucket (f64_of_Z 0) now]> (buckets s)) (concurrent s), false)
    else (mkLimitStore (buckets s) (if 0 <? MaxConcurrent l then <[k := int64 (active + 1)]> (concurrent s) else concurrent s), true).
Proof.
  intros Hr Hb Hm. split.
  - apply Limits_validate_None. unfold limits_ok. rewrite Hr. by split_and!; [|lia|lia|].
  - unfold limitStore_admit. cbn [admit_check]. unfold counts. cbn [limits key]. cbv zeta.
    destruct (_ && (_ <=? _)); [done|]. unfold rate. cbn [limits]. rewrite Hr. cbn [f64_le SFleb SFcompare].
    assert (Hafter : ∀ sts, foldl (consume sts) s [mkScope k l]
      = mkLimitStore (buckets s) (if 0 <? MaxConcurrent l then <[k := int64 (map_get 0 (concurrent s) k + 1)]> (concurrent s) else concurrent s)).
    { intros sts. cbn [foldl]. unfold consume, rate, counts. cbn [limits key]. by rewrite Hr. }
    change (f64_le S754_nan f64_zero) with false. cbv iota.
    unfold refill. cbn [limits key]. destruct (buckets s !! k) as [b|] eqn:Ek; cbn [tokens].
    + unfold rate. cbn [limits]. rewrite Hr, nan_tokens. by rewrite bool_decide_eq_false_2, Hafter.
    + rewrite f64_of_Z_lt_one by lia. rewrite bool_decide_eq_true_2 by done. cbn [andb].
      destruct (Z.ltb_spec (Burst l) 1), (Z.eqb_spec (Burst l) 0); try lia; [|by rewrite Hafter].
      by replace (Burst l) with 0 by lia.
Qed.

(** With a burst and without one, for a new key and for a known one. *)
Lemma nan_rate_unlimited_witness :
  limitStore_admit 0 [mkScope "client:x" (mkLimits S754_nan 5 0)] newLimitStore = (newLimitStore, true) ∧
  let refused := mkLimitStore {[ "client:x" := mkBucket (f64_of_Z 0) 0 ]} ∅ in
  limitStore_admit 0 [mkScope "client:x" (mkLimits S754_nan 0 0)] newLimitStore = (refused, false) ∧
  limitStore_admit 7 [mkScope "client:x" (mkLimits S754_nan 0 0)] refused = (refused, true).
Proof.
  split; [|split].
  - destruct (nan_rate_unlimited (mkLimits S754_nan 5 0) 0 newLimitStore "client:x") as [_ ->]; done.
  - destruct (nan_rate_unlimited (mkLimits S754_nan 0 0) 0 newLimitStore "client:x") as [_ ->]; done.
  - destruct (nan_rate_unlimited (mkLimits S754_nan 0 0) 7 (mkLimitStore {[ "client:x" := mkBucket (f64_of_Z 0) 0 ]} ∅)
      "client:x") as [_ ->]; done.
Defined.
