(* ===== verification/Rates.v ===== *)
(** * What a rate limit bounds ([internal/gateway/limiter.go])

    The token buckets of [Limiter] over time: in any window between two
    reloads, the requests granted to a scope are bounded by its burst and its
    rate, with the rounding of [float64] accounted for. *)

From Stdlib Require Import ZArith Lia Reals Lra SpecFloat.
From S2P Require Import Prelude Float64 FloatBounds Value Config Limiter.

Local Open Scope R_scope.

(** ** Histories of one store *)

(** The calls between two reloads: admissions with their clock readings, and
    releases. *)
Inductive event :=
  | Admit (now : Z) (scopes : list admissionScope)
  | Release (scopes : list admissionScope).

Definition event_run (e : event) (s : limitStore) : limitStore :=
  match e with
  | Admit now scopes => (limitStore_admit now scopes s).1
  | Release scopes => release scopes s
  end.

(** Whether the event grants a request to the key. *)
Definition grants (k : string) (e : event) (s : limitStore) : Z :=
  match e with
  | Admit now scopes => if (limitStore_admit now scopes s).2 && bool_decide (k ∈ key <$> scopes) then 1 else 0
  | Release _ => 0
  end.

Definition history_run (es : list event) (s : limitStore) : limitStore := foldl (λ s e, event_run e s) s es.

Fixpoint granted (k : string) (es : list event) (s : limitStore) : Z :=
  match es with
  | [] => 0
  | e :: es => grants k e s + granted k es (event_run e s)
  end.

(** The clock readings do not go backwards and lie between [a] and [b]. *)
Fixpoint ordered (a : Z) (es : list event) (b : Z) : Prop :=
  match es with
  | [] => (a ≤ b)%Z
  | Admit now _ :: es => (a ≤ now)%Z ∧ ordered now es b
  | Release _ :: es => ordered a es b
  end.

(** Requests present a key with the limits of the scope, and once. *)
Definition presents (sc : admissionScope) (e : event) : Prop :=
  match e with
  | Admit _ scopes => NoDup (key <$> scopes) ∧ ∀ sc', sc' ∈ scopes → key sc' = key sc → sc' = sc
  | Release _ => True
  end.

(** ** One bucket *)

Section Bucket.
Context (sc : admissionScope).
Context (Hrate : nonneg (rate sc)) (Hpos : f64_pos_finite (rate sc) = true) (HB : (1 ≤ Burst (limits sc) < 2 ^ 50)%Z).

Definition burst : R := IZR (Burst (limits sc)).

(** What the exact rate adds in [d] nanoseconds, with the relative error of
    the multiplication and of the conversion to minutes. *)
Definition gain (d : Z) : R := fval (rate sc) * real_minutes d * (1 + 8 * pow2 (-52)).

(** The absolute error of one call. *)
Definition slack : R := 4 * pow2 (-52) * burst.

Lemma burst_ge_1 : 1 <= burst.
Proof. apply IZR_le. lia. Qed.

Lemma burst_small : burst <= pow2 50.
Proof. rewrite pow2_IZR by lia. apply IZR_le. lia. Qed.

Lemma burst_exact_value : nonneg (f64_of_Z (Burst (limits sc))) ∧ fval (f64_of_Z (Burst (limits sc))) = burst.
Proof. apply of_Z_exact. lia. Qed.

Lemma real_minutes_add a b : real_minutes (a + b) = real_minutes a + real_minutes b.
Proof. unfold real_minutes. rewrite plus_IZR. unfold Rdiv. ring. Qed.

Lemma real_minutes_mono a b : (a ≤ b)%Z → real_minutes a <= real_minutes b.
Proof.
  intros H%IZR_le. unfold real_minutes, Rdiv. apply Rmult_le_compat_r; [|done].
  apply Rlt_le, Rinv_0_lt_compat, IZR_lt. done.
Qed.

Lemma gain_add a b : gain (a + b) = gain a + gain b.
Proof. unfold gain. rewrite real_minutes_add. ring. Qed.

Lemma gain_mono a b : (a ≤ b)%Z → gain a <= gain b.
Proof.
  intros H%real_minutes_mono. unfold gain. pose proof (fval_nonneg _ Hrate) as Hr. pose proof (pow2_pos (-52)).
  apply Rmult_le_compat_r; [lra|]. by apply Rmult_le_compat_l.
Qed.

Lemma gain_nonneg d : (0 ≤ d)%Z → 0 <= gain d.
Proof.
  intros H%gain_mono. replace (gain 0) with 0 in H; [done|]. unfold gain, real_minutes, Rdiv. ring.
Qed.

Lemma multiplied d :
  (0 ≤ d ≤ MaxInt64)%Z → ∃ x, x <= gain d + pow2 (-1074) ∧ 0 <= gain d ∧
    (nonneg (f64_mul (minutes d) (rate sc)) ∧ fval (f64_mul (minutes d) (rate sc)) <= x
     ∨ f64_mul (minutes d) (rate sc) = S754_infinity false ∧ pow2 972 <= x).
Proof.
  intros Hd. destruct (minutes_up d Hd) as [Hn Hv]. exists (up (fval (minutes d) * fval (rate sc))).
  split; [|split; [apply gain_nonneg; lia|by apply mul_up]].
  pose proof (fval_nonneg _ Hrate) as Hr. destruct ulp_small as (Hu & Ht & _). unfold up, gain.
  set (u := pow2 (-52)) in *. set (r := fval (rate sc)) in *. set (rm := real_minutes d) in *.
  assert (Hrm : 0 <= rm) by (unfold rm; apply Rle_trans with (real_minutes 0); [unfold real_minutes, Rdiv; lra|apply real_minutes_mono; lia]).
  apply Rplus_le_compat_r. apply Rle_trans with (rm * (1 + 4 * u) * r * (1 + u)).
  - apply Rmult_le_compat_r; [lra|]. by apply Rmult_le_compat_r.
  - replace (rm * (1 + 4 * u) * r * (1 + u)) with (r * rm * ((1 + 4 * u) * (1 + u))) by ring.
    apply Rmult_le_compat_l; [by apply Rmult_le_pos|]. nra.
Qed.

Lemma f64_lt_infinity x : nonneg x → f64_lt x (S754_infinity false) = true.
Proof. by destruct x as [| | |[]]. Qed.

Lemma f64_add_infinity x : nonneg x → f64_add x (S754_infinity false) = S754_infinity false.
Proof. by destruct x as [| | |[]]. Qed.

(** The cut at the burst. *)
Definition cut_off (x : f64) : f64 :=
  let maximum := f64_of_Z (Burst (limits sc)) in if f64_lt maximum x then maximum else x.

Lemma cut_off_finite x y :
  nonneg x → 0 <= y → fval x <= up y → nonneg (cut_off x) ∧ fval (cut_off x) <= burst ∧ fval (cut_off x) <= y + burst * pow2 (-52) + pow2 (-1074).
Proof.
  intros Hx Hy Hv. destruct burst_exact_value as [Hbn Hbv]. destruct ulp_small as (Hu & Ht & _). unfold up in Hv.
  unfold cut_off. pose proof burst_ge_1. set (u := pow2 (-52)) in *. set (t := pow2 (-1074)) in *.
  assert (Hor : y <= burst ∨ burst <= y) by lra.
  assert (Hyu : y <= burst → y * u <= burst * u) by (intros; apply Rmult_le_compat_r; lra).
  assert (0 <= burst * u) by (apply Rmult_le_pos; lra).
  destruct (f64_lt _ x) eqn:E.
  - apply f64_lt_spec in E; [|done..]. rewrite Hbv in *. split_and!; [done|lra|]. destruct Hor as [Ho|Ho]; [specialize (Hyu Ho)|]; lra.
  - assert (fval x <= burst).
    { destruct (Rle_or_lt (fval x) burst) as [|Hlt]; [done|]. rewrite <- Hbv in Hlt. apply f64_lt_spec in Hlt; congruence. }
    split_and!; [done|done|]. destruct Hor as [Ho|Ho]; [specialize (Hyu Ho)|]; lra.
Qed.

Lemma tiny_burst : 2 * pow2 (-1074) <= burst * pow2 (-52).
Proof.
  destruct ulp_small as (Hu & Hu' & Hut). pose proof burst_ge_1.
  apply Rle_trans with (1 * pow2 (-52)); [|apply Rmult_le_compat_r; lra].
  assert (/ IZR Minute <= 1) by (rewrite <- Rinv_1; apply Rinv_le_contravar; [lra|]; apply IZR_le; unfold Minute; lia).
  assert (pow2 (-52) * / IZR Minute <= pow2 (-52) * 1) by (apply Rmult_le_compat_l; lra). lra.
Qed.

Lemma refilled t d :
  nonneg t → fval t <= burst → (0 ≤ d ≤ MaxInt64)%Z →
  let x := cut_off (f64_add t (f64_mul (minutes d) (rate sc))) in
  nonneg x ∧ fval x <= burst ∧ fval x <= fval t + gain d + slack / 2.
Proof.
  intros Ht Htb Hd x. destruct (multiplied d Hd) as (y & Hy & Hg0 & Hmul). destruct burst_exact_value as [Hbn Hbv].
  destruct ulp_small as (Hu & Hu' & Hut). pose proof (fval_nonneg _ Ht) as Ht0.
  pose proof burst_ge_1. pose proof burst_small as Hbs. pose proof (pow2_mono 51 970 ltac:(lia)) as H51.
  assert (Hp : pow2 51 = 2 * pow2 50 ∧ pow2 972 = 4 * pow2 970 ∧ 1 <= pow2 50).
  { change 51%Z with (1 + 50)%Z. change 972%Z with (2 + 970)%Z. rewrite !pow2_add, !(pow2_IZR 1), !(pow2_IZR 2) by lia.
    split_and!; [done|done|]. apply (pow2_mono 0 50). lia. }
  assert (Hsl : slack / 2 = burst * pow2 (-52) + burst * pow2 (-52)) by (unfold slack; field).
  pose proof tiny_burst as Htb'.
  assert (Hinf : f64_add t (f64_mul (minutes d) (rate sc)) = S754_infinity false → burst <= fval t + gain d + slack / 2 →
    nonneg x ∧ fval x <= burst ∧ fval x <= fval t + gain d + slack / 2).
  { unfold x. intros -> Hle. unfold cut_off. rewrite f64_lt_infinity, Hbv by done. split_and!; [done|lra|done]. }
  destruct Hmul as [[Hgn Hgv]|[Hg Hbig]].
  - pose proof (fval_nonneg _ Hgn) as Hg1. destruct (add_up t _ Ht Hgn) as [[Hxn Hxv]|[Hxi Hbig]].
    + destruct (cut_off_finite _ (fval t + fval (f64_mul (minutes d) (rate sc))) Hxn) as (H1 & H2 & H3); [lra|done|]. fold x in H1, H2, H3. split_and!; [done|done|]. lra.
    + apply Hinf; [done|]. unfold up in Hbig.
      assert ((fval t + fval (f64_mul (minutes d) (rate sc))) * pow2 (-52) <= (fval t + fval (f64_mul (minutes d) (rate sc))) * 1)
        by (apply Rmult_le_compat_l; lra). lra.
  - apply Hinf; [by rewrite Hg, f64_add_infinity|]. lra.
Qed.

(** Taking a token. *)
Lemma taken t :
  nonneg t → fval t <= burst → f64_lt t f64_one = false →
  nonneg (f64_sub t f64_one) ∧ fval (f64_sub t f64_one) <= burst ∧ fval (f64_sub t f64_one) <= fval t - 1 + slack / 2.
Proof.
  intros Ht Htb Hge. destruct (of_Z_exact 1) as [H1n H1v]; [lia|]. change (f64_of_Z 1) with f64_one in *.
  assert (H1 : 1 <= fval t).
  { destruct (Rle_or_lt 1 (fval t)) as [|Hlt]; [done|]. rewrite <- H1v in Hlt. apply f64_lt_spec in Hlt; congruence. }
  pose proof burst_small. pose proof burst_ge_1. destruct ulp_small as (Hu & Hu' & _).
  destruct (no_overflow _ _ (sub_up t f64_one Ht H1n ltac:(lra))) as [Hn Hv].
  { rewrite H1v. apply Rle_trans with (pow2 50); [lra|apply pow2_mono; lia]. }
  rewrite H1v in Hv. unfold up in Hv. pose proof tiny_burst as Htiny.
  assert (Hstep : (fval t - 1) * pow2 (-52) <= burst * pow2 (-52)) by (apply Rmult_le_compat_r; lra).
  assert (Hsl : slack / 2 = burst * pow2 (-52) + burst * pow2 (-52)) by (unfold slack; field).
  assert (Hhalf : burst * pow2 (-52) <= / 4).
  { apply Rle_trans with (pow2 50 * pow2 (-52)); [apply Rmult_le_compat_r; lra|]. rewrite <- pow2_add.
    change (50 + -52)%Z with (- (2))%Z. rewrite pow2_neg, pow2_IZR by lia. change (IZR (2 ^ 2)) with 4. lra. }
  split_and!; [done|lra|lra].
Qed.

(** A bucket as the limiter keeps it, last updated at [a] at the latest. *)
Definition bucket_ok (a : Z) (s : limitStore) : Prop :=
  match buckets s !! key sc with
  | Some b => nonneg (tokens b) ∧ fval (tokens b) <= burst ∧ (updated b ≤ a)%Z
  | None => True
  end.

(** Refreshing a bucket: it holds at most the burst, and what it held before
    plus what the rate has added. *)
Lemma refill_bound a now s :
  bucket_ok a s → (a ≤ now)%Z →
  nonneg (tokens (refill now s sc)) ∧ fval (tokens (refill now s sc)) <= burst ∧ updated (refill now s sc) = now ∧
  ∀ b, buckets s !! key sc = Some b → fval (tokens (refill now s sc)) <= fval (tokens b) + gain (now - updated b) + slack / 2.
Proof.
  unfold bucket_ok, refill. destruct (buckets s !! key sc) as [b|].
  - intros (Hn & Hv & Hu) Ha. cbn [tokens updated].
    destruct (refilled (tokens b) (time_Sub now (updated b)) Hn Hv) as (H1 & H2 & H3);
      [unfold time_Sub, MinInt64, MaxInt64; lia|].
    unfold cut_off in *. split_and!; [done|done|done|]. intros ? [= <-]. eapply Rle_trans; [exact H3|].
    apply Rplus_le_compat_r, Rplus_le_compat_l, gain_mono. unfold time_Sub, MinInt64. lia.
  - intros _ _. cbn [tokens updated]. destruct burst_exact_value as [? Hv]. rewrite Hv. split_and!; [done|lra|done|done].
Qed.

Lemma release_buckets scopes s : buckets (release scopes s) = buckets s.
Proof.
  unfold release. revert s. induction scopes as [|sc' scopes IH]; intros s; [done|]. cbn [foldl]. rewrite IH.
  unfold release_one. by destruct (_ && _).
Qed.

(** What an event does to the bucket. *)
Inductive touch (e : event) (s : limitStore) : Prop :=
  | untouched :
      buckets (event_run e s) !! key sc = buckets s !! key sc → grants (key sc) e s = 0%Z → touch e s
  | refreshed now scopes :
      e = Admit now scopes → buckets (event_run e s) !! key sc = Some (refill now s sc) → grants (key sc) e s = 0%Z → touch e s
  | granted_one now scopes :
      e = Admit now scopes → f64_lt (tokens (refill now s sc)) f64_one = false →
      buckets (event_run e s) !! key sc
        = Some (mkBucket (f64_sub (tokens (refill now s sc)) f64_one) (updated (refill now s sc))) →
      grants (key sc) e s = 1%Z → touch e s.

Lemma event_touch e s : presents sc e → touch e s.
Proof.
  destruct e as [now scopes|scopes]; cbn [presents].
  2:{ intros _. apply untouched; [|done]. cbn [event_run]. by rewrite release_buckets. }
  intros [Hnd Hsame]. destruct (limitStore_admit now scopes s) as [s' ok] eqn:E.
  destruct ok.
  - destruct (decide (key sc ∈ key <$> scopes)) as [Hin|Hout].
    + apply list_elem_of_fmap in Hin as (sc' & Hk & Hin). assert (sc' = sc) as -> by by apply Hsame.
      assert (Hr : f64_lt f64_zero (rate sc) = true) by by apply f64_pos_finite_lt.
      eapply granted_one; [done| | |].
      * pose proof E as Hp. apply (f_equal snd) in Hp. destruct (admit_iff_passes now scopes s) as [Hiff _].
        destruct (Hiff Hp sc Hin) as [_ Hpass]. by apply Hpass, rate_positive_checked.
      * cbn [event_run]. rewrite E. by eapply admit_bucket.
      * cbn [grants]. rewrite E. cbn [snd]. rewrite bool_decide_eq_true_2; [done|]. by apply list_elem_of_fmap_2.
    + apply untouched; cbn [event_run grants]; rewrite E; cbn [fst snd]; [|by rewrite bool_decide_eq_false_2].
      unfold limitStore_admit in E. destruct (admit_check now s scopes ∅) as [|states]; [done|]. injection E as <-.
      apply foldl_consume_bucket_other. intros sc' Hin Hk. destruct Hout. rewrite <- Hk. by apply list_elem_of_fmap_2.
  - unfold limitStore_admit in E. destruct (admit_check now s scopes ∅) as [s1|] eqn:Eck; [|done]. injection E as ->.
    assert (Hadm : limitStore_admit now scopes s = (s', false)) by (unfold limitStore_admit; by rewrite Eck).
    destruct (admit_check_rejected _ _ _ _ _ Eck) as [_ [->|(sc' & Hin & _ & Hb)]].
    + apply untouched; cbn [event_run grants]; by rewrite Hadm.
    + destruct (decide (key sc' = key sc)) as [Hk|Hk].
      * assert (sc' = sc) as -> by by apply Hsame.
        eapply refreshed; [done| |]; cbn [event_run grants]; rewrite Hadm; [|done]. cbn [fst]. by rewrite Hb, lookup_insert_eq.
      * apply untouched; cbn [event_run grants]; rewrite Hadm; [|done]. cbn [fst]. by rewrite Hb, lookup_insert_ne.
Qed.

Definition event_time (a : Z) (e : event) : Z := match e with Admit now _ => now | Release _ => a end.

Lemma ordered_cons a e es b : ordered a (e :: es) b → (a ≤ event_time a e)%Z ∧ ordered (event_time a e) es b.
Proof. destruct e; cbn [ordered event_time]; [done|]. split; [lia|done]. Qed.

Lemma ordered_le a es b : ordered a es b → (a ≤ b)%Z.
Proof. revert a. induction es as [|[now sc'|sc'] es IH]; intros a; cbn [ordered]; [done| |apply IH]. intros [? ?%IH]. lia. Qed.

Lemma slack_nonneg : 0 <= slack.
Proof. unfold slack. pose proof burst_ge_1. pose proof (pow2_pos (-52)). nra. Qed.

Lemma bucket_ok_step a e s : presents sc e → bucket_ok a s → (a ≤ event_time a e)%Z → bucket_ok (event_time a e) (event_run e s).
Proof.
  intros Hp Hok Ha. destruct (event_touch e s Hp) as [Hb _|now scopes -> Hb _|now scopes -> Ht Hb _]; unfold bucket_ok; rewrite Hb.
  - unfold bucket_ok in Hok. destruct (buckets s !! key sc); [|done]. destruct Hok as (? & ? & ?). split_and!; [done|done|lia].
  - destruct (refill_bound a now s Hok Ha) as (H1 & H2 & H3 & _). split_and!; [done|done|]. by rewrite H3.
  - destruct (refill_bound a now s Hok Ha) as (H1 & H2 & H3 & _). destruct (taken _ H1 H2 Ht) as (H4 & H5 & _).
    cbn [tokens updated]. split_and!; [done|done|]. by rewrite H3.
Qed.

Lemma bucket_ok_run a es b s : Forall (presents sc) es → bucket_ok a s → ordered a es b → bucket_ok b (history_run es s).
Proof.
  revert a s. induction es as [|e es IH]; intros a s Hp Hok Ho.
  - cbn in *. unfold bucket_ok in *. destruct (buckets s !! key sc); [|done]. destruct Hok as (? & ? & ?). split_and!; [done|done|lia].
  - apply Forall_cons in Hp as [Hp Hps]. apply ordered_cons in Ho as [Ha Ho].
    apply (IH (event_time a e)); [done| |done]. by apply bucket_ok_step.
Qed.

(** The account of a window that began at [t0]: nothing was granted yet, or what
    was granted and what is left in the bucket came from the burst and the
    rate, up to the rounding of [n] calls. *)
Definition account (t0 : Z) (s : limitStore) (g : Z) (n : nat) : Prop :=
  g = 0%Z ∨ ∃ b, buckets s !! key sc = Some b ∧ (t0 ≤ updated b)%Z ∧
    IZR g + fval (tokens b) <= burst + gain (updated b - t0) + INR n * slack.

(** Untouched windows stay as they are; a touched one continues the account. *)
Lemma account_refill t0 a now s g n :
  bucket_ok a s → (t0 ≤ a ≤ now)%Z → account t0 s g n →
  IZR g + fval (tokens (refill now s sc)) <= burst + gain (now - t0) + INR n * slack + slack / 2.
Proof.
  intros Hok Ha Hacc. destruct (refill_bound a now s Hok) as (_ & H2 & _ & H4); [lia|]. pose proof slack_nonneg as Hsl.
  destruct Hacc as [->|(b & Hb & Hu & Hle)].
  - pose proof (gain_nonneg (now - t0) ltac:(lia)). pose proof (pos_INR n). nra.
  - specialize (H4 b Hb). replace (now - t0)%Z with ((updated b - t0) + (now - updated b))%Z by lia. rewrite gain_add. lra.
Qed.

Lemma account_step t0 a e s g n :
  presents sc e → bucket_ok a s → (t0 ≤ a ≤ event_time a e)%Z → account t0 s g n →
  account t0 (event_run e s) (g + grants (key sc) e s) (S n).
Proof.
  intros Hp Hok Ha Hacc. pose proof slack_nonneg as Hsl. unfold account. rewrite S_INR.
  destruct (event_touch e s Hp) as [Hb ->|now scopes -> Hb ->|now scopes -> Ht Hb ->]; rewrite Hb.
  - rewrite Z.add_0_r. destruct Hacc as [->|(b & Hb' & Hu & Hle)]; [by left|]. right. exists b. split_and!; [done|done|lra].
  - right. eexists. split; [done|]. pose proof (account_refill t0 a now s g n Hok Ha Hacc).
    destruct (refill_bound a now s Hok) as (_ & _ & -> & _); [cbn in Ha; lia|]. rewrite Z.add_0_r. split; [cbn in Ha; lia|lra].
  - right. eexists. split; [done|]. cbn [tokens updated]. pose proof (account_refill t0 a now s g n Hok Ha Hacc).
    destruct (refill_bound a now s Hok) as (H1 & H2 & -> & _); [cbn in Ha; lia|]. destruct (taken _ H1 H2 Ht) as (_ & _ & H5).
    rewrite plus_IZR. split; [cbn in Ha; lia|lra].
Qed.

Lemma account_run t0 a es b s g n :
  Forall (presents sc) es → bucket_ok a s → (t0 ≤ a)%Z → ordered a es b → account t0 s g n →
  account t0 (history_run es s) (g + granted (key sc) es s) (n + length es).
Proof.
  revert a s g n. induction es as [|e es IH]; intros a s g n Hp Hok Ha Ho Hacc; cbn [granted history_run foldl length].
  { by rewrite Z.add_0_r, Nat.add_0_r. }
  apply Forall_cons in Hp as [Hp Hps]. apply ordered_cons in Ho as [Hae Ho].
  rewrite Z.add_assoc. replace (n + S (length es))%nat with (S n + length es)%nat by lia.
  apply (IH (event_time a e)); [done|by apply bucket_ok_step|lia|done|]. by apply (account_step t0 a).
Qed.
End Bucket.

(** ** The property *)

(** C12: A rate limit holds over time, in the arithmetic that the code uses: for
    a scope with a positive rate and a burst below [2 ^ 50], in any window of
    any history between two reloads, in which admissions of any requests and
    releases interleave and the clock does not go backwards, the requests
    granted are at most the burst, plus the rate times the minutes that the
    window lasts, with a relative error of [2 ^ -49], plus [2 ^ -50] of the
    burst for every call in the window. *)
Theorem rate_limit_over_time sc before window s start t0 t1 :
  nonneg (rate sc) → f64_pos_finite (rate sc) = true → (1 ≤ Burst (limits sc) < 2 ^ 50)%Z →
  buckets s !! key sc = None → Forall (presents sc) (before ++ window) →
  ordered start before t0 → ordered t0 window t1 →
  IZR (granted (key sc) window (history_run before s))
    <= IZR (Burst (limits sc))
       + fval (rate sc) * real_minutes (t1 - t0) * (1 + 8 * pow2 (-52))
       + INR (length window) * (4 * pow2 (-52) * IZR (Burst (limits sc))).
Proof.
  intros Hr Hpos HB Hs [Hpre Hwin]%Forall_app Hob How. set (s0 := history_run before s).
  assert (Hok : bucket_ok sc t0 s0).
  { eapply bucket_ok_run; [done..| |done]. unfold bucket_ok. by rewrite Hs. }
  pose proof (account_run sc Hr Hpos HB t0 t0 window t1 s0 0 0 Hwin Hok ltac:(lia) How (or_introl eq_refl)) as Hacc.
  pose proof (bucket_ok_run sc Hr Hpos HB t0 window t1 s0 Hwin Hok How) as Hend.
  change (IZR (Burst (limits sc))) with (burst sc). change (_ * real_minutes _ * _) with (gain sc (t1 - t0)).
  change (4 * pow2 (-52) * burst sc) with (slack sc). rewrite Z.add_0_l, Nat.add_0_l in Hacc.
  pose proof (slack_nonneg sc HB). pose proof (burst_ge_1 sc HB). pose proof (pos_INR (length window)).
  destruct Hacc as [->|(b & Hb & Hu & Hle)].
  - pose proof (ordered_le _ _ _ How) as Ht. pose proof (gain_nonneg sc Hr (t1 - t0) ltac:(lia)). nra.
  - unfold bucket_ok in Hend. rewrite Hb in Hend. destruct Hend as (Hn & _ & Hu1). pose proof (fval_nonneg _ Hn).
    pose proof (gain_mono sc Hr (updated b - t0) (t1 - t0) ltac:(lia)). lra.
Qed.

(** One request per second and no burst above one: of four requests at 0, 0.5, 1
    and 2 seconds, the second is refused. *)
Definition one_per_second : admissionScope := mkScope "client:key:00" (mkLimits (f64_of_Z 60) 1 0).

Definition four_requests : list event :=
  (λ ms, Admit (ms * 10 ^ 6) [one_per_second]) <$> [0; 500; 1000; 2000]%Z.

Lemma rate_limit_over_time_witness :
  granted "client:key:00" four_requests newLimitStore = 3%Z ∧
  IZR 3 <= IZR 1 + fval (f64_of_Z 60) * real_minutes (2 * 10 ^ 9) * (1 + 8 * pow2 (-52)) + INR 4 * (4 * pow2 (-52) * IZR 1).
Proof.
  split; [vm_compute; reflexivity|].
  replace 3%Z with (granted (key one_per_second) four_requests (history_run [] newLimitStore)) by (vm_compute; reflexivity).
  apply (rate_limit_over_time one_per_second [] four_requests newLimitStore 0 0 (2 * 10 ^ 9)).
  - apply (of_Z_exact 60). lia.
  - reflexivity.
  - cbn. lia.
  - reflexivity.
  - repeat constructor; cbn; try set_solver; intros sc' H _; by apply list_elem_of_singleton in H.
  - cbn. lia.
  - cbn. lia.
Defined.
