(* ===== verification/Admission.v ===== *)
(** * What the limiter promises, and that it keeps it

    [AdmissionOps] and [AdmissionControl] are the interface of a limiter as the
    rest of the gateway uses it; [spec_step] is the abstract machine it
    implements, whose state is nothing but the admissions that are out.  Every
    execution of an [AdmissionControl] is one of the abstract machine
    ([control_refines]), and [limitStore] ([internal/gateway/limiter.go]) is an
    [AdmissionControl]. *)

From Stdlib Require Import ZArith Lia.
From S2P Require Import Prelude Float64 Config Limiter.

Local Open Scope Z_scope.

(** ** Labelled executions *)

(** What can be seen of one call, or of a reload. *)
Inductive event :=
  | Granted (scopes : list admissionScope)
  | Refused (scopes : list admissionScope)
  | Released (scopes : list admissionScope)
  | Cleared.

#[export] Instance event_eq_dec : EqDecision event.
Proof. solve_decision. Defined.

Inductive run {S} (step : S → event → S → Prop) : S → list event → S → Prop :=
  | run_nil s : run step s [] s
  | run_cons s1 e s2 es s3 : step s1 e s2 → run step s2 es s3 → run step s1 (e :: es) s3.

(** ** The abstract machine *)

Definition has_room (hs : list (list admissionScope)) (scopes : list admissionScope) : Prop :=
  ∀ sc, sc ∈ scopes → counts sc = true → sumZ (holds (key sc)) hs < MaxConcurrent (limits sc).

Definition rate_limited (scopes : list admissionScope) : Prop :=
  ∃ sc, sc ∈ scopes ∧ f64_le (rate sc) f64_zero = false.

(** A request is granted only when there is room under each of its limits, and
    refused only when there is none or when a rate limit applies to it; what is
    given back is an admission that is out. *)
Inductive spec_step : list (list admissionScope) → event → list (list admissionScope) → Prop :=
  | spec_grant hs scopes : has_room hs scopes → spec_step hs (Granted scopes) (scopes :: hs)
  | spec_refuse hs scopes : ¬ has_room hs scopes ∨ rate_limited scopes → spec_step hs (Refused scopes) hs
  | spec_release h1 scopes h2 : spec_step (h1 ++ scopes :: h2) (Released scopes) (h1 ++ h2)
  | spec_clear hs : spec_step hs Cleared hs.

(** ** The interface *)

Class AdmissionOps (S : Type) := {
  ac_new : S;
  ac_admit : Z → list admissionScope → S → S * bool;
  ac_release : list admissionScope → S → S;
  ac_clear : S → S
}.

(** [represents s hs]: the state [s] accounts for the admissions [hs]. *)
Class AdmissionControl (S : Type) {O : AdmissionOps S} := {
  represents : S → list (list admissionScope) → Prop;
  represents_new : represents ac_new [];
  represents_grant now scopes s s' hs :
    scopes_wf scopes → represents s hs → ac_admit now scopes s = (s', true) →
    has_room hs scopes ∧ represents s' (scopes :: hs);
  represents_refuse now scopes s s' hs :
    represents s hs → ac_admit now scopes s = (s', false) →
    (¬ has_room hs scopes ∨ rate_limited scopes) ∧ represents s' hs;
  represents_release h1 scopes h2 s :
    represents s (h1 ++ scopes :: h2) → represents (ac_release scopes s) (h1 ++ h2);
  represents_clear s hs : represents s hs → represents (ac_clear s) hs
}.

(** One call, each a critical section of the limiter's mutex. *)
Inductive control_step {S} `{AdmissionOps S} : S → event → S → Prop :=
  | control_admit now scopes s s' ok :
      scopes_wf scopes → ac_admit now scopes s = (s', ok) →
      control_step s (if ok : bool then Granted scopes else Refused scopes) s'
  | control_release scopes s : control_step s (Released scopes) (ac_release scopes s)
  | control_clear s : control_step s Cleared (ac_clear s).

(** ** Well-matched executions

    [release] is the closure that a granted admission returns, called at most
    once: no prefix of an execution releases more than it was granted. *)
Definition occurrences {A} `{EqDecision A} (x : A) (l : list A) : nat := length (filter (x =.) l).

Definition matched_from (hs : list (list admissionScope)) (es : list event) : Prop :=
  ∀ n scopes,
    (occurrences (Released scopes) (take n es)
     ≤ occurrences scopes hs + occurrences (Granted scopes) (take n es))%nat.

Definition well_matched : list event → Prop := matched_from [].

(** ** Lemmas *)

Section occurrences.
Context {A} `{EqDecision A}.
Implicit Types (x y : A) (l : list A).

Lemma occurrences_cons x y l :
  occurrences x (y :: l) = ((if decide (x = y) then 1 else 0) + occurrences x l)%nat.
Proof. unfold occurrences. rewrite filter_cons. by destruct (decide (x = y)). Qed.

Lemma occurrences_nil x : occurrences x [] = 0%nat.
Proof. done. Qed.

Lemma occurrences_app x l1 l2 : occurrences x (l1 ++ l2) = (occurrences x l1 + occurrences x l2)%nat.
Proof. unfold occurrences. by rewrite filter_app, length_app. Qed.

Lemma occurrences_split x l : (0 < occurrences x l)%nat → ∃ l1 l2, l = l1 ++ x :: l2.
Proof.
  unfold occurrences. intros Hpos. apply list_elem_of_split.
  destruct (filter (x =.) l) as [|y r] eqn:E; [simpl in Hpos; lia|].
  assert (Hy : y ∈ filter (x =.) l) by (rewrite E; by left).
  by apply list_elem_of_filter in Hy as [-> ?].
Qed.
End occurrences.

Lemma matched_tail hs hs' e es :
  (∀ scopes, occurrences scopes hs + occurrences (Granted scopes) [e]
             = occurrences scopes hs' + occurrences (Released scopes) [e])%nat →
  matched_from hs (e :: es) → matched_from hs' es.
Proof.
  intros He Hm n scopes. specialize (Hm (S n) scopes). specialize (He scopes).
  cbn [take] in Hm. rewrite !occurrences_cons in Hm. rewrite !occurrences_cons, !occurrences_nil in He. lia.
Qed.

Lemma matched_released hs scopes es :
  matched_from hs (Released scopes :: es) → ∃ h1 h2, hs = h1 ++ scopes :: h2.
Proof.
  intros Hm. apply occurrences_split. specialize (Hm 1%nat scopes).
  change (take 1 (Released scopes :: es)) with [Released scopes] in Hm.
  rewrite !occurrences_cons, !occurrences_nil, decide_True, decide_False in Hm by done. lia.
Qed.

(** ** The abstract machine keeps the limits *)

Lemma spec_step_under bound hs e hs' k :
  spec_step hs e hs' → (∀ scopes, e = Granted scopes → scopes_wf scopes ∧ Forall (under bound) scopes) →
  sumZ (holds k) hs ≤ Z.max 0 (bound k) → sumZ (holds k) hs' ≤ Z.max 0 (bound k).
Proof.
  intros Hstep He Hle. destruct Hstep as [hs scopes Hroom| |h1 scopes h2|]; [|done| |done].
  - destruct (He scopes eq_refl) as [[Hnd _] Hun]. rewrite sumZ_cons.
    destruct (decide (holds k scopes = 0)) as [->|Hh]; [lia|].
    destruct (holds_witness k scopes Hh Hnd) as (sc & Hin & <- & Hcs & ->).
    specialize (Hroom sc Hin Hcs). rewrite Forall_forall in Hun. specialize (Hun sc Hin). unfold under in Hun. lia.
  - rewrite sumZ_app, sumZ_cons in Hle. rewrite sumZ_app. pose proof (holds_nonneg k scopes). lia.
Qed.

(** ** Refinement *)

Section refinement.
Context {S} {O : AdmissionOps S} {C : AdmissionControl S}.

(** The simulation step: a call of the implementation is a step of the
    abstract machine on the admissions it accounts for. *)
Lemma control_simulates s hs e es s' :
  represents s hs → matched_from hs (e :: es) → control_step s e s' →
  ∃ hs', spec_step hs e hs' ∧ represents s' hs' ∧ matched_from hs' es.
Proof.
  intros Hrep Hm Hstep. destruct Hstep as [now scopes s s' ok Hwf Had|scopes s|s].
  - destruct ok.
    + destruct (represents_grant now scopes s s' hs Hwf Hrep Had) as [Hroom Hrep'].
      exists (scopes :: hs). split_and!; [by constructor|done|]. eapply matched_tail; [|done].
      intros x. rewrite !occurrences_cons. simpl. rewrite ?occurrences_nil. repeat case_decide; (congruence || lia).
    + destruct (represents_refuse now scopes s s' hs Hrep Had) as [Hno Hrep'].
      exists hs. split_and!; [by constructor|done|]. eapply matched_tail; [|done].
      intros x. rewrite !occurrences_cons, !occurrences_nil, !decide_False by done. lia.
  - destruct (matched_released hs scopes es Hm) as (h1 & h2 & ->).
    exists (h1 ++ h2). split_and!; [by constructor|by apply represents_release|].
    eapply matched_tail; [|done]. intros x. rewrite !occurrences_cons, !occurrences_app, occurrences_cons.
    rewrite ?occurrences_nil. repeat case_decide; (congruence || lia).
  - exists hs. split_and!; [by constructor|by apply represents_clear|]. eapply matched_tail; [|done].
    intros x. rewrite !occurrences_cons, !occurrences_nil, !decide_False by done. lia.
Qed.

Theorem control_refines s hs es s' :
  represents s hs → matched_from hs es → run control_step s es s' →
  ∃ hs', run spec_step hs es hs' ∧ represents s' hs'.
Proof.
  intros Hrep Hm Hrun. revert hs Hrep Hm. induction Hrun as [s|s1 e s2 es s3 Hstep _ IH]; intros hs Hrep Hm.
  { exists hs. split; [constructor|done]. }
  destruct (control_simulates s1 hs e es s2 Hrep Hm Hstep) as (hs1 & Hspec & Hrep1 & Hm1).
  destruct (IH hs1 Hrep1 Hm1) as (hs2 & Hruns & Hrep2). exists hs2. split; [by econstructor|done].
Qed.
End refinement.

(** ** The store of the gateway is an admission control *)

#[export] Instance limitStore_ops : AdmissionOps limitStore := {|
  ac_new := newLimitStore;
  ac_admit := limitStore_admit;
  ac_release := release;
  ac_clear := limitStore_clear
|}.

Lemma admit_has_room now scopes s s' hs :
  limit_inv s hs → limitStore_admit now scopes s = (s', true) → has_room hs scopes.
Proof.
  intros [Hc _] Hadm sc Hin Hcs. unfold limitStore_admit in Hadm.
  destruct (admit_check now s scopes ∅) eqn:E; [done|]. rewrite <- Hc.
  by apply (admit_check_passed _ _ _ _ _ E sc Hin).
Qed.

Lemma refused_for_a_reason now scopes s s' hs :
  limit_inv s hs → limitStore_admit now scopes s = (s', false) → ¬ has_room hs scopes ∨ rate_limited scopes.
Proof.
  intros [Hc _] Hadm. destruct (decide (Exists (λ sc, f64_le (rate sc) f64_zero = false) scopes)) as [He|He].
  { right. by apply Exists_exists in He. }
  left. intros Hroom. unfold limitStore_admit in Hadm.
  destruct (admit_check_complete now s scopes ∅) as [states Hs]; [|by rewrite Hs in Hadm].
  intros sc Hin. split; [intros Hcs; rewrite Hc; by apply Hroom|].
  intros Hr. destruct He. apply Exists_exists. eauto.
Qed.

#[export] Program Instance limitStore_control : AdmissionControl limitStore := {| represents := limit_inv |}.
Next Obligation. apply limit_inv_init. Qed.
Next Obligation. intros. split; [by eapply admit_has_room|by eapply limit_inv_admit]. Qed.
Next Obligation. intros. split; [by eapply refused_for_a_reason|by eapply limit_inv_reject]. Qed.
Next Obligation. intros. by apply limit_inv_release. Qed.
Next Obligation. done. Qed.

(** ** Properties *)

(** C6: the limiter refines the abstract machine: whatever requests are
    admitted, refused and released, in any interleaving and across reloads, the
    observable calls of an execution in which every release belongs to an
    admission are a run of a machine that grants exactly what its limits leave
    room for and refuses for nothing but a full limit or a rate limit.  The
    counters are those of the machine's admissions, and none is left behind
    when no admission is out. *)
Theorem limiter_refines es s :
  run control_step newLimitStore es s → well_matched es →
  ∃ hs, run spec_step [] es hs ∧ (∀ k, count s k = sumZ (holds k) hs) ∧ (hs = [] → concurrent s = ∅).
Proof.
  intros Hrun Hm. destruct (control_refines (C := limitStore_control) newLimitStore [] es s represents_new Hm Hrun) as (hs & Hspec & Hinv).
  exists hs. split_and!; [done|by apply Hinv|]. intros ->. destruct Hinv as (Hc & Hpos & _).
  apply map_eq. intros k. rewrite lookup_empty. by apply count_pos_stored; [|rewrite Hc].
Qed.

Definition lone : list admissionScope := [mkScope "model:m" (mkLimits f64_zero 0 1)].

Lemma limiter_refines_witness :
  ∃ hs, run spec_step [] [Granted lone; Refused lone; Released lone; Granted lone] hs ∧
        sumZ (holds "model:m") hs = 1.
Proof.
  set (s1 := (limitStore_admit 0 lone newLimitStore).1).
  destruct (limiter_refines [Granted lone; Refused lone; Released lone; Granted lone]
              (limitStore_admit 2 lone (release lone s1)).1) as (hs & Hrun & Hc & _).
  - assert (Hwf : scopes_wf lone) by (by apply (bool_decide_unpack _)).
    eapply run_cons; [apply (control_admit 0 lone _ s1 true Hwf); reflexivity|].
    eapply run_cons; [apply (control_admit 1 lone _ s1 false Hwf); reflexivity|].
    eapply run_cons; [apply control_release|].
    eapply run_cons; [apply (control_admit 2 lone _ _ true Hwf); reflexivity|constructor].
  - intros n scopes. destruct (decide (scopes = lone)) as [->|Hne].
    + do 5 (destruct n as [|n]; [vm_compute; lia|]). vm_compute. lia.
    + do 5 (destruct n as [|n]; [cbn [take]; rewrite ?occurrences_cons, ?decide_False by congruence; cbn; lia|]).
      cbn [take]. rewrite ?occurrences_cons, ?decide_False by congruence. cbn. lia.
  - exists hs. split; [done|]. rewrite <- Hc. reflexivity.
Defined.
