(* ===== verification/Queue.v ===== *)
(** * The bounded request queue ([internal/gateway/queue.go])

    [requestQueue] counts the requests that wait for admission.  A call of
    [wait] is a small machine: every state is a point where the goroutine has
    no lock, and every step one critical section (or one turn of [select]), so
    that the calls of different goroutines interleave freely. *)

From Stdlib Require Import ZArith Lia.
From S2P Require Import Prelude Float64 Value Config Limiter.

Local Open Scope Z_scope.

Record requestQueue := mkQueue {
  waiting : Z;
  max : Z
}.

Definition newRequestQueue (m : Z) : requestQueue := mkQueue 0 m.

Definition depth (q : requestQueue) : Z := waiting q.

Definition setMax (m : Z) (q : requestQueue) : requestQueue := mkQueue (waiting q) m.

Definition enter (q : requestQueue) : requestQueue * bool :=
  if (max q <=? 0) || (max q <=? waiting q) then (q, false)
  else (mkQueue (int64 (waiting q + 1)) (max q), true).

Definition leave (q : requestQueue) : requestQueue :=
  if 0 <? waiting q then mkQueue (int64 (waiting q - 1)) (max q) else q.

(** ** One call of [wait]

    [WTry] is the first attempt, [WSelect] the [select] of the loop, [WLeave]
    the deferred [leave] and [WReturn] the return, with the results [admitted]
    and [queued]. *)
Inductive wait_pc :=
  | WTry
  | WEnter
  | WSelect
  | WLeave (admitted : bool)
  | WReturn (admitted queued : bool).

#[export] Instance wait_pc_eq_dec : EqDecision wait_pc.
Proof. solve_decision. Defined.

(** What a turn of [select] receives: the end of the waiting context, or a
    tick of the 25 ms ticker.  When both are ready the runtime chooses. *)
Inductive wake := Done | Tick.

(** The state that [admitWithQueue] shares between requests. *)
Record shared := mkShared {
  sh_limits : limitStore;
  sh_queue : requestQueue
}.

(** [try ()]: the closure of [admitWithQueue]. *)
Definition try_admit (now : Z) (scopes : list admissionScope) (sh : shared) : shared * bool :=
  let '(s, ok) := limitStore_admit now scopes (sh_limits sh) in
  (mkShared s (sh_queue sh), ok).

Definition wait_step (now : Z) (w : wake) (scopes : list admissionScope) (st : wait_pc * shared)
    : wait_pc * shared :=
  let '(pc, sh) := st in
  match pc with
  | WTry =>
      let '(sh', ok) := try_admit now scopes sh in
      (if ok then WReturn true false else WEnter, sh')
  | WEnter =>
      let '(q, ok) := enter (sh_queue sh) in
      (if ok then WSelect else WReturn false false, mkShared (sh_limits sh) q)
  | WSelect =>
      match w with
      | Done => (WLeave false, sh)
      | Tick =>
          let '(sh', ok) := try_admit now scopes sh in
          (if ok then WLeave true else WSelect, sh')
      end
  | WLeave admitted => (WReturn admitted true, mkShared (sh_limits sh) (leave (sh_queue sh)))
  | WReturn admitted queued => (WReturn admitted queued, sh)
  end.

(** The steps of a call, one after the other. *)
Definition wait_steps (scopes : list admissionScope) (script : list (Z * wake)) (st : wait_pc * shared) :=
  foldl (λ st ev, wait_step ev.1 ev.2 scopes st) st script.

(** The whole call when no other request interferes: [script] gives the clock
    reading and the wake-up of every step. *)
Definition wait_run (script : list (Z * wake)) (scopes : list admissionScope) (sh : shared)
    : wait_pc * shared :=
  wait_steps scopes script (WTry, sh).

(** ** Lemmas *)

(** A call that counts as waiting, and one that holds its scopes. *)
Definition is_waiting (pc : wait_pc) : bool :=
  match pc with WSelect | WLeave _ => true | _ => false end.

Definition is_admitted (pc : wait_pc) : bool :=
  match pc with WLeave true | WReturn true _ => true | _ => false end.

Definition queue_wf (q : requestQueue) : Prop := 0 ≤ waiting q ≤ MaxInt64 ∧ in_int64 (max q).

Lemma enter_spec q q' ok :
  queue_wf q → enter q = (q', ok) →
  queue_wf q' ∧ max q' = max q ∧ waiting q' = waiting q + (if ok then 1 else 0) ∧
  (ok = true ↔ 0 < max q ∧ waiting q < max q).
Proof.
  unfold enter, queue_wf, in_int64, MinInt64, MaxInt64. intros Hwf.
  destruct (max q <=? 0) eqn:E1; simpl; [intros [= <- <-]; bool_to_prop; split_and!; (done || lia)|].
  destruct (max q <=? waiting q) eqn:E2; intros [= <- <-]; bool_to_prop;
    [split_and!; lia|]. simpl. rewrite int64_id by (unfold in_int64, MinInt64, MaxInt64; lia).
  split_and!; lia.
Qed.

Lemma leave_spec q :
  queue_wf q → 0 < waiting q →
  queue_wf (leave q) ∧ max (leave q) = max q ∧ waiting (leave q) = waiting q - 1.
Proof.
  unfold leave, queue_wf. intros [Hw Hm] Hpos. rewrite (proj2 (Z.ltb_lt _ _) Hpos). simpl.
  rewrite int64_id by (unfold in_int64, MinInt64, MaxInt64 in *; lia). split_and!; (done || lia).
Qed.

Lemma try_admit_queue now scopes sh sh' ok :
  try_admit now scopes sh = (sh', ok) → sh_queue sh' = sh_queue sh.
Proof. unfold try_admit. destruct (limitStore_admit _ _ _). by intros [= <- _]. Qed.

(** One step moves the counter of waiting requests exactly with the call. *)
Lemma wait_step_queue now w scopes pc sh pc' sh' :
  queue_wf (sh_queue sh) → (is_waiting pc = true → 0 < waiting (sh_queue sh)) →
  wait_step now w scopes (pc, sh) = (pc', sh') →
  queue_wf (sh_queue sh') ∧ max (sh_queue sh') = max (sh_queue sh) ∧
  waiting (sh_queue sh') - waiting (sh_queue sh)
  = (if is_waiting pc' then 1 else 0) - (if is_waiting pc then 1 else 0) ∧
  (waiting (sh_queue sh) < waiting (sh_queue sh') → waiting (sh_queue sh) < max (sh_queue sh)).
Proof.
  intros Hwf Hpos. destruct pc as [| | |adm|adm q]; cbn [wait_step].
  - destruct (try_admit now scopes sh) as [sh1 ok] eqn:Et. intros [= <- <-].
    rewrite (try_admit_queue _ _ _ _ _ Et). destruct ok; simpl; split_and!; (done || lia).
  - destruct (enter (sh_queue sh)) as [q ok] eqn:Ee. intros [= <- <-].
    destruct (enter_spec _ _ _ Hwf Ee) as (Hwf' & Hm & Hw & Hok). simpl.
    split_and!; [done|done|destruct ok; simpl in *; lia|].
    intros Hlt. destruct ok; [by apply Hok|lia].
  - destruct w; [intros [= <- <-]; simpl; split_and!; (done || lia)|].
    destruct (try_admit now scopes sh) as [sh1 ok] eqn:Et. intros [= <- <-].
    rewrite (try_admit_queue _ _ _ _ _ Et). destruct ok; simpl; split_and!; (done || lia).
  - intros [= <- <-]. destruct (leave_spec _ Hwf (Hpos eq_refl)) as (Hwf' & Hm & Hw). simpl.
    split_and!; (done || lia).
  - intros [= <- <-]. simpl. split_and!; (done || lia).
Qed.

(** One step acquires the scopes exactly when the call becomes admitted. *)
Lemma wait_step_limits now w scopes pc sh pc' sh' :
  wait_step now w scopes (pc, sh) = (pc', sh') →
  sh_limits sh' = sh_limits sh ∧ is_admitted pc' = is_admitted pc ∨
  limitStore_admit now scopes (sh_limits sh) = (sh_limits sh', is_admitted pc') ∧
  is_admitted pc = false.
Proof.
  assert (Htry : ∀ sh1 ok, try_admit now scopes sh = (sh1, ok) →
    limitStore_admit now scopes (sh_limits sh) = (sh_limits sh1, ok)).
  { unfold try_admit. intros sh1 ok. destruct (limitStore_admit _ _ _). by intros [= <- <-]. }
  destruct pc as [| | |adm|adm q]; cbn [wait_step].
  - destruct (try_admit now scopes sh) as [sh1 ok] eqn:Et. intros [= <- <-].
    right. rewrite (Htry _ _ eq_refl). by destruct ok.
  - destruct (enter (sh_queue sh)) as [q ok]. intros [= <- <-]. left. by destruct ok.
  - destruct w; [intros [= <- <-]; by left|].
    destruct (try_admit now scopes sh) as [sh1 ok] eqn:Et. intros [= <- <-].
    right. rewrite (Htry _ _ eq_refl). by destruct ok.
  - intros [= <- <-]. left. by destruct adm.
  - intros [= <- <-]. by left.
Qed.

(** A call that has passed its first attempt and [enter]. *)
Definition past_enter (pc : wait_pc) : Prop := pc ≠ WTry ∧ pc ≠ WEnter.

Lemma past_enter_step now w scopes pc sh :
  past_enter pc → past_enter (wait_step now w scopes (pc, sh)).1.
Proof.
  intros [? ?]. destruct pc as [| | |adm|adm q]; try done. cbn [wait_step].
  destruct w; [done|]. by destruct (try_admit now scopes sh) as [sh1 []].
Qed.

Lemma past_enter_two n1 w1 n2 w2 scopes sh :
  past_enter (wait_step n2 w2 scopes (wait_step n1 w1 scopes (WTry, sh))).1.
Proof.
  cbn [wait_step]. destruct (try_admit n1 scopes sh) as [sh1 []]; [done|].
  cbn [wait_step]. by destruct (enter (sh_queue sh1)) as [q []].
Qed.

Lemma past_enter_steps scopes script st :
  past_enter st.1 → past_enter (wait_steps scopes script st).1.
Proof.
  revert st. induction script as [|[n w] s IH]; intros [pc sh] H; [done|].
  apply IH, past_enter_step, H.
Qed.

(** From there the end of the waiting context leads to the return. *)
Lemma past_enter_done now n w scopes st :
  past_enter st.1 → ∃ admitted queued, (wait_steps scopes [(now, Done); (n, w)] st).1 = WReturn admitted queued.
Proof. destruct st as [[| | |adm|adm q] sh]; intros [? ?]; try done; simpl; eauto. Qed.

(** The counter of waiting requests along a call that runs alone. *)
Lemma wait_steps_queue scopes script st st' (w0 : Z) :
  wait_steps scopes script st = st' → 0 ≤ w0 →
  queue_wf (sh_queue st.2) → waiting (sh_queue st.2) = w0 + (if is_waiting st.1 then 1 else 0) →
  queue_wf (sh_queue st'.2) ∧ waiting (sh_queue st'.2) = w0 + (if is_waiting st'.1 then 1 else 0).
Proof.
  intros <- Hw0. revert st. induction script as [|[n w] s IH]; intros [pc sh] Hwf Hw; [done|].
  destruct (wait_step n w scopes (pc, sh)) as [pc' sh'] eqn:E.
  destruct (wait_step_queue n w scopes pc sh pc' sh') as (Hwf' & _ & Hd & _); [done| |done|].
  - intros Hp. simpl in Hw. rewrite Hp in Hw. lia.
  - unfold wait_steps. cbn [foldl fst snd]. rewrite E. apply IH; [done|]. simpl in *. lia.
Qed.

(** ** Properties *)

(** C19: a call of [wait] ends.  Once its waiting context is done (the timeout
    or the client's disconnection) and [select] receives that, two more steps
    lead to the return, whatever happened before; and a call that runs alone
    leaves the number of waiting requests as it found it. *)
Theorem wait_returns n1 w1 n2 w2 script now n3 w3 scopes sh :
  queue_wf (sh_queue sh) →
  ∃ admitted queued sh',
    wait_run ((n1, w1) :: (n2, w2) :: script ++ [(now, Done); (n3, w3)]) scopes sh
    = (WReturn admitted queued, sh') ∧
    waiting (sh_queue sh') = waiting (sh_queue sh).
Proof.
  intros Hwf. unfold wait_run.
  destruct (wait_steps _ _ (WTry, sh)) as [pc sh'] eqn:E.
  apply (wait_steps_queue _ _ _ _ (waiting (sh_queue sh))) in E as Hq; [|apply Hwf|done|simpl; lia].
  destruct (past_enter_done now n3 w3 scopes (wait_steps scopes ((n1, w1) :: (n2, w2) :: script) (WTry, sh)))
    as (a & q & Hret).
  { unfold wait_steps. cbn [foldl fst snd]. apply past_enter_steps, past_enter_two. }
  unfold wait_steps in E, Hret. rewrite !app_comm_cons, foldl_app in E. rewrite E in Hret.
  simpl in Hret. subst pc. exists a, q, sh'. split; [done|]. simpl in Hq. lia.
Qed.

Definition example_shared : shared :=
  mkShared newLimitStore (newRequestQueue 32).

Lemma wait_returns_witness :
  ∃ admitted queued sh',
    wait_run [(0, Tick); (0, Tick); (5, Done); (5, Tick)] [] example_shared
    = (WReturn admitted queued, sh') ∧ waiting (sh_queue sh') = 0.
Proof.
  apply (wait_returns 0 Tick 0 Tick [] 5 5 Tick [] example_shared).
  unfold queue_wf, in_int64, MinInt64, MaxInt64. simpl. lia.
Defined.

(** A request that cannot be admitted at once is queued and times out. *)
Example wait_times_out :
  let full := mkScope "ingress" (mkLimits f64_zero 0 1) in
  let busy := mkShared (limitStore_admit 0 [full] newLimitStore).1 (newRequestQueue 1) in
  (wait_run [(0, Tick); (0, Tick); (1, Tick); (2, Done); (2, Done)] [full] busy).1 = WReturn false true.
Proof. vm_compute. reflexivity. Qed.
