(* ===== verification/ACL.v ===== *)
(** * Client networks and the effective client address ([internal/gateway/acl.go])

    A [clientACL] is a list of networks.  The same type serves two purposes:
    the networks that may use the gateway ([client_networks]) and the proxies
    whose [X-Forwarded-For] header is believed ([trusted_proxy_networks]).  A
    nil [net.IP] is [None], a nil [*clientACL] is [None]. *)

From Stdlib Require Import ZArith Lia Ascii.
From S2P Require Import Prelude GoStrings NetIP NetPrefix Http Value Config.

Local Open Scope Z_scope.

Record clientACL := mkACL { networks : list IPNet }.

(** The loop body of [newClientACL]; [inl] is the value that the error quotes. *)
Definition parse_network (v : string) : string + IPNet :=
  let value := trim_space v in
  let finish (value : string) : string + IPNet :=
    match ParseCIDR value with Some network => inr network | None => inl value end in
  if contains value "/" then finish value
  else
    match ParseIP value with
    | None => inl value
    | Some ip =>
        match To4 ip with
        | Some _ => finish (value +:+ "/32")
        | None => finish (value +:+ "/128")
        end
    end.

Fixpoint newClientACL_loop (values : list string) (acc : list IPNet) : string + clientACL :=
  match values with
  | [] => inr (mkACL acc)
  | v :: rest =>
      match parse_network v with
      | inl e => inl e
      | inr network => newClientACL_loop rest (acc ++ [network])
      end
  end.

Definition newClientACL (values : list string) : string + clientACL := newClientACL_loop values [].

Definition acl_contains (a : clientACL) (ip : option IP) : bool :=
  if bool_decide (networks a = []) then true
  else
    match ip with
    | None => false
    | Some i => existsb (λ n, IPNet_Contains n i) (networks a)
    end.

Definition parseRemoteIP (remoteAddr : string) : option IP :=
  let host := match SplitHostPort remoteAddr with Some (h, _) => h | None => remoteAddr end in
  ParseIP (trim_set host ["["; "]"]%char).

Definition allowed (a : clientACL) (remoteAddr : string) : bool :=
  acl_contains a (parseRemoteIP remoteAddr).

(** The backwards loop, on the reversed list of entries. *)
Fixpoint forwarded_walk (trusted : clientACL) (parts : list string) (peer : option IP) : option IP :=
  match parts with
  | [] => peer
  | part :: rest =>
      match ParseIP (trim_space part) with
      | None => forwarded_walk trusted rest peer
      | Some candidate =>
          if negb (acl_contains trusted (Some candidate)) then Some candidate
          else forwarded_walk trusted rest peer
      end
  end.

Definition forwardedClientIP (remoteAddr forwarded : string) (trusted : option clientACL) : option IP :=
  let peer := parseRemoteIP remoteAddr in
  match trusted with
  | None => peer
  | Some t =>
      if negb (acl_contains t peer) then peer
      else forwarded_walk t (reverse (split forwarded ","%char)) peer
  end.

(** The effective client of a request, as [ServeHTTP] and [clientIdentity]
    take it: [Header.Get] reads the first [X-Forwarded-For] line only. *)
Definition client_ip (r : Request) (trusted : option clientACL) : option IP :=
  forwardedClientIP (RemoteAddr r) (header_Get (r_Header r) "X-Forwarded-For") trusted.

Definition clientIPString (ip : option IP) : string :=
  match ip with None => "unknown" | Some i => IP_String i end.

(** ** What an entry of a list means

    The 16-byte address of an entry and the number of leading bits that an
    address must share with it: an address stands for itself alone, a prefix
    of an IPv4 address is counted from bit 96. *)
Definition entry_prefix (v : string) : option (IP * Z) :=
  let value := trim_space v in
  match cut value "/"%char with
  | None => (λ ip, (ip, 128)) <$> ParseIP value
  | Some (a, mask) =>
      addr ← ParseAddr a;
      let '(n, i, ok) := dtoi mask in
      if negb ok || negb (Nat.eqb i (String.length mask)) || (n <? 0) || (BitLen addr <? n) then None
      else Some (As16 addr, n + (128 - BitLen addr))
  end.

Definition in_prefix (a : IP) (n : Z) (ip : IP) : Prop := agree n a ip ∧ (is_v4 ip = true → 96 ≤ n).

(** An IPv4 address written as an IPv6 one, as in ["::ffff:10.0.0.5"]. *)
Definition mapped_literal (v : string) : bool :=
  match ParseAddr (trim_space v) with
  | Some (Addr6 b) => is_v4 b && negb (contains (trim_space v) "/")
  | _ => false
  end.

(** The addresses that an entry of a list admits: those of its prefix, and for
    a mapped literal the IPv6 addresses (never an IPv4 one) that begin with 32
    zero bits. *)
Definition entry_admits (v : string) (ip : IP) : Prop :=
  if mapped_literal v then agree 32 (repeat 0 16) ip ∧ is_v4 ip = false
  else ∃ a n, entry_prefix v = Some (a, n) ∧ in_prefix a n ip.

Lemma is_v4_As16 s b : ParseAddr s = Some (Addr4 b) → is_v4 (As16 (Addr4 b)) = true.
Proof. intros H. by apply bool_decide_eq_true. Qed.

(** The network that [ParseCIDR] builds contains the addresses of its prefix. *)
Lemma ParseCIDR_addr s a addr mask n :
  cut s "/"%char = Some (a, mask) → ParseAddr a = Some addr →
  dtoi mask = (n, String.length mask, true) → 0 ≤ n ≤ BitLen addr →
  ∃ net, ParseCIDR s = Some net ∧
    ∀ ip, is_ip ip → IPNet_Contains net ip = true ↔ in_prefix (As16 addr) (n + (128 - BitLen addr)) ip.
Proof.
  intros Hc Ha Hd Hn. unfold ParseCIDR. rewrite Hc, Ha, Hd, Nat.eqb_refl.
  destruct (Z.ltb_spec n 0), (Z.ltb_spec (BitLen addr) n); [lia..|]. simpl. eexists. split; [done|].
  intros ip Hip. pose proof (As16_is_ip a addr Ha) as H16. pose proof (ParseAddr_length a addr Ha) as Hl.
  unfold in_prefix. destruct addr as [b|b]; cbn [BitLen As16 addr_bytes] in *.
  - change (Z.to_nat (32 / 8)) with 4%nat. unfold IPMask. rewrite CIDRMask_length, (proj1 H16).
    cbn [Nat.eqb andb]. change (drop 12 (v4InV6Prefix ++ b)) with b. rewrite decide_True by (rewrite CIDRMask_length; done).
    cbn [from_option id]. rewrite contains_v4 by (done || lia).
    rewrite (agree_split (v4InV6Prefix ++ b) ip) by (done || lia).
    change (take 12 (v4InV6Prefix ++ b)) with v4InV6Prefix.
    change (drop 12 (v4InV6Prefix ++ b)) with b.
    replace (n + (128 - 32) - 96) with n by lia. unfold is_v4. rewrite bool_decide_eq_true.
    split; [intros [-> ?]; split; [done|lia]|intros [[<- ?] _]; by split].
  - change (Z.to_nat (128 / 8)) with 16%nat. unfold IPMask. rewrite CIDRMask_length, (proj1 H16).
    cbn [Nat.eqb andb]. rewrite (proj1 H16), decide_True by (by rewrite CIDRMask_length).
    cbn [from_option id]. replace (n + (128 - 128)) with n by lia. by apply contains_net16.
Qed.

Lemma ParseCIDR_Some s net :
  ParseCIDR s = Some net → ∃ a mask addr n,
    cut s "/"%char = Some (a, mask) ∧ ParseAddr a = Some addr ∧
    dtoi mask = (n, String.length mask, true) ∧ 0 ≤ n ≤ BitLen addr.
Proof.
  unfold ParseCIDR. destruct (cut s "/") as [[a mask]|] eqn:Ec; [|done].
  destruct (ParseAddr a) as [addr|] eqn:Ea; [|done].
  destruct (dtoi mask) as [[n i] ok] eqn:Ed. destruct (negb ok || _ || _ || _) eqn:Eb; [done|].
  intros _. apply orb_false_iff in Eb as [[[Hok Hi]%orb_false_iff Hn]%orb_false_iff Hb].
  bool_to_prop. apply Nat.eqb_eq in Hi. subst. exists a, mask, addr, n. split_and!; done || lia.
Qed.

(** One entry: the network that is built contains exactly the addresses of
    the entry's prefix, unless the entry is a mapped literal. *)
Lemma parse_network_spec v net :
  parse_network v = inr net → mapped_literal v = false →
  ∃ a n, entry_prefix v = Some (a, n) ∧
    ∀ ip, is_ip ip → IPNet_Contains net ip = true ↔ in_prefix a n ip.
Proof.
  unfold parse_network, mapped_literal, entry_prefix. set (value := trim_space v). intros Hp Hm.
  destruct (contains value "/") eqn:Es.
  - destruct (ParseCIDR value) as [net'|] eqn:Ep; [|done]. injection Hp as ->.
    pose proof (ParseCIDR_Some _ _ Ep) as (a & mask & addr & n & Hc & Ha & Hd & Hn).
    destruct (ParseCIDR_addr _ _ _ _ _ Hc Ha Hd Hn) as (net1 & He & Hspec).
    rewrite Ep in He. injection He as <-. rewrite Hc, Ha. cbn [mbind option_bind]. rewrite Hd, Nat.eqb_refl.
    destruct (Z.ltb_spec n 0), (Z.ltb_spec (BitLen addr) n); [lia..|]. simpl. eauto.
  - pose proof (proj2 (cut_None _ _) Es) as Hcut. rewrite Hcut.
    destruct (ParseIP value) as [ip|] eqn:Ei; [|done]. exists ip, 128. split; [done|].
    unfold ParseIP in Ei. apply fmap_Some in Ei as (addr & Ha & ->). rewrite Ha in Hm.
    rewrite To4_16 in Hp by apply (As16_is_ip _ _ Ha).
    destruct addr as [b|b].
    + rewrite (is_v4_As16 _ _ Ha) in Hp.
      destruct (ParseCIDR_addr _ _ _ _ 32 (cut_app _ _ "32" Es) Ha eq_refl) as (net1 & He & Hspec);
        [done|]. change (String "/" "32") with "/32" in He. rewrite He in Hp. by injection Hp as <-.
    + cbn [As16] in *. simpl in Hm. rewrite andb_true_r in Hm. rewrite Hm in Hp.
      destruct (ParseCIDR_addr _ _ _ _ 128 (cut_app _ _ "128" Es) Ha eq_refl) as (net1 & He & Hspec);
        [done|]. change (String "/" "128") with "/128" in He. rewrite He in Hp. by injection Hp as <-.
Qed.

(** A mapped literal becomes a network of 32 bits. *)
Lemma parse_mapped v :
  mapped_literal v = true →
  ∃ net, parse_network v = inr net ∧
    ∀ ip, is_ip ip → IPNet_Contains net ip = true ↔ agree 32 (repeat 0 16) ip ∧ is_v4 ip = false.
Proof.
  unfold mapped_literal, parse_network. set (value := trim_space v). intros Hm.
  destruct (ParseAddr value) as [[b|b]|] eqn:Ha; [done| |done].
  apply andb_true_iff in Hm as [H4 Hs]. bool_to_prop. rewrite Hs. unfold ParseIP. rewrite Ha. cbn [fmap option_fmap option_map].
  rewrite To4_16 by apply (As16_is_ip _ _ Ha). cbn [As16]. rewrite H4.
  destruct (ParseCIDR_addr _ _ _ _ 32 (cut_app _ _ "32" Hs) Ha eq_refl) as (net & He & Hspec); [done|].
  change (String "/" "32") with "/32" in He. rewrite He. exists net. split; [done|].
  intros ip Hip. rewrite Hspec by done. unfold in_prefix. cbn [As16 BitLen].
  assert (Hz : agree 32 b (repeat 0 16)).
  { apply bool_decide_eq_true in H4. intros k Hk.
    rewrite <- (ip_bit_take b k 12), H4, <- (ip_bit_take _ k 4) by lia. symmetry.
    rewrite <- (ip_bit_take _ k 4) by lia. done. }
  change (32 + (128 - 128)) with 32. destruct (is_v4 ip).
  - split; [intros [_ H]; specialize (H eq_refl); lia|by intros [_ ?]].
  - split; (intros [Hag _]; split; [|done]); intros k Hk; [rewrite <- Hz|rewrite Hz]; auto.
Qed.

(** What the network of an entry contains. *)
Lemma parse_network_admits v net ip :
  parse_network v = inr net → is_ip ip → IPNet_Contains net ip = true ↔ entry_admits v ip.
Proof.
  intros Hp Hip. unfold entry_admits. destruct (mapped_literal v) eqn:Em.
  - destruct (parse_mapped v Em) as (net' & Hp' & Hs). rewrite Hp in Hp'. injection Hp' as <-. by apply Hs.
  - destruct (parse_network_spec v net Hp Em) as (a & n & He & Hs). rewrite Hs by done. rewrite He. split.
    + intros Hin. by exists a, n.
    + by intros (a' & n' & [= <- <-] & Hin).
Qed.

Lemma newClientACL_loop_inr values acc acl :
  newClientACL_loop values acc = inr acl →
  ∃ nets, networks acl = acc ++ nets ∧ Forall2 (λ v n, parse_network v = inr n) values nets.
Proof.
  revert acc. induction values as [|v values IH]; intros acc; simpl.
  - intros [= <-]. exists []. by rewrite app_nil_r.
  - destruct (parse_network v) as [|n] eqn:Ep; [done|]. intros (nets & Hn & Hf)%IH.
    exists (n :: nets). split; [by rewrite Hn, <- app_assoc|]. by constructor.
Qed.

Lemma newClientACL_inr values acl :
  newClientACL values = inr acl → Forall2 (λ v n, parse_network v = inr n) values (networks acl).
Proof. intros (nets & -> & Hf)%newClientACL_loop_inr. exact Hf. Qed.

Lemma newClientACL_loop_ok values acc :
  (∀ v, v ∈ values → ∃ n, parse_network v = inr n) → ∃ acl, newClientACL_loop values acc = inr acl.
Proof.
  revert acc. induction values as [|v values IH]; intros acc Hok; simpl; [eauto|].
  destruct (Hok v) as [n ->]; [set_solver|]. apply IH. set_solver.
Qed.

Lemma acl_contains_exists a ip :
  networks a ≠ [] → acl_contains a (Some ip) = true ↔ ∃ n, n ∈ networks a ∧ IPNet_Contains n ip = true.
Proof.
  intros Hne. unfold acl_contains. rewrite bool_decide_eq_false_2 by done. rewrite existsb_exists.
  by setoid_rewrite <- list_elem_of_In.
Qed.

Lemma parse_network_ok v : network_ok v → ∃ net, parse_network v = inr net.
Proof.
  unfold network_ok, parse_network. set (value := trim_space v). intros [_ Hv].
  destruct (contains value "/") eqn:Es.
  - destruct Hv as [net ->]. eauto.
  - destruct Hv as [ip Hip]. rewrite Hip. apply fmap_Some in Hip as (addr & Ha & ->).
    rewrite To4_16 by apply (As16_is_ip _ _ Ha). destruct (is_v4 (As16 addr)) eqn:E4.
    + destruct (ParseCIDR_addr _ _ _ _ 32 (cut_app _ _ "32" Es) Ha eq_refl) as (net & He & _);
        [by destruct addr|]. change (String "/" "32") with "/32" in He. rewrite He. eauto.
    + destruct addr as [b|b]; [by rewrite (is_v4_As16 _ _ Ha) in E4|].
      destruct (ParseCIDR_addr _ _ _ _ 128 (cut_app _ _ "128" Es) Ha eq_refl) as (net & He & _);
        [done|]. change (String "/" "128") with "/128" in He. rewrite He. eauto.
Qed.

(** ** The walk over the forwarded addresses *)

(** An entry of the header that the walk skips. *)
Definition skipped (trusted : clientACL) (part : string) : Prop :=
  ∀ c, ParseIP (trim_space part) = Some c → acl_contains trusted (Some c) = true.

Lemma forwarded_walk_app t later rest peer :
  (∀ p, p ∈ later → skipped t p) → forwarded_walk t (later ++ rest) peer = forwarded_walk t rest peer.
Proof.
  induction later as [|p later IH]; intros Hs; [done|]. cbn [app forwarded_walk].
  destruct (ParseIP (trim_space p)) as [c|] eqn:Ep; [|apply IH; set_solver].
  rewrite (Hs p ltac:(set_solver) c Ep). simpl. apply IH. set_solver.
Qed.

Lemma forwarded_walk_hit t p c later rest peer :
  (∀ q, q ∈ later → skipped t q) → ParseIP (trim_space p) = Some c →
  acl_contains t (Some c) = false → forwarded_walk t (later ++ p :: rest) peer = Some c.
Proof.
  intros Hs Hp Hc. rewrite forwarded_walk_app by done. cbn [forwarded_walk]. by rewrite Hp, Hc.
Qed.

Lemma forwarded_walk_inv t parts peer r :
  forwarded_walk t parts peer = r →
  (r = peer ∧ ∀ p, p ∈ parts → skipped t p) ∨
  ∃ later p rest c, parts = later ++ p :: rest ∧ r = Some c ∧ ParseIP (trim_space p) = Some c ∧
    acl_contains t (Some c) = false ∧ ∀ q, q ∈ later → skipped t q.
Proof.
  revert r. induction parts as [|p parts IH]; intros r; cbn [forwarded_walk].
  { intros ->. left. split; [done|set_solver]. }
  assert (Hskip : skipped t p → forwarded_walk t parts peer = r →
    (r = peer ∧ ∀ q, q ∈ p :: parts → skipped t q) ∨
    ∃ later q rest c, p :: parts = later ++ q :: rest ∧ r = Some c ∧ ParseIP (trim_space q) = Some c ∧
      acl_contains t (Some c) = false ∧ ∀ q, q ∈ later → skipped t q).
  { intros Hp [[-> Ha]|(later & q & rest & c & -> & -> & Hq & Hc & Hl)]%IH.
    - left. split; [done|]. intros q [->|?]%elem_of_cons; auto.
    - right. exists (p :: later), q, rest, c. split_and!; try done.
      intros q' [->|?]%elem_of_cons; auto. }
  destruct (ParseIP (trim_space p)) as [c|] eqn:Ep.
  - destruct (acl_contains t (Some c)) eqn:Ec; simpl.
    + apply Hskip. intros c'. congruence.
    + intros <-. right. exists [], p, parts, c. split_and!; [done..|set_solver].
  - apply Hskip. intros c'. congruence.
Qed.

(** ** Properties *)

(** C18: The addresses of an access list.  The empty list contains every
    address, even one that cannot be read.  Any other list contains an address
    exactly when some entry admits it: when the address shares the prefix of
    the entry (an IPv4 address is compared in its 16-byte form, and no IPv6
    prefix shorter than 96 bits contains it), or, for an entry that writes an
    IPv4 address as an IPv6 literal, when it is an IPv6 address that begins
    with 32 zero bits; an address that cannot be read is in no such list. *)
Theorem acl_contains_iff_entry values acl ip :
  newClientACL values = inr acl → (∀ i, ip = Some i → is_ip i) →
  acl_contains acl ip = true ↔
  values = [] ∨ ∃ i v, ip = Some i ∧ v ∈ values ∧ entry_admits v i.
Proof.
  intros Hacl%newClientACL_inr Hip. destruct (decide (values = [])) as [->|Hne].
  { inversion Hacl as [He|]. unfold acl_contains. rewrite bool_decide_eq_true_2 by done. split; [by left|done]. }
  assert (Hnets : networks acl ≠ []) by (intros E; rewrite E in Hacl; by inversion Hacl; subst).
  destruct ip as [i|].
  2:{ unfold acl_contains. rewrite bool_decide_eq_false_2 by done. split; [done|]. by intros [?|(? & ? & ? & _)]. }
  rewrite acl_contains_exists by done. specialize (Hip i eq_refl). split.
  - intros (net & Hn & Hc). right. apply list_elem_of_lookup in Hn as [k Hk].
    destruct (Forall2_lookup_r _ _ _ _ _ Hacl Hk) as (v & Hv & Hp).
    exists i, v. split_and!; [done|by eapply list_elem_of_lookup_2|]. by apply (parse_network_admits v net).
  - intros [?|(? & v & [= <-] & Hv & Hin)]; [done|]. apply list_elem_of_lookup in Hv as [k Hk].
    destruct (Forall2_lookup_l _ _ _ _ _ Hacl Hk) as (net & Hnet & Hp).
    exists net. split; [by eapply list_elem_of_lookup_2|]. by apply (parse_network_admits v net).
Qed.

(** A list with an IPv4 prefix, an IPv6 address and a mapped literal: what
    admits [192.168.7.9], and that [10.0.0.5] is not admitted by its own
    mapped literal. *)
Lemma acl_contains_iff_entry_witness :
  ∃ acl, newClientACL [" 192.168.0.0/16"; "fd00::1"; "::ffff:10.0.0.5"] = inr acl ∧
    (∃ v, v ∈ [" 192.168.0.0/16"; "fd00::1"; "::ffff:10.0.0.5"] ∧ entry_admits v (v4InV6Prefix ++ [192; 168; 7; 9])) ∧
    ¬ entry_admits "::ffff:10.0.0.5" (v4InV6Prefix ++ [10; 0; 0; 5]).
Proof.
  set (values := [" 192.168.0.0/16"; "fd00::1"; "::ffff:10.0.0.5"]).
  assert (Hacl : ∃ acl, newClientACL values = inr acl ∧
    acl_contains acl (Some (v4InV6Prefix ++ [192; 168; 7; 9])) = true ∧
    acl_contains acl (Some (v4InV6Prefix ++ [10; 0; 0; 5])) = false) by (eexists; vm_compute; split_and!; reflexivity).
  destruct Hacl as (acl & Hacl & Hin & Hout). exists acl. split; [exact Hacl|]. split.
  - apply (acl_contains_iff_entry values acl _ Hacl) in Hin as [?|(i & v & [= <-] & Hv & Hin)]; [done|by exists v|].
    intros i [= <-]. split; [done|repeat constructor; done].
  - intros He. cut (acl_contains acl (Some (v4InV6Prefix ++ [10; 0; 0; 5])) = true); [by rewrite Hout|].
    apply (acl_contains_iff_entry values acl _ Hacl).
    + intros i [= <-]. split; [done|repeat constructor; done].
    + right. eexists _, "::ffff:10.0.0.5". split_and!; [done| |exact He]. by do 2 right; left.
Defined.

(** An access list whose entries passed the configuration's validation is
    always built: neither [New] nor [Reload] can fail on the networks of a
    validated configuration. *)
Theorem validated_networks_build values :
  (∀ v, v ∈ values → network_validate v = None) → ∃ acl, newClientACL values = inr acl.
Proof.
  intros Hv. apply newClientACL_loop_ok. intros v Hin. apply parse_network_ok, network_validate_None, Hv, Hin.
Qed.

Lemma validated_networks_build_witness :
  ∃ acl, newClientACL ["10.0.0.0/8"; "fd00::1"; "::ffff:10.0.0.5"] = inr acl.
Proof.
  apply (validated_networks_build ["10.0.0.0/8"; "fd00::1"; "::ffff:10.0.0.5"]).
  intros v Hv. rewrite !elem_of_cons in Hv. destruct Hv as [->|[->|[->|Hv]]]; [vm_compute; reflexivity..|].
  by apply elem_of_nil in Hv.
Defined.

(** C38: an entry that writes an IPv4 address as an IPv6 literal is turned into
    a network of 32 bits: it admits no IPv4 address, its own included, and
    every IPv6 address whose first 32 bits are zero, such as [::1]. *)
Theorem mapped_literal_widened v :
  mapped_literal v = true →
  ∃ net, parse_network v = inr net ∧
    ∀ ip, is_ip ip → IPNet_Contains net ip = true ↔ agree 32 (repeat 0 16) ip ∧ is_v4 ip = false.
Proof. apply parse_mapped. Qed.

Lemma mapped_literal_widened_witness :
  ∃ net, parse_network "::ffff:10.0.0.5" = inr net ∧
    IPNet_Contains net (v4InV6Prefix ++ [10; 0; 0; 5]) = false ∧
    IPNet_Contains net (repeat 0 15 ++ [1]) = true.
Proof.
  destruct (mapped_literal_widened "::ffff:10.0.0.5") as (net & Hp & Hs); [reflexivity|].
  exists net. split; [exact Hp|]. split.
  - apply not_true_is_false. intros Hc%Hs; [|split; [done|by repeat constructor]]. by destruct Hc as [_ ?].
  - apply Hs; [split; [done|by repeat constructor]|]. split; [|done].
    intros k Hk. assert (k < 32)%nat as Hk' by lia. clear Hk.
    do 32 (destruct k as [|k]; [reflexivity|]). lia.
Defined.

(** Unless the direct peer is a trusted proxy, the effective client is the
    peer and the [X-Forwarded-For] header plays no part. *)
Theorem untrusted_peer_header_ignored remoteAddr forwarded trusted :
  (∀ t, trusted = Some t → acl_contains t (parseRemoteIP remoteAddr) = false) →
  forwardedClientIP remoteAddr forwarded trusted = parseRemoteIP remoteAddr.
Proof.
  intros Ht. unfold forwardedClientIP. destruct trusted as [t|]; [|done]. by rewrite (Ht t eq_refl).
Qed.

Definition loopback_acl : clientACL := mkACL [net16 (repeat 0 15 ++ [1]) 128].

Lemma untrusted_peer_header_ignored_witness :
  forwardedClientIP "203.0.113.9:4711" "10.0.0.1" (Some loopback_acl)
  = Some (v4InV6Prefix ++ [203; 0; 113; 9]).
Proof.
  apply (untrusted_peer_header_ignored "203.0.113.9:4711" "10.0.0.1" (Some loopback_acl)).
  intros t [= <-]. vm_compute. reflexivity.
Defined.

(** The entries of a line that end with [later] are walked from there. *)
Lemma split_entries before client later :
  contains client "," = false → Forall (λ p, contains p "," = false) later →
  ∃ earlier, reverse (split (join (before ++ client :: later) ",") ",") = reverse later ++ client :: earlier.
Proof.
  intros Hclient Hlater. assert (Hs : split (join (client :: later) ",") "," = client :: later)
    by (apply split_join; [done|by constructor]).
  destruct before as [|b before].
  - exists []. by rewrite app_nil_l, Hs, reverse_cons.
  - rewrite join_strings_app by done. change ("," +:+ join (client :: later) ",") with (String "," (join (client :: later) ",")).
    rewrite split_app, Hs, reverse_app, reverse_cons, <- app_assoc. simpl app. by eexists.
Qed.

Lemma header_Get_first h line rest :
  h !! "X-Forwarded-For" = Some (line :: rest) → header_Get h "X-Forwarded-For" = line.
Proof. unfold header_Get. change (CanonicalHeaderKey "X-Forwarded-For") with "X-Forwarded-For". by intros ->. Qed.

(** The last untrusted entry of the first line decides. *)
Lemma client_ip_first_line r t before client later more c :
  acl_contains t (parseRemoteIP (RemoteAddr r)) = true →
  r_Header r !! "X-Forwarded-For" = Some (join (before ++ client :: later) "," :: more) →
  contains client "," = false → Forall (λ p, contains p "," = false) later →
  ParseIP (trim_space client) = Some c → acl_contains t (Some c) = false →
  (∀ p, p ∈ later → skipped t p) →
  client_ip r (Some t) = Some c.
Proof.
  intros Hpeer Hline Hclient Hlater Hc Hun Hskip. unfold client_ip, forwardedClientIP.
  rewrite Hpeer, (header_Get_first _ _ _ Hline). simpl negb. cbv iota.
  destruct (split_entries before client later Hclient Hlater) as [earlier ->].
  apply forwarded_walk_hit; [|done..]. intros q Hq. apply Hskip. by apply elem_of_reverse.
Qed.

(** C8: A client cannot choose its address when the proxies extend the line
    that it sent.  The request comes from a trusted proxy, and in its first
    [X-Forwarded-For] line (the only one that is read) the client's own
    address, untrusted, is followed by entries that are trusted or unreadable
    only.  Then the effective client is that address, whatever entries the
    client had put in the line before it, if any, and whatever other lines
    follow.  For a proxy that adds a line of its own instead, see
    [added_line_spoofed] of [Gateway.v]. *)
Theorem forwarded_no_spoofing r t claimed client later more c :
  acl_contains t (parseRemoteIP (RemoteAddr r)) = true →
  r_Header r !! "X-Forwarded-For" = Some (join (claimed ++ client :: later) "," :: more) →
  contains client "," = false → Forall (λ p, contains p "," = false) later →
  ParseIP (trim_space client) = Some c → acl_contains t (Some c) = false →
  (∀ p, p ∈ later → skipped t p) →
  client_ip r (Some t) = Some c.
Proof. apply client_ip_first_line. Qed.

Definition forwarded_request (lines : list string) : Request :=
  mkRequest "GET" "/v1/models" "" "gw" "[::1]:80" false {[ "X-Forwarded-For" := lines ]} "".

(** With and without entries of the client's own. *)
Lemma forwarded_no_spoofing_witness :
  client_ip (forwarded_request ["10.0.0.1, 203.0.113.9, ::1"]) (Some loopback_acl)
  = Some (v4InV6Prefix ++ [203; 0; 113; 9])
  ∧ client_ip (forwarded_request ["203.0.113.9"]) (Some loopback_acl)
  = Some (v4InV6Prefix ++ [203; 0; 113; 9]).
Proof.
  split.
  - apply (forwarded_no_spoofing _ loopback_acl ["10.0.0.1"] " 203.0.113.9" [" ::1"] []);
      [vm_compute; reflexivity|reflexivity|reflexivity|by repeat constructor|vm_compute; reflexivity|vm_compute; reflexivity|].
    intros p Hp%list_elem_of_singleton c Hc. subst p. vm_compute in Hc. injection Hc as <-. vm_compute. reflexivity.
  - apply (forwarded_no_spoofing _ loopback_acl [] "203.0.113.9" [] []);
      [vm_compute; reflexivity|reflexivity|reflexivity|by constructor|vm_compute; reflexivity|vm_compute; reflexivity|].
    intros p Hp. by apply elem_of_nil in Hp.
Defined.

(** The effective client is the direct peer, or the last readable entry of
    the header that is not a trusted proxy (all entries after it are trusted or
    unreadable): a trusted proxy is never taken for the client of another one. *)
Theorem forwarded_client_boundary remoteAddr forwarded trusted :
  let r := forwardedClientIP remoteAddr forwarded trusted in
  r = parseRemoteIP remoteAddr ∨
  ∃ t c before p after, trusted = Some t ∧ r = Some c ∧
    split forwarded "," = before ++ p :: after ∧ ParseIP (trim_space p) = Some c ∧
    acl_contains t (Some c) = false ∧ ∀ q, q ∈ after → skipped t q.
Proof.
  cbv zeta. unfold forwardedClientIP. destruct trusted as [t|]; [|by left].
  destruct (acl_contains t (parseRemoteIP remoteAddr)); simpl; [|by left].
  destruct (forwarded_walk_inv t (reverse (split forwarded ",")) (parseRemoteIP remoteAddr) _ eq_refl)
    as [[Hr _]|(later & p & rest & c & Hs & Hr & Hp & Hc & Hl)]; [by left|right].
  exists t, c, (reverse rest), p, (reverse later). split_and!; try done.
  - rewrite <- (reverse_involutive (split forwarded ",")), Hs, reverse_app, reverse_cons, <- app_assoc. done.
  - intros q Hq. apply Hl. by apply elem_of_reverse.
Qed.
