(* ===== verification/Headers.v ===== *)
(** * Headers and identities

    What crosses the boundaries of the gateway: the headers that go to a
    provider and to a client ([gateway.go]), the ones that are logged
    ([logging.go]), the check of the inbound credential ([gateway.go]) and the
    identity a request is accounted under ([limiter.go]).  The environment is
    a function [getenv]. *)

From Stdlib Require Import ZArith Lia Ascii.
From S2P Require Import Prelude GoStrings NetIP SHA256 Http Value Config ACL.

Local Open Scope Z_scope.

(** ** Allow lists *)
Definition forwardedRequestHeaders : list string := ["accept"; "idempotency-key"; "x-request-id"].

Definition forwardedResponseHeaders : list string :=
  ["cache-control"; "content-encoding"; "content-type"; "openai-processing-ms"; "request-id";
   "retry-after"; "x-request-id"].

Definition sensitiveHeaders : list string :=
  ["authorization"; "proxy-authorization"; "cookie"; "set-cookie"; "x-api-key"].

Section Copy.
Context `{MapOrder}.

(** The common body of [copyRequestHeaders] and [copyResponseHeaders]. *)
Definition copy_allowed (allow : list string) (dst src : Header) : Header :=
  foldl (λ dst nv,
    if bool_decide (to_lower nv.1 ∈ allow) then foldl (λ d v, header_Add nv.1 v d) dst nv.2 else dst)
    dst (map_range src).

Definition copyRequestHeaders (dst src : Header) : Header := copy_allowed forwardedRequestHeaders dst src.
Definition copyResponseHeaders (dst src : Header) : Header := copy_allowed forwardedResponseHeaders dst src.

(** [applyProviderHeaders]: [inl] is the name of an empty variable. *)
Definition applyProviderHeaders (getenv : string → string) (h : Header) (p : ProviderConfig)
    : string + Header :=
  let finish (h : Header) := inr (foldl (λ h nv, header_Set nv.1 nv.2 h) h (map_range (Headers p))) in
  if negb (bool_decide (APIKeyEnv p = "")) then
    let key := getenv (APIKeyEnv p) in
    if bool_decide (key = "") then inl (APIKeyEnv p)
    else finish (header_Set "Authorization" ("Bearer " +:+ key) h)
  else finish (header_Del "Authorization" h).

(** The header of the request of [doUpstreamRequest]. *)
Definition upstreamHeader (getenv : string → string) (incoming : Header) (p : ProviderConfig)
    : string + Header :=
  applyProviderHeaders getenv (header_Set "Content-Type" "application/json" (copyRequestHeaders ∅ incoming)) p.

(** [loggedHeaders]: a fresh map, so the header itself is untouched. *)
Definition loggedHeaders (h : Header) : gmap string string :=
  foldl (λ result nv,
    <[nv.1 := if bool_decide (to_lower nv.1 ∈ sensitiveHeaders) then "[REDACTED]" else join nv.2 ", "]> result)
    ∅ (map_range h).
End Copy.

(** ** Credentials *)

(** [subtle.ConstantTimeCompare] returns 1 exactly on equal strings. *)
Definition authorized (r : Request) (keys : list string) : bool :=
  if bool_decide (keys = []) then true
  else
    let auth := header_Get (r_Header r) "Authorization" in
    if negb (has_prefix auth "Bearer ") then false
    else
      let given := trim_space (trim_prefix auth "Bearer ") in
      existsb (λ expected, bool_decide (given = expected)) keys.

(** ** Identities *)

(** [%x] on a byte slice. *)
Definition hex_bytes (l : list Z) : string :=
  foldr (λ b acc, String (hex_char (b / 16)) (String (hex_char (b mod 16)) acc)) "" l.

Definition fingerprintIdentity (kind value : string) : string :=
  kind +:+ ":" +:+ hex_bytes (take 8 (Sum256 value)).

Definition clientIdentity (r : Request) (trusted : option clientACL) : string :=
  let auth := header_Get (r_Header r) "Authorization" in
  if negb (bool_decide (auth = "")) then fingerprintIdentity "key" auth
  else
    match client_ip r trusted with
    | Some ip => fingerprintIdentity "ip" (IP_String ip)
    | None => fingerprintIdentity "ip" (RemoteAddr r)
    end.

Definition requestBaseURL (r : Request) : string :=
  let forwarded := header_Get (r_Header r) "X-Forwarded-Proto" in
  let scheme := if bool_decide (forwarded = "") then (if r_TLS r then "https" else "http") else forwarded in
  scheme +:+ "://" +:+ r_Host r.

(** ** Lemmas on the copy loops *)

Lemma foldl_Add name values d :
  values ≠ [] →
  foldl (λ d v, header_Add name v d) d values
  = <[CanonicalHeaderKey name := map_get [] d (CanonicalHeaderKey name) ++ values]> d.
Proof.
  unfold header_Add. revert d. induction values as [|v values IH]; intros d Hne; [done|]. simpl.
  destruct values as [|v' values]; [done|]. rewrite IH by done.
  rewrite insert_insert_eq. f_equal. rewrite map_get_insert, <- app_assoc. done.
Qed.

(** The entries of a list of header fields under one canonical name. *)
Definition values_of (allow : list string) (l : list (string * list string)) (name : string) : list string :=
  mjoin ((λ nv, if bool_decide (to_lower nv.1 ∈ allow ∧ CanonicalHeaderKey nv.1 = name) then nv.2 else []) <$> l).

Lemma values_of_cons allow n v l name :
  values_of allow ((n, v) :: l) name
  = (if bool_decide (to_lower n ∈ allow ∧ CanonicalHeaderKey n = name) then v else []) ++ values_of allow l name.
Proof. done. Qed.

Definition nonempty (l : list string) : option (list string) := match l with [] => None | _ => Some l end.

Lemma copy_loop_lookup allow l dst name :
  (∀ n v, dst !! n = Some v → v ≠ []) →
  foldl (λ dst nv,
    if bool_decide (to_lower nv.1 ∈ allow) then foldl (λ d v, header_Add nv.1 v d) dst nv.2 else dst)
    dst l !! name = nonempty (map_get [] dst name ++ values_of allow l name).
Proof.
  revert dst. induction l as [|[n v] l IH]; intros dst Hne.
  { simpl. unfold values_of, map_get. simpl. rewrite app_nil_r. destruct (dst !! name) as [v|] eqn:E; [|done].
    simpl. destruct v; [by destruct (Hne _ _ E)|done]. }
  cbn [foldl fst snd]. rewrite values_of_cons.
  destruct (decide (to_lower n ∈ allow)) as [Hin|Hin].
  - rewrite (bool_decide_eq_true_2 (to_lower n ∈ allow)) by done.
    destruct (decide (v = [])) as [->|Hv].
    { simpl. rewrite IH by done. by destruct (bool_decide _). }
    rewrite foldl_Add by done. rewrite IH.
    + destruct (decide (CanonicalHeaderKey n = name)) as [<-|Hn].
      * rewrite bool_decide_eq_true_2 by done. by rewrite map_get_insert, <- app_assoc.
      * rewrite bool_decide_eq_false_2 by naive_solver. by rewrite map_get_insert_ne.
    + intros n' v' [[_ <-]|[_ H']]%lookup_insert_Some; [|eauto].
      intros [_ ?]%app_eq_nil. done.
  - rewrite (bool_decide_eq_false_2 (to_lower n ∈ allow)) by done.
    rewrite bool_decide_eq_false_2 by naive_solver. by apply IH.
Qed.

Lemma values_of_other allow l name :
  (∀ n v, (n, v) ∈ l → CanonicalHeaderKey n = n) → name ∉ l.*1 → values_of allow l name = [].
Proof.
  intros Hc Hn. induction l as [|[n v] l IH]; [done|]. rewrite values_of_cons.
  rewrite bool_decide_eq_false_2.
  - apply IH; set_solver.
  - intros [_ He]. rewrite (Hc n v) in He by set_solver. subst. set_solver.
Qed.

Lemma values_of_canonical allow l name :
  NoDup l.*1 → (∀ n v, (n, v) ∈ l → CanonicalHeaderKey n = n) →
  ∀ v, (name, v) ∈ l → values_of allow l name = if bool_decide (to_lower name ∈ allow) then v else [].
Proof.
  induction l as [|[n v] l IH]; [set_solver|]. rewrite fmap_cons, NoDup_cons. intros [Hni Hnd] Hc w Hin.
  rewrite values_of_cons.
  apply elem_of_cons in Hin as [[= -> ->]|Hin].
  - rewrite values_of_other; [|set_solver|done]. rewrite app_nil_r, (Hc n v) by set_solver.
    by rewrite (bool_decide_ext _ (to_lower n ∈ allow)) by naive_solver.
  - rewrite bool_decide_eq_false_2.
    + simpl. apply IH; [done|set_solver|done].
    + intros [_ He]. rewrite (Hc n v) in He by set_solver. subst.
      apply Hni. apply list_elem_of_fmap. by exists (name, w).
Qed.

(** What the copy of a parsed header contains: the allowed fields, with all
    their values, and nothing else. *)
Lemma copy_allowed_lookup `{MapOrder} allow src name :
  canonical_header src →
  copy_allowed allow ∅ src !! name
  = if bool_decide (to_lower name ∈ allow) then src !! name ≫= nonempty else None.
Proof.
  intros Hc. unfold copy_allowed. rewrite copy_loop_lookup by done.
  rewrite map_get_empty. simpl app.
  assert (Hcl : ∀ n v, (n, v) ∈ map_range src → CanonicalHeaderKey n = n)
    by (intros n v Hin; apply elem_of_map_range in Hin; eauto).
  destruct (src !! name) as [v|] eqn:E.
  - rewrite (values_of_canonical allow _ _ (NoDup_map_range src) Hcl v) by (by apply elem_of_map_range).
    by destruct (bool_decide _).
  - rewrite values_of_other; [by destruct (bool_decide _)|done|].
    intros ([n v] & -> & Hin)%list_elem_of_fmap. apply elem_of_map_range in Hin. simpl in E. congruence.
Qed.

(** The last value that a list of [Set] calls gives to a name. *)
Definition last_set (l : list (string * string)) (name : string) : option string :=
  foldl (λ acc nv, if bool_decide (CanonicalHeaderKey nv.1 = name) then Some nv.2 else acc) None l.

Lemma foldl_last_set l name acc :
  foldl (λ acc nv, if bool_decide (CanonicalHeaderKey nv.1 = name) then Some nv.2 else acc) acc l
  = match last_set l name with Some v => Some v | None => acc end.
Proof.
  unfold last_set. induction l as [|[n v] l IH] using rev_ind; [done|].
  rewrite !foldl_app. simpl. case_if; [done|]. apply IH.
Qed.

Lemma foldl_Set_lookup l h name :
  foldl (λ h nv, header_Set nv.1 nv.2 h) h l !! name
  = match last_set l name with Some v => Some [v] | None => h !! name end.
Proof.
  unfold last_set. induction l as [|[n v] l IH] using rev_ind; [done|].
  rewrite !foldl_app. simpl. unfold header_Set at 1. case_bool_decide as Hn.
  - subst. by rewrite lookup_insert_eq.
  - by rewrite lookup_insert_ne.
Qed.

Lemma canonical_names : CanonicalHeaderKey "Authorization" = "Authorization" ∧
  CanonicalHeaderKey "Content-Type" = "Content-Type".
Proof. by vm_compute. Qed.

Lemma loggedHeaders_lookup `{MapOrder} h name :
  loggedHeaders h !! name
  = (λ v, if bool_decide (to_lower name ∈ sensitiveHeaders) then "[REDACTED]" else join v ", ") <$> h !! name.
Proof.
  unfold loggedHeaders.
  assert (Hl : ∀ l acc, NoDup l.*1 →
    (foldl (λ result nv,
      <[nv.1 := if bool_decide (to_lower nv.1 ∈ sensitiveHeaders) then "[REDACTED]" else join nv.2 ", "]> result)
      acc l : gmap string string) !! name
    = match (list_to_map l : gmap string (list string)) !! name with
      | Some v => Some (if bool_decide (to_lower name ∈ sensitiveHeaders) then "[REDACTED]" else join v ", ")
      | None => acc !! name end).
  { induction l as [|[n v] l IH]; intros acc; [done|]. rewrite fmap_cons, NoDup_cons. intros [Hn Hnd].
    cbn [foldl fst snd]. rewrite IH by done. rewrite list_to_map_cons. destruct (decide (n = name)) as [->|Hne].
    - rewrite (not_elem_of_list_to_map_1 l name Hn), !lookup_insert_eq. done.
    - rewrite !lookup_insert_ne by done. done. }
  rewrite Hl by apply NoDup_map_range. rewrite lookup_empty.
  assert (list_to_map (map_range h) = h) as ->.
  { rewrite <- (list_to_map_to_list h) at 2. apply list_to_map_proper; [apply NoDup_map_range|apply map_range_perm]. }
  by destruct (h !! name).
Qed.

Lemma hex_bytes_length l : String.length (hex_bytes l) = (2 * length l)%nat.
Proof. induction l as [|b l IH]; simpl; [done|]. rewrite IH. lia. Qed.

Definition hex_lower (c : ascii) : bool :=
  is_digit c || (is_lower c && Nat.leb (nat_of_ascii c) 102).

Lemma hex_char_lower d : 0 ≤ d < 16 → hex_lower (hex_char d) = true.
Proof.
  intros Hd. assert (d ∈ seqZ 0 16) as Hin by (apply elem_of_seqZ; lia). revert d Hd Hin.
  assert (Hall : Forall (λ d, hex_lower (hex_char d) = true) (seqZ 0 16))
    by (apply (bool_decide_unpack _); vm_compute; exact I).
  rewrite Forall_forall in Hall. auto.
Qed.

Lemma hex_bytes_lower l : Forall (λ b, 0 ≤ b < 256) l → string_forallb hex_lower (hex_bytes l) = true.
Proof.
  induction 1 as [|b l Hb _ IH]; simpl; [done|].
  rewrite IH, !hex_char_lower; [done|..].
  - apply Z.mod_pos_bound. lia.
  - split; [apply Z.div_pos; lia|apply Z.div_lt_upper_bound; lia].
Qed.

(** ** Properties *)

Section Properties.
Context `{MapOrder}.

(** C7: the headers of a request to a provider, name by name: the headers
    configured for the provider; else the credential of the provider's
    environment variable, never the client's; else the fixed content type;
    else the client's values of the three allowed fields.  Nothing else is
    sent. *)
Theorem upstream_header_spec getenv incoming p u name :
  canonical_header incoming → upstreamHeader getenv incoming p = inr u →
  u !! name
  = match last_set (map_range (Headers p)) name with
    | Some v => Some [v]
    | None =>
        if decide (name = "Authorization") then
          if decide (APIKeyEnv p = "") then None else Some ["Bearer " +:+ getenv (APIKeyEnv p)]
        else if decide (name = "Content-Type") then Some ["application/json"]
        else if decide (to_lower name ∈ forwardedRequestHeaders) then incoming !! name ≫= nonempty
        else None
    end.
Proof.
  intros Hc. unfold upstreamHeader, applyProviderHeaders. destruct canonical_names as [Ha Ht].
  assert (Hbase : name ≠ "Authorization" →
    header_Set "Content-Type" "application/json" (copyRequestHeaders ∅ incoming) !! name
    = if decide (name = "Content-Type") then Some ["application/json"]
      else if decide (to_lower name ∈ forwardedRequestHeaders) then incoming !! name ≫= nonempty else None).
  { intros Hne. unfold header_Set. rewrite Ht. destruct (decide (name = "Content-Type")) as [->|Hn].
    - by rewrite lookup_insert_eq.
    - rewrite lookup_insert_ne by done. unfold copyRequestHeaders. rewrite copy_allowed_lookup by done.
      case_decide; [by rewrite bool_decide_eq_true_2|by rewrite bool_decide_eq_false_2]. }
  destruct (decide (APIKeyEnv p = "")) as [He|He].
  - rewrite bool_decide_eq_true_2 by done. simpl. intros [= <-]. rewrite foldl_Set_lookup.
    destruct (last_set _ _); [done|]. unfold header_Del. rewrite Ha. destruct (decide (name = "Authorization")) as [->|Hn].
    + by rewrite lookup_delete_eq.
    + rewrite lookup_delete_ne by done. by apply Hbase.
  - rewrite bool_decide_eq_false_2 by done. simpl. case_bool_decide; [done|].
    intros [= <-]. rewrite foldl_Set_lookup. destruct (last_set _ _); [done|].
    unfold header_Set at 1. rewrite Ha. destruct (decide (name = "Authorization")) as [->|Hn].
    + by rewrite lookup_insert_eq.
    + rewrite lookup_insert_ne by done. by apply Hbase.
Qed.

(** Non-interference.  Two client requests that agree on the allowed
    fields lead to the same upstream header: whatever else a client sends, its
    credentials and cookies in particular, has no influence on it. *)
Theorem upstream_header_noninterference getenv h1 h2 p :
  canonical_header h1 → canonical_header h2 →
  (∀ name, to_lower name ∈ forwardedRequestHeaders → h1 !! name = h2 !! name) →
  upstreamHeader getenv h1 p = upstreamHeader getenv h2 p.
Proof.
  intros Hc1 Hc2 Hagree. unfold upstreamHeader. do 2 f_equal. apply map_eq. intros name.
  unfold copyRequestHeaders. rewrite !copy_allowed_lookup by done. case_bool_decide; [|done].
  by rewrite Hagree.
Qed.

(** Of a provider's response headers the client sees exactly the allowed
    ones, unchanged: no cookie or custom header crosses the boundary. *)
Theorem response_header_spec src name :
  canonical_header src →
  copyResponseHeaders ∅ src !! name
  = if decide (to_lower name ∈ forwardedResponseHeaders) then src !! name ≫= nonempty else None.
Proof.
  intros Hc. unfold copyResponseHeaders. rewrite copy_allowed_lookup by done.
  by rewrite decide_bool_decide.
Qed.

(** C31: Logging reveals nothing of the values of the five fields on the
    code's list of sensitive headers ([Authorization], [Proxy-Authorization],
    [Cookie], [Set-Cookie] and [X-Api-Key], in any case): each that is present
    is logged as redacted, and two headers with the same fields that differ in
    the values of these only are logged alike. *)
Theorem logged_headers_redacted h1 h2 :
  dom h1 = dom h2 →
  (∀ name, to_lower name ∉ sensitiveHeaders → h1 !! name = h2 !! name) →
  loggedHeaders h1 = loggedHeaders h2
  ∧ ∀ name, name ∈ dom h1 → to_lower name ∈ sensitiveHeaders → loggedHeaders h1 !! name = Some "[REDACTED]".
Proof.
  intros Hdom Hagree. split.
  - apply map_eq. intros name. rewrite !loggedHeaders_lookup. case_bool_decide as Hs.
    + assert (is_Some (h1 !! name) ↔ is_Some (h2 !! name)) as Hiff by (rewrite <- !elem_of_dom; by rewrite Hdom).
      destruct (h1 !! name), (h2 !! name); simpl; try done; exfalso;
        [by destruct (proj1 Hiff (mk_is_Some _ _ eq_refl))|by destruct (proj2 Hiff (mk_is_Some _ _ eq_refl))].
    + by rewrite Hagree.
  - intros name [v Hv]%elem_of_dom Hs. rewrite loggedHeaders_lookup, Hv. simpl. by rewrite bool_decide_eq_true_2.
Qed.

(** Every other field is logged in full, whatever it holds. *)
Lemma other_headers_logged h name values :
  h !! name = Some values → to_lower name ∉ sensitiveHeaders →
  loggedHeaders h !! name = Some (join values ", ").
Proof. intros Hl Hs. rewrite loggedHeaders_lookup, Hl. simpl. by rewrite bool_decide_eq_false_2. Qed.
End Properties.

Definition example_incoming : Header :=
  {[ "Authorization" := ["Bearer client"]; "Accept" := ["text/event-stream"]; "Cookie" := ["a=b"] ]}.

Definition example_provider : ProviderConfig :=
  mkProviderConfig "https://api.example.com/v1" "openai" "KEY" ∅ (mkAutodiscoverConfig false "" 0)
    (mkLimits Float64.f64_zero 0 0) 0.

Definition example_env (name : string) : string := if decide (name = "KEY") then "sk-1" else "".

Lemma example_incoming_canonical : canonical_header example_incoming.
Proof.
  intros n v Hn. unfold example_incoming in Hn.
  apply lookup_insert_Some in Hn as [[<- _]|[_ Hn]]; [by vm_compute|].
  apply lookup_insert_Some in Hn as [[<- _]|[_ Hn]]; [by vm_compute|].
  by apply lookup_singleton_Some in Hn as [<- _].
Qed.

Lemma upstream_header_spec_witness :
  ∃ u, upstreamHeader (H := order_forward) example_env example_incoming example_provider = inr u ∧
    u !! "Authorization" = Some ["Bearer sk-1"] ∧ u !! "Cookie" = None.
Proof.
  eexists. split; [reflexivity|]. split.
  - rewrite (upstream_header_spec (H := order_forward) example_env example_incoming example_provider
      _ "Authorization" example_incoming_canonical eq_refl). reflexivity.
  - rewrite (upstream_header_spec (H := order_forward) example_env example_incoming example_provider
      _ "Cookie" example_incoming_canonical eq_refl). reflexivity.
Defined.

Lemma upstream_header_noninterference_witness :
  upstreamHeader (H := order_forward) example_env example_incoming example_provider
  = upstreamHeader (H := order_forward) example_env (delete "Authorization" example_incoming) example_provider.
Proof.
  apply (upstream_header_noninterference (H := order_forward) example_env example_incoming
    (delete "Authorization" example_incoming) example_provider).
  - apply example_incoming_canonical.
  - intros n v [_ Hn]%lookup_delete_Some. by eapply example_incoming_canonical.
  - intros name Hn. rewrite lookup_delete_ne; [done|]. intros <-.
    revert Hn. apply (bool_decide_unpack (_ ∉ _)). vm_compute. exact I.
Defined.

Lemma response_header_spec_witness :
  copyResponseHeaders (H := order_forward) ∅ {[ "Set-Cookie" := ["a=b"] ]} !! "Set-Cookie" = None.
Proof.
  rewrite (response_header_spec (H := order_forward)); [reflexivity|].
  intros n v Hn. by apply lookup_singleton_Some in Hn as [<- _].
Defined.

Lemma logged_headers_redacted_witness :
  loggedHeaders (H := order_forward) {[ "Authorization" := ["Bearer a"] ]}
  = loggedHeaders (H := order_forward) {[ "Authorization" := ["Bearer b"] ]}.
Proof.
  apply (logged_headers_redacted (H := order_forward) {[ "Authorization" := ["Bearer a"] ]}
           {[ "Authorization" := ["Bearer b"] ]}).
  - by rewrite !dom_singleton_L.
  - intros name Hn. rewrite !lookup_singleton_ne; [done|intros <-; apply Hn..];
      apply (bool_decide_unpack _); vm_compute; exact I.
Defined.

(** C32: a request is authorised exactly when no key is configured, or its
    [Authorization] field is the scheme [Bearer ] followed by a configured key,
    white space around it ignored. *)
Theorem authorized_iff r keys :
  authorized r keys = true ↔
  keys = [] ∨
  ∃ t, header_Get (r_Header r) "Authorization" = "Bearer " +:+ t ∧ trim_space t ∈ keys.
Proof.
  unfold authorized. case_bool_decide as Hk; [naive_solver|].
  destruct (has_prefix _ "Bearer ") eqn:Ep; simpl.
  - apply has_prefix_spec in Ep as [t Ht]. rewrite Ht, trim_prefix_app, existsb_exists. split.
    + intros (k & Hin & He%bool_decide_eq_true). right. exists t. split; [done|].
      rewrite He. by apply list_elem_of_In.
    + intros [?|(t' & Ht' & Hin)]; [done|]. exists (trim_space t).
      rewrite bool_decide_eq_true_2 by done. split; [|done].
      apply (f_equal (λ s, trim_prefix s "Bearer ")) in Ht'. rewrite !trim_prefix_app in Ht'. subst.
      by apply list_elem_of_In.
  - split; [done|]. intros [?|(t & Ht & _)]; [done|].
    rewrite Ht, has_prefix_app in Ep. done.
Qed.

(** The identity of a request is a tag and 16 hexadecimal digits of a
    digest: the credential or the address itself is not kept.  It depends on
    the [Authorization] field alone when that is present, and on the effective
    client address (or the unreadable peer address) otherwise. *)
Theorem identity_pseudonymous r trusted :
  (∃ kind h, clientIdentity r trusted = kind +:+ ":" +:+ h ∧
     String.length h = 16%nat ∧ string_forallb hex_lower h = true ∧
     kind = if decide (header_Get (r_Header r) "Authorization" = "") then "ip" else "key") ∧
  (∀ r' trusted', header_Get (r_Header r) "Authorization" ≠ "" →
     header_Get (r_Header r') "Authorization" = header_Get (r_Header r) "Authorization" →
     clientIdentity r' trusted' = clientIdentity r trusted).
Proof.
  assert (Hf : ∀ kind v, ∃ h, fingerprintIdentity kind v = kind +:+ ":" +:+ h ∧
    String.length h = 16%nat ∧ string_forallb hex_lower h = true).
  { intros kind v. exists (hex_bytes (take 8 (Sum256 v))). split; [done|]. split.
    - rewrite hex_bytes_length, length_take, Sum256_length. done.
    - apply hex_bytes_lower, Forall_take, Sum256_bytes. }
  split.
  - unfold clientIdentity. case_bool_decide as Ha; simpl.
    + rewrite decide_True by done. exists "ip".
      destruct (client_ip _ _); edestruct Hf as (h & ? & ? & ?); exists h; eauto.
    + rewrite decide_False by done. exists "key". edestruct Hf as (h & ? & ? & ?). exists h. eauto.
  - intros r' trusted' Hne He. unfold clientIdentity. rewrite He.
    by rewrite bool_decide_eq_false_2.
Qed.

Definition bearer_request (value : string) : Request :=
  mkRequest "POST" "/v1/chat/completions" "" "shepard" "192.0.2.1:5000" false
    {[ "Authorization" := [value] ]} "".

(** The identity under which a client is limited is not the credential
    that authorises it.  One key can be sent with extra white space, and
    without configured keys any value of the field is accepted: each spelling
    counts as another client, with its own limits. *)
Theorem client_limits_evaded :
  (authorized (bearer_request "Bearer s3cret") ["s3cret"] = true ∧
   authorized (bearer_request "Bearer  s3cret") ["s3cret"] = true ∧
   clientIdentity (bearer_request "Bearer s3cret") None
   ≠ clientIdentity (bearer_request "Bearer  s3cret") None) ∧
  (authorized (bearer_request "x") [] = true ∧ authorized (bearer_request "y") [] = true ∧
   clientIdentity (bearer_request "x") None ≠ clientIdentity (bearer_request "y") None).
Proof. split; (split; [reflexivity|]); (split; [reflexivity|]); apply (bool_decide_unpack _); vm_compute; exact I. Qed.

(** A credential in a field that is not on the redaction list, such as
    Azure's [api-key], is logged in the clear. *)
Theorem api_key_header_logged (order : MapOrder) secret :
  loggedHeaders (H := order) {[ "Api-Key" := [secret] ]} !! "Api-Key" = Some secret.
Proof. rewrite loggedHeaders_lookup, lookup_singleton_eq. reflexivity. Qed.
