(* ===== verification/Payload.v ===== *)
(** * The request body on its way to a provider ([gateway.go])

    The decoded client request is a [map[string]any]; [proxy] applies the
    model's system prompt and overrides to it once, and for every target makes
    a copy with the target's model and the provider's field translations. *)

From Stdlib Require Import ZArith Lia Ascii.
From S2P Require Import Prelude GoStrings Float64 Value Config.

Local Open Scope Z_scope.

(** ** Prompts *)
Definition joinPrompt (parts : list string) : string :=
  join (filter (λ p, trim_space p ≠ "") parts) (String "010" (String "010" "")).

(** The loop of [applySystemPrompt] over the messages: the messages with the
    first system message of string content rewritten, or [None] when there is
    no such message. *)
Fixpoint rewrite_system (prepend append : string) (messages : list any) : option (list any) :=
  match messages with
  | [] => None
  | raw :: rest =>
      let continue := cons raw <$> rewrite_system prepend append rest in
      match as_object raw with
      | None => continue
      | Some message =>
          if bool_decide (as_string (message !! "role") = Some "system") then
            match as_string (message !! "content") with
            | None => continue
            | Some content =>
                Some (AObj (<["content" := AStr (joinPrompt [prepend; content; append])]> message) :: rest)
            end
          else continue
      end
  end.

Definition system_message (prompt : string) : any :=
  AObj (<["role" := AStr "system"]> (<["content" := AStr prompt]> ∅)).

Definition appendAny (head tail : list any) : list any := head ++ tail.

(** [inl] is the error "messages must be an array". *)
Definition applySystemPrompt (p : payload) (endpoint prepend append : string) : unit + payload :=
  if bool_decide (prepend = "" ∧ append = "") then inr p
  else if bool_decide (endpoint = "/v1/responses") then
    let current := default "" (as_string (p !! "instructions")) in
    inr (<["instructions" := AStr (joinPrompt [prepend; current; append])]> p)
  else
    match as_array (p !! "messages") with
    | None => inl tt
    | Some messages =>
        match rewrite_system prepend append messages with
        | Some messages' => inr (<["messages" := AArr messages']> p)
        | None =>
            inr (<["messages" := AArr (appendAny [system_message (joinPrompt [prepend; ""; append])] messages)]> p)
        end
    end.

(** ** Overrides and copies *)
Section Copy.
Context `{MapOrder}.

Definition applyRequestOverrides (p overrides : payload) : payload :=
  foldl (λ p kv, <[kv.1 := kv.2]> p) p (map_range overrides).

Definition clonePayload (p : payload) : payload :=
  foldl (λ clone kv, <[kv.1 := kv.2]> clone) ∅ (map_range p).
End Copy.

(** ** Provider compatibility *)

(** The type switch on a [thinking] or [think] value. *)
Definition effort (v : any) : option any :=
  match v with
  | ABool true => Some (AStr "medium")
  | ABool false => Some (AStr "none")
  | AStr s => Some (AStr s)
  | _ => None
  end.

(** One of the two blocks for Ollama, for the field [field]. *)
Definition translate_thinking (field : string) (p : payload) : payload :=
  match p !! field with
  | None => p
  | Some value =>
      delete field
        (match p !! "reasoning_effort" with
         | Some _ => p
         | None => match effort value with Some e => <["reasoning_effort" := e]> p | None => p end
         end)
  end.

Definition translate_max_tokens (p : payload) : payload :=
  match p !! "max_tokens" with
  | None => p
  | Some value =>
      delete "max_tokens"
        (match p !! "max_output_tokens" with
         | Some _ => p
         | None => <["max_output_tokens" := value]> p
         end)
  end.

Definition applyProviderCompatibility (p : payload) (endpoint protocol : string) : payload :=
  let p1 :=
    if bool_decide (protocol = "ollama")
    then translate_thinking "think" (translate_thinking "thinking" p) else p in
  if bool_decide (endpoint = "/v1/responses") then translate_max_tokens p1 else p1.

(** The body for one target: lines of the target loop of [proxy]. *)
Definition targetPayload `{MapOrder} (p : payload) (endpoint protocol model : string) : payload :=
  applyProviderCompatibility (<["model" := AStr model]> (clonePayload p)) endpoint protocol.

(** ** Lemmas *)

Lemma foldl_insert_union (l : list (string * any)) (p : payload) :
  NoDup l.*1 → foldl (λ p kv, <[kv.1 := kv.2]> p) p l = list_to_map l ∪ p.
Proof.
  revert p. induction l as [|[k v] l IH]; intros p; [simpl; by rewrite (left_id_L ∅ (∪))|].
  rewrite fmap_cons, NoDup_cons. intros [Hk Hnd]. cbn [foldl fst snd]. rewrite IH by done.
  rewrite list_to_map_cons, <- insert_union_r, insert_union_l; [done|].
  by apply not_elem_of_list_to_map_1.
Qed.

Lemma list_to_map_range `{MapOrder} {V} (m : gmap string V) : list_to_map (map_range m) = m.
Proof.
  rewrite <- (list_to_map_to_list m) at 2. apply list_to_map_proper; [apply NoDup_map_range|apply map_range_perm].
Qed.

(** Neither loop depends on the iteration order. *)
Lemma applyRequestOverrides_union `{MapOrder} p overrides :
  applyRequestOverrides p overrides = overrides ∪ p.
Proof.
  unfold applyRequestOverrides. rewrite foldl_insert_union by apply NoDup_map_range. by rewrite list_to_map_range.
Qed.

Lemma clonePayload_id `{MapOrder} p : clonePayload p = p.
Proof.
  unfold clonePayload. rewrite foldl_insert_union by apply NoDup_map_range.
  by rewrite list_to_map_range, (right_id_L ∅ (∪)).
Qed.

#[export] Hint Rewrite @applyRequestOverrides_union @clonePayload_id : go_rw.

Lemma translate_thinking_lookup field p k :
  field ≠ "reasoning_effort" →
  translate_thinking field p !! k
  = if decide (k = field) then None
    else if decide (k = "reasoning_effort") then
      match p !! "reasoning_effort" with Some v => Some v | None => p !! field ≫= effort end
    else p !! k.
Proof.
  intros Hf. unfold translate_thinking. destruct (decide (k = field)) as [->|Hk].
  - destruct (p !! field) as [v|] eqn:E; [by rewrite lookup_delete_eq|done].
  - destruct (p !! field) as [v|] eqn:E; simpl.
    + rewrite lookup_delete_ne by done. destruct (decide (k = "reasoning_effort")) as [->|Hr].
      * destruct (p !! "reasoning_effort") as [w|] eqn:Er; [done|].
        destruct (effort v); [by rewrite lookup_insert_eq|done].
      * destruct (p !! "reasoning_effort"); [done|].
        destruct (effort v); [by rewrite lookup_insert_ne|done].
    + destruct (decide (k = "reasoning_effort")) as [->|Hr]; [|done].
      by destruct (p !! "reasoning_effort").
Qed.

Lemma translate_max_tokens_lookup p k :
  translate_max_tokens p !! k
  = if decide (k = "max_tokens") then None
    else if decide (k = "max_output_tokens") then
      match p !! "max_output_tokens" with Some v => Some v | None => p !! "max_tokens" end
    else p !! k.
Proof.
  unfold translate_max_tokens. destruct (decide (k = "max_tokens")) as [->|Hk].
  - destruct (p !! "max_tokens") as [v|] eqn:E; [by rewrite lookup_delete_eq|done].
  - destruct (p !! "max_tokens") as [v|] eqn:E; simpl.
    + rewrite lookup_delete_ne by done. destruct (decide (k = "max_output_tokens")) as [->|Hr].
      * destruct (p !! "max_output_tokens") eqn:Er; [done|]. by rewrite lookup_insert_eq.
      * destruct (p !! "max_output_tokens"); [done|]. by rewrite lookup_insert_ne.
    + destruct (decide (k = "max_output_tokens")) as [->|Hr]; [|done].
      by destruct (p !! "max_output_tokens").
Qed.

(** The fields that the translation of a provider touches. *)
Definition compat_fields : list string :=
  ["thinking"; "think"; "reasoning_effort"; "max_tokens"; "max_output_tokens"].

Lemma compat_untouched p endpoint protocol k :
  k ∉ compat_fields → applyProviderCompatibility p endpoint protocol !! k = p !! k.
Proof.
  intros Hk. unfold compat_fields in Hk. rewrite !not_elem_of_cons in Hk.
  destruct Hk as (H1 & H2 & H3 & H4 & H5 & _). unfold applyProviderCompatibility.
  assert (Hthink : (if bool_decide (protocol = "ollama")
    then translate_thinking "think" (translate_thinking "thinking" p) else p) !! k = p !! k).
  { case_bool_decide; [|done]. by rewrite !translate_thinking_lookup, !decide_False. }
  revert Hthink. generalize (if bool_decide (protocol = "ollama")
    then translate_thinking "think" (translate_thinking "thinking" p) else p). intros q Hq.
  case_bool_decide; [|done]. by rewrite translate_max_tokens_lookup, !decide_False.
Qed.

Lemma compat_lookup p endpoint protocol k :
  let ollama := bool_decide (protocol = "ollama") in
  let responses := bool_decide (endpoint = "/v1/responses") in
  applyProviderCompatibility p endpoint protocol !! k
  = if ollama && bool_decide (k ∈ ["thinking"; "think"]) then None
    else if responses && bool_decide (k = "max_tokens") then None
    else if ollama && bool_decide (k = "reasoning_effort") then
      match p !! "reasoning_effort" with
      | Some v => Some v
      | None =>
          match p !! "thinking" ≫= effort with
          | Some e => Some e
          | None => p !! "think" ≫= effort
          end
      end
    else if responses && bool_decide (k = "max_output_tokens") then
      match p !! "max_output_tokens" with Some v => Some v | None => p !! "max_tokens" end
    else p !! k.
Proof.
  cbv zeta. unfold applyProviderCompatibility.
  assert (Ho : protocol = "ollama" → ∀ j,
    translate_thinking "think" (translate_thinking "thinking" p) !! j
    = if decide (j ∈ ["thinking"; "think"]) then None
      else if decide (j = "reasoning_effort") then
        match p !! "reasoning_effort" with
        | Some v => Some v
        | None => match p !! "thinking" ≫= effort with Some e => Some e | None => p !! "think" ≫= effort end
        end
      else p !! j).
  { intros _ j. rewrite !translate_thinking_lookup by done.
    destruct (decide (j = "think")) as [->|H1]; [done|].
    destruct (decide (j = "thinking")) as [->|H2]; [done|].
    rewrite (decide_False (P := j ∈ _)) by (rewrite !not_elem_of_cons; split_and!; try done; apply not_elem_of_nil).
    destruct (decide (j = "reasoning_effort")) as [->|H3]; [|done].
    rewrite !decide_False by done. rewrite decide_True by done.
    destruct (p !! "reasoning_effort"); [done|]. by destruct (p !! "thinking" ≫= effort). }
  destruct (decide (protocol = "ollama")) as [Hp|Hp];
    [rewrite (bool_decide_eq_true_2 (protocol = _)) by done|rewrite (bool_decide_eq_false_2 (protocol = _)) by done];
    (destruct (decide (endpoint = "/v1/responses")) as [He|He];
      [rewrite (bool_decide_eq_true_2 (endpoint = _)) by done; rewrite translate_max_tokens_lookup
      |rewrite (bool_decide_eq_false_2 (endpoint = _)) by done]); rewrite ?Ho by done; simpl andb; cbv iota;
    rewrite <- ?decide_bool_decide; try done.
  - destruct (decide (k = "max_tokens")) as [->|H1]; [done|].
    destruct (decide (k = "max_output_tokens")) as [->|H2]; [done|]. done.
Qed.

(** ** System prompts *)

(** A message whose content the prompts are joined to. *)
Definition rewritable (raw : any) : bool :=
  match as_object raw with
  | None => false
  | Some message =>
      bool_decide (as_string (message !! "role") = Some "system") &&
      bool_decide (is_Some (as_string (message !! "content")))
  end.

Lemma rewrite_system_Some prepend append l l' :
  rewrite_system prepend append l = Some l' →
  ∃ pre message content post,
    l = pre ++ AObj message :: post ∧ Forall (λ x, rewritable x = false) pre ∧
    message !! "role" = Some (AStr "system") ∧ message !! "content" = Some (AStr content) ∧
    l' = pre ++ AObj (<["content" := AStr (joinPrompt [prepend; content; append])]> message) :: post.
Proof.
  revert l'. induction l as [|raw l IH]; intros l'; [done|]. cbn [rewrite_system]. cbv zeta.
  assert (Hgo : rewritable raw = false → cons raw <$> rewrite_system prepend append l = Some l' →
    ∃ pre message content post,
      raw :: l = pre ++ AObj message :: post ∧ Forall (λ x, rewritable x = false) pre ∧
      message !! "role" = Some (AStr "system") ∧ message !! "content" = Some (AStr content) ∧
      l' = pre ++ AObj (<["content" := AStr (joinPrompt [prepend; content; append])]> message) :: post).
  { intros Hr (l1 & Hl1 & ->)%fmap_Some. destruct (IH _ Hl1) as (pre & m & c & post & -> & ? & ? & ? & ->).
    exists (raw :: pre), m, c, post. split_and!; [done|by constructor|done..]. }
  assert (Hrw : rewritable raw = match as_object raw with
    | None => false
    | Some message => bool_decide (as_string (message !! "role") = Some "system") &&
        bool_decide (is_Some (as_string (message !! "content"))) end) by done.
  destruct raw as [|b|z|x|s|a|m|e]; try (apply Hgo; done). cbn [as_object] in *.
  case_bool_decide as Hrole; [|by apply Hgo]. destruct (as_string (m !! "content")) as [c|] eqn:Ec; [|by apply Hgo].
  intros [= <-]. exists [], m, c, l. unfold as_string in *.
  destruct (m !! "role") as [[]|]; try done. destruct (m !! "content") as [[]|]; try done.
  injection Hrole as ->. injection Ec as ->. by split_and!.
Qed.

Lemma rewrite_system_None prepend append l :
  rewrite_system prepend append l = None ↔ Forall (λ x, rewritable x = false) l.
Proof.
  induction l as [|raw l IH]; [done|]. rewrite Forall_cons, <- IH. cbn [rewrite_system]. cbv zeta.
  unfold rewritable. destruct (as_object raw) as [m|]; [|rewrite fmap_None; naive_solver].
  case_bool_decide; simpl; [|rewrite fmap_None; naive_solver].
  destruct (as_string (m !! "content")) as [c|]; [by rewrite bool_decide_eq_true_2 by eauto; naive_solver|].
  rewrite bool_decide_eq_false_2 by (by intros [? ?]). rewrite fmap_None. naive_solver.
Qed.

Lemma applySystemPrompt_other p endpoint prepend append p' k :
  k ≠ "messages" → k ≠ "instructions" →
  applySystemPrompt p endpoint prepend append = inr p' → p' !! k = p !! k.
Proof.
  intros Hm Hi. unfold applySystemPrompt. case_bool_decide; [by intros [= <-]|].
  case_bool_decide; [intros [= <-]; by rewrite lookup_insert_ne|].
  destruct (as_array _); [|done]. destruct (rewrite_system _ _ _); intros [= <-]; by rewrite lookup_insert_ne.
Qed.

(** ** Properties *)

(** C23: the configured prompts change nothing of a chat request but its
    messages: either the first system message of string content has the
    prompts joined around it and every other message is kept in place, or, when
    there is no such message, one system message with the prompts is put in
    front.  The request fails exactly when [messages] is not an array; a
    request to the Responses endpoint has [instructions] set instead. *)
Theorem system_prompt_spec p endpoint prepend append :
  prepend ≠ "" ∨ append ≠ "" →
  let insert_prompt current := AStr (joinPrompt [prepend; current; append]) in
  match applySystemPrompt p endpoint prepend append with
  | inl _ => endpoint ≠ "/v1/responses" ∧ as_array (p !! "messages") = None
  | inr p' =>
      if decide (endpoint = "/v1/responses")
      then p' = <["instructions" := insert_prompt (default "" (as_string (p !! "instructions")))]> p
      else ∃ messages messages',
        p !! "messages" = Some (AArr messages) ∧ p' = <["messages" := AArr messages']> p ∧
        ((∃ pre message content post,
            messages = pre ++ AObj message :: post ∧ Forall (λ x, rewritable x = false) pre ∧
            message !! "role" = Some (AStr "system") ∧ message !! "content" = Some (AStr content) ∧
            messages' = pre ++ AObj (<["content" := insert_prompt content]> message) :: post) ∨
         (Forall (λ x, rewritable x = false) messages ∧
          messages' = system_message (joinPrompt [prepend; ""; append]) :: messages))
  end.
Proof.
  intros Hne. cbv zeta. unfold applySystemPrompt. rewrite bool_decide_eq_false_2 by naive_solver.
  case_bool_decide as He; [by rewrite decide_True|].
  destruct (as_array (p !! "messages")) as [l|] eqn:Ea; [|done].
  assert (Hl : p !! "messages" = Some (AArr l)).
  { unfold as_array in Ea. destruct (p !! "messages") as [[]|]; try done. by injection Ea as ->. }
  destruct (rewrite_system prepend append l) as [l'|] eqn:Er; rewrite decide_False by done; exists l; eexists;
    (split; [done|]; split; [done|]).
  - left. by apply rewrite_system_Some.
  - right. by apply rewrite_system_None in Er.
Qed.

Definition example_chat : payload :=
  {[ "messages" := AArr [AObj {[ "role" := AStr "user"; "content" := AStr "hi" ]}] ]}.

Lemma system_prompt_spec_witness :
  ∃ messages',
    applySystemPrompt example_chat "/v1/chat/completions" "Be brief." ""
    = inr (<["messages" := AArr messages']> example_chat) ∧ length messages' = 2%nat.
Proof.
  pose proof (system_prompt_spec example_chat "/v1/chat/completions" "Be brief." "" ltac:(by left)) as Hs.
  change (applySystemPrompt example_chat "/v1/chat/completions" "Be brief." "")
    with (@inr unit payload (<["messages" := AArr (system_message (joinPrompt ["Be brief."; ""; ""])
            :: [AObj {[ "role" := AStr "user"; "content" := AStr "hi" ]}])]> example_chat)) in *.
  simpl in Hs. destruct Hs as (l & l' & Hl & Hp & _).
  exists (system_message (joinPrompt ["Be brief."; ""; ""])
            :: [AObj {[ "role" := AStr "user"; "content" := AStr "hi" ]}]). done.
Defined.

(** The request before a provider's translation, field by field: the target's
    model, the prompted request's structural fields, and every other field from
    the override if one is configured, from the client otherwise. *)
Definition merged (m : ModelConfig) (p prompted : payload) (model k : string) : option any :=
  if decide (k = "model") then Some (AStr model)
  else if decide (k ∈ structural_keys) then prompted !! k
  else match Overrides m !! k with Some v => Some v | None => p !! k end.

(** What a provider's translation makes of the fields [q]. *)
Definition translated (endpoint protocol : string) (q : string → option any) (k : string) : option any :=
  let ollama := bool_decide (protocol = "ollama") in
  let responses := bool_decide (endpoint = "/v1/responses") in
  if ollama && bool_decide (k ∈ ["thinking"; "think"]) then None
  else if responses && bool_decide (k = "max_tokens") then None
  else if ollama && bool_decide (k = "reasoning_effort") then
    match q "reasoning_effort" with
    | Some v => Some v
    | None => match q "thinking" ≫= effort with Some e => Some e | None => q "think" ≫= effort end
    end
  else if responses && bool_decide (k = "max_output_tokens") then
    match q "max_output_tokens" with Some v => Some v | None => q "max_tokens" end
  else q k.

(** C9: the body for a target, every field of it: the model is the target's, the
    protected fields are the prompted request's, every other field is the
    override if one is configured and the client's value otherwise; and then
    the translation for the provider moves the thinking fields of an Ollama
    provider into [reasoning_effort], and on the Responses endpoint
    [max_tokens] into [max_output_tokens], where a field of the new name, from
    either side, wins over one of the old name. *)
Theorem upstream_body_spec `{MapOrder} m p endpoint p' protocol model k :
  (∀ k, k ∈ structural_keys → Overrides m !! k = None) →
  applySystemPrompt p endpoint (PrependSystemPrompt m) (AppendSystemPrompt m) = inr p' →
  targetPayload (applyRequestOverrides p' (Overrides m)) endpoint protocol model !! k
  = translated endpoint protocol (merged m p p' model) k.
Proof.
  intros Hstr Hp. unfold targetPayload. rewrite clonePayload_id, applyRequestOverrides_union.
  assert (Hq : ∀ k, <["model" := AStr model]> (Overrides m ∪ p') !! k = merged m p p' model k).
  { clear k. intros k. unfold merged. destruct (decide (k = "model")) as [->|Hm]; [by rewrite lookup_insert_eq|].
    rewrite lookup_insert_ne by done. case_decide as Hs; [by rewrite lookup_union_r by auto|].
    destruct (Overrides m !! k) as [v|] eqn:Eo; [by erewrite lookup_union_Some_l|].
    rewrite lookup_union_r by done. unfold structural_keys in Hs. rewrite !not_elem_of_cons in Hs.
    eapply applySystemPrompt_other; [| |done]; naive_solver. }
  rewrite compat_lookup. unfold translated. by rewrite !Hq.
Qed.

Definition example_model : ModelConfig :=
  mkModelConfig "local" "qwen" [] 1 (mkLimits f64_zero 0 0)
    {[ "temperature" := AFloat f64_zero ]} "" "".

Lemma upstream_body_spec_witness :
  let body := targetPayload (H := order_backward)
    (applyRequestOverrides (H := order_backward) (<["think" := ABool true]> (<["temperature" := AFloat f64_one]> example_chat))
       (Overrides example_model)) "/v1/chat/completions" "ollama" "qwen" in
  body !! "temperature" = Some (AFloat f64_zero) ∧ body !! "reasoning_effort" = Some (AStr "medium").
Proof.
  set (p := <["think" := ABool true]> (<["temperature" := AFloat f64_one]> example_chat)).
  assert (Hs : ∀ k, k ∈ structural_keys → Overrides example_model !! k = None).
  { intros k Hk. unfold example_model, Overrides. apply lookup_singleton_ne. intros <-.
    revert Hk. apply (bool_decide_unpack (_ ∉ _)). vm_compute. exact I. }
  cbv zeta. split.
  - rewrite (upstream_body_spec (H := order_backward) example_model p "/v1/chat/completions" p "ollama" "qwen" "temperature" Hs);
      reflexivity.
  - rewrite (upstream_body_spec (H := order_backward) example_model p "/v1/chat/completions" p "ollama" "qwen" "reasoning_effort" Hs);
      reflexivity.
Defined.

(** C26: the field translations of a provider.  For Ollama the thinking fields
    disappear and [reasoning_effort] is the request's own, else what
    [thinking] says, else what [think] says; on the Responses endpoint
    [max_tokens] disappears in favour of [max_output_tokens], whose own value
    wins.  Nothing else changes, and nothing at all for other requests. *)
Theorem provider_compatibility_spec p endpoint protocol k :
  let ollama := bool_decide (protocol = "ollama") in
  let responses := bool_decide (endpoint = "/v1/responses") in
  applyProviderCompatibility p endpoint protocol !! k
  = if ollama && bool_decide (k ∈ ["thinking"; "think"]) then None
    else if responses && bool_decide (k = "max_tokens") then None
    else if ollama && bool_decide (k = "reasoning_effort") then
      match p !! "reasoning_effort" with
      | Some v => Some v
      | None =>
          match p !! "thinking" ≫= effort with
          | Some e => Some e
          | None => p !! "think" ≫= effort
          end
      end
    else if responses && bool_decide (k = "max_output_tokens") then
      match p !! "max_output_tokens" with Some v => Some v | None => p !! "max_tokens" end
    else p !! k.
Proof. apply compat_lookup. Qed.

(** C37: an override of a field that a translation removes does not win over the
    client.  On the Responses endpoint, when [max_tokens] is overridden and
    [max_output_tokens] is not, a client that sends [max_output_tokens] keeps
    its own value and the override is dropped; for a target whose provider
    speaks the Ollama protocol, when [thinking] is overridden and
    [reasoning_effort] is not, a client that sends [reasoning_effort] keeps its
    own value and the override is dropped. *)
Theorem override_bypassed `{MapOrder} p overrides protocol model v w :
  (overrides !! "max_tokens" = Some v → overrides !! "max_output_tokens" = None →
   p !! "max_output_tokens" = Some w →
   let body := targetPayload (applyRequestOverrides p overrides) "/v1/responses" protocol model in
   body !! "max_output_tokens" = Some w ∧ body !! "max_tokens" = None) ∧
  (overrides !! "thinking" = Some v → overrides !! "reasoning_effort" = None →
   p !! "reasoning_effort" = Some w →
   ∀ endpoint,
   let body := targetPayload (applyRequestOverrides p overrides) endpoint "ollama" model in
   body !! "reasoning_effort" = Some w ∧ body !! "thinking" = None).
Proof.
  split; intros Hv Ho Hw; intros; unfold body, targetPayload; clear body;
    rewrite clonePayload_id, applyRequestOverrides_union, !compat_lookup.
  - assert (Hb : <["model" := AStr model]> (overrides ∪ p) !! "max_output_tokens" = Some w)
      by (by rewrite lookup_insert_ne, lookup_union_r).
    rewrite Hb. by destruct (bool_decide (protocol = "ollama")).
  - assert (Hb : <["model" := AStr model]> (overrides ∪ p) !! "reasoning_effort" = Some w)
      by (by rewrite lookup_insert_ne, lookup_union_r).
    rewrite Hb. by destruct (bool_decide (endpoint = "/v1/responses")).
Qed.

Lemma override_bypassed_witness :
  targetPayload (H := order_forward)
    (applyRequestOverrides (H := order_forward) {[ "max_output_tokens" := AInt 5000 ]} {[ "max_tokens" := AInt 10 ]})
    "/v1/responses" "openai" "gpt" !! "max_output_tokens" = Some (AInt 5000).
Proof.
  exact (proj1 (proj1 (override_bypassed (H := order_forward) {[ "max_output_tokens" := AInt 5000 ]}
    {[ "max_tokens" := AInt 10 ]} "openai" "gpt" (AInt 10) (AInt 5000)) eq_refl eq_refl eq_refl)).
Defined.
