(* ===== verification/Buffers.v ===== *)
(** * Bounded buffers

    The tail of a response that usage is read from ([tailBuffer] in
    [gateway.go]) and the head of a body that is logged ([logBodyBuffer] in
    [logging.go]).  A byte slice is a list of bytes; the generic element type
    shows that neither buffer looks at them. *)

From Stdlib Require Import ZArith Lia.
From S2P Require Import Prelude.

Local Open Scope Z_scope.

Definition usageCaptureLimit : Z := Z.shiftl 2 20.

Section Buffers.
Context {byte : Type}.

(** ** [tailBuffer] *)
Record tailBuffer := mkTail { tail_buf : list byte; tail_limit : Z }.

(** Lengths of Go slices. *)
Definition len (l : list byte) : Z := Z.of_nat (length l).

Definition tail_Write (b : tailBuffer) (p : list byte) : tailBuffer * Z :=
  let original := len p in
  if tail_limit b <=? len p then
    (mkTail (drop (Z.to_nat (len p - tail_limit b)) p) (tail_limit b), original)
  else
    let overflow := len (tail_buf b) + len p - tail_limit b in
    let kept :=
      if 0 <? overflow
      then take (Z.to_nat (len (tail_buf b) - overflow)) (drop (Z.to_nat overflow) (tail_buf b))
      else tail_buf b in
    (mkTail (kept ++ p) (tail_limit b), original).

Definition tail_Bytes (b : tailBuffer) : list byte := tail_buf b.

Definition newTail (limit : Z) : tailBuffer := mkTail [] limit.

Definition tail_write_all (b : tailBuffer) (chunks : list (list byte)) : tailBuffer :=
  foldl (λ b p, (tail_Write b p).1) b chunks.

(** The last [n] elements of a list. *)
Definition last_n (n : Z) (l : list byte) : list byte := drop (Z.to_nat (len l - n)) l.

(** ** [logBodyBuffer] *)
Record logBodyBuffer := mkLogBody { log_buf : list byte; log_limit : Z; truncated : bool }.

Definition newLogBodyBuffer (limit : Z) : logBodyBuffer := mkLogBody [] limit false.

Definition log_Write (b : logBodyBuffer) (p : list byte) : logBodyBuffer * Z :=
  if log_limit b <=? 0 then (mkLogBody (log_buf b) (log_limit b) true, len p)
  else
    let remaining := log_limit b - len (log_buf b) in
    if remaining <=? 0 then (mkLogBody (log_buf b) (log_limit b) true, len p)
    else if remaining <? len p then
      (mkLogBody (log_buf b ++ take (Z.to_nat remaining) p) (log_limit b) true, len p)
    else (mkLogBody (log_buf b ++ p) (log_limit b) (truncated b), len p).

Definition boundedLogBody (body : list byte) (limit : Z) : list byte * bool :=
  let buffer := (log_Write (newLogBodyBuffer limit) body).1 in
  (log_buf buffer, truncated buffer).

Definition log_write_all (b : logBodyBuffer) (chunks : list (list byte)) : logBodyBuffer :=
  foldl (λ b p, (log_Write b p).1) b chunks.

(** ** Lemmas *)

Lemma len_app l1 l2 : len (l1 ++ l2) = len l1 + len l2.
Proof. unfold len. rewrite length_app. lia. Qed.

Lemma len_nonneg l : 0 ≤ len l.
Proof. unfold len. lia. Qed.

Lemma last_n_all n l : len l ≤ n → last_n n l = l.
Proof. intros H. unfold last_n. replace (Z.to_nat (len l - n)) with 0%nat by lia. done. Qed.

Lemma last_n_len n l : 0 ≤ n → len (last_n n l) = Z.min n (len l).
Proof. intros Hn. unfold last_n, len. rewrite length_drop. lia. Qed.

(** Appending keeps the last part of what was kept. *)
Lemma last_n_app n l1 l2 : 0 ≤ n → last_n n (last_n n l1 ++ l2) = last_n n (l1 ++ l2).
Proof.
  intros Hn. destruct (Z.le_gt_cases (len l1) n) as [Hle|Hgt]; [by rewrite (last_n_all n l1)|].
  unfold last_n. rewrite <- drop_app_le by (unfold len in *; lia). rewrite drop_drop. f_equal.
  rewrite !len_app. unfold len in *. rewrite length_drop, length_app. lia.
Qed.

Lemma tail_Write_last b p :
  0 ≤ tail_limit b → len (tail_buf b) ≤ tail_limit b →
  (tail_Write b p).1 = mkTail (last_n (tail_limit b) (tail_buf b ++ p)) (tail_limit b).
Proof.
  intros Hl Hb. unfold tail_Write. destruct (Z.leb_spec (tail_limit b) (len p)) as [H|H]; simpl; f_equal.
  - unfold last_n. rewrite len_app, drop_app_ge by (unfold len in *; lia). f_equal. unfold len in *. lia.
  - unfold last_n. rewrite len_app. destruct (Z.ltb_spec 0 (len (tail_buf b) + len p - tail_limit b)) as [Ho|Ho].
    + rewrite take_ge by (rewrite length_drop; unfold len in *; lia).
      rewrite drop_app_le by (unfold len in *; lia). done.
    + replace (Z.to_nat (len (tail_buf b) + len p - tail_limit b)) with 0%nat by lia. done.
Qed.

Lemma tail_write_all_last b chunks :
  0 ≤ tail_limit b → len (tail_buf b) ≤ tail_limit b →
  tail_write_all b chunks = mkTail (last_n (tail_limit b) (tail_buf b ++ mjoin chunks)) (tail_limit b).
Proof.
  intros Hl. revert b Hl. induction chunks as [|p chunks IH]; intros b Hl Hb.
  { simpl. rewrite app_nil_r, last_n_all by done. by destruct b. }
  unfold tail_write_all. cbn [foldl]. rewrite tail_Write_last by done. fold (tail_write_all).
  change (tail_write_all (mkTail (last_n (tail_limit b) (tail_buf b ++ p)) (tail_limit b)) chunks
    = mkTail (last_n (tail_limit b) (tail_buf b ++ p ++ mjoin chunks)) (tail_limit b)).
  rewrite IH; cbn [tail_limit tail_buf].
  - by rewrite last_n_app, app_assoc.
  - done.
  - rewrite last_n_len by done. lia.
Qed.

(** A log buffer that has received [input]. *)
Definition log_state (limit : Z) (input : list byte) : logBodyBuffer :=
  mkLogBody (take (Z.to_nat limit) input) limit (limit <? len input).

Lemma log_Write_state limit input p :
  0 < limit → p ≠ [] → (log_Write (log_state limit input) p).1 = log_state limit (input ++ p).
Proof.
  intros Hl Hp. assert (0 < len p) by (destruct p; [done|unfold len; simpl; lia]).
  unfold log_Write, log_state. cbn [log_buf log_limit truncated].
  destruct (Z.leb_spec limit 0); [lia|]. rewrite len_app.
  assert (Ht : len (take (Z.to_nat limit) input) = Z.min limit (len input))
    by (unfold len; rewrite length_take; lia).
  rewrite Ht, take_app. pose proof (len_nonneg input).
  assert (Hn : len input ≤ limit → (Z.to_nat limit - length input)%nat = Z.to_nat (limit - len input))
    by (unfold len; lia).
  destruct (Z.leb_spec (limit - Z.min limit (len input)) 0); simpl.
  - replace (limit <? len input + len p) with true by (symmetry; apply Z.ltb_lt; lia).
    f_equal. replace (Z.to_nat limit - length input)%nat with 0%nat by (unfold len in *; lia).
    by rewrite app_nil_r.
  - destruct (Z.ltb_spec (limit - Z.min limit (len input)) (len p)); simpl; rewrite Hn by lia.
    + replace (limit <? len input + len p) with true by (symmetry; apply Z.ltb_lt; lia).
      by rewrite Z.min_r by lia.
    + replace (limit <? len input + len p) with false by (symmetry; apply Z.ltb_ge; lia).
      replace (limit <? len input) with false by (symmetry; apply Z.ltb_ge; lia).
      f_equal. f_equal. symmetry. apply take_ge. unfold len in *. lia.
Qed.
End Buffers.

Arguments tailBuffer : clear implicits.
Arguments logBodyBuffer : clear implicits.

(** ** Properties *)

(** However a response is cut into chunks, the capture holds exactly its
    last [limit] bytes, never more, and every write reports the whole chunk as
    consumed. *)
Theorem tail_keeps_last {byte} limit (chunks : list (list byte)) :
  0 ≤ limit →
  let b := tail_write_all (newTail limit) chunks in
  tail_Bytes b = last_n limit (mjoin chunks) ∧ len (tail_Bytes b) ≤ limit ∧
  ∀ p, (tail_Write b p).2 = len p.
Proof.
  intros Hl. cbv zeta. rewrite tail_write_all_last by (done || simpl; lia). simpl.
  split_and!; [done|rewrite last_n_len by done; lia|].
  intros p. unfold tail_Write. by case_if.
Qed.

Lemma tail_keeps_last_witness :
  tail_Bytes (tail_write_all (newTail 4) [[1; 2; 3]; [4]; [5; 6]]) = [3; 4; 5; 6].
Proof. rewrite (proj1 (tail_keeps_last 4 [[1; 2; 3]; [4]; [5; 6]] ltac:(lia))). reflexivity. Defined.

(** A logged body is the first [limit] bytes of the input, however it is
    cut into (non-empty) chunks, and it is marked truncated exactly when bytes
    are missing; every write reports the whole chunk as consumed, so the reader
    in front of it is not disturbed. *)
Theorem log_body_prefix {byte} limit (chunks : list (list byte)) :
  0 < limit → Forall (λ p, p ≠ []) chunks →
  let b := log_write_all (newLogBodyBuffer limit) chunks in
  log_buf b = take (Z.to_nat limit) (mjoin chunks) ∧
  (truncated b = true ↔ log_buf b ≠ mjoin chunks) ∧
  ∀ p, (log_Write b p).2 = len p.
Proof.
  intros Hl Hne. cbv zeta.
  assert (Hs : ∀ input, log_write_all (log_state limit input) chunks = log_state limit (input ++ mjoin chunks)).
  { induction Hne as [|p chunks Hp _ IH]; intros input; [by simpl; rewrite app_nil_r|].
    change (log_write_all (log_Write (log_state limit input) p).1 chunks
      = log_state limit (input ++ p ++ mjoin chunks)).
    rewrite log_Write_state, IH by done. by rewrite <- app_assoc. }
  assert (Hnew : newLogBodyBuffer limit = log_state limit ([] : list byte)).
  { unfold log_state, newLogBodyBuffer. rewrite take_nil. f_equal. symmetry. apply Z.ltb_ge. unfold len. simpl. lia. }
  rewrite Hnew, Hs. cbn [log_state log_buf truncated]. simpl app. split_and!; [done| |].
  - destruct (Z.ltb_spec limit (len (mjoin chunks))) as [H|H]; (split; [try done|]).
    + intros _ He. apply (f_equal length) in He. rewrite length_take in He. unfold len in *. lia.
    + done.
    + intros He. destruct He. apply take_ge. unfold len in *. lia.
  - intros p. unfold log_Write. by repeat case_if.
Qed.

Lemma log_body_prefix_witness :
  log_buf (log_write_all (newLogBodyBuffer 4) [[1; 2; 3]; [4; 5]]) = [1; 2; 3; 4].
Proof.
  rewrite (proj1 (log_body_prefix 4 [[1; 2; 3]; [4; 5]] ltac:(lia) ltac:(by repeat constructor))). reflexivity.
Defined.

(** The degenerate limit and the exact one. *)
Example log_body_edges :
  (boundedLogBody [1; 2] 0, boundedLogBody [1; 2] 2, boundedLogBody [1; 2; 3] 2)
  = (([], true), ([1; 2], false), ([1; 2], true)).
Proof. reflexivity. Qed.
