(* ===== verification/Json.v ===== *)
(** * JSON ([encoding/json])

    What [json.Unmarshal] accepts and yields: the grammar of Go's scanner with
    its nesting bound, strings with their escapes and the replacement of
    invalid UTF-8, and numbers as their literals.  A member of an object keeps
    its key, its raw text (for [json.RawMessage]) and its value, in order. *)

From Stdlib Require Import ZArith Lia Ascii SpecFloat.
From S2P Require Import Prelude GoStrings Float64 NetIP Value.

Local Open Scope Z_scope.

Inductive json :=
  | JNull
  | JBool (b : bool)
  | JNum (literal : string)
  | JStr (s : string)
  | JArr (l : list json)
  | JObj (members : list (string * string * json)).

Definition quote : ascii := "034".
Definition backslash : ascii := "092".

Fixpoint skip_ws (s : string) : string :=
  match s with
  | String c s' => if decide (c ∈ [" "; "009"; "010"; "013"]%char) then skip_ws s' else s
  | EmptyString => EmptyString
  end.

(** ** Strings *)

(** The content of a string literal, escapes unread, and the rest after the
    closing quote. *)
Fixpoint lex_string (s : string) : option (string * string) :=
  let keep (pre : string) (r : option (string * string)) :=
    match r with Some (a, rest) => Some (pre +:+ a, rest) | None => None end in
  match s with
  | EmptyString => None
  | String c s1 =>
      if decide (c = quote) then Some (EmptyString, s1)
      else if decide (c = backslash) then
        match s1 with
        | EmptyString => None
        | String e s2 =>
            if decide (e ∈ [quote; backslash; "/"; "b"; "f"; "n"; "r"; "t"]%char)
            then keep (String c (String e "")) (lex_string s2)
            else if decide (e = "u"%char) then
              match s2 with
              | String h1 (String h2 (String h3 (String h4 s3))) =>
                  match hex_digit h1, hex_digit h2, hex_digit h3, hex_digit h4 with
                  | Some _, Some _, Some _, Some _ =>
                      keep (String c (String e (String h1 (String h2 (String h3 (String h4 ""))))))
                        (lex_string s3)
                  | _, _, _, _ => None
                  end
              | _ => None
              end
            else None
        end
      else if byte_of c <? 32 then None
      else keep (String c "") (lex_string s1)
  end.

Definition chr (n : Z) : ascii := ascii_of_nat (Z.to_nat n).

(** [utf8.EncodeRune] *)
Definition encode_rune (r : Z) : string :=
  if r <? 128 then String (chr r) ""
  else if r <? 2048 then String (chr (192 + r / 64)) (String (chr (128 + r mod 64)) "")
  else if r <? 65536 then
    String (chr (224 + r / 4096)) (String (chr (128 + r / 64 mod 64)) (String (chr (128 + r mod 64)) ""))
  else
    String (chr (240 + r / 262144)) (String (chr (128 + r / 4096 mod 64))
      (String (chr (128 + r / 64 mod 64)) (String (chr (128 + r mod 64)) ""))).

Definition rune_error : string := encode_rune 65533.

(** The size of the valid UTF-8 sequence at the head of a string that starts
    with a byte above 127, or 0 ([utf8.DecodeRune]). *)
Definition utf8_size (s : string) : nat :=
  let cont (lo hi : Z) (c : ascii) := (lo <=? byte_of c) && (byte_of c <=? hi) in
  match s with
  | String c0 s1 =>
      let n := byte_of c0 in
      match s1 with
      | String c1 s2 =>
          if (194 <=? n) && (n <=? 223) then (if cont 128 191 c1 then 2%nat else 0%nat)
          else
            let lo1 := if n =? 224 then 160 else if n =? 240 then 144 else 128 in
            let hi1 := if n =? 237 then 159 else if n =? 244 then 143 else 191 in
            match s2 with
            | String c2 s3 =>
                if (224 <=? n) && (n <=? 239)
                then (if cont lo1 hi1 c1 && cont 128 191 c2 then 3%nat else 0%nat)
                else
                  match s3 with
                  | String c3 _ =>
                      if (240 <=? n) && (n <=? 244)
                      then (if cont lo1 hi1 c1 && cont 128 191 c2 && cont 128 191 c3 then 4%nat else 0%nat)
                      else 0%nat
                  | EmptyString => 0%nat
                  end
            | EmptyString => 0%nat
            end
      | EmptyString => 0%nat
      end
  | EmptyString => 0%nat
  end.

(** The four digits after [\u]. *)
Definition getu4 (s : string) : option Z :=
  match s with
  | String b (String u (String h1 (String h2 (String h3 (String h4 _))))) =>
      if decide (b = backslash ∧ u = "u"%char) then
        match hex_digit h1, hex_digit h2, hex_digit h3, hex_digit h4 with
        | Some a, Some b, Some c, Some d => Some (((a * 16 + b) * 16 + c) * 16 + d)
        | _, _, _, _ => None
        end
      else None
  | _ => None
  end.

Definition escape_char (c : ascii) : ascii :=
  if decide (c = "b"%char) then chr 8 else if decide (c = "f"%char) then chr 12
  else if decide (c = "n"%char) then chr 10 else if decide (c = "r"%char) then chr 13
  else if decide (c = "t"%char) then chr 9 else c.

(** [unquote]: the value of a literal that [lex_string] accepted.  [skip]
    counts the bytes that an earlier escape or sequence has used up. *)
Fixpoint unquote (skip : nat) (s : string) : string :=
  match s with
  | EmptyString => EmptyString
  | String c s1 =>
      match skip with
      | S skip => unquote skip s1
      | O =>
          if decide (c = backslash) then
            match getu4 s with
            | Some r =>
                if (55296 <=? r) && (r <? 57344) then
                  match (if r <? 56320 then getu4 (string_drop 6 s) else None) with
                  | Some r2 =>
                      if (56320 <=? r2) && (r2 <? 57344)
                      then encode_rune (65536 + (r - 55296) * 1024 + (r2 - 56320)) +:+ unquote 11 s1
                      else rune_error +:+ unquote 5 s1
                  | None => rune_error +:+ unquote 5 s1
                  end
                else encode_rune r +:+ unquote 5 s1
            | None =>
                match s1 with
                | String e _ => String (escape_char e) (unquote 1 s1)
                | EmptyString => EmptyString
                end
            end
          else if byte_of c <? 128 then String c (unquote 0 s1)
          else match utf8_size s with
               | O => rune_error +:+ unquote 0 s1
               | S k => string_take (S k) s +:+ unquote k s1
               end
      end
  end.

(** ** Numbers *)
Definition is_dec (c : ascii) : bool := match dec_digit c with Some _ => true | None => false end.

Fixpoint lex_digits (s : string) : string * string :=
  match s with
  | String c s' =>
      if is_dec c then let '(d, rest) := lex_digits s' in (String c d, rest) else (EmptyString, s)
  | EmptyString => (EmptyString, EmptyString)
  end.

(** The parts of a number literal: sign, integer digits, fraction digits,
    exponent sign and exponent digits. *)
Record number := mkNumber {
  n_neg : bool; n_int : string; n_frac : option string; n_exp : option (string * string)
}.

Definition lex_frac (s : string) : option (option string * string) :=
  match s with
  | String "."%char s1 =>
      let '(d, rest) := lex_digits s1 in
      if decide (d = "") then None else Some (Some d, rest)
  | _ => Some (None, s)
  end.

Definition lex_exp (s : string) : option (option (string * string) * string) :=
  match s with
  | String c s1 =>
      if decide (c = "e"%char ∨ c = "E"%char) then
        let '(sign, s2) :=
          match s1 with
          | String "+"%char s2 => ("+", s2)
          | String "-"%char s2 => ("-", s2)
          | _ => ("", s1)
          end in
        let '(d, rest) := lex_digits s2 in
        if decide (d = "") then None else Some (Some (sign, d), rest)
      else Some (None, s)
  | EmptyString => Some (None, s)
  end.

Definition lex_number (s : string) : option (number * string) :=
  let '(neg, s0) := match s with String "-"%char s' => (true, s') | _ => (false, s) end in
  let '(int, s1) :=
    match s0 with String "0"%char s' => ("0", s') | _ => lex_digits s0 end in
  if decide (int = "") then None
  else
    '(frac, s2) ← lex_frac s1;
    '(exp, s3) ← lex_exp s2;
    Some (mkNumber neg int frac exp, s3).

(** ** Values *)
Definition maxNestingDepth : nat := Z.to_nat 10000.

(** The text between a string and its suffix [rest]. *)
Definition consumed (s rest : string) : string := string_take (String.length s - String.length rest) s.

Definition lex_literal (s : string) : option (json * string) :=
  if has_prefix s "null" then Some (JNull, string_drop 4 s)
  else if has_prefix s "true" then Some (JBool true, string_drop 4 s)
  else if has_prefix s "false" then Some (JBool false, string_drop 5 s)
  else match lex_number s with
       | Some (_, rest) => Some (JNum (consumed s rest), rest)
       | None => None
       end.

(** The rest of a string after the expected character. *)
Definition expect (c : ascii) (s : string) : option string :=
  match s with
  | String d s' => if decide (d = c) then Some s' else None
  | EmptyString => None
  end.

(** The parser; [fuel] bounds the number of calls in a chain and [depth] the
    nesting still allowed.  [parse_members] starts at a key,
    [parse_elements] at an element. *)
Fixpoint parse_value (fuel depth : nat) (s : string) {struct fuel} : option (json * string) :=
  match fuel with
  | O => None
  | S fuel =>
      match s with
      | String c s1 =>
          if decide (c = "{"%char) then
            match depth with
            | O => None
            | S depth =>
                match expect "}" (skip_ws s1) with
                | Some rest => Some (JObj [], rest)
                | None => '(ms, rest) ← parse_members fuel depth (skip_ws s1); Some (JObj ms, rest)
                end
            end
          else if decide (c = "["%char) then
            match depth with
            | O => None
            | S depth =>
                match expect "]" (skip_ws s1) with
                | Some rest => Some (JArr [], rest)
                | None => '(l, rest) ← parse_elements fuel depth (skip_ws s1); Some (JArr l, rest)
                end
            end
          else if decide (c = quote) then
            '(raw, rest) ← lex_string s1; Some (JStr (unquote 0 raw), rest)
          else lex_literal s
      | EmptyString => None
      end
  end
with parse_elements (fuel depth : nat) (s : string) {struct fuel} : option (list json * string) :=
  match fuel with
  | O => None
  | S fuel =>
      '(v, s1) ← parse_value fuel depth s;
      match expect "]" (skip_ws s1) with
      | Some rest => Some ([v], rest)
      | None =>
          s2 ← expect "," (skip_ws s1);
          '(l, rest) ← parse_elements fuel depth (skip_ws s2); Some (v :: l, rest)
      end
  end
with parse_members (fuel depth : nat) (s : string) {struct fuel}
    : option (list (string * string * json) * string) :=
  match fuel with
  | O => None
  | S fuel =>
      match s with
      | String c s1 =>
          if decide (c = quote) then
            '(raw, s2) ← lex_string s1;
            s3 ← expect ":" (skip_ws s2);
            '(v, s5) ← parse_value fuel depth (skip_ws s3);
            let member := (unquote 0 raw, consumed (skip_ws s3) s5, v) in
            match expect "}" (skip_ws s5) with
            | Some rest => Some ([member], rest)
            | None =>
                s6 ← expect "," (skip_ws s5);
                '(ms, rest) ← parse_members fuel depth (skip_ws s6); Some (member :: ms, rest)
            end
          else None
      | EmptyString => None
      end
  end.

(** The document of a whole input: white space may surround it. *)
Definition parse_fuel (s : string) : nat := 2 * String.length s + 2.

Definition parse_json (s : string) : option json :=
  '(v, rest) ← parse_value (parse_fuel s) maxNestingDepth (skip_ws s);
  if decide (skip_ws rest = "") then Some v else None.

(** ** Numbers as Go values *)
Fixpoint dec_value (acc : Z) (s : string) : Z :=
  match s with
  | String c s' => dec_value (acc * 10 + default 0 (dec_digit c)) s'
  | EmptyString => acc
  end.

(** [strconv.ParseUint(s, 10, 64)] on a number literal. *)
Definition parse_uint64 (literal : string) : option Z :=
  let '(d, rest) := lex_digits literal in
  if decide (d = "" ∨ rest ≠ "") then None
  else let v := dec_value 0 d in if v <? 2 ^ 64 then Some v else None.

(** Exponent digits; [strconv] stops accumulating at 10000. *)
Fixpoint exp_value (acc : Z) (s : string) : Z :=
  match s with
  | String c s' => exp_value (if acc <? 10000 then acc * 10 + default 0 (dec_digit c) else acc) s'
  | EmptyString => acc
  end.

(** [m * 10^e], correctly rounded; [None] beyond the largest [float64]. *)
Definition f64_of_decimal (neg : bool) (m e : Z) : option f64 :=
  let sign (z : Z) := if neg then - z else z in
  let finish (x : f64) := match x with S754_infinity _ => None | _ => Some x end in
  if m =? 0 then Some (S754_zero neg)
  else if 400 <? e then None
  else if Z.log2 m + 3 * e + 1100 <? 0 then Some (S754_zero neg)
  else if 0 <=? e then finish (binary_normalize prec emax (sign (m * 10 ^ e)) 0 neg)
  else
    let p := 10 ^ (- e) in
    let shift := Z.max 0 (Z.log2 p - Z.log2 m + 70) in
    let q := m * 2 ^ shift / p in
    let sticky := if m * 2 ^ shift mod p =? 0 then 0 else 1 in
    finish (binary_normalize prec emax (sign (2 * q + sticky)) (- shift - 1) neg).

(** [strconv.ParseFloat(s, 64)] on a number literal. *)
Definition parse_float (literal : string) : option f64 :=
  match lex_number literal with
  | None => None
  | Some (n, _) =>
      let frac := default "" (n_frac n) in
      let m := dec_value (dec_value 0 (n_int n)) frac in
      let e := match n_exp n with
               | None => 0
               | Some (sign, d) => (if decide (sign = "-") then -1 else 1) * exp_value 0 d
               end in
      f64_of_decimal (n_neg n) m (e - Z.of_nat (String.length frac))
  end.

(** ** Decoding into [any]

    A number out of range is an error of the whole call, so the result is
    an option; the last of several members with one key wins. *)
Fixpoint to_any (j : json) : option any :=
  match j with
  | JNull => Some ANil
  | JBool b => Some (ABool b)
  | JNum l => AFloat <$> parse_float l
  | JStr s => Some (AStr s)
  | JArr l =>
      AArr <$> (fix go (l : list json) : option (list any) :=
        match l with
        | [] => Some []
        | x :: l' => v ← to_any x; vs ← go l'; Some (v :: vs)
        end) l
  | JObj ms =>
      AObj <$> (fix go (ms : list (string * string * json)) (m : gmap string any) : option (gmap string any) :=
        match ms with
        | [] => Some m
        | (k, _, x) :: ms' => v ← to_any x; go ms' (<[k := v]> m)
        end) ms ∅
  end.

(** [json.Unmarshal(data, &payload)] for a [map[string]any]; [null] leaves the
    nil map. *)
Definition Unmarshal_payload (data : string) : option payload :=
  match parse_json data with
  | Some JNull => Some ∅
  | Some (JObj ms) => v ← to_any (JObj ms); as_object v
  | _ => None
  end.

(** ** Encoding

    [json.Marshal] on the values of a payload fails on a NaN, on an infinite
    number and on the other values that only YAML yields and JSON has no form
    for; it encodes everything below one value or nothing. *)
Fixpoint marshal_ok (v : any) : bool :=
  match v with
  | AFloat x => match x with S754_nan | S754_infinity _ => false | _ => true end
  | AArr l => forallb marshal_ok l
  | AObj m => map_fold (λ _ x b, b && marshal_ok x) true m
  | AOther encodes => encodes
  | _ => true
  end.

Definition Marshal (p : payload) : option payload := if marshal_ok (AObj p) then Some p else None.

(** ** Examples, checked against the documented behaviour of Go *)

Definition q (s : string) : string := String quote s +:+ String quote "".

Example parse_object :
  parse_json ("{ " +:+ q "a" +:+ " : [1, -2.5e3 ,true],"+:+ q "b" +:+":null} ")
  = Some (JObj [("a", "[1, -2.5e3 ,true]", JArr [JNum "1"; JNum "-2.5e3"; JBool true]); ("b", "null", JNull)]).
Proof. vm_compute. reflexivity. Qed.

Example parse_rejects :
  (parse_json "", parse_json "01", parse_json "[1,]", parse_json "{}x", parse_json "-", parse_json "1.",
   parse_json (String quote "a"), parse_json "nul") = (None, None, None, None, None, None, None, None).
Proof. vm_compute. reflexivity. Qed.

Example float_tenth : parse_float "0.1" = Some (f64_div f64_one (f64_of_Z 10)).
Proof. vm_compute. reflexivity. Qed.

Example float_limits :
  (parse_float "1e400", parse_float "-1e-400", parse_float "1.7976931348623159e308",
   parse_float "4.9e-324", parse_float "9007199254740993")
  = (None, Some (S754_zero true), None, Some (S754_finite false 1 (-1074)), Some (f64_of_Z 9007199254740992)).
Proof. vm_compute. reflexivity. Qed.

Example unquote_escapes :
  unquote 0 (String backslash "u00e9" +:+ String backslash "n" +:+ String backslash "ud83d"
    +:+ String backslash "ude00" +:+ String "255" "")
  = encode_rune 233 +:+ String "010" (encode_rune 128512 +:+ rune_error).
Proof. vm_compute. reflexivity. Qed.

(** ** The fuel of the parser is enough

    Every lexer consumes its input, so a chain of calls is at most twice as
    long as the input; more fuel changes nothing. *)

Abbreviation slen := String.length.

Lemma skip_ws_length s : (slen (skip_ws s) ≤ slen s)%nat.
Proof. induction s as [|c s IH]; simpl; [done|]. case_decide; simpl; lia. Qed.

Lemma string_drop_length n s : (slen (string_drop n s) ≤ slen s)%nat.
Proof. revert s. induction n as [|n IH]; intros [|c s]; simpl; try lia. specialize (IH s). lia. Qed.

Lemma lex_string_length s a rest : lex_string s = Some (a, rest) → (slen rest < slen s)%nat.
Proof.
  enough (Hn : ∀ n s a, (slen s ≤ n)%nat → lex_string s = Some (a, rest) → (slen rest < slen s)%nat) by eauto.
  intros n. clear s a. induction n as [|n IH]; intros [|c s1] a Hl; try done; [simpl in Hl; lia|].
  cbn [lex_string]. simpl in Hl. case_decide; [intros [= _ <-]; simpl; lia|]. case_decide.
  - destruct s1 as [|e s2]; [done|]. simpl in Hl. case_decide.
    + destruct (lex_string s2) as [[a2 r2]|] eqn:E2; [|done]. intros [= _ <-].
      apply IH in E2; simpl; lia.
    + case_decide; [|done]. destruct s2 as [|h1 [|h2 [|h3 [|h4 s3]]]]; try done. simpl in Hl.
      destruct (hex_digit h1), (hex_digit h2), (hex_digit h3), (hex_digit h4); try done.
      destruct (lex_string s3) as [[a3 r3]|] eqn:E3; [|done]. intros [= _ <-].
      apply IH in E3; simpl; lia.
  - case_if; [done|]. destruct (lex_string s1) as [[a1 r1]|] eqn:E1; [|done]. intros [= _ <-].
    apply IH in E1; simpl; lia.
Qed.

Lemma lex_digits_length s d rest : lex_digits s = (d, rest) → (slen d + slen rest = slen s)%nat.
Proof.
  revert d. induction s as [|c s IH]; intros d; simpl; [by intros [= <- <-]|].
  destruct (is_dec c); [|by intros [= <- <-]]. destruct (lex_digits s) as [d' r'].
  intros [= <- <-]. specialize (IH d' eq_refl). simpl. lia.
Qed.

Lemma nonempty_length (d : string) : d ≠ "" → (0 < slen d)%nat.
Proof. destruct d; simpl; [done|lia]. Qed.

Lemma lex_frac_length s f rest : lex_frac s = Some (f, rest) → (slen rest ≤ slen s)%nat.
Proof.
  unfold lex_frac. destruct s as [|c s]; [by intros [= _ <-]|].
  destruct (decide (c = "."%char)) as [->|Hc].
  - destruct (lex_digits s) as [d r] eqn:E. case_decide; [done|]. intros [= _ <-].
    apply lex_digits_length in E. simpl. lia.
  - destruct c as [[][][][][][][][]]; solve [by intros [= _ <-]|done].
Qed.

Lemma lex_exp_length s e rest : lex_exp s = Some (e, rest) → (slen rest ≤ slen s)%nat.
Proof.
  unfold lex_exp. destruct s as [|c s]; [by intros [= _ <-]|]. case_decide; [|by intros [= _ <-]].
  set (p := match s with String "+"%char s2 => ("+", s2) | String "-"%char s2 => ("-", s2) | _ => ("", s) end).
  assert (Hp : (slen p.2 ≤ slen s)%nat).
  { unfold p. destruct s as [|[[][][][][][][][]] s]; simpl; lia. }
  destruct p as [sign s2]. simpl in Hp. destruct (lex_digits s2) as [d r] eqn:E. case_decide; [done|].
  intros [= _ <-]. apply lex_digits_length in E. simpl. lia.
Qed.

Lemma lex_number_length s n rest : lex_number s = Some (n, rest) → (slen rest < slen s)%nat.
Proof.
  unfold lex_number.
  set (p := match s with String "-"%char s' => (true, s') | _ => (false, s) end).
  assert (Hp : (slen p.2 ≤ slen s)%nat) by (unfold p; destruct s as [|[[][][][][][][][]] s]; simpl; lia).
  destruct p as [neg s0]. simpl in Hp.
  set (p := match s0 with String "0"%char s' => ("0", s') | _ => lex_digits s0 end).
  assert (Hq : (slen p.1 + slen p.2 = slen s0)%nat).
  { unfold p. destruct (lex_digits s0) as [d r] eqn:E. pose proof (lex_digits_length _ _ _ E).
    destruct s0 as [|[[][][][][][][][]] s0]; simpl in *; lia. }
  destruct p as [int s1]. simpl in Hq. case_decide as Hi; [done|]. apply nonempty_length in Hi.
  destruct (lex_frac s1) as [[f s2]|] eqn:Ef; [|done]. cbn [mbind option_bind].
  destruct (lex_exp s2) as [[e s3]|] eqn:Ee; [|done]. cbn [mbind option_bind]. intros [= _ <-].
  apply lex_frac_length in Ef. apply lex_exp_length in Ee. lia.
Qed.

Lemma lex_literal_length s v rest : lex_literal s = Some (v, rest) → (slen rest < slen s)%nat.
Proof.
  unfold lex_literal.
  assert (Hdrop : ∀ p n, has_prefix s p = true → slen p = S n → (slen (string_drop (slen p) s) < slen s)%nat).
  { intros p n [t ->]%has_prefix_spec Hn. rewrite string_drop_app, string_length_app. lia. }
  destruct (has_prefix s "null") eqn:E1; [intros [= _ <-]; by apply (Hdrop "null" 3%nat)|].
  destruct (has_prefix s "true") eqn:E2; [intros [= _ <-]; by apply (Hdrop "true" 3%nat)|].
  destruct (has_prefix s "false") eqn:E3; [intros [= _ <-]; by apply (Hdrop "false" 4%nat)|].
  destruct (lex_number s) as [[n r]|] eqn:E; [|done]. intros [= _ <-]. by apply lex_number_length in E.
Qed.

Lemma expect_length c s rest : expect c s = Some rest → slen s = S (slen rest).
Proof. destruct s as [|d s]; simpl; [done|]. case_decide; [|done]. by intros [= ->]. Qed.

(** The lengths that the parser's steps leave, for [lia]. *)
Ltac lengths :=
  repeat match goal with
  | H : expect _ _ = Some _ |- _ => apply expect_length in H
  | H : lex_string _ = Some _ |- _ => apply lex_string_length in H
  | H : lex_literal _ = Some _ |- _ => apply lex_literal_length in H
  end;
  repeat match goal with
  | H : context [slen (skip_ws ?s)] |- _ =>
      lazymatch goal with
      | _ : (slen (skip_ws s) ≤ slen s)%nat |- _ => fail
      | _ => pose proof (skip_ws_length s)
      end
  | |- context [slen (skip_ws ?s)] =>
      lazymatch goal with
      | _ : (slen (skip_ws s) ≤ slen s)%nat |- _ => fail
      | _ => pose proof (skip_ws_length s)
      end
  end;
  simpl in *; lia.

(** The result of a monadic step of the parser, in a hypothesis. *)
Ltac step_in H :=
  match type of H with
  | context [mbind _ ?o] => let E := fresh "E" in destruct o as [?p|] eqn:E; [|discriminate H]; cbn [mbind option_bind] in H
  | context [match ?o with Some _ => _ | None => _ end] =>
      let E := fresh "E" in destruct o as [?p|] eqn:E
  | context [let '(_, _) := ?o in _] => destruct o
  end.

Lemma parse_lengths fuel :
  (∀ depth s v rest, parse_value fuel depth s = Some (v, rest) → (slen rest < slen s)%nat) ∧
  (∀ depth s v rest, parse_elements fuel depth s = Some (v, rest) → (slen rest < slen s)%nat) ∧
  (∀ depth s v rest, parse_members fuel depth s = Some (v, rest) → (slen rest < slen s)%nat).
Proof.
  induction fuel as [|fuel (IHv & IHe & IHm)]; [done|]. split_and!; intros depth s v rest H.
  - cbn [parse_value] in H. destruct s as [|c s1]; [done|].
    case_decide; [|case_decide; [|case_decide]].
    + destruct depth as [|depth]; [done|]. destruct (expect "}" (skip_ws s1)) as [r|] eqn:E.
      * injection H as _ <-. lengths.
      * step_in H. destruct p as [ms r]. apply IHm in E0. injection H as _ <-. lengths.
    + destruct depth as [|depth]; [done|]. destruct (expect "]" (skip_ws s1)) as [r|] eqn:E.
      * injection H as _ <-. lengths.
      * step_in H. destruct p as [l r]. apply IHe in E0. injection H as _ <-. lengths.
    + step_in H. destruct p as [raw r]. injection H as _ <-. lengths.
    + lengths.
  - cbn [parse_elements] in H. step_in H. destruct p as [x s1]. apply IHv in E.
    destruct (expect "]" (skip_ws s1)) as [r|] eqn:E1; [injection H as _ <-; lengths|].
    step_in H. step_in H. destruct p0 as [l r]. apply IHe in E2. injection H as _ <-. lengths.
  - cbn [parse_members] in H. destruct s as [|c s1]; [done|]. case_decide; [|done].
    step_in H. destruct p as [raw s2]. step_in H. step_in H. destruct p0 as [x s5]. apply IHv in E1.
    destruct (expect "}" (skip_ws s5)) as [r|] eqn:E2; [injection H as _ <-; lengths|].
    step_in H. step_in H. destruct p1 as [ms r]. apply IHm in E4. injection H as _ <-. lengths.
Qed.

(** With enough fuel the fuel does not matter. *)
Lemma parse_fuel_indep n :
  (∀ f1 f2 depth s, (2 * slen s + 1 ≤ n)%nat → (2 * slen s + 1 ≤ f1)%nat → (2 * slen s + 1 ≤ f2)%nat →
     parse_value f1 depth s = parse_value f2 depth s) ∧
  (∀ f1 f2 depth s, (2 * slen s + 2 ≤ n)%nat → (2 * slen s + 2 ≤ f1)%nat → (2 * slen s + 2 ≤ f2)%nat →
     parse_elements f1 depth s = parse_elements f2 depth s) ∧
  (∀ f1 f2 depth s, (2 * slen s + 2 ≤ n)%nat → (2 * slen s + 2 ≤ f1)%nat → (2 * slen s + 2 ≤ f2)%nat →
     parse_members f1 depth s = parse_members f2 depth s).
Proof.
  induction n as [|n (IHv & IHe & IHm)]; [split_and!; intros; lia|].
  split_and!; intros [|f1] [|f2] depth s Hn H1 H2; try lia.
  - cbn [parse_value]. destruct s as [|c s1]; [done|]. simpl in *. pose proof (skip_ws_length s1).
    case_decide; [|case_decide; [|done]].
    + destruct depth as [|depth]; [done|]. destruct (expect "}" (skip_ws s1)); [done|].
      rewrite (IHm f1 f2) by lia. done.
    + destruct depth as [|depth]; [done|]. destruct (expect "]" (skip_ws s1)); [done|].
      rewrite (IHe f1 f2) by lia. done.
  - cbn [parse_elements]. rewrite (IHv f1 f2) by lia.
    destruct (parse_value f2 depth s) as [[v s1]|] eqn:Ev; [|done]. cbn [mbind option_bind].
    apply parse_lengths in Ev. destruct (expect "]" (skip_ws s1)); [done|].
    destruct (expect "," (skip_ws s1)) as [s2|] eqn:Ec; [|done]. cbn [mbind option_bind].
    apply expect_length in Ec. pose proof (skip_ws_length s1). pose proof (skip_ws_length s2).
    rewrite (IHe f1 f2) by lia. done.
  - cbn [parse_members]. destruct s as [|c s1]; [done|]. simpl in *. case_decide; [|done].
    destruct (lex_string s1) as [[raw s2]|] eqn:El; [|done]. cbn [mbind option_bind].
    apply lex_string_length in El. destruct (expect ":" (skip_ws s2)) as [s3|] eqn:Ec; [|done].
    cbn [mbind option_bind]. apply expect_length in Ec. pose proof (skip_ws_length s2).
    pose proof (skip_ws_length s3). rewrite (IHv f1 f2) by lia.
    destruct (parse_value f2 depth (skip_ws s3)) as [[v s5]|] eqn:Ev; [|done]. cbn [mbind option_bind].
    apply parse_lengths in Ev. destruct (expect "}" (skip_ws s5)); [done|].
    destruct (expect "," (skip_ws s5)) as [s6|] eqn:Ec2; [|done]. cbn [mbind option_bind].
    apply expect_length in Ec2. pose proof (skip_ws_length s5). pose proof (skip_ws_length s6).
    rewrite (IHm f1 f2) by lia. done.
Qed.

(** The parser's result is that of any larger fuel. *)
Lemma parse_fuel_enough s fuel :
  (parse_fuel s ≤ fuel)%nat →
  parse_value fuel maxNestingDepth (skip_ws s)
  = parse_value (parse_fuel s) maxNestingDepth (skip_ws s).
Proof.
  intros Hf. unfold parse_fuel in *. pose proof (skip_ws_length s).
  apply (proj1 (parse_fuel_indep (2 * slen s + 1))); lia.
Qed.
