(* ===== verification/Durations.v ===== *)
(** * Durations in the configuration ([Duration.UnmarshalYAML] in [config.go])

    [time.ParseDuration] with its overflow checks on [uint64] and its
    fractions in [float64].  A duration is its number of nanoseconds. *)

From Stdlib Require Import ZArith Lia Ascii SpecFloat.
From S2P Require Import Prelude GoStrings Float64 NetIP NetPrefix Http Value Json.

Local Open Scope Z_scope.

(** ** Parsing *)

(** [leadingInt]: [None] on overflow. *)
Fixpoint leadingInt (x : Z) (s : string) : option (Z * string) :=
  match s with
  | EmptyString => Some (x, s)
  | String c s' =>
      match dec_digit c with
      | None => Some (x, s)
      | Some d =>
          if 2 ^ 63 / 10 <? x then None
          else if 2 ^ 63 <? x * 10 + d then None
          else leadingInt (x * 10 + d) s'
      end
  end.

(** [leadingFraction]: digits that do not fit are skipped. *)
Fixpoint leadingFraction (x : Z) (scale : f64) (overflow : bool) (s : string) : Z * f64 * string :=
  match s with
  | EmptyString => (x, scale, s)
  | String c s' =>
      match dec_digit c with
      | None => (x, scale, s)
      | Some d =>
          if overflow || ((2 ^ 63 - 1) / 10 <? x) || (2 ^ 63 <? x * 10 + d)
          then leadingFraction x scale true s'
          else leadingFraction (x * 10 + d) (f64_mul scale (f64_of_Z 10)) overflow s'
      end
  end.

(** The unit: the bytes before the next digit or dot. *)
Fixpoint lex_unit (s : string) : string * string :=
  match s with
  | EmptyString => (EmptyString, s)
  | String c s' =>
      if is_dec c || bool_decide (c = "."%char) then (EmptyString, s)
      else let '(u, rest) := lex_unit s' in (String c u, rest)
  end.

(** [unitMap]; the micro sign is U+00B5 or U+03BC. *)
Definition unitMap : list (string * Z) :=
  [("ns", 1); ("us", 10 ^ 3); (String "194" (String "181" "s"), 10 ^ 3); (String "206" (String "188" "s"), 10 ^ 3);
   ("ms", 10 ^ 6); ("s", 10 ^ 9); ("m", 60 * 10 ^ 9); ("h", 3600 * 10 ^ 9)].

Definition unit_value (u : string) : option Z :=
  match list_find (λ x, x.1 = u) unitMap with Some (_, (_, v)) => Some v | None => None end.

(** [uint64(x)] of a finite nonnegative number below [2^64]. *)
Definition uint64_of_f64 (x : f64) : Z :=
  match x with
  | S754_finite _ m e => if 0 <=? e then Z.shiftl (Zpos m) e else Z.shiftr (Zpos m) (- e)
  | _ => 0
  end.

(** One round of the loop: the nanoseconds of a number with its unit. *)
Definition parse_term (s : string) : option (Z * string) :=
  match s with
  | EmptyString => None
  | String c _ =>
      if negb (is_dec c || bool_decide (c = "."%char)) then None
      else
        '(v, s1) ← leadingInt 0 s;
        let pre := negb (String.length s1 =? String.length s)%nat in
        let '(f, scale, s2, post) :=
          match s1 with
          | String "." t =>
              let '(f, scale, s2) := leadingFraction 0 f64_one false t in
              (f, scale, s2, negb (String.length s2 =? String.length t)%nat)
          | _ => (0, f64_one, s1, false)
          end in
        if negb pre && negb post then None
        else
          let '(u, s3) := lex_unit s2 in
          if bool_decide (u = "") then None
          else
            unit ← unit_value u;
            if 2 ^ 63 / unit <? v then None
            else
              let v := v * unit in
              if 0 <? f then
                let v := uint64 (v + uint64_of_f64 (f64_mul (f64_of_Z f) (f64_div (f64_of_Z unit) scale))) in
                if 2 ^ 63 <? v then None else Some (v, s3)
              else Some (v, s3)
  end.

(** The loop; a term takes at least one byte, so the length is enough fuel. *)
Fixpoint parse_terms (fuel : nat) (d : Z) (s : string) : option Z :=
  match s with
  | EmptyString => Some d
  | _ =>
      match fuel with
      | O => None
      | S fuel =>
          '(v, s') ← parse_term s;
          let d := uint64 (d + v) in
          if 2 ^ 63 <? d then None else parse_terms fuel d s'
      end
  end.

Definition ParseDuration (s : string) : option Z :=
  let '(neg, s) :=
    match s with
    | String "-" t => (true, t)
    | String "+" t => (false, t)
    | _ => (false, s)
    end in
  if bool_decide (s = "0") then Some 0
  else if bool_decide (s = "") then None
  else
    d ← parse_terms (String.length s) 0 s;
    if neg : bool then Some (int64 (- d))
    else if MaxInt64 <? d then None else Some d.

(** [UnmarshalYAML] on the value of a scalar node; [inl] is the value the error
    quotes, and the receiver is left as it was. *)
Definition UnmarshalYAML (value : string) : string + Z :=
  match ParseDuration value with
  | None => inl value
  | Some v => inr v
  end.

Example durations :
  ParseDuration <$> ["30s"; "1h30m"; "1.5h"; "-250ms"; "0"; "+5us"; ".5s"; "1h1h"]
  = Some <$> [30 * 10 ^ 9; 90 * 60 * 10 ^ 9; 90 * 60 * 10 ^ 9; - 250 * 10 ^ 6; 0; 5000; 5 * 10 ^ 8; 7200 * 10 ^ 9].
Proof. vm_compute. reflexivity. Qed.

Example no_durations : ParseDuration <$> [""; "30"; "s"; "1 s"; "."; "1.s2"; "9223372036854775808ns"; "3000000h"]
  = replicate 8 None.
Proof. vm_compute. reflexivity. Qed.

(** ** Lemmas *)

(** Digits, and a rest that does not go on with one. *)
Definition all_dec (s : string) : Prop := string_forallb is_dec s = true.
Definition dec_ends (s : string) : Prop := match s with String c _ => is_dec c = false | EmptyString => True end.

(** A rest at which a new term begins, or the end. *)
Definition term_starts (s : string) : Prop := match s with String c _ => is_dec c = true | EmptyString => True end.

Lemma is_dec_digit c : is_dec c = true → ∃ d, dec_digit c = Some d ∧ 0 ≤ d ≤ 9.
Proof.
  unfold is_dec. destruct (dec_digit c) as [d|] eqn:E; [|done]. exists d. split; [done|]. by eapply dec_digit_range.
Qed.

Lemma all_dec_cons c s : all_dec (String c s) ↔ is_dec c = true ∧ all_dec s.
Proof. apply andb_true_iff. Qed.

Lemma dec_value_le x s : all_dec s → 0 ≤ x → x ≤ dec_value x s.
Proof.
  revert x. induction s as [|c s IH]; intros x Hs Hx; simpl; [lia|]. apply all_dec_cons in Hs as [Hc Hs].
  destruct (is_dec_digit c Hc) as (d & -> & Hd). simpl. specialize (IH (x * 10 + d) Hs). lia.
Qed.

Lemma leadingInt_digits ds x rest :
  all_dec ds → 0 ≤ x → dec_ends rest → dec_value x ds ≤ 2 ^ 63 →
  leadingInt x (ds +:+ rest) = Some (dec_value x ds, rest).
Proof.
  revert x. induction ds as [|c ds IH]; intros x Hds Hx Hrest Hle; simpl.
  - destruct rest as [|c rest]; [done|]. unfold dec_ends, is_dec in Hrest. simpl. by destruct (dec_digit c).
  - apply all_dec_cons in Hds as [Hc Hds]. destruct (is_dec_digit c Hc) as (d & Hd & Hr).
    cbn [dec_value] in Hle |- *. rewrite Hd in *. cbn [default from_option id] in *.
    pose proof (dec_value_le (x * 10 + d) ds Hds ltac:(lia)). assert (x ≤ 2 ^ 63 / 10) by (apply Z.div_le_lower_bound; lia).
    rewrite (proj2 (Z.ltb_ge (2 ^ 63 / 10) x)), (proj2 (Z.ltb_ge (2 ^ 63) (x * 10 + d))) by lia. apply IH; [done|lia|done..].
Qed.

(** *** Units, as a specification of their own *)
Inductive time_unit := Nanosecond | Microsecond | Microsign | Greekmu | Millisecond | Second | Minute | Hour.

Definition unit_name (u : time_unit) : string :=
  match u with
  | Nanosecond => "ns"
  | Microsecond => "us"
  | Microsign => String "194" (String "181" "s")
  | Greekmu => String "206" (String "188" "s")
  | Millisecond => "ms"
  | Second => "s"
  | Minute => "m"
  | Hour => "h"
  end.

Definition unit_ns (u : time_unit) : Z :=
  match u with
  | Nanosecond => 1
  | Microsecond | Microsign | Greekmu => 1000
  | Millisecond => 1000 * 1000
  | Second => 1000 * 1000 * 1000
  | Minute => 60 * (1000 * 1000 * 1000)
  | Hour => 60 * (60 * (1000 * 1000 * 1000))
  end.

Lemma unit_value_name u : unit_value (unit_name u) = Some (unit_ns u).
Proof. by destruct u. Qed.

Lemma unit_ns_pos u : 0 < unit_ns u.
Proof. by destruct u. Qed.

Lemma lex_unit_app u rest : term_starts rest → lex_unit (unit_name u +:+ rest) = (unit_name u, rest).
Proof.
  intros Hrest. assert (Hnil : lex_unit rest = (EmptyString, rest)).
  { destruct rest as [|c rest]; [done|]. simpl in *. by rewrite Hrest. }
  destruct u; cbn [unit_name]; rewrite ?string_app_cons, ?string_app_nil_l; cbn; by rewrite Hnil.
Qed.

Lemma unit_ends u rest : dec_ends (unit_name u +:+ rest) ∧ unit_name u ≠ "".
Proof. by destruct u. Qed.

(** No unit begins with a dot, so no fraction is read. *)
Lemma unit_no_dot {A} u rest (a : string → A) (b : A) :
  match unit_name u +:+ rest with String "." t => a t | _ => b end = b.
Proof. by destruct u. Qed.

(** A term: digits and a unit, and its nanoseconds. *)
Definition term : Type := string * time_unit.
Definition term_ok (t : term) : Prop := t.1 ≠ "" ∧ all_dec t.1.
Definition term_string (t : term) : string := t.1 +:+ unit_name t.2.
Definition term_ns (t : term) : Z := dec_value 0 t.1 * unit_ns t.2.

Definition terms_string (ts : list term) : string := foldr (λ t s, term_string t +:+ s) "" ts.

Lemma term_ns_nonneg t : term_ok t → 0 ≤ term_ns t.
Proof.
  intros [_ Hd]. unfold term_ns. pose proof (unit_ns_pos t.2).
  pose proof (dec_value_le 0 t.1 Hd ltac:(lia)). nia.
Qed.

Lemma parse_term_ok t rest :
  term_ok t → term_starts rest → term_ns t ≤ 2 ^ 63 → parse_term (term_string t +:+ rest) = Some (term_ns t, rest).
Proof.
  destruct t as [ds u]. intros [Hne Hds] Hrest Hle. unfold term_ns, term_string in *. cbn [fst snd] in *.
  pose proof (unit_ns_pos u) as Hpos.
  pose proof (dec_value_le 0 ds Hds ltac:(lia)) as Hnn. rewrite <- string_app_assoc.
  destruct (unit_ends u rest) as [Hends Hune].
  destruct ds as [|c ds]; [done|]. rewrite string_app_cons. cbv beta iota delta [parse_term].
  rewrite (proj1 (proj1 (all_dec_cons c ds) Hds)). cbn [orb negb].
  change (String c (ds +:+ unit_name u +:+ rest)) with (String c ds +:+ (unit_name u +:+ rest)).
  rewrite leadingInt_digits; [|done|lia|done|nia]. cbn [mbind option_bind].
  rewrite (unit_no_dot u rest (λ t, let '(f, scale, s2) := leadingFraction 0 f64_one false t in
      (f, scale, s2, negb (String.length s2 =? String.length t)%nat)) (0, f64_one, unit_name u +:+ rest, false)).
  rewrite !string_length_app, (proj2 (Nat.eqb_neq _ _)) by (simpl; lia). cbn [negb andb].
  rewrite (lex_unit_app u rest Hrest), bool_decide_eq_false_2 by done. rewrite unit_value_name. cbn [mbind option_bind].
  rewrite (proj2 (Z.ltb_ge _ _)); [done|]. apply Z.div_le_lower_bound; lia.
Qed.

Lemma terms_start ts : Forall term_ok ts → term_starts (terms_string ts).
Proof.
  intros [|[ds u] ts' [Hne Hds] _]; [done|]. destruct ds as [|c ds]; [done|].
  by apply all_dec_cons in Hds as [? _].
Qed.

Lemma parse_terms_ok ts fuel d :
  Forall term_ok ts → (String.length (terms_string ts) ≤ fuel)%nat → 0 ≤ d → d + sumZ term_ns ts ≤ 2 ^ 63 →
  parse_terms fuel d (terms_string ts) = Some (d + sumZ term_ns ts).
Proof.
  revert fuel d. induction ts as [|t ts IH]; intros fuel d Hts Hf Hd Hle.
  { rewrite Z.add_0_r. by destruct fuel. }
  apply Forall_cons in Hts as [Ht Hts]. rewrite sumZ_cons in Hle |- *.
  assert (0 ≤ sumZ term_ns ts).
  { apply sumZ_nonneg. intros x Hx. rewrite Forall_forall in Hts. by apply term_ns_nonneg, Hts. }
  pose proof (term_ns_nonneg t Ht) as Hn.
  pose proof (parse_term_ok t (terms_string ts) Ht (terms_start ts Hts) ltac:(lia)) as Hp.
  cbn [terms_string foldr] in *. fold (terms_string ts) in *.
  assert (1 ≤ String.length (term_string t))%nat as Hlen.
  { destruct t as [[|c ds] u]; [by destruct Ht|]. unfold term_string. simpl. lia. }
  rewrite string_length_app in Hf. destruct fuel as [|fuel]; [lia|].
  destruct (term_string t +:+ terms_string ts) as [|c s] eqn:Es; [done|]. cbn [parse_terms]. rewrite Hp.
  cbn [mbind option_bind]. rewrite uint64_id by lia. rewrite (proj2 (Z.ltb_ge _ _)) by lia.
  rewrite IH; [f_equal; lia|done|lia|lia|lia].
Qed.

(** ** Properties *)

Lemma dec_no_sign c s :
  is_dec c = true →
  match String c s with String "-" t => (true, t) | String "+" t => (false, t) | _ => (false, String c s) end
  = (false, String c s).
Proof. destruct c as [[][][][][][][][]]; (reflexivity || (intros Hc; vm_compute in Hc; discriminate Hc)). Qed.

Lemma terms_string_head ts :
  ts ≠ [] → Forall term_ok ts → ∃ c c' s, terms_string ts = String c (String c' s) ∧ is_dec c = true.
Proof.
  intros Hne Hts. destruct Hts as [|[ds u] ts' [Hd Hds] _]; [done|].
  destruct ds as [|c ds]; [done|]. destruct (unit_ends u "") as [_ Hu]. destruct (unit_name u) as [|c' n] eqn:Eu; [done|].
  apply all_dec_cons in Hds as [Hc _]. cbn [terms_string foldr]. fold (terms_string ts').
  unfold term_string. cbn [fst snd]. rewrite Eu, string_app_cons.
  destruct ds as [|c2 ds]; eexists c, _, _; (split; [reflexivity|done]).
Qed.

(** Every duration is in the range of [time.Duration]. *)
Theorem ParseDuration_range s d : ParseDuration s = Some d → in_int64 d.
Proof.
  assert (Hterms : ∀ fuel d s r, 0 ≤ d → parse_terms fuel d s = Some r → 0 ≤ r).
  { induction fuel as [|fuel IH]; intros d0 s0 r Hd; destruct s0; cbn [parse_terms]; try congruence.
    destruct (parse_term _) as [[v s']|]; [|done]. cbn [mbind option_bind]. case_if; [done|]. apply IH.
    apply Z.mod_pos_bound. lia. }
  unfold ParseDuration. set (p := match s with String "-" t => _ | _ => _ end). destruct p as [neg t].
  case_bool_decide; [intros [= <-]; by vm_compute|]. case_bool_decide; [done|].
  destruct (parse_terms _ 0 t) as [r|] eqn:Er; [|done]. cbn [mbind option_bind]. apply Hterms in Er; [|done].
  destruct neg; [intros [= <-]; apply int64_range|]. destruct (Z.ltb_spec MaxInt64 r); [done|].
  intros [= <-]. unfold in_int64, MinInt64, MaxInt64 in *. lia.
Qed.

(** A duration written in whole numbers of units is read as exactly the
    number of nanoseconds it denotes, with either sign: any sequence of terms,
    each with any digits and any unit, whose sum a [time.Duration] can hold. *)
Theorem duration_roundtrip ts :
  ts ≠ [] → Forall term_ok ts → sumZ term_ns ts ≤ MaxInt64 →
  UnmarshalYAML (terms_string ts) = inr (sumZ term_ns ts) ∧
  UnmarshalYAML ("-" +:+ terms_string ts) = inr (- sumZ term_ns ts).
Proof.
  intros Hne Hts Hle. destruct (terms_string_head ts Hne Hts) as (c & c' & s & Hs & Hc).
  assert (Hsum : 0 ≤ sumZ term_ns ts).
  { apply sumZ_nonneg. intros x Hx. rewrite Forall_forall in Hts. by apply term_ns_nonneg, Hts. }
  unfold MaxInt64 in Hle.
  assert (Hp : parse_terms (String.length (terms_string ts)) 0 (terms_string ts) = Some (sumZ term_ns ts))
    by (apply parse_terms_ok; [done|lia|lia|lia]).
  assert (Hrest : ∀ neg : bool,
    (if bool_decide (terms_string ts = "0") then Some 0
     else if bool_decide (terms_string ts = "") then None
     else d ← parse_terms (String.length (terms_string ts)) 0 (terms_string ts);
       if neg then Some (int64 (- d)) else if MaxInt64 <? d then None else Some d)
    = Some (if neg then - sumZ term_ns ts else sumZ term_ns ts)).
  { intros neg. rewrite Hp, Hs, !bool_decide_eq_false_2 by done. cbn [mbind option_bind].
    rewrite int64_id by (unfold in_int64, MinInt64, MaxInt64; lia).
    rewrite (proj2 (Z.ltb_ge _ _)) by (unfold MaxInt64; lia). by destruct neg. }
  unfold UnmarshalYAML, ParseDuration. split.
  - rewrite Hs, (dec_no_sign c (String c' s) Hc), <- Hs. by rewrite (Hrest false).
  - change ("-" +:+ terms_string ts) with (String "-" (terms_string ts)). cbv beta iota.
    by rewrite (Hrest true).
Qed.

Lemma duration_roundtrip_witness :
  UnmarshalYAML "1h030m" = inr (90 * 60 * 10 ^ 9) ∧ UnmarshalYAML "-1h030m" = inr (- (90 * 60 * 10 ^ 9)).
Proof.
  apply (duration_roundtrip [("1", Hour); ("030", Minute)]); [done| |vm_compute; discriminate].
  repeat (apply Forall_cons_2; [by split|]). done.
Defined.
