(* ===== verification/Encoding.v ===== *)
(** * Well-typed payloads

    A payload is typed when [json.Marshal] has a form for every value in it.
    Decoding yields typed payloads and the transformations of [gateway.go] keep
    them typed, so that the only way for the encoding of an upstream request to
    fail is an override of the configuration. *)

From Stdlib Require Import ZArith Lia SpecFloat.
From S2P Require Import Prelude GoStrings Float64 NetIP Value Config Json Payload.

Local Open Scope Z_scope.

Definition typed (v : any) : Prop := marshal_ok v = true.
Definition typed_payload (p : payload) : Prop := map_Forall (λ _ v, typed v) p.

#[export] Instance typed_dec v : Decision (typed v).
Proof. unfold typed. apply _. Defined.
#[export] Instance typed_payload_dec p : Decision (typed_payload p).
Proof. unfold typed_payload. apply _. Defined.

Create HintDb typed.

(** ** The judgement, constructor by constructor *)

Lemma typed_arr l : typed (AArr l) ↔ Forall typed l.
Proof.
  unfold typed. cbn [marshal_ok]. induction l as [|v l IH]; [by split|].
  cbn [forallb]. by rewrite andb_true_iff, IH, Forall_cons.
Qed.

Lemma typed_obj m : typed (AObj m) ↔ typed_payload m.
Proof.
  unfold typed, typed_payload. cbn [marshal_ok].
  apply (map_fold_weak_ind (λ b m, b = true ↔ map_Forall (λ _ v, marshal_ok v = true) m)).
  - split; [intros _; apply map_Forall_empty|done].
  - intros k v m' b Hk IH. rewrite andb_true_iff, IH, map_Forall_insert by done. tauto.
Qed.

Lemma typed_payload_insert p k v : typed v → typed_payload p → typed_payload (<[k := v]> p).
Proof. intros Hv Hp. by apply map_Forall_insert_2. Qed.

Lemma typed_payload_delete p k : typed_payload p → typed_payload (delete k p).
Proof. apply map_Forall_delete. Qed.

Lemma typed_payload_lookup p k v : typed_payload p → p !! k = Some v → typed v.
Proof. intros Hp Hk. by apply (map_Forall_lookup_1 _ p k). Qed.

Lemma typed_payload_empty : typed_payload ∅.
Proof. apply map_Forall_empty. Qed.

#[export] Hint Resolve typed_payload_insert typed_payload_delete typed_payload_empty : typed.
#[export] Hint Resolve typed_payload_lookup : typed.
#[export] Hint Extern 1 (typed (AStr _)) => reflexivity : typed.

(** ** Decoding yields typed values *)

Lemma decimal_typed neg m e x : f64_of_decimal neg m e = Some x → typed (AFloat x).
Proof.
  assert (Hfin : ∀ y, y ≠ S754_nan → match y with S754_infinity _ => None | _ => Some y end = Some x → typed (AFloat x)).
  { intros [| | |] Hy Hx; simplify_eq; done. }
  unfold f64_of_decimal. cbv zeta. destruct (m =? 0); [by intros [= <-]|]. destruct (400 <? e); [done|].
  destruct (_ <? 0); [by intros [= <-]|]. destruct (0 <=? e); apply Hfin, normalize_not_nan.
Qed.

Lemma parse_float_typed l x : parse_float l = Some x → typed (AFloat x).
Proof. unfold parse_float. destruct (lex_number l) as [[n ?]|]; [apply decimal_typed|done]. Qed.

Lemma to_any_typed j v : to_any j = Some v → typed v.
Proof.
  revert j v. fix IH 1. intros [|b|l|s|l|ms] v; cbn [to_any].
  - by intros [= <-].
  - by intros [= <-].
  - destruct (parse_float l) as [x|] eqn:E; [|done]. intros [= <-]. by apply (parse_float_typed l).
  - by intros [= <-].
  - match goal with |- AArr <$> ?f l = _ → _ => set (go := f) end.
    destruct (go l) as [vs|] eqn:E; [|done]. intros [= <-]. apply typed_arr. revert vs E.
    induction l as [|x l IHl]; intros vs; [by intros [= <-]|].
    change (go (x :: l)) with (v ← to_any x; vs ← go l; Some (v :: vs)).
    destruct (to_any x) as [w|] eqn:Ew; [|done]. cbn [mbind option_bind].
    destruct (go l) as [ws|]; [|done]. intros [= <-]. constructor; [by apply (IH x)|by apply IHl].
  - match goal with |- AObj <$> ?f ms ∅ = _ → _ => set (go := f) end.
    destruct (go ms ∅) as [m|] eqn:E; [|done]. intros [= <-]. apply typed_obj. revert E.
    generalize typed_payload_empty. generalize (∅ : payload).
    induction ms as [|[[k t] x] ms IHms]; intros m0 Hm0; [by intros [= <-]|].
    change (go ((k, t, x) :: ms) m0) with (v ← to_any x; go ms (<[k := v]> m0)).
    destruct (to_any x) as [w|] eqn:Ew; [|done]. cbn [mbind option_bind]. apply IHms.
    apply typed_payload_insert; [by apply (IH x)|done].
Qed.

Lemma Unmarshal_typed data p : Unmarshal_payload data = Some p → typed_payload p.
Proof.
  unfold Unmarshal_payload. destruct (parse_json data) as [j|]; [|done].
  destruct j as [| | | | |ms]; try done; [by intros [= <-]|].
  destruct (to_any (JObj ms)) as [v|] eqn:E; [|done]. cbn [mbind option_bind].
  apply to_any_typed in E. destruct v; try done. intros [= <-]. by apply typed_obj.
Qed.

(** ** The transformations keep payloads typed *)

Lemma rewrite_system_typed prepend append l l' :
  Forall typed l → rewrite_system prepend append l = Some l' → Forall typed l'.
Proof.
  intros Hl. revert l'. induction Hl as [|raw rest Hraw Hrest IH]; intros l'; [done|]. cbn [rewrite_system].
  assert (Hgo : ∀ l', cons raw <$> rewrite_system prepend append rest = Some l' → Forall typed l').
  { intros l1. destruct (rewrite_system _ _ _) as [l2|]; [|done]. intros [= <-]. constructor; [done|by apply IH]. }
  destruct raw as [| | | | | |m|]; cbn [as_object]; try apply Hgo. case_bool_decide; [|apply Hgo].
  destruct (as_string (m !! "content")); [|apply Hgo]. intros [= <-]. constructor; [|done].
  apply typed_obj. apply typed_obj in Hraw. auto with typed.
Qed.

Lemma applySystemPrompt_typed p endpoint prepend append p' :
  typed_payload p → applySystemPrompt p endpoint prepend append = inr p' → typed_payload p'.
Proof.
  intros Hp. unfold applySystemPrompt. case_if; [by intros [= <-]|]. case_if; [intros [= <-]; auto with typed|].
  destruct (as_array _) as [l|] eqn:El; [|done].
  assert (Hl : Forall typed l).
  { unfold as_array in El. destruct (p !! "messages") as [[]|] eqn:Ep; try done. injection El as ->.
    apply typed_arr. by eapply typed_payload_lookup. }
  destruct (rewrite_system _ _ l) as [l'|] eqn:Er; intros [= <-]; apply typed_payload_insert; try done; apply typed_arr.
  - by eapply rewrite_system_typed.
  - constructor; [|done]. apply typed_obj. auto with typed.
Qed.

Lemma effort_typed v e : effort v = Some e → typed e.
Proof. destruct v as [|[]| | | | | |]; intros [= <-]; done. Qed.

Lemma translate_thinking_typed field p : typed_payload p → typed_payload (translate_thinking field p).
Proof.
  intros Hp. unfold translate_thinking. destruct (p !! field) as [v|]; [|done]. apply typed_payload_delete.
  destruct (p !! "reasoning_effort"); [done|]. destruct (effort v) as [e|] eqn:E; [|done].
  apply typed_payload_insert; [by eapply effort_typed|done].
Qed.

Lemma translate_max_tokens_typed p : typed_payload p → typed_payload (translate_max_tokens p).
Proof.
  intros Hp. unfold translate_max_tokens. destruct (p !! "max_tokens") as [v|] eqn:E; [|done].
  apply typed_payload_delete. destruct (p !! "max_output_tokens"); eauto with typed.
Qed.

Lemma applyProviderCompatibility_typed p endpoint protocol :
  typed_payload p → typed_payload (applyProviderCompatibility p endpoint protocol).
Proof.
  intros Hp. unfold applyProviderCompatibility.
  assert (typed_payload (if bool_decide (protocol = "ollama")
    then translate_thinking "think" (translate_thinking "thinking" p) else p)).
  { case_if; [by do 2 apply translate_thinking_typed|done]. }
  case_if; [by apply translate_max_tokens_typed|done].
Qed.

Lemma overrides_typed `{MapOrder} p overrides :
  typed_payload p → typed_payload overrides → typed_payload (applyRequestOverrides p overrides).
Proof. intros. autorewrite with go_rw. by apply map_Forall_union_2. Qed.

Lemma targetPayload_typed `{MapOrder} p endpoint protocol model :
  typed_payload p → typed_payload (targetPayload p endpoint protocol model).
Proof.
  intros Hp. unfold targetPayload. autorewrite with go_rw.
  apply applyProviderCompatibility_typed. auto with typed.
Qed.

Lemma Marshal_typed p : typed_payload p → Marshal p = Some p.
Proof. intros Hp%typed_obj. unfold Marshal. by rewrite Hp. Qed.

Lemma Marshal_untyped p k v : p !! k = Some v → ¬ typed v → Marshal p = None.
Proof.
  intros Hk Hv. unfold Marshal. destruct (marshal_ok (AObj p)) eqn:E; [|done]. destruct Hv.
  apply typed_obj in E. by eapply typed_payload_lookup.
Qed.

(** ** Properties *)

(** C22: the request bodies are well typed from end to end: what a client's JSON
    decodes to is typed, the prompts, the overrides and the translations of
    every target keep it typed, and so the encoding of the body for a target
    yields that body and no error, provided the overrides of the configuration
    are typed. *)
Theorem bodies_well_typed `{MapOrder} data p endpoint prepend append p' overrides protocol model :
  Unmarshal_payload data = Some p → applySystemPrompt p endpoint prepend append = inr p' →
  typed_payload overrides →
  typed_payload p ∧ typed_payload p' ∧
  typed_payload (targetPayload (applyRequestOverrides p' overrides) endpoint protocol model) ∧
  Marshal (targetPayload (applyRequestOverrides p' overrides) endpoint protocol model)
  = Some (targetPayload (applyRequestOverrides p' overrides) endpoint protocol model).
Proof.
  intros Hp%Unmarshal_typed Hs Ho. pose proof (applySystemPrompt_typed _ _ _ _ _ Hp Hs) as Hp'.
  pose proof (targetPayload_typed _ endpoint protocol model (overrides_typed p' overrides Hp' Ho)).
  split_and!; [done|done|done|by apply Marshal_typed].
Qed.

Lemma bodies_well_typed_witness :
  Marshal (targetPayload (H := order_forward)
    (applyRequestOverrides (H := order_forward) {[ "model" := AStr "m"; "messages" := AArr [] ]}
       {[ "temperature" := AFloat f64_one ]}) "/v1/chat/completions" "openai" "gpt")
  = Some {[ "model" := AStr "gpt"; "messages" := AArr []; "temperature" := AFloat f64_one ]}.
Proof.
  destruct (bodies_well_typed (H := order_forward)
    ("{" +:+ q "model" +:+ ":" +:+ q "m" +:+ "," +:+ q "messages" +:+ ":[]}")
    {[ "model" := AStr "m"; "messages" := AArr [] ]} "/v1/chat/completions" "" ""
    {[ "model" := AStr "m"; "messages" := AArr [] ]} {[ "temperature" := AFloat f64_one ]} "openai" "gpt")
    as (_ & _ & _ & Hm).
  - vm_compute. reflexivity.
  - reflexivity.
  - by apply map_Forall_singleton.
  - etrans; [exact Hm|]. vm_compute. reflexivity.
Defined.
