(* ===== verification/Dates.v ===== *)
(** * Calendar dates ([time])

    The UTC day of a timestamp, as [t.UTC().Format(time.DateOnly)] prints it.
    A timestamp is its number of nanoseconds since 1970-01-01T00:00:00Z. *)

From Stdlib Require Import ZArith Lia Ascii.
From S2P Require Import Prelude GoStrings NetIP.

Local Open Scope Z_scope.

Definition day_ns : Z := 86400 * 10 ^ 9.

(** The proleptic Gregorian date of a day number, counted from 1970-01-01:
    years start in March, in cycles of 400 years. *)
Definition civil_of_doe (doe : Z) : Z * Z * Z :=
  let yoe := (doe - doe / 1460 + doe / 36524 - doe / 146096) / 365 in
  let doy := doe - (365 * yoe + yoe / 4 - yoe / 100) in
  let mp := (5 * doy + 2) / 153 in
  let d := doy - (153 * mp + 2) / 5 + 1 in
  let m := if mp <? 10 then mp + 3 else mp - 9 in
  (if m <=? 2 then yoe + 1 else yoe, m, d).

Definition civil_of_days (z : Z) : Z * Z * Z :=
  let z' := z + 719468 in
  let '(y, m, d) := civil_of_doe (z' mod 146097) in
  (y + 400 * (z' / 146097), m, d).

Definition two_digits (n : Z) : string := String (dec_char (n / 10)) (String (dec_char (n mod 10)) "").

Definition DateOnly (t : Z) : string :=
  let '(y, m, d) := civil_of_days (t / day_ns) in
  two_digits (y / 100) +:+ two_digits (y mod 100) +:+ "-" +:+ two_digits m +:+ "-" +:+ two_digits d.

Example date_epoch : DateOnly 0 = "1970-01-01".
Proof. vm_compute. reflexivity. Qed.

Example date_leap : DateOnly (1709164800 * 10 ^ 9) = "2024-02-29".
Proof. vm_compute. reflexivity. Qed.

Example date_before_epoch : DateOnly (-1) = "1969-12-31".
Proof. vm_compute. reflexivity. Qed.

Example date_century : DateOnly (4107542399 * 10 ^ 9) = "2100-02-28".
Proof. vm_compute. reflexivity. Qed.

Example date_year_end :
  (DateOnly (1735689599 * 10 ^ 9), DateOnly (1735689600 * 10 ^ 9)) = ("2024-12-31", "2025-01-01").
Proof. vm_compute. reflexivity. Qed.

(** A date is ten characters: the month is its first seven. *)
Lemma two_digits_length n : String.length (two_digits n) = 2%nat.
Proof. done. Qed.

Lemma DateOnly_length t : String.length (DateOnly t) = 10%nat.
Proof. unfold DateOnly. destruct (civil_of_days (t / day_ns)) as [[y m] d]. by rewrite !string_length_app. Qed.
