(* ===== verification/Usage.v ===== *)
(** * Usage accounting ([internal/gateway/usage.go])

    [extractUsage] reads the token counts of a captured response; [recordAt]
    adds them to two tables in one transaction; [snapshot] and
    [periodSnapshot] read the tables back.  The database is the content of its
    tables; which of its calls fail is an argument. *)

From Stdlib Require Import ZArith Lia Ascii.
From S2P Require Import Prelude GoStrings Float64 NetIP NetPrefix Value Json Dates.

Local Open Scope Z_scope.

(** ** Reading the usage of a response *)

(** The anonymous struct [best]. *)
Record usageFields := mkFields {
  PromptTokens : Z;
  CompletionTokens : Z;
  f_InputTokens : Z;
  f_OutputTokens : Z;
  f_TotalTokens : Z
}.

Definition zero_fields : usageFields := mkFields 0 0 0 0 0.

(** [foldName]: the case folding of the decoder.  Besides the ASCII letters,
    U+017F folds to S and U+212A to K. *)
Fixpoint fold_name (s : string) : string :=
  let fold_ascii (c : ascii) : ascii :=
    if (97 <=? byte_of c) && (byte_of c <=? 122) then chr (byte_of c - 32) else c in
  match s with
  | EmptyString => EmptyString
  | String c1 s1 =>
      match s1 with
      | String c2 s2 =>
          if (byte_of c1 =? 197) && (byte_of c2 =? 191) then String "S" (fold_name s2)
          else
            match s2 with
            | String c3 s3 =>
                if (byte_of c1 =? 226) && (byte_of c2 =? 132) && (byte_of c3 =? 170)
                then String "K" (fold_name s3)
                else String (fold_ascii c1) (fold_name s1)
            | EmptyString => String (fold_ascii c1) (fold_name s1)
            end
      | EmptyString => String (fold_ascii c1) EmptyString
      end
  end.

(** The struct field of a key: the exact name, else a case-insensitive match. *)
Definition match_field (names : list string) (key : string) : option string :=
  if decide (key ∈ names) then Some key
  else snd <$> list_find (λ n, fold_name n = fold_name key) names.

Definition usage_names : list string :=
  ["prompt_tokens"; "completion_tokens"; "input_tokens"; "output_tokens"; "total_tokens"].

Definition set_field (name : string) (v : Z) (f : usageFields) : usageFields :=
  if decide (name = "prompt_tokens") then mkFields v (CompletionTokens f) (f_InputTokens f) (f_OutputTokens f) (f_TotalTokens f)
  else if decide (name = "completion_tokens") then mkFields (PromptTokens f) v (f_InputTokens f) (f_OutputTokens f) (f_TotalTokens f)
  else if decide (name = "input_tokens") then mkFields (PromptTokens f) (CompletionTokens f) v (f_OutputTokens f) (f_TotalTokens f)
  else if decide (name = "output_tokens") then mkFields (PromptTokens f) (CompletionTokens f) (f_InputTokens f) v (f_TotalTokens f)
  else mkFields (PromptTokens f) (CompletionTokens f) (f_InputTokens f) (f_OutputTokens f) v.

(** Decoding the members of a usage object into a copy of [f]; [None] when a
    field does not hold an unsigned 64-bit integer or null. *)
Fixpoint decode_fields (ms : list (string * string * json)) (f : usageFields) : option usageFields :=
  match ms with
  | [] => Some f
  | (key, _, v) :: ms' =>
      match match_field usage_names key with
      | None => decode_fields ms' f
      | Some name =>
          match v with
          | JNull => decode_fields ms' f
          | JNum literal => n ← parse_uint64 literal; decode_fields ms' (set_field name n f)
          | _ => None
          end
      end
  end.

(** The raw text of the last member that matches the field [usage]. *)
Fixpoint raw_usage (ms : list (string * string * json)) (raw : option string) : option string :=
  match ms with
  | [] => raw
  | (key, r, _) :: ms' =>
      raw_usage ms' (match match_field ["usage"] key with Some _ => Some r | None => raw end)
  end.

(** The closure [decode]. *)
Definition decode_usage (best : usageFields) (data : string) : usageFields :=
  match parse_json data with
  | Some (JObj ms) =>
      match raw_usage ms None with
      | None => best
      | Some raw =>
          if decide (raw = "" ∨ raw = "null") then best
          else match parse_json raw with
               | Some (JObj ms') => default best (decode_fields ms' best)
               | _ => best
               end
      end
  | _ => best
  end.

(** One line of the body. *)
Definition decode_line (best : usageFields) (l : string) : usageFields :=
  let line := trim_space l in
  if has_prefix line "data:" then decode_usage best (trim_space (trim_prefix line "data:")) else best.

Definition usage_totals (f : usageFields) : Z * Z * Z :=
  let inp := if f_InputTokens f =? 0 then PromptTokens f else f_InputTokens f in
  let out := if f_OutputTokens f =? 0 then CompletionTokens f else f_OutputTokens f in
  let total := if f_TotalTokens f =? 0 then uint64 (inp + out) else f_TotalTokens f in
  (inp, out, total).

Definition extractUsage (body : string) : Z * Z * Z :=
  usage_totals (foldl decode_line (decode_usage zero_fields body) (split body "010"%char)).

(** ** The tables *)
Record counts_row := mkRow {
  rw_requests : Z; rw_errors : Z; rw_input : Z; rw_output : Z; rw_total : Z
}.

(** A row of [model_usage]. *)
Record model_row := mkModelRow {
  mr_counts : counts_row; last_request_at : Z; last_upstream_status : Z
}.

Abbreviation daily_key := (string * string * string)%type.

Record usageDB := mkDB {
  model_usage : gmap string model_row;
  daily_usage : gmap daily_key counts_row
}.

Definition emptyDB : usageDB := mkDB ∅ ∅.

Definition add_row (a b : counts_row) : counts_row :=
  mkRow (rw_requests a + rw_requests b) (rw_errors a + rw_errors b) (rw_input a + rw_input b)
    (rw_output a + rw_output b) (rw_total a + rw_total b).

Definition zero_row : counts_row := mkRow 0 0 0 0 0.

(** The values of one request. *)
Definition request_row (status : Z) (body : string) : counts_row :=
  let '(inp, out, total) := extractUsage body in
  mkRow 1 (if 400 <=? status then 1 else 0) inp out total.

(** [INSERT ... ON CONFLICT DO UPDATE] on each table. *)
Definition upsert_model (model : string) (r : counts_row) (now status : Z) (db : usageDB) : usageDB :=
  let c := match model_usage db !! model with Some old => add_row (mr_counts old) r | None => r end in
  mkDB (<[model := mkModelRow c now status]> (model_usage db)) (daily_usage db).

Definition upsert_daily (k : daily_key) (r : counts_row) (db : usageDB) : usageDB :=
  let c := match daily_usage db !! k with Some old => add_row old r | None => r end in
  mkDB (model_usage db) (<[k := c]> (daily_usage db)).

(** Which calls of the transaction succeed. *)
Record tx_outcome := mkOutcome { begin_ok : bool; model_ok : bool; daily_ok : bool; commit_ok : bool }.

(** [recordAt]: the statements work on the transaction's own view; the
    deferred [Rollback] discards it unless [Commit] succeeded. *)
Definition recordAt (now : Z) (client model : string) (status : Z) (body : string) (o : tx_outcome)
    (db : usageDB) : usageDB :=
  let r := request_row status body in
  if negb (begin_ok o) then db
  else
    let tx := upsert_model model r now status db in
    if negb (model_ok o) then db
    else
      let tx := upsert_daily (DateOnly now, client, model) r tx in
      if negb (daily_ok o) then db
      else if commit_ok o then tx else db.

(** ** Reports *)
Record Usage := mkUsage {
  Requests : Z; Errors : Z; InputTokens : Z; OutputTokens : Z; TotalTokens : Z;
  LastRequestAt : Z; LastUpstreamCode : Z
}.

Definition usage_of_row (r : model_row) : Usage :=
  let c := mr_counts r in
  mkUsage (rw_requests c) (rw_errors c) (rw_input c) (rw_output c) (rw_total c)
    (last_request_at r) (last_upstream_status r).

(** [snapshot]; a failed query yields the empty report. *)
Definition snapshot (query_ok : bool) (db : usageDB) : gmap string Usage :=
  if query_ok then usage_of_row <$> model_usage db else ∅.

Record PeriodUsage := mkPeriodUsage { pu_Period : string; pu_Client : string; pu_Model : string; pu_counts : counts_row }.

(** The expression the rows are grouped by. *)
Definition periodExpression (period : string) : option (string → string) :=
  if decide (period = "day") then Some (λ day, day)
  else if decide (period = "month") then Some (string_take 7)
  else None.

(** [GROUP BY] with the five sums. *)
Definition group_rows (expr : string → string) (rows : list (daily_key * counts_row)) : gmap daily_key counts_row :=
  foldr (λ kr m,
    let '((day, client, model), r) := kr in
    let k := (expr day, client, model) in
    <[k := add_row r (default zero_row (m !! k))]> m) ∅ rows.

(** [ORDER BY period, client, model]. *)
Definition key_le (a b : daily_key) : Prop :=
  let '(p1, c1, m1) := a in let '(p2, c2, m2) := b in
  if decide (p1 = p2) then if decide (c1 = c2) then String.le m1 m2 else String.le c1 c2
  else String.le p1 p2.

#[export] Instance key_le_dec a b : Decision (key_le a b).
Proof. destruct a as [[p1 c1] m1], b as [[p2 c2] m2]. unfold key_le. repeat case_decide; apply _. Defined.

Definition entry_le (a b : daily_key * counts_row) : Prop := key_le a.1 b.1.
#[export] Instance entry_le_dec a b : Decision (entry_le a b).
Proof. apply _. Defined.

(** [periodSnapshot]: [None] for an unsupported period or a failed query. *)
Definition periodSnapshot (query_ok : bool) (period client : string) (db : usageDB) : option (list PeriodUsage) :=
  expr ← periodExpression period;
  if negb query_ok then None
  else
    let rows := filter (λ kr : daily_key * counts_row, client = "" ∨ kr.1.1.2 = client) (map_to_list (daily_usage db)) in
    Some ((λ kr, mkPeriodUsage kr.1.1.1 kr.1.1.2 kr.1.2 kr.2)
            <$> merge_sort entry_le (map_to_list (group_rows expr rows))).

(** ** Sums of rows *)

#[export] Instance add_row_comm : Comm (=) add_row.
Proof. intros [] []. unfold add_row. simpl. f_equal; lia. Qed.

#[export] Instance add_row_assoc : Assoc (=) add_row.
Proof. intros [] [] []. unfold add_row. simpl. f_equal; lia. Qed.

#[export] Instance add_row_zero_l : LeftId (=) zero_row add_row.
Proof. by intros []. Qed.

#[export] Instance add_row_zero_r : RightId (=) zero_row add_row.
Proof. intros []. unfold add_row. simpl. f_equal; lia. Qed.

Definition sum_rows (l : list counts_row) : counts_row := foldr add_row zero_row l.

Lemma sum_rows_app l1 l2 : sum_rows (l1 ++ l2) = add_row (sum_rows l1) (sum_rows l2).
Proof.
  induction l1 as [|r l1 IH]; [symmetry; apply add_row_zero_l|].
  change (add_row r (sum_rows (l1 ++ l2)) = add_row (add_row r (sum_rows l1)) (sum_rows l2)).
  by rewrite IH, (assoc_L add_row).
Qed.

#[export] Instance sum_rows_perm : Proper ((≡ₚ) ==> (=)) sum_rows.
Proof.
  induction 1 as [|r l1 l2 _ IH|r1 r2 l|l1 l2 l3 _ IH1 _ IH2]; [done| | |congruence].
  - change (add_row r (sum_rows l1) = add_row r (sum_rows l2)). by rewrite IH.
  - change (add_row r2 (add_row r1 (sum_rows l)) = add_row r1 (add_row r2 (sum_rows l))).
    by rewrite !(assoc_L add_row), (comm_L add_row r2).
Qed.

(** The rows of the daily table whose key satisfies [P], added up. *)
Definition daily_sum (P : daily_key → bool) (m : gmap daily_key counts_row) : counts_row :=
  sum_rows ((λ kr, if P kr.1 then kr.2 else zero_row) <$> map_to_list m).

(** Equations between sums of rows. *)
Ltac rows :=
  repeat match goal with
  | |- context [daily_sum ?P ?m] => generalize (daily_sum P m); intros ?
  end;
  repeat match goal with r : counts_row |- _ => destruct r end;
  unfold add_row; simpl; f_equal; lia.

Lemma daily_sum_empty P : daily_sum P ∅ = zero_row.
Proof. unfold daily_sum. by rewrite map_to_list_empty. Qed.

Lemma daily_sum_insert_new P m k r :
  m !! k = None → daily_sum P (<[k := r]> m) = add_row (if P k then r else zero_row) (daily_sum P m).
Proof. intros Hk. unfold daily_sum. by rewrite map_to_list_insert. Qed.

(** Adding to a row adds to the sums over it. *)
Lemma daily_sum_upsert P m k r :
  daily_sum P (<[k := match m !! k with Some old => add_row old r | None => r end]> m)
  = add_row (daily_sum P m) (if P k then r else zero_row).
Proof.
  destruct (m !! k) as [old|] eqn:E.
  - assert (Hm : daily_sum P m = add_row (if P k then old else zero_row) (daily_sum P (delete k m))).
    { rewrite <- (insert_delete_id m k old E) at 1. apply daily_sum_insert_new, lookup_delete_eq. }
    rewrite <- insert_delete_eq, daily_sum_insert_new, Hm by apply lookup_delete_eq.
    destruct (P k); rows.
  - rewrite daily_sum_insert_new by done. apply (comm_L add_row).
Qed.

(** ** Accounting *)

(** A call of [recordAt] with what the database answered. *)
Record usage_event := mkEvent {
  ev_now : Z; ev_client : string; ev_model : string; ev_status : Z; ev_body : string; ev_outcome : tx_outcome
}.

Definition record_event (db : usageDB) (e : usage_event) : usageDB :=
  recordAt (ev_now e) (ev_client e) (ev_model e) (ev_status e) (ev_body e) (ev_outcome e) db.

Definition run_events (events : list usage_event) : usageDB := foldl record_event emptyDB events.

Definition committed (o : tx_outcome) : bool := begin_ok o && model_ok o && daily_ok o && commit_ok o.

(** The counters of a cumulative row, zero when the model has none. *)
Definition model_counts (db : usageDB) (model : string) : counts_row :=
  match model_usage db !! model with Some r => mr_counts r | None => zero_row end.

Definition daily_counts (db : usageDB) (k : daily_key) : counts_row := map_get zero_row (daily_usage db) k.

Definition event_key (e : usage_event) : daily_key := (DateOnly (ev_now e), ev_client e, ev_model e).
Definition event_row (e : usage_event) : counts_row := request_row (ev_status e) (ev_body e).

Lemma recordAt_committed now client model status body o db :
  recordAt now client model status body o db
  = if committed o
    then upsert_daily (DateOnly now, client, model) (request_row status body)
           (upsert_model model (request_row status body) now status db)
    else db.
Proof. destruct o as [[][][][]]; done. Qed.

Lemma upsert_model_counts model r now status db model' :
  model_counts (upsert_model model r now status db) model'
  = add_row (model_counts db model') (if decide (model' = model) then r else zero_row).
Proof.
  unfold model_counts, upsert_model. simpl. destruct (decide (model' = model)) as [->|Hne].
  - rewrite lookup_insert_eq. simpl. destruct (model_usage db !! model); [done|]. by rewrite (left_id_L zero_row add_row).
  - rewrite lookup_insert_ne by done. by rewrite (right_id_L zero_row add_row).
Qed.

Lemma upsert_daily_counts k r db k' :
  daily_counts (upsert_daily k r db) k'
  = add_row (daily_counts db k') (if decide (k' = k) then r else zero_row).
Proof.
  unfold daily_counts, upsert_daily, map_get. simpl. destruct (decide (k' = k)) as [->|Hne].
  - rewrite lookup_insert_eq. simpl. destruct (daily_usage db !! k); [done|]. by rewrite (left_id_L zero_row add_row).
  - rewrite lookup_insert_ne by done. by rewrite (right_id_L zero_row add_row).
Qed.

(** The committed requests that satisfy [P], added up. *)
Definition history_sum (P : usage_event → bool) (events : list usage_event) : counts_row :=
  sum_rows ((λ e, if committed (ev_outcome e) && P e then event_row e else zero_row) <$> events).

Lemma history_sum_snoc P events e :
  history_sum P (events ++ [e])
  = add_row (history_sum P events) (if committed (ev_outcome e) && P e then event_row e else zero_row).
Proof.
  unfold history_sum. rewrite fmap_app, sum_rows_app. simpl. f_equal. apply (right_id_L zero_row add_row).
Qed.

Lemma run_events_snoc events e : run_events (events ++ [e]) = record_event (run_events events) e.
Proof. unfold run_events. by rewrite foldl_app. Qed.

(** Grouping adds up the rows of each group. *)
Lemma group_rows_lookup expr rows k :
  map_get zero_row (group_rows expr rows) k
  = sum_rows ((λ kr : daily_key * counts_row,
      if decide ((expr kr.1.1.1, kr.1.1.2, kr.1.2) = k) then kr.2 else zero_row) <$> rows) ∧
  (is_Some (group_rows expr rows !! k) ↔ ∃ kr, kr ∈ rows ∧ (expr kr.1.1.1, kr.1.1.2, kr.1.2) = k).
Proof.
  induction rows as [|[[[day client] model] r] rows [IHs IHk]].
  - split; [done|]. split; [|set_solver]. cbn [group_rows foldr]. by intros [? H%lookup_empty_Some].
  - cbn [group_rows foldr]. fold (group_rows expr rows). rewrite fmap_cons. cbn [fst snd].
    cbn [sum_rows foldr]. fold (sum_rows ((λ kr : daily_key * counts_row,
      if decide ((expr kr.1.1.1, kr.1.1.2, kr.1.2) = k) then kr.2 else zero_row) <$> rows)). rewrite <- IHs.
    unfold map_get. destruct (decide ((expr day, client, model) = k)) as [Hk|Hne].
    + rewrite Hk, lookup_insert_eq. split; [done|]. split; [|eauto]. intros _.
      exists ((day, client, model), r). simpl. split; [set_solver|done].
    + rewrite lookup_insert_ne by done. split; [symmetry; apply (left_id_L zero_row add_row)|].
      rewrite IHk. split; [set_solver|]. intros (kr & [->|Hin]%elem_of_cons & Hkr); [done|eauto].
Qed.

(** *** The order of the report *)

#[export] Instance key_le_total : Total key_le.
Proof.
  intros [[p1 c1] m1] [[p2 c2] m2]. unfold key_le.
  repeat case_decide; subst; try done; apply (total String.le).
Qed.

#[export] Instance key_le_trans : Transitive key_le.
Proof.
  intros [[p1 c1] m1] [[p2 c2] m2] [[p3 c3] m3]. unfold key_le.
  assert (Hanti : ∀ a b : string, String.le a b → String.le b a → a = b) by (intros; by apply (anti_symm String.le)).
  repeat case_decide; subst; try done; intros Ha Hb; try (by etransitivity);
    try match goal with H : ?a ≠ ?b |- _ => exfalso; by apply H, Hanti end; done.
Qed.

#[export] Instance entry_le_total : Total entry_le.
Proof. intros a b. apply (total key_le). Qed.

#[export] Instance entry_le_trans : Transitive entry_le.
Proof. intros a b c. apply key_le_trans. Qed.

(** ** Ranges *)
Definition in_uint64 (z : Z) : Prop := 0 ≤ z < 2 ^ 64.

Definition fields_ok (f : usageFields) : Prop :=
  in_uint64 (PromptTokens f) ∧ in_uint64 (CompletionTokens f) ∧ in_uint64 (f_InputTokens f) ∧
  in_uint64 (f_OutputTokens f) ∧ in_uint64 (f_TotalTokens f).

Lemma dec_value_nonneg acc s : 0 ≤ acc → 0 ≤ dec_value acc s.
Proof.
  revert acc. induction s as [|c s IH]; intros acc Ha; simpl; [done|]. apply IH.
  destruct (dec_digit c) as [d|] eqn:E; simpl; [|lia].
  apply dec_digit_range in E. lia.
Qed.

Lemma parse_uint64_range s v : parse_uint64 s = Some v → in_uint64 v.
Proof.
  unfold parse_uint64. destruct (lex_digits s) as [d rest]. case_decide; [done|].
  pose proof (dec_value_nonneg 0 d ltac:(lia)). destruct (Z.ltb_spec (dec_value 0 d) (2 ^ 64)); [|done].
  intros [= <-]. by split.
Qed.

Lemma set_field_ok name v f : in_uint64 v → fields_ok f → fields_ok (set_field name v f).
Proof. unfold fields_ok, set_field. intros ? (? & ? & ? & ? & ?). repeat case_decide; by split_and!. Qed.

Lemma decode_fields_ok ms f f' : fields_ok f → decode_fields ms f = Some f' → fields_ok f'.
Proof.
  revert f. induction ms as [|[[key r] v] ms IH]; intros f Hf; simpl; [by intros [= <-]|].
  destruct (match_field usage_names key) as [name|]; [|by apply IH].
  destruct v; try done; [by apply IH|]. destruct (parse_uint64 _) as [n|] eqn:E; [|done]. simpl.
  apply IH. apply set_field_ok; [by eapply parse_uint64_range|done].
Qed.

Lemma decode_usage_ok best data : fields_ok best → fields_ok (decode_usage best data).
Proof.
  intros Hb. unfold decode_usage. destruct (parse_json data) as [[]|]; try done.
  destruct (raw_usage _ _); [|done]. case_decide; [done|]. destruct (parse_json _) as [[]|]; try done.
  destruct (decode_fields _ best) eqn:E; [|done]. by eapply decode_fields_ok.
Qed.

Lemma decode_lines_ok ls best : fields_ok best → fields_ok (foldl decode_line best ls).
Proof.
  revert best. induction ls as [|l ls IH]; intros best Hb; [done|]. apply IH.
  unfold decode_line. cbv zeta. case_if; [by apply decode_usage_ok|done].
Qed.

Lemma zero_fields_ok : fields_ok zero_fields.
Proof. unfold fields_ok, in_uint64. simpl. lia. Qed.

Lemma extract_fields_ok body :
  fields_ok (foldl decode_line (decode_usage zero_fields body) (split body "010"%char)).
Proof. apply decode_lines_ok, decode_usage_ok, zero_fields_ok. Qed.

Lemma foldl_ignored ls best :
  Forall (λ l, ∀ b, decode_line b l = b) ls → foldl decode_line best ls = best.
Proof. induction 1 as [|l ls Hl _ IH]; [done|]. simpl. by rewrite Hl. Qed.

Lemma if_decide_bool {A} (P Q : Prop) `{Decision P, Decision Q} (a b : A) :
  (P ↔ Q) → (if decide P then a else b) = (if bool_decide Q then a else b).
Proof. intros HPQ. rewrite decide_bool_decide. by rewrite (bool_decide_ext P Q HPQ). Qed.

(** ** Properties *)

(** One call of [recordAt] is all or nothing: unless every call of the
    transaction succeeds neither table changes, and otherwise exactly the
    model's cumulative row and the row of its UTC day, client and model grow by
    the request (one request, one error from status 400 on, its tokens); every
    other row keeps its counts. *)
Theorem record_atomic now client model status body o db :
  (committed o = false → recordAt now client model status body o db = db) ∧
  (committed o = true → ∀ model' k,
     let db' := recordAt now client model status body o db in
     model_counts db' model'
     = add_row (model_counts db model') (if decide (model' = model) then request_row status body else zero_row) ∧
     daily_counts db' k
     = add_row (daily_counts db k)
         (if decide (k = (DateOnly now, client, model)) then request_row status body else zero_row)).
Proof.
  rewrite recordAt_committed. split; intros ->; [done|]. intros model' k. cbv zeta. split.
  - change (model_counts (upsert_daily ?a ?b ?c) model') with (model_counts c model'). apply upsert_model_counts.
  - rewrite upsert_daily_counts. done.
Qed.

Definition all_ok : tx_outcome := mkOutcome true true true true.

Lemma record_atomic_witness :
  model_counts (recordAt 0 "key:00" "m" 503 "" all_ok emptyDB) "m" = mkRow 1 1 0 0 0 ∧
  recordAt 0 "key:00" "m" 200 "" (mkOutcome true true false true) emptyDB = emptyDB.
Proof.
  split.
  - rewrite (proj1 (proj2 (record_atomic 0 "key:00" "m" 503 "" all_ok emptyDB) eq_refl "m" ("", "", ""))).
    reflexivity.
  - exact (proj1 (record_atomic 0 "key:00" "m" 200 "" (mkOutcome true true false true) emptyDB) eq_refl).
Defined.

(** C10: After any history of requests, whatever calls failed, both tables are
    the same accounting: a model's cumulative row adds up its committed
    requests, a daily row those of its day, client and model, and the
    cumulative row is the sum of the model's daily rows. *)
Theorem usage_accounting events model k :
  let db := run_events events in
  model_counts db model = history_sum (λ e, bool_decide (ev_model e = model)) events ∧
  daily_counts db k = history_sum (λ e, bool_decide (event_key e = k)) events ∧
  model_counts db model = daily_sum (λ k, bool_decide (k.2 = model)) (daily_usage db).
Proof.
  cbv zeta. induction events as [|e events (IH1 & IH2 & IH3)] using rev_ind.
  { split_and!; [done..|]. by rewrite daily_sum_empty. }
  rewrite run_events_snoc, !history_sum_snoc. unfold record_event. rewrite recordAt_committed.
  destruct (committed (ev_outcome e)); cbn [andb].
  - change (model_counts (upsert_daily ?a ?b ?c) model) with (model_counts c model).
    rewrite upsert_model_counts, upsert_daily_counts. fold (event_row e). split_and!.
    + rewrite IH1. f_equal. by apply if_decide_bool.
    + change (daily_counts (upsert_model ?a ?b ?c ?d ?e0) k) with (daily_counts e0 k). rewrite IH2.
      f_equal. by apply if_decide_bool.
    + unfold upsert_daily, upsert_model. simpl. rewrite daily_sum_upsert, <- IH3. simpl. f_equal.
      rewrite decide_bool_decide. by rewrite (bool_decide_ext (model = _) (ev_model e = model)) by naive_solver.
  - rewrite !(right_id_L zero_row add_row). done.
Qed.

(** *** Periods *)

(** The period of a clock reading, by its calendar date: the day, or the month
    of that day. *)
Definition period_label (period : string) (t : Z) : string :=
  let '(y, m, d) := civil_of_days (t / day_ns) in
  let month := two_digits (y / 100) +:+ two_digits (y mod 100) +:+ "-" +:+ two_digits m in
  if decide (period = "day") then month +:+ "-" +:+ two_digits d else month.

Lemma periodExpression_label period :
  match periodExpression period with
  | Some expr => (period = "day" ∨ period = "month") ∧ ∀ t, expr (DateOnly t) = period_label period t
  | None => period ≠ "day" ∧ period ≠ "month"
  end.
Proof.
  unfold periodExpression, period_label, DateOnly. case_decide as Hd; [|case_decide as Hm; [|done]].
  - split; [by left|]. intros t. destruct (civil_of_days _) as [[y m] d]. by rewrite <- !string_app_assoc.
  - split; [by right|]. intros t. by destruct (civil_of_days _) as [[y m] d].
Qed.

(** The daily rows are those of the committed requests, and a sum over rows is
    one over requests. *)
Lemma run_events_rows events k :
  is_Some (daily_usage (run_events events) !! k) ↔ ∃ e, e ∈ events ∧ committed (ev_outcome e) = true ∧ event_key e = k.
Proof.
  induction events as [|e events IH] using rev_ind.
  { split; [by intros [? ?]|]. intros (e & He & _). by apply elem_of_nil in He. }
  rewrite run_events_snoc. unfold record_event. rewrite recordAt_committed. setoid_rewrite elem_of_app.
  setoid_rewrite list_elem_of_singleton. destruct (committed (ev_outcome e)) eqn:Ec.
  - unfold upsert_daily. cbn [daily_usage]. change (daily_usage (upsert_model ?a ?b ?c ?d ?db)) with (daily_usage db).
    fold (event_key e). rewrite lookup_insert_is_Some, IH. split.
    + intros [<-|[_ (e' & ? & ?)]]; naive_solver.
    + intros (e' & [He'| ->] & Hc & Hk); [|by left]. destruct (decide (event_key e = k)); [by left|right]. naive_solver.
  - rewrite IH. split; [naive_solver|]. intros (e' & [He'| ->] & Hc & Hk); [by exists e'|congruence].
Qed.

Lemma run_events_sum P events :
  daily_sum P (daily_usage (run_events events)) = history_sum (λ e, P (event_key e)) events.
Proof.
  induction events as [|e events IH] using rev_ind; [apply daily_sum_empty|].
  rewrite run_events_snoc, history_sum_snoc. unfold record_event. rewrite recordAt_committed.
  destruct (committed (ev_outcome e)); cbn [andb]; [|by rewrite (right_id_L zero_row add_row)].
  unfold upsert_daily. cbn [daily_usage]. change (daily_usage (upsert_model ?a ?b ?c ?d ?db)) with (daily_usage db).
  by rewrite daily_sum_upsert, IH.
Qed.

(** Filtering rows and adding up a group of them. *)
Lemma filtered_sum (Q : daily_key → Prop) `{!∀ k, Decision (Q k)} (g : daily_key → daily_key) k m :
  sum_rows ((λ kr : daily_key * counts_row, if decide (g kr.1 = k) then kr.2 else zero_row)
    <$> filter (λ kr : daily_key * counts_row, Q kr.1) (map_to_list m))
  = daily_sum (λ k', bool_decide (Q k') && bool_decide (g k' = k)) m.
Proof.
  unfold daily_sum. induction (map_to_list m) as [|[k' r] l IH]; [done|]. rewrite fmap_cons. cbn [fst snd].
  change (sum_rows (?x :: ?l)) with (add_row x (sum_rows l)). rewrite <- IH. destruct (decide (Q k')) as [Hq|Hq].
  - rewrite filter_cons_True, fmap_cons by done. change (sum_rows (?x :: ?l)) with (add_row x (sum_rows l)). cbn [fst snd].
    rewrite bool_decide_eq_true_2, decide_bool_decide by done. done.
  - rewrite filter_cons_False by done. rewrite bool_decide_eq_false_2 by done. cbn [andb].
    by rewrite (left_id_L zero_row add_row).
Qed.

(** C16: After any history of requests, a period report, by day or by month, has
    exactly one entry for each period, client and model with committed
    requests, in the order period, client, model; the period of a request is
    the calendar day or month of its clock reading in UTC; an entry's counts
    add up the committed requests of its period, client and model; a client
    filter selects the requests of that client; and any other period is
    refused. *)
Theorem period_report_spec events period client :
  let selected e := committed (ev_outcome e) && bool_decide (client = "" ∨ ev_client e = client) in
  let label e := (period_label period (ev_now e), ev_client e, ev_model e) in
  match periodSnapshot true period client (run_events events) with
  | None => period ≠ "day" ∧ period ≠ "month"
  | Some l =>
      let keys := (λ u, (pu_Period u, pu_Client u, pu_Model u)) <$> l in
      (period = "day" ∨ period = "month") ∧ StronglySorted key_le keys ∧ NoDup keys ∧
      (∀ k, k ∈ keys ↔ ∃ e, e ∈ events ∧ selected e = true ∧ label e = k) ∧
      (∀ u, u ∈ l →
         pu_counts u = sum_rows ((λ e, if selected e && bool_decide (label e = (pu_Period u, pu_Client u, pu_Model u))
                                       then event_row e else zero_row) <$> events))
  end.
Proof.
  cbv zeta. unfold periodSnapshot. pose proof (periodExpression_label period) as Hexpr.
  destruct (periodExpression period) as [expr|]; cbn [mbind option_bind negb]; [|done]. destruct Hexpr as [Hper Hexpr].
  set (db := run_events events). set (rows := filter _ _).
  set (sorted := merge_sort entry_le (map_to_list (group_rows expr rows))).
  assert (Hp : sorted ≡ₚ map_to_list (group_rows expr rows)) by apply merge_sort_Permutation.
  assert (Hkeys : (λ u, (pu_Period u, pu_Client u, pu_Model u)) <$>
      ((λ kr : daily_key * counts_row, mkPeriodUsage kr.1.1.1 kr.1.1.2 kr.1.2 kr.2) <$> sorted) = sorted.*1).
  { rewrite <- list_fmap_compose. apply list_fmap_ext. intros i [[[p c] m] r] _. done. }
  rewrite Hkeys. split; [done|]. split_and!.
  - assert (Hs : StronglySorted entry_le sorted) by apply (StronglySorted_merge_sort entry_le).
    clear -Hs. induction Hs as [|x s _ IH Hf]; [constructor|]. rewrite fmap_cons. constructor; [done|].
    by apply Forall_fmap.
  - rewrite Hp. apply NoDup_fst_map_to_list.
  - intros k. rewrite Hp. transitivity (is_Some (group_rows expr rows !! k)).
    { rewrite list_elem_of_fmap. split.
      - intros ([k' v] & -> & Hin%elem_of_map_to_list). eauto.
      - intros [v Hv]. exists (k, v). split; [done|]. by apply elem_of_map_to_list. }
    rewrite (proj2 (group_rows_lookup expr rows k)). split.
    + intros ([[[day c] m] r] & [Hc Hin%elem_of_map_to_list]%list_elem_of_filter & <-). cbn [fst snd] in *.
      destruct (proj1 (run_events_rows events (day, c, m)) (mk_is_Some _ _ Hin)) as (e & He & Hcom & [= <- <- <-]).
      exists e. rewrite Hcom, bool_decide_eq_true_2, Hexpr by done. done.
    + intros (e & He & [Hcom Hc]%andb_true_iff & <-). bool_to_prop.
      destruct (proj2 (run_events_rows events (event_key e))) as [r Hr]; [by exists e|].
      exists (event_key e, r). cbn [fst snd event_key]. rewrite Hexpr. split; [|done].
      apply list_elem_of_filter. split; [done|]. by apply elem_of_map_to_list.
  - intros u (([[p c] m] & r) & -> & Hin)%list_elem_of_fmap. rewrite Hp, elem_of_map_to_list in Hin. cbn [pu_counts pu_Period pu_Client pu_Model fst snd].
    assert (Hr : r = map_get zero_row (group_rows expr rows) (p, c, m)) by (unfold map_get; by rewrite Hin).
    rewrite Hr, (proj1 (group_rows_lookup expr rows (p, c, m))).
    etransitivity; [exact (filtered_sum (λ k, client = "" ∨ k.1.2 = client) (λ k, (expr k.1.1, k.1.2, k.2)) (p, c, m) (daily_usage db))|].
    unfold db. rewrite run_events_sum. unfold history_sum. f_equal. apply list_fmap_ext. intros i e _.
    cbn [event_key fst snd]. by rewrite Hexpr, andb_assoc.
Qed.

Definition example_events : list usage_event :=
  [mkEvent 0 "key:00" "m" 200 "" all_ok; mkEvent (day_ns * 3) "key:00" "m" 500 "" all_ok].

Example month_report :
  periodSnapshot true "month" "" (run_events example_events) = Some [mkPeriodUsage "1970-01" "key:00" "m" (mkRow 2 1 0 0 0)].
Proof. vm_compute. reflexivity. Qed.

(** Whatever a provider sends, the token counts are unsigned 64-bit
    numbers, and the total is the reported one or the sum modulo [2^64].
    Events that carry no readable usage object change nothing: a body in which
    no line and not the whole is one yields zero. *)
Theorem extract_usage_range body :
  let '(inp, out, total) := extractUsage body in
  in_uint64 inp ∧ in_uint64 out ∧ in_uint64 total ∧
  ((∀ best, decode_usage best body = best) → Forall (λ l, ∀ best, decode_line best l = best) (split body "010"%char) →
   inp = 0 ∧ out = 0 ∧ total = 0).
Proof.
  unfold extractUsage.
  destruct (extract_fields_ok body) as (Hp & Hc & Hi & Ho & Ht).
  set (f := foldl decode_line (decode_usage zero_fields body) (split body "010"%char)) in *.
  unfold usage_totals. split_and!; try (case_if; done).
  - case_if; [apply uint64_range|done].
  - intros Hb Hl. assert (f = zero_fields) as ->; [|done].
    unfold f. rewrite Hb. by apply foldl_ignored.
Qed.

Definition q (s : string) : string := String quote s +:+ String quote "".
Definition newline : string := String "010" "".

(** A chat stream whose last event has the usage, and a plain response. *)
Example usage_of_chat_stream :
  extractUsage ("data: {" +:+ q "choices" +:+ ":[]}" +:+ newline +:+ newline +:+ "data: {" +:+ q "usage" +:+ ": {"
    +:+ q "prompt_tokens" +:+ ": 7, " +:+ q "completion_tokens" +:+ ": 5, " +:+ q "total_tokens" +:+ ": 12}}"
    +:+ newline +:+ newline +:+ "data: [DONE]" +:+ newline) = (7, 5, 12).
Proof. vm_compute. reflexivity. Qed.

Example usage_of_response :
  extractUsage ("{" +:+ q "Usage" +:+ ":{" +:+ q "input_tokens" +:+ ":18446744073709551615," +:+ q "output_tokens"
    +:+ ":2}}") = (2 ^ 64 - 1, 2, 1).
Proof. vm_compute. reflexivity. Qed.

(** The usage of a streamed [/v1/responses] answer sits inside the final
    event's [response] object, where it is not looked for. *)
Example usage_of_responses_stream :
  extractUsage ("data: {" +:+ q "type" +:+ ":" +:+ q "response.completed" +:+ "," +:+ q "response" +:+ ":{"
    +:+ q "usage" +:+ ":{" +:+ q "input_tokens" +:+ ":3," +:+ q "output_tokens" +:+ ":4}}}") = (0, 0, 0).
Proof. vm_compute. reflexivity. Qed.
