(* ===== verification/Database.v ===== *)
(** * The handle of the usage database ([newUsageStore] and [close] in [usage.go])

    Opening the database is a sequence of calls into [database/sql]; which of
    them succeed is the environment's.  What the tables hold is the subject of
    [Usage]. *)

From Stdlib Require Import ZArith Lia.
From stdpp Require Import pretty.
From S2P Require Import Prelude GoStrings.

Local Open Scope Z_scope.

(** ** Statements *)

(** The statements of the schema; a column is its name and its type with the
    constraints that follow it. *)
Inductive statement :=
  | Pragma (name value : string)
  | CreateTable (table : string) (columns : list (string * string)) (primary_key : list string)
  | CreateIndex (index table : string) (columns : list string).

#[export] Instance statement_eq_dec : EqDecision statement.
Proof. solve_decision. Defined.

Definition schema : list statement :=
  [Pragma "journal_mode" "WAL";
   Pragma "busy_timeout" "5000";
   CreateTable "model_usage"
     [("model", "TEXT"); ("requests", "INTEGER NOT NULL"); ("errors", "INTEGER NOT NULL");
      ("input_tokens", "INTEGER NOT NULL"); ("output_tokens", "INTEGER NOT NULL");
      ("total_tokens", "INTEGER NOT NULL"); ("last_request_at", "INTEGER NOT NULL");
      ("last_upstream_status", "INTEGER NOT NULL")]
     ["model"];
   CreateTable "daily_usage"
     [("day", "TEXT NOT NULL"); ("client", "TEXT NOT NULL"); ("model", "TEXT NOT NULL");
      ("requests", "INTEGER NOT NULL"); ("errors", "INTEGER NOT NULL");
      ("input_tokens", "INTEGER NOT NULL"); ("output_tokens", "INTEGER NOT NULL");
      ("total_tokens", "INTEGER NOT NULL")]
     ["day"; "client"; "model"];
   CreateIndex "daily_usage_client_day" "daily_usage" ["client"; "day"]].

(** ** Calls *)

Inductive db_call :=
  | SqlOpen (path : string)
  | SetMaxOpenConns (n : Z)
  | DBExec (st : statement)
  | DBClose.

#[export] Instance db_call_eq_dec : EqDecision db_call.
Proof. solve_decision. Defined.

(** Which calls succeed. *)
Record db_env := mkDBEnv {
  open_ok : string → bool;
  exec_ok : statement → bool
}.

(** The path of an in-memory database: [n] is a number of its own. *)
Definition memory_path (n : Z) : string :=
  "file:shepard-memory-" +:+ pretty (Z.to_N n) +:+ "?mode=memory&cache=shared".

(** The loop over the statements; a failure closes the handle. *)
Fixpoint exec_all (env : db_env) (sts : list statement) : list db_call * bool :=
  match sts with
  | [] => ([], true)
  | st :: rest =>
      if exec_ok env st then let '(calls, ok) := exec_all env rest in (DBExec st :: calls, ok)
      else ([DBExec st; DBClose], false)
  end.

(** [newUsageStore]: the counter [memoryDBCounter] after the call, the calls
    made and whether there is a store. *)
Definition newUsageStore (env : db_env) (memoryDBCounter : Z) (path : string) : Z * (list db_call * bool) :=
  let '(counter, path) :=
    if bool_decide (path = "") then let n := uint64 (memoryDBCounter + 1) in (n, memory_path n)
    else (memoryDBCounter, path) in
  (counter,
   if negb (open_ok env path) then ([SqlOpen path], false)
   else let '(calls, ok) := exec_all env schema in (SqlOpen path :: SetMaxOpenConns 1 :: calls, ok)).

(** [close] *)
Definition usageStore_close : list db_call := [DBClose].

(** ** What is open after a sequence of calls

    The handles opened and not closed; [SqlOpen] counts when it succeeds. *)
Definition handle_step (env : db_env) (n : Z) (c : db_call) : Z :=
  match c with
  | SqlOpen path => if open_ok env path then n + 1 else n
  | DBClose => n - 1
  | _ => n
  end.

Definition open_handles (env : db_env) (calls : list db_call) : Z := foldl (handle_step env) 0 calls.

Lemma open_handles_app env c1 c2 : open_handles env (c1 ++ c2) = foldl (handle_step env) (open_handles env c1) c2.
Proof. unfold open_handles. by rewrite foldl_app. Qed.

Lemma exec_all_handles env sts n :
  foldl (handle_step env) n (exec_all env sts).1 = if (exec_all env sts).2 then n else n - 1.
Proof.
  induction sts as [|st sts IH]; [done|]. cbn [exec_all]. destruct (exec_ok env st); [|done].
  destruct (exec_all env sts) as [calls ok]. exact IH.
Qed.

Lemma exec_all_ok env sts : (exec_all env sts).2 = true → (exec_all env sts).1 = DBExec <$> sts.
Proof.
  induction sts as [|st sts IH]; [done|]. cbn [exec_all]. destruct (exec_ok env st); [|done].
  destruct (exec_all env sts) as [calls ok]. cbn [fst snd] in *. intros Hok. by rewrite (IH Hok).
Qed.

(** The path that is opened. *)
Definition store_path (memoryDBCounter : Z) (path : string) : string :=
  if bool_decide (path = "") then memory_path (uint64 (memoryDBCounter + 1)) else path.

(** A store is a handle, a refusal leaves none. *)
Lemma newUsageStore_handles env counter path :
  open_handles env (newUsageStore env counter path).2.1 = if (newUsageStore env counter path).2.2 then 1 else 0.
Proof.
  unfold newUsageStore. case_bool_decide; cbv zeta; cbn [snd];
    (destruct (open_ok env _) eqn:Eo; cbn [negb]; [|unfold open_handles; cbn; by rewrite Eo]);
    pose proof (exec_all_handles env schema 1) as He; destruct (exec_all env schema) as [calls ok];
    unfold open_handles; cbn [foldl handle_step fst snd] in *; rewrite Eo; exact He.
Qed.

Lemma newUsageStore_ok env counter path :
  (newUsageStore env counter path).2.2 = true →
  (newUsageStore env counter path).2.1
  = SqlOpen (store_path counter path) :: SetMaxOpenConns 1 :: (DBExec <$> schema).
Proof.
  unfold newUsageStore, store_path. case_bool_decide; cbv zeta; cbn [snd];
    (destruct (open_ok env _); [|done]); cbn [negb]; pose proof (exec_all_ok env schema) as He;
    destruct (exec_all env schema) as [calls ok]; cbn [fst snd] in *; intros Hok; by rewrite He.
Qed.

(** Two stores in memory never share a database: the counter does not repeat
    before [2^64] of them. *)
Lemma memory_path_inj n m : 0 ≤ n → 0 ≤ m → memory_path n = memory_path m → n = m.
Proof.
  unfold memory_path. intros Hn Hm Hp. apply (inj (String.app _)) in Hp.
  apply string_app_inj_r, (inj pretty) in Hp. lia.
Qed.
