(* ===== verification/Urls.v ===== *)
(** * Provider URLs ([upstreamURL] in [gateway.go])

    [path.Clean] and [path.Join], and the URL of a request to a provider. *)

From Stdlib Require Import ZArith Lia Ascii.
From S2P Require Import Prelude GoStrings NetIP NetURL NetURLSpec.

Local Open Scope stdpp_scope.

(** ** [path.Clean] and [path.Join] *)

(** One segment; [stack] holds the kept segments, last first. *)
Definition clean_step (rooted : bool) (stack : list string) (seg : string) : list string :=
  if bool_decide (seg = "" ∨ seg = ".") then stack
  else if bool_decide (seg = "..") then
    match stack with
    | top :: rest => if bool_decide (top = "..") then ".." :: stack else rest
    | [] => if rooted then [] else [".."]
    end
  else seg :: stack.

Definition path_Clean (p : string) : string :=
  if bool_decide (p = "") then "."
  else
    let rooted := has_prefix p "/" in
    let body := join (reverse (foldl (clean_step rooted) [] (split p "/"%char))) "/" in
    if rooted then "/" +:+ body else if bool_decide (body = "") then "." else body.

Fixpoint drop_empty (elems : list string) : list string :=
  match elems with
  | [] => []
  | e :: rest => if bool_decide (e = "") then drop_empty rest else elems
  end.

Definition path_Join (elems : list string) : string :=
  match drop_empty elems with
  | [] => ""
  | es => path_Clean (join es "/")
  end.

(** ** Upstream URLs *)

(** The two assignments of [upstreamURL]. *)
Definition url_with (u : URL) (path query : string) : URL :=
  mkURL (url_Scheme u) (url_Opaque u) (url_User u) (url_Host u) path (url_RawPath u)
    (url_OmitHost u) (url_ForceQuery u) query (url_Fragment u) (url_RawFragment u).

(** [upstreamURL]: the error is that of parsing the base. *)
Definition upstreamURL (base incomingPath incomingQuery : string) : option string :=
  u ← url_Parse base;
  let rel := trim_prefix incomingPath "/v1/" in
  Some (url_String (url_with u (path_Join [trim_suffix (url_Path u) "/"; rel]) incomingQuery)).

Example upstream_url_examples :
  (upstreamURL "http://h/v1" "/v1/chat/completions" "",
   upstreamURL "https://u:p@h:8080/api/v1/" "/v1/responses" "a=b",
   upstreamURL "http://h" "/v1/models" "",
   upstreamURL "http://h/x/../y//z/.#f" "/v1/models" "")
  = (Some "http://h/v1/chat/completions", Some "https://u:p@h:8080/api/v1/responses?a=b", Some "http://h/models",
     Some "http://h/y/z/models#f").
Proof. vm_compute. reflexivity. Qed.

(** ** Cleaned paths *)

Lemma clean_step_no_dots stack seg :
  Forall (λ s, s ≠ "" ∧ s ≠ "." ∧ s ≠ "..") stack →
  Forall (λ s, s ≠ "" ∧ s ≠ "." ∧ s ≠ "..") (clean_step true stack seg).
Proof.
  intros Hs. unfold clean_step. case_bool_decide as H1; [done|]. case_bool_decide as H2.
  - destruct stack as [|top rest]; [done|]. apply Forall_cons in Hs as [Ht Hr].
    rewrite bool_decide_eq_false_2 by naive_solver. done.
  - constructor; [naive_solver|done].
Qed.

Lemma clean_fold_no_dots segs stack :
  Forall (λ s, s ≠ "" ∧ s ≠ "." ∧ s ≠ "..") stack →
  Forall (λ s, s ≠ "" ∧ s ≠ "." ∧ s ≠ "..") (foldl (clean_step true) stack segs).
Proof. revert stack. induction segs as [|s segs IH]; intros stack Hs; [done|]. by apply IH, clean_step_no_dots. Qed.

(** A rooted path is cleaned to a rooted path without dot segments. *)
Lemma path_Clean_rooted p :
  has_prefix p "/" = true →
  ∃ segs, path_Clean p = "/" +:+ join segs "/" ∧ Forall (λ s, s ≠ "" ∧ s ≠ "." ∧ s ≠ "..") segs.
Proof.
  intros Hp. unfold path_Clean. rewrite bool_decide_eq_false_2 by (by intros ->). rewrite Hp.
  eexists. split; [done|]. apply Forall_reverse. by apply clean_fold_no_dots.
Qed.

(** *** Segments *)

Definition kept (s : string) : Prop := s ≠ "" ∧ s ≠ "." ∧ s ≠ "..".
Definition no_slash (s : string) : Prop := contains s "/" = false.

Lemma clean_fold_kept segs stack :
  Forall kept segs → foldl (clean_step true) stack segs = reverse segs ++ stack.
Proof.
  intros Hs. revert stack. induction Hs as [|s segs (H1 & H2 & H3) Hs IH]; intros stack; [done|].
  cbn [foldl]. rewrite IH, reverse_cons, <- app_assoc. f_equal. unfold clean_step.
  rewrite bool_decide_eq_false_2 by (by intros [?|?]). by rewrite bool_decide_eq_false_2.
Qed.

Lemma clean_fold_incl (P : string → Prop) segs stack :
  Forall P segs → Forall P stack → Forall P (foldl (clean_step true) stack segs).
Proof.
  intros Hs. revert stack. induction Hs as [|s segs Hp Hs IH]; intros stack Hk; [done|]. cbn [foldl]. apply IH.
  unfold clean_step. case_bool_decide; [done|]. case_bool_decide; [subst s|by constructor].
  destruct Hk; [done|]. case_bool_decide; [|done]. constructor; [done|]. by constructor.
Qed.

Lemma clean_fold_empty_last segs stack :
  foldl (clean_step true) stack (segs ++ [""]) = foldl (clean_step true) stack segs.
Proof. rewrite foldl_app. done. Qed.

(** The cleaned segments of the path of a base URL. *)
Definition segments (p : string) : list string := reverse (foldl (clean_step true) [] (split p "/"%char)).

Lemma segments_kept p : Forall kept (segments p).
Proof. apply Forall_reverse. by apply clean_fold_no_dots. Qed.

Lemma segments_no_slash p : Forall no_slash (segments p).
Proof.
  apply Forall_reverse, clean_fold_incl; [|done]. apply Forall_forall. intros s Hs. by apply (split_no_sep p).
Qed.

(** A rooted path of such segments has just these. *)
Lemma segments_rooted segs :
  Forall kept segs → Forall no_slash segs → segments ("/" +:+ join segs "/") = segs.
Proof.
  intros Hk Hn. unfold segments. rewrite string_app_cons, string_app_nil_l, split_cons_eq. cbn [foldl].
  replace (clean_step true [] "") with (@nil string) by done.
  destruct segs as [|s segs]; [done|]. rewrite split_join by done.
  rewrite clean_fold_kept by done. by rewrite app_nil_r, reverse_involutive.
Qed.

Lemma segments_app p op :
  Forall kept (split op "/"%char) → segments (p +:+ "/" +:+ op) = segments p ++ split op "/"%char.
Proof.
  intros Hop. unfold segments. rewrite (string_app_cons "/"), string_app_nil_l, split_app, foldl_app.
  by rewrite clean_fold_kept, reverse_app, reverse_involutive.
Qed.

Lemma segments_trim p : segments (trim_suffix p "/") = segments p.
Proof.
  destruct (trim_slash p) as [H|H]; [by rewrite <- H|]. rewrite H at 2. unfold segments.
  change (trim_suffix p "/" +:+ "/") with (trim_suffix p "/" +:+ String "/"%char "").
  by rewrite split_app, clean_fold_empty_last.
Qed.

(** *** Joining the operation to the base *)

(** The operations of a provider that requests are sent to. *)
Definition operations : list string := ["chat/completions"; "responses"; "models"].

Lemma operations_kept op : op ∈ operations → Forall kept (split op "/"%char) ∧ Forall no_slash (split op "/"%char).
Proof.
  intros H. apply (bool_decide_unpack _). revert op H. apply Forall_forall. repeat constructor.
Qed.

(** The cleaned path of the base, and the operation below it. *)
Definition joined (p op : string) : string := join (segments p ++ split op "/"%char) "/".

Definition rooted_or_empty (p : string) : Prop := p = "" ∨ ∃ t, p = String "/" t.

Lemma trim_slash_rooted p : rooted_or_empty p → rooted_or_empty (trim_suffix p "/").
Proof.
  intros [->|[t ->]]; [by left|]. unfold trim_suffix. destruct (has_suffix _ _); [|right; by eexists].
  destruct (String.length (String "/" t) - String.length "/")%nat; [by left|right; by eexists].
Qed.

Lemma join_operation p op :
  rooted_or_empty p → op ∈ operations →
  path_Join [trim_suffix p "/"; op] = (if bool_decide (trim_suffix p "/" = "") then "" else "/") +:+ joined p op.
Proof.
  intros Hp Hop. destruct (operations_kept op Hop) as [Hk _]. unfold joined. rewrite <- (segments_trim p).
  case_bool_decide as Ht.
  - rewrite Ht. clear Hk. revert op Hop. apply Forall_forall. by repeat constructor.
  - unfold path_Join. cbn [drop_empty]. rewrite bool_decide_eq_false_2 by done.
    rewrite join_cons_cons. change (join [op] "/") with op.
    assert (Hroot : has_prefix (trim_suffix p "/" +:+ "/" +:+ op) "/" = true).
    { destruct (trim_slash_rooted p Hp) as [?|[t ->]]; [done|].
      apply has_prefix_spec. by exists (t +:+ "/" +:+ op). }
    unfold path_Clean. rewrite bool_decide_eq_false_2 by (intros He; by rewrite He in Hroot). rewrite Hroot.
    f_equal. f_equal. by apply (segments_app (trim_suffix p "/") op).
Qed.

(** *** What parsing yields *)

(** A URL with a host has a hierarchical path, and its raw path is another
    spelling of it. *)
Record hierarchical (u : URL) : Prop := {
  h_opaque : url_Opaque u = "";
  h_path : rooted_or_empty (url_Path u);
  h_raw : url_RawPath u = "" ∨ unescape (url_RawPath u) encodePath = Some (url_Path u);
  h_scheme : url_Scheme u ≠ "" → valid_scheme (url_Scheme u) = true;
  h_host : ∃ raw, parseHost raw = Some (url_Host u)
}.

Lemma parseAuthority_host raw user host : parseAuthority raw = Some (user, host) → ∃ h, parseHost h = Some host.
Proof.
  unfold parseAuthority. intros H. destruct (cut_last raw "@") as [[ui h]|].
  - exists h. destruct (parseHost h) as [host'|]; [|done]. cbn [mbind option_bind] in H. destruct (negb _); [done|].
    by destruct (cut ui ":") as [[n p]|]; simplify_option_eq.
  - exists raw. destruct (parseHost raw) as [host'|]; [|done]. by injection H as _ ->.
Qed.

Lemma set_escaped_raw p mode path raw :
  set_escaped p mode = Some (path, raw) → unescape p mode = Some path ∧ (raw = "" ∨ raw = p).
Proof.
  unfold set_escaped. destruct (unescape p mode) as [q|]; [|done]. cbn [mbind option_bind].
  case_bool_decide; intros [= <- <-]; auto.
Qed.

Lemma unescape_rooted p path : unescape (String "/" p) encodePath = Some path → ∃ t, path = String "/" t.
Proof.
  cbn [unescape]. rewrite (bool_decide_eq_false_2 (_ ∧ _)) by (by intros [? _]).
  rewrite (bool_decide_eq_false_2 (_ ∨ _)) by (by intros [?|?]). cbn [andb].
  destruct (unescape p encodePath) as [t|]; [|done]. intros [= <-]. by exists t.
Qed.

Lemma parse_url_host raw u : parse_url raw = Some u → url_Host u ≠ "" → hierarchical u.
Proof.
  unfold parse_url. destruct (has_ctl raw); [done|]. case_bool_decide; [by intros [= <-]|].
  destruct (getScheme raw) as [[scheme rest]|] eqn:Es; [|done]. cbn [mbind option_bind].
  destruct (_ && negb (bool_decide _)); [by intros [= <-]|]. destruct (_ && contains _ _); [done|].
  destruct (_ && has_prefix _ "//").
  - destruct (parseAuthority _) as [[user host]|] eqn:Ea; [|done]. cbn [mbind option_bind].
    set (p := match cut _ _ with Some _ => _ | None => _ end).
    destruct (set_escaped p encodePath) as [[path rp]|] eqn:E; [|done]. cbn [mbind option_bind]. intros [= <-] _.
    apply set_escaped_raw in E as [Hp Hr]. split; cbn.
    + done.
    + unfold p in Hp. destruct (cut _ _) as [[a b]|]; [right; by eapply unescape_rooted|left]. by injection Hp.
    + by destruct Hr as [->| ->]; [left|right].
    + intros Hne. apply (getScheme_valid raw scheme rest Es). by intros ->.
    + by eapply parseAuthority_host.
  - destruct (set_escaped _ encodePath) as [[path rp]|]; [|done]. by intros [= <-].
Qed.

Lemma url_Parse_host raw u : url_Parse raw = Some u → url_Host u ≠ "" → hierarchical u.
Proof.
  unfold url_Parse. destruct (parse_url _) as [v|] eqn:E; [|done]. cbn [mbind option_bind].
  case_bool_decide; [intros [= <-]; by apply (parse_url_host _ _ E)|].
  destruct (set_escaped _ _) as [[f rf]|]; [|done]. intros [= <-] Hh. by destruct (parse_url_host _ _ E Hh).
Qed.

(** *** Printing it again *)

(** Segments, each with its slash and escaped. *)
Definition slashed (l : list string) : string := foldr (λ s acc, "/" +:+ escape s encodePath +:+ acc) "" l.

Lemma escape_join l : l ≠ [] → escape ("/" +:+ join l "/") encodePath = slashed l.
Proof.
  rewrite escape_app. change (escape "/" encodePath) with "/".
  induction l as [|s [|s' l] IH]; intros Hne; [done| |].
  - cbn [join slashed foldr]. by rewrite string_app_nil_r.
  - rewrite join_cons_cons, !escape_app. change (escape "/" encodePath) with "/".
    rewrite IH by done. done.
Qed.

Lemma slashed_app l1 l2 : slashed (l1 ++ l2) = slashed l1 +:+ slashed l2.
Proof.
  induction l1 as [|s l1 IH]; [done|]. cbn [app slashed foldr]. fold (slashed (l1 ++ l2)) (slashed l1).
  by rewrite IH, <- !string_app_assoc.
Qed.

(** Joined segments are not empty, and do not begin with a slash. *)
Lemma joined_head p op : op ∈ operations → ∃ c t, joined p op = String c t ∧ c ≠ "/"%char ∧ joined p op ≠ "*".
Proof.
  intros Hop. unfold joined. pose proof (segments_kept p) as Hs. pose proof (segments_no_slash p) as Hsn.
  destruct (segments p) as [|s l].
  - clear -Hop. revert op Hop. apply Forall_forall. repeat constructor; by eexists _, _.
  - apply Forall_cons in Hs as [(Hs & _ & _) _]. apply Forall_cons in Hsn as [Hsn _].
    assert (Hl : ∃ q l', l ++ split op "/"%char = q :: l').
    { destruct l as [|q l]; [|by eexists _, _]. pose proof (split_not_nil op "/"%char).
      destruct (split op "/"%char) as [|q l']; [done|by eexists _, _]. }
    destruct Hl as (q & l' & Hl). change ((s :: l) ++ split op "/"%char) with (s :: (l ++ split op "/"%char)).
    rewrite Hl, join_cons_cons. destruct s as [|c s]; [done|]. rewrite string_app_cons. eexists _, _.
    split_and!; [done| |by destruct s]. intros ->. unfold no_slash in Hsn. cbn [contains] in Hsn.
    apply orb_false_iff in Hsn as [Hsn _]. by rewrite has_prefix_head in Hsn.
Qed.

(** The new path is longer than the base's, so the raw path of the base no
    longer spells it. *)
Lemma joined_new p op root :
  rooted_or_empty p → op ∈ operations → root = "" ∨ root = "/" → root +:+ joined p op ≠ p ∧ root +:+ joined p op ≠ "*".
Proof.
  intros Hp Hop Hroot. destruct (operations_kept op Hop) as [Hk Hn].
  destruct (joined_head p op Hop) as (c & t & Hj & Hc & Hstar). split.
  - intros He. destruct Hroot as [-> | ->].
    + rewrite string_app_nil_l in He. destruct Hp as [->|[t' ->]]; [by rewrite He in Hj|].
      rewrite He in Hj. by injection Hj as <-.
    + assert (Hs : segments p = segments p ++ split op "/"%char).
      { rewrite <- He at 1. apply segments_rooted; apply Forall_app; auto using segments_kept, segments_no_slash. }
      apply (f_equal length) in Hs. rewrite length_app in Hs. pose proof (split_not_nil op "/"%char).
      destruct (split op "/"%char); [done|simpl in Hs; lia].
  - destruct Hroot as [-> | ->]; [done|]. by destruct (joined p op).
Qed.

Lemma escape_head c t : c ≠ "/"%char → has_prefix (escape (String c t) encodePath) "/" = false.
Proof.
  intros Hc. cbn [escape]. destruct (shouldEscape c encodePath).
  - by destruct (bool_decide _).
  - rewrite has_prefix_head. by rewrite bool_decide_eq_false_2 by congruence.
Qed.

(** Where requests go: the scheme, the credentials and the host of the base. *)
Definition origin (u : URL) : string :=
  url_Scheme u +:+ "://" +:+ print_user (url_User u) +:+ escape (url_Host u) encodeHost.

Lemma print_url u path query root rest :
  url_Scheme u ≠ "" → url_Host u ≠ "" → hierarchical u →
  root = "" ∨ root = "/" → path = root +:+ rest → has_prefix (escape rest encodePath) "/" = false → rest ≠ "" →
  path ≠ url_Path u → path ≠ "*" →
  url_String (url_with u path query) = origin u +:+ "/" +:+ escape rest encodePath +:+ print_tail (url_with u path query).
Proof.
  intros Hs Hh [Ho _ Hraw _ _] Hroot -> Hrest Hne Hnew Hstar. set (u' := url_with u (root +:+ rest) query).
  assert (Hep : EscapedPath u' = root +:+ escape rest encodePath).
  { unfold EscapedPath. replace (raw_valid (url_Path u') (url_RawPath u') encodePath) with false.
    - rewrite bool_decide_eq_false_2 by done. cbn [u' url_Path url_with]. rewrite escape_app.
      by destruct Hroot as [-> | ->].
    - symmetry. unfold raw_valid. cbn [u' url_Path url_RawPath url_with]. destruct Hraw as [->|Hr]; [done|].
      rewrite (bool_decide_eq_false_2 (_ = Some _)) by (rewrite Hr; congruence). by rewrite andb_false_r. }
  assert (Hauth : print_authority u' = "//" +:+ print_user (url_User u) +:+ escape (url_Host u) encodeHost).
  { unfold print_authority. cbn [u' url_Scheme url_Host url_User url_OmitHost url_Path url_with].
    rewrite (bool_decide_eq_false_2 (_ = "" ∧ _ = "" ∧ _)) by naive_solver.
    rewrite (bool_decide_eq_false_2 (_ ∧ _)) by naive_solver. rewrite andb_false_r.
    by rewrite (bool_decide_eq_false_2 (_ = "" ∧ _ = "" ∧ _)) by naive_solver. }
  unfold url_String. cbn [u' url_Scheme url_Opaque url_with]. fold u'.
  rewrite (bool_decide_eq_false_2 (url_Scheme u = "")), Ho by done. rewrite bool_decide_eq_true_2 by done.
  unfold print_path. rewrite Hep, Hauth. unfold origin. cbn [u' url_Host url_with].
  rewrite (bool_decide_eq_false_2 (url_Host u = "")) by done. rewrite (bool_decide_eq_false_2 (root +:+ _ = "")).
  2:{ intros He. apply (f_equal String.length) in He. rewrite string_length_app in He.
      destruct rest as [|c rest]; [done|]. cbn [escape] in He. destruct (shouldEscape c encodePath);
        [destruct (bool_decide _)|]; simpl in He; lia. }
  assert (Hbuf : ∀ t, (url_Scheme u +:+ t) ≠ "") by (intros t He; by destruct (url_Scheme u)).
  destruct Hroot as [-> | ->].
  - rewrite !string_app_nil_l, Hrest. cbn [negb andb].
    rewrite (bool_decide_eq_false_2 (_ = "")); [cbn [andb]; by rewrite <- !string_app_assoc|].
    rewrite <- !string_app_assoc. apply Hbuf.
  - replace (has_prefix ("/" +:+ escape rest encodePath) "/") with true
      by (symmetry; apply has_prefix_spec; by eexists).
    cbn [negb andb].
    rewrite (bool_decide_eq_false_2 (_ = "")); [cbn [andb]; by rewrite <- !string_app_assoc|].
    rewrite <- !string_app_assoc. apply Hbuf.
Qed.

(** The target, with the path in its two forms. *)
Lemma target_printed base query op u :
  url_Parse base = Some u → url_Scheme u ≠ "" → url_Host u ≠ "" → op ∈ operations →
  ∃ target, upstreamURL base ("/v1/" +:+ op) query = Some target
    ∧ target = origin u +:+ slashed (segments (url_Path u)) +:+ "/" +:+ op +:+ print_tail (url_with u "" query)
    ∧ target = origin u +:+ "/" +:+ escape (joined (url_Path u) op) encodePath +:+ print_tail (url_with u "" query).
Proof.
  intros Hu Hs Hh Hop. pose proof (url_Parse_host _ _ Hu Hh) as Hhier.
  unfold upstreamURL. rewrite Hu. cbn [mbind option_bind].
  set (root := if bool_decide (trim_suffix (url_Path u) "/" = "") then "" else "/").
  assert (Hroot : root = "" ∨ root = "/") by (unfold root; case_bool_decide; auto).
  replace (trim_prefix ("/v1/" +:+ op) "/v1/") with op by (symmetry; apply trim_prefix_app).
  rewrite join_operation by (done || by apply h_path). fold root.
  assert (Hne : segments (url_Path u) ++ split op "/"%char ≠ []).
  { intros He. apply app_eq_nil in He as [_ He]. by apply (split_not_nil op "/"%char). }
  pose proof (escape_join _ Hne) as Hj. fold (joined (url_Path u) op) in Hj.
  destruct (joined_new (url_Path u) op root (h_path _ Hhier) Hop Hroot) as [Hnew Hstar].
  destruct (joined_head (url_Path u) op Hop) as (c & t & Hc & Hcs & _).
  eexists. split; [reflexivity|]. rewrite (print_url u _ query root (joined (url_Path u) op)); try done.
  2:{ rewrite Hc. by apply escape_head. }
  2:{ by rewrite Hc. }
  change (print_tail (url_with u (root +:+ joined (url_Path u) op) query)) with (print_tail (url_with u "" query)).
  split; [|done]. rewrite escape_app, slashed_app in Hj. change (escape "/" encodePath) with "/" in Hj.
  replace (slashed (split op "/"%char)) with ("/" +:+ op) in Hj
    by (revert Hop; clear; revert op; apply Forall_forall; by repeat constructor).
  rewrite (string_app_assoc "/" _ (print_tail _)), Hj. by rewrite <- !string_app_assoc.
Qed.

(** The query and the fragment that are printed. *)
Lemma print_tail_parts u path query :
  ∃ text ftext, print_tail (url_with u path query) = text +:+ ftext ∧ query_text text query
    ∧ (ftext = "" ∨ ∃ f, ftext = "#" +:+ f ∧ unescape f encodeFragment = Some (url_Fragment u)).
Proof.
  unfold print_tail. cbn [url_with url_ForceQuery url_RawQuery url_Fragment]. eexists _, _. split; [reflexivity|]. split.
  - unfold query_text. destruct (url_ForceQuery u); [by right|]. cbn [orb]. case_bool_decide; [by left|by right].
  - case_bool_decide; [by left|]. right. eexists. split; [reflexivity|]. unfold EscapedFragment.
    cbn [url_with url_Fragment url_RawFragment]. destruct (raw_valid _ _ _) eqn:E; [|apply unescape_escape; auto].
    unfold raw_valid in E. apply andb_true_iff in E as [_ E]. by bool_to_prop.
Qed.

(** ** The property *)

(** What the client of [net/http] makes of the URL: where it connects to, and
    what it asks for. *)
Record contacts (u v : URL) (op query : string) : Prop := {
  c_scheme : url_Scheme v = url_Scheme u;
  c_user : url_User v = url_User u;
  c_host : url_Host v = url_Host u;
  c_opaque : url_Opaque v = "";
  c_path : url_Path v = "/" +:+ joined (url_Path u) op;
  c_query : url_RawQuery v = query
}.

(** C17: A request goes where the operator pointed the provider, to the
    operation of its route, whatever the client put in the query: for a base
    URL with a scheme and a host, the URL is the scheme, the credentials and
    the host of the base, its path with the dot segments and the empty
    segments resolved and each kept segment escaped, the operation below it,
    the client's query and the fragment of the base; a query of the base is
    dropped.  The client of [net/http] parses this text again.  Whenever it
    accepts it, for any query and any host, it connects to the same scheme,
    host and credentials and asks for the same path, with the query up to its
    first ["#"], since the rest is then a fragment.  It does accept it when the
    query has neither a ["#"] nor a control byte and the host no zone. *)
Theorem upstream_url_spec base path query op u :
  url_Parse base = Some u → url_Scheme u ≠ "" → url_Host u ≠ "" →
  op ∈ operations → path = "/v1/" +:+ op →
  ∃ target,
    upstreamURL base path query = Some target
    ∧ target = origin u +:+ slashed (segments (url_Path u)) +:+ "/" +:+ op +:+ print_tail (url_with u "" query)
    ∧ Forall (λ s, kept s ∧ no_slash s) (segments (url_Path u))
    ∧ (∀ v, url_Parse target = Some v → contacts u v op (before query "#"))
    ∧ (every (other_than "%") (url_Host u) = true → every clean_byte query = true → NewRequest target = true).
Proof.
  intros Hu Hs Hh Hop ->. pose proof (url_Parse_host _ _ Hu Hh) as Hhier.
  destruct (target_printed base query op u Hu Hs Hh Hop) as (target & Htarget & Htext & Hseg).
  exists target. split; [exact Htarget|]. split; [exact Htext|]. split.
  { apply Forall_and. split; [apply segments_kept|apply segments_no_slash]. }
  destruct (print_tail_parts u "" query) as (text & ftext & Ht & Hq & Hf).
  assert (Hmain : target = main_text (url_Scheme u) (url_User u) (url_Host u) (joined (url_Path u) op) +:+ text +:+ ftext).
  { rewrite Hseg, Ht. unfold origin, main_text. by rewrite <- !string_app_assoc. }
  pose proof (h_scheme _ Hhier Hs) as Hscheme. split.
  - intros v Hv. rewrite Hmain in Hv. apply (parse_print_inv _ _ _ _ _ query) in Hv as (force & f & rf & ->); [by constructor|done|done|].
    destruct Hf as [?|(f & ? & _)]; [by left|right; by exists f].
  - intros Hzone Hclean. destruct (h_host _ Hhier) as [raw Hraw]. destruct (parseHost_escape _ _ Hraw Hzone) as [HH _].
    destruct (parse_print (url_Scheme u) (url_User u) (url_Host u) (joined (url_Path u) op) text query ftext (url_Fragment u)
      Hscheme HH Hq Hclean Hf) as [v Hv]. unfold NewRequest. by rewrite Hmain, Hv.
Qed.

(** A base with credentials, dot segments, an escaped segment, a space, a
    query and a fragment; and a client's query that hides a part of itself. *)
Lemma upstream_url_spec_witness :
  upstreamURL "https://user@h:8080/api/../v%31//x y/?key=1#f" "/v1/models" "a=b#c"
  = Some "https://user@h:8080/v1/x%20y/models?a=b#c#f"
  ∧ ∃ v, url_Parse "https://user@h:8080/v1/x%20y/models?a=b#c#f" = Some v ∧ url_Host v = "h:8080" ∧ url_RawQuery v = "a=b".
Proof.
  set (base := "https://user@h:8080/api/../v%31//x y/?key=1#f").
  assert (Hu : ∃ u, url_Parse base = Some u ∧ url_Scheme u = "https" ∧ url_Host u = "h:8080")
    by (eexists; vm_compute; split_and!; reflexivity).
  destruct Hu as (u & Hu & Hs & Hh).
  destruct (upstream_url_spec base "/v1/models" "a=b#c" "models" u Hu) as (target & Ht & _ & _ & Hv & _).
  - rewrite Hs. discriminate.
  - rewrite Hh. discriminate.
  - apply (bool_decide_unpack _). vm_compute. exact I.
  - reflexivity.
  - assert (He : target = "https://user@h:8080/v1/x%20y/models?a=b#c#f") by (vm_compute in Ht; injection Ht as <-; reflexivity).
    subst target. split; [exact Ht|].
    assert (Hp : ∃ v, url_Parse "https://user@h:8080/v1/x%20y/models?a=b#c#f" = Some v) by (eexists; vm_compute; reflexivity).
    destruct Hp as [v Hp]. exists v. split; [exact Hp|]. pose proof (Hv v Hp) as Hc.
    split; [rewrite (c_host _ _ _ _ Hc); exact Hh|exact (c_query _ _ _ _ Hc)].
Defined.
