(* ===== verification/Metrics.v ===== *)
(** * Process metrics ([internal/gateway/metrics.go])

    Atomic counters, modulo [2^64], and the report that exposes them. *)

From Stdlib Require Import ZArith Lia.
From S2P Require Import Prelude GoStrings Float64.

Local Open Scope Z_scope.

Record metrics := mkMetrics {
  requests : Z;
  completed : Z;
  failed : Z;
  active : Z;
  upstreamRequests : Z;
  upstreamErrors : Z;
  queueWaits : Z;
  queueRejected : Z;
  durationNanos : Z
}.

Definition zero_metrics : metrics := mkMetrics 0 0 0 0 0 0 0 0 0.

(** The calls of [Add] that the gateway makes. *)
Inductive metric_add :=
  | AddRequests
  | AddCompleted
  | AddFailed
  | AddActive (d : Z)
  | AddUpstreamRequests
  | AddUpstreamErrors
  | AddQueueWaits
  | AddQueueRejected
  | AddDuration (nanos : Z).

Definition metrics_add (a : metric_add) (m : metrics) : metrics :=
  let '(mkMetrics r c f act ur ue qw qr d) := m in
  match a with
  | AddRequests => mkMetrics (uint64 (r + 1)) c f act ur ue qw qr d
  | AddCompleted => mkMetrics r (uint64 (c + 1)) f act ur ue qw qr d
  | AddFailed => mkMetrics r c (uint64 (f + 1)) act ur ue qw qr d
  | AddActive n => mkMetrics r c f (int64 (act + n)) ur ue qw qr d
  | AddUpstreamRequests => mkMetrics r c f act (uint64 (ur + 1)) ue qw qr d
  | AddUpstreamErrors => mkMetrics r c f act ur (uint64 (ue + 1)) qw qr d
  | AddQueueWaits => mkMetrics r c f act ur ue (uint64 (qw + 1)) qr d
  | AddQueueRejected => mkMetrics r c f act ur ue qw (uint64 (qr + 1)) d
  | AddDuration n => mkMetrics r c f act ur ue qw qr (uint64 (d + uint64 n))
  end.

(** A printed value: an integer or a [float64]. *)
Inductive metric_value := MInt (z : Z) | MFloat (x : f64).

Definition Second : Z := 10 ^ 9.

(** [writePrometheus]: the lines in order, each a name and its value. *)
Definition writePrometheus (m : metrics) (queueDepth : Z) : list (string * metric_value) :=
  (λ nv : string * metric_value, ("shepard_" +:+ nv.1, nv.2)) <$>
  [ ("requests_total", MInt (requests m));
    ("requests_completed_total", MInt (completed m));
    ("requests_failed_total", MInt (failed m));
    ("requests_active", MInt (active m));
    ("upstream_requests_total", MInt (upstreamRequests m));
    ("upstream_errors_total", MInt (upstreamErrors m));
    ("queue_waits_total", MInt (queueWaits m));
    ("queue_rejected_total", MInt (queueRejected m));
    ("queue_depth", MInt queueDepth);
    ("request_duration_seconds_total",
       MFloat (f64_div (f64_of_Z (durationNanos m)) (f64_of_Z Second))) ].

(** Additions commute: the order in which requests update the counters does
    not matter. *)
Lemma metrics_add_comm a b m : metrics_add a (metrics_add b m) = metrics_add b (metrics_add a m).
Proof.
  assert (Hu : ∀ x i j, uint64 (uint64 (x + i) + j) = uint64 (uint64 (x + j) + i)).
  { intros. rewrite !uint64_add_l. f_equal. lia. }
  assert (Hi : ∀ x i j, int64 (int64 (x + i) + j) = int64 (int64 (x + j) + i)).
  { intros. unfold int64. 
    replace ((x + i + 2 ^ 63) mod 2 ^ 64 - 2 ^ 63 + j + 2 ^ 63) with ((x + i + 2 ^ 63) mod 2 ^ 64 + j) by lia.
    replace ((x + j + 2 ^ 63) mod 2 ^ 64 - 2 ^ 63 + i + 2 ^ 63) with ((x + j + 2 ^ 63) mod 2 ^ 64 + i) by lia.
    rewrite !Zplus_mod_idemp_l. do 2 f_equal. lia. }
  destruct m, a, b; simpl; f_equal; auto.
Qed.
