(* ===== verification/Effects.v ===== *)
(** * Programs with effects

    A handler of the gateway is a [prog]: a tree of commands, each of them one
    access to state that other requests share or to the world outside, with a
    continuation for every answer.  Local variables, guards and loops are those
    of Go; a [defer] is the tail of the function that set it up, in the order in
    which Go runs them.  Nothing is assumed about the answers: a theorem about
    the traces of a program holds against every environment. *)

From Stdlib Require Import ZArith Lia.
From S2P Require Import Prelude GoStrings Float64 Http Value Config Limiter ACL Metrics Usage.

Local Open Scope Z_scope.

Inductive ctx_error := Canceled | DeadlineExceeded.

#[export] Instance ctx_error_eq_dec : EqDecision ctx_error.
Proof. solve_decision. Defined.

(** A request to a provider; a body is its decoded JSON object. *)
Record outgoing := mkOutgoing {
  out_Method : string;
  out_URL : string;
  out_Header : Header;
  out_Body : option payload
}.

(** A response whose body is still to be read. *)
Record Response := mkResponse {
  StatusCode : Z;
  resp_Header : Header
}.

(** A model found at a provider ([discovery.go]). *)
Record discoveredModel := mkDiscovered { dm_Alias : string; dm_Model : string; dm_Provider : string }.

(** The result of a readiness probe ([readiness.go]). *)
Record readinessResult := mkReadiness { rr_status : gmap string string; rr_ready : bool }.

(** What is written after the headers of a reply of the gateway's own. *)
Inductive reply :=
  | ReplyJSON (v : any)
  | ReplyUsage (models : gmap string Usage)
  | ReplyPeriod (period : string) (items : list PeriodUsage)
  | ReplyMetrics (lines : list (string * metric_value)).

(** An attribute of a log line. *)
Inductive log_value := LogStr (s : string) | LogInt (z : Z).

(** What [http.ResponseController.SetWriteDeadline] returns: nil,
    [http.ErrNotSupported] or another error. *)
Inductive deadline_result := DeadlineSet | DeadlineNotSupported | DeadlineFailed.

Inductive cmd : Type → Type :=
  (* The atomic pointers of the gateway. *)
  | LoadConfig : cmd Config
  | LoadACL : cmd (option clientACL)
  | LoadTrusted : cmd (option clientACL)
  (* Admission: whether admitted, and whether queued. *)
  | AdmitWithQueue (timeout : Z) (scopes : list admissionScope) : cmd (bool * bool)
  | Release (scopes : list admissionScope) : cmd unit
  | QueueDepth : cmd Z
  | Metric (a : metric_add) : cmd unit
  (* The counters are read one by one: the answer need not be their value at
     any single instant. *)
  | LoadMetrics : cmd metrics
  | DiscoveryGet (provider : string) : cmd (option (list discoveredModel))
  | DiscoveryPut (provider : string) (ttl : Z) (models : list discoveredModel) : cmd unit
  | RecordUsage (client alias : string) (status : Z) (body : string) : cmd unit
  | UsageSnapshot : cmd (gmap string Usage)
  | PeriodSnapshot (period client : string) : cmd (option (list PeriodUsage))
  (* [cachedReadiness]; [None] when the request was cancelled. *)
  | CachedReadiness (cfg : Config) : cmd (option readinessResult)
  (* Time, contexts and the process environment. *)
  | Now : cmd Z
  | WithTimeout (timeout : Z) : cmd unit
  | WithCancel : cmd unit
  | CancelCtx : cmd unit
  | CtxErr : cmd (option ctx_error)
  | AttemptTimeout (timeout : Z) : cmd unit
  | AttemptErr : cmd (option ctx_error)
  | CancelAttempt : cmd unit
  | SleepRetry (delay : Z) : cmd bool
  | Getenv (name : string) : cmd string
  (* The client's request and the response to it. *)
  | ReadBody (limit : Z) : cmd (option string)
  | SetHeader (name value : string) : cmd unit
  | AddHeaders (h : Header) : cmd unit
  | WriteHeader (status : Z) : cmd unit
  | WriteReply (body : reply) : cmd unit
  | ClearWriteDeadline : cmd unit
  (* Requests to providers. *)
  | Do (req : outgoing) : cmd (option Response)
  | DrainBody (limit : Z) : cmd unit
  | ReadAll (limit : Z) : cmd (option string)
  (* Relaying the body of a response.  [BodyReads] is no access of the program:
     its answer is how many more reads yield data before the body ends, so that
     a run of the copying loop is a finite one; [BodyEnd] is the read that ends
     the body, with whether by an error. *)
  | BodyReads : cmd nat
  | ReadChunk : cmd string
  | BodyEnd : cmd bool
  | SetWriteDeadline (t : Z) : cmd deadline_result
  | WriteBody (data : string) : cmd (Z * bool)
  | CanFlush : cmd bool
  | Flush : cmd unit
  | CloseBody : cmd unit
  (* Logging; of the plain lines only the message is kept, and of [LogAttrs],
     which carries headers and bodies, every attribute. *)
  | Log (message : string) : cmd unit
  | LogAttrs (message : string) (attrs : list (string * log_value)) (headers : gmap string string)
      (body : option (string * bool)) : cmd unit.

Inductive prog (A : Type) : Type :=
  | Ret (a : A)
  | Step (X : Type) (c : cmd X) (k : X → prog A).
Arguments Ret {A} a.
Arguments Step {A X} c k.

Fixpoint prog_bind {A B} (f : A → prog B) (p : prog A) : prog B :=
  match p with
  | Ret a => f a
  | Step c k => Step c (λ x, prog_bind f (k x))
  end.

#[export] Instance prog_mret : MRet prog := @Ret.
#[export] Instance prog_mbind : MBind prog := @prog_bind.

Definition call {X} (c : cmd X) : prog X := Step c Ret.

(** A command under a condition. *)
Definition when (b : bool) (p : prog unit) : prog unit := if b then p else Ret tt.

(** ** Traces *)
Inductive event := | Ev {X : Type} (c : cmd X) (x : X).

Inductive exec {A} : prog A → list event → A → Prop :=
  | exec_ret a : exec (Ret a) [] a
  | exec_step {X} (c : cmd X) k x tr a : exec (k x) tr a → exec (Step c k) (Ev c x :: tr) a.

(** A script of answers, for executable examples: [run_script] stops when the
    script has no answer of the right type left. *)
Definition answerer := ∀ X, cmd X → X.

(** An environment in which nothing is configured and every call fails. *)
Definition inert : answerer := λ X c,
  match c in cmd X return X with
  | LoadConfig => mkConfig zero_Server ∅ ∅
  | LoadACL => None
  | LoadTrusted => None
  | AdmitWithQueue _ _ => (false, false)
  | Release _ => tt
  | QueueDepth => 0
  | Metric _ => tt
  | LoadMetrics => zero_metrics
  | DiscoveryGet _ => None
  | DiscoveryPut _ _ _ => tt
  | RecordUsage _ _ _ _ => tt
  | UsageSnapshot => ∅
  | PeriodSnapshot _ _ => None
  | CachedReadiness _ => None
  | Now => 0
  | WithTimeout _ => tt
  | WithCancel => tt
  | CancelCtx => tt
  | CtxErr => None
  | AttemptTimeout _ => tt
  | AttemptErr => None
  | CancelAttempt => tt
  | SleepRetry _ => false
  | Getenv _ => ""
  | ReadBody _ => None
  | SetHeader _ _ => tt
  | AddHeaders _ => tt
  | WriteHeader _ => tt
  | WriteReply _ => tt
  | ClearWriteDeadline => tt
  | Do _ => None
  | DrainBody _ => tt
  | ReadAll _ => None
  | BodyReads => 0%nat
  | ReadChunk => ""
  | BodyEnd => false
  | SetWriteDeadline _ => DeadlineSet
  | WriteBody data => (Z.of_nat (String.length data), false)
  | CanFlush => true
  | Flush => tt
  | CloseBody => tt
  | Log _ => tt
  | LogAttrs _ _ _ _ => tt
  end.

Fixpoint run_with {A} (n : nat) (answer : nat → answerer) (p : prog A) : list event * A :=
  match p with
  | Ret a => ([], a)
  | @Step _ X c k =>
      let x := answer n X c in
      let '(tr, a) := run_with (S n) answer (k x) in (Ev c x :: tr, a)
  end.

Lemma run_with_exec {A} n answer (p : prog A) : exec p (run_with n answer p).1 (run_with n answer p).2.
Proof.
  revert n. induction p as [a|X c k IH]; intros n; [constructor|]. cbn [run_with].
  specialize (IH (answer n X c) (S n)). destruct (run_with (S n) answer (k (answer n X c))) as [tr a].
  by constructor.
Qed.

(** ** Monitors

    A monitor reads a trace and either moves its state or rejects.  [wp] asks
    that a program is accepted whatever the answers are, and that its result
    and the monitor's final state satisfy [Q]. *)
Section Monitor.
Context {S : Type} (step : ∀ X, cmd X → X → S → option S).

Definition step_event (e : event) (s : S) : option S :=
  match e with @Ev X c x => step X c x s end.

Definition monitor (s : S) (tr : list event) : option S :=
  foldl (λ o e, s ← o; step_event e s) (Some s) tr.

Fixpoint wp {A} (p : prog A) (Q : A → S → Prop) (s : S) : Prop :=
  match p with
  | Ret a => Q a s
  | @Step _ X c k => ∀ x : X, match step X c x s with Some s' => wp (k x) Q s' | None => False end
  end.

Lemma wp_mono {A} (p : prog A) (Q1 Q2 : A → S → Prop) s :
  wp p Q1 s → (∀ a s', Q1 a s' → Q2 a s') → wp p Q2 s.
Proof.
  intros Hp HQ. revert s Hp. induction p as [a|X c k IH]; intros s Hp; [by apply HQ|].
  cbn [wp] in *. intros x. specialize (Hp x). destruct (step X c x s) as [s'|]; [|done]. by apply IH.
Qed.

Lemma wp_bind {A B} (p : prog A) (f : A → prog B) Q s :
  wp p (λ a s', wp (f a) Q s') s → wp (p ≫= f) Q s.
Proof.
  revert s. induction p as [a|X c k IH]; intros s Hp; [done|].
  cbn [wp] in *. intros x. specialize (Hp x). destruct (step X c x s) as [s'|]; [|done]. by apply IH.
Qed.

(** A command that the monitor accepts without moving. *)
Definition skips {X} (c : cmd X) (s : S) : Prop := ∀ x, step X c x s = Some s.

Lemma wp_skip {X} (c : cmd X) (Q : X → S → Prop) s : skips c s → (∀ x, Q x s) → wp (call c) Q s.
Proof. intros Hc HQ x. rewrite Hc. apply HQ. Qed.

Lemma wp_when_skip b (c : cmd unit) (Q : unit → S → Prop) s : skips c s → Q tt s → wp (when b (call c)) Q s.
Proof. intros Hc HQ. destruct b; [|done]. apply wp_skip; [done|]. by intros []. Qed.

Lemma monitor_None tr : foldl (λ o e, s ← o; step_event e s) None tr = None.
Proof. by induction tr. Qed.

(** What [wp] promises holds of every trace. *)
Lemma wp_sound {A} (p : prog A) Q s tr a :
  wp p Q s → exec p tr a → ∃ s', monitor s tr = Some s' ∧ Q a s'.
Proof.
  intros Hwp Hex. revert s Hwp. induction Hex as [a|X c k x tr a _ IH]; intros s Hwp.
  - by exists s.
  - cbn [wp] in Hwp. specialize (Hwp x). unfold monitor. cbn [foldl mbind option_bind step_event].
    destruct (step X c x s) as [s'|] eqn:E; [|done]. by apply IH.
Qed.
End Monitor.

(** A monitor accepts what a finer one accepts: [R] relates their states and
    every step of the finer one is matched. *)
Lemma wp_simulates {S1 S2} (step1 : ∀ X, cmd X → X → S1 → option S1) (step2 : ∀ X, cmd X → X → S2 → option S2)
    (R : S1 → S2 → Prop) {A} (p : prog A) (Q : A → S1 → Prop) s1 s2 :
  (∀ X (c : cmd X) x t1 t2 t1', R t1 t2 → step1 X c x t1 = Some t1' → ∃ t2', step2 X c x t2 = Some t2' ∧ R t1' t2') →
  R s1 s2 → wp step1 p Q s1 → wp step2 p (λ a t2, ∃ t1, R t1 t2 ∧ Q a t1) s2.
Proof.
  intros Hsim. revert s1 s2. induction p as [a|X c k IH]; intros s1 s2 HR Hwp; [by exists s1|].
  cbn [wp] in *. intros x. specialize (Hwp x). destruct (step1 X c x s1) as [s1'|] eqn:E1; [|done].
  destruct (Hsim _ _ _ _ _ _ HR E1) as (s2' & -> & HR'). by eapply IH.
Qed.

(** ** Replies shared by the handlers ([gateway.go]) *)
Definition writeJSONStatus (status : Z) (v : any) : prog unit :=
  call (SetHeader "Content-Type" "application/json") ≫= λ _,
  call (WriteHeader status) ≫= λ _,
  call (WriteReply (ReplyJSON v)).

Definition writeJSON (status : Z) (v : any) : prog unit := writeJSONStatus status v.

Definition error_body (message : string) : any :=
  AObj {[ "error" := AObj {[ "message" := AStr message; "type" := AStr "shepard_error" ]} ]}.

Definition writeAPIError (status : Z) (message : string) : prog unit :=
  writeJSONStatus status (error_body message).

Definition writeRateLimitError : prog unit :=
  call (SetHeader "Retry-After" "1") ≫= λ _,
  writeAPIError StatusTooManyRequests "rate or concurrency limit exceeded".
