(* ===== verification/Stream.v ===== *)
(** * Relaying a response body ([gateway.go])

    The [io.Copy] of [proxy]: a body is read chunk by chunk through two
    [io.TeeReader]s into the log and the usage capture, and written to the
    client, for an event stream through [flushWriter]. *)

From Stdlib Require Import ZArith Lia Ascii.
From S2P Require Import Prelude GoStrings Buffers Effects.

Local Open Scope Z_scope.

(** ** The readers *)

(** The buffers behind the two tee readers. *)
Record taps := mkTaps {
  capture : tailBuffer ascii;
  responseLog : option (logBodyBuffer ascii)
}.

(** One read that yields data: the inner tee feeds the log, the outer one the
    capture; neither write can fail. *)
Definition tee (t : taps) (p : string) : taps :=
  mkTaps (tail_Write (capture t) (String.list_ascii_of_string p)).1
    ((λ b, (log_Write b (String.list_ascii_of_string p)).1) <$> responseLog t).

(** ** The writers *)

(** [flushWriter.Write]: the number of bytes written, and whether it failed. *)
Definition flushWriter_Write (writeIdleTimeout : Z) (p : string) : prog (Z * bool) :=
  let write :=
    '(n, err) ← call (WriteBody p);
    flusher ← call CanFlush;
    _ ← when flusher (call Flush);
    Ret (n, err) in
  if 0 <? writeIdleTimeout then
    now ← call Now;
    set ← call (SetWriteDeadline (now + writeIdleTimeout));
    match set with
    | DeadlineFailed => Ret (0, true)
    | DeadlineSet | DeadlineNotSupported => write
    end
  else write.

(** [destination]: the [flushWriter] for an event stream, else the response. *)
Definition destination_Write (sse : bool) (writeIdleTimeout : Z) (p : string) : prog (Z * bool) :=
  if sse then flushWriter_Write writeIdleTimeout p else call (WriteBody p).

(** ** [io.Copy]

    A read that yields nothing is skipped; a write that fails or is short ends
    the copy with an error, and so does a read that fails. *)
Fixpoint copy_loop (sse : bool) (writeIdleTimeout : Z) (n : nat) (t : taps) : prog (taps * bool) :=
  match n with
  | O => failed ← call BodyEnd; Ret (t, failed)
  | S n =>
      p ← call ReadChunk;
      if bool_decide (p = "") then copy_loop sse writeIdleTimeout n t
      else
        let t := tee t p in
        '(nw, failed) ← destination_Write sse writeIdleTimeout p;
        if failed || negb (nw =? Z.of_nat (String.length p)) then Ret (t, true)
        else copy_loop sse writeIdleTimeout n t
  end.

Definition io_Copy (sse : bool) (writeIdleTimeout : Z) (t : taps) : prog (taps * bool) :=
  n ← call BodyReads; copy_loop sse writeIdleTimeout n t.

(** ** A monitor that does not look at the relay is not moved by it *)
Section skip.
Context {S : Type} (step : ∀ X, cmd X → X → S → option S) (s : S).

Definition skips_relay : Prop :=
  skips step BodyReads s ∧ skips step ReadChunk s ∧ skips step BodyEnd s ∧ skips step Now s ∧
  (∀ t, skips step (SetWriteDeadline t) s) ∧ (∀ p, skips step (WriteBody p) s) ∧
  skips step CanFlush s ∧ skips step Flush s.

Context (Hs : skips_relay).

Lemma destination_Write_skip sse idle p (Q : Z * bool → S → Prop) :
  (∀ r, Q r s) → wp step (destination_Write sse idle p) Q s.
Proof.
  destruct Hs as (_ & _ & _ & Hnow & Hset & Hwrite & Hcan & Hflush). intros HQ.
  assert (Hw : wp step ('(n, err) ← call (WriteBody p); flusher ← call CanFlush; _ ← when flusher (call Flush); Ret (n, err)) Q s).
  { apply wp_bind, wp_skip; [done|]. intros [n err]. apply wp_bind, wp_skip; [done|]. intros b.
    apply wp_bind, wp_when_skip; [done|]. apply HQ. }
  unfold destination_Write, flushWriter_Write. cbv zeta. destruct sse; [|by apply wp_skip].
  destruct (0 <? idle); [|exact Hw]. apply wp_bind, wp_skip; [done|]. intros now.
  apply wp_bind, wp_skip; [done|]. intros []; [exact Hw..|apply HQ].
Qed.

Lemma io_Copy_skip sse idle t (Q : taps * bool → S → Prop) :
  (∀ r, Q r s) → wp step (io_Copy sse idle t) Q s.
Proof.
  destruct Hs as (Hreads & Hread & Hend & _). intros HQ.
  apply wp_bind, wp_skip; [done|]. intros n. revert t. induction n as [|n IH]; intros t; cbn [copy_loop].
  - apply wp_bind, wp_skip; [done|]. intros failed. apply HQ.
  - apply wp_bind, wp_skip; [done|]. intros p. destruct (bool_decide (p = "")); [apply IH|].
    apply wp_bind, destination_Write_skip. intros [nw failed]. destruct (_ || _); [apply HQ|apply IH].
Qed.
End skip.
