(* ===== verification/Discovery.v ===== *)
(** * Model discovery ([internal/gateway/discovery.go])

    The cache of discovered models, the request that fills it, and the two
    ways the gateway looks models up.  The decoding of a model list follows
    [encoding/json] on a struct with one slice field. *)

From Stdlib Require Import ZArith Lia.
From S2P Require Import Prelude GoStrings Float64 Http Value Config Limiter ACL Headers Metrics Effects Json Usage NetURL Urls.

Local Open Scope Z_scope.

Definition discoveryResponseLimit : Z := Z.shiftl 4 20.

(** ** The store *)
Record discoveryEntry := mkEntry { de_expires : Z; de_models : list discoveredModel }.

Abbreviation discoveryStore := (gmap string discoveryEntry).

Definition newDiscoveryStore : discoveryStore := ∅.
Definition discoveryStore_clear (s : discoveryStore) : discoveryStore := ∅.

Definition discoveryStore_get (now : Z) (provider : string) (s : discoveryStore) : option (list discoveredModel) :=
  match s !! provider with
  | None => None
  | Some entry => if de_expires entry <? now then None else Some (de_models entry)
  end.

Definition discoveryStore_put (now : Z) (provider : string) (ttl : Z) (models : list discoveredModel)
    (s : discoveryStore) : discoveryStore :=
  <[provider := mkEntry (now + ttl) models]> s.

(** ** Decoding a model list *)

(** The member [id] of one element: a string, or null which leaves the zero
    value; [None] is a type error. *)
Fixpoint decode_id (ms : list (string * string * json)) (id : string) : option string :=
  match ms with
  | [] => Some id
  | (key, _, v) :: ms' =>
      match match_field ["id"] key with
      | None => decode_id ms' id
      | Some _ =>
          match v with
          | JNull => decode_id ms' id
          | JStr s => decode_id ms' s
          | _ => None
          end
      end
  end.

(** An element of the slice: an object, or null for the zero struct.
    [old] is the element that an earlier [data] member left at the index. *)
Definition decode_item (v : json) (old : string) : option string :=
  match v with
  | JNull => Some old
  | JObj ms => decode_id ms old
  | _ => None
  end.

(** The slice field: elements are decoded over those already there. *)
Fixpoint decode_items (l : list json) (old : list string) : option (list string) :=
  match l with
  | [] => Some []
  | v :: l' =>
      id ← decode_item v (default "" (head old));
      ids ← decode_items l' (tail old);
      Some (id :: ids)
  end.

Fixpoint decode_data (ms : list (string * string * json)) (ids : list string) : option (list string) :=
  match ms with
  | [] => Some ids
  | (key, _, v) :: ms' =>
      match match_field ["data"] key with
      | None => decode_data ms' ids
      | Some _ =>
          match v with
          | JNull => decode_data ms' []
          | JArr l => ids' ← decode_items l ids; decode_data ms' ids'
          | _ => None
          end
      end
  end.

(** [json.Unmarshal(body, &envelope)]: the ids, in order. *)
Definition decode_model_list (body : string) : option (list string) :=
  match parse_json body with
  | Some JNull => Some []
  | Some (JObj ms) => decode_data ms []
  | _ => None
  end.

(** [sort.Slice] by alias.  Go's sort is not stable; a merge sort is one of the
    orders it may produce, and the only one when the aliases differ. *)
Definition alias_le (a b : discoveredModel) : Prop := String.le (dm_Alias a) (dm_Alias b).
#[export] Instance alias_le_dec a b : Decision (alias_le a b).
Proof. unfold alias_le. apply _. Defined.

Definition sort_models : list discoveredModel → list discoveredModel := merge_sort alias_le.

Definition models_of_ids (name : string) (p : ProviderConfig) (ids : list string) : list discoveredModel :=
  sort_models ((λ id, mkDiscovered (Prefix (Autodiscover p) +:+ id) id name) <$> filter (λ id, id ≠ "") ids).

Inductive discovery_error :=
  | DiscURL | DiscRequest | DiscEnv (variable : string) | DiscTransport | DiscRead | DiscTooLarge
  | DiscStatus (status : Z) | DiscDecode.

Section Discovery.
Context `{MapOrder}.

(** [applyProviderHeaders] with the one environment variable it reads. *)
Definition provider_headers (h : Header) (p : ProviderConfig) : prog (string + Header) :=
  if bool_decide (APIKeyEnv p = "") then Ret (applyProviderHeaders (λ _, "") h p)
  else call (Getenv (APIKeyEnv p)) ≫= λ key, Ret (applyProviderHeaders (λ _, key) h p).

(** What follows the response of the models endpoint; the deferred [Close] is
    its last step. *)
Definition read_models (name : string) (p : ProviderConfig) (resp : Response)
    : prog (discovery_error + list discoveredModel) :=
  (call (ReadAll (discoveryResponseLimit + 1)) ≫= λ body,
   match body with
   | None => Ret (inl DiscRead)
   | Some body =>
       if discoveryResponseLimit <? Z.of_nat (String.length body) then Ret (inl DiscTooLarge)
       else if (StatusCode resp <? 200) || (300 <=? StatusCode resp) then Ret (inl (DiscStatus (StatusCode resp)))
       else
         match decode_model_list body with
         | None => Ret (inl DiscDecode)
         | Some ids =>
             let models := models_of_ids name p ids in
             call (DiscoveryPut name (CacheTTL (Autodiscover p)) models) ≫= λ _,
             Ret (inr models)
         end
   end) ≫= λ r,
  call CloseBody ≫= λ _, Ret r.

Definition discoverProvider (name : string) (p : ProviderConfig) : prog (discovery_error + list discoveredModel) :=
  call (DiscoveryGet name) ≫= λ cached,
  match cached with
  | Some models => Ret (inr models)
  | None =>
      match upstreamURL (BaseURL p) "/v1/models" "" with
      | None => Ret (inl DiscURL)
      | Some target =>
          if negb (NewRequest target) then Ret (inl DiscRequest)
          else
            provider_headers ∅ p ≫= λ h,
            match h with
            | inl v => Ret (inl (DiscEnv v))
            | inr h =>
                call (Do (mkOutgoing "GET" target h None)) ≫= λ resp,
                match resp with
                | None => Ret (inl DiscTransport)
                | Some resp => read_models name p resp
                end
            end
      end
  end.

(** The loop of [discoverAll] over the sorted names. *)
Fixpoint discover_loop (cfg : Config) (names : list string) (all : list discoveredModel)
    (errs : gmap string discovery_error) : prog (list discoveredModel * gmap string discovery_error) :=
  match names with
  | [] => Ret (sort_models all, errs)
  | name :: rest =>
      discoverProvider name (map_get zero_Provider (Providers cfg) name) ≫= λ r,
      match r with
      | inl e => discover_loop cfg rest all (<[name := e]> errs)
      | inr models => discover_loop cfg rest (all ++ models) errs
      end
  end.

Definition autodiscovering (cfg : Config) : list string :=
  sort_strings (map_keys (filter (λ np : string * ProviderConfig, ad_Enabled (Autodiscover np.2) = true) (Providers cfg))).

Definition discoverAll (cfg : Config) : prog (list discoveredModel * gmap string discovery_error) :=
  discover_loop cfg (autodiscovering cfg) [] ∅.

(** The zero model with a provider and a model name. *)
Definition discovered_model (name model : string) : ModelConfig :=
  mkModelConfig name model [] 0 zero_Limits ∅ "" "".

(** [resolveDiscoveredModel]: the loop over the providers in map order. *)
Fixpoint resolve_loop (alias : string) (l : list (string * ProviderConfig))
    : prog (discovery_error + option ModelConfig) :=
  match l with
  | [] => Ret (inr None)
  | (name, p) :: rest =>
      if negb (ad_Enabled (Autodiscover p)) || negb (has_prefix alias (Prefix (Autodiscover p)))
      then resolve_loop alias rest
      else
        discoverProvider name p ≫= λ r,
        match r with
        | inl e => Ret (inl e)
        | inr models =>
            match list_find (λ m, dm_Alias m = alias) models with
            | Some (_, m) => Ret (inr (Some (discovered_model name (dm_Model m))))
            | None => Ret (inr None)
            end
        end
  end.

Definition resolveDiscoveredModel (cfg : Config) (alias : string) : prog (discovery_error + option ModelConfig) :=
  resolve_loop alias (map_range (Providers cfg)).
End Discovery.

(** ** Properties *)

(** What a discovery call does to the response body and the cache. *)
Record disc_state := mkDisc { ds_open : bool; ds_requests : nat; ds_puts : list (string * list discoveredModel) }.

Definition disc_step (X : Type) (c : cmd X) (x : X) (s : disc_state) : option disc_state :=
  match c in cmd X return X → option disc_state with
  | Do _ => λ r,
      if ds_open s then None
      else Some (mkDisc (match r with Some _ => true | None => false end) (S (ds_requests s)) (ds_puts s))
  | ReadAll _ => λ _, if ds_open s then Some s else None
  | CloseBody => λ _, if ds_open s then Some (mkDisc false (ds_requests s) (ds_puts s)) else None
  | DiscoveryPut name _ models => λ _, Some (mkDisc (ds_open s) (ds_requests s) (ds_puts s ++ [(name, models)]))
  | DiscoveryGet _ | Getenv _ => λ _, Some s
  | _ => λ _, None
  end x.

Definition well_named (name : string) (p : ProviderConfig) (m : discoveredModel) : Prop :=
  dm_Model m ≠ "" ∧ dm_Alias m = Prefix (Autodiscover p) +:+ dm_Model m ∧ dm_Provider m = name.

Lemma models_of_ids_named name p ids : Forall (well_named name p) (models_of_ids name p ids).
Proof.
  apply Forall_forall. intros m Hm. unfold models_of_ids, sort_models in Hm.
  rewrite merge_sort_Permutation, list_elem_of_fmap in Hm. destruct Hm as (id & -> & Hid).
  apply list_elem_of_filter in Hid as [Hid _]. by split_and!.
Qed.

Section Properties.
Context `{MapOrder}.

Lemma provider_headers_wp {S} (step : ∀ X, cmd X → X → S → option S) h p (Q : string + Header → S → Prop) s :
  (∀ name key s', step _ (Getenv name) key s' = Some s') → (∀ h, Q h s) → wp step (provider_headers h p) Q s.
Proof.
  intros Hg HQ. unfold provider_headers. case_if; [apply HQ|]. cbn. intros key. rewrite Hg. apply HQ.
Qed.

Lemma discoverProvider_wp name p (puts : list (string * list discoveredModel)) n :
  wp disc_step (discoverProvider name p)
    (λ r s, ds_open s = false ∧ (ds_requests s ≤ S n)%nat ∧
      match r with
      | inl _ => ds_puts s = puts
      | inr models => ds_puts s = puts ∧ ds_requests s = n ∨
          ds_puts s = puts ++ [(name, models)] ∧ Forall (well_named name p) models
      end) (mkDisc false n puts).
Proof.
  unfold discoverProvider. cbn. intros [models|]; [cbn; split_and!; [done|lia|by left]|].
  destruct (upstreamURL _ _ _) as [target|]; [|cbn; split_and!; done || lia].
  destruct (NewRequest target); [|cbn; split_and!; done || lia]. cbn [negb].
  apply wp_bind, provider_headers_wp; [done|]. intros [v|h]; [cbn; split_and!; done || lia|].
  cbn. intros [resp|]; [|cbn; split_and!; done || lia].
  unfold read_models. cbn. intros [body|]; [|cbn; intros _; split_and!; done || lia].
  destruct (discoveryResponseLimit <? _); [cbn; intros _; split_and!; done || lia|].
  destruct (_ || _); [cbn; intros _; split_and!; done || lia|].
  destruct (decode_model_list body) as [ids|]; [|cbn; intros _; split_and!; done || lia].
  cbn. intros _ _. cbn. split_and!; [done|lia|]. right. split; [done|apply models_of_ids_named].
Qed.

(** C28: One discovery of a provider sends at most one request, none when the
    cache answers, and closes the response body on every path.  Only a
    successful result is cached, and it is the result that is returned: every
    model has a non-empty name, the provider's prefix in its alias and the
    provider's own name. *)
Theorem discovery_caches_success name p tr r :
  exec (discoverProvider name p) tr r →
  ∃ s, monitor disc_step (mkDisc false 0 []) tr = Some s ∧ ds_open s = false ∧ (ds_requests s ≤ 1)%nat ∧
    match r with
    | inl _ => ds_puts s = []
    | inr models => ds_puts s = [] ∧ ds_requests s = 0%nat ∨
        ds_puts s = [(name, models)] ∧ Forall (well_named name p) models
    end.
Proof.
  intros He. destruct (wp_sound disc_step _ _ _ _ _ (discoverProvider_wp name p [] 0) He) as (s & Hm & Hq).
  by exists s.
Qed.

Definition matches_prefix (alias : string) (p : ProviderConfig) : bool :=
  ad_Enabled (Autodiscover p) && has_prefix alias (Prefix (Autodiscover p)).

Lemma resolve_loop_skip alias l rest :
  Forall (λ np, matches_prefix alias np.2 = false) l → resolve_loop alias (l ++ rest) = resolve_loop alias rest.
Proof.
  induction 1 as [|[name p] l Hm _ IH]; [done|]. cbn [app resolve_loop].
  unfold matches_prefix in Hm. simpl in Hm.
  by rewrite <- negb_andb, Hm.
Qed.

(** C29: When no other discovering provider has a prefix of the alias, the
    resolution of an alias is that provider's, whatever the iteration order of
    the provider map; with no matching provider no request is sent. *)
Theorem resolve_unique cfg alias name p :
  Providers cfg !! name = Some p → matches_prefix alias p = true →
  (∀ name' p', Providers cfg !! name' = Some p' → matches_prefix alias p' = true → name' = name) →
  resolveDiscoveredModel cfg alias
  = discoverProvider name p ≫= λ r,
      match r with
      | inl e => Ret (inl e)
      | inr models =>
          match list_find (λ m, dm_Alias m = alias) models with
          | Some (_, m) => Ret (inr (Some (discovered_model name (dm_Model m))))
          | None => Ret (inr None)
          end
      end.
Proof.
  intros Hp Hm Hu. unfold resolveDiscoveredModel.
  pose proof (proj2 (elem_of_map_range (Providers cfg) name p) Hp) as Hin.
  apply list_elem_of_split in Hin as (l1 & l2 & Hl). rewrite Hl, resolve_loop_skip.
  - cbn [resolve_loop]. unfold matches_prefix in Hm. by rewrite <- negb_andb, Hm.
  - apply Forall_forall. intros [name' p'] Hin'. simpl. destruct (matches_prefix alias p') eqn:Em; [|done].
    exfalso. assert (Hn : name' = name).
    { apply (Hu name' p'); [|done]. apply elem_of_map_range. rewrite Hl. set_solver. }
    subst. pose proof (NoDup_map_range (Providers cfg)) as Hnd. rewrite Hl, fmap_app, fmap_cons in Hnd.
    apply NoDup_app in Hnd as (_ & Hd & _). apply (Hd name); [|set_solver].
    apply list_elem_of_fmap. by exists (name, p').
Qed.
End Properties.

(** An environment with one working provider that lists the model [m]. *)
Definition listing_env : answerer := λ X c,
  match c in cmd X return X with
  | Do _ => Some (mkResponse 200 ∅)
  | ReadAll _ => Some ("{" +:+ Usage.q "data" +:+ ":[{" +:+ Usage.q "id" +:+ ":" +:+ Usage.q "m" +:+ "}]}")
  | c => inert _ c
  end.

Definition discovering (prefix : string) : ProviderConfig :=
  mkProviderConfig "http://h/v1" "openai" "" ∅ (mkAutodiscoverConfig true prefix Minute) zero_Limits 0.

Definition discovery_run :=
  run_with 0 (λ _, listing_env)
    (discoverProvider (H := order_forward) "local" (discovering "local/")).

Lemma discovery_caches_success_witness :
  ∃ s, monitor disc_step (mkDisc false 0 []) discovery_run.1 = Some s ∧
    ds_puts s = [("local", [mkDiscovered "local/m" "m" "local"])].
Proof.
  destruct (discovery_caches_success (H := order_forward) "local" (discovering "local/")
    discovery_run.1 discovery_run.2 (run_with_exec _ _ _)) as (s & Hs & _).
  exists s. split; [exact Hs|]. vm_compute in Hs. injection Hs as <-. reflexivity.
Defined.

Definition overlapping : Config :=
  mkConfig zero_Server {[ "a" := discovering "local/"; "b" := discovering "local/x/" ]} ∅.

Lemma resolve_unique_witness :
  resolveDiscoveredModel (H := order_forward) overlapping "local/m"
  = discoverProvider (H := order_forward) "a" (discovering "local/") ≫= λ r,
      match r with
      | inl e => Ret (inl e)
      | inr models =>
          match list_find (λ m, dm_Alias m = "local/m") models with
          | Some (_, m) => Ret (inr (Some (discovered_model "a" (dm_Model m))))
          | None => Ret (inr None)
          end
      end.
Proof.
  apply (resolve_unique (H := order_forward) overlapping "local/m" "a" (discovering "local/"));
    [reflexivity|reflexivity|].
  intros n p Hp Hm. unfold overlapping in Hp. cbn [Providers] in Hp.
  apply lookup_insert_Some in Hp as [[<- _]|[_ Hp]]; [done|].
  apply lookup_singleton_Some in Hp as [<- <-]. by vm_compute in Hm.
Defined.

(** Only the provider ["b"] serves the model behind ["local/x/m"]. *)
Definition overlap_env : answerer := λ X c,
  match c in cmd X return X with
  | DiscoveryGet name =>
      Some (if bool_decide (name = "b") then [mkDiscovered "local/x/m" "m" "b"] else [])
  | c => inert _ c
  end.

(** Two discovering providers may have prefixes of which one extends the
    other (the validation refuses equal prefixes only); then the iteration
    order of the provider map decides whether an alias of the longer prefix is
    found at all, although the providers answer the same. *)
Theorem overlapping_prefixes_ambiguous :
  ∃ o1 o2 : MapOrder,
    (run_with 0 (λ _, overlap_env) (resolveDiscoveredModel (H := o1) overlapping "local/x/m")).2
    = inr None ∧
    (run_with 0 (λ _, overlap_env) (resolveDiscoveredModel (H := o2) overlapping "local/x/m")).2
    = inr (Some (discovered_model "b" "m")).
Proof. first [exists order_forward, order_backward; vm_compute; by split|exists order_backward, order_forward; vm_compute; by split]. Qed.
