(* ===== verification/DiscoverySpec.v ===== *)
(** * The discovery cache among concurrent requests and reloads

    Any number of lookups run [discoverProvider] at once over one cache, each
    with the configuration that it loaded, while reloads replace the
    configuration and clear the cache.  Every command of a lookup is a step;
    the two that access the cache do so under its lock, all others may answer
    anything. *)

From Stdlib Require Import ZArith Lia.
From S2P Require Import Prelude GoStrings Float64 Http Value Config Limiter ACL Headers Metrics Effects Json Usage NetURL Urls Discovery.

Local Open Scope Z_scope.

(** ** Lookups over one cache *)

(** A lookup: the number of reloads before it loaded its configuration, the
    provider it asks, and its remaining program. *)
Record discovery_call := mkCall {
  dc_gen : nat;
  dc_name : string;
  dc_provider : ProviderConfig;
  dc_prog : prog (discovery_error + list discoveredModel)
}.

(** A store into the cache, as the theorem accounts for it. *)
Record put_record := mkPut {
  put_name : string;
  put_time : Z;
  put_gen : nat;
  put_provider : ProviderConfig;
  put_models : list discoveredModel
}.

(** [d_over] are the configurations of the lookups that were under way at the
    last reload, [d_log] the stores since then, the latest first. *)
Record disc_system := mkSys {
  d_store : discoveryStore;
  d_gen : nat;
  d_over : list nat;
  d_log : list put_record;
  d_calls : list discovery_call
}.

Definition cache_cmd {X} (c : cmd X) : bool :=
  match c with DiscoveryGet _ | DiscoveryPut _ _ _ => true | _ => false end.

Section System.
Context `{MapOrder}.
(** The providers after a number of reloads. *)
Context (conf : nat → gmap string ProviderConfig).

Inductive disc_sys_step : disc_system → disc_system → Prop :=
  | disc_call store g over log ls name p :
      conf g !! name = Some p →
      disc_sys_step (mkSys store g over log ls) (mkSys store g over log (mkCall g name p (discoverProvider name p) :: ls))
  | disc_get now store g over log l1 l2 g' name p n k :
      disc_sys_step (mkSys store g over log (l1 ++ mkCall g' name p (Step (DiscoveryGet n) k) :: l2))
        (mkSys store g over log (l1 ++ mkCall g' name p (k (discoveryStore_get now n store)) :: l2))
  | disc_put now store g over log l1 l2 g' name p n ttl models k :
      disc_sys_step (mkSys store g over log (l1 ++ mkCall g' name p (Step (DiscoveryPut n ttl models) k) :: l2))
        (mkSys (discoveryStore_put now n ttl models store) g over (mkPut n now g' p models :: log)
           (l1 ++ mkCall g' name p (k tt) :: l2))
  | disc_other store g over log l1 l2 g' name p X (c : cmd X) k x :
      cache_cmd c = false →
      disc_sys_step (mkSys store g over log (l1 ++ mkCall g' name p (Step c k) :: l2))
        (mkSys store g over log (l1 ++ mkCall g' name p (k x) :: l2))
  | disc_return store g over log l1 l2 g' name p r :
      disc_sys_step (mkSys store g over log (l1 ++ mkCall g' name p (Ret r) :: l2)) (mkSys store g over log (l1 ++ l2))
  | disc_reload store g over log ls :
      disc_sys_step (mkSys store g over log ls) (mkSys (discoveryStore_clear store) (S g) (dc_gen <$> ls) [] ls).

Definition disc_init : disc_system := mkSys newDiscoveryStore 0 [] [] [].

Definition disc_reachable : disc_system → Prop := rtc disc_sys_step disc_init.

(** ** The invariant *)

(** Every store that a program may make satisfies [P]. *)
Fixpoint all_puts (P : string → Z → list discoveredModel → Prop) {A} (p : prog A) : Prop :=
  match p with
  | Ret _ => True
  | Step c k => match c with DiscoveryPut n ttl models => P n ttl models | _ => True end ∧ ∀ x, all_puts P (k x)
  end.

Lemma all_puts_bind P {A B} (p : prog A) (f : A → prog B) : all_puts P p → (∀ a, all_puts P (f a)) → all_puts P (p ≫= f).
Proof. intros Hp Hf. induction p as [a|X c k IH]; [apply Hf|]. destruct Hp as [Hc Hk]. split; [done|]. intros x. by apply IH. Qed.

(** What a lookup may store: the models of its own provider. *)
Definition own_models (name : string) (p : ProviderConfig) (n : string) (ttl : Z) (models : list discoveredModel) : Prop :=
  n = name ∧ ttl = CacheTTL (Autodiscover p) ∧ Forall (well_named name p) models.

Lemma discoverProvider_puts name p : all_puts (own_models name p) (discoverProvider name p).
Proof.
  unfold discoverProvider. apply all_puts_bind; [by split|]. intros [models|]; [done|].
  destruct (upstreamURL _ _ _) as [target|]; [|done]. destruct (NewRequest target); [|done]. cbn [negb].
  apply all_puts_bind. { unfold provider_headers. case_if; [done|]. by split. }
  intros [v|h]; [done|]. apply all_puts_bind; [by split|]. intros [resp|]; [|done].
  unfold read_models. apply all_puts_bind; [|by split]. apply all_puts_bind; [by split|].
  intros [body|]; [|done]. case_if; [done|]. case_if; [done|]. destruct (decode_model_list body) as [ids|]; [|done].
  apply all_puts_bind; [|done]. split; [|done]. split_and!; [done|done|apply models_of_ids_named].
Qed.

(** The latest store for a provider. *)
Definition latest (name : string) (log : list put_record) : option put_record :=
  head (filter (λ r, put_name r = name) log).

Definition current_or_over (g : nat) (over : list nat) (n : nat) : Prop := n = g ∨ n ∈ over.

Definition call_ok (g : nat) (over : list nat) (l : discovery_call) : Prop :=
  conf (dc_gen l) !! dc_name l = Some (dc_provider l) ∧ all_puts (own_models (dc_name l) (dc_provider l)) (dc_prog l)
  ∧ current_or_over g over (dc_gen l).

Definition put_ok (g : nat) (over : list nat) (r : put_record) : Prop :=
  conf (put_gen r) !! put_name r = Some (put_provider r) ∧ Forall (well_named (put_name r) (put_provider r)) (put_models r)
  ∧ current_or_over g over (put_gen r).

Definition entry_of (r : put_record) : discoveryEntry :=
  mkEntry (put_time r + CacheTTL (Autodiscover (put_provider r))) (put_models r).

Record disc_inv (st : disc_system) : Prop := {
  inv_calls : Forall (call_ok (d_gen st) (d_over st)) (d_calls st);
  inv_log : Forall (put_ok (d_gen st) (d_over st)) (d_log st);
  inv_store : ∀ name, d_store st !! name = entry_of <$> latest name (d_log st)
}.

Lemma disc_inv_step st st' : disc_inv st → disc_sys_step st st' → disc_inv st'.
Proof.
  intros [Hl Hlog Hs] Hstep. destruct Hstep; cbn in *.
  - split; cbn; [|done|done]. constructor; [|done]. split_and!; [done|apply discoverProvider_puts|by left].
  - apply Forall_app in Hl as [Hl1 Hl2]. apply Forall_cons in Hl2 as [(Hc & [_ Hp] & Hg) Hl2].
    split; cbn; [|done|done]. apply Forall_app; split; [done|]. constructor; [|done]. split_and!; [done|apply Hp|done].
  - apply Forall_app in Hl as [Hl1 Hl2]. apply Forall_cons in Hl2 as [(Hc & [Hput Hp] & Hg) Hl2].
    cbn in Hc, Hput, Hg. destruct Hput as (-> & -> & Hm). split; cbn.
    + apply Forall_app; split; [done|]. constructor; [|done]. split_and!; [done|apply Hp|done].
    + constructor; [|done]. by split_and!.
    + intros name'. unfold discoveryStore_put, latest. destruct (decide (name = name')) as [<-|Hne].
      * rewrite lookup_insert_eq, filter_cons_True by done. done.
      * rewrite lookup_insert_ne, filter_cons_False by done. apply Hs.
  - apply Forall_app in Hl as [Hl1 Hl2]. apply Forall_cons in Hl2 as [(Hc & [_ Hp] & Hg) Hl2].
    split; cbn; [|done|done]. apply Forall_app; split; [done|]. constructor; [|done]. split_and!; [done|apply Hp|done].
  - apply Forall_app in Hl as [Hl1 Hl2]. apply Forall_cons in Hl2 as [_ Hl2]. split; cbn; [by apply Forall_app|done|done].
  - split; cbn; [|done|intros name; apply lookup_empty]. apply Forall_forall. intros l Hin.
    rewrite Forall_forall in Hl. destruct (Hl l Hin) as (Hc & Hp & _). split_and!; [done|done|].
    right. by apply list_elem_of_fmap_2.
Qed.

Lemma disc_reachable_inv st : disc_reachable st → disc_inv st.
Proof.
  intros Hr. assert (H0 : disc_inv disc_init) by (by split).
  revert H0. induction Hr as [st|st1 st2 st3 Hstep _ IH]; [done|]. intros Hinv. apply IH. by eapply disc_inv_step.
Qed.

(** C27: Whatever lookups and reloads interleave, the cache answers for a provider
    exactly with the last result stored since the last reload, until its
    lifetime has passed, and that result came from a successful discovery of
    this provider.  The configuration under which it was discovered is the
    current one, unless a lookup was under way at the last reload: such a
    lookup stores its result into the cache that the reload has cleared. *)
Theorem cache_origin st now name :
  disc_reachable st →
  discoveryStore_get now name (d_store st)
  = match latest name (d_log st) with
    | Some r => if put_time r + CacheTTL (Autodiscover (put_provider r)) <? now then None else Some (put_models r)
    | None => None
    end
  ∧ ∀ r, latest name (d_log st) = Some r →
      conf (put_gen r) !! name = Some (put_provider r) ∧ Forall (well_named name (put_provider r)) (put_models r) ∧
      (put_gen r = d_gen st ∨ put_gen r ∈ d_over st).
Proof.
  intros [_ Hlog Hs]%disc_reachable_inv. unfold discoveryStore_get. rewrite Hs. split; [by destruct (latest _ _)|].
  intros r Hr. unfold latest in Hr. apply head_Some_elem_of, list_elem_of_filter in Hr as [<- Hin].
  rewrite Forall_forall in Hlog. by apply Hlog.
Qed.

(** ** Executing a schedule *)

(** One event of a schedule: a call, a step of the latest call, a reload. *)
Inductive disc_action := ActCall (name : string) | ActStep (now : Z) (env : answerer) | ActReload.

(** The next step of a lookup, on the store and the log. *)
Definition call_step (now : Z) (env : answerer) (l : discovery_call) (st : discoveryStore * list put_record)
    : option (prog (discovery_error + list discoveredModel) * (discoveryStore * list put_record)) :=
  match dc_prog l with
  | Ret _ => None
  | Step c k =>
      match c in cmd X return (X → prog (discovery_error + list discoveredModel)) → X → option _ with
      | DiscoveryGet n => λ k _, Some (k (discoveryStore_get now n st.1), st)
      | DiscoveryPut n ttl models => λ k _,
          Some (k tt, (discoveryStore_put now n ttl models st.1, mkPut n now (dc_gen l) (dc_provider l) models :: st.2))
      | _ => λ k x, Some (k x, st)
      end k (env _ c)
  end.

Definition act (a : disc_action) (st : disc_system) : option disc_system :=
  match a with
  | ActCall name =>
      p ← conf (d_gen st) !! name;
      Some (mkSys (d_store st) (d_gen st) (d_over st) (d_log st)
              (mkCall (d_gen st) name p (discoverProvider name p) :: d_calls st))
  | ActStep now env =>
      match d_calls st with
      | [] => None
      | l :: ls =>
          '(p, (store, log)) ← call_step now env l (d_store st, d_log st);
          Some (mkSys store (d_gen st) (d_over st) log (mkCall (dc_gen l) (dc_name l) (dc_provider l) p :: ls))
      end
  | ActReload => Some (mkSys (discoveryStore_clear (d_store st)) (S (d_gen st)) (dc_gen <$> d_calls st) [] (d_calls st))
  end.

Lemma act_sound a st st' : act a st = Some st' → disc_sys_step st st'.
Proof.
  destruct st as [store g over log ls], a as [name|now env|]; cbn [act d_store d_gen d_over d_log d_calls].
  - destruct (conf g !! name) as [p|] eqn:E; [|done]. intros [= <-]. by constructor.
  - destruct ls as [|[g' name p pr] ls]; [done|]. unfold call_step. cbn [dc_prog dc_gen dc_name dc_provider fst snd].
    destruct pr as [r|X c k]; [done|]. destruct c; cbn [mbind option_bind]; intros [= <-];
      first [by apply (disc_get now _ _ _ _ [])|by apply (disc_put now _ _ _ _ [])|by apply (disc_other _ _ _ _ [])].
  - intros [= <-]. constructor.
Qed.

Fixpoint acts (l : list disc_action) (st : disc_system) : option disc_system :=
  match l with [] => Some st | a :: l => st' ← act a st; acts l st' end.

Lemma acts_reachable l st : acts l disc_init = Some st → disc_reachable st.
Proof.
  unfold disc_reachable. generalize disc_init. induction l as [|a l IH]; intros st0; [by intros [= ->]|]. cbn [acts].
  destruct (act a st0) as [st1|] eqn:E; [|done]. intros Hl. eapply rtc_l; [by eapply act_sound|]. by apply IH.
Qed.
End System.

(** A reload changes the prefix of the provider while its models are being
    listed: the old alias is served from the cache for the lifetime that the
    old configuration gave it. *)
Definition renamed (g : nat) : gmap string ProviderConfig :=
  {["local" := discovering (match g with O => "old/" | _ => "new/" end)]}.

Definition stale_schedule : list disc_action :=
  [ActCall "local"; ActStep 0 listing_env; ActStep 0 listing_env; ActStep 0 listing_env; ActReload; ActStep 0 listing_env].

Lemma cache_origin_witness :
  ∃ st, disc_reachable (H := order_forward) renamed st ∧ d_gen st = 1%nat ∧
    discoveryStore_get Minute "local" (d_store st) = Some [mkDiscovered "old/m" "m" "local"] ∧
    ∃ r, latest "local" (d_log st) = Some r ∧ put_gen r = 0%nat ∧ put_gen r ∈ d_over st.
Proof.
  assert (Hst : ∃ st, acts (H := order_forward) renamed stale_schedule disc_init = Some st ∧ d_gen st = 1%nat ∧
    latest "local" (d_log st) = Some (mkPut "local" 0 0 (discovering "old/") [mkDiscovered "old/m" "m" "local"]))
    by (eexists; split; [vm_compute; reflexivity|split; reflexivity]).
  destruct Hst as (st & Hacts & Hgen & Hlog). exists st. pose proof (acts_reachable _ _ _ Hacts) as Hr.
  destruct (cache_origin (H := order_forward) renamed st Minute "local" Hr) as [Hget Horigin].
  split; [exact Hr|]. split; [exact Hgen|]. split.
  - rewrite Hget, Hlog. reflexivity.
  - eexists. split; [exact Hlog|]. split; [reflexivity|].
    destruct (Horigin _ Hlog) as (_ & _ & [Hc|Hover]); [rewrite Hgen in Hc; discriminate|exact Hover].
Defined.
