(* ===== verification/Proxy.v ===== *)
(** * Proxying a request ([proxy] and [doUpstreamRequest] in [gateway.go])

    The handler of [/v1/chat/completions] and [/v1/responses], in the order of
    the source: ingress and client admission, the body, the model, model
    admission, the targets with their attempts, and the relayed response.  Each
    function below is the part of [proxy] inside one [defer]; its deferred calls
    follow it. *)

From Stdlib Require Import ZArith Lia Ascii SpecFloat.
From S2P Require Import Prelude GoStrings Float64 Http Value Config Limiter ACL Headers Payload Buffers Metrics Effects Stream Json Usage NetURL Urls Discovery.

Local Open Scope Z_scope.

Definition Millisecond : Z := 10 ^ 6.

(** ** Pure decisions *)
Definition retryableStatus (status : Z) : bool :=
  bool_decide (status ∈ [StatusRequestTimeout; StatusNotFound; StatusTooManyRequests;
    StatusInternalServerError; StatusBadGateway; StatusServiceUnavailable; StatusGatewayTimeout]).

(** The delay of [waitForRetry]. *)
Definition retryDelay (attempt : Z) : Z := 100 * Millisecond * Z.shiftl 1 (Z.min attempt 4).

Definition waitForRetry (attempt : Z) : prog bool := call (SleepRetry (retryDelay attempt)).

(** ** Logging of requests and responses ([logging.go]) *)
Record configLogging := mkConfigLogging {
  cl_enabled : bool; cl_requests : bool; cl_responses : bool; cl_includeBodies : bool; cl_maxBodyBytes : Z
}.

Definition newConfigLogging (l : LoggingConfig) : configLogging :=
  mkConfigLogging (l_Enabled l) (l_Requests l) (l_Responses l) (l_IncludeBodies l) (l_MaxBodyBytes l).

Section Logging.
Context `{MapOrder}.

Definition logRequest (cfg : configLogging) (r : Request) (model body : string) : prog unit :=
  if negb (cl_enabled cfg) || negb (cl_requests cfg) then Ret tt
  else
    call (LogAttrs "client request"
      [("method", LogStr (Method r)); ("path", LogStr (URL_Path r)); ("model", LogStr model)]
      (loggedHeaders (r_Header r))
      (if cl_includeBodies cfg
       then let '(value, trunc) := boundedLogBody (String.list_ascii_of_string body) (cl_maxBodyBytes cfg) in
            Some (String.string_of_list_ascii value, trunc)
       else None)).

Definition logResponse (cfg : configLogging) (resp : Response) (provider model : string)
    (body : option (logBodyBuffer ascii)) : prog unit :=
  if negb (cl_enabled cfg) || negb (cl_responses cfg) then Ret tt
  else
    call (LogAttrs "provider response"
      [("status", LogInt (StatusCode resp)); ("provider", LogStr provider); ("upstream_model", LogStr model)]
      (loggedHeaders (resp_Header resp))
      (if cl_includeBodies cfg
       then (λ b, (String.string_of_list_ascii (log_buf b), truncated b)) <$> body
       else None)).
End Logging.

(** ** Admission scopes *)
Definition ingress_scopes (cfg : Config) (clientID : string) : list admissionScope :=
  [mkScope "ingress" (mkLimits f64_zero 0 (MaxConcurrentRequests (Server cfg)));
   mkScope ("client:" +:+ clientID) (ClientLimits (Server cfg))].

Definition model_scopes (alias : string) (m : ModelConfig) : list admissionScope :=
  [mkScope ("model:" +:+ alias) (m_Limits m)].

Definition provider_scopes (name : string) (p : ProviderConfig) : list admissionScope :=
  [mkScope ("provider:" +:+ name) (p_Limits p)].

(** The local variables of the target loop that outlive an attempt. *)
Record loop_state := mkLoop { lastErr : bool; providerLimited : bool }.

(** How the attempts on one target end: [continue targetLoop], [break
    targetLoop] without a response, or [break targetLoop] with one. *)
Inductive attempt_exit :=
  | NextTarget (st : loop_state)
  | BreakLoop (st : loop_state)
  | Selected (resp : Response).

(** How the target loop ends. *)
Inductive target_exit :=
  | EncodeFailed
  | NoResponse (st : loop_state)
  | Chosen (candidate : TargetConfig) (resp : Response).

Section Proxy.
Context `{MapOrder}.
(** [strconv.Quote], for one error message. *)
Context (Quote : string → string).
Context (r : Request) (cfg : Config).

Definition queue_timeout : Z := q_WaitTimeout (Queue (Server cfg)).

(** [doUpstreamRequest]; [None] is any of its errors. *)
Definition doUpstreamRequest (p : ProviderConfig) (body : payload) : prog (option Response) :=
  match upstreamURL (BaseURL p) (URL_Path r) (URL_RawQuery r) with
  | None => Ret None
  | Some target =>
      if negb (NewRequest target) then Ret None
      else
        h ← provider_headers (header_Set "Content-Type" "application/json" (copyRequestHeaders ∅ (r_Header r))) p;
        match h with
        | inl _ => Ret None
        | inr h => call (Do (mkOutgoing "POST" target h (Some body)))
        end
  end.

Section Attempts.
Context (m : ModelConfig) (candidate : TargetConfig) (p : ProviderConfig) (body : payload).
Context (hasAnotherTarget : bool).

Definition has_attempt_timeout : bool := 0 <? p_RequestTimeout p.

(** The loop over the attempts on one target; [n] is how many are left. *)
Fixpoint attempt_loop (n : nat) (attempt : Z) (st : loop_state) : prog attempt_exit :=
  match n with
  | O => Ret (NextTarget st)
  | S n =>
      '(allowed, queued) ← call (AdmitWithQueue queue_timeout (provider_scopes (t_Provider candidate) p));
      _ ← when queued (call (Metric AddQueueWaits));
      if negb allowed then
        _ ← call (Log "provider rate limit reached");
        Ret (NextTarget (mkLoop (lastErr st) true))
      else
        _ ← when has_attempt_timeout (call (AttemptTimeout (p_RequestTimeout p)));
        result ← doUpstreamRequest p body;
        attemptErr ← call AttemptErr;
        _ ← call (Metric AddUpstreamRequests);
        match result with
        | None =>
            _ ← when has_attempt_timeout (call CancelAttempt);
            _ ← call (Metric AddUpstreamErrors);
            _ ← call (Release (provider_scopes (t_Provider candidate) p));
            let st := mkLoop true (providerLimited st) in
            _ ← call (Log "provider attempt failed");
            ctxErr ← call CtxErr;
            if bool_decide (is_Some ctxErr) then Ret (BreakLoop st)
            else if has_attempt_timeout && bool_decide (attemptErr = Some DeadlineExceeded)
            then Ret (NextTarget st)
            else if attempt <? Retries m then
              slept ← waitForRetry attempt;
              if negb slept then Ret (BreakLoop st) else attempt_loop n (attempt + 1) st
            else Ret (NextTarget st)
        | Some resp =>
            let retryable := retryableStatus (StatusCode resp) in
            let shouldRetrySame :=
              retryable && negb (StatusCode resp =? StatusTooManyRequests)
              && negb (StatusCode resp =? StatusNotFound) && (attempt <? Retries m) in
            let shouldFailover := retryable && negb shouldRetrySame && hasAnotherTarget in
            if shouldRetrySame || shouldFailover then
              _ ← call (DrainBody (Z.shiftl 64 10));
              _ ← call CloseBody;
              _ ← when has_attempt_timeout (call CancelAttempt);
              _ ← call (Release (provider_scopes (t_Provider candidate) p));
              _ ← call (Log "retryable provider response");
              if shouldRetrySame then
                slept ← waitForRetry attempt;
                if negb slept then Ret (BreakLoop st) else attempt_loop n (attempt + 1) st
              else Ret (NextTarget st)
            else Ret (Selected resp)
        end
  end.
End Attempts.

Definition provider_of (candidate : TargetConfig) : ProviderConfig :=
  map_get zero_Provider (Providers cfg) (t_Provider candidate).

(** The loop over the targets. *)
Fixpoint target_loop (m : ModelConfig) (p : payload) (targets : list TargetConfig) (st : loop_state)
    : prog target_exit :=
  match targets with
  | [] => Ret (NoResponse st)
  | candidate :: rest =>
      let provider := provider_of candidate in
      match Marshal (targetPayload p (URL_Path r) (Protocol provider) (t_Model candidate)) with
      | None =>
          _ ← writeAPIError StatusInternalServerError "could not encode upstream request";
          Ret EncodeFailed
      | Some body =>
          e ← attempt_loop m candidate provider body (negb (bool_decide (rest = [])))
                (Z.to_nat (Retries m + 1)) 0 st;
          match e with
          | NextTarget st => target_loop m p rest st
          | BreakLoop st => Ret (NoResponse st)
          | Selected resp => Ret (Chosen candidate resp)
          end
      end
  end.

(** The reply when no target answered. *)
Definition no_response (clientID alias : string) (st : loop_state) : prog unit :=
  ctxErr ← call CtxErr;
  let '(status, message, limited) :=
    if bool_decide (ctxErr = Some DeadlineExceeded)
    then (StatusGatewayTimeout, "provider request timed out", false)
    else if providerLimited st && negb (lastErr st)
    then (StatusTooManyRequests, "all provider targets are rate limited", true)
    else (StatusBadGateway, "all provider targets failed", false) in
  _ ← when limited (call (SetHeader "Retry-After" "1"));
  _ ← call (RecordUsage clientID alias status "");
  writeAPIError status message.

Definition is_event_stream (resp : Response) : bool :=
  contains (header_Get (resp_Header resp) "Content-Type") "text/event-stream".

(** The relayed response, from [completed.Add(1)] to the deferred calls. *)
Definition relay (clientID alias : string) (candidate : TargetConfig) (resp : Response) : prog unit :=
  let provider := provider_of candidate in
  let logCfg := newConfigLogging (Logging (Server cfg)) in
  let idle := WriteIdleTimeout (Server cfg) in
  let sse := is_event_stream resp in
  _ ← call (Metric AddCompleted);
  _ ← call (AddHeaders (copyResponseHeaders ∅ (resp_Header resp)));
  _ ← call (WriteHeader (StatusCode resp));
  let responseLog :=
    if cl_enabled logCfg && cl_responses logCfg && cl_includeBodies logCfg
    then Some (newLogBodyBuffer (cl_maxBodyBytes logCfg)) else None in
  '(taps, copyErr) ← io_Copy sse idle (mkTaps (newTail usageCaptureLimit) responseLog);
  _ ← call (RecordUsage clientID alias (StatusCode resp) (String.string_of_list_ascii (tail_Bytes (capture taps))));
  _ ← logResponse logCfg resp (t_Provider candidate) (t_Model candidate) (Stream.responseLog taps);
  _ ← call LoadTrusted;
  _ ← call (Log "request complete");
  _ ← when copyErr (call (Log "stream provider response"));
  _ ← when (sse && (0 <? idle)) (call ClearWriteDeadline);
  _ ← call CloseBody;
  _ ← when (0 <? p_RequestTimeout provider) (call CancelAttempt);
  call (Release (provider_scopes (t_Provider candidate) provider)).

(** The part of [proxy] that holds the model's scope; the result is the
    variable [completed]. *)
Definition proxy_targets (clientID alias : string) (m : ModelConfig) (p : payload) : prog bool :=
  match applySystemPrompt p (URL_Path r) (PrependSystemPrompt m) (AppendSystemPrompt m) with
  | inl _ => _ ← writeAPIError StatusBadRequest "messages must be an array"; Ret false
  | inr p' =>
      e ← target_loop m (applyRequestOverrides p' (Overrides m)) (ResolvedTargets m) (mkLoop false false);
      match e with
      | EncodeFailed => Ret false
      | NoResponse st => _ ← no_response clientID alias st; Ret false
      | Chosen candidate resp => _ ← relay clientID alias candidate resp; Ret true
      end
  end.

Definition reject_limited : prog unit :=
  _ ← call (Metric AddQueueRejected); writeRateLimitError.

Definition proxy_model (clientID alias : string) (m : ModelConfig) (p : payload) : prog bool :=
  '(admitted, queued) ← call (AdmitWithQueue queue_timeout (model_scopes alias m));
  _ ← when queued (call (Metric AddQueueWaits));
  if negb admitted then
    _ ← call (Metric AddQueueRejected);
    _ ← call (RecordUsage clientID alias StatusTooManyRequests "");
    _ ← writeRateLimitError;
    Ret false
  else
    completed ← proxy_targets clientID alias m p;
    _ ← call (Release (model_scopes alias m));
    Ret completed.

(** The configured model of an alias, or a discovered one; [None] when the
    reply has been written. *)
Definition proxy_resolve (alias : string) : prog (option ModelConfig) :=
  match Models cfg !! alias with
  | Some m => Ret (Some m)
  | None =>
      found ← resolveDiscoveredModel cfg alias;
      match found with
      | inl _ =>
          _ ← call (Log "model autodiscovery failed");
          _ ← writeAPIError StatusBadGateway "could not query provider models";
          Ret None
      | inr None =>
          _ ← writeAPIError StatusNotFound ("unknown model " +:+ Quote alias);
          Ret None
      | inr (Some m) => Ret (Some m)
      end
  end.

(** The part of [proxy] that holds the ingress and client scopes. *)
Definition proxy_body (clientID : string) : prog bool :=
  body ← call (ReadBody (MaxRequestBytes (Server cfg)));
  match body with
  | None => _ ← writeAPIError StatusRequestEntityTooLarge "request body is too large"; Ret false
  | Some body =>
      match Unmarshal_payload body with
      | None => _ ← writeAPIError StatusBadRequest "request body must be valid JSON"; Ret false
      | Some p =>
          let alias := default "" (as_string (p !! "model")) in
          if bool_decide (alias = "") then
            _ ← writeAPIError StatusBadRequest "model must be a string"; Ret false
          else
            _ ← logRequest (newConfigLogging (Logging (Server cfg))) r alias body;
            m ← proxy_resolve alias;
            match m with
            | None => Ret false
            | Some m => proxy_model clientID alias m p
            end
      end
  end.

Definition proxy_ingress : prog bool :=
  trusted ← call LoadTrusted;
  let clientID := clientIdentity r trusted in
  '(admitted, queued) ← call (AdmitWithQueue queue_timeout (ingress_scopes cfg clientID));
  _ ← when queued (call (Metric AddQueueWaits));
  if negb admitted then _ ← reject_limited; Ret false
  else
    completed ← proxy_body clientID;
    _ ← call (Release (ingress_scopes cfg clientID));
    Ret completed.

Definition proxy : prog unit :=
  started ← call Now;
  _ ← call (Metric AddRequests);
  _ ← call (Metric (AddActive 1));
  let has_timeout := 0 <? s_RequestTimeout (Server cfg) in
  _ ← when has_timeout (call (WithTimeout (s_RequestTimeout (Server cfg))));
  completed ← proxy_ingress;
  _ ← when has_timeout (call CancelCtx);
  _ ← call (Metric (AddActive (-1)));
  ended ← call Now;
  _ ← call (Metric (AddDuration (ended - started)));
  when (negb completed) (call (Metric AddFailed)).
End Proxy.
