(* ===== verification/StreamSpec.v ===== *)
(** * What the client receives

    A monitor follows one relayed response: what was read from the provider,
    what was handed to the client, when the write deadline was set and when the
    data was flushed. *)

From Stdlib Require Import ZArith Lia Ascii.
From S2P Require Import Prelude GoStrings Http Value Config Buffers Effects Stream Usage Discovery Proxy.

Local Open Scope Z_scope.

Definition bytes (s : string) : list ascii := String.list_ascii_of_string s.

(** ** The monitor *)

(** [s_read] and [s_written] are all the bytes so far; [s_armed] says that the
    deadline set last has not been used by a write yet, [s_unflushed] that data
    may still be in a buffer of the server. *)
Record stream_state := mkStream {
  s_read : list ascii;
  s_written : list ascii;
  s_ended : option bool;
  s_now : option Z;
  s_armed : bool;
  s_unflushed : bool;
  s_recorded : bool;
  s_cleared : bool;
  s_reported : bool
}.

Definition stream_start : stream_state := mkStream [] [] None None false false false false false.

Section monitor.
Context (sse : bool) (idle : Z) (logLimit : Z).

(** Every write is of exactly the bytes read and not yet written; on an event
    stream it has a fresh deadline and is flushed before the next read; usage
    is recorded once, from the last bytes read, and the log line carries the first. *)
Definition stream_step (X : Type) (c : cmd X) (x : X) (s : stream_state) : option stream_state :=
  let '(mkStream rd wr e now armed unflushed recorded cleared reported) := s in
  let require (b : bool) s := if b then Some s else None in
  match c in cmd X return X → option stream_state with
  | ReadChunk => λ p,
      require (bool_decide (wr = rd) && negb (unflushed && sse))
        (mkStream (rd ++ bytes p) wr e now armed unflushed recorded cleared reported)
  | BodyEnd => λ failed,
      require (bool_decide (wr = rd) && negb (unflushed && sse))
        (mkStream rd wr (Some failed) now armed unflushed recorded cleared reported)
  | Now => λ t, Some (mkStream rd wr e (Some t) armed unflushed recorded cleared reported)
  | SetWriteDeadline t => λ _,
      require (bool_decide (now = Some (t - idle))) (mkStream rd wr e now true unflushed recorded cleared reported)
  | WriteBody p => λ r,
      require (bool_decide (wr ++ bytes p = rd) && (armed || negb (sse && (0 <? idle))))
        (mkStream rd (wr ++ take (Z.to_nat r.1) (bytes p)) e now false true recorded cleared reported)
  | CanFlush => λ can, Some (mkStream rd wr e now armed (unflushed && can) recorded cleared reported)
  | Flush => λ _, Some (mkStream rd wr e now armed false recorded cleared reported)
  | RecordUsage _ _ _ body => λ _,
      require (bool_decide (bytes body = last_n usageCaptureLimit rd) && negb recorded)
        (mkStream rd wr e now armed unflushed true cleared reported)
  | LogAttrs _ _ _ body => λ _,
      require (match body with
               | Some (value, trunc) =>
                   (logLimit <=? 0)
                   || bool_decide (bytes value = take (Z.to_nat logLimit) rd) && Bool.eqb trunc (logLimit <? len rd)
               | None => true
               end) s
  | ClearWriteDeadline => λ _, Some (mkStream rd wr e now armed unflushed recorded true reported)
  | Log message => λ _,
      Some (mkStream rd wr e now armed unflushed recorded cleared
              (reported || bool_decide (message = "stream provider response")))
  | _ => λ _, Some s
  end x.
End monitor.

(** Reduce the projections and the monitor, and nothing else. *)
Ltac stream_simpl :=
  cbn [s_read s_written s_ended s_now s_armed s_unflushed s_recorded s_cleared s_reported stream_step
       fst snd andb negb orb wp] in *.

(** ** The buffers behind the readers *)

Definition taps_ok (logLimit : Z) (t : taps) (rd : list ascii) : Prop :=
  capture t = mkTail (last_n usageCaptureLimit rd) usageCaptureLimit ∧
  ∀ b, responseLog t = Some b → 0 < logLimit → b = log_state logLimit rd.

Lemma bytes_nonempty p : p ≠ "" → bytes p ≠ [].
Proof. by destruct p. Qed.

Lemma bytes_length p : Z.of_nat (String.length p) = len (bytes p).
Proof. unfold len, bytes. f_equal. induction p as [|a p IH]; [done|]. simpl. by rewrite IH. Qed.

Lemma bytes_string l : bytes (String.string_of_list_ascii l) = l.
Proof. apply String.list_ascii_of_string_of_list_ascii. Qed.

Lemma taps_ok_start logLimit (log : bool) :
  taps_ok logLimit (mkTaps (newTail usageCaptureLimit)
    (if log then Some (newLogBodyBuffer logLimit) else None)) [].
Proof.
  split; [done|]. cbn [responseLog]. intros b. destruct log; [|done]. intros [= <-] Hl.
  unfold log_state, newLogBodyBuffer. rewrite take_nil. f_equal. symmetry. apply Z.ltb_ge. unfold len. simpl. lia.
Qed.

Lemma taps_ok_tee logLimit t rd p : p ≠ "" → taps_ok logLimit t rd → taps_ok logLimit (tee t p) (rd ++ bytes p).
Proof.
  intros Hp [Hc Hb]. split; cbn [tee capture responseLog].
  - rewrite Hc, tail_Write_last; cbn [tail_buf tail_limit]; [|done|].
    + by rewrite last_n_app.
    + rewrite last_n_len by done. lia.
  - intros b. destruct (responseLog t) as [b0|]; [|done]. intros [= <-] Hl.
    rewrite (Hb b0 eq_refl Hl). apply log_Write_state; [done|by apply bytes_nonempty].
Qed.

(** ** The copy *)
Section copy.
Context (sse : bool) (idle logLimit : Z).

Abbreviation wps := (wp (stream_step sse idle logLimit)).

(** Between two chunks everything read has been written. *)
Definition in_step (s : stream_state) (rd : list ascii) : Prop :=
  s_read s = rd ∧ s_written s = rd ∧ s_ended s = None ∧ (s_unflushed s && sse = false) ∧
  s_recorded s = false ∧ s_cleared s = false ∧ s_reported s = false.

(** After the copy: [failed] is its error. *)
Definition copied (failed : bool) (t : taps) (s : stream_state) : Prop :=
  taps_ok logLimit t (s_read s) ∧ s_written s `prefix_of` s_read s ∧
  (failed = false → s_ended s = Some false ∧ s_written s = s_read s) ∧
  s_recorded s = false ∧ s_cleared s = false ∧ s_reported s = false.

(** A write of what was just read. *)
Lemma destination_Write_wps p rd s :
  s_read s = rd ++ bytes p → s_written s = rd → s_ended s = None →
  s_recorded s = false → s_cleared s = false → s_reported s = false →
  wps (destination_Write sse idle p) (λ r s',
    s_read s' = rd ++ bytes p ∧ s_written s' `prefix_of` s_read s' ∧
    s_recorded s' = false ∧ s_cleared s' = false ∧ s_reported s' = false ∧
    (r.2 = false → r.1 = len (bytes p) → in_step s' (rd ++ bytes p))) s.
Proof.
  intros Hrd Hwr He Hrec Hcl Hrep. destruct s as [rd0 wr e now armed unf rec cl rep]. cbn in *. subst.
  assert (Hpre : ∀ n : Z, rd ++ take (Z.to_nat n) (bytes p) `prefix_of` rd ++ bytes p).
  { intros n. apply prefix_app. exists (drop (Z.to_nat n) (bytes p)). by rewrite take_drop. }
  assert (Hall : take (Z.to_nat (len (bytes p))) (bytes p) = bytes p).
  { unfold len. rewrite Nat2Z.id. by apply take_ge. }
  unfold destination_Write. destruct sse eqn:Esse; cycle 1.
  { intros [n err]. cbn [stream_step andb negb orb]. rewrite orb_true_r, bool_decide_eq_true_2 by done. cbn.
    split_and!; try done. intros -> ->. unfold in_step. cbn. rewrite Hall. by split_and!. }
  assert (Hw : ∀ now' armed', armed' || negb (0 <? idle) = true →
    wp (stream_step true idle logLimit) ('(n, err) ← call (WriteBody p); flusher ← call CanFlush; _ ← when flusher (call Flush); Ret (n, err))
      (λ r s', s_read s' = rd ++ bytes p ∧ s_written s' `prefix_of` s_read s' ∧
        s_recorded s' = false ∧ s_cleared s' = false ∧ s_reported s' = false ∧
        (r.2 = false → r.1 = len (bytes p) → in_step s' (rd ++ bytes p)))
      (mkStream (rd ++ bytes p) rd None now' armed' unf false false false)).
  { intros now' armed' Ha. apply wp_bind. intros [n err]. cbn [stream_step andb].
    rewrite bool_decide_eq_true_2, Ha by done. cbn [andb]. apply wp_bind. intros can. cbn [stream_step].
    apply wp_bind. assert (Hend : ∀ s', s_read s' = rd ++ bytes p → s_written s' = rd ++ take (Z.to_nat n) (bytes p) →
      s_ended s' = None → s_unflushed s' = false → s_recorded s' = false → s_cleared s' = false → s_reported s' = false →
      s_read s' = rd ++ bytes p ∧ s_written s' `prefix_of` s_read s' ∧
        s_recorded s' = false ∧ s_cleared s' = false ∧ s_reported s' = false ∧
        (err = false → n = len (bytes p) → in_step s' (rd ++ bytes p))).
    { intros s' H1 H2 H3 H4 H5 H6 H7. rewrite H1, H2. split_and!; try done. intros _ ->.
      unfold in_step. rewrite H1, H2, H4, Hall. by split_and!. }
    destruct can; [intros []; cbn [stream_step]|]; by apply Hend. }
  unfold flushWriter_Write. cbv zeta. destruct (0 <? idle) eqn:Ei; [|apply Hw; by destruct armed].
  apply wp_bind. intros t. cbn [stream_step]. apply wp_bind. intros set. cbn [stream_step].
  rewrite bool_decide_eq_true_2 by (f_equal; lia). destruct set; [by apply Hw..|].
  cbn. split_and!; try done. by apply prefix_app_r.
Qed.

Lemma copy_loop_wps n t rd s :
  taps_ok logLimit t rd → in_step s rd →
  wps (copy_loop sse idle n t) (λ r s', copied r.2 r.1 s') s.
Proof.
  revert t rd s. induction n as [|n IH]; intros t rd s Ht Hs; cbn [copy_loop].
  - destruct s as [rd0 wr e now armed unf rec cl rep]. destruct Hs as (?&?&?&Hf&?&?&?). stream_simpl. subst.
    apply wp_bind. intros failed. cbn [stream_step]. rewrite bool_decide_eq_true_2, Hf by done. stream_simpl.
    unfold copied. stream_simpl. split_and!; try done. by intros ->.
  - apply wp_bind. intros p. destruct s as [rd0 wr e now armed unf rec cl rep].
    destruct Hs as (?&?&?&Hf&?&?&?). stream_simpl. subst. rewrite bool_decide_eq_true_2, Hf by done. stream_simpl.
    case_bool_decide as Hp.
    + subst p. apply (IH t rd); [done|]. unfold in_step. stream_simpl. rewrite app_nil_r. by split_and!.
    + apply wp_bind. eapply wp_mono; [by apply (destination_Write_wps p rd)|].
      intros [nw failed] s' (Hrd & Hpre & Hrec & Hcl & Hrep & Hok). cbn [fst snd] in Hok.
      pose proof (taps_ok_tee logLimit t rd p Hp Ht) as Ht'. rewrite bytes_length.
      destruct (failed || negb (nw =? len (bytes p))) eqn:Ef.
      * unfold copied. stream_simpl. rewrite Hrd. rewrite Hrd in Hpre. by split_and!.
      * bool_to_prop. apply (IH (tee t p) (rd ++ bytes p)); [done|by apply Hok].
Qed.

Lemma io_Copy_wps t s :
  taps_ok logLimit t [] → in_step s [] → wps (io_Copy sse idle t) (λ r s', copied r.2 r.1 s') s.
Proof.
  intros Ht Hs. apply wp_bind. intros n. destruct s. by apply (copy_loop_wps n t []).
Qed.
End copy.

(** ** The relayed response *)

(** The end of [relay]: what was copied is recorded, and failures reported. *)
Definition relayed (sse : bool) (idle : Z) (s : stream_state) : Prop :=
  s_written s `prefix_of` s_read s ∧
  (s_reported s = false → s_ended s = Some false ∧ s_written s = s_read s) ∧
  s_recorded s = true ∧ (sse && (0 <? idle) = true → s_cleared s = true).

Section relay.
Context `{MapOrder}.
Context (cfg : Config) (clientID alias : string) (candidate : TargetConfig) (resp : Response).

Definition relay_step : ∀ X, cmd X → X → stream_state → option stream_state :=
  stream_step (is_event_stream resp) (WriteIdleTimeout (Server cfg)) (l_MaxBodyBytes (Logging (Server cfg))).

Abbreviation wpr := (wp relay_step).

(** The log line of the response carries the first bytes of it. *)
Lemma logResponse_wps provider model t (Q : unit → stream_state → Prop) s :
  taps_ok (l_MaxBodyBytes (Logging (Server cfg))) t (s_read s) → Q tt s →
  wpr (logResponse (newConfigLogging (Logging (Server cfg))) resp provider model (responseLog t)) Q s.
Proof.
  intros [_ Hb] HQ. unfold logResponse. destruct (_ || _); [done|]. intros [].
  destruct s as [rd wr e now armed unf rec cl rep]. cbn [stream_step relay_step s_read] in *.
  assert (Hreq : match (if cl_includeBodies (newConfigLogging (Logging (Server cfg)))
      then (λ b, (String.string_of_list_ascii (log_buf b), truncated b)) <$> responseLog t else None) with
    | Some (value, trunc) =>
        (l_MaxBodyBytes (Logging (Server cfg)) <=? 0)
        || bool_decide (bytes value = take (Z.to_nat (l_MaxBodyBytes (Logging (Server cfg)))) rd)
           && Bool.eqb trunc (l_MaxBodyBytes (Logging (Server cfg)) <? len rd)
    | None => true
    end = true); [|unfold relay_step; cbn [stream_step]; by rewrite Hreq].
  destruct (cl_includeBodies _); [|done]. destruct (responseLog t) as [b|]; [|done]. cbn.
  destruct (Z.leb_spec (l_MaxBodyBytes (Logging (Server cfg))) 0) as [|Hl]; [done|]. cbn.
  rewrite (Hb b eq_refl Hl). cbn. rewrite bool_decide_eq_true_2 by apply bytes_string. by rewrite eqb_reflx.
Qed.

Lemma relay_wps :
  wpr (relay cfg clientID alias candidate resp)
    (λ _ s, relayed (is_event_stream resp) (WriteIdleTimeout (Server cfg)) s) stream_start.
Proof.
  unfold relay. cbv zeta.
  do 3 (apply wp_bind, wp_skip; [by intros ?|]; intros _).
  apply wp_bind. eapply wp_mono; [apply io_Copy_wps; [apply taps_ok_start|by split_and!]|].
  intros [t failed] s (Ht & Hpre & Hend & Hrec & Hcl & Hrep). cbn [fst snd] in *.
  destruct s as [rd wr e now armed unf rec cl rep]. stream_simpl. subst.
  apply wp_bind. intros []. cbn [relay_step stream_step]. unfold relay_step; cbn [stream_step].
  rewrite (proj1 Ht). unfold tail_Bytes. cbn [tail_buf].
  rewrite bool_decide_eq_true_2 by apply bytes_string. cbn [andb negb].
  apply wp_bind, logResponse_wps; [done|].
  apply wp_bind, wp_skip; [by intros ?|]. intros _. apply wp_bind. intros [].
  unfold relay_step; cbn [stream_step]. rewrite (bool_decide_eq_false_2 (_ = _)) by done. cbn [orb].
  apply wp_bind. destruct failed; cbn [when].
  - intros []. cbn [stream_step]. rewrite (bool_decide_eq_true_2 (_ = _)) by done.
    apply wp_bind. unfold when at 1. destruct (_ && _) eqn:Es; [intros []; cbn [stream_step]|];
      (apply wp_bind, wp_skip; [by intros ?|]; intros _; apply wp_bind, wp_when_skip; [by intros ?|];
       apply wp_skip; [by intros ?|]; intros _; unfold relayed; cbn; rewrite ?Es; by split_and!).
  - destruct (Hend eq_refl) as [-> ->].
    apply wp_bind. unfold when at 1. destruct (_ && _) eqn:Es; [intros []; cbn [stream_step]|];
      (apply wp_bind, wp_skip; [by intros ?|]; intros _; apply wp_bind, wp_when_skip; [by intros ?|];
       apply wp_skip; [by intros ?|]; intros _; unfold relayed; cbn; rewrite ?Es; by split_and!).
Qed.
End relay.

(** ** Properties *)

(** C4: The relay is transparent.  Whatever the provider sends, in whatever
    pieces, and however the client takes it, the client is given exactly the
    bytes of the provider, in order and without gaps: every write is of the
    bytes read last, after everything before was written.  On an event stream
    every write has a fresh deadline, the data is flushed before the next read,
    and the deadline is cleared at the end.  The usage is extracted once, from
    exactly the last bytes relayed, and a logged body is its first bytes.  An
    answer that the client did not get whole is reported. *)
Theorem relay_transparent `{MapOrder} cfg clientID alias candidate resp tr u :
  exec (relay cfg clientID alias candidate resp) tr u →
  ∃ s, monitor (relay_step cfg resp) stream_start tr = Some s ∧
    relayed (is_event_stream resp) (WriteIdleTimeout (Server cfg)) s.
Proof.
  intros He. apply (wp_sound (relay_step cfg resp) _ _ _ _ _ (relay_wps cfg clientID alias candidate resp) He).
Qed.

(** Three chunks on an event stream; the client is gone after the second. *)
Definition hangs_up : nat → answerer := λ n X c,
  match c in cmd X return X with
  | BodyReads => 3%nat
  | ReadChunk => "data"
  | WriteBody p => if (n <? 12)%nat then (4, false) else (2, true)
  | c => inert _ c
  end.

Definition stream_config : Config :=
  mkConfig (mkServerConfig "" [] "" 0 zero_Limits 0 0 0 0 5 0 0 0 (mkQueueConfig None 0 0)
    (mkLoggingConfig true false true true 6) [] []) ∅ ∅.

Definition stream_response : Response := mkResponse 200 {[ "Content-Type" := ["text/event-stream"] ]}.

Definition relay_run :=
  run_with 0 hangs_up (relay (H := order_forward) stream_config "key:00" "m" (mkTargetConfig "a" "m1") stream_response).

Lemma relay_transparent_witness :
  ∃ s, monitor (relay_step stream_config stream_response) stream_start relay_run.1 = Some s ∧
    s_read s = bytes "datadata" ∧ s_written s = bytes "datada" ∧ s_reported s = true ∧ s_cleared s = true.
Proof.
  destruct (relay_transparent (H := order_forward) stream_config "key:00" "m" (mkTargetConfig "a" "m1")
    stream_response relay_run.1 relay_run.2 (run_with_exec _ _ _)) as (s & Hm & _).
  exists s. split; [exact Hm|]. vm_compute in Hm. injection Hm as <-. by split_and!.
Defined.
