(* ===== verification/ProxySpec.v ===== *)
(** * What [proxy] guarantees

    Against every environment - clients, providers, clocks, contexts and other
    requests may answer its commands in any way - each run of the handler
    releases what it acquired, writes one response and accounts for the request
    once; and its requests to providers follow the failover policy. *)

From Stdlib Require Import ZArith Lia Ascii.
From S2P Require Import Prelude GoStrings Float64 Http Value Config Limiter ACL Headers Payload Buffers Metrics Effects Stream Json Encoding Usage NetURL Urls Discovery Proxy.

Local Open Scope Z_scope.

(** ** The resource discipline *)

(** Where a run stands: the admissions it holds (last first), whether an
    upstream body is open, the committed status, and what it counted. *)
Record run_state := mkRun {
  held : list (list admissionScope);
  body_open : bool;
  committed : option Z;
  n_requests : Z;
  n_active : Z;
  n_completed : Z;
  n_failed : Z;
  n_records : Z
}.

Definition run_start : run_state := mkRun [] false None 0 0 0 0 0.

(** Nothing may be sent upstream, and no header set, once the status is
    committed; admissions are released in the opposite order, and never while
    an upstream body is open for them; during a backoff only the ingress and
    the model admissions are held, no provider's.  The configuration and the
    access list are not read again. *)
Definition run_step (X : Type) (c : cmd X) (x : X) (s : run_state) : option run_state :=
  let '(mkRun h o st nr na nc nf nu) := s in
  let uncommitted := match st with None => true | Some _ => false end in
  let keep := Some s in
  match c in cmd X return X → option run_state with
  | AdmitWithQueue _ scopes => λ a,
      if uncommitted && negb o
      then Some (mkRun (if a.1 then scopes :: h else h) o st nr na nc nf nu) else None
  | Release scopes => λ _,
      match h with
      | top :: rest =>
          if bool_decide (top = scopes) && negb o then Some (mkRun rest o st nr na nc nf nu) else None
      | [] => None
      end
  | Do _ => λ resp,
      if uncommitted && negb o
      then Some (mkRun h (match resp with Some _ => true | None => false end) st nr na nc nf nu) else None
  | SleepRetry _ => λ _, if uncommitted && negb o && (length h =? 2)%nat then keep else None
  | DrainBody _ | ReadAll _ => λ _, if o && uncommitted then keep else None
  | ReadChunk => λ _, if o && negb uncommitted then keep else None
  | BodyEnd => λ _, if o && negb uncommitted then keep else None
  | WriteBody _ => λ _, if uncommitted then None else keep
  | CloseBody => λ _, if o then Some (mkRun h false st nr na nc nf nu) else None
  | SetHeader _ _ | AddHeaders _ => λ _, if uncommitted then keep else None
  | WriteHeader status => λ _, if uncommitted then Some (mkRun h o (Some status) nr na nc nf nu) else None
  | WriteReply _ => λ _, if uncommitted then None else keep
  | Metric AddRequests => λ _, Some (mkRun h o st (nr + 1) na nc nf nu)
  | Metric (AddActive d) => λ _, Some (mkRun h o st nr (na + d) nc nf nu)
  | Metric AddCompleted => λ _, Some (mkRun h o st nr na (nc + 1) nf nu)
  | Metric AddFailed => λ _, Some (mkRun h o st nr na nc (nf + 1) nu)
  | RecordUsage _ _ _ _ => λ _, Some (mkRun h o st nr na nc nf (nu + 1))
  | LoadConfig => λ _, None
  | LoadACL => λ _, None
  | _ => λ _, keep
  end x.

(** Simplify one step of the monitor. *)
Ltac run_simpl := cbn [run_step andb negb orb fst snd].

Section Discipline.
Context `{MapOrder}.
Context (Quote : string → string) (r : Request) (cfg : Config).

(** A run between two commands of the target loop. *)
Definition idle (h : list (list admissionScope)) (na nr nu : Z) : run_state := mkRun h false None nr na 0 0 nu.

Abbreviation wpr := (wp run_step).

Lemma wp_call {X} (c : cmd X) (Q : X → run_state → Prop) s :
  (∀ x, match run_step X c x s with Some s' => Q x s' | None => False end) → wpr (call c) Q s.
Proof. done. Qed.

Lemma wp_when b (p : prog unit) (Q : unit → run_state → Prop) s :
  (b = true → wpr p Q s) → (b = false → Q tt s) → wpr (when b p) Q s.
Proof. destruct b; simpl; auto. Qed.

(** A command that does not move the monitor. *)
Definition neutral {X} (c : cmd X) : Prop := ∀ x s, run_step X c x s = Some s.

Lemma wp_neutral {X} (c : cmd X) (Q : X → run_state → Prop) s :
  neutral c → (∀ x, Q x s) → wpr (call c) Q s.
Proof. intros Hn HQ. apply wp_call. intros x. by rewrite Hn. Qed.

Lemma wp_when_neutral b (c : cmd unit) (Q : unit → run_state → Prop) s :
  neutral c → Q tt s → wpr (when b (call c)) Q s.
Proof. intros Hn HQ. apply wp_when; [|done]. intros _. apply wp_neutral; [done|]. by intros []. Qed.

Lemma doUpstreamRequest_wp p body (Q : option Response → run_state → Prop) h na nr nu :
  Q None (idle h na nr nu) → (∀ resp, Q (Some resp) (mkRun h true None nr na 0 0 nu)) →
  wpr (doUpstreamRequest r p body) Q (idle h na nr nu).
Proof.
  intros HN HS. unfold doUpstreamRequest. destruct (upstreamURL _ _ _) as [target|]; [|done].
  destruct (NewRequest target); [|done]. cbn [negb].
  apply wp_bind, provider_headers_wp; [by intros ? ? []|]. intros [v|hd]; [done|].
  apply wp_call. intros [resp|]; run_simpl; [|done]. apply HS.
Qed.

Lemma attempt_loop_wp m candidate p body another h na nr nu n attempt st :
  length h = 2%nat →
  wpr (attempt_loop r cfg m candidate p body another n attempt st)
    (λ e s', match e with
             | Selected _ => s' = mkRun (provider_scopes (t_Provider candidate) p :: h) true None nr na 0 0 nu
             | _ => s' = idle h na nr nu
             end) (idle h na nr nu).
Proof.
  intros Hh. revert attempt st. induction n as [|n IH]; intros attempt st; [done|]. cbn [attempt_loop].
  apply wp_bind, wp_call. intros [allowed queued]. unfold idle; run_simpl.
  apply wp_bind, wp_when_neutral; [by intros ? []|].
  destruct allowed; cbn [negb]; [|apply wp_bind, wp_neutral; [by intros ? []|done]].
  apply wp_bind, wp_when_neutral; [by intros ? []|].
  apply wp_bind, doUpstreamRequest_wp.
  - apply wp_bind, wp_neutral; [by intros ? []|]. intros attemptErr.
    apply wp_bind, wp_neutral; [by intros ? []|]. intros _.
    apply wp_bind, wp_when_neutral; [by intros ? []|].
    apply wp_bind, wp_neutral; [by intros ? []|]. intros _.
    apply wp_bind, wp_call. intros []. unfold idle. run_simpl. rewrite bool_decide_eq_true_2 by done. run_simpl.
    apply wp_bind, wp_neutral; [by intros ? []|]. intros _.
    apply wp_bind, wp_neutral; [by intros ? []|]. intros ctxErr.
    destruct (bool_decide (is_Some ctxErr)); [done|].
    destruct (_ && _); [done|]. destruct (attempt <? Retries m); [|done].
    apply wp_bind, wp_call. intros slept. unfold idle. run_simpl. rewrite Hh. cbn [Nat.eqb]. destruct slept; [apply IH|done].
  - intros resp. apply wp_bind, wp_neutral; [by intros ? []|]. intros attemptErr.
    apply wp_bind, wp_neutral; [by intros ? []|]. intros _.
    set (same := _ && (attempt <? Retries m)).
    destruct (same || _); [|done].
    apply wp_bind, wp_call. intros []. unfold idle. unfold idle; run_simpl.
    apply wp_bind, wp_call. intros []. unfold idle. unfold idle; run_simpl.
    apply wp_bind, wp_when_neutral; [by intros ? []|].
    apply wp_bind, wp_call. intros []. unfold idle. run_simpl. rewrite bool_decide_eq_true_2 by done. run_simpl.
    apply wp_bind, wp_neutral; [by intros ? []|]. intros _.
    destruct same; [|done].
    apply wp_bind, wp_call. intros slept. unfold idle. run_simpl. rewrite Hh. cbn [Nat.eqb]. destruct slept; [apply IH|done].
Qed.

(** A run that has replied. *)
Definition replied (h : list (list admissionScope)) (na nr nu : Z) (completed : bool) (s : run_state) : Prop :=
  ∃ status nu', s = mkRun h false (Some status) nr na (if completed then 1 else 0) 0 nu' ∧ nu ≤ nu' ≤ nu + 1.

Lemma writeAPIError_wp status message (Q : unit → run_state → Prop) h nr na nc nf nu :
  Q tt (mkRun h false (Some status) nr na nc nf nu) →
  wpr (writeAPIError status message) Q (mkRun h false None nr na nc nf nu).
Proof.
  intros HQ. unfold writeAPIError, writeJSONStatus.
  apply wp_bind, wp_call. intros []. run_simpl. apply wp_bind, wp_call. intros []. run_simpl.
  apply wp_call. intros []. run_simpl. done.
Qed.

(** A reply that ends a part of the handler. *)
Lemma reply_error_wp {A} status message (a : A) (Q : A → run_state → Prop) h na nr nu :
  Q a (mkRun h false (Some status) nr na 0 0 nu) →
  wpr (_ ← writeAPIError status message; Ret a) Q (idle h na nr nu).
Proof. intros HQ. by apply wp_bind, writeAPIError_wp. Qed.

Lemma target_loop_wp m p targets st h na nr nu :
  length h = 2%nat →
  wpr (target_loop r cfg m p targets st)
    (λ e s', match e with
             | EncodeFailed => replied h na nr nu false s'
             | NoResponse _ => s' = idle h na nr nu
             | Chosen candidate _ =>
                 s' = mkRun (provider_scopes (t_Provider candidate) (provider_of cfg candidate) :: h)
                        true None nr na 0 0 nu
             end) (idle h na nr nu).
Proof.
  intros Hh. revert st. induction targets as [|candidate rest IH]; intros st; [done|]. cbn [target_loop].
  cbv zeta. destruct (Marshal _) as [body|].
  - apply wp_bind. eapply wp_mono; [by apply attempt_loop_wp|]. intros [st'|st'|resp] s' ->; [apply IH|done|done].
  - apply reply_error_wp. eexists _, _. split; [done|lia].
Qed.

Lemma no_response_wp clientID alias st h na nr nu :
  wpr (no_response clientID alias st) (λ _ s', replied h na nr nu false s') (idle h na nr nu).
Proof.
  unfold no_response. apply wp_bind, wp_neutral; [by intros ? []|]. intros ctxErr.
  set (choice := if bool_decide _ then _ else _). destruct choice as [[status message] limited].
  apply wp_bind, wp_when.
  - intros _. apply wp_call. intros []. unfold idle. run_simpl.
    apply wp_bind, wp_call. intros []. run_simpl. apply writeAPIError_wp. eexists _, _. split; [done|lia].
  - intros _. apply wp_bind, wp_call. intros []. unfold idle. run_simpl. apply writeAPIError_wp.
    eexists _, _. split; [done|lia].
Qed.

Lemma relay_wp clientID alias candidate resp h na nr nu :
  wpr (relay cfg clientID alias candidate resp) (λ _ s', replied h na nr nu true s')
    (mkRun (provider_scopes (t_Provider candidate) (provider_of cfg candidate) :: h) true None nr na 0 0 nu).
Proof.
  unfold relay. cbv zeta.
  apply wp_bind, wp_call. intros []. run_simpl. apply wp_bind, wp_call. intros []. run_simpl.
  apply wp_bind, wp_call. intros []. run_simpl.
  apply wp_bind, io_Copy_skip; [by repeat split|]. intros [taps copyErr].
  apply wp_bind, wp_call. intros []. run_simpl. apply wp_bind.
  assert (Hlog : ∀ name model b (Q : unit → run_state → Prop) s, Q tt s →
    wpr (logResponse (newConfigLogging (Logging (Server cfg))) resp name model b) Q s).
  { intros name model b Q s HQ. unfold logResponse. case_if; [done|]. apply wp_neutral; [by intros ? []|]. by intros []. }
  apply Hlog.
  apply wp_bind, wp_neutral; [by intros ? []|]. intros _. apply wp_bind, wp_neutral; [by intros ? []|]. intros _.
  apply wp_bind, wp_when_neutral; [by intros ? []|]. apply wp_bind, wp_when_neutral; [by intros ? []|].
  apply wp_bind, wp_call. intros []. run_simpl. apply wp_bind, wp_when_neutral; [by intros ? []|].
  apply wp_call. intros []. run_simpl. rewrite bool_decide_eq_true_2 by done. run_simpl.
  eexists _, _. split; [done|lia].
Qed.

Lemma proxy_targets_wp clientID alias m p h na nr nu :
  length h = 2%nat →
  wpr (proxy_targets r cfg clientID alias m p) (λ b s', replied h na nr nu b s') (idle h na nr nu).
Proof.
  intros Hh. unfold proxy_targets. destruct (applySystemPrompt _ _ _ _) as [?|p'].
  - apply reply_error_wp. eexists _, _. split; [done|lia].
  - apply wp_bind. eapply wp_mono; [by apply target_loop_wp|]. intros [|st|candidate resp] s' Hs.
    + done.
    + subst. apply wp_bind. eapply wp_mono; [apply no_response_wp|]. by intros [] s'.
    + subst. apply wp_bind. eapply wp_mono; [apply relay_wp|]. by intros [] s'.
Qed.

(** Releasing what is on top after the reply. *)
Lemma release_wp {A} scopes (a : A) h na nr nu b s :
  replied (scopes :: h) na nr nu b s →
  wpr (_ ← call (Release scopes); Ret a) (λ a' s', a' = a ∧ replied h na nr nu b s') s.
Proof.
  intros (status & nu' & -> & Hnu). apply wp_bind, wp_call. intros []. run_simpl.
  rewrite bool_decide_eq_true_2 by done. run_simpl. split; [done|]. eexists _, _. by split.
Qed.

Lemma writeRateLimitError_wp (Q : unit → run_state → Prop) h na nr nu :
  Q tt (mkRun h false (Some StatusTooManyRequests) nr na 0 0 nu) → wpr writeRateLimitError Q (idle h na nr nu).
Proof.
  intros HQ. unfold writeRateLimitError. apply wp_bind, wp_call. intros []. unfold idle. run_simpl.
  by apply writeAPIError_wp.
Qed.

Lemma proxy_model_wp clientID alias m p h na nr nu :
  length h = 1%nat →
  wpr (proxy_model r cfg clientID alias m p) (λ b s', replied h na nr nu b s') (idle h na nr nu).
Proof.
  intros Hh. unfold proxy_model. apply wp_bind, wp_call. intros [admitted queued]. unfold idle. run_simpl.
  apply wp_bind, wp_when_neutral; [by intros ? []|]. destruct admitted; cbn [negb].
  - apply wp_bind. eapply wp_mono.
    + apply (proxy_targets_wp clientID alias m p (model_scopes alias m :: h)). simpl. lia.
    + intros b s' Hs. eapply wp_mono; [by apply release_wp|]. by intros b' s'' [-> ?].
  - apply wp_bind, wp_neutral; [by intros ? []|]. intros _. apply wp_bind, wp_call. intros []. run_simpl.
    apply wp_bind, writeRateLimitError_wp. eexists _, _. split; [done|lia].
Qed.

Lemma discoverProvider_run_wp name p (Q : discovery_error + list discoveredModel → run_state → Prop) h na nr nu :
  (∀ res, Q res (idle h na nr nu)) → wpr (discoverProvider name p) Q (idle h na nr nu).
Proof.
  intros HQ. unfold discoverProvider. apply wp_bind, wp_neutral; [by intros ? []|].
  intros [models|]; [apply HQ|]. destruct (upstreamURL _ _ _) as [target|]; [|apply HQ].
  destruct (NewRequest target); [|apply HQ]. cbn [negb].
  apply wp_bind, provider_headers_wp; [by intros ? ? []|]. intros [v|hd]; [apply HQ|].
  apply wp_bind, wp_call. intros [resp|]; unfold idle; run_simpl; [|apply HQ].
  unfold read_models. apply wp_bind, wp_bind, wp_call. intros body. run_simpl.
  assert (Hclose : ∀ res, wpr (_ ← call CloseBody; Ret res) Q (mkRun h true None nr na 0 0 nu)).
  { intros res. apply wp_bind, wp_call. intros []. run_simpl. apply HQ. }
  destruct body as [body|]; [|apply Hclose]. destruct (discoveryResponseLimit <? _); [apply Hclose|].
  destruct (_ || _); [apply Hclose|]. destruct (decode_model_list body); [|apply Hclose].
  apply wp_bind, wp_neutral; [by intros ? []|]. intros _. apply Hclose.
Qed.

Lemma resolve_loop_wp alias l (Q : discovery_error + option ModelConfig → run_state → Prop) h na nr nu :
  (∀ res, Q res (idle h na nr nu)) → wpr (resolve_loop alias l) Q (idle h na nr nu).
Proof.
  intros HQ. induction l as [|[name p] l IH]; [apply HQ|]. cbn [resolve_loop]. case_if; [done|].
  apply wp_bind, discoverProvider_run_wp. intros [e|models]; [apply HQ|].
  destruct (list_find _ models) as [[i m]|]; apply HQ.
Qed.

Lemma proxy_resolve_wp alias (Q : option ModelConfig → run_state → Prop) h na nr nu :
  (∀ m, Q (Some m) (idle h na nr nu)) → (∀ s, replied h na nr nu false s → Q None s) →
  wpr (proxy_resolve Quote cfg alias) Q (idle h na nr nu).
Proof.
  intros HS HN. unfold proxy_resolve. destruct (Models cfg !! alias) as [m|]; [apply HS|].
  apply wp_bind, resolve_loop_wp. intros [e|[m|]]; [| |].
  - apply wp_bind, wp_neutral; [by intros ? []|]. intros _. apply reply_error_wp, HN. eexists _, _. split; [done|lia].
  - apply HS.
  - apply reply_error_wp, HN. eexists _, _. split; [done|lia].
Qed.

Lemma proxy_body_wp clientID h na nr nu :
  length h = 1%nat →
  wpr (proxy_body Quote r cfg clientID) (λ b s', replied h na nr nu b s') (idle h na nr nu).
Proof.
  intros Hh. assert (Hrep : ∀ status, replied h na nr nu false (mkRun h false (Some status) nr na 0 0 nu))
    by (intros; eexists _, _; split; [done|lia]).
  unfold proxy_body. apply wp_bind, wp_neutral; [by intros ? []|]. intros [body|]; [|by apply reply_error_wp].
  destruct (Unmarshal_payload body) as [p|]; [|by apply reply_error_wp]. cbv zeta.
  destruct (bool_decide (default _ _ = "")); [by apply reply_error_wp|].
  apply wp_bind.
  assert (Hlog : ∀ alias (Q : unit → run_state → Prop) s, Q tt s →
    wpr (logRequest (newConfigLogging (Logging (Server cfg))) r alias body) Q s).
  { intros alias Q s HQ. unfold logRequest. case_if; [done|]. apply wp_neutral; [by intros ? []|]. by intros []. }
  apply Hlog, wp_bind, proxy_resolve_wp; [intros m; by apply proxy_model_wp|]. done.
Qed.

Lemma proxy_ingress_wp na nr nu :
  wpr (proxy_ingress Quote r cfg) (λ b s', replied [] na nr nu b s') (idle [] na nr nu).
Proof.
  unfold proxy_ingress. apply wp_bind, wp_neutral; [by intros ? []|]. intros trusted. cbv zeta.
  apply wp_bind, wp_call. intros [admitted queued]. unfold idle. run_simpl.
  apply wp_bind, wp_when_neutral; [by intros ? []|]. destruct admitted; cbn [negb].
  - apply wp_bind. eapply wp_mono; [by apply (proxy_body_wp _ [_])|].
    intros b s' Hs. eapply wp_mono; [by apply release_wp|]. by intros b' s'' [-> ?].
  - apply wp_bind. unfold reject_limited. apply wp_bind, wp_neutral; [by intros ? []|]. intros _.
    apply writeRateLimitError_wp. eexists _, _. split; [done|lia].
Qed.

Lemma proxy_wp :
  wpr (proxy Quote r cfg) (λ _ s', ∃ status nc nf nu,
    s' = mkRun [] false (Some status) 1 0 nc nf nu ∧ nc + nf = 1 ∧ 0 ≤ nc ∧ 0 ≤ nf ∧ 0 ≤ nu ≤ 1) run_start.
Proof.
  unfold proxy. apply wp_bind, wp_neutral; [by intros ? []|]. intros started.
  apply wp_bind, wp_call. intros []. unfold run_start. run_simpl. apply wp_bind, wp_call. intros []. run_simpl. cbv zeta.
  apply wp_bind, wp_when_neutral; [by intros ? []|]. apply wp_bind.
  eapply wp_mono; [apply (proxy_ingress_wp 1 1 0)|]. intros b s' (status & nu & -> & Hnu).
  apply wp_bind, wp_when_neutral; [by intros ? []|]. apply wp_bind, wp_call. intros []. run_simpl.
  apply wp_bind, wp_neutral; [by intros ? []|]. intros ended. apply wp_bind, wp_neutral; [by intros ? []|]. intros _.
  apply wp_when.
  - intros Hb. apply wp_call. intros []. run_simpl. destruct b; [done|]. eexists _, _, _, _. split; [done|lia].
  - intros Hb. destruct b; [|done]. eexists _, _, _, _. split; [done|lia].
Qed.
End Discipline.

(** ** The failover policy

    An attempt is a request to a provider with its response, if any. *)
Abbreviation attempt := (outgoing * option Response)%type.

(** The same target may be asked again after a transport error or a transient
    status; 404 and 429 count for the target as a whole. *)
Definition retry_same (x : attempt) : Prop :=
  match x.2 with
  | None => True
  | Some resp =>
      retryableStatus (StatusCode resp) = true ∧
      StatusCode resp ≠ StatusTooManyRequests ∧ StatusCode resp ≠ StatusNotFound
  end.

Definition retryable (x : attempt) : Prop :=
  match x.2 with None => True | Some resp => retryableStatus (StatusCode resp) = true end.

(** At most [n] attempts, each but the last followed by another one because it
    may be retried on the same target. *)
Inductive attempts_on (sent : outgoing → Prop) : nat → list attempt → Prop :=
  | attempts_none n : attempts_on sent n []
  | attempts_last n req x : sent req → attempts_on sent (S n) [(req, x)]
  | attempts_more n req x l :
      sent req → retry_same (req, x) → attempts_on sent n l → attempts_on sent (S n) ((req, x) :: l).

(** The targets in order, at most [n] attempts on each; the next target is
    asked only when every attempt on this one failed or may be retried. *)
Inductive policy (sent : TargetConfig → outgoing → Prop) (n : nat) : list TargetConfig → list attempt → Prop :=
  | policy_stop targets : policy sent n targets []
  | policy_target c rest seg l :
      attempts_on (sent c) n seg → (l ≠ [] → Forall retryable seg) → policy sent n rest l →
      policy sent n (c :: rest) (seg ++ l).

Lemma attempts_on_length sent n seg : attempts_on sent n seg → (length seg ≤ n)%nat.
Proof. induction 1; simpl; lia. Qed.

Lemma attempts_on_sent sent n seg : attempts_on sent n seg → Forall (λ x : attempt, sent x.1) seg.
Proof. induction 1; by constructor. Qed.

Lemma attempts_on_S sent n seg : attempts_on sent n seg → attempts_on sent (S n) seg.
Proof. induction 1; by constructor. Qed.

Lemma retry_same_retryable x : retry_same x → retryable x.
Proof. unfold retry_same, retryable. destruct x.2; [by intros (? & _)|done]. Qed.

(** At most [n] requests for each target. *)
Lemma policy_length sent n targets l : policy sent n targets l → (length l ≤ n * length targets)%nat.
Proof.
  induction 1 as [|c rest seg l Hs _ _ IH]; [simpl; lia|]. rewrite length_app. simpl.
  apply attempts_on_length in Hs. lia.
Qed.

(** What a trace sent upstream and replied. *)
Record collected := mkCollected { c_attempts : list attempt; c_statuses : list Z; c_records : list Z }.

Definition collect_step (X : Type) (c : cmd X) (x : X) (s : collected) : option collected :=
  let '(mkCollected a w u) := s in
  match c in cmd X return X → option collected with
  | Do req => λ resp, Some (mkCollected (a ++ [(req, resp)]) w u)
  | WriteHeader status => λ _, Some (mkCollected a (w ++ [status]) u)
  | RecordUsage _ _ status _ => λ _, Some (mkCollected a w (u ++ [status]))
  | _ => λ _, Some s
  end x.

Section Policy.
Context `{MapOrder}.
Context (r : Request) (cfg : Config).

(** The request that [doUpstreamRequest] sends for a target. *)
Definition sent_to (p : payload) (c : TargetConfig) (req : outgoing) : Prop :=
  out_Method req = "POST" ∧
  upstreamURL (BaseURL (provider_of cfg c)) (URL_Path r) (URL_RawQuery r) = Some (out_URL req) ∧
  out_Body req = Some (targetPayload p (URL_Path r) (Protocol (provider_of cfg c)) (t_Model c)) ∧
  ∃ getenv, upstreamHeader getenv (r_Header r) (provider_of cfg c) = inr (out_Header req).

Abbreviation wpc := (wp collect_step).

Definition silent {X} (c : cmd X) : Prop := ∀ x s, collect_step X c x s = Some s.

Lemma wpc_silent {X} (c : cmd X) (Q : X → collected → Prop) s :
  silent c → (∀ x, Q x s) → wpc (call c) Q s.
Proof. intros Hn HQ x. rewrite Hn. apply HQ. Qed.

Lemma wpc_when b (c : cmd unit) (Q : unit → collected → Prop) s :
  silent c → Q tt s → wpc (when b (call c)) Q s.
Proof. intros Hn HQ. destruct b; [|done]. apply wpc_silent; [done|]. by intros []. Qed.

Lemma doUpstreamRequest_collect p c (Q : option Response → collected → Prop) a w u :
  Q None (mkCollected a w u) →
  (∀ req resp, sent_to p c req → Q resp (mkCollected (a ++ [(req, resp)]) w u)) →
  wpc (doUpstreamRequest r (provider_of cfg c)
         (targetPayload p (URL_Path r) (Protocol (provider_of cfg c)) (t_Model c))) Q (mkCollected a w u).
Proof.
  intros HN HS. unfold doUpstreamRequest. destruct (upstreamURL _ _ _) as [url|] eqn:Eu; [|done].
  destruct (NewRequest url); [|done]. cbn [negb].
  apply wp_bind. unfold provider_headers.
  assert (Hgo : ∀ getenv, wpc (match applyProviderHeaders getenv
      (header_Set "Content-Type" "application/json" (copyRequestHeaders ∅ (r_Header r))) (provider_of cfg c) with
    | inl _ => Ret None
    | inr h => call (Do (mkOutgoing "POST" url h
        (Some (targetPayload p (URL_Path r) (Protocol (provider_of cfg c)) (t_Model c)))))
    end) Q (mkCollected a w u)).
  { intros getenv. destruct (applyProviderHeaders _ _ _) as [v|h] eqn:Eh; [done|].
    intros resp. apply HS. split_and!; [done|done|done|]. by exists getenv. }
  case_if; [apply (Hgo (λ _, ""))|]. apply wp_bind, wpc_silent; [by intros ? []|].
  intros key. apply (Hgo (λ _, key)).
Qed.

(** What the attempts on one target leave behind: [seg] is what they sent. *)
Definition attempt_post (p : payload) (c : TargetConfig) (another : bool) (n : nat) (a : list attempt) (w u : list Z)
    (e : attempt_exit) (s : collected) : Prop :=
  ∃ seg, s = mkCollected (a ++ seg) w u ∧ attempts_on (sent_to p c) n seg ∧
    match e with
    | NextTarget _ => Forall retryable seg
    | BreakLoop _ => True
    | Selected resp => (∃ pre req, seg = pre ++ [(req, Some resp)]) ∧
        (retryableStatus (StatusCode resp) = true → another = false)
    end.

(** One attempt that may be repeated on the same target, or none. *)
Definition may_repeat (p : payload) (c : TargetConfig) (seg : list attempt) : Prop :=
  seg = [] ∨ ∃ req x, seg = [(req, x)] ∧ sent_to p c req ∧ retry_same (req, x).

Definition stops (e : attempt_exit) : Prop := match e with Selected _ => False | _ => True end.

Lemma attempt_post_stop p c another n a w u seg e :
  may_repeat p c seg → stops e → attempt_post p c another (S n) a w u e (mkCollected (a ++ seg) w u).
Proof.
  intros Hseg He. exists seg. split; [done|].
  assert (attempts_on (sent_to p c) (S n) seg ∧ Forall retryable seg) as [? ?].
  { destruct Hseg as [->|(req & x & -> & Hs & Hr)]; [by split; constructor|].
    split; [by constructor|]. by apply Forall_singleton, retry_same_retryable. }
  split; [done|]. by destruct e.
Qed.

Lemma attempt_post_more p c another n a w u seg e s :
  may_repeat p c seg → attempt_post p c another n (a ++ seg) w u e s → attempt_post p c another (S n) a w u e s.
Proof.
  intros Hseg (seg' & -> & Hatt & He). exists (seg ++ seg'). rewrite <- app_assoc. split; [done|].
  assert (attempts_on (sent_to p c) (S n) (seg ++ seg') ∧ Forall retryable seg) as [? Hr].
  { destruct Hseg as [->|(req & x & -> & Hs & Hr)]; [split; [by apply attempts_on_S|done]|].
    split; [by constructor|]. by apply Forall_singleton, retry_same_retryable. }
  split; [done|]. destruct e as [st2|st2|resp]; [by apply Forall_app|done|].
  destruct He as [(pre & req & ->) He]. split; [|done]. exists (seg ++ pre), req. by rewrite app_assoc.
Qed.

Definition target_body (p : payload) (c : TargetConfig) : payload :=
  targetPayload p (URL_Path r) (Protocol (provider_of cfg c)) (t_Model c).

Section Attempts.
Context (m : ModelConfig) (p : payload) (c : TargetConfig) (another : bool) (n : nat) (w u : list Z).

Abbreviation attempts := (attempt_loop r cfg m c (provider_of cfg c) (target_body p c) another n).

(** The next attempts, by induction. *)
Context (IH : ∀ attempt st a, wpc (attempts attempt st) (attempt_post p c another n a w u) (mkCollected a w u)).

(** After the backoff. *)
Lemma backoff_collect attempt st a seg :
  may_repeat p c seg →
  wpc (slept ← waitForRetry attempt; if negb slept then Ret (BreakLoop st) else attempts (attempt + 1) st)
    (attempt_post p c another (S n) a w u) (mkCollected (a ++ seg) w u).
Proof.
  intros Hseg. apply wp_bind, wpc_silent; [by intros ? []|]. intros [|]; cbn [negb].
  - eapply wp_mono; [apply IH|]. intros e s. by apply attempt_post_more.
  - by apply attempt_post_stop.
Qed.

(** After a transport error, or when no request could be made. *)
Lemma failed_collect attempt st a seg :
  may_repeat p c seg →
  wpc (attemptErr ← call AttemptErr;
      _ ← call (Metric AddUpstreamRequests);
      _ ← when (has_attempt_timeout (provider_of cfg c)) (call CancelAttempt);
      _ ← call (Metric AddUpstreamErrors);
      _ ← call (Release (provider_scopes (t_Provider c) (provider_of cfg c)));
      _ ← call (Log "provider attempt failed");
      ctxErr ← call CtxErr;
      if bool_decide (is_Some ctxErr) then Ret (BreakLoop st)
      else if has_attempt_timeout (provider_of cfg c) && bool_decide (attemptErr = Some DeadlineExceeded)
      then Ret (NextTarget st)
      else if attempt <? Retries m then
        slept ← waitForRetry attempt;
        if negb slept then Ret (BreakLoop st) else attempts (attempt + 1) st
      else Ret (NextTarget st))
    (attempt_post p c another (S n) a w u) (mkCollected (a ++ seg) w u).
Proof.
  intros Hseg. apply wp_bind, wpc_silent; [by intros ? []|]. intros attemptErr.
  apply wp_bind, wpc_silent; [by intros ? []|]. intros _. apply wp_bind, wpc_when; [by intros ? []|].
  do 3 (apply wp_bind, wpc_silent; [by intros ? []|]; intros _).
  apply wp_bind, wpc_silent; [by intros ? []|]. intros ctxErr.
  destruct (bool_decide (is_Some ctxErr)); [by apply attempt_post_stop|].
  destruct (_ && _); [by apply attempt_post_stop|]. destruct (attempt <? Retries m); [|by apply attempt_post_stop].
  by apply backoff_collect.
Qed.
End Attempts.

(** The attempts on one target. *)
Lemma attempt_loop_collect m p c another n attempt st a w u :
  wpc (attempt_loop r cfg m c (provider_of cfg c) (target_body p c) another n attempt st)
    (attempt_post p c another n a w u) (mkCollected a w u).
Proof.
  revert attempt st a. induction n as [|n IH]; intros attempt st a.
  { exists []. rewrite app_nil_r. split_and!; [done|constructor|done]. }
  assert (Hnone : may_repeat p c []) by by left.
  cbn [attempt_loop]. apply wp_bind, wpc_silent; [by intros ? []|]. intros [allowed queued].
  apply wp_bind, wpc_when; [by intros ? []|].
  destruct allowed; cbn [negb].
  2:{ apply wp_bind, wpc_silent; [by intros ? []|]. intros _. cbn [wp].
      rewrite <- (app_nil_r a) at 2. by apply attempt_post_stop. }
  apply wp_bind, wpc_when; [by intros ? []|]. apply wp_bind, doUpstreamRequest_collect.
  { pose proof (failed_collect m p c another n w u IH attempt (mkLoop true (providerLimited st)) a [] Hnone) as Hb.
    rewrite app_nil_r in Hb. exact Hb. }
  intros req [resp|] Hs; [|apply (failed_collect m p c another n w u IH); by right; exists req, None].
  apply wp_bind, wpc_silent; [by intros ? []|]. intros attemptErr.
  apply wp_bind, wpc_silent; [by intros ? []|]. intros _.
  set (same := _ && (attempt <? Retries m)).
  assert (Hsel : (retryableStatus (StatusCode resp) = true → another = false) →
    attempt_post p c another (S n) a w u (Selected resp) (mkCollected (a ++ [(req, Some resp)]) w u)).
  { intros Hr. exists [(req, Some resp)]. split; [done|]. split; [by constructor|]. split; [by exists [], req|done]. }
  destruct (retryableStatus (StatusCode resp)) eqn:Er; cycle 1.
  { assert (same = false) as -> by (unfold same; rewrite ?Er; done). by apply Hsel. }
  destruct same eqn:Esame; cbn [orb andb negb]; [|destruct another; [|by apply Hsel]];
    (do 2 (apply wp_bind, wpc_silent; [by intros ? []|]; intros _)); (apply wp_bind, wpc_when; [by intros ? []|]);
    (do 2 (apply wp_bind, wpc_silent; [by intros ? []|]; intros _)).
  - apply backoff_collect; [done|]. right. exists req, (Some resp). split; [done|]. split; [done|].
    unfold same in Esame. unfold retry_same. simpl. bool_to_prop. by split_and!.
  - exists [(req, Some resp)]. split; [done|]. split; [by constructor|]. by apply Forall_singleton.
Qed.

Lemma target_loop_collect m p targets st a w u :
  wpc (target_loop r cfg m p targets st)
    (λ e s', ∃ l, c_attempts s' = a ++ l ∧ policy (sent_to p) (Z.to_nat (Retries m + 1)) targets l ∧
      match e with
      | EncodeFailed => c_statuses s' = w ++ [StatusInternalServerError] ∧ c_records s' = u
      | NoResponse _ => c_statuses s' = w ∧ c_records s' = u
      | Chosen c resp => c_statuses s' = w ∧ c_records s' = u ∧ c ∈ targets ∧
          (∃ pre req, l = pre ++ [(req, Some resp)] ∧ sent_to p c req) ∧
          (retryableStatus (StatusCode resp) = true → last targets = Some c)
      end) (mkCollected a w u).
Proof.
  revert st a. induction targets as [|c rest IH]; intros st a.
  { exists []. rewrite app_nil_r. split_and!; [done|constructor|done..]. }
  cbn [target_loop]. cbv zeta.
  destruct (Marshal _) as [body|] eqn:Em.
  - assert (body = targetPayload p (URL_Path r) (Protocol (provider_of cfg c)) (t_Model c)) as ->.
    { unfold Marshal in Em. destruct (marshal_ok _); [by injection Em|done]. }
    apply wp_bind. eapply wp_mono; [apply attempt_loop_collect|]. intros e s' (seg & -> & Hatt & He).
    assert (Hstop : policy (sent_to p) (Z.to_nat (Retries m + 1)) (c :: rest) seg).
    { rewrite <- (app_nil_r seg). constructor; [done|done|constructor]. }
    destruct e as [st'|st'|resp].
    + eapply wp_mono; [apply IH|]. intros e s' (l & Hl & Hp & He2). exists (seg ++ l).
      rewrite app_assoc. split; [done|]. split; [by constructor|].
      destruct e as [|st2|c2 resp]; [done|done|]. destruct He2 as (? & ? & Hin & (pre & req & -> & Hs) & Hlast).
      split_and!; [done|done|set_solver|exists (seg ++ pre), req; by rewrite app_assoc|].
      intros Hr. rewrite last_cons. by rewrite (Hlast Hr).
    + exists seg. by split_and!.
    + destruct He as [(pre & req & Hseg) Hr]. exists seg. split_and!; [done..|set_solver| |].
      { exists pre, req. split; [done|]. apply attempts_on_sent in Hatt. rewrite Hseg in Hatt.
        apply Forall_app in Hatt as [_ Hatt]. rewrite Forall_singleton in Hatt. exact Hatt. }
      intros Hret. specialize (Hr Hret).
      apply negb_false_iff, bool_decide_eq_true in Hr. by subst.
  - intros [] [] []. exists []. rewrite app_nil_r. split_and!; [done|constructor|done..].
Qed.

(** The statuses that the handler writes on its own. *)
Definition own_statuses : list Z :=
  [StatusBadRequest; StatusNotFound; StatusRequestEntityTooLarge; StatusTooManyRequests;
   StatusInternalServerError; StatusBadGateway; StatusGatewayTimeout].

Lemma writeAPIError_collect status message (Q : unit → collected → Prop) a w u :
  Q tt (mkCollected a (w ++ [status]) u) → wpc (writeAPIError status message) Q (mkCollected a w u).
Proof. intros HQ [] [] []. exact HQ. Qed.

Lemma no_response_collect clientID alias st a w u :
  wpc (no_response clientID alias st)
    (λ _ s', ∃ status, s' = mkCollected a (w ++ [status]) (u ++ [status]) ∧ status ∈ own_statuses)
    (mkCollected a w u).
Proof.
  unfold no_response. apply wp_bind, wpc_silent; [by intros ? []|]. intros ctxErr.
  set (choice := if bool_decide _ then _ else _).
  assert (Hc : choice.1.1 ∈ own_statuses).
  { unfold choice. repeat case_if; apply (bool_decide_unpack _); vm_compute; exact I. }
  destruct choice as [[status message] limited]. apply wp_bind, wpc_when; [by intros ? []|].
  apply wp_bind. intros []. apply writeAPIError_collect. by exists status.
Qed.

Lemma relay_collect clientID alias c resp a w u :
  wpc (relay cfg clientID alias c resp)
    (λ _ s', s' = mkCollected a (w ++ [StatusCode resp]) (u ++ [StatusCode resp])) (mkCollected a w u).
Proof.
  unfold relay. cbv zeta. apply wp_bind, wpc_silent; [by intros ? []|]. intros _.
  apply wp_bind, wpc_silent; [by intros ? []|]. intros _. apply wp_bind. intros [].
  apply wp_bind, io_Copy_skip; [by repeat split|]. intros [taps copyErr]. apply wp_bind. intros [].
  apply wp_bind. unfold logResponse.
  assert (Hrest : wpc (_ ← call LoadTrusted; _ ← call (Log "request complete");
      _ ← when copyErr (call (Log "stream provider response"));
      _ ← when (is_event_stream resp && (0 <? WriteIdleTimeout (Server cfg))) (call ClearWriteDeadline);
      _ ← call CloseBody;
      _ ← when (0 <? p_RequestTimeout (provider_of cfg c)) (call CancelAttempt);
      call (Release (provider_scopes (t_Provider c) (provider_of cfg c))))
    (λ _ s', s' = mkCollected a (w ++ [StatusCode resp]) (u ++ [StatusCode resp]))
    (mkCollected a (w ++ [StatusCode resp]) (u ++ [StatusCode resp]))).
  { do 2 (apply wp_bind, wpc_silent; [by intros ? []|]; intros _).
    do 2 (apply wp_bind, wpc_when; [by intros ? []|]).
    apply wp_bind, wpc_silent; [by intros ? []|]. intros _. apply wp_bind, wpc_when; [by intros ? []|].
    apply wpc_silent; [by intros ? []|]. done. }
  destruct (negb _ || negb _); [exact Hrest|]. apply wpc_silent; [by intros ? []|]. intros _. exact Hrest.
Qed.

(** What a run of the target part sent and replied. *)
Definition policy_result (m : ModelConfig) (p : payload) (completed : bool) (s : collected) : Prop :=
  match applySystemPrompt p (URL_Path r) (PrependSystemPrompt m) (AppendSystemPrompt m) with
  | inl _ => completed = false ∧ s = mkCollected [] [StatusBadRequest] []
  | inr p0 =>
      let body := applyRequestOverrides p0 (Overrides m) in
      policy (sent_to body) (Z.to_nat (Retries m + 1)) (ResolvedTargets m) (c_attempts s) ∧
      if completed then
        ∃ pre req resp, c_attempts s = pre ++ [(req, Some resp)] ∧ c_statuses s = [StatusCode resp] ∧
          c_records s = [StatusCode resp] ∧
          ∃ c, c ∈ ResolvedTargets m ∧ sent_to body c req ∧
            (retryableStatus (StatusCode resp) = true → last (ResolvedTargets m) = Some c)
      else ∃ status, c_statuses s = [status] ∧ status ∈ own_statuses
  end.

Lemma proxy_targets_collect clientID alias m p :
  wpc (proxy_targets r cfg clientID alias m p) (policy_result m p) (mkCollected [] [] []).
Proof.
  unfold proxy_targets, policy_result. destruct (applySystemPrompt _ _ _ _) as [?|p0].
  { apply wp_bind, writeAPIError_collect. done. }
  cbv zeta. apply wp_bind. eapply wp_mono; [apply target_loop_collect|].
  intros e [a w u] (l & Hl & Hp & He). simpl in Hl, He. subst a. destruct e as [|st|c resp].
  - destruct He as [-> ->]. split; [done|]. exists StatusInternalServerError. split; [done|].
    apply (bool_decide_unpack _). vm_compute. exact I.
  - destruct He as [-> ->]. apply wp_bind. eapply wp_mono; [apply no_response_collect|].
    intros _ s' (status & -> & Hs). split; [done|]. by exists status.
  - destruct He as (-> & -> & Hin & (pre & req & -> & Hs) & Hlast). apply wp_bind.
    eapply wp_mono; [apply relay_collect|]. intros _ s' ->. split; [done|].
    exists pre, req, resp. split_and!; [done..|]. exists c. by split_and!.
Qed.
End Policy.

(** ** Properties *)

(** C2: Every run of [proxy], whatever the clients, providers, clocks and other
    requests do, releases every admission it obtained, exactly once and in
    reverse order, closes every upstream body it opened, commits exactly one
    response status, sends nothing upstream after that, holds no provider
    admission during a backoff, works on the one configuration it was given, and
    is counted once as a request and once as completed or failed, with at most
    one usage record. *)
Theorem proxy_disciplined `{MapOrder} Quote r cfg tr u :
  exec (proxy Quote r cfg) tr u →
  ∃ s status, monitor run_step run_start tr = Some s ∧
    held s = [] ∧ body_open s = false ∧ committed s = Some status ∧
    n_requests s = 1 ∧ n_active s = 0 ∧ n_completed s + n_failed s = 1 ∧
    0 ≤ n_completed s ∧ 0 ≤ n_failed s ∧ 0 ≤ n_records s ≤ 1.
Proof.
  intros He. destruct (wp_sound run_step _ _ _ _ _ (proxy_wp Quote r cfg) He)
    as (s & Hm & status & nc & nf & nu & -> & Hn).
  eexists _, status. split; [exact Hm|]. simpl. split_and!; done || lia.
Qed.

(** C3: The upstream requests of one run follow the failover policy: targets in
    configured order, at most [Retries + 1] requests each, another request to
    the same target only after a transport error or a transient status other
    than 404 and 429, another target only after failures of this one.  A
    relayed response is the answer to the last request, its status is the one
    reply and the one usage record, and a retryable status is relayed from the
    last target only; without one the reply is one of the gateway's own. *)
Theorem failover_policy `{MapOrder} r cfg clientID alias m p tr completed :
  exec (proxy_targets r cfg clientID alias m p) tr completed →
  ∃ s, monitor collect_step (mkCollected [] [] []) tr = Some s ∧
    policy_result r cfg m p completed s ∧
    (length (c_attempts s) ≤ Z.to_nat (Retries m + 1) * length (ResolvedTargets m))%nat.
Proof.
  intros He. destruct (wp_sound collect_step _ _ _ _ _ (proxy_targets_collect r cfg clientID alias m p) He)
    as (s & Hm & Hr).
  exists s. split; [done|]. split; [done|]. unfold policy_result in Hr.
  destruct (applySystemPrompt _ _ _ _); [by destruct Hr as [_ ->]; simpl; lia|].
  destruct Hr as [Hp _]. by eapply policy_length.
Qed.

(** *** An environment with two providers *)
Definition plain_provider (base : string) : ProviderConfig :=
  mkProviderConfig base "openai" "" ∅ (mkAutodiscoverConfig false "" 0) zero_Limits 0.

Definition two_targets : ModelConfig :=
  mkModelConfig "" "" [mkTargetConfig "a" "m1"; mkTargetConfig "b" "m2"] 0 zero_Limits ∅ "" "".

Definition two_providers : Config :=
  mkConfig zero_Server {[ "a" := plain_provider "http://a"; "b" := plain_provider "http://b" ]} {[ "m" := two_targets ]}.

Definition chat_request : Request :=
  mkRequest "POST" "/v1/chat/completions" "" "shepard" "192.0.2.1:5000" false ∅ "".

(** Provider ["a"] answers 503; [b_allowed] says whether ["b"] admits. *)
Definition failing_first (b_allowed : bool) : answerer := λ X c,
  match c in cmd X return X with
  | AdmitWithQueue _ scopes =>
      (bool_decide (key <$> scopes ≠ ["provider:b"]) || b_allowed, false)
  | ReadBody _ => Some ("{" +:+ Usage.q "model" +:+ ":" +:+ Usage.q "m" +:+ "}")
  | Do req => Some (mkResponse (if has_prefix (out_URL req) "http://a" then 503 else 200) ∅)
  | BodyReads => 1%nat
  | ReadChunk => "{}"
  | c => inert _ c
  end.

Definition proxy_run (b_allowed : bool) :=
  run_with 0 (λ _, failing_first b_allowed)
    (proxy (H := order_forward) (λ s, s) chat_request two_providers).

Definition targets_run (b_allowed : bool) :=
  run_with 0 (λ _, failing_first b_allowed)
    (proxy_targets (H := order_forward) chat_request two_providers "key:00" "m" two_targets ∅).

Lemma proxy_disciplined_witness :
  ∃ s, monitor run_step run_start (proxy_run true).1 = Some s ∧ committed s = Some 200 ∧ held s = [].
Proof.
  destruct (proxy_disciplined (H := order_forward) (λ s, s) chat_request two_providers
    (proxy_run true).1 (proxy_run true).2 (run_with_exec _ _ _)) as (s & status & Hm & Hh & _).
  exists s. split; [exact Hm|]. split; [|exact Hh]. vm_compute in Hm. injection Hm as <-. reflexivity.
Defined.

Lemma failover_policy_witness :
  ∃ s, monitor collect_step (mkCollected [] [] []) (targets_run true).1 = Some s ∧
    out_URL <$> (c_attempts s).*1 = ["http://a/chat/completions"; "http://b/chat/completions"] ∧ c_statuses s = [200].
Proof.
  destruct (failover_policy (H := order_forward) chat_request two_providers "key:00" "m"
    two_targets ∅ (targets_run true).1 (targets_run true).2 (run_with_exec _ _ _)) as (s & Hm & _).
  exists s. split; [exact Hm|]. vm_compute in Hm. injection Hm as <-. by split.
Defined.

(** When one target answers with a server error and the next one is at its
    limit, the client is told that all targets are rate limited, with 429,
    although only one of them was. *)
Theorem limited_after_failure :
  ∃ s, monitor collect_step (mkCollected [] [] []) (targets_run false).1 = Some s ∧
    StatusCode <$> omap snd (c_attempts s) = [StatusServiceUnavailable] ∧
    c_statuses s = [StatusTooManyRequests] ∧ c_records s = [StatusTooManyRequests].
Proof. eexists. split; [vm_compute; reflexivity|]. by split. Qed.

(** The end of a request that could not be encoded, and of one whose
    conversation takes no system prompt. *)
Definition encode_failure : prog bool :=
  _ ← writeAPIError StatusInternalServerError "could not encode upstream request"; Ret false.

Definition prompt_failure : prog bool :=
  _ ← writeAPIError StatusBadRequest "messages must be an array"; Ret false.

(** C36: Validation looks at the keys of the overrides only, and the encoder at
    their values.  With an override such as [.nan], which YAML can write and
    JSON cannot, of a field that no provider translation touches, the
    configuration is accepted, and no admitted request for the model reaches a
    provider or is recorded: it ends with status 500, or with 400 when the
    system prompt of the model cannot be applied to it. *)
Theorem unencodable_override `{MapOrder} r cfg clientID alias m p k v :
  Validate cfg = None → Models cfg !! alias = Some m →
  Overrides m !! k = Some v → ¬ typed v → k ∉ compat_fields →
  proxy_targets r cfg clientID alias m p
  = match applySystemPrompt p (URL_Path r) (PrependSystemPrompt m) (AppendSystemPrompt m) with
    | inl _ => prompt_failure
    | inr _ => encode_failure
    end.
Proof.
  intros Hok%Validate_None Hm Hk Hv Hc. pose proof (co_models _ Hok alias m Hm) as Hmodel.
  assert (Hne : k ≠ "model").
  { intros ->. by rewrite (mo_overrides _ _ _ Hmodel "model") in Hk by (unfold structural_keys; set_solver). }
  unfold proxy_targets. destruct (applySystemPrompt _ _ _ _) as [?|p']; [done|].
  destruct (ResolvedTargets m) as [|t rest] eqn:Et.
  { unfold ResolvedTargets in Et. destruct (mo_form _ _ _ Hmodel) as [[? _]|[Ht _]]; by destruct (Targets m). }
  cbn [target_loop]. rewrite (Marshal_untyped _ k v); [reflexivity| |done].
  unfold targetPayload. rewrite compat_untouched by done. autorewrite with go_rw.
  rewrite lookup_insert_ne by done. by apply lookup_union_Some_l.
Qed.

Definition nan_override : ModelConfig :=
  mkModelConfig "" "" [mkTargetConfig "local" "qwen"] 0 zero_Limits {[ "temperature" := AFloat SpecFloat.S754_nan ]} "" "".

Definition nan_config : Config :=
  mkConfig example_server (Providers (defaults example_config)) {[ "coding" := nan_override ]}.

Lemma unencodable_override_witness :
  proxy_targets (H := order_forward) chat_request nan_config "key:00" "coding" nan_override ∅
  = encode_failure.
Proof.
  apply (unencodable_override (H := order_forward) chat_request nan_config
    "key:00" "coding" nan_override ∅ "temperature" (AFloat SpecFloat.S754_nan)).
  - vm_compute. reflexivity.
  - reflexivity.
  - reflexivity.
  - done.
  - by apply (bool_decide_unpack _).
Defined.
