(* ===== verification/Readiness.v ===== *)
(** * Readiness probes ([internal/gateway/readiness.go])

    [/readyz] probes every provider, at most once at a time, and caches the
    result.  Callers of [cachedReadiness] are threads; every critical section
    of the mutex and every turn of [select] is one step, so calls and reloads
    interleave in every way. *)

From Stdlib Require Import ZArith Lia.
From S2P Require Import Prelude GoStrings Float64 Http Value Config Limiter ACL Headers Metrics Usage Effects NetURL Urls Discovery.

Local Open Scope Z_scope.

(** ** One probe *)

Definition cloneReadinessResult `{MapOrder} (res : readinessResult) : readinessResult :=
  mkReadiness (foldl (λ status nv, <[nv.1 := nv.2]> status) ∅ (map_range (rr_status res))) (rr_ready res).

(** [checkProvider] *)
Definition checkProvider `{MapOrder} (p : ProviderConfig) : prog bool :=
  match upstreamURL (BaseURL p) "/v1/models" "" with
  | None => Ret false
  | Some target =>
      if negb (NewRequest target) then Ret false
      else
        h ← provider_headers ∅ p;
        match h with
        | inl _ => Ret false
        | inr h =>
            resp ← call (Do (mkOutgoing "GET" target h None));
            match resp with
            | None => Ret false
            | Some resp =>
                _ ← call CloseBody;
                Ret ((200 <=? StatusCode resp) && (StatusCode resp <? 300))
            end
        end
  end.

(** The collecting loop of [checkReadiness]: the probes run concurrently and
    their results arrive in any order. *)
Definition collect_result (acc : readinessResult) (item : string * bool) : readinessResult :=
  if item.2 then mkReadiness (<[item.1 := "ok"]> (rr_status acc)) true
  else mkReadiness (<[item.1 := "unavailable"]> (rr_status acc)) (rr_ready acc).

Definition checkReadiness (arrivals : list (string * bool)) : readinessResult :=
  foldl collect_result (mkReadiness ∅ false) arrivals.

(** ** The cache and its callers *)
Record readinessCache := mkCache {
  rc_result : readinessResult;
  rc_expires : option Z;
  rc_inflight : option nat;
  rc_generation : Z
}.

Definition zero_result : readinessResult := mkReadiness ∅ false.
Definition newReadinessCache : readinessCache := mkCache zero_result None None 0.

Definition readinessCache_clear (c : readinessCache) : readinessCache :=
  mkCache zero_result None (rc_inflight c) (uint64 (rc_generation c + 1)).

(** The first critical section of [cachedReadiness] at the time [now]. *)
Inductive lookup_result :=
  | Hit (res : readinessResult)
  | Wait (ch : nat)
  | Probe (ch : nat) (generation : Z).

Definition readiness_lookup `{MapOrder} (now : Z) (fresh : nat) (c : readinessCache) : readinessCache * lookup_result :=
  if match rc_expires c with Some e => now <? e | None => false end
  then (c, Hit (cloneReadinessResult (rc_result c)))
  else
    match rc_inflight c with
    | Some ch => (c, Wait ch)
    | None =>
        (mkCache (rc_result c) (rc_expires c) (Some fresh) (rc_generation c), Probe fresh (rc_generation c))
    end.

(** The second one, after the probe. *)
Definition readiness_store `{MapOrder} (now ttl generation : Z) (res : readinessResult) (c : readinessCache) : readinessCache :=
  if generation =? rc_generation c
  then mkCache (cloneReadinessResult res) (Some (now + ttl)) None (rc_generation c)
  else mkCache (rc_result c) (rc_expires c) None (rc_generation c).

Lemma cloneReadinessResult_id `{MapOrder} res : cloneReadinessResult res = res.
Proof.
  unfold cloneReadinessResult. destruct res as [status ready]. cbn [rr_status rr_ready]. f_equal.
  assert (Hf : ∀ (l : list (string * string)) (m : gmap string string), NoDup l.*1 →
    foldl (λ s nv, <[nv.1 := nv.2]> s) m l = list_to_map l ∪ m).
  { induction l as [|[k v] l IH]; intros m; [by rewrite list_to_map_nil, (left_id_L ∅ (∪))|].
    rewrite fmap_cons, NoDup_cons. intros [Hk Hnd]. cbn [foldl fst snd]. rewrite IH by done.
    rewrite list_to_map_cons, <- insert_union_r, insert_union_l; [done|]. by apply not_elem_of_list_to_map_1. }
  rewrite Hf by apply NoDup_map_range. rewrite (right_id_L ∅ (∪)).
  rewrite <- (list_to_map_to_list status) at 2. apply list_to_map_proper; [apply NoDup_map_range|apply map_range_perm].
Qed.

(** A caller: before the first section, waiting for a channel, probing, or
    back with a result (none when its context ended). *)
Inductive caller :=
  | CLookup
  | CWaiting (ch : nat)
  | CProbing (ch : nat) (generation : Z) (epoch : Z)
  | CDone (res : option readinessResult).

(** The callers, the cache, the closed channels and the next channel.  The two
    last components are bookkeeping of the model: the number of reloads so far,
    and the one during which the cached result was probed. *)
Record readiness_system := mkReady {
  cache : readinessCache;
  callers : list caller;
  closed : list nat;
  next_ch : nat;
  epoch : Z;
  result_epoch : Z
}.

Definition readiness_init : readiness_system := mkReady newReadinessCache [] [] 0 0 0.

Section Machine.
Context `{MapOrder}.

Inductive ready_step : readiness_system → readiness_system → Prop :=
  | ready_arrive c ts cl n e re :
      ready_step (mkReady c ts cl n e re) (mkReady c (CLookup :: ts) cl n e re)
  | ready_hit now c c' res l1 l2 cl n e re :
      readiness_lookup now n c = (c', Hit res) →
      ready_step (mkReady c (l1 ++ CLookup :: l2) cl n e re)
        (mkReady c' (l1 ++ CDone (Some res) :: l2) cl n e re)
  | ready_wait now c c' ch l1 l2 cl n e re :
      readiness_lookup now n c = (c', Wait ch) →
      ready_step (mkReady c (l1 ++ CLookup :: l2) cl n e re)
        (mkReady c' (l1 ++ CWaiting ch :: l2) cl n e re)
  | ready_probe now c c' ch g l1 l2 cl n e re :
      readiness_lookup now n c = (c', Probe ch g) →
      ready_step (mkReady c (l1 ++ CLookup :: l2) cl n e re)
        (mkReady c' (l1 ++ CProbing ch g e :: l2) cl (S n) e re)
  | ready_cancel c ch l1 l2 cl n e re :
      ready_step (mkReady c (l1 ++ CWaiting ch :: l2) cl n e re)
        (mkReady c (l1 ++ CDone None :: l2) cl n e re)
  | ready_wake c ch l1 l2 cl n e re :
      ch ∈ cl →
      ready_step (mkReady c (l1 ++ CWaiting ch :: l2) cl n e re)
        (mkReady c (l1 ++ CLookup :: l2) cl n e re)
  | ready_finish now ttl c ch g e0 res l1 l2 cl n e re :
      ready_step (mkReady c (l1 ++ CProbing ch g e0 :: l2) cl n e re)
        (mkReady (readiness_store now ttl g res c) (l1 ++ CDone (Some res) :: l2) (ch :: cl) n e
           (if g =? rc_generation c then e0 else re))
  | ready_clear c ts cl n e re :
      ready_step (mkReady c ts cl n e re) (mkReady (readinessCache_clear c) ts cl n (e + 1) re).

Definition ready_reachable : readiness_system → Prop := rtc ready_step readiness_init.

(** ** The invariant *)
Definition probe_of (t : caller) : option nat := match t with CProbing ch _ _ => Some ch | _ => None end.

Definition probes (ts : list caller) : list nat := omap probe_of ts.

Record ready_inv (s : readiness_system) : Prop := {
  ri_probes : probes (callers s) = match rc_inflight (cache s) with Some ch => [ch] | None => [] end;
  ri_waiting : ∀ ch, CWaiting ch ∈ callers s → ch ∈ closed s ∨ rc_inflight (cache s) = Some ch;
  ri_fresh : ∀ ch, rc_inflight (cache s) = Some ch → (ch < next_ch s)%nat;
  ri_generation : rc_generation (cache s) = uint64 (epoch s);
  ri_epoch : ∀ ch g e0, CProbing ch g e0 ∈ callers s → g = uint64 e0 ∧ 0 ≤ e0 ≤ epoch s;
  ri_result : rc_expires (cache s) ≠ None → epoch s < 2 ^ 64 → result_epoch s = epoch s;
  ri_nonneg : 0 ≤ epoch s
}.

(** What a caller in the middle adds. *)
Lemma probes_mid l1 t l2 :
  probes (l1 ++ t :: l2) = probes l1 ++ option_list (probe_of t) ++ probes l2.
Proof. unfold probes. rewrite omap_app. cbn. by destruct (probe_of t). Qed.

Lemma probes_app l1 l2 : probes (l1 ++ l2) = probes l1 ++ probes l2.
Proof. apply omap_app. Qed.

Lemma probing_in ch g e l : CProbing ch g e ∈ l → ch ∈ probes l.
Proof. intros Hx. apply list_elem_of_omap. by exists (CProbing ch g e). Qed.

Lemma elem_of_mid {A} (x t : A) l1 l2 : x ∈ l1 ++ t :: l2 ↔ x = t ∨ x ∈ l1 ++ l2.
Proof. rewrite !elem_of_app, elem_of_cons. tauto. Qed.

Lemma lookup_cache now n c c' res : readiness_lookup now n c = (c', res) →
  match res with
  | Hit r => c' = c ∧ r = rc_result c ∧ ∃ e, rc_expires c = Some e ∧ now < e
  | Wait ch => c' = c ∧ rc_inflight c = Some ch
  | Probe ch g => ch = n ∧ g = rc_generation c ∧ rc_inflight c = None ∧
      c' = mkCache (rc_result c) (rc_expires c) (Some n) (rc_generation c)
  end.
Proof.
  unfold readiness_lookup. destruct (rc_expires c) as [e|] eqn:Ee.
  - destruct (Z.ltb_spec now e).
    + intros [= <- <-]. rewrite cloneReadinessResult_id. eauto.
    + destruct (rc_inflight c) eqn:Ei; intros [= <- <-]; by split_and!.
  - destruct (rc_inflight c) eqn:Ei; intros [= <- <-]; by split_and!.
Qed.

Lemma ready_inv_init : ready_inv readiness_init.
Proof. split; simpl; try done; try lia; set_solver. Qed.

(** The probe that ends: it was the only one. *)
Lemma ready_inv_finish now ttl c ch g e0 res l1 l2 cl n e re :
  ready_inv (mkReady c (l1 ++ CProbing ch g e0 :: l2) cl n e re) →
  ready_inv (mkReady (readiness_store now ttl g res c) (l1 ++ CDone (Some res) :: l2) (ch :: cl) n e
    (if g =? rc_generation c then e0 else re)).
Proof.
  intros [Hp Hw Hf Hg He Hr Hn]. cbn [cache callers closed next_ch epoch result_epoch] in *.
  destruct (He ch g e0) as [Hg0 He0]; [set_solver|]. rewrite probes_mid in Hp. cbn in Hp.
  assert (rc_inflight c = Some ch ∧ probes l1 = [] ∧ probes l2 = []) as (Hin & Hp1 & Hp2).
  { destruct (rc_inflight c), (probes l1) as [|? [|]], (probes l2); simplify_eq/=; done. }
  assert (Hother : ∀ x g' e', CProbing x g' e' ∈ l1 ++ CDone (Some res) :: l2 → False).
  { intros x g' e' Hx%probing_in. rewrite probes_mid, Hp1, Hp2 in Hx. set_solver. }
  assert (Hwait : ∀ ch', CWaiting ch' ∈ l1 ++ CDone (Some res) :: l2 → ch' ∈ ch :: cl).
  { intros ch' [[=]|Hx]%elem_of_mid. destruct (Hw ch') as [?|Hc]; set_solver. }
  unfold readiness_store.
  destruct (Z.eqb_spec g (rc_generation c)) as [Heq|Hne]; split; simpl; try done;
    try (by rewrite probes_mid, Hp1, Hp2); try (intros; exfalso; by eapply Hother);
    try (intros ch' Hx%Hwait; by left).
  intros _ Hlt. rewrite Heq, Hg in Hg0. rewrite !uint64_id in Hg0 by lia. done.
Qed.

Lemma ready_inv_step s1 s2 : ready_inv s1 → ready_step s1 s2 → ready_inv s2.
Proof.
  intros Hi Hs.
  destruct Hs as [c ts cl n e re|now c c' res l1 l2 cl n e re Hl|now c c' ch l1 l2 cl n e re Hl
    |now c c' ch g l1 l2 cl n e re Hl|c ch l1 l2 cl n e re|c ch l1 l2 cl n e re Hcl
    |now ttl c ch g e0 res l1 l2 cl n e re|c ts cl n e re];
    [..|by apply ready_inv_finish|];
    destruct Hi as [Hp Hw Hf Hg He Hr Hn]; cbn [cache callers closed next_ch epoch result_epoch] in *.
  - split; simpl; try done; set_solver.
  - apply lookup_cache in Hl as (-> & -> & e1 & He1 & _). rewrite probes_mid in Hp.
    split; simpl; try done; [by rewrite probes_mid|set_solver..].
  - apply lookup_cache in Hl as (-> & Hin). rewrite probes_mid in Hp.
    split; simpl; try done; [by rewrite probes_mid| |set_solver].
    intros ch' [[= ->]|H1]%elem_of_mid; [by right|apply Hw; set_solver].
  - apply lookup_cache in Hl as (-> & -> & Hin & ->). rewrite Hin, probes_mid in Hp.
    apply app_eq_nil in Hp as [Hp1 Hp2]. split; simpl; try done.
    + rewrite probes_mid, Hp1. simpl in *. by rewrite Hp2.
    + intros ch' [[=]|H1]%elem_of_mid. destruct (Hw ch') as [?|?]; [set_solver|by left|congruence].
    + intros ch' [= <-]. lia.
    + intros ch' g' e' [[= -> -> ->]|H1]%elem_of_mid; [by split|apply (He ch'); set_solver].
  - rewrite probes_mid in Hp. split; simpl; try done; [by rewrite probes_mid|set_solver..].
  - rewrite probes_mid in Hp. split; simpl; try done; [by rewrite probes_mid|set_solver..].
  - split; simpl; try done; [|intros|lia].
    + rewrite Hg. apply uint64_add_l.
    + destruct (He ch g e0) as [? ?]; [done|]. split; [done|lia].
Qed.

Lemma ready_reachable_inv s : ready_reachable s → ready_inv s.
Proof.
  intros Hr. unfold ready_reachable in Hr.
  assert (Hi : ready_inv readiness_init) by apply ready_inv_init.
  induction Hr as [|s1 s2 s3 Hs _ IH]; [done|]. apply IH. by eapply ready_inv_step.
Qed.
End Machine.

(** ** Properties *)

(** The collected results: an entry per arrival, and ready when one is up. *)
Lemma collect_result_spec l acc :
  NoDup l.*1 →
  let res := foldl collect_result acc l in
  (∀ name, rr_status res !! name =
     match list_find (λ x, x.1 = name) l with
     | Some (_, (_, ok)) => Some (if ok : bool then "ok" else "unavailable")
     | None => rr_status acc !! name
     end) ∧
  (rr_ready res = true ↔ rr_ready acc = true ∨ ∃ name, (name, true) ∈ l).
Proof.
  revert acc. induction l as [|[n ok] l IH]; intros acc; simpl.
  { intros _. split; [done|]. split; [by left|]. intros [?|[? ?%elem_of_nil]]; done. }
  rewrite NoDup_cons. intros [Hn Hnd]. destruct (IH (collect_result acc (n, ok)) Hnd) as [IH1 IH2].
  split.
  - intros name. rewrite IH1. case_decide as Hc; cbn in Hc.
    + subst name. replace (list_find (λ x, x.1 = n) l) with (@None (nat * (string * bool))).
      { unfold collect_result. destruct ok; cbn; by rewrite lookup_insert_eq. }
      symmetry. apply list_find_None, Forall_forall. intros [n' ok'] Hin Heq. cbn in Heq. subst n'.
      apply Hn, list_elem_of_fmap. by exists (n, ok').
    + destruct (list_find (λ x, x.1 = name) l) as [[i [n' ok']]|]; simpl; [done|].
      unfold collect_result. destruct ok; cbn; by rewrite lookup_insert_ne.
  - rewrite IH2. unfold collect_result. destruct ok; cbn.
    + split; [|by left]. intros _. right. exists n. by left.
    + split; (intros [?|[name Hin]]; [by left|right; exists name]).
      * by right.
      * by apply elem_of_cons in Hin as [[=]|?].
Qed.

Lemma list_find_name name ok (l : list (string * bool)) :
  NoDup l.*1 → (name, ok) ∈ l → ∃ i, list_find (λ x, x.1 = name) l = Some (i, (name, ok)).
Proof.
  induction l as [|[n b] l IH]; simpl; [set_solver|]. rewrite NoDup_cons. intros [Hn Hnd] Hin.
  case_decide as Hc; cbn in Hc.
  - subst n. exists 0%nat. apply elem_of_cons in Hin as [[= ->]|Hin]; [done|].
    destruct Hn. apply list_elem_of_fmap. by exists (name, ok).
  - apply elem_of_cons in Hin as [[= -> ->]|Hin]; [done|]. destruct (IH Hnd Hin) as [i Hi].
    rewrite Hi. by exists (S i).
Qed.

(** [checkReadiness] reports every provider once, as [ok] or as
    [unavailable] by its own probe, is ready exactly when some provider is up,
    and does not depend on the order in which the concurrent probes finish. *)
Theorem check_readiness_spec (arrivals : list (string * bool)) :
  NoDup arrivals.*1 →
  (∀ name ok, (name, ok) ∈ arrivals →
     rr_status (checkReadiness arrivals) !! name = Some (if ok : bool then "ok" else "unavailable")) ∧
  (∀ name, name ∉ arrivals.*1 → rr_status (checkReadiness arrivals) !! name = None) ∧
  (rr_ready (checkReadiness arrivals) = true ↔ ∃ name, (name, true) ∈ arrivals) ∧
  (∀ arrivals', arrivals ≡ₚ arrivals' → checkReadiness arrivals' = checkReadiness arrivals).
Proof.
  intros Hnd.
  assert (Hspec : ∀ l, NoDup l.*1 →
    (∀ name ok, (name, ok) ∈ l → rr_status (checkReadiness l) !! name = Some (if ok : bool then "ok" else "unavailable")) ∧
    (∀ name, name ∉ l.*1 → rr_status (checkReadiness l) !! name = None) ∧
    (rr_ready (checkReadiness l) = true ↔ ∃ name, (name, true) ∈ l)).
  { intros l Hl. destruct (collect_result_spec l (mkReadiness ∅ false) Hl) as [H1 H2]. unfold checkReadiness.
    split_and!.
    - intros name ok Hin. rewrite H1. by destruct (list_find_name name ok l Hl Hin) as [i ->].
    - intros name Hin. rewrite H1. destruct (list_find _ l) as [[i [n b]]|] eqn:Ef; [|done].
      apply list_find_Some in Ef as (Hi & Heq & _). destruct Hin. apply list_elem_of_fmap.
      exists (n, b). split; [done|]. by eapply list_elem_of_lookup_2.
    - rewrite H2. cbn. naive_solver. }
  destruct (Hspec _ Hnd) as (H1 & H2 & H3). split_and!; [done..|]. intros l' Hperm.
  assert (Hnd' : NoDup l'.*1) by (by rewrite <- Hperm). destruct (Hspec _ Hnd') as (H1' & H2' & H3').
  assert (rr_status (checkReadiness l') = rr_status (checkReadiness arrivals)).
  { apply map_eq. intros name. destruct (decide (name ∈ arrivals.*1)) as [Hin|Hin].
    - apply list_elem_of_fmap in Hin as [[n b] [-> Hin]]. cbn [fst]. rewrite (H1 _ _ Hin). apply H1'. by rewrite <- Hperm.
    - rewrite (H2 _ Hin). apply H2'. by rewrite <- Hperm. }
  assert (rr_ready (checkReadiness l') = rr_ready (checkReadiness arrivals)).
  { apply eq_bool_prop_intro. rewrite !Is_true_true, H3, H3'. by setoid_rewrite Hperm. }
  destruct (checkReadiness l'), (checkReadiness arrivals). naive_solver.
Qed.

Lemma check_readiness_spec_witness :
  rr_ready (checkReadiness [("a", false); ("b", true)]) = true ∧
  checkReadiness [("b", true); ("a", false)] = checkReadiness [("a", false); ("b", true)].
Proof.
  assert (Hnd : NoDup [("a", false); ("b", true)].*1) by (by apply (bool_decide_unpack _)).
  destruct (check_readiness_spec _ Hnd) as (_ & _ & H3 & H4). split.
  - apply H3. exists "b". set_solver.
  - apply H4. apply Permutation_swap.
Defined.

(** C15: Probes are coalesced: however calls, cancellations, reloads and the end
    of probes interleave, at most one call of [cachedReadiness] probes the
    providers, and the channel a call waits for either is closed already or
    belongs to that probe, which will close it; no waiter is left behind. *)
Theorem readiness_coalesced `{MapOrder} s :
  ready_reachable s →
  (length (probes (callers s)) ≤ 1)%nat ∧
  ∀ ch, CWaiting ch ∈ callers s → ch ∈ closed s ∨ probes (callers s) = [ch].
Proof.
  intros Hr%ready_reachable_inv. destruct Hr as [Hp Hw _ _ _ _ _]. rewrite Hp. split.
  - destruct (rc_inflight (cache s)); simpl; lia.
  - intros ch Hch. destruct (Hw ch Hch) as [?| ->]; [by left|by right].
Qed.

(** C14: A cached readiness result never outlives a reload: a call answered from
    the cache gets the result of a probe that began after the last
    [clear], even when an older probe was still running at that time (until
    2^64 reloads have made the generation counter wrap). *)
Theorem readiness_not_stale `{MapOrder} s now c' res :
  ready_reachable s → epoch s < 2 ^ 64 →
  readiness_lookup now (next_ch s) (cache s) = (c', Hit res) →
  result_epoch s = epoch s ∧ res = rc_result (cache s) ∧ ∃ e, rc_expires (cache s) = Some e ∧ now < e.
Proof.
  intros Hr%ready_reachable_inv Hlt Hl. destruct Hr as [_ _ _ _ _ Hres _].
  apply lookup_cache in Hl as (_ & Hr & e & He & Hnow).
  split_and!; [|done|by exists e]. apply Hres; [by rewrite He|done].
Qed.

(** A state reached by a probe, a second call that waits, and a reload. *)
Definition ready_example : readiness_system :=
  mkReady (mkCache zero_result None (Some 0%nat) 1) [CWaiting 0; CProbing 0 0 0] [] 1 1 0.

Lemma ready_example_reachable `{MapOrder} : ready_reachable ready_example.
Proof.
  unfold ready_reachable.
  eapply rtc_l; [apply ready_arrive|].
  eapply rtc_l; [eapply (ready_probe 5 newReadinessCache _ 0 0 [] []); reflexivity|].
  eapply rtc_l; [apply ready_arrive|].
  eapply rtc_l; [eapply (ready_wait 6 _ _ 0 [] [CProbing 0 0 0]); reflexivity|].
  eapply rtc_l; [apply ready_clear|]. apply rtc_refl.
Qed.

Lemma readiness_coalesced_witness : ∃ s, ready_reachable (H := order_forward) s ∧ CWaiting 0 ∈ callers s ∧
  (0%nat ∈ closed s ∨ probes (callers s) = [0%nat]).
Proof.
  exists ready_example. split; [apply ready_example_reachable|]. split; [by left|].
  apply (readiness_coalesced (H := order_forward) ready_example); [apply ready_example_reachable|by left].
Defined.

(** A state reached by a probe that ended at the time 7 with a cache time of 10. *)
Definition ready_cached : readiness_system :=
  mkReady (mkCache (mkReadiness {[ "a" := "ok" ]} true) (Some 17) None 0)
    [CDone (Some (mkReadiness {[ "a" := "ok" ]} true))] [0%nat] 1 0 0.

Lemma ready_cached_reachable `{MapOrder} : ready_reachable ready_cached.
Proof.
  unfold ready_reachable.
  eapply rtc_l; [apply ready_arrive|].
  eapply rtc_l; [eapply (ready_probe 5 newReadinessCache _ 0 0 [] []); reflexivity|].
  eapply rtc_l; [apply (ready_finish 7 10 _ 0 0 0 (mkReadiness {[ "a" := "ok" ]} true) [] [])|].
  unfold readiness_store. cbn [Z.eqb rc_generation rc_result rc_expires rc_inflight app].
  rewrite cloneReadinessResult_id. apply rtc_refl.
Qed.

Lemma readiness_not_stale_witness : ∃ s, ready_reachable (H := order_forward) s ∧
  result_epoch s = epoch s ∧ rr_ready (rc_result (cache s)) = true.
Proof.
  exists ready_cached. split; [apply ready_cached_reachable|]. split; [|done].
  refine (proj1 (readiness_not_stale (H := order_forward) ready_cached 16 _ _ _ _ _)); [apply ready_cached_reachable|done|].
  unfold readiness_lookup. simpl. reflexivity.
Defined.
