(* ===== verification/Gateway.v ===== *)
(** * The gateway: state, reload and routes ([gateway.go], [readiness.go], [main.go])

    The composition root: what a [Gateway] holds, how [New] and [Reload] publish
    a configuration, how [ServeHTTP] guards and routes a request, and the
    handlers other than [proxy]. *)

From Stdlib Require Import ZArith Lia.
From S2P Require Import Prelude GoStrings Float64 NetIP NetURL Http Value Config Limiter Queue ACL Headers Metrics Usage Database Effects Urls Discovery Proxy Readiness.

Local Open Scope Z_scope.

(** ** The shared state *)

(** The client, the logger, the metrics and the usage database are not replaced
    by a reload and stay outside. *)
Record Gateway := mkGateway {
  g_config : Config;
  g_acl : option clientACL;
  g_trusted : option clientACL;
  g_queue : requestQueue;
  g_discovery : discoveryStore;
  g_readiness : readinessCache;
  g_limits : limitStore;
  g_usageDBPath : string
}.

Inductive gateway_error :=
  | ErrUsageStore
  | ErrNetwork (value : string)
  | ErrUsageDBChanged.

(** The queue size of a configuration: none when the queue is switched off. *)
Definition queueSize (cfg : Config) : Z :=
  match q_Enabled (Queue (Server cfg)) with
  | Some true => q_MaxSize (Queue (Server cfg))
  | _ => 0
  end.

(** The pointer to the trusted networks is nil when there are none. *)
Definition trusted_pointer (cfg : Config) (trusted : clientACL) : option clientACL :=
  if bool_decide (TrustedProxyNetworks (Server cfg) = []) then None else Some trusted.

Definition networks_of (cfg : Config) : gateway_error + (clientACL * clientACL) :=
  match newClientACL (ClientNetworks (Server cfg)) with
  | inl v => inl (ErrNetwork v)
  | inr acl =>
      match newClientACL (TrustedProxyNetworks (Server cfg)) with
      | inl v => inl (ErrNetwork v)
      | inr trusted => inr (acl, trusted)
      end
  end.

(** [New]: the calls it makes to the database driver, and the gateway; an
    error after the database has been opened closes it. *)
Definition New (env : db_env) (memoryDBCounter : Z) (cfg : Config) : list db_call * (gateway_error + Gateway) :=
  let '(_, (calls, ok)) := newUsageStore env memoryDBCounter (UsageDB (Server cfg)) in
  if negb ok then (calls, inl ErrUsageStore)
  else
    match networks_of cfg with
    | inl e => (calls ++ usageStore_close, inl e)
    | inr (acl, trusted) =>
        (calls, inr (mkGateway cfg (Some acl) (trusted_pointer cfg trusted) (newRequestQueue (queueSize cfg))
          newDiscoveryStore newReadinessCache newLimitStore (UsageDB (Server cfg))))
    end.

(** ** Reload

    Each store below is atomic, but requests may run between two of them. *)
Inductive store_op :=
  | StoreConfig (cfg : Config)
  | StoreACL (acl : clientACL)
  | StoreTrusted (trusted : option clientACL)
  | SetMax (size : Z)
  | ClearDiscovery
  | ClearReadiness
  | ClearLimits.

Definition apply_store (op : store_op) (g : Gateway) : Gateway :=
  let '(mkGateway cfg acl trusted queue disc ready lim db) := g in
  match op with
  | StoreConfig cfg' => mkGateway cfg' acl trusted queue disc ready lim db
  | StoreACL acl' => mkGateway cfg (Some acl') trusted queue disc ready lim db
  | StoreTrusted trusted' => mkGateway cfg acl trusted' queue disc ready lim db
  | SetMax size => mkGateway cfg acl trusted (setMax size queue) disc ready lim db
  | ClearDiscovery => mkGateway cfg acl trusted queue (discoveryStore_clear disc) ready lim db
  | ClearReadiness => mkGateway cfg acl trusted queue disc (readinessCache_clear ready) lim db
  | ClearLimits => mkGateway cfg acl trusted queue disc ready (limitStore_clear lim) db
  end.

Definition apply_stores (ops : list store_op) (g : Gateway) : Gateway := foldl (λ g op, apply_store op g) g ops.

(** The stores of [Reload], in order, or its error before the first of them. *)
Definition reload_stores (cfg : Config) (g : Gateway) : gateway_error + list store_op :=
  if negb (bool_decide (UsageDB (Server cfg) = g_usageDBPath g)) then inl ErrUsageDBChanged
  else
    match networks_of cfg with
    | inl e => inl e
    | inr (acl, trusted) =>
        inr [StoreConfig cfg; StoreACL acl; StoreTrusted (trusted_pointer cfg trusted);
             SetMax (queueSize cfg); ClearDiscovery; ClearReadiness; ClearLimits]
    end.

Definition Reload (cfg : Config) (g : Gateway) : Gateway * option gateway_error :=
  match reload_stores cfg g with
  | inl e => (g, Some e)
  | inr ops => (apply_stores ops g, None)
  end.

(** ** [main.go] *)

(** The warning of [logExposureWarnings], if any. *)
Definition logExposureWarnings (cfg : Config) : option string :=
  if BroadlyExposedWithoutAccessControls (Server cfg)
  then Some "Shepard is listening on a wildcard address without inbound authentication or a client network ACL"
  else if bool_decide (InboundAPIKeys (Server cfg) = [])
  then Some "inbound authentication is disabled; access depends on the listener and client network ACL"
  else None.

(** One turn of the SIGHUP loop, with the lines it logs. *)
Definition on_hangup `{MapOrder} {E} (read : string → E + Config) (path : string) (g : Gateway)
    : Gateway * list string :=
  match Load read path with
  | inl _ => (g, ["reload configuration"])
  | inr next =>
      match Reload next g with
      | (g', Some _) => (g', ["reload configuration"])
      | (g', None) => (g', option_list (logExposureWarnings next) ++ ["configuration reloaded"])
      end
  end.

(** ** The model listing *)

(** An entry of the list under construction: the id and its owner. *)
Definition list_alias (st : list (string * string) * gset string) (alias : string) :=
  (st.1 ++ [(alias, "shepard")], {[ alias ]} ∪ st.2).

Definition list_discovered (st : list (string * string) * gset string) (item : discoveredModel) :=
  if bool_decide (dm_Alias item ∈ st.2) then st
  else (st.1 ++ [(dm_Alias item, dm_Provider item)], {[ dm_Alias item ]} ∪ st.2).

Definition model_object (id_owner : string * string) : any :=
  AObj {[ "id" := AStr id_owner.1; "object" := AStr "model"; "owned_by" := AStr id_owner.2 ]}.

Section Handlers.
Context `{MapOrder}.

(** The keys of a map as the handlers collect them, before sorting. *)
Definition range_keys {V} (m : gmap string V) : list string := (map_range m).*1.

Definition models_data (cfg : Config) (discovered : list discoveredModel) : list (string * string) :=
  (foldl list_discovered (foldl list_alias ([], ∅) (sort_strings (range_keys (Models cfg)))) discovered).1.

Definition discoveryContext (cfg : Config) : prog unit :=
  if s_RequestTimeout (Server cfg) <=? 0 then call WithCancel
  else call (WithTimeout (s_RequestTimeout (Server cfg))).

(** A line for every provider that failed. *)
Fixpoint log_each {A} (message : string) (errs : list A) : prog unit :=
  match errs with
  | [] => Ret tt
  | _ :: rest => _ ← call (Log message); log_each message rest
  end.

Definition models (cfg : Config) : prog unit :=
  _ ← discoveryContext cfg;
  '(discovered, errs) ← discoverAll cfg;
  _ ← log_each "model autodiscovery failed" (map_range errs);
  _ ← writeJSON StatusOK
        (AObj {[ "object" := AStr "list"; "data" := AArr (model_object <$> models_data cfg discovered) ]});
  call CancelCtx.

(** ** The OpenCode configuration *)
Definition model_ids (cfg : Config) (discovered : list discoveredModel) : gmap string unit :=
  foldl (λ ids m, <[dm_Alias m := tt]> ids)
    (foldl (λ ids alias, <[alias := tt]> ids) ∅ (range_keys (Models cfg))) discovered.

Definition opencode_aliases (cfg : Config) (discovered : list discoveredModel) : list string :=
  sort_strings (range_keys (model_ids cfg discovered)).

Definition opencode_document (r : Request) (first : string) (aliases : list string) : any :=
  AObj {[ "$schema" := AStr "https://opencode.ai/config.json";
          "model" := AStr ("shepard/" +:+ first);
          "provider" := AObj {[ "shepard" := AObj {[
              "npm" := AStr "@ai-sdk/openai-compatible";
              "name" := AStr "Shepard";
              "options" := AObj {[ "baseURL" := AStr (requestBaseURL r +:+ "/v1") ]};
              "models" := AObj (list_to_map ((λ alias, (alias, AObj {[ "name" := AStr alias ]})) <$> aliases)) ]} ]} ]}.

Definition opencodeConfig (r : Request) (cfg : Config) : prog unit :=
  _ ← call (WithTimeout (5 * Second));
  '(discovered, errs) ← discoverAll cfg;
  _ ← log_each "model autodiscovery failed while generating OpenCode config" (map_range errs);
  _ ← match opencode_aliases cfg discovered with
      | [] => writeJSON StatusInternalServerError (AObj {[ "error" := AStr "no models are configured" ]})
      | first :: rest => writeJSON StatusOK (opencode_document r first (first :: rest))
      end;
  call CancelCtx.

(** ** Usage, readiness and metrics *)
Definition write_reply (status : Z) (body : reply) : prog unit :=
  _ ← call (SetHeader "Content-Type" "application/json");
  _ ← call (WriteHeader status);
  call (WriteReply body).

Definition usageReport (r : Request) : prog unit :=
  let period := query_Get (URL_RawQuery r) "period" in
  if bool_decide (period = "") then
    snap ← call UsageSnapshot;
    write_reply StatusOK (ReplyUsage snap)
  else if negb (bool_decide (period = "day")) && negb (bool_decide (period = "month")) then
    writeAPIError StatusBadRequest ("period must be " +:+ Usage.q "day" +:+ " or " +:+ Usage.q "month")
  else
    items ← call (PeriodSnapshot period (query_Get (URL_RawQuery r) "client"));
    match items with
    | None =>
        _ ← call (Log "read period usage");
        writeAPIError StatusInternalServerError "could not read usage"
    | Some items => write_reply StatusOK (ReplyPeriod period items)
    end.

Definition ready (cfg : Config) : prog unit :=
  result ← call (CachedReadiness cfg);
  match result with
  | None => writeAPIError StatusServiceUnavailable "readiness check cancelled"
  | Some result =>
      let '(code, state) :=
        if rr_ready result then (StatusOK, "ready") else (StatusServiceUnavailable, "not_ready") in
      writeJSON code (AObj {[ "status" := AStr state; "providers" := AObj (AStr <$> rr_status result) ]})
  end.

(** The first write commits the status 200. *)
Definition write_metrics : prog unit :=
  depth ← call QueueDepth;
  _ ← call (SetHeader "Content-Type" "text/plain; version=0.0.4");
  m ← call LoadMetrics;
  call (WriteReply (ReplyMetrics (writePrometheus m depth))).

(** ** Routing *)
Section Route.
Context (Quote : string → string) (r : Request).

Definition is_get (path : string) : bool := bool_decide (Method r = "GET") && bool_decide (URL_Path r = path).

Definition is_proxied : bool :=
  bool_decide (Method r = "POST") &&
  (bool_decide (URL_Path r = "/v1/chat/completions") || bool_decide (URL_Path r = "/v1/responses")).

(** The switch of [ServeHTTP], behind all guards. *)
Definition route (cfg : Config) : prog unit :=
  if is_get "/opencode.json" then opencodeConfig r cfg
  else if is_get "/v1/models" then models cfg
  else if is_get "/_shepard/usage" then usageReport r
  else if is_get "/_shepard/metrics" then write_metrics
  else if is_proxied then proxy Quote r cfg
  else writeAPIError StatusNotFound "route not found".

Definition acl_accepts (acl trusted : option clientACL) : bool :=
  match acl with Some a => acl_contains a (client_ip r trusted) | None => true end.

(** What [ServeHTTP] does once it has loaded the three pointers. *)
Definition serve (cfg : Config) (trusted acl : option clientACL) : prog unit :=
  if negb (acl_accepts acl trusted) then
    _ ← call (Log "client rejected by network ACL");
    writeAPIError StatusForbidden "client network is not allowed"
  else if bool_decide (URL_Path r = "/healthz") then
    writeJSON StatusOK (AObj {[ "status" := AStr "ok" ]})
  else if bool_decide (URL_Path r = "/readyz") then ready cfg
  else if negb (authorized r (InboundAPIKeys (Server cfg))) then
    _ ← call (SetHeader "WWW-Authenticate" "Bearer");
    writeAPIError StatusUnauthorized "invalid API key"
  else route cfg.

Definition ServeHTTP : prog unit :=
  cfg ← call LoadConfig;
  trusted ← call LoadTrusted;
  acl ← call LoadACL;
  serve cfg trusted acl.
End Route.
End Handlers.

(** ** The client's address behind a proxy *)

(** A request with these [X-Forwarded-For] lines. *)
Definition forwarded_as (r : Request) (lines : list string) : Request :=
  mkRequest (Method r) (URL_Path r) (URL_RawQuery r) (r_Host r) (RemoteAddr r) (r_TLS r)
    (<["X-Forwarded-For" := lines]> (r_Header r)) (r_Body r).

Lemma forwarded_as_line r lines : r_Header (forwarded_as r lines) !! "X-Forwarded-For" = Some lines.
Proof. apply lookup_insert_eq. Qed.

(** C39: A client that the access list refuses can pass for one that it admits,
    behind a trusted proxy that reports it in a header line of its own.  The
    proxy adds the line [client], with the client's address, after the line
    [claimed] that the client sent; only the first line is read, so the request
    is let in and, without an [Authorization] field, counts against the limits
    of the claimed address.  Had the proxy extended the line instead, the
    request would have been refused. *)
Theorem added_line_spoofed r t a claimed client s c :
  acl_contains t (parseRemoteIP (RemoteAddr r)) = true →
  contains claimed "," = false → ParseIP (trim_space claimed) = Some s → acl_contains t (Some s) = false →
  contains client "," = false → ParseIP (trim_space client) = Some c → acl_contains t (Some c) = false →
  acl_contains a (Some s) = true → acl_contains a (Some c) = false →
  acl_accepts (forwarded_as r [claimed; client]) (Some a) (Some t) = true
  ∧ acl_accepts (forwarded_as r [claimed +:+ "," +:+ client]) (Some a) (Some t) = false
  ∧ (header_Get (r_Header r) "Authorization" = "" →
     clientIdentity (forwarded_as r [claimed; client]) (Some t) = fingerprintIdentity "ip" (IP_String s)).
Proof.
  intros Hpeer Hcs Hs Hus Hcc Hc Huc Has Hac.
  assert (Hspoofed : client_ip (forwarded_as r [claimed; client]) (Some t) = Some s).
  { apply (client_ip_first_line _ t [] claimed [] [client] s); [done|apply forwarded_as_line|done|by constructor|done|done|].
    intros p Hp. by apply elem_of_nil in Hp. }
  assert (Hextended : client_ip (forwarded_as r [claimed +:+ "," +:+ client]) (Some t) = Some c).
  { apply (client_ip_first_line _ t [claimed] client [] [] c); [done|apply forwarded_as_line|done|by constructor|done|done|].
    intros p Hp. by apply elem_of_nil in Hp. }
  unfold acl_accepts, clientIdentity. rewrite Hspoofed, Hextended. split_and!; [done|done|].
  intros Hauth. assert (Hkeep : header_Get (r_Header (forwarded_as r [claimed; client])) "Authorization" = "").
  { unfold header_Get, forwarded_as in *. cbn [r_Header]. rewrite lookup_insert_ne by (by vm_compute). exact Hauth. }
  rewrite Hkeep. by rewrite bool_decide_eq_true_2.
Qed.

(** A proxy on the gateway's own host, and a list that admits [10.0.0.0/8]: the
    client [203.0.113.9] claims to be [10.0.0.1]. *)
Lemma added_line_spoofed_witness :
  ∃ a, newClientACL ["10.0.0.0/8"] = inr a
  ∧ acl_accepts (forwarded_request ["10.0.0.1"; "203.0.113.9"]) (Some a) (Some loopback_acl) = true
  ∧ acl_accepts (forwarded_request ["10.0.0.1,203.0.113.9"]) (Some a) (Some loopback_acl) = false.
Proof.
  assert (Ha : ∃ a, newClientACL ["10.0.0.0/8"] = inr a
    ∧ acl_contains a (Some (v4InV6Prefix ++ [10; 0; 0; 1])) = true
    ∧ acl_contains a (Some (v4InV6Prefix ++ [203; 0; 113; 9])) = false) by (eexists; vm_compute; split_and!; reflexivity).
  destruct Ha as (a & Ha & Hin & Hout). exists a. split; [exact Ha|].
  destruct (added_line_spoofed (forwarded_request []) loopback_acl a "10.0.0.1" "203.0.113.9"
    (v4InV6Prefix ++ [10; 0; 0; 1]) (v4InV6Prefix ++ [203; 0; 113; 9])) as (H1 & H2 & _);
    [vm_compute; reflexivity..|exact Hin|exact Hout|]. split; [exact H1|exact H2].
Defined.
