(* ===== verification/GatewaySpec.v ===== *)
(** * What the gateway guarantees ([ServeHTTP], [Reload] and the listings) *)

From Stdlib Require Import ZArith Lia.
From S2P Require Import Prelude GoStrings Float64 NetIP Http Value Config Limiter Queue ACL Headers Metrics Usage Effects Urls Discovery Proxy ProxySpec Readiness Gateway.

Local Open Scope Z_scope.

(** ** Guards

    A run of [ServeHTTP]: the pointers it loaded and the committed status. *)
Record serve_state := mkServe {
  sv_config : option Config;
  sv_trusted : option (option clientACL);
  sv_acl : option (option clientACL);
  sv_status : option Z
}.

Definition serve_start : serve_state := mkServe None None None None.

Section Guards.
Context (r : Request).

(** The network check passed. *)
Definition admitted (s : serve_state) : bool :=
  match sv_trusted s, sv_acl s with Some t, Some a => acl_accepts r a t | _, _ => false end.

(** The request carries a key of the loaded configuration as well. *)
Definition granted (s : serve_state) : bool :=
  admitted s &&
  match sv_config s with Some cfg => authorized r (InboundAPIKeys (Server cfg)) | None => false end.

(** The configuration and the access list are loaded once; logging and the
    reply are always possible, one status and no header after it; the readiness
    probe needs the network check; everything else - reading the body,
    admission, providers, usage, metrics, the environment - needs the key too. *)
Definition serve_step (X : Type) (c : cmd X) (x : X) (s : serve_state) : option serve_state :=
  let '(mkServe cfg t a st) := s in
  match c in cmd X return X → option serve_state with
  | LoadConfig => λ x, match cfg with None => Some (mkServe (Some x) t a st) | Some _ => None end
  | LoadTrusted => λ x, match t with None => Some (mkServe cfg (Some x) a st) | Some _ => Some s end
  | LoadACL => λ x, match a with None => Some (mkServe cfg t (Some x) st) | Some _ => None end
  | Log _ => λ _, Some s
  | SetHeader _ _ | AddHeaders _ => λ _, match st with None => Some s | Some _ => None end
  | WriteHeader status => λ _, match st with None => Some (mkServe cfg t a (Some status)) | Some _ => None end
  | WriteReply _ => λ _, Some (mkServe cfg t a (Some (default StatusOK st)))
  | CachedReadiness _ => λ _, if admitted s then Some s else None
  | _ => λ _, if granted s then Some s else None
  end x.

Abbreviation wps := (wp serve_step).

Lemma granted_admitted s : granted s = true → admitted s = true.
Proof. unfold granted. by intros [? _]%andb_true_iff. Qed.

(** A granted run follows the monitor of [proxy], and keeps its pointers. *)
Definition follows (s0 : serve_state) (rs : run_state) (s : serve_state) : Prop :=
  s = mkServe (sv_config s0) (sv_trusted s0) (sv_acl s0) (committed rs).

Lemma follows_step s0 X (c : cmd X) x rs s rs' :
  granted s0 = true → follows s0 rs s → run_step X c x rs = Some rs' →
  ∃ s', serve_step X c x s = Some s' ∧ follows s0 rs' s'.
Proof.
  intros Hg -> Hstep. destruct rs as [h o st nr na nc nf nu], s0 as [cfg t a st0].
  assert (Hg' : granted (mkServe cfg t a st) = true) by exact Hg.
  pose proof (granted_admitted _ Hg') as Ha. clear Hg. destruct t as [t|]; [|done].
  unfold follows. cbn [sv_config sv_trusted sv_acl committed].
  destruct c; cbn [run_step serve_step] in *; rewrite ?Hg', ?Ha;
    repeat match goal with
    | H : context [if ?b then _ else _] |- _ => destruct b eqn:?; try discriminate H
    | H : context [match ?b with _ => _ end] |- _ => destruct b eqn:?; try discriminate H
    end;
    simplify_eq/=; by eexists.
Qed.
End Guards.

(** ** The handlers under the monitor of [proxy] *)
Section Handlers.
Context `{MapOrder}.
Context (Quote : string → string) (r : Request).

Abbreviation wpr := (wp run_step).

(** A run that has replied. *)
Definition one_reply (s : run_state) : Prop := is_Some (committed s).

Lemma discover_loop_run_wp cfg names all errs
    (Q : list discoveredModel * gmap string discovery_error → run_state → Prop) :
  (∀ res, Q res (idle [] 0 0 0)) → wpr (discover_loop cfg names all errs) Q (idle [] 0 0 0).
Proof.
  intros HQ. revert all errs. induction names as [|name names IH]; intros all errs; [apply HQ|].
  cbn [discover_loop]. apply wp_bind, discoverProvider_run_wp. intros [e|ms]; apply IH.
Qed.

Lemma log_each_wp {A} message (errs : list A) (Q : unit → run_state → Prop) s :
  Q tt s → wpr (log_each message errs) Q s.
Proof.
  intros HQ. induction errs as [|e errs IH]; [done|]. cbn [log_each].
  apply wp_bind, wp_neutral; [by intros ? []|]. by intros _.
Qed.

Lemma write_reply_wp status body (Q : unit → run_state → Prop) :
  Q tt (mkRun [] false (Some status) 0 0 0 0 0) → wpr (write_reply status body) Q (idle [] 0 0 0).
Proof.
  intros HQ. unfold write_reply. apply wp_bind, wp_call. intros []. unfold idle. run_simpl.
  apply wp_bind, wp_call. intros []. run_simpl. apply wp_call. intros []. by run_simpl.
Qed.

Lemma writeJSON_wp status v (Q : unit → run_state → Prop) :
  Q tt (mkRun [] false (Some status) 0 0 0 0 0) → wpr (writeJSON status v) Q (idle [] 0 0 0).
Proof.
  intros HQ. unfold writeJSON, writeJSONStatus. apply wp_bind, wp_call. intros []. unfold idle. run_simpl.
  apply wp_bind, wp_call. intros []. run_simpl. apply wp_call. intros []. by run_simpl.
Qed.

Lemma models_wp cfg : wpr (models cfg) (λ _ s, one_reply s) (idle [] 0 0 0).
Proof.
  unfold models. apply wp_bind.
  assert (Hctx : ∀ Q : unit → run_state → Prop, Q tt (idle [] 0 0 0) → wpr (discoveryContext cfg) Q (idle [] 0 0 0)).
  { intros Q HQ. unfold discoveryContext. case_if; apply wp_neutral; (by intros ? []) || (by intros []). }
  apply Hctx, wp_bind, discover_loop_run_wp. intros [discovered errs].
  apply wp_bind, log_each_wp, wp_bind, writeJSON_wp, wp_neutral; [by intros ? []|]. intros _. by eexists.
Qed.

Lemma opencodeConfig_wp cfg : wpr (opencodeConfig r cfg) (λ _ s, one_reply s) (idle [] 0 0 0).
Proof.
  unfold opencodeConfig. apply wp_bind, wp_neutral; [by intros ? []|]. intros _.
  apply wp_bind, discover_loop_run_wp. intros [discovered errs]. apply wp_bind, log_each_wp, wp_bind.
  destruct (opencode_aliases cfg discovered); apply writeJSON_wp, wp_neutral; (by intros ? []) || (intros _; by eexists).
Qed.

Lemma writeAPIError_reply status message :
  wpr (writeAPIError status message) (λ _ s, one_reply s) (idle [] 0 0 0).
Proof. apply writeAPIError_wp. by eexists. Qed.

Lemma usageReport_wp : wpr (usageReport r) (λ _ s, one_reply s) (idle [] 0 0 0).
Proof.
  unfold usageReport. cbv zeta. case_if.
  { apply wp_bind, wp_neutral; [by intros ? []|]. intros snap. apply write_reply_wp. by eexists. }
  case_if; [apply writeAPIError_reply|]. apply wp_bind, wp_neutral; [by intros ? []|]. intros [items|].
  - apply write_reply_wp. by eexists.
  - apply wp_bind, wp_neutral; [by intros ? []|]. intros _. apply writeAPIError_reply.
Qed.

Lemma proxy_reply cfg : wpr (proxy Quote r cfg) (λ _ s, one_reply s) (idle [] 0 0 0).
Proof. eapply wp_mono; [apply proxy_wp|]. intros _ s (status & nc & nf & nu & -> & _). by eexists. Qed.

(** Every route but the metrics replies under [run_step]; with the key, every
    route replies under the monitor of [ServeHTTP]. *)
Lemma granted_reply (p : prog unit) cfg t a :
  wpr p (λ _ s, one_reply s) (idle [] 0 0 0) → granted r (mkServe cfg t a None) = true →
  wp (serve_step r) p (λ _ s', ∃ status, s' = mkServe cfg t a (Some status)) (mkServe cfg t a None).
Proof.
  intros Hp Hg. eapply wp_mono.
  - apply (wp_simulates run_step (serve_step r) (follows (mkServe cfg t a None)) p (λ _ s, one_reply s) (idle [] 0 0 0)).
    + intros. by eapply follows_step.
    + done.
    + exact Hp.
  - intros _ s' (rs & -> & [status Hr]). exists status. by rewrite Hr.
Qed.

(** The replies outside the routes. *)
Lemma serve_json_wp status v cfg t a (Q : unit → serve_state → Prop) :
  Q tt (mkServe cfg t a (Some status)) → wp (serve_step r) (writeJSON status v) Q (mkServe cfg t a None).
Proof. intros HQ. unfold writeJSON, writeJSONStatus. intros [] [] []. exact HQ. Qed.

Lemma serve_error_wp status message cfg t a (Q : unit → serve_state → Prop) :
  Q tt (mkServe cfg t a (Some status)) → wp (serve_step r) (writeAPIError status message) Q (mkServe cfg t a None).
Proof. apply serve_json_wp. Qed.

Lemma ready_wp cfg c t a :
  admitted r (mkServe c t a None) = true →
  wp (serve_step r) (ready cfg) (λ _ s', ∃ status, s' = mkServe c t a (Some status) ∧
    (status = StatusOK ∨ status = StatusServiceUnavailable)) (mkServe c t a None).
Proof.
  intros Ha. apply wp_bind. intros x. cbn [serve_step]. rewrite Ha. cbn [wp]. destruct x as [res|].
  - destruct (rr_ready res); apply serve_json_wp; eexists; (split; [done|tauto]).
  - apply serve_error_wp. eexists. split; [done|tauto].
Qed.

Lemma write_metrics_wp cfg t a :
  granted r (mkServe cfg t a None) = true →
  wp (serve_step r) write_metrics (λ _ s', s' = mkServe cfg t a (Some StatusOK)) (mkServe cfg t a None).
Proof. intros Hg depth. cbn [serve_step]. rewrite Hg. intros [] m. cbn [serve_step]. rewrite Hg. by intros []. Qed.

Lemma route_wp cfg c t a :
  granted r (mkServe c t a None) = true →
  wp (serve_step r) (route Quote r cfg) (λ _ s', ∃ status, s' = mkServe c t a (Some status)) (mkServe c t a None).
Proof.
  intros Hg. unfold route. case_if; [apply granted_reply, Hg; apply opencodeConfig_wp|].
  case_if; [apply granted_reply, Hg; apply models_wp|].
  case_if; [apply granted_reply, Hg; apply usageReport_wp|].
  case_if; [eapply wp_mono; [by apply write_metrics_wp|]; intros _ s' ->; by eexists|].
  case_if; [apply granted_reply, Hg; apply proxy_reply|].
  apply serve_error_wp. by eexists.
Qed.

(** The status of a run that loaded the three pointers. *)
Definition serve_status (cfg : Config) (trusted acl : option clientACL) (status : Z) : Prop :=
  if negb (acl_accepts r acl trusted) then status = StatusForbidden
  else if bool_decide (URL_Path r = "/healthz") then status = StatusOK
  else if bool_decide (URL_Path r = "/readyz") then status = StatusOK ∨ status = StatusServiceUnavailable
  else if negb (authorized r (InboundAPIKeys (Server cfg))) then status = StatusUnauthorized
  else True.

Lemma serve_wp cfg t a :
  wp (serve_step r) (serve Quote r cfg t a)
    (λ _ s', ∃ status, s' = mkServe (Some cfg) (Some t) (Some a) (Some status) ∧ serve_status cfg t a status)
    (mkServe (Some cfg) (Some t) (Some a) None).
Proof.
  unfold serve, serve_status. destruct (acl_accepts r a t) eqn:Ha; cbn [negb].
  2:{ intros []. apply serve_error_wp. by eexists. }
  case_if; [intros [] [] []; by eexists|].
  case_if; [by apply ready_wp|].
  destruct (authorized r (InboundAPIKeys (Server cfg))) eqn:Hauth; cbn [negb].
  - eapply wp_mono; [apply route_wp|].
    + unfold granted, admitted. cbn. by rewrite Ha, Hauth.
    + intros _ s' [status ->]. by exists status.
  - intros []. apply serve_error_wp. by eexists.
Qed.

(** C5: Every request gets exactly one reply, and the guards come first: the
    configuration and the access list are read once each, a client outside the
    access list gets 403, one without a valid key 401 (but for the two health
    routes), and until both checks of the loaded configuration have passed
    nothing of the body is read, no limit, usage record or counter is touched
    and no provider is contacted (but for the readiness probe, behind the
    network check). *)
Theorem serve_guarded tr u :
  exec (ServeHTTP Quote r) tr u →
  ∃ cfg trusted acl status,
    monitor (serve_step r) serve_start tr = Some (mkServe (Some cfg) (Some trusted) (Some acl) (Some status)) ∧
    serve_status cfg trusted acl status.
Proof.
  intros He. assert (Hwp : wp (serve_step r) (ServeHTTP Quote r)
    (λ _ s', ∃ cfg t a status, s' = mkServe (Some cfg) (Some t) (Some a) (Some status) ∧ serve_status cfg t a status)
    serve_start).
  { intros cfg t a. eapply wp_mono; [apply serve_wp|]. intros _ s' (status & -> & Hs). by eexists _, _, _, _. }
  destruct (wp_sound _ _ _ _ _ _ Hwp He) as (s & Hm & cfg & t & a & status & -> & Hs).
  by eexists _, _, _, _.
Qed.
End Handlers.

(** An authenticated request for the metrics, and the environment that serves
    it: the key ["k"], no networks. *)
Definition keyed_server (networks : list string) (keys : list string) : ServerConfig :=
  mkServerConfig "" keys "" 0 zero_Limits 0 0 0 0 0 0 0 0
    (mkQueueConfig None 0 0) (mkLoggingConfig false false false false 0) networks [].

Definition metrics_request : Request :=
  mkRequest "GET" "/_shepard/metrics" "" "shepard" "192.0.2.1:5000" false {[ "Authorization" := ["Bearer k"] ]} "".

Definition keyed_env (keys : list string) : answerer := λ X c,
  match c in cmd X return X with
  | LoadConfig => mkConfig (keyed_server [] keys) ∅ ∅
  | LoadACL => Some (mkACL [])
  | c => inert _ c
  end.

Definition metrics_run (keys : list string) :=
  run_with 0 (λ _, keyed_env keys)
    (ServeHTTP (H := order_forward) (λ s, s) metrics_request).

Lemma serve_guarded_witness :
  ∃ cfg status,
    monitor (serve_step metrics_request) serve_start (metrics_run ["other"]).1
    = Some (mkServe (Some cfg) (Some None) (Some (Some (mkACL []))) (Some status)) ∧ status = StatusUnauthorized.
Proof.
  destruct (serve_guarded (H := order_forward) (λ s, s) metrics_request
    (metrics_run ["other"]).1 (metrics_run ["other"]).2 (run_with_exec _ _ _))
    as (cfg & t & a & status & Hm & _).
  exists cfg, status. vm_compute in Hm. injection Hm as <- <- <- <-. by split; vm_compute.
Defined.

(** ** The listings *)
Section Listings.
Context `{MapOrder}.

Lemma elem_of_range_keys {V} (m : gmap string V) k : k ∈ range_keys m ↔ is_Some (m !! k).
Proof. unfold range_keys. rewrite map_range_perm. apply elem_of_map_keys. Qed.

Lemma NoDup_range_keys {V} (m : gmap string V) : NoDup (range_keys m).
Proof. apply NoDup_map_range. Qed.

(** The state of the two loops: no id twice, and [seen] is the set of the ids. *)
Definition listing_wf (st : list (string * string) * gset string) : Prop :=
  NoDup st.1.*1 ∧ ∀ id, id ∈ st.2 ↔ id ∈ st.1.*1.

Lemma list_alias_fold l st :
  listing_wf st → NoDup l → (∀ id, id ∈ l → id ∉ st.2) →
  (foldl list_alias st l).1 = st.1 ++ ((λ a, (a, "shepard")) <$> l) ∧ listing_wf (foldl list_alias st l).
Proof.
  revert st. induction l as [|a l IH]; intros st Hwf Hnd Hnew; [by rewrite app_nil_r|].
  apply NoDup_cons in Hnd as [Ha Hnd]. destruct Hwf as [Hn Hs]. cbn [foldl].
  assert (Hni : a ∉ st.1.*1) by (rewrite <- Hs; apply Hnew; set_solver).
  destruct (IH (list_alias st a)) as [IH1 IH2].
  - unfold list_alias, listing_wf. cbn [fst snd]. rewrite fmap_app. split.
    + apply NoDup_app. split_and!; [done|set_solver|apply NoDup_singleton].
    + intros id. cbn. specialize (Hs id). set_solver.
  - done.
  - intros id Hid. cbn. specialize (Hnew id). set_solver.
  - split; [|done]. rewrite IH1. cbn. by rewrite <- app_assoc.
Qed.

Lemma list_discovered_fold l st :
  listing_wf st → ∃ more,
  (foldl list_discovered st l).1 = st.1 ++ more ∧ listing_wf (foldl list_discovered st l) ∧
  (∀ id owner, (id, owner) ∈ more → ∃ m, m ∈ l ∧ dm_Alias m = id ∧ dm_Provider m = owner) ∧
  (∀ m, m ∈ l → dm_Alias m ∈ (st.1 ++ more).*1).
Proof.
  revert st. induction l as [|m l IH]; intros st Hwf.
  { exists []. rewrite app_nil_r. split_and!; [done|done|set_solver|set_solver]. }
  destruct Hwf as [Hn Hs]. cbn [foldl]. unfold list_discovered at 2 4. case_bool_decide as Hin.
  - destruct (IH st ltac:(by split)) as (more & H1 & H2 & H3 & H4). exists more. split_and!; [done|done| |].
    + intros id owner Hm. destruct (H3 _ _ Hm) as (m' & ? & ? & ?). exists m'. split_and!; [by right|done..].
    + intros m' [-> |Hm']%elem_of_cons; [|by apply H4]. rewrite fmap_app, elem_of_app. left. by apply Hs.
  - destruct (IH (st.1 ++ [(dm_Alias m, dm_Provider m)], {[ dm_Alias m ]} ∪ st.2)) as (more & H1 & H2 & H3 & H4).
    + unfold listing_wf. cbn [fst snd]. rewrite fmap_app. split.
      * apply NoDup_app. split_and!; [done|specialize (Hs (dm_Alias m)); set_solver|apply NoDup_singleton].
      * intros id. cbn. specialize (Hs id). set_solver.
    + exists ((dm_Alias m, dm_Provider m) :: more). rewrite H1. cbn [fst] in *. rewrite <- app_assoc in *.
      split_and!; [done|done| |].
      * intros id owner [[= -> ->]|Hm]%elem_of_cons; [exists m; split_and!; [by left|done..]|].
        destruct (H3 _ _ Hm) as (m' & ? & ? & ?). exists m'. split_and!; [by right|done..].
      * intros m' [-> |Hm']%elem_of_cons; [|by apply H4].
        rewrite !fmap_app, fmap_cons. set_solver.
Qed.

(** The ids of a listing. *)
Definition listed (entries : list (string * string)) : list string := entries.*1.

(** C30: the model listing holds every configured alias, sorted and owned by
    ["shepard"], then the discovered models that no configured alias hides; no
    id appears twice, every discovered alias is listed, and every further entry
    is a discovered model under its provider's name. *)
Theorem models_listing_spec cfg discovered :
  ∃ more, models_data cfg discovered
    = ((λ alias, (alias, "shepard")) <$> sort_strings (map_keys (Models cfg))) ++ more ∧
  NoDup (listed (models_data cfg discovered)) ∧
  StronglySorted String.le (sort_strings (map_keys (Models cfg))) ∧
  (∀ id, id ∈ (listed (models_data cfg discovered)) ↔ is_Some (Models cfg !! id) ∨ ∃ m, m ∈ discovered ∧ dm_Alias m = id) ∧
  (∀ id owner, (id, owner) ∈ more → Models cfg !! id = None ∧
     ∃ m, m ∈ discovered ∧ dm_Alias m = id ∧ dm_Provider m = owner).
Proof.
  unfold listed. assert (Hperm : range_keys (Models cfg) ≡ₚ map_keys (Models cfg))
    by (unfold range_keys, map_keys; by rewrite map_range_perm).
  unfold models_data. rewrite (sort_strings_unique _ _ Hperm). set (aliases := sort_strings (map_keys (Models cfg))).
  assert (Hnd : NoDup aliases) by (unfold aliases; rewrite sort_strings_perm; apply NoDup_map_keys).
  assert (Hin : ∀ id, id ∈ aliases ↔ is_Some (Models cfg !! id))
    by (intros id; unfold aliases; rewrite sort_strings_perm; apply elem_of_map_keys).
  destruct (list_alias_fold aliases ([], ∅)) as [H1 Hwf]; [split; [constructor|set_solver]|done|set_solver|].
  destruct (list_discovered_fold discovered _ Hwf) as (more & H2 & [Hnd' _] & H3 & H4).
  rewrite H1 in H2, H4. cbn [fst app] in H1, H2, H4. rewrite H2 in *. exists more.
  rewrite fmap_app in Hnd'. assert (Hids : ((λ alias, (alias, "shepard")) <$> aliases).*1 = aliases).
  { rewrite <- list_fmap_compose. apply list_fmap_id. }
  split_and!; [done|by rewrite fmap_app|apply sort_strings_sorted| |].
  - intros id. rewrite fmap_app, Hids, elem_of_app, Hin. split.
    + intros [?|Hm]; [by left|right]. apply list_elem_of_fmap in Hm as ([i o] & -> & Hm).
      destruct (H3 _ _ Hm) as (m & ? & ? & _). by exists m.
    + intros [?|(m & Hm & <-)]; [by left|]. specialize (H4 m Hm). rewrite fmap_app, Hids, elem_of_app, Hin in H4. done.
  - intros id owner Hm. split; [|by apply H3]. apply NoDup_app in Hnd' as (_ & Hd & _). rewrite Hids in Hd.
    destruct (Models cfg !! id) eqn:E; [|done]. exfalso. apply (Hd id).
    + apply Hin. by rewrite E.
    + apply list_elem_of_fmap. by exists (id, owner).
Qed.

Lemma model_ids_lookup cfg discovered id :
  is_Some (model_ids cfg discovered !! id) ↔ is_Some (Models cfg !! id) ∨ ∃ m, m ∈ discovered ∧ dm_Alias m = id.
Proof.
  assert (Hfold : ∀ {A} (key : A → string) l (acc : gmap string unit),
    is_Some (foldl (λ ids x, <[key x := tt]> ids) acc l !! id) ↔ is_Some (acc !! id) ∨ ∃ x, x ∈ l ∧ key x = id).
  { intros A key l. induction l as [|x l IH]; intros acc; cbn [foldl].
    - split; [by left|]. intros [?|(x & Hx & _)]; [done|set_solver].
    - rewrite IH. destruct (decide (key x = id)) as [<-|Hne].
      + rewrite lookup_insert_eq. split; [|by left; eexists]. intros _. right. exists x. split; [by left|done].
      + rewrite lookup_insert_ne by done. split; (intros [?|(y & Hy & Hk)]; [by left|right; exists y]).
        * split; [by right|done].
        * apply elem_of_cons in Hy as [->|Hy]; [done|by split]. }
  unfold model_ids. rewrite (Hfold _ dm_Alias), (Hfold _ (λ a, a)). rewrite lookup_empty.
  split.
  - intros [[[? ?]|(a & Ha & <-)]|?]; [done|left; by apply elem_of_range_keys|by right].
  - intros [?|?]; [left; right; exists id; split; [by apply elem_of_range_keys|done]|by right].
Qed.

(** The OpenCode document lists every configured and every discovered alias
    once, in order, and its default model is the least of them, whatever order
    the runtime ranges over the maps in; it is refused exactly when there is no
    model at all. *)
Theorem opencode_aliases_spec cfg discovered :
  let aliases := opencode_aliases cfg discovered in
  NoDup aliases ∧ StronglySorted String.le aliases ∧
  (∀ id, id ∈ aliases ↔ is_Some (Models cfg !! id) ∨ ∃ m, m ∈ discovered ∧ dm_Alias m = id) ∧
  (aliases = [] ↔ Models cfg = ∅ ∧ discovered = []) ∧
  (∀ first rest id, aliases = first :: rest → id ∈ aliases → String.le first id).
Proof.
  cbv zeta. unfold opencode_aliases. set (keys := range_keys (model_ids cfg discovered)).
  assert (Hin : ∀ id, id ∈ sort_strings keys ↔ is_Some (Models cfg !! id) ∨ ∃ m, m ∈ discovered ∧ dm_Alias m = id).
  { intros id. rewrite sort_strings_perm. unfold keys. by rewrite elem_of_range_keys, model_ids_lookup. }
  split_and!; [rewrite sort_strings_perm; apply NoDup_range_keys|apply sort_strings_sorted|done| |].
  - split.
    + intros He. rewrite He in Hin. split.
      * apply map_eq. intros id. rewrite lookup_empty. apply eq_None_not_Some. intros Hs.
        apply (not_elem_of_nil id), Hin. by left.
      * destruct discovered as [|m ds]; [done|]. exfalso. apply (not_elem_of_nil (dm_Alias m)), Hin. right.
        exists m. split; [by left|done].
    + intros [Hm ->]. destruct (sort_strings keys) as [|x l]; [done|].
      destruct (proj1 (Hin x)) as [[? Hx]|(? & Hx & _)]; [by left| |set_solver].
      by rewrite Hm, lookup_empty in Hx.
  - intros first rest id He Hid. pose proof (sort_strings_sorted keys) as Hs. rewrite He in Hs, Hid.
    apply StronglySorted_inv in Hs as [_ Hall]. apply elem_of_cons in Hid as [->|Hid]; [done|].
    rewrite Forall_forall in Hall. by apply Hall.
Qed.
End Listings.

(** ** Reload *)

(** The gateway [g'] that runs with [cfg], published over [g]: requests in
    flight keep their place in the queue and their concurrency, the buckets and
    the caches start afresh, and a probe in flight will not be cached. *)
Record published (cfg : Config) (g g' : Gateway) : Prop := {
  pub_config : g_config g' = cfg;
  pub_acl : ∃ acl, newClientACL (ClientNetworks (Server cfg)) = inr acl ∧ g_acl g' = Some acl;
  pub_trusted : ∃ trusted, newClientACL (TrustedProxyNetworks (Server cfg)) = inr trusted ∧
    g_trusted g' = if bool_decide (TrustedProxyNetworks (Server cfg) = []) then None else Some trusted;
  pub_queue : g_queue g' = mkQueue (waiting (g_queue g)) (queueSize cfg);
  pub_discovery : g_discovery g' = ∅;
  pub_readiness : g_readiness g' = readinessCache_clear (g_readiness g);
  pub_limits : g_limits g' = mkLimitStore ∅ (concurrent (g_limits g));
  pub_path : g_usageDBPath g' = g_usageDBPath g
}.

Lemma Reload_published cfg g g' : Reload cfg g = (g', None) → published cfg g g' ∧ UsageDB (Server cfg) = g_usageDBPath g.
Proof.
  unfold Reload, reload_stores. destruct (bool_decide (UsageDB (Server cfg) = g_usageDBPath g)) eqn:Ep; [|done].
  cbn [negb]. unfold networks_of. destruct (newClientACL (ClientNetworks _)) as [?|acl] eqn:Ea; [done|].
  destruct (newClientACL (TrustedProxyNetworks _)) as [?|trusted] eqn:Et; [done|]. intros [= <-].
  destruct g as [? ? ? ? ? ? ? ?]. split; [|by bool_to_prop]. split; cbn; try done; by eexists.
Qed.

Lemma Reload_error cfg g g' e : Reload cfg g = (g', Some e) →
  g' = g ∧ (UsageDB (Server cfg) ≠ g_usageDBPath g ∨ ∃ v, networks_of cfg = inl v).
Proof.
  unfold Reload, reload_stores. destruct (bool_decide (UsageDB (Server cfg) = g_usageDBPath g)) eqn:Ep; cbn [negb].
  - destruct (networks_of cfg) as [e'|[acl trusted]]; [|done]. intros [= <- <-]. split; [done|right; by eexists].
  - intros [= <- <-]. bool_to_prop. by split; [|left].
Qed.

(** The networks of a validated configuration always build. *)
Lemma networks_of_ok cfg : config_ok cfg → ∃ acl trusted, networks_of cfg = inr (acl, trusted).
Proof.
  intros Hok. pose proof (so_networks _ (co_server _ Hok)) as Hn.
  assert (Hb : ∀ l, (∀ v, v ∈ l → network_ok v) → ∃ acl, newClientACL l = inr acl).
  { intros l Hl. apply newClientACL_loop_ok. intros v Hv. by apply parse_network_ok, Hl. }
  destruct (Hb (ClientNetworks (Server cfg))) as [acl Ha]; [intros; apply Hn; set_solver|].
  destruct (Hb (TrustedProxyNetworks (Server cfg))) as [trusted Ht]; [intros; apply Hn; set_solver|].
  exists acl, trusted. unfold networks_of. by rewrite Ha, Ht.
Qed.

(** C13: A SIGHUP publishes the new configuration completely or leaves the
    gateway as it is.  It is published exactly when the file loads and names
    the same usage database (a validated configuration cannot fail on its
    networks); then the running configuration is valid, the access lists are
    those of the configuration, waiting requests and concurrency counts carry
    over and every cache is cleared. *)
Theorem hangup_spec `{MapOrder} {E} (read : string → E + Config) path g :
  let '(g', lines) := on_hangup read path g in
  (∃ cfg, Load read path = inr cfg ∧ UsageDB (Server cfg) = g_usageDBPath g ∧ config_ok cfg ∧ published cfg g g' ∧
     lines = option_list (logExposureWarnings cfg) ++ ["configuration reloaded"]) ∨
  (g' = g ∧ lines = ["reload configuration"] ∧
     ∀ cfg, Load read path = inr cfg → UsageDB (Server cfg) ≠ g_usageDBPath g).
Proof.
  unfold on_hangup. destruct (Load read path) as [e|cfg] eqn:El; [by right|].
  destruct (Load_inr _ _ _ El) as (_ & _ & _ & Hok). destruct (Reload cfg g) as [g' [e|]] eqn:Er.
  - right. destruct (Reload_error _ _ _ _ Er) as [-> [Hdb|[v Hv]]].
    + split_and!; [done..|]. by intros ? [= <-].
    + destruct (networks_of_ok cfg Hok) as (? & ? & Hn). by rewrite Hv in Hn.
  - left. exists cfg. apply Reload_published in Er as [Hp Hdb]. by split_and!.
Qed.

(** *** A request between two stores *)

(** A configuration with keys and no networks, and one with networks and no
    keys; either refuses a stranger. *)
Definition exposed_config (networks keys : list string) : Config :=
  mkConfig (keyed_server networks keys) (Providers (defaults example_config)) (Models (defaults example_config)).

Definition stranger : Request := mkRequest "POST" "/v1/chat/completions" "" "shepard" "192.0.2.1:5000" false ∅ "".

Definition keyed_gateway : Gateway :=
  mkGateway (exposed_config [] ["k"]) (Some (mkACL [])) None (newRequestQueue 0) ∅ newReadinessCache newLimitStore "".

(** C35: A reload is not atomic for a request that runs meanwhile: replacing a
    valid configuration that demands a key by a valid one that admits one
    network only, a request from elsewhere without a key is refused before the
    reload and after it, yet is proxied when it loads its pointers between the
    first two stores. *)
Theorem torn_reload `{MapOrder} Quote :
  let old := exposed_config [] ["k"] in
  let new := exposed_config ["10.0.0.0/8"] [] in
  ∃ ops, reload_stores new keyed_gateway = inr ops ∧
    Validate (H := order_forward) old = None ∧
    Validate (H := order_forward) new = None ∧
    let request g := serve Quote stranger (g_config g) (g_trusted g) (g_acl g) in
    request keyed_gateway
    = (_ ← call (SetHeader "WWW-Authenticate" "Bearer"); writeAPIError StatusUnauthorized "invalid API key") ∧
    request (apply_stores ops keyed_gateway)
    = (_ ← call (Log "client rejected by network ACL"); writeAPIError StatusForbidden "client network is not allowed") ∧
    request (apply_stores (take 1 ops) keyed_gateway) = proxy Quote stranger new.
Proof.
  cbv zeta. eexists. split; [vm_compute; reflexivity|].
  split; [vm_compute; reflexivity|]. split; [vm_compute; reflexivity|].
  assert (Hgate : ∀ g a t, acl_accepts stranger (g_acl g) (g_trusted g) = a →
    authorized stranger (InboundAPIKeys (Server (g_config g))) = t →
    serve Quote stranger (g_config g) (g_trusted g) (g_acl g)
    = if negb a then
        _ ← call (Log "client rejected by network ACL");
        writeAPIError StatusForbidden "client network is not allowed"
      else if negb t then
        _ ← call (SetHeader "WWW-Authenticate" "Bearer"); writeAPIError StatusUnauthorized "invalid API key"
      else proxy Quote stranger (g_config g)) by (intros g a t <- <-; reflexivity).
  split_and!; (etrans; [apply Hgate; vm_compute; reflexivity|]); reflexivity.
Qed.
