(* ===== verification/System.v ===== *)
(** * Requests side by side

    Any number of requests run [proxy] at once over one limiter and one queue,
    while reloads change the queue size and clear the buckets.  A request is
    its remaining program; a call of [admitWithQueue] takes the small steps of
    [requestQueue.wait], which interleave with the steps of every other request.
    All other commands may answer anything. *)

From Stdlib Require Import ZArith Lia Ascii.
From S2P Require Import Prelude GoStrings Float64 Http Value Config Limiter Queue ACL Headers Payload Buffers Metrics Effects Stream Json Usage Urls Discovery Proxy ProxySpec.

Local Open Scope Z_scope.

(** ** Threads *)

(** A request with the scopes it holds, last first: between two commands, or
    inside a call of [admitWithQueue]. *)
Inductive thread :=
  | Running (p : prog unit) (hs : list (list admissionScope))
  | Admitting (timeout : Z) (scopes : list admissionScope) (pc : wait_pc) (k : bool * bool → prog unit)
      (hs : list (list admissionScope)).

Record system := mkSystem { sys_shared : shared; sys_threads : list thread }.

(** The commands that touch the limiter. *)
Definition limiter_cmd {X} (c : cmd X) : bool :=
  match c with AdmitWithQueue _ _ | Release _ => true | _ => false end.

(** One step of one thread. *)
Inductive thread_step : shared → thread → shared → thread → Prop :=
  | thread_cmd sh X (c : cmd X) k x hs :
      limiter_cmd c = false → thread_step sh (Running (Step c k) hs) sh (Running (k x) hs)
  | thread_admit sh timeout scopes k hs :
      thread_step sh (Running (Step (AdmitWithQueue timeout scopes) k) hs) sh (Admitting timeout scopes WTry k hs)
  | thread_wait sh sh' timeout scopes pc pc' k hs now w :
      wait_step now w scopes (pc, sh) = (pc', sh') →
      thread_step sh (Admitting timeout scopes pc k hs) sh' (Admitting timeout scopes pc' k hs)
  | thread_return sh timeout scopes a q k hs :
      thread_step sh (Admitting timeout scopes (WReturn a q) k hs) sh
        (Running (k (a, q)) (if a then scopes :: hs else hs))
  | thread_release sh scopes k hs :
      thread_step sh (Running (Step (Release scopes) k) hs)
        (mkShared (release scopes (sh_limits sh)) (sh_queue sh)) (Running (k tt) (tail hs)).

(** [start] says which programs requests run; a reload sets a size of at most
    [size]. *)
Inductive system_step (start : prog unit → Prop) (size : Z) : system → system → Prop :=
  | system_arrive sh ts p :
      start p → system_step start size (mkSystem sh ts) (mkSystem sh (Running p [] :: ts))
  | system_thread sh sh' t t' l1 l2 :
      thread_step sh t sh' t' → system_step start size (mkSystem sh (l1 ++ t :: l2)) (mkSystem sh' (l1 ++ t' :: l2))
  | system_done sh hs l1 l2 :
      system_step start size (mkSystem sh (l1 ++ Running (Ret tt) hs :: l2)) (mkSystem sh (l1 ++ l2))
  | system_set_max sh ts m :
      in_int64 m → m ≤ size →
      system_step start size (mkSystem sh ts) (mkSystem (mkShared (sh_limits sh) (setMax m (sh_queue sh))) ts)
  | system_clear sh ts :
      system_step start size (mkSystem sh ts) (mkSystem (mkShared (limitStore_clear (sh_limits sh)) (sh_queue sh)) ts).

Definition system_init (m : Z) : system := mkSystem (mkShared newLimitStore (newRequestQueue m)) [].

Definition system_reachable (start : prog unit → Prop) (size m : Z) : system → Prop :=
  rtc (system_step start size) (system_init m).

(** What a thread holds, and whether it is counted as waiting. *)
Definition thread_holds (t : thread) : list (list admissionScope) :=
  match t with
  | Running _ hs => hs
  | Admitting _ scopes pc _ hs => if is_admitted pc then scopes :: hs else hs
  end.

Definition thread_waiting (t : thread) : Z :=
  match t with Admitting _ _ pc _ _ => if is_waiting pc then 1 else 0 | _ => 0 end.

Definition all_holds (ts : list thread) : list (list admissionScope) := mjoin (thread_holds <$> ts).

(** ** The scopes that a program presents *)
Section Admits.
Context (P : list admissionScope → Prop).

Fixpoint all_admits {A} (R : A → Prop) (p : prog A) : Prop :=
  match p with
  | Ret a => R a
  | Step c k => match c with AdmitWithQueue _ scopes => P scopes | _ => True end ∧ ∀ x, all_admits R (k x)
  end.

Lemma all_admits_bind' {A B} (R : A → Prop) (R' : B → Prop) (p : prog A) (f : A → prog B) :
  all_admits R p → (∀ a, R a → all_admits R' (f a)) → all_admits R' (p ≫= f).
Proof.
  intros Hp Hf. induction p as [a|X c k IH]; [by apply Hf|]. destruct Hp as [Hc Hk]. split; [done|].
  intros x. by apply IH.
Qed.

Lemma all_admits_bind {A B} (R : B → Prop) (p : prog A) (f : A → prog B) :
  all_admits (λ _, True) p → (∀ a, all_admits R (f a)) → all_admits R (p ≫= f).
Proof. intros Hp Hf. eapply all_admits_bind'; [exact Hp|auto]. Qed.

Lemma all_admits_when b p : all_admits (λ _, True) p → all_admits (λ _, True) (when b p).
Proof. by destruct b. Qed.
End Admits.

Abbreviation presents P := (all_admits P (λ _, True)).

Create HintDb admits_db.

(** Walk through a program, command by command and branch by branch. *)
Ltac admits :=
  repeat (intros; first
    [ exact I
    | assumption
    | solve [auto 2 with admits_db]
    | progress (cbv zeta)
    | match goal with
      | |- all_admits _ _ (mbind _ _) => apply all_admits_bind
      | |- all_admits _ _ (when _ _) => apply all_admits_when
      | |- all_admits _ _ (call _) => split; [try exact I|]
      | |- all_admits _ _ (Ret _) => exact I
      | |- all_admits _ _ (if ?b then _ else _) => destruct b
      | |- all_admits _ _ (match ?b with _ => _ end) => destruct b
      end ]).

Section Programs.
Context `{MapOrder}.
Context (P : list admissionScope → Prop).

Lemma provider_headers_admits h p : presents P (provider_headers h p).
Proof. unfold provider_headers. admits. Qed.
Hint Resolve provider_headers_admits : admits_db.

Lemma writeAPIError_admits status message : presents P (writeAPIError status message).
Proof. unfold writeAPIError, writeJSONStatus. admits. Qed.
Hint Resolve writeAPIError_admits : admits_db.

Lemma discoverProvider_admits name p : presents P (discoverProvider name p).
Proof. unfold discoverProvider, read_models. admits. Qed.

Lemma doUpstreamRequest_admits r p body : presents P (doUpstreamRequest r p body).
Proof. unfold doUpstreamRequest. admits. Qed.
Hint Resolve doUpstreamRequest_admits : admits_db.

Lemma logRequest_admits l r model body : presents P (logRequest l r model body).
Proof. unfold logRequest. admits. Qed.
Hint Resolve logRequest_admits : admits_db.

Lemma logResponse_admits l resp name model body : presents P (logResponse l resp name model body).
Proof. unfold logResponse. admits. Qed.
Hint Resolve logResponse_admits : admits_db.

Context (Quote : string → string) (r : Request) (cfg : Config).
Context (Hingress : ∀ id, P (ingress_scopes cfg id)).
Context (Hprovider : ∀ name, P (provider_scopes name (map_get zero_Provider (Providers cfg) name))).
Context (Hmodel : ∀ alias m, Models cfg !! alias = Some m → P (model_scopes alias m)).
Context (Hdiscovered : ∀ alias name model, P (model_scopes alias (discovered_model name model))).
Hint Resolve Hingress Hprovider : admits_db.

Lemma attempt_loop_admits m c body another n attempt st :
  presents P (attempt_loop r cfg m c (provider_of cfg c) body another n attempt st).
Proof.
  revert attempt st. induction n as [|n IH]; intros attempt st; [exact I|]. cbn [attempt_loop].
  unfold waitForRetry. admits.
Qed.
Hint Resolve attempt_loop_admits : admits_db.

Lemma target_loop_admits m p targets st : presents P (target_loop r cfg m p targets st).
Proof.
  revert st. induction targets as [|c targets IH]; intros st; [exact I|]. cbn [target_loop]. admits.
Qed.
Hint Resolve target_loop_admits : admits_db.

Lemma no_response_admits clientID alias st : presents P (no_response clientID alias st).
Proof. unfold no_response. admits. Qed.
Hint Resolve no_response_admits : admits_db.

Lemma io_Copy_admits sse idle t : presents P (io_Copy sse idle t).
Proof.
  unfold io_Copy. apply all_admits_bind; [admits|]. intros n. revert t.
  induction n as [|n IH]; intros t; cbn [copy_loop]; unfold destination_Write, flushWriter_Write; admits.
Qed.
Hint Resolve io_Copy_admits : admits_db.

Lemma relay_admits clientID alias c resp : presents P (relay cfg clientID alias c resp).
Proof. unfold relay. admits. Qed.
Hint Resolve relay_admits : admits_db.

Lemma proxy_model_admits clientID alias m p :
  P (model_scopes alias m) → presents P (proxy_model r cfg clientID alias m p).
Proof. intros Hm. unfold proxy_model, proxy_targets, writeRateLimitError. admits. Qed.

(** A resolved model is a configured one or a discovered one. *)
Lemma proxy_resolve_admits alias :
  all_admits P (λ o, match o with Some m => P (model_scopes alias m) | None => True end) (proxy_resolve Quote cfg alias).
Proof.
  unfold proxy_resolve. destruct (Models cfg !! alias) as [m|] eqn:E; [by apply (Hmodel alias)|].
  assert (Hloop : ∀ l, all_admits P (λ o, match o with inr (Some m) => P (model_scopes alias m) | _ => True end)
    (resolve_loop alias l)).
  { induction l as [|[name p] l IH]; [exact I|]. cbn [resolve_loop]. case_if; [done|].
    apply all_admits_bind; [apply discoverProvider_admits|]. intros [e|ms]; [exact I|].
    destruct (list_find _ ms) as [[i m]|]; [apply Hdiscovered|exact I]. }
  eapply all_admits_bind'; [apply Hloop|]. intros [e|[m|]] Hm; [|exact Hm|];
    (repeat (apply all_admits_bind; [admits|intros _])); exact I.
Qed.

Lemma proxy_body_admits clientID : presents P (proxy_body Quote r cfg clientID).
Proof.
  unfold proxy_body. apply all_admits_bind; [admits|]. intros [body|]; [|admits].
  destruct (Unmarshal_payload body) as [p|]; [|admits]. cbv zeta. case_if; [admits|].
  apply all_admits_bind; [admits|]. intros _. eapply all_admits_bind'; [apply proxy_resolve_admits|].
  intros [m|] Hm; [by apply proxy_model_admits|exact I].
Qed.
Hint Resolve proxy_body_admits : admits_db.

Lemma proxy_admits : presents P (proxy Quote r cfg).
Proof. unfold proxy, proxy_ingress, reject_limited, writeRateLimitError. admits. Qed.
End Programs.

(** ** The invariant *)

(** The limits of a configuration are Go ints and at most [bound] of their key. *)
Definition limits_under (bound : string → Z) (key : string) (l : Limits) : Prop :=
  in_int64 (MaxConcurrent l) ∧ MaxConcurrent l ≤ bound key.

Record config_under (bound : string → Z) (cfg : Config) : Prop := {
  cu_nonneg : ∀ key, 0 ≤ bound key;
  cu_ingress : limits_under bound "ingress" (mkLimits f64_zero 0 (MaxConcurrentRequests (Server cfg)));
  cu_client : ∀ id, limits_under bound ("client:" +:+ id) (ClientLimits (Server cfg));
  cu_model : ∀ alias m, Models cfg !! alias = Some m → limits_under bound ("model:" +:+ alias) (m_Limits m);
  cu_provider : ∀ name p, Providers cfg !! name = Some p → limits_under bound ("provider:" +:+ name) (p_Limits p)
}.

Section Invariant.
Context (bound : string → Z) (size : Z).

Definition scopes_ok (scopes : list admissionScope) : Prop :=
  scopes_wf scopes ∧ Forall (under bound) scopes.

Definition releases (p : prog unit) (s : run_state) : Prop := wp run_step p (λ _ s, held s = []) s.

(** A program that releases what it acquires and presents bounded scopes. *)
Definition well_behaved (p : prog unit) : Prop := releases p run_start ∧ presents scopes_ok p.

(** Where a thread stands under the monitor of [proxy]. *)
Definition thread_ok (t : thread) : Prop :=
  match t with
  | Running p hs => ∃ rs, held rs = hs ∧ releases p rs ∧ presents scopes_ok p
  | Admitting timeout scopes _ k hs =>
      ∃ rs, held rs = hs ∧ releases (Step (AdmitWithQueue timeout scopes) k) rs ∧
        scopes_ok scopes ∧ ∀ x, presents scopes_ok (k x)
  end.

Record system_inv (s : system) : Prop := {
  si_threads : Forall thread_ok (sys_threads s);
  si_limits : limit_inv (sh_limits (sys_shared s)) (all_holds (sys_threads s));
  si_under : ∀ k, count (sh_limits (sys_shared s)) k ≤ Z.max 0 (bound k);
  si_queue : queue_wf (sh_queue (sys_shared s));
  si_max : max (sh_queue (sys_shared s)) ≤ size;
  si_waiting : waiting (sh_queue (sys_shared s)) = sumZ thread_waiting (sys_threads s);
  si_bounded : waiting (sh_queue (sys_shared s)) ≤ Z.max 0 size
}.

Lemma limit_inv_perm s hs hs' : hs ≡ₚ hs' → limit_inv s hs → limit_inv s hs'.
Proof. intros Hp (Hc & Hpos & Hmax). split_and!; [intros k; by rewrite Hc, Hp|done..]. Qed.

Lemma all_holds_mid l1 t l2 : all_holds (l1 ++ t :: l2) = all_holds l1 ++ thread_holds t ++ all_holds l2.
Proof. unfold all_holds. by rewrite fmap_app, join_app. Qed.

Lemma all_holds_swap l1 t l2 : all_holds (l1 ++ t :: l2) ≡ₚ thread_holds t ++ all_holds (l1 ++ l2).
Proof. rewrite all_holds_mid. unfold all_holds. rewrite fmap_app, join_app. solve_Permutation. Qed.

(** Only the two limiter commands change what a run holds. *)
Lemma run_step_held X (c : cmd X) x s s' :
  limiter_cmd c = false → run_step X c x s = Some s' → held s' = held s.
Proof.
  destruct s as [h o st nr na nc nf nu]. intros Hc Hs. destruct c; cbn [run_step limiter_cmd] in *; try done;
    repeat match goal with
    | H : context [if ?b then _ else _] |- _ => destruct b; try discriminate H
    | H : context [match ?b with _ => _ end] |- _ => destruct b; try discriminate H
    end; by simplify_eq/=.
Qed.

Lemma run_step_admit timeout scopes a q s s' :
  run_step _ (AdmitWithQueue timeout scopes) (a, q) s = Some s' → held s' = if a then scopes :: held s else held s.
Proof. destruct s as [h o st nr na nc nf nu]. cbn. destruct (_ && _); [|done]. intros [= <-]. by destruct a. Qed.

Lemma run_step_release scopes s s' :
  run_step _ (Release scopes) tt s = Some s' → held s = scopes :: held s'.
Proof.
  destruct s as [[|top h] o st nr na nc nf nu]; cbn; [done|]. destruct (bool_decide (top = scopes)) eqn:E; [|done].
  cbn. destruct (negb o); [|done]. intros [= <-]. bool_to_prop. by subst.
Qed.

(** A step of one thread, with the holds [rest] and the waiting calls [n] of
    the others. *)
Definition local_inv (sh : shared) (t : thread) (rest : list (list admissionScope)) (n : Z) : Prop :=
  thread_ok t ∧ limit_inv (sh_limits sh) (thread_holds t ++ rest) ∧
  (∀ k, count (sh_limits sh) k ≤ Z.max 0 (bound k)) ∧ queue_wf (sh_queue sh) ∧ max (sh_queue sh) ≤ size ∧
  waiting (sh_queue sh) = thread_waiting t + n ∧ waiting (sh_queue sh) ≤ Z.max 0 size.

Lemma count_release s scopes hs k :
  limit_inv s (scopes :: hs) → count (release scopes s) k ≤ count s k.
Proof.
  intros (Hc & _ & Hmax). rewrite release_count.
  - pose proof (holds_nonneg k scopes). lia.
  - intros k'. split; [|done]. rewrite Hc, sumZ_cons. pose proof (total_holds_nonneg k' hs). lia.
Qed.

Lemma wait_local sh sh' timeout scopes pc pc' k hs now w rest n :
  0 ≤ n → wait_step now w scopes (pc, sh) = (pc', sh') →
  local_inv sh (Admitting timeout scopes pc k hs) rest n → local_inv sh' (Admitting timeout scopes pc' k hs) rest n.
Proof.
  intros Hn Hs (Ht & Hl & Hu & Hq & Hm & Hw & Hb).
  assert (Hok : scopes_ok scopes) by (destruct Ht as (? & _ & _ & ? & _); done).
  cbn [thread_waiting thread_holds] in *.
  destruct (wait_step_queue now w scopes pc sh pc' sh') as (Hq' & Hm' & Hd & Hlt); [done| |done|].
  { intros Hp. rewrite Hp in Hw. lia. }
  assert (Hb' : waiting (sh_queue sh') ≤ Z.max 0 size).
  { destruct (decide (waiting (sh_queue sh) < waiting (sh_queue sh'))) as [Hi|]; [|lia].
    specialize (Hlt Hi). destruct (is_waiting pc), (is_waiting pc'); lia. }
  split; [exact Ht|].
  assert (Hlim : limit_inv (sh_limits sh') ((if is_admitted pc' then scopes :: hs else hs) ++ rest) ∧
    ∀ k, count (sh_limits sh') k ≤ Z.max 0 (bound k)).
  { destruct (wait_step_limits now w scopes pc sh pc' sh' Hs) as [[-> ->]|[Hadm Hpc]]; [done|].
    rewrite Hpc in Hl. destruct (is_admitted pc').
    - split; [eapply limit_inv_admit; [apply Hok|exact Hl|exact Hadm]|]. intros k'. eapply (admit_under bound now scopes); [apply Hok|apply Hok|exact Hl|exact Hadm|apply Hu].
    - split; [by eapply limit_inv_reject|]. intros k'. unfold limitStore_admit in Hadm.
      destruct (admit_check now (sh_limits sh) scopes ∅) as [s1|] eqn:Eck; [|done]. injection Hadm as ->.
      apply admit_check_rejected in Eck as [Hc _]. unfold count in *. by rewrite Hc. }
  destruct Hlim. cbn [thread_holds thread_waiting]. split_and!; try done; lia.
Qed.

Lemma thread_step_local sh t sh' t' rest n :
  0 ≤ n → thread_step sh t sh' t' → local_inv sh t rest n → local_inv sh' t' rest n.
Proof.
  intros Hn Hs Hi. destruct Hs as [sh X c k x hs Hc|sh timeout scopes k hs|sh sh' timeout scopes pc pc' k hs now w Hs
    |sh timeout scopes a q k hs|sh scopes k hs]; [| |by eapply wait_local| |]; destruct Hi as (Ht & Hl & Hrest).
  - split; [|done]. destruct Ht as (rs & Hh & Hr & Hp & Hk). specialize (Hr x).
    destruct (run_step X c x rs) as [rs'|] eqn:E; [|done]. exists rs'.
    split_and!; [by rewrite (run_step_held _ _ _ _ _ Hc E)|done|apply Hk].
  - split; [|done]. destruct Ht as (rs & Hh & Hr & Hp & Hk). by exists rs.
  - destruct Ht as (rs & Hh & Hr & Hp & Hk). specialize (Hr (a, q)).
    destruct (run_step _ _ _ rs) as [rs'|] eqn:E; [|done]. apply run_step_admit in E.
    split; [exists rs'; split_and!; [by rewrite E, Hh; destruct a|done|apply Hk]|].
    split; [|done]. cbn [thread_holds is_admitted] in *. by destruct a.
  - destruct Ht as (rs & Hh & Hr & _ & Hk). specialize (Hr tt).
    destruct (run_step _ _ _ rs) as [rs'|] eqn:E; [|done]. apply run_step_release in E. rewrite E in Hh. subst hs.
    destruct Hrest as (Hu & Hq & Hm & Hw & Hb). cbn [thread_holds tail] in *. split; [exists rs'; split_and!; [done|exact Hr|apply Hk]|].
    split; [by apply (limit_inv_release _ [] scopes)|]. split_and!; [|done..].
    intros k'. etrans; [by eapply count_release|apply Hu].
Qed.

Lemma system_local sh t l1 l2 :
  system_inv (mkSystem sh (l1 ++ t :: l2)) ↔
  Forall thread_ok (l1 ++ l2) ∧ local_inv sh t (all_holds (l1 ++ l2)) (sumZ thread_waiting (l1 ++ l2)).
Proof.
  assert (Hw : sumZ thread_waiting (l1 ++ t :: l2) = thread_waiting t + sumZ thread_waiting (l1 ++ l2))
    by (rewrite !sumZ_app, sumZ_cons; lia).
  split.
  - intros [Ht Hl Hu Hq Hm Hwt Hb]. cbn [sys_shared sys_threads] in *.
    rewrite Forall_app, Forall_cons in Ht. destruct Ht as (? & ? & ?). split; [by apply Forall_app|].
    split; [done|]. split; [by eapply limit_inv_perm; [apply all_holds_swap|]|]. rewrite Hw in Hwt. by split_and!.
  - intros (Hts & Ht & Hl & Hu & Hq & Hm & Hwt & Hb). apply Forall_app in Hts as [? ?].
    split; cbn [sys_shared sys_threads]; try done.
    + by rewrite Forall_app, Forall_cons.
    + eapply limit_inv_perm; [|exact Hl]. symmetry. apply all_holds_swap.
    + by rewrite Hw.
Qed.

Lemma thread_waiting_nonneg ts : 0 ≤ sumZ thread_waiting ts.
Proof. apply sumZ_nonneg. intros [] _; cbn; [done|]. by case_if. Qed.

Lemma system_inv_step (start : prog unit → Prop) s s' :
  (∀ p, start p → well_behaved p) → system_inv s → system_step start size s s' → system_inv s'.
Proof.
  intros Hstart Hi Hs. destruct Hs as [sh ts p Hp|sh sh' t t' l1 l2 Ht|sh hs l1 l2|sh ts m Hm Hle|sh ts].
  - destruct (Hstart p Hp) as [Hr Ha]. destruct Hi as [Ht Hl Hu Hq Hm Hw Hb].
    split; try done. constructor; [|done]. exists run_start. by split_and!.
  - apply system_local in Hi as [Hts Hi]. apply system_local. split; [done|].
    eapply thread_step_local; [apply thread_waiting_nonneg|done|done].
  - apply system_local in Hi as (Hts & (rs & Hh & Hr & _) & Hl & Hu & Hq & Hm & Hw & Hb).
    cbn in Hr. rewrite Hr in Hh. subst hs. split; cbn [sys_shared sys_threads]; done.
  - destruct Hi as [Ht Hl Hu [Hq _] _ Hw Hb]. by split.
  - destruct Hi as [Ht Hl Hu Hq Hm Hw Hb]. by split.
Qed.

Lemma system_reachable_inv (start : prog unit → Prop) m s :
  (∀ p, start p → well_behaved p) → in_int64 m → m ≤ size → system_reachable start size m s → system_inv s.
Proof.
  intros Hstart Hm Hle Hr. unfold system_reachable in Hr.
  assert (Hi : system_inv (system_init m)).
  { split; cbn; try done; try lia; first [apply limit_inv_init|intros k; unfold count; cbn; rewrite map_get_empty; lia]. }
  induction Hr as [|s1 s2 s3 Hs _ IH]; [done|]. apply IH. by eapply system_inv_step.
Qed.
End Invariant.

(** ** Requests of the gateway *)
Lemma proxy_well_behaved `{MapOrder} Quote r cfg bound :
  config_under bound cfg → well_behaved bound (proxy Quote r cfg).
Proof.
  intros [H0' Hi Hc Hm Hp].
  assert (Hone : ∀ k l, limits_under bound k l → scopes_ok bound [mkScope k l]).
  { intros k l [Hl Hb]. split; [split|]; [apply NoDup_singleton|by apply Forall_singleton..]. }
  assert (Hzero : ∀ k, limits_under bound k zero_Limits) by (intros k; split; [done|apply H0']).
  split.
  - eapply wp_mono; [apply proxy_wp|]. by intros _ s (status & nc & nf & nu & -> & _).
  - apply proxy_admits.
    + intros id. destruct Hi, (Hc id). split; [split|]; [|by apply Forall_cons_2; [|apply Forall_singleton]..].
      apply NoDup_cons. split; [by intros ?%list_elem_of_singleton|apply NoDup_singleton].
    + intros name. apply Hone. unfold map_get. destruct (Providers cfg !! name) eqn:E; [by eapply Hp|apply Hzero].
    + intros alias m Hal. by apply Hone, Hm.
    + intros alias name model. apply Hone, Hzero.
Qed.

(** The programs of the gateway's requests, each with the configuration it
    loaded. *)
Definition proxies `{MapOrder} (Quote : string → string) (bound : string → Z) (p : prog unit) : Prop :=
  ∃ r cfg, config_under bound cfg ∧ p = proxy Quote r cfg.

(** C1: however many requests run [proxy] side by side, with whatever
    configurations they loaded, however their steps interleave with each other
    and with reloads, and whatever clients and providers do: the concurrency
    counter of a key is the number of admissions that requests hold on it,
    never above the largest limit configured for the key; the queue's counter is
    the number of requests waiting in it, never above its largest size; and
    when no request is left every counter is gone. *)
Theorem system_accounting `{MapOrder} Quote bound size m s :
  in_int64 m → m ≤ size → system_reachable (proxies Quote bound) size m s →
  (∀ k, count (sh_limits (sys_shared s)) k = sumZ (holds k) (all_holds (sys_threads s))) ∧
  (∀ k, sumZ (holds k) (all_holds (sys_threads s)) ≤ Z.max 0 (bound k)) ∧
  waiting (sh_queue (sys_shared s)) = sumZ thread_waiting (sys_threads s) ∧
  waiting (sh_queue (sys_shared s)) ≤ Z.max 0 size ∧
  (sys_threads s = [] →
     concurrent (sh_limits (sys_shared s)) = ∅ ∧ waiting (sh_queue (sys_shared s)) = 0).
Proof.
  intros Hm Hle Hr.
  assert (Hstart : ∀ p, proxies Quote bound p → well_behaved bound p)
    by (intros p (r & cfg & Hcfg & ->); by apply proxy_well_behaved).
  destruct (system_reachable_inv bound size _ m s Hstart Hm Hle Hr) as [_ (Hc & Hpos & _) Hu _ _ Hw Hb].
  split_and!; try done.
  - intros k. rewrite <- Hc. apply Hu.
  - intros Hnil. rewrite Hw, Hnil. split; [|done]. apply map_eq. intros k. rewrite lookup_empty.
    apply count_pos_stored; [done|]. by rewrite Hc, Hnil.
Qed.

(** *** Draining *)

(** The steps of one thread, the others standing still. *)
Definition thread_steps (c c' : shared * thread) : Prop := rtc (λ a b, thread_step a.1 a.2 b.1 b.2) c c'.

#[export] Instance thread_steps_trans : Transitive thread_steps.
Proof. intros a b c Hab Hbc. unfold thread_steps in *. by etrans. Qed.

Lemma thread_steps_l sh t sh' t' c : thread_step sh t sh' t' → thread_steps (sh', t') c → thread_steps (sh, t) c.
Proof. intros Hs Hr. by eapply rtc_l; [|exact Hr]. Qed.

Lemma thread_steps_wait sh timeout scopes pc k hs :
  ∃ sh' a q, thread_steps (sh, Admitting timeout scopes pc k hs) (sh', Admitting timeout scopes (WReturn a q) k hs).
Proof.
  assert (Hstep : ∀ sh1 pc1 sh2 pc2 w, wait_step 0 w scopes (pc1, sh1) = (pc2, sh2) →
    (∃ sh' a q, thread_steps (sh2, Admitting timeout scopes pc2 k hs) (sh', Admitting timeout scopes (WReturn a q) k hs)) →
    ∃ sh' a q, thread_steps (sh1, Admitting timeout scopes pc1 k hs) (sh', Admitting timeout scopes (WReturn a q) k hs)).
  { intros sh1 pc1 sh2 pc2 w Hw (sh' & a & q & Hr). exists sh', a, q. eapply thread_steps_l; [by eapply thread_wait|exact Hr]. }
  assert (Hret : ∀ sh1 a q, ∃ sh' a' q',
    thread_steps (sh1, Admitting timeout scopes (WReturn a q) k hs) (sh', Admitting timeout scopes (WReturn a' q') k hs)).
  { intros sh1 a q. exists sh1, a, q. apply rtc_refl. }
  assert (Hleave : ∀ sh1 a, ∃ sh' a' q',
    thread_steps (sh1, Admitting timeout scopes (WLeave a) k hs) (sh', Admitting timeout scopes (WReturn a' q') k hs))
    by (intros; eapply (Hstep _ _ _ _ Done); [reflexivity|apply Hret]).
  assert (Hselect : ∀ sh1, ∃ sh' a' q',
    thread_steps (sh1, Admitting timeout scopes WSelect k hs) (sh', Admitting timeout scopes (WReturn a' q') k hs))
    by (intros; eapply (Hstep _ _ _ _ Done); [reflexivity|apply Hleave]).
  assert (Henter : ∀ sh1, ∃ sh' a' q',
    thread_steps (sh1, Admitting timeout scopes WEnter k hs) (sh', Admitting timeout scopes (WReturn a' q') k hs)).
  { intros sh1. destruct (wait_step 0 Done scopes (WEnter, sh1)) as [pc2 sh2] eqn:E. eapply Hstep; [exact E|].
    cbn in E. destruct (enter (sh_queue sh1)) as [q ok]. injection E as <- _. destruct ok; auto. }
  destruct pc; auto. destruct (wait_step 0 Done scopes (WTry, sh)) as [pc2 sh2] eqn:E. eapply Hstep; [exact E|].
  cbn in E. destruct (try_admit 0 scopes sh) as [sh1 ok]. injection E as <- _. destruct ok; auto.
Qed.

Lemma thread_steps_run p sh hs : ∃ sh' hs', thread_steps (sh, Running p hs) (sh', Running (Ret tt) hs').
Proof.
  revert sh hs. induction p as [[]|X c k IH]; intros sh hs; [exists sh, hs; apply rtc_refl|].
  destruct (limiter_cmd c) eqn:El.
  - destruct c; try done.
    + destruct (thread_steps_wait sh timeout scopes WTry k hs) as (sh1 & a & q & H1).
      destruct (IH (a, q) sh1 (if a then scopes :: hs else hs)) as (sh' & hs' & H2). exists sh', hs'.
      eapply thread_steps_l; [apply thread_admit|]. etrans; [exact H1|]. eapply thread_steps_l; [apply thread_return|exact H2].
    + destruct (IH tt (mkShared (release scopes (sh_limits sh)) (sh_queue sh)) (tail hs)) as (sh' & hs' & H2).
      exists sh', hs'. eapply thread_steps_l; [apply thread_release|exact H2].
  - destruct (IH (inert X c) sh hs) as (sh' & hs' & H2). exists sh', hs'. eapply thread_steps_l; [by apply thread_cmd|exact H2].
Qed.

Lemma thread_finishes t sh : ∃ sh' hs', thread_steps (sh, t) (sh', Running (Ret tt) hs').
Proof.
  destruct t as [p hs|timeout scopes pc k hs]; [apply thread_steps_run|].
  destruct (thread_steps_wait sh timeout scopes pc k hs) as (sh1 & a & q & H1).
  destruct (thread_steps_run (k (a, q)) sh1 (if a then scopes :: hs else hs)) as (sh' & hs' & H2).
  exists sh', hs'. etrans; [exact H1|]. eapply thread_steps_l; [apply thread_return|exact H2].
Qed.

Lemma system_thread_steps start size c c' ts :
  thread_steps c c' → rtc (system_step start size) (mkSystem c.1 (c.2 :: ts)) (mkSystem c'.1 (c'.2 :: ts)).
Proof.
  induction 1 as [c|c1 c2 c3 Hs _ IH]; [apply rtc_refl|]. eapply rtc_l; [|exact IH].
  by apply (system_thread start size c1.1 c2.1 c1.2 c2.2 []).
Qed.

Lemma system_finishes start size sh ts : ∃ sh', rtc (system_step start size) (mkSystem sh ts) (mkSystem sh' []).
Proof.
  revert sh. induction ts as [|t ts IH]; intros sh; [exists sh; apply rtc_refl|].
  destruct (thread_finishes t sh) as (sh1 & hs & H1). destruct (IH sh1) as [sh' H2]. exists sh'.
  etrans; [exact (system_thread_steps start size _ _ ts H1)|].
  eapply rtc_l; [apply (system_done start size sh1 hs [] ts)|exact H2].
Qed.

(** C20: no request blocks another for good: from every reachable state all the
    requests can run to their end, whatever the limits, and then the limiter
    and the queue are empty. *)
Theorem system_drains `{MapOrder} Quote bound size m s :
  in_int64 m → m ≤ size → system_reachable (proxies Quote bound) size m s →
  ∃ s', rtc (system_step (proxies Quote bound) size) s s' ∧ sys_threads s' = [] ∧
    concurrent (sh_limits (sys_shared s')) = ∅ ∧ waiting (sh_queue (sys_shared s')) = 0.
Proof.
  intros Hm Hle Hr. destruct s as [sh ts].
  destruct (system_finishes (proxies Quote bound) size sh ts) as [sh' Hs].
  exists (mkSystem sh' []). split; [done|]. split; [done|].
  assert (Hstart : ∀ p, proxies Quote bound p → well_behaved bound p)
    by (intros p (r & cfg & Hcfg & ->); by apply proxy_well_behaved).
  assert (Hr' : system_reachable (proxies Quote bound) size m (mkSystem sh' [])) by (unfold system_reachable in *; by etrans).
  destruct (system_reachable_inv bound size _ m _ Hstart Hm Hle Hr') as [_ (Hc & Hpos & _) _ _ _ Hw _].
  split; [|exact Hw]. apply map_eq. intros k. rewrite lookup_empty. apply count_pos_stored; [done|]. by rewrite Hc.
Qed.

(** *** A request at work *)
Definition small_bound (k : string) : Z := 10.

Definition one_request : system :=
  mkSystem (mkShared newLimitStore (newRequestQueue 4))
    [Running (proxy (H := order_forward) (λ s, s) chat_request two_providers) []].

Lemma two_providers_under : config_under small_bound two_providers.
Proof.
  assert (Hz : ∀ k, limits_under small_bound k zero_Limits) by (intros k; by split).
  split; [done|by split|intros id; apply Hz| |].
  - intros alias mdl Hmdl. cbn in Hmdl. apply lookup_singleton_Some in Hmdl as [_ <-]. apply Hz.
  - intros name p Hp. cbn in Hp. apply lookup_insert_Some in Hp as [[_ <-]|[_ Hp]]; [apply Hz|].
    apply lookup_singleton_Some in Hp as [_ <-]. apply Hz.
Qed.

Lemma one_request_reachable :
  system_reachable (proxies (H := order_forward) (λ s, s) small_bound) 8 4 one_request.
Proof.
  apply rtc_once. apply system_arrive. exists chat_request, two_providers. split; [apply two_providers_under|done].
Qed.

Lemma system_accounting_witness :
  waiting (sh_queue (sys_shared one_request)) ≤ 8 ∧ count (sh_limits (sys_shared one_request)) "ingress" = 0.
Proof.
  destruct (system_accounting (H := order_forward) (λ s, s) small_bound 8 4 one_request)
    as (Hc & _ & _ & Hw & _); [done|lia|apply one_request_reachable|]. split; [exact Hw|apply Hc].
Defined.

Lemma system_drains_witness :
  ∃ s', rtc (system_step (proxies (H := order_forward) (λ s, s) small_bound) 8) one_request s' ∧
    sys_threads s' = [].
Proof.
  destruct (system_drains (H := order_forward) (λ s, s) small_bound 8 4 one_request)
    as (s' & Hs & Ht & _); [done|lia|apply one_request_reachable|]. by exists s'.
Defined.
