(* ===== verification/Lifecycle.v ===== *)
(** * The process ([cmd/shepard/main.go])

    Start-up is a function of the configuration file, the flags and the outcome
    of the calls into the database driver.  The running process is a step
    relation between the goroutines of [main], the signals and the HTTP server,
    of which the documented behaviour is used: [Shutdown] closes the listener,
    makes [ListenAndServe] return [http.ErrServerClosed] at once, and itself
    returns when no request is active or its context is done; the process ends
    with all its goroutines when [main] returns. *)

From Stdlib Require Import ZArith Lia.
From S2P Require Import Prelude Value Config Limiter Queue ACL Database Discovery Readiness Gateway GatewaySpec.

Local Open Scope Z_scope.

(** ** Start-up *)

(** The fields of [http.Server] that [main] sets, the handler apart. *)
Record http_server := mkServer {
  srv_Addr : string;
  srv_ReadHeaderTimeout : Z;
  srv_ReadTimeout : Z;
  srv_IdleTimeout : Z;
  srv_MaxHeaderBytes : Z
}.

Definition server_of (cfg : Config) : http_server :=
  mkServer (Listen (Server cfg)) (ReadHeaderTimeout (Server cfg)) (ReadTimeout (Server cfg))
    (IdleTimeout (Server cfg)) (MaxHeaderBytes (Server cfg)).

Inductive startup :=
  | Exit (code : Z)
  | Serve (g : Gateway) (server : http_server).

(** [main] up to [ListenAndServe], with the calls to the database driver and the
    lines it logs. *)
Definition main_start `{MapOrder} {E} (read : string → E + Config) (env : db_env)
    (configPath : string) (check : bool) : list db_call * list string * startup :=
  match Load read configPath with
  | inl _ => ([], ["load configuration"], Exit 1)
  | inr cfg =>
      if check then ([], ["configuration is valid"], Exit 0)
      else
        let warnings := option_list (logExposureWarnings cfg) in
        match New env 0 cfg with
        | (calls, inl _) => (calls, warnings ++ ["initialize gateway"], Exit 1)
        | (calls, inr g) => (calls, warnings ++ ["shepard listening"], Serve g (server_of cfg))
        end
  end.

(** ** The running process *)

(** The stores that a signal to reload will make: none when the file does not
    load or [Reload] refuses it. *)
Definition hangup_stores `{MapOrder} {E} (read : string → E + Config) (configPath : string) (g : Gateway) : list store_op :=
  match Load read configPath with
  | inl _ => []
  | inr next => match reload_stores next g with inl _ => [] | inr ops => ops end
  end.

(** What the handlers of requests may change in the gateway: the count of
    waiting requests, the caches and the limiter, but no setting. *)
Record handled (g g' : Gateway) : Prop := {
  hd_config : g_config g' = g_config g;
  hd_acl : g_acl g' = g_acl g;
  hd_trusted : g_trusted g' = g_trusted g;
  hd_queue : max (g_queue g') = max (g_queue g);
  hd_path : g_usageDBPath g' = g_usageDBPath g
}.

(** Where [main] is after start-up: in [ListenAndServe], past it with the
    deferred [Close] to come, or gone. *)
Inductive main_pc := Serving | Closing | Exited (code : Z).

(** The goroutine that waits for a signal to stop. *)
Inductive stop_pc := Waiting | ShuttingDown (deadline : Z) | ShutDown.

(** [p_reload] is what the goroutine that waits for signals to reload has yet to
    store. *)
Record process := mkProcess {
  p_main : main_pc;
  p_stop : stop_pc;
  p_active : nat;
  p_now : Z;
  p_db_open : bool;
  p_reload : list store_op;
  p_gateway : Gateway
}.

Definition shutdown_window : Z := 15 * Second.

Definition started (g : Gateway) (now : Z) : process := mkProcess Serving Waiting 0 now true [] g.

Definition running (s : process) : Prop := match p_main s with Exited _ => False | _ => True end.

Section steps.
Context `{MapOrder} {E : Type}.
Context (configPath : string).

(** One step of the process.  [read] in [proc_hangup] is the file as it is when
    the signal is handled; the stores of the reload follow one at a time, with
    steps of the requests and of the other goroutines between them, and the
    next signal is handled after the last. *)
Inductive proc_step : process → process → Prop :=
  | proc_tick d m st n now db p g :
      0 ≤ d → proc_step (mkProcess m st n now db p g) (mkProcess m st n (now + d) db p g)
  | proc_accept m n now db p g :
      running (mkProcess m Waiting n now db p g) →
      proc_step (mkProcess m Waiting n now db p g) (mkProcess m Waiting (S n) now db p g)
  | proc_handle m st n now db p g g' :
      running (mkProcess m st (S n) now db p g) → handled g g' →
      proc_step (mkProcess m st (S n) now db p g) (mkProcess m st (S n) now db p g')
  | proc_finish m st n now db p g :
      running (mkProcess m st (S n) now db p g) →
      proc_step (mkProcess m st (S n) now db p g) (mkProcess m st n now db p g)
  | proc_hangup (read : string → E + Config) m st n now db g :
      running (mkProcess m st n now db [] g) →
      proc_step (mkProcess m st n now db [] g) (mkProcess m st n now db (hangup_stores read configPath g) g)
  | proc_store m st n now db op p g :
      running (mkProcess m st n now db (op :: p) g) →
      proc_step (mkProcess m st n now db (op :: p) g) (mkProcess m st n now db p (apply_store op g))
  | proc_stop m n now db p g :
      running (mkProcess m Waiting n now db p g) →
      proc_step (mkProcess m Waiting n now db p g) (mkProcess m (ShuttingDown (now + shutdown_window)) n now db p g)
  | proc_drained m deadline now db p g :
      running (mkProcess m (ShuttingDown deadline) 0 now db p g) →
      proc_step (mkProcess m (ShuttingDown deadline) 0 now db p g) (mkProcess m ShutDown 0 now db p g)
  | proc_window_over m deadline n now db p g :
      running (mkProcess m (ShuttingDown deadline) n now db p g) → deadline ≤ now →
      proc_step (mkProcess m (ShuttingDown deadline) n now db p g) (mkProcess m ShutDown n now db p g)
  | proc_server_closed st n now db p g :
      st ≠ Waiting → proc_step (mkProcess Serving st n now db p g) (mkProcess Closing st n now db p g)
  | proc_server_failed st n now db p g :
      proc_step (mkProcess Serving st n now db p g) (mkProcess (Exited 1) st n now db p g)
  | proc_return st n now db p g :
      proc_step (mkProcess Closing st n now db p g) (mkProcess (Exited 0) st n now false p g).
End steps.

(** ** Lemmas *)

Section lemmas.
Context `{MapOrder} {E : Type}.

Lemma New_handles env n cfg :
  open_handles env (New env n cfg).1 = match (New env n cfg).2 with inl _ => 0 | inr _ => 1 end.
Proof.
  unfold New. pose proof (newUsageStore_handles env n (UsageDB (Server cfg))) as Hh.
  destruct (newUsageStore env n (UsageDB (Server cfg))) as [m [calls ok]]. cbn [fst snd] in Hh.
  destruct ok; cbn [negb]; [|done]. destruct (networks_of cfg) as [e|[acl trusted]]; [|done].
  cbn [fst snd]. rewrite open_handles_app, Hh. done.
Qed.

(** With a validated configuration only the database can refuse. *)
Lemma New_ok env n cfg :
  config_ok cfg → (newUsageStore env n (UsageDB (Server cfg))).2.2 = true →
  ∃ g, New env n cfg = (SqlOpen (store_path n (UsageDB (Server cfg))) :: SetMaxOpenConns 1 :: (DBExec <$> schema), inr g) ∧
    g_config g = cfg ∧ g_usageDBPath g = UsageDB (Server cfg).
Proof.
  intros Hok Hdb. unfold New. pose proof (newUsageStore_ok env n _ Hdb) as Hcalls.
  destruct (newUsageStore env n (UsageDB (Server cfg))) as [m [calls ok]]. cbn [fst snd] in *. subst.
  destruct (networks_of_ok cfg Hok) as (acl & trusted & ->). cbn [negb]. by eexists.
Qed.

Lemma New_refused env n cfg :
  (newUsageStore env n (UsageDB (Server cfg))).2.2 = false → (New env n cfg).2 = inl ErrUsageStore.
Proof.
  intros Hdb. unfold New. destruct (newUsageStore env n (UsageDB (Server cfg))) as [m [calls ok]].
  cbn [fst snd] in Hdb. by subst.
Qed.

(** The gateway runs with a valid configuration, every part of it derived from
    that one configuration, and on the database it was started with. *)
Record gateway_valid (db : string) (g : Gateway) : Prop := {
  gv_config : config_ok (g_config g);
  gv_path : UsageDB (Server (g_config g)) = db ∧ g_usageDBPath g = db;
  gv_acl : ∃ acl, newClientACL (ClientNetworks (Server (g_config g))) = inr acl ∧ g_acl g = Some acl;
  gv_trusted : ∃ trusted, newClientACL (TrustedProxyNetworks (Server (g_config g))) = inr trusted ∧
    g_trusted g = trusted_pointer (g_config g) trusted;
  gv_queue : max (g_queue g) = queueSize (g_config g)
}.

Lemma New_valid env n cfg calls g :
  config_ok cfg → New env n cfg = (calls, inr g) → gateway_valid (UsageDB (Server cfg)) g ∧ g_config g = cfg.
Proof.
  intros Hok. unfold New. destruct (newUsageStore _ _ _) as [m [cs ok]]. destruct ok; cbn [negb]; [|done].
  unfold networks_of. destruct (newClientACL (ClientNetworks _)) as [?|acl] eqn:Ea; [done|].
  destruct (newClientACL (TrustedProxyNetworks _)) as [?|trusted] eqn:Et; [done|].
  intros [= _ <-]. split; [|done]. split; cbn; try done; by eexists.
Qed.

Lemma handled_refl g : handled g g.
Proof. done. Qed.

Lemma handled_trans g1 g2 g3 : handled g1 g2 → handled g2 g3 → handled g1 g3.
Proof. intros [] []. split; congruence. Qed.

Lemma handled_store op g g' : handled g g' → handled (apply_store op g) (apply_store op g').
Proof. destruct g, g'. intros []. cbn in *. by destruct op; split; cbn. Qed.

Lemma handled_valid db g g' : handled g g' → gateway_valid db g → gateway_valid db g'.
Proof. intros [Hc Ha Ht Hq Hp] []. by split; rewrite ?Hc, ?Ha, ?Ht, ?Hq, ?Hp. Qed.

(** [main]'s loop makes these stores, and they come from a valid configuration
    on the same database. *)
Lemma on_hangup_stores (read : string → E + Config) path g :
  (on_hangup read path g).1 = apply_stores (hangup_stores read path g) g.
Proof.
  unfold on_hangup, hangup_stores. destruct (Load read path) as [e|next]; [done|]. unfold Reload.
  by destruct (reload_stores next g).
Qed.

(** How far a reload is: [pre] is stored, [p] is not, and requests ran
    meanwhile. *)
Definition reloading (db : string) (p : list store_op) (g : Gateway) : Prop :=
  ∃ g0 new pre, gateway_valid db g0 ∧ config_ok new ∧
    reload_stores new g0 = inr (pre ++ p) ∧ handled (apply_stores pre g0) g.

Lemma hangup_reloading (read : string → E + Config) path db g :
  gateway_valid db g → hangup_stores read path g = [] ∨ reloading db (hangup_stores read path g) g.
Proof.
  intros Hv. unfold hangup_stores. destruct (Load read path) as [e|new] eqn:El; [by left|].
  destruct (Load_inr _ _ _ El) as (_ & _ & _ & Hok). destruct (reload_stores new g) as [e|ops] eqn:Er; [by left|].
  right. exists g, new, []. split_and!; done.
Qed.

Lemma reloading_handled db p g g' : handled g g' → reloading db p g → reloading db p g'.
Proof.
  intros Hh (g0 & new & pre & Hv & Hok & Hs & Hg). exists g0, new, pre. split_and!; [done..|].
  by eapply handled_trans.
Qed.

Lemma reloading_store db op p g : reloading db (op :: p) g → reloading db p (apply_store op g).
Proof.
  intros (g0 & new & pre & Hv & Hok & Hs & Hg). exists g0, new, (pre ++ [op]). split_and!; [done|done| |].
  - by rewrite <- app_assoc.
  - unfold apply_stores. rewrite foldl_app. by apply handled_store.
Qed.

(** The first store replaces the configuration, the others leave it. *)
Lemma reloading_config db p g : reloading db p g → config_ok (g_config g) ∧ g_usageDBPath g = db.
Proof.
  intros (g0 & new & pre & Hv & Hok & Hs & [Hc _ _ _ Hp]). rewrite Hc, Hp. destruct (gv_path _ _ Hv) as [_ Hdb].
  unfold reload_stores in Hs. destruct (negb _); [done|]. destruct (networks_of new) as [?|[acl trusted]]; [done|].
  injection Hs as Hs. destruct g0 as [cfg0 ? ? ? ? ? ? db0]. pose proof (gv_config _ _ Hv) as Hok0. cbn in Hdb, Hok0.
  do 8 (destruct pre as [|? pre]; [by split|injection Hs as <- Hs || discriminate Hs]).
Qed.

Lemma reloading_done db g : reloading db [] g → gateway_valid db g.
Proof.
  intros (g0 & new & pre & Hv & Hok & Hs & Hg). rewrite app_nil_r in Hs. apply (handled_valid db _ _ Hg).
  assert (Hr : Reload new g0 = (apply_stores pre g0, None)) by (unfold Reload; by rewrite Hs).
  apply Reload_published in Hr as [[Hc Ha Ht Hq _ _ _ Hp] Hdb]. destruct (gv_path _ _ Hv) as [_ Hpath].
  split; rewrite ?Hc; try done; [by rewrite Hp, Hdb, Hpath|by rewrite Hq].
Qed.
End lemmas.

(** ** Properties *)

(** C25: Start-up.  With [--check] nothing is opened and the status tells whether
    the file loads.  A process that serves does so with a loaded and valid
    configuration within its bounds, on one open database with the whole schema,
    and with the server limits of that configuration; a process that does not leaves no
    database open; and a valid configuration is refused only by the database. *)
Theorem startup_spec `{MapOrder} {E} (read : string → E + Config) env path check :
  let '(calls, lines, out) := main_start read env path check in
  (check = true → calls = [] ∧ out = Exit (match Load read path with inl _ => 1 | inr _ => 0 end)) ∧
  (check = false → ∀ cfg, Load read path = inr cfg →
     if (newUsageStore env 0 (UsageDB (Server cfg))).2.2
     then ∃ g, out = Serve g (server_of cfg) else out = Exit 1) ∧
  match out with
  | Exit _ => open_handles env calls = 0
  | Serve g server =>
      open_handles env calls = 1 ∧
      ∃ cfg, Load read path = inr cfg ∧ gateway_valid (UsageDB (Server cfg)) g ∧ g_config g = cfg ∧
        calls = SqlOpen (store_path 0 (UsageDB (Server cfg))) :: SetMaxOpenConns 1 :: (DBExec <$> schema) ∧
        server = server_of cfg ∧ config_bounds cfg
  end.
Proof.
  unfold main_start. destruct (Load read path) as [e|cfg] eqn:El; [by split_and!|].
  destruct (Load_inr _ _ _ El) as (_ & _ & _ & Hok). destruct check; [by split_and!|].
  pose proof (New_handles env 0 cfg) as Hh. pose proof (New_ok env 0 cfg Hok) as Hn.
  pose proof (New_refused env 0 cfg) as Hr.
  pose proof (loaded_config_bounds _ _ _ El) as Hbounds.
  destruct (newUsageStore env 0 (UsageDB (Server cfg))).2.2 eqn:Edb.
  - destruct (Hn eq_refl) as (g & Hnew & _). rewrite Hnew in Hh |- *. cbn [fst snd] in Hh.
    destruct (New_valid env 0 cfg _ g Hok Hnew) as [Hv Hg].
    split; [done|]. split; [intros _ cfg0 Hc; injection Hc as <-; rewrite Edb; by exists g|].
    split; [done|]. exists cfg. by split_and!.
  - specialize (Hr eq_refl). destruct (New env 0 cfg) as [calls r]. cbn [fst snd] in *. subst r.
    split; [done|]. split; [intros _ cfg0 Hc; injection Hc as <-; by rewrite Edb|done].
Qed.

(** C24: However signals, reloads, requests and the shutdown interleave, one
    store of a reload at a time, the gateway of the process runs with a valid
    configuration and stays on the database it was started with.  Between
    reloads its access lists, trusted networks and queue bound are those of
    that configuration.  During a reload they are what the stores made so far
    have left of the settings before it, all of which were those of one valid
    configuration, as the new ones will be.  The database is open as long as
    [main] has not returned, and [main] returns only after a signal to stop. *)
Theorem process_invariant `{MapOrder} {E} path db g now s :
  gateway_valid db g → rtc (proc_step (E := E) path) (started g now) s →
  (config_ok (g_config (p_gateway s)) ∧ g_usageDBPath (p_gateway s) = db) ∧
  (p_reload s = [] → gateway_valid db (p_gateway s)) ∧
  (p_reload s ≠ [] → reloading db (p_reload s) (p_gateway s)) ∧
  (running s → p_db_open s = true) ∧
  (p_main s = Closing ∨ p_main s = Exited 0 → p_stop s ≠ Waiting) ∧
  (p_main s = Exited 0 → p_db_open s = false).
Proof.
  intros Hg Hsteps.
  set (settings p g := p = [] ∧ gateway_valid db g ∨ p ≠ [] ∧ reloading db p g).
  assert (settings_hangup : ∀ read g, gateway_valid db g → settings (hangup_stores (E := E) read path g) g).
  { intros read g' Hv. destruct (decide (hangup_stores read path g' = [])) as [He|He]; [by left|right].
    split; [done|]. by destruct (hangup_reloading read path db g' Hv). }
  set (inv s := settings (p_reload s) (p_gateway s) ∧ (p_main s ≠ Exited 0 → p_db_open s = true) ∧
    (p_main s = Closing ∨ p_main s = Exited 0 → p_stop s ≠ Waiting) ∧ (p_main s = Exited 0 → p_db_open s = false)).
  assert (Hinv : inv s).
  { revert Hsteps. assert (Hi : inv (started g now)) by (unfold inv, settings; cbn; split_and!; naive_solver).
    generalize (started g now), Hi. clear Hg Hi. intros s0 Hi Hsteps.
    induction Hsteps as [|s1 s2 s3 Hstep _ IH]; [done|]. apply IH. clear IH.
    unfold inv in *. destruct Hi as (Hv & Hd & Hs & Hc).
    destruct Hstep; cbn [p_main p_stop p_reload p_gateway p_db_open running] in *; split_and!; try done; try naive_solver.
    - destruct Hv as [[-> Hv]|[Hp Hv]]; [left; split; [done|by eapply handled_valid]|right; split; [done|by eapply reloading_handled]].
    - destruct Hv as [[_ Hv]|[? _]]; [|done]. by apply settings_hangup.
    - destruct Hv as [[? _]|[_ Hv]]; [done|]. apply reloading_store in Hv. destruct p as [|op' p]; [left|by right].
      split; [done|by apply reloading_done]. }
  destruct Hinv as (Hv & Hd & Hs & Hc). split_and!; try done.
  - destruct Hv as [[_ Hv]|[_ Hv]]; [apply Hv|by eapply reloading_config].
  - destruct Hv as [[_ Hv]|[_ Hv]]; [by destruct (gv_path _ _ Hv)|by eapply reloading_config].
  - by destruct Hv as [[_ Hv]|[? _]].
  - by destruct Hv as [[? _]|[_ Hv]].
  - intros Hr. apply Hd. unfold running in Hr. intros Hm. by rewrite Hm in Hr.
Qed.

(** A process of the example configuration, in the middle of a reload. *)
Definition willing : db_env := mkDBEnv (λ _, true) (λ _, true).

Definition example_gateway : Gateway :=
  mkGateway (defaults example_config) (match newClientACL ["10.0.0.0/8"; "::1"] with inl _ => None | inr acl => Some acl end)
    None (newRequestQueue (queueSize (defaults example_config))) newDiscoveryStore newReadinessCache newLimitStore
    (UsageDB (Server (defaults example_config))).

Definition example_stores : list store_op :=
  match reload_stores (defaults example_config) example_gateway with inl _ => [] | inr ops => ops end.

Definition halfway : process :=
  mkProcess Serving Waiting 1 7 true (drop 2 example_stores) (apply_stores (take 2 example_stores) example_gateway).

(** A request arrives, a reload begins, and two of its stores are made. *)
Lemma process_invariant_witness : reloading (UsageDB (Server (defaults example_config))) (p_reload halfway) (p_gateway halfway).
Proof.
  apply (process_invariant (H := order_forward) (E := unit) "shepard.yaml"
    (UsageDB (Server (defaults example_config))) example_gateway 7 halfway).
  - refine (proj1 (New_valid willing 0 (defaults example_config)
      (SqlOpen (store_path 0 (UsageDB (Server (defaults example_config)))) :: SetMaxOpenConns 1 :: (DBExec <$> schema)) example_gateway _ _)).
    + apply (Validate_None (H := order_forward)). vm_compute. reflexivity.
    + vm_compute. reflexivity.
  - eapply rtc_l; [by apply proc_accept|].
    eapply rtc_l; [by apply (proc_hangup "shepard.yaml" (λ _, inr example_config))|].
    replace (hangup_stores _ _ _) with example_stores by (vm_compute; reflexivity).
    eapply rtc_l; [by apply proc_store|]. apply rtc_once. by apply proc_store.
  - discriminate.
Defined.

(** C34: The shutdown does not wait for active requests: [main] returns as soon as
    [ListenAndServe] does, which is when [Shutdown] is called and not when it
    returns.  From the start of any process, with any number of requests
    active when the signal comes, the process can end at that very moment, the
    database closed under the requests and the window of fifteen seconds not
    begun. *)
Theorem shutdown_abandons_requests `{MapOrder} {E} path g now n :
  rtc (proc_step (E := E) path) (started g now)
    (mkProcess (Exited 0) (ShuttingDown (now + shutdown_window)) n now false [] g).
Proof.
  assert (Haccept : ∀ k, rtc (proc_step (E := E) path) (started g now) (mkProcess Serving Waiting k now true [] g)).
  { induction k as [|k IH]; [apply rtc_refl|]. eapply rtc_r; [exact IH|]. by constructor. }
  etrans; [apply (Haccept n)|]. eapply rtc_l; [by apply proc_stop|].
  eapply rtc_l; [by apply proc_server_closed|]. apply rtc_once, proc_return.
Qed.
